(* ===== verification/_CoqProject ===== *)
-Q . S2P
Prelude.v
MachineInt.v
Sha256.v
Text.v
Json.v
Kernel.v
Files.v
Reference.v
RevisionTypes.v
ReadPath.v
ReadTheorems.v
WritePath.v
WriteSafety.v
WriteSpec.v
WriteAlone.v
Framing.v
Exec.v
FsHandlers.v
Locking.v
Requests.v
Saving.v
Control.v
Isolation.v
Operations.v
Removal.v
Registry.v
Store.v
Sharing.v
Server.v
Concurrent.v
Linear.v
Linearizable.v
Delivery.v
Rest.v
Whole.v
