(* ===== verification/Prelude.v ===== *)
(** * The relay server: a verification development

    The relay server ([src/server/src/], Rust) runs on a remote host and serves files to
    one Emacs over a framed JSON protocol on its standard streams. This library models
    the server and proves what its clients rely on: a read is a consistent snapshot, a
    save never overwrites what the client has not seen, every request whose reply fits in
    a frame is answered, and the workers do not get into each other's way.

    ** The program and its model

    [main.rs] reads frames, answers control requests itself ([control.rs]) and hands all
    others to eight workers through a bounded queue. A worker runs [handle_fs]
    ([fs_handlers.rs]), which calls the revision code ([revisions/]), [std::fs] and
    [exec], and queues its reply for the writer thread ([framing.rs]).

    - [MachineInt.v]: bytes, [u32] and [u64] arithmetic with wrap-around and saturation,
      little-endian encodings, bit operations.
    - [Sha256.v]: [sha256] of [revisions/types.rs], and the digest of FIPS 180-4.
    - [Text.v]: UTF-8 validity, lossy conversion, [std::path::Path].
    - [Json.v]: the interfaces to [serde_json] and [base64] (classes [Json], [JsonLaws],
      [Base64], [Base64Laws]).
    - [Kernel.v], [Files.v]: the system calls under [std::fs] on an explicit file system
      (names, inodes, clock), with other processes before every call ([env]), failing
      calls ([fault]), short transfers ([chunk]), and a log of the states around every
      call. The classes name the assumptions that single theorems make: [Honest] (others
      mark what they change), [Undisturbed] (others change nothing; time goes by all the
      same, so that file systems are compared up to the clock, [≡]), [Faultless],
      [FreshInodes], and [SaneClock] of [Store.v].
    - [Reference.v]: instances of the interfaces for the witnesses; not the program.
    - [RevisionTypes.v]: [revisions/types.rs] and the wire forms of [revisions/mod.rs].
    - [ReadPath.v]: [revisions/read.rs] ([read_with_revision], [read_range],
      [tail_read]); [ReadTheorems.v]: their properties.
    - [WritePath.v]: [revisions/write.rs] ([PendingTemp] with its destructor, both
      conflict checks, [publish], [conditional_write_locked]); [WriteSafety.v]: what holds
      under any interference; [WriteSpec.v]: the specification [write_spec] when no other
      process is at work, and the phases that a save passes through ([save_call]);
      [WriteAlone.v]: refinement and atomicity.
    - [Framing.v]: [framing.rs], the writer thread and the reading half of the main loop.
    - [Exec.v]: [exec] of [fs_handlers.rs]: request, registry of process groups, polling
      loop with the kill and the blocking [child.wait()] after it, collection of the
      output, reader threads as a step relation. Where [exec] never returns, because a
      killed child does not end, its run ends with [Hangs].
    - [FsHandlers.v]: [handle_fs] with all operations and [mutation_guard], on a
      [Session] (world, channel to the writer, processes, trace of calls and lock use).
      [Locking.v]: the lock discipline of one worker; [Requests.v]: replies and listings;
      [Saving.v]: reading and saving over the wire, and refusals.
    - [Operations.v], [Removal.v]: the unconditional operations when no other process is
      at work ([computes]): plain writes, copies, recursive removal.
    - [Registry.v]: the registry of [Exec.v] among the workers and the main loop, which
      at the end of the input drains it in one step and then kills group by group.
    - [Store.v]: what the clients see of reading and saving, as an abstract store with
      compare-and-swap ([store_step]), and the proof that the handler implements it.
    - [Control.v]: [control.rs] and the watcher's callback of [main.rs].
    - [Server.v]: routing, queue and workers of [main.rs] as a step relation, and the
      lock among the workers.
    - [Isolation.v], [Concurrent.v]: what a run does depends only on what its calls met
      ([isolated]); a run between whose calls only time passes is a run alone, at the times
      that its calls showed; hence concurrent saves are atomic steps of the store.
    - [Sharing.v], [Linear.v], [Linearizable.v]: what a save looks like to a worker that
      reads, call by call; histories marked with the effects of requests, and the proof
      that reading and saving among the workers is linearizable.
    - [Delivery.v]: all threads of [main.rs], from the requests to the bytes on standard
      output, with both bounded queues; it simulates the pool of [Server.v]. Here a worker
      does a job by a run of [handle_fs] that returns.
    - [Rest.v]: the same threads where a job is done piece by piece ([script]), waits for
      the mutation lock, and may be blocked for ever in any call.
    - [Whole.v]: these threads with their workers' calls on one file system; from the
      requests on standard input to the replies on standard output the server is the store
      of [Store.v].

    Effects are explicit: a routine is a function from a state to a result and a state
    ([stm]); an early return or the [?] operator is the error case of its result. Names
    and structure follow the source; the lines of each definition are in the manifest.

    ** What is shown

    - Saving: a write that reports success saw the expected revision after its last
      byte was written; a create-only write never clobbers; no write touches a file in
      place; old or new, never torn, at every call; exactly one of two writers or
      creators wins; the boundary of these guarantees ([present_write_window]). In terms
      of requests and replies: the server is a compare-and-swap store
      ([server_is_a_store]), also when its workers save concurrently
      ([saves_are_linearizable]), when they read and save
      ([workers_are_linearizable]), and end to end ([clients_see_a_store]).
    - Reading: snapshots, ranges, following a growing file, what is refused and why.
    - Revisions: round trip of the wire form, exactly which JSON values are accepted,
      SHA-256.
    - Requests: one final reply each, unless it is beyond the frame limit; complete
      listings; harmless refusals; the mutation lock is used correctly by each worker,
      hence changes are exclusive among all; plain writes, copies and recursive removals
      do what they say and touch nothing else.
    - [exec]: bounded time where a kill ends the child, and what happens where it does
      not; bounded memory, truthful results, nothing left registered; what the end of the
      connection kills, and what it misses ([shutdown_window]).
    - Control: the alias map agrees with the watcher, events reach every alias until it
      is given up.
    - The whole: framing is faithful and bounded; in every interleaving of the threads the
      replies reach standard output whole and in order, and no job is lost or overtaken;
      the server always comes to rest, what is then undone waits for a call that never
      returns, and without such a call there is no deadlock ([server_comes_to_rest]).

    ** Bounds and fuel

    Loops over bytes use [mloop d]: [2 ^ d] rounds, with [d] from the length
    ([loop_depth]); [read_rounds_end] and [write_rounds_end] show that they never run
    out. The retry loops have the source's three attempts, the search for a temporary
    name its hundred. [poll_fuel] allows one poll per twenty milliseconds and two more;
    [exec_is_bounded] shows that this is enough, and ends in bounded time wherever the
    kill ends the child. [frames] has the stream's length as fuel, each frame being four
    bytes or more. [remove_tree] descends 4096 levels, which no path exceeds ([PATH_MAX];
    [recursive_removal_is_exact] shows that they are enough); symbolic links are followed
    forty deep, as by Linux.

    ** What is not modelled

    The Emacs client, the tests, and the insides of [serde_json], [base64], [notify] and
    [libc]. A path is its list of components: symbolic links are followed in the last
    component only, and [..] is not resolved, except by the host's [realpath]. Directory
    timestamps do not advance. Thread creation is not modelled. At the end of the input the
    process exits at once, whatever is still queued or running; the step relations describe
    the time before that, and leave the moment open. Until then the connection stands,
    except in [writer] and [Receiver], where it may break at any write. The main loop's and
    the writer's own calls return. A child process is a parameter: when it ends, when a kill
    ends it, and what its streams deliver. The theorems on concurrent workers assume that
    no one else, a child of [exec] included, changes the file system; those on
    linearizability cover reads, conditional saves and all requests that change nothing,
    not the unconditional mutations. *)
From Stdlib Require Export ZArith Lia Strings.Byte.
From stdpp Require Export base tactics list gmap strings pretty.

#[global] Set Default Goal Selector "!".

(** ** Rust's [Result] *)

Inductive result (A E : Type) : Type :=
| Ok (a : A)
| Err (e : E).
Arguments Ok {A E} a.
Arguments Err {A E} e.

#[export] Instance result_eq_dec {A E} `{EqDecision A, EqDecision E} :
  EqDecision (result A E).
Proof. solve_decision. Defined.

Definition is_ok {A E} (r : result A E) : bool :=
  match r with Ok _ => true | Err _ => false end.

(** [Result::map], [Result::map_err], [Result::ok], [Option::ok_or_else]. *)
Definition result_map {A B E} (f : A → B) (r : result A E) : result B E :=
  match r with Ok a => Ok (f a) | Err e => Err e end.
Definition result_map_err {A E F} (f : E → F) (r : result A E) : result A F :=
  match r with Ok a => Ok a | Err e => Err (f e) end.
Definition result_ok {A E} (r : result A E) : option A :=
  match r with Ok a => Some a | Err _ => None end.
Definition ok_or {A E} (e : E) (o : option A) : result A E :=
  match o with Some a => Ok a | None => Err e end.

(** The [?] operator: sequencing of fallible pure code. *)
Definition result_bind {A B E} (r : result A E) (f : A → result B E) : result B E :=
  match r with Ok a => f a | Err e => Err e end.

Declare Scope relay_scope.
Delimit Scope relay_scope with relay.
Notation "'let?' x ':=' r 'in' k" := (result_bind r (λ x, k))
  (at level 10, x pattern, r at level 100, k at level 200,
   format "'[v' 'let?'  x  ':='  r  'in' '//' k ']'") : relay_scope.
#[global] Open Scope relay_scope.

Lemma result_bind_ok {A B E} (r : result A E) (f : A → result B E) b :
  result_bind r f = Ok b ↔ ∃ a, r = Ok a ∧ f a = Ok b.
Proof.
  split; [destruct r; simpl; [eauto|done]|].
  intros (a & -> & Hf). exact Hf.
Qed.

Lemma ok_or_ok {A E} (e : E) (o : option A) a : ok_or e o = Ok a ↔ o = Some a.
Proof. split; [destruct o; simpl; congruence|by intros ->]. Qed.

(** ** Effectful code

    A computation that reads and changes a state [W] and either returns or
    leaves early with an error; the state survives the error. *)

Definition stm (W E A : Type) : Type := W → result A E * W.

#[export] Instance stm_ret {W E} : MRet (stm W E) := λ A a w, (Ok a, w).
#[export] Instance stm_bind {W E} : MBind (stm W E) := λ A B f m w,
  match m w with
  | (Ok a, w') => f a w'
  | (Err e, w') => (Err e, w')
  end.

(** Early return, [map_err(..)?], [match call() { Ok .. Err .. }], state access. *)
Definition throw {W E A} (e : E) : stm W E A := λ w, (Err e, w).
Definition map_err {W E F A} (f : E → F) (m : stm W E A) : stm W F A :=
  λ w, match m w with (r, w') => (result_map_err f r, w') end.
Definition attempt {W E F A} (m : stm W E A) : stm W F (result A E) :=
  λ w, match m w with (r, w') => (Ok r, w') end.
Definition lift_result {W E A} (r : result A E) : stm W E A := λ w, (r, w).

(** A scope with one mutable local [L]: [global] code does not see it, [local]
    code changes only it; leaving the scope, early or not, runs [drop] on its
    final value, as a Rust destructor does. *)
Definition global {W L E A} (m : stm W E A) : stm (W * L) E A :=
  λ wl, match m wl.1 with (r, w') => (r, (w', wl.2)) end.
Definition local {W L E} (f : L → L) : stm (W * L) E unit :=
  λ wl, (Ok tt, (wl.1, f wl.2)).
Definition scope {W L E A} (drop : L → W → W) (l : L) (body : stm (W * L) E A) :
    stm W E A :=
  λ w, match body (w, l) with (r, (w', l')) => (r, drop l' w') end.

(** ** Reasoning about effectful code

    [wp m Q w]: running [m] from [w] ends with a result and a state that
    satisfy [Q]; errors are results like any other. *)

Definition wp {W E A} (m : stm W E A) (Q : result A E → W → Prop) (w : W) : Prop :=
  Q (m w).1 (m w).2.

(** What a caller of [m] must show when [m] is followed by [f]. *)
Definition bind_post {W E A B} (f : A → stm W E B) (Q : result B E → W → Prop)
    (r : result A E) (w : W) : Prop :=
  match r with Ok a => wp (f a) Q w | Err e => Q (Err e) w end.

Section wp_rules.
Context {W E : Type}.
Implicit Types w : W.

Lemma wp_mono {A} (m : stm W E A) (P Q : result A E → W → Prop) w :
  wp m P w → (∀ r w', P r w' → Q r w') → wp m Q w.
Proof. unfold wp. eauto. Qed.

Lemma wp_and {A} (m : stm W E A) (P Q : result A E → W → Prop) w :
  wp m P w → wp m Q w → wp m (λ r w', P r w' ∧ Q r w') w.
Proof. unfold wp. eauto. Qed.

Lemma wp_ret {A} (a : A) (Q : result A E → W → Prop) w :
  Q (Ok a) w → wp (mret a) Q w.
Proof. done. Qed.

Lemma wp_throw {A} (e : E) (Q : result A E → W → Prop) w :
  Q (Err e) w → wp (throw e) Q w.
Proof. done. Qed.

Lemma wp_bind {A B} (m : stm W E A) (f : A → stm W E B) Q w :
  wp m (bind_post f Q) w → wp (m ≫= f) Q w.
Proof.
  unfold wp, bind_post, mbind, stm_bind. destruct (m w) as [[a|e] w']; done.
Qed.

Lemma wp_attempt {F A} (m : stm W E A) (Q : result (result A E) F → W → Prop) w :
  wp m (λ r w', Q (Ok r) w') w → wp (attempt m) Q w.
Proof. unfold wp, attempt. by destruct (m w). Qed.

Lemma wp_map_err {F A} (f : E → F) (m : stm W E A) (Q : result A F → W → Prop) w :
  wp m (λ r w', Q (result_map_err f r) w') w → wp (map_err f m) Q w.
Proof. unfold wp, map_err. by destruct (m w). Qed.

Lemma wp_global {L A} (m : stm W E A) (Q : result A E → W * L → Prop) w l :
  wp m (λ r w', Q r (w', l)) w → wp (global m) Q (w, l).
Proof. unfold wp, global. simpl. by destruct (m w). Qed.

Lemma wp_local {L} (f : L → L) (Q : result unit E → W * L → Prop) w l :
  Q (Ok tt) (w, f l) → wp (local f) Q (w, l).
Proof. done. Qed.

Lemma wp_scope {L A} drop (l : L) (body : stm (W * L) E A) Q w :
  wp body (λ r wl, Q r (drop wl.2 wl.1)) (w, l) → wp (scope drop l body) Q w.
Proof. unfold wp, scope. by destruct (body (w, l)) as [r [w' l']]. Qed.

Lemma wp_lift {A} (r : result A E) (Q : result A E → W → Prop) w :
  Q r w → wp (lift_result r) Q w.
Proof. done. Qed.
End wp_rules.

(** [preserves R m]: whatever [m] does and however it ends, it moves the state
    along [R]. With [R] a preorder this composes along [bind]. *)
Definition preserves {W E A} (R : W → W → Prop) (m : stm W E A) : Prop :=
  ∀ w, R w (m w).2.

Section preserves_rules.
Context {W E : Type} (R : W → W → Prop) `{!PreOrder R}.

Lemma wp_preserves {A} (m : stm W E A) w :
  preserves R m → wp m (λ _ w', R w w') w.
Proof. intros Hm. apply Hm. Qed.

Lemma preserves_ret {A} (a : A) : preserves R (mret a : stm W E A).
Proof. by intros w. Qed.

Lemma preserves_throw {A} (e : E) : preserves R (throw e : stm W E A).
Proof. by intros w. Qed.

Lemma preserves_lift {A} (r : result A E) : preserves R (lift_result r : stm W E A).
Proof. by intros w. Qed.

Lemma preserves_bind {A B} (m : stm W E A) (f : A → stm W E B) :
  preserves R m → (∀ a, preserves R (f a)) → preserves R (m ≫= f).
Proof.
  intros Hm Hf w. unfold mbind, stm_bind. specialize (Hm w).
  destruct (m w) as [[a|e] w'] eqn:Hw; simpl in *; [|done].
  etransitivity; [done|apply Hf].
Qed.

Lemma preserves_attempt {F A} (m : stm W E A) :
  preserves R m → preserves R (attempt m : stm W F _).
Proof. intros Hm w. specialize (Hm w). unfold attempt. by destruct (m w). Qed.

Lemma preserves_map_err {F A} (f : E → F) (m : stm W E A) :
  preserves R m → preserves R (map_err f m).
Proof. intros Hm w. specialize (Hm w). unfold map_err. by destruct (m w). Qed.
End preserves_rules.

Create HintDb preserves.
#[export] Hint Resolve preserves_ret preserves_throw preserves_lift
  preserves_attempt preserves_map_err : preserves.

(** The errors of a routine. *)
Definition raises {W E A} (P : E → Prop) (m : stm W E A) : Prop := ∀ w e, (m w).1 = Err e → P e.

Lemma raises_pure {W E A} (P : E → Prop) (r : result A E) (h : W → W) :
  (∀ e, r = Err e → P e) → raises P ((λ w, (r, h w)) : stm W E A).
Proof. intros HP w e He. by apply HP. Qed.

Lemma raises_bind {W E A B} (P : E → Prop) (m : stm W E A) (f : A → stm W E B) :
  raises P m → (∀ a, raises P (f a)) → raises P (m ≫= f).
Proof.
  intros Hm Hf w e. unfold mbind, stm_bind. specialize (Hm w). destruct (m w) as [[a|e'] w']; simpl in *; [apply Hf|].
  intros [= <-]. by apply Hm.
Qed.

Lemma raises_attempt {W E F A} (P : F → Prop) (m : stm W E A) : raises P (attempt m : stm W F _).
Proof. intros w e. unfold attempt. by destruct (m w). Qed.

Lemma raises_map_err {W E F A} (P : F → Prop) (f : E → F) (m : stm W E A) :
  (∀ e, P (f e)) → raises P (map_err f m).
Proof. intros HP w e. unfold map_err. destruct (m w) as [[a|e'] w']; [done|]. intros [= <-]. apply HP. Qed.

(** ** Loops

    [mloop d step s] runs [step] up to [2 ^ d] times, stopping at the first
    [inr]. The doubling makes a loop over millions of bytes executable: the
    number of unfolded frames is the number of iterations really made. *)
Fixpoint mloop {W E S R} (d : nat) (step : S → stm W E (S + R)) (s : S) :
    stm W E (S + R) :=
  match d with
  | O => step s
  | Datatypes.S d' =>
      r ← mloop d' step s;
      match r with
      | inl s' => mloop d' step s'
      | inr x => mret (inr x)
      end
  end.

Section loops.
Context {W E S R : Type} (step : S → stm W E (S + R)).

(** What one more round owes to the rounds before it. *)
Definition loop_post (I : S → W → Prop) (Q : result R E → W → Prop)
    (r : result (S + R) E) (w : W) : Prop :=
  match r with
  | Ok (inl s) => I s w
  | Ok (inr x) => Q (Ok x) w
  | Err e => Q (Err e) w
  end.

Lemma wp_mloop (I : S → W → Prop) Q d s w :
  (∀ s w, I s w → wp (step s) (loop_post I Q) w) →
  I s w → wp (mloop d step s) (loop_post I Q) w.
Proof.
  intros Hstep. revert s w. induction d as [|d IH]; intros s w HI; simpl; [auto|].
  apply wp_bind. eapply wp_mono; [by apply IH|].
  intros [[s'|x]|e] w' HQ; simpl in *; [by apply IH|done..].
Qed.

(** A loop whose rounds decrease a measure below [2 ^ d] always finishes. *)
Lemma mloop_done (μ : S → nat) d s w s' :
  (∀ s w s', (step s w).1 = Ok (inl s') → (μ s' < μ s)%nat) →
  (μ s < 2 ^ d)%nat → (mloop d step s w).1 ≠ Ok (inl s').
Proof.
  intros Hstep Hμ Heq.
  enough (μ s' + 2 ^ d ≤ μ s)%nat by lia. clear Hμ.
  revert s w s' Heq. induction d as [|d IH]; intros s w s' Heq; simpl in *.
  - apply Hstep in Heq. lia.
  - unfold mbind, stm_bind in Heq.
    destruct (mloop d step s w) as [[[s1|x]|e] w1] eqn:H1; simpl in *; try done.
    specialize (IH s w s1) as IH1. rewrite H1 in IH1. specialize (IH1 eq_refl).
    apply IH in Heq. lia.
Qed.

(** Total correctness: an invariant, and a measure that decreases. *)
Lemma wp_mloop_total (I : S → W → Prop) (Q : R → W → Prop) (μ : S → nat) d s w :
  (∀ s w, I s w → wp (step s) (λ r w', match r with
     | Ok (inl s') => I s' w' ∧ (μ s' < μ s)%nat
     | Ok (inr x) => Q x w'
     | Err _ => False
     end) w) →
  I s w → (μ s < 2 ^ d)%nat → wp (mloop d step s) (λ r w', ∃ x, r = Ok (inr x) ∧ Q x w') w.
Proof.
  intros Hstep HI Hμ. enough (wp (mloop d step s) (λ r w', match r with
     | Ok (inl s') => I s' w' ∧ (μ s' + 2 ^ d ≤ μ s)%nat
     | Ok (inr x) => Q x w'
     | Err _ => False
     end) w) as Hd.
  { eapply wp_mono; [exact Hd|]. intros [[s'|x]|e] w'; [intros [_ ?]; lia|eauto|done]. }
  clear Hμ. revert s w HI. induction d as [|d IH]; intros s w HI; simpl.
  - eapply wp_mono; [by apply Hstep|]. intros [[s'|x]|e] w'; [|done..]. intros [? ?]. split; [done|lia].
  - apply wp_bind. eapply wp_mono; [by apply IH|]. intros [[s'|x]|e] w'; [|done..]. intros [HI' Hle].
    eapply wp_mono; [by apply IH|]. intros [[s2|x]|e] w2; [|done..]. intros [? ?]. split; [done|lia].
Qed.

Lemma preserves_mloop (Rel : W → W → Prop) `{!PreOrder Rel} d s :
  (∀ s, preserves Rel (step s)) → preserves Rel (mloop d step s).
Proof.
  intros Hstep. revert s. induction d as [|d IH]; intros s; simpl; [done|].
  apply preserves_bind; [done..|]. intros [s'|x]; [done|by apply preserves_ret].
Qed.
End loops.

(** One structural step of a [wp] goal. *)
Ltac wp_step :=
  lazymatch goal with
  | |- wp (mbind _ _) _ _ => apply wp_bind
  | |- wp (map_err _ _) _ _ => apply wp_map_err
  | |- wp (attempt _) _ _ => apply wp_attempt
  | |- wp (mret _) _ _ => apply wp_ret
  | |- wp (throw _) _ _ => apply wp_throw
  | |- wp (lift_result _) _ _ => apply wp_lift
  | |- wp (global _) _ _ => apply wp_global
  | |- wp (local _) _ _ => apply wp_local
  | |- wp (scope _ _ _) _ _ => apply wp_scope
  end; cbn [bind_post result_map_err].

(** Proves [preserves R m] for code built from calls that preserve [R]. *)
Ltac preserves_tac :=
  repeat lazymatch goal with
  | |- forall _, _ => intro
  | |- preserves _ (mbind _ _) => apply preserves_bind; [exact _| |]
  | |- preserves _ (mret _) => apply preserves_ret, _
  | |- preserves _ (throw _) => apply preserves_throw, _
  | |- preserves _ (lift_result _) => apply preserves_lift, _
  | |- preserves _ (attempt _) => apply preserves_attempt
  | |- preserves _ (map_err _ _) => apply preserves_map_err
  | |- preserves _ (match ?x with _ => _ end) => destruct x
  | |- _ => solve [auto with preserves]
  end.

(** ** Lists *)

(** Overwriting a byte range inside a list, as [pwrite] does. *)
Definition splice {A} (off : nat) (new old : list A) : list A :=
  take off old ++ new ++ drop (off + length new) old.

Lemma splice_end {A} (new old : list A) : splice (length old) new old = old ++ new.
Proof.
  unfold splice. rewrite take_ge by done. rewrite drop_ge by lia. by rewrite app_nil_r.
Qed.

Lemma take_drop_app_split {A} (n m : nat) (l : list A) :
  take n l ++ take m (drop n l) = take (n + m) l.
Proof. by rewrite take_take_drop. Qed.

Create Rewrite HintDb list_len.
#[export] Hint Rewrite @length_app @length_take @length_drop @length_replicate
  @length_fmap : list_len.

(** Splits hypotheses of the shape [a && b = true] and the like. *)
Ltac split_bools :=
  repeat match goal with
  | H : (_ && _)%bool = true |- _ => apply andb_true_iff in H; destruct H
  | H : (_ || _)%bool = false |- _ => apply orb_false_iff in H; destruct H
  | H : negb _ = true |- _ => apply negb_true_iff in H
  | H : negb _ = false |- _ => apply negb_false_iff in H
  | H : (_ <=? _)%Z = true |- _ => apply Z.leb_le in H
  | H : (_ <=? _)%Z = false |- _ => apply Z.leb_gt in H
  | H : (_ <? _)%Z = true |- _ => apply Z.ltb_lt in H
  | H : (_ <? _)%Z = false |- _ => apply Z.ltb_ge in H
  | H : (_ =? _)%Z = true |- _ => apply Z.eqb_eq in H
  | H : (_ =? _)%Z = false |- _ => apply Z.eqb_neq in H
  | H : bool_decide _ = true |- _ => apply bool_decide_eq_true in H
  | H : bool_decide _ = false |- _ => apply bool_decide_eq_false in H
  end.

(** Case analysis on the outermost [match] or [if] of the goal, then of the
    hypotheses, remembering the equation. *)
Ltac case_goal := match goal with
  | |- context [match ?x with _ => _ end] =>
      lazymatch x with context [match _ with _ => _ end] => fail | _ => destruct x eqn:? end
  end.
Ltac case_hyp := match goal with
  | H : context [match ?x with _ => _ end] |- _ =>
      lazymatch x with context [match _ with _ => _ end] => fail | _ => destruct x eqn:? end
  end.

(** Linear arithmetic with division and remainder by constants. *)
Ltac dlia := Zify.zify; Z.to_euclidean_division_equations; lia.

(** Unpacks hypotheses [let? x := r in k = Ok a] into their steps. *)
Ltac inv_ok :=
  repeat match goal with
  | H : result_bind _ _ = Ok _ |- _ => apply result_bind_ok in H as (? & ? & H)
  | H : ok_or _ _ = Ok _ |- _ => apply ok_or_ok in H
  | H : Ok _ = Ok _ |- _ => injection H as H
  | H : Err _ = Ok _ |- _ => discriminate H
  | H : _ ≫= _ = Some _ |- _ => apply bind_Some in H as (? & ? & H)
  end.
