(* ===== verification/MachineInt.v ===== *)
(** * Machine integers and bytes

    Rust's fixed-width integers as [Z] with the wrap-around written out, the
    byte codecs ([to_le_bytes], [from_le_bytes], [to_be_bytes],
    [from_be_bytes]) and the number formats ([{}] and [{:08x}]) that the
    server uses. *)
From S2P Require Import Prelude.
Local Open Scope Z_scope.

(** ** Ranges *)

Definition u8_range (z : Z) : Prop := 0 ≤ z < 2 ^ 8.
Definition u32_range (z : Z) : Prop := 0 ≤ z < 2 ^ 32.
Definition u64_range (z : Z) : Prop := 0 ≤ z < 2 ^ 64.
Definition i64_range (z : Z) : Prop := - 2 ^ 63 ≤ z < 2 ^ 63.

#[export] Instance u8_range_dec z : Decision (u8_range z) := _.
#[export] Instance u32_range_dec z : Decision (u32_range z) := _.
#[export] Instance u64_range_dec z : Decision (u64_range z) := _.
#[export] Instance i64_range_dec z : Decision (i64_range z) := _.

(** ** 32-bit words: [u32::wrapping_add], [rotate_right], [>>], [!] *)

Definition wrap32 (z : Z) : Z := z mod 2 ^ 32.
Definition wadd32 (a b : Z) : Z := wrap32 (a + b).
Definition rotr32 (x n : Z) : Z := Z.lor (Z.shiftr x n) (wrap32 (Z.shiftl x (32 - n))).
Definition not32 (x : Z) : Z := Z.lxor x (2 ^ 32 - 1).

(** ** 64-bit arithmetic: [u64::wrapping_mul], [saturating_add] *)

Definition wmul64 (a b : Z) : Z := (a * b) mod 2 ^ 64.
Definition saturating_add64 (a b : Z) : Z := Z.min (a + b) (2 ^ 64 - 1).

Lemma wrap32_range z : u32_range (wrap32 z).
Proof. apply Z.mod_pos_bound. lia. Qed.

Lemma wadd32_range a b : u32_range (wadd32 a b).
Proof. apply wrap32_range. Qed.

(** A number is below [2 ^ n] exactly when no bit from [n] up is set. *)
Lemma below_pow2 (n a : Z) :
  0 ≤ n → 0 ≤ a → (∀ i, n ≤ i → Z.testbit a i = false) → a < 2 ^ n.
Proof.
  intros Hn Ha Hbits. destruct (Z.eq_dec a 0) as [->|Hnz]; [lia|].
  apply Z.log2_lt_pow2; [lia|].
  destruct (Z.lt_ge_cases (Z.log2 a) n) as [|Hge]; [done|].
  specialize (Hbits _ Hge). rewrite Z.bit_log2 in Hbits by lia. done.
Qed.

Lemma testbit_above (n a i : Z) : 0 ≤ a < 2 ^ n → n ≤ i → Z.testbit a i = false.
Proof.
  intros [Ha Hlt] Hi. destruct (Z.lt_ge_cases n 0).
  { rewrite Z.pow_neg_r in Hlt by lia. lia. }
  destruct (Z.eq_dec a 0) as [->|]; [apply Z.bits_0|].
  apply Z.bits_above_log2; [lia|].
  apply Z.lt_le_trans with n; [|done]. apply Z.log2_lt_pow2; lia.
Qed.

(** Bitwise operations stay inside the word. *)
Lemma u32_bitwise (f : bool → bool → bool) (op : Z → Z → Z) a b :
  (∀ i, Z.testbit (op a b) i = f (Z.testbit a i) (Z.testbit b i)) →
  f false false = false →
  u32_range a → u32_range b → 0 ≤ op a b → u32_range (op a b).
Proof.
  intros Hop Hf Ha Hb Hpos. split; [done|]. apply below_pow2; [lia|done|].
  intros i Hi. rewrite Hop, (testbit_above 32 a), (testbit_above 32 b) by done. done.
Qed.

Lemma lxor_range a b : u32_range a → u32_range b → u32_range (Z.lxor a b).
Proof.
  intros Ha Hb. apply (u32_bitwise xorb Z.lxor); try done; [apply Z.lxor_spec|].
  destruct Ha, Hb. by apply Z.lxor_nonneg.
Qed.
Lemma land_range a b : u32_range a → u32_range b → u32_range (Z.land a b).
Proof.
  intros Ha Hb. apply (u32_bitwise andb Z.land); try done; [apply Z.land_spec|].
  destruct Ha, Hb. apply Z.land_nonneg. by left.
Qed.
Lemma lor_range a b : u32_range a → u32_range b → u32_range (Z.lor a b).
Proof.
  intros Ha Hb. apply (u32_bitwise orb Z.lor); try done; [apply Z.lor_spec|].
  destruct Ha, Hb. by apply Z.lor_nonneg.
Qed.
Lemma shiftr_range a n : 0 ≤ n → u32_range a → u32_range (Z.shiftr a n).
Proof.
  intros Hn [Ha Hlt]. rewrite Z.shiftr_div_pow2 by done.
  assert (0 < 2 ^ n) by (apply Z.pow_pos_nonneg; lia).
  split; [by apply Z.div_pos|]. apply Z.div_lt_upper_bound; nia.
Qed.
Lemma rotr32_range a n : 0 ≤ n → u32_range a → u32_range (rotr32 a n).
Proof. intros. apply lor_range; [by apply shiftr_range|apply wrap32_range]. Qed.
Lemma not32_range a : u32_range a → u32_range (not32 a).
Proof. intros. by apply lxor_range. Qed.

Create HintDb u32.
#[export] Hint Resolve wrap32_range wadd32_range lxor_range land_range lor_range
  shiftr_range rotr32_range not32_range : u32.
#[export] Hint Extern 1 (0 ≤ _)%Z => lia : u32.

(** ** Bytes *)

#[export] Instance byte_eq_dec : EqDecision byte := Byte.byte_eq_dec.

Definition byte_val (b : byte) : Z := Z.of_N (Byte.to_N b).
Definition byte_of (z : Z) : byte := default x00 (Byte.of_N (Z.to_N (z mod 2 ^ 8))).

Lemma byte_val_range b : u8_range (byte_val b).
Proof. pose proof (Byte.to_N_bounded b). unfold u8_range, byte_val. lia. Qed.

Lemma byte_of_val b : byte_of (byte_val b) = b.
Proof.
  pose proof (byte_val_range b). unfold byte_of, u8_range in *.
  rewrite Z.mod_small by done. unfold byte_val. by rewrite N2Z.id, Byte.of_to_N.
Qed.

Lemma byte_val_of z : byte_val (byte_of z) = z mod 2 ^ 8.
Proof.
  unfold byte_of. pose proof (Z.mod_pos_bound z (2 ^ 8) ltac:(lia)) as Hz.
  destruct (Byte.of_N (Z.to_N (z mod 2 ^ 8))) as [b|] eqn:Hb; simpl.
  - apply Byte.to_of_N in Hb. unfold byte_val. rewrite Hb. lia.
  - apply Byte.of_N_None_iff in Hb. lia.
Qed.

(** ** [to_le_bytes], [from_le_bytes] and their big-endian mirrors *)

Fixpoint le_bytes (n : nat) (z : Z) : list byte :=
  match n with
  | O => []
  | S n => byte_of z :: le_bytes n (z / 2 ^ 8)
  end.

Fixpoint le_val (bs : list byte) : Z :=
  match bs with
  | [] => 0
  | b :: bs => byte_val b + 2 ^ 8 * le_val bs
  end.

Definition be_bytes (n : nat) (z : Z) : list byte := reverse (le_bytes n z).
Definition be_val (bs : list byte) : Z := le_val (reverse bs).

Lemma length_le_bytes n z : length (le_bytes n z) = n.
Proof. revert z. induction n; simpl; auto. Qed.
Lemma length_be_bytes n z : length (be_bytes n z) = n.
Proof. unfold be_bytes. by rewrite length_reverse, length_le_bytes. Qed.
#[export] Hint Rewrite length_le_bytes length_be_bytes : list_len.

Lemma le_val_range bs : 0 ≤ le_val bs < 2 ^ (8 * Z.of_nat (length bs)).
Proof.
  induction bs as [|b bs IH]; [done|]. pose proof (byte_val_range b) as Hb.
  unfold u8_range in Hb. cbn [le_val length].
  replace (8 * Z.of_nat (S (length bs))) with (8 + 8 * Z.of_nat (length bs)) by lia.
  rewrite Z.pow_add_r by lia. change (2 ^ 8) with 256 in *. lia.
Qed.

Lemma le_val_bytes n z : le_val (le_bytes n z) = z mod 2 ^ (8 * Z.of_nat n).
Proof.
  revert z. induction n as [|n IH]; intros z; cbn [le_val le_bytes].
  { by rewrite Z.mod_1_r. }
  rewrite IH, byte_val_of.
  replace (8 * Z.of_nat (S n)) with (8 + 8 * Z.of_nat n) by lia.
  rewrite Z.pow_add_r by lia.
  rewrite Z.rem_mul_r by (try apply Z.pow_nonzero; lia). done.
Qed.

Lemma le_bytes_val bs : le_bytes (length bs) (le_val bs) = bs.
Proof.
  induction bs as [|b bs IH]; [done|]. cbn [length le_bytes le_val].
  pose proof (byte_val_range b) as Hb. unfold u8_range in Hb. f_equal.
  - rewrite <-(byte_of_val b) at 2. unfold byte_of.
    by rewrite (Z.mul_comm (2 ^ 8)), Z.mod_add by lia.
  - rewrite (Z.mul_comm (2 ^ 8)), Z.div_add by lia.
    rewrite Z.div_small by done. done.
Qed.

Lemma be_val_range bs : 0 ≤ be_val bs < 2 ^ (8 * Z.of_nat (length bs)).
Proof. unfold be_val. rewrite <-(length_reverse bs). apply le_val_range. Qed.

(** ** Formats *)

(** One lower-case hexadecimal digit. *)
Definition hex_digit (z : Z) : Ascii.ascii :=
  Ascii.ascii_of_N (Z.to_N (if z <? 10 then 48 + z else 87 + z)).

(** [format!("{:08x}", w)] for a [u32]: eight digits, most significant first. *)
Definition hex08 (w : Z) : string :=
  foldr (λ i s, String (hex_digit (Z.shiftr w (4 * i) mod 16)) s) EmptyString
    [7; 6; 5; 4; 3; 2; 1; 0].

(** [u8::is_ascii_digit] and [b'a'..=b'f']. *)
Definition ascii_code (c : Ascii.ascii) : Z := Z.of_N (Ascii.N_of_ascii c).
Definition is_ascii_digit (c : Ascii.ascii) : bool :=
  (48 <=? ascii_code c) && (ascii_code c <=? 57).
Definition is_a_to_f (c : Ascii.ascii) : bool :=
  (97 <=? ascii_code c) && (ascii_code c <=? 102).
Definition is_lower_hex (c : Ascii.ascii) : bool := is_ascii_digit c || is_a_to_f c.

(** [s.bytes().all(p)] *)
Fixpoint string_all (p : Ascii.ascii → bool) (s : string) : bool :=
  match s with
  | EmptyString => true
  | String c s => p c && string_all p s
  end.

Lemma string_all_app p s t : string_all p (s +:+ t) = string_all p s && string_all p t.
Proof. induction s as [|c s IH]; simpl; [done|]. by rewrite IH, andb_assoc. Qed.

Lemma string_length_app s t :
  String.length (s +:+ t) = (String.length s + String.length t)%nat.
Proof. induction s as [|c s IH]; simpl; [done|]. by rewrite IH. Qed.

Lemma hex_digit_lower z : 0 ≤ z < 16 → is_lower_hex (hex_digit z) = true.
Proof.
  intros Hz. unfold is_lower_hex, is_ascii_digit, is_a_to_f, hex_digit, ascii_code.
  destruct (z <? 10) eqn:H10; split_bools; rewrite Ascii.N_ascii_embedding by lia.
  - rewrite !(proj2 (Z.leb_le _ _)) by lia. done.
  - rewrite !(proj2 (Z.leb_le 97 _)) by lia.
    rewrite !(proj2 (Z.leb_le _ 102)) by lia. apply orb_true_r.
Qed.

Lemma hex08_lower w : string_all is_lower_hex (hex08 w) = true.
Proof.
  unfold hex08. cbn [foldr string_all].
  repeat rewrite hex_digit_lower by (apply Z.mod_pos_bound; lia). done.
Qed.

Lemma hex08_length w : String.length (hex08 w) = 8%nat.
Proof. reflexivity. Qed.
