(* ===== verification/Sha256.v ===== *)
(** * SHA-256 as [revisions/types.rs] computes it

    [sha256] is the routine of the server, statement by statement: the padding
    loop, the word array filled in two passes, the eight working variables
    and the hexadecimal rendering. [Module Fips] is the standard's own
    definition (FIPS 180-4, sections 5.1.1, 4.1.2 and 6.2.2), written without
    reference to the routine; the two are proved equal. *)
From S2P Require Import Prelude MachineInt.
Local Open Scope Z_scope.

Definition INITIAL : list Z :=
  [0x6A09E667; 0xBB67AE85; 0x3C6EF372; 0xA54FF53A; 0x510E527F; 0x9B05688C; 0x1F83D9AB;
   0x5BE0CD19].

Definition K : list Z :=
  [0x428A2F98; 0x71374491; 0xB5C0FBCF; 0xE9B5DBA5; 0x3956C25B; 0x59F111F1;
   0x923F82A4; 0xAB1C5ED5; 0xD807AA98; 0x12835B01; 0x243185BE; 0x550C7DC3;
   0x72BE5D74; 0x80DEB1FE; 0x9BDC06A7; 0xC19BF174; 0xE49B69C1; 0xEFBE4786;
   0x0FC19DC6; 0x240CA1CC; 0x2DE92C6F; 0x4A7484AA; 0x5CB0A9DC; 0x76F988DA;
   0x983E5152; 0xA831C66D; 0xB00327C8; 0xBF597FC7; 0xC6E00BF3; 0xD5A79147;
   0x06CA6351; 0x14292967; 0x27B70A85; 0x2E1B2138; 0x4D2C6DFC; 0x53380D13;
   0x650A7354; 0x766A0ABB; 0x81C2C92E; 0x92722C85; 0xA2BFE8A1; 0xA81A664B;
   0xC24B8B70; 0xC76C51A3; 0xD192E819; 0xD6990624; 0xF40E3585; 0x106AA070;
   0x19A4C116; 0x1E376C08; 0x2748774C; 0x34B0BCB5; 0x391C0CB3; 0x4ED8AA4A;
   0x5B9CCA4F; 0x682E6FF3; 0x748F82EE; 0x78A5636F; 0x84C87814; 0x8CC70208;
   0x90BEFFFA; 0xA4506CEB; 0xBEF9A3F7; 0xC67178F2].

(** ** The routine *)

(** [while (padded.len() + 8) % 64 != 0 { padded.push(0) }] *)
Fixpoint pad_loop (fuel : nat) (padded : list byte) : list byte :=
  match fuel with
  | O => padded
  | S fuel =>
      if decide ((length padded + 8) mod 64 = 0)%nat then padded
      else pad_loop fuel (padded ++ [x00])
  end.

(** [(bytes.len() as u64).wrapping_mul(8)] *)
Definition bit_len (bytes : list byte) : Z :=
  wmul64 (Z.of_nat (length bytes) mod 2 ^ 64) 8.

Definition padded (bytes : list byte) : list byte :=
  pad_loop 64 (bytes ++ [x80]) ++ be_bytes 8 (bit_len bytes).

(** [slice::chunks_exact]: the full chunks, a shorter rest is dropped. *)
Fixpoint chunks_exact_fuel {A} (fuel n : nat) (l : list A) : list (list A) :=
  match fuel with
  | O => []
  | S fuel =>
      if decide (length l < n)%nat then []
      else take n l :: chunks_exact_fuel fuel n (drop n l)
  end.
Definition chunks_exact {A} (n : nat) (l : list A) : list (list A) :=
  chunks_exact_fuel (length l) n l.

(** [chunk[index * 4..index * 4 + 4]] as a big-endian word. *)
Definition chunk_word (chunk : list byte) (index : nat) : Z :=
  be_val (take 4 (drop (index * 4) chunk)).

Definition word (words : list Z) (index : nat) : Z := nth index words 0.

Definition load_words (chunk : list byte) (words : list Z) : list Z :=
  foldl (λ ws index, <[index := chunk_word chunk index]> ws) words (seq 0 16).

Definition extend_word (words : list Z) (index : nat) : list Z :=
  let s0 := Z.lxor (Z.lxor (rotr32 (word words (index - 15)) 7)
                           (rotr32 (word words (index - 15)) 18))
                   (Z.shiftr (word words (index - 15)) 3) in
  let s1 := Z.lxor (Z.lxor (rotr32 (word words (index - 2)) 17)
                           (rotr32 (word words (index - 2)) 19))
                   (Z.shiftr (word words (index - 2)) 10) in
  <[index := wadd32 (wadd32 (wadd32 (word words (index - 16)) s0)
                            (word words (index - 7))) s1]> words.

Definition schedule (chunk : list byte) : list Z :=
  foldl extend_word (load_words chunk (replicate 64 0)) (seq 16 48).

(** The mutable variables [a] to [h] of the compression loop. *)
Record Vars := mkVars { va : Z; vb : Z; vc : Z; vd : Z; ve : Z; vf : Z; vg : Z; vh : Z }.

Definition round (words : list Z) (v : Vars) (index : nat) : Vars :=
  let '(mkVars a b c d e f g h) := v in
  let s1 := Z.lxor (Z.lxor (rotr32 e 6) (rotr32 e 11)) (rotr32 e 25) in
  let choose := Z.lxor (Z.land e f) (Z.land (not32 e) g) in
  let temp1 := wadd32 (wadd32 (wadd32 (wadd32 h s1) choose) (nth index K 0))
                      (word words index) in
  let s0 := Z.lxor (Z.lxor (rotr32 a 2) (rotr32 a 13)) (rotr32 a 22) in
  let majority := Z.lxor (Z.lxor (Z.land a b) (Z.land a c)) (Z.land b c) in
  let temp2 := wadd32 s0 majority in
  mkVars (wadd32 temp1 temp2) a b c (wadd32 d temp1) e f g.

Definition vars_of (hash : list Z) : Vars :=
  mkVars (nth 0 hash 0) (nth 1 hash 0) (nth 2 hash 0) (nth 3 hash 0)
         (nth 4 hash 0) (nth 5 hash 0) (nth 6 hash 0) (nth 7 hash 0).
Definition list_of (v : Vars) : list Z :=
  [va v; vb v; vc v; vd v; ve v; vf v; vg v; vh v].

(** One pass of the [for chunk in ..] loop over the hash array. *)
Definition process_chunk (hash : list Z) (chunk : list byte) : list Z :=
  zip_with wadd32 hash
    (list_of (foldl (round (schedule chunk)) (vars_of hash) (seq 0 64))).

Definition hex_words (hash : list Z) : string :=
  foldr (λ w s, hex08 w +:+ s) EmptyString hash.

Definition sha256 (bytes : list byte) : string :=
  hex_words (foldl process_chunk INITIAL (chunks_exact 64 (padded bytes))).

(** ** The standard *)
Module Fips.
(** Addition modulo 2^32, rotation and shift (sections 2.2.2 and 3.2). *)
Definition ROTR (n x : Z) : Z := (x / 2 ^ n + x * 2 ^ (32 - n)) mod 2 ^ 32.
Definition SHR (n x : Z) : Z := x / 2 ^ n.
Definition Sum (l : list Z) : Z := foldr Z.add 0 l mod 2 ^ 32.
Definition Xor3 (x y z : Z) : Z := Z.lxor x (Z.lxor y z).

Definition Ch (x y z : Z) : Z := Z.lxor (Z.land x y) (Z.ldiff z x).
Definition Maj (x y z : Z) : Z :=
  Xor3 (Z.land x y) (Z.land x z) (Z.land y z).
Definition Σ0 (x : Z) : Z := Xor3 (ROTR 2 x) (ROTR 13 x) (ROTR 22 x).
Definition Σ1 (x : Z) : Z := Xor3 (ROTR 6 x) (ROTR 11 x) (ROTR 25 x).
Definition σ0 (x : Z) : Z := Xor3 (ROTR 7 x) (ROTR 18 x) (SHR 3 x).
Definition σ1 (x : Z) : Z := Xor3 (ROTR 17 x) (ROTR 19 x) (SHR 10 x).

(** Message schedule, newest word first: [W t - k] is entry [k - 1]. *)
Fixpoint W_upto (M : nat → Z) (t : nat) : list Z :=
  match t with
  | O => []
  | S t =>
      let prev := W_upto M t in
      let back k := nth (k - 1) prev 0 in
      (if decide (t < 16)%nat then M t
       else Sum [σ1 (back 2%nat); back 7%nat; σ0 (back 15%nat); back 16%nat]) :: prev
  end.
Definition W (M : nat → Z) (t : nat) : Z := nth 0 (W_upto M (S t)) 0.

(** Section 6.2.2, step 3, for one value of [t]. *)
Definition step (M : nat → Z) (v : Vars) (t : nat) : Vars :=
  let '(mkVars a b c d e f g h) := v in
  let T1 := Sum [h; Σ1 e; Ch e f g; nth t K 0; W M t] in
  let T2 := Sum [Σ0 a; Maj a b c] in
  mkVars (Sum [T1; T2]) a b c (Sum [d; T1]) e f g.

Definition block (H : list Z) (M : nat → Z) : list Z :=
  zip_with (λ x y, Sum [x; y]) H (list_of (foldl (step M) (vars_of H) (seq 0 64))).

(** Padding (5.1.1): the number of zero bytes, and the padded message. *)
Definition zeros (len : Z) : nat := Z.to_nat ((55 - len) mod 64).
Definition pad (m : list byte) : list byte :=
  m ++ [x80] ++ replicate (zeros (Z.of_nat (length m))) x00
    ++ be_bytes 8 (8 * Z.of_nat (length m)).

(** The [t]-th word of the [i]-th 512-bit block of a padded message. *)
Definition M (msg : list byte) (i t : nat) : Z :=
  be_val (take 4 (drop (64 * i + 4 * t) msg)).
Definition digest (m : list byte) : list Z :=
  let msg := pad m in
  foldl (λ H i, block H (M msg i)) INITIAL (seq 0 (length msg / 64)).
End Fips.

(** ** Word operations agree *)

Lemma rotr32_Fips x n : 0 < n < 32 → u32_range x → rotr32 x n = Fips.ROTR n x.
Proof.
  intros Hn [Hx0 Hx]. unfold rotr32, Fips.ROTR, wrap32.
  assert (0 < 2 ^ n ∧ 0 < 2 ^ (32 - n)) as [Hp Hq]
    by (split; apply Z.pow_pos_nonneg; lia).
  assert (2 ^ 32 = 2 ^ (32 - n) * 2 ^ n) as H32
    by (rewrite <-Z.pow_add_r by lia; f_equal; lia).
  rewrite Z.shiftr_div_pow2, Z.shiftl_mul_pow2 by lia.
  assert (0 ≤ x / 2 ^ n < 2 ^ (32 - n)) as Hdiv.
  { split; [apply Z.div_pos; lia|]. apply Z.div_lt_upper_bound; [lia|].
    by rewrite Z.mul_comm, <-H32. }
  assert ((x * 2 ^ (32 - n)) mod 2 ^ 32 = 2 ^ (32 - n) * (x mod 2 ^ n)) as Hhi.
  { rewrite H32, Z.mul_comm. apply Z.mul_mod_distr_l; lia. }
  rewrite <-Z.add_mod_idemp_r by lia. rewrite Hhi.
  pose proof (Z.mod_pos_bound x (2 ^ n) Hp) as Hm.
  rewrite (Z.mod_small (_ + _)) by (rewrite H32; nia).
  rewrite <-Z.add_lor_land.
  assert (Z.land (x / 2 ^ n) (2 ^ (32 - n) * (x mod 2 ^ n)) = 0) as ->; [|lia].
  apply Z.bits_inj'. intros i Hi. rewrite Z.land_spec, Z.bits_0, (Z.mul_comm (2 ^ _)).
  destruct (Z.lt_ge_cases i (32 - n)).
  - rewrite Z.mul_pow2_bits_low by done. apply andb_false_r.
  - rewrite (testbit_above (32 - n)) by done. done.
Qed.

Lemma choose_Fips e f g : u32_range g →
  Z.lxor (Z.land e f) (Z.land (not32 e) g) = Fips.Ch e f g.
Proof.
  intros Hg. unfold Fips.Ch. f_equal. apply Z.bits_inj'. intros i Hi.
  unfold not32. rewrite Z.land_spec, Z.lxor_spec, Z.ldiff_spec.
  change (2 ^ 32 - 1) with (Z.ones 32).
  destruct (Z.lt_ge_cases i 32).
  - rewrite Z.ones_spec_low, xorb_true_r by lia. apply andb_comm.
  - rewrite (testbit_above 32 g) by done. by rewrite andb_false_r.
Qed.

(** Equality modulo 2^32, under which [wrapping_add] is plain addition. *)
Definition eqm32 (a b : Z) : Prop := wrap32 a = wrap32 b.

#[export] Instance eqm32_equiv : Equivalence eqm32.
Proof. split; unfold eqm32; red; intros; congruence. Qed.
#[export] Instance eqm32_add : Proper (eqm32 ==> eqm32 ==> eqm32) Z.add.
Proof.
  intros a a' Ha b b' Hb. unfold eqm32, wrap32 in *.
  by rewrite Z.add_mod, Ha, Hb, <-Z.add_mod by lia.
Qed.
Lemma wrap32_eqm a : eqm32 (wrap32 a) a.
Proof. unfold eqm32, wrap32. by rewrite Z.mod_mod by lia. Qed.
#[export] Instance eqm32_wrap : Proper (eqm32 ==> eqm32) wrap32.
Proof. intros a b Hab. by rewrite !wrap32_eqm. Qed.

(** Removes the inner wrap-arounds on both sides and compares the sums. *)
Ltac sums_agree :=
  change Fips.Sum with (λ l, wrap32 (foldr Z.add 0 l)); unfold wadd32; cbn [foldr];
  match goal with |- wrap32 ?x = wrap32 ?y => change (eqm32 x y) end;
  repeat rewrite wrap32_eqm;
  match goal with |- eqm32 ?x ?y => replace x with y by ring; reflexivity end.

(** ** The padding *)

Lemma pad_loop_unfold fuel l :
  (Z.to_nat ((56 - Z.of_nat (length l)) mod 64) ≤ fuel)%nat →
  pad_loop fuel l
  = l ++ replicate (Z.to_nat ((56 - Z.of_nat (length l)) mod 64)) x00.
Proof.
  revert l. induction fuel as [|fuel IH]; intros l Hk; simpl.
  - replace (Z.to_nat _) with O by lia. by rewrite app_nil_r.
  - assert (((length l + 8) mod 64)%nat = 0%nat
            ↔ (56 - Z.of_nat (length l)) mod 64 = 0) as Hiff.
    { rewrite <-(Nat2Z.inj_iff (_ mod _)%nat), Nat2Z.inj_mod, Nat2Z.inj_add.
      change (Z.of_nat 64) with 64. change (Z.of_nat 8) with 8. dlia. }
    case_decide as Hd.
    + apply Hiff in Hd. rewrite Hd. by rewrite app_nil_r.
    + assert ((56 - Z.of_nat (length l)) mod 64 ≠ 0) as Hnz by tauto.
      assert ((56 - Z.of_nat (length (l ++ [x00]))) mod 64
              = (56 - Z.of_nat (length l)) mod 64 - 1) as Hnext.
      { autorewrite with list_len. cbn [length]. dlia. }
      rewrite IH by (rewrite Hnext; dlia). rewrite Hnext.
      replace (Z.to_nat ((56 - Z.of_nat (length l)) mod 64))
        with (S (Z.to_nat ((56 - Z.of_nat (length l)) mod 64 - 1))) by dlia.
      by rewrite <-app_assoc.
Qed.

Lemma padded_zeros bytes :
  padded bytes = bytes ++ [x80] ++ replicate (Fips.zeros (Z.of_nat (length bytes))) x00
                 ++ be_bytes 8 (bit_len bytes).
Proof.
  unfold padded. rewrite pad_loop_unfold by dlia. autorewrite with list_len.
  cbn [length]. unfold Fips.zeros.
  replace (56 - Z.of_nat (length bytes + 1)) with (55 - Z.of_nat (length bytes)) by lia.
  by rewrite <-!app_assoc.
Qed.

Lemma le_bytes_mod n z m : 0 ≤ m → 8 * Z.of_nat n ≤ m → le_bytes n (z mod 2 ^ m) = le_bytes n z.
Proof.
  revert z m. induction n as [|n IH]; intros z m Hm Hn; [done|]. cbn [le_bytes].
  assert (2 ^ m = 2 ^ 8 * 2 ^ (m - 8)) as Hsplit
    by (rewrite <-Z.pow_add_r by lia; f_equal; lia).
  assert (0 < 2 ^ (m - 8)) by (apply Z.pow_pos_nonneg; lia).
  f_equal.
  - unfold byte_of. do 3 f_equal. rewrite Hsplit.
    rewrite Z.rem_mul_r by lia.
    rewrite (Z.mul_comm (2 ^ 8)), Z.mod_add by lia. by rewrite Z.mod_mod by lia.
  - rewrite Hsplit, Z.rem_mul_r by lia.
    rewrite (Z.mul_comm (2 ^ 8)), Z.div_add by lia.
    rewrite (Z.div_small (z mod 2 ^ 8)) by (apply Z.mod_pos_bound; lia).
    rewrite Z.add_0_l. apply IH; lia.
Qed.

Lemma padded_Fips bytes : padded bytes = Fips.pad bytes.
Proof.
  rewrite padded_zeros. unfold Fips.pad, bit_len, wmul64, be_bytes.
  rewrite Z.mul_mod_idemp_l by lia.
  rewrite le_bytes_mod by lia. by rewrite (Z.mul_comm 8).
Qed.

Lemma length_padded bytes :
  (length (padded bytes) mod 64 = 0 ∧
   length bytes + 9 ≤ length (padded bytes) < length bytes + 9 + 64)%nat.
Proof.
  rewrite padded_zeros. autorewrite with list_len. cbn [length].
  unfold Fips.zeros. split; [|dlia].
  apply Nat2Z.inj. rewrite Nat2Z.inj_mod, !Nat2Z.inj_add.
  rewrite Z2Nat.id by (apply Z.mod_pos_bound; lia).
  change (Z.of_nat 64) with 64. change (Z.of_nat 1) with 1. change (Z.of_nat 8) with 8.
  change (Z.of_nat 0) with 0. dlia.
Qed.

(** ** The message schedule *)

Lemma length_W_upto M t : length (Fips.W_upto M t) = t.
Proof. induction t; simpl; auto. Qed.
#[export] Hint Rewrite length_W_upto : list_len.

Lemma nth_W_upto M t i : (i < t)%nat → nth (t - S i) (Fips.W_upto M t) 0 = Fips.W M i.
Proof.
  induction t as [|t IH]; intros Hi; [lia|].
  destruct (decide (i = t)) as [->|].
  - by replace (S t - S t)%nat with O by lia.
  - replace (S t - S i)%nat with (S (t - S i)) by lia. simpl. apply IH. lia.
Qed.

Lemma W_first M t : (t < 16)%nat → Fips.W M t = M t.
Proof. intros Ht. unfold Fips.W. simpl. by rewrite decide_True. Qed.

Lemma W_later M t : (16 ≤ t)%nat →
  Fips.W M t = Fips.Sum [Fips.σ1 (Fips.W M (t - 2)); Fips.W M (t - 7);
                         Fips.σ0 (Fips.W M (t - 15)); Fips.W M (t - 16)].
Proof.
  intros Ht. unfold Fips.W at 1. cbn [Fips.W_upto nth]. rewrite decide_False by lia.
  rewrite <-!(nth_W_upto M t) by lia.
  repeat match goal with |- context [(t - S (t - ?k))%nat] =>
    replace (t - S (t - k))%nat with (k - 1)%nat by lia end.
  done.
Qed.

Lemma W_range M t : (∀ t, u32_range (M t)) → u32_range (Fips.W M t).
Proof.
  intros HM. destruct (decide (t < 16)%nat).
  - by rewrite W_first.
  - rewrite W_later by lia. apply wrap32_range.
Qed.

(** The words already computed, as the array holds them. *)
Definition filled (M : nat → Z) (t : nat) : list Z := Fips.W M <$> seq 0 t.

Lemma length_filled M t : length (filled M t) = t.
Proof. unfold filled. by rewrite length_fmap, length_seq. Qed.
Lemma filled_S M t : filled M (S t) = filled M t ++ [Fips.W M t].
Proof. unfold filled. by rewrite seq_S, fmap_app. Qed.

Lemma word_filled M t rest i : (i < t)%nat → word (filled M t ++ rest) i = Fips.W M i.
Proof.
  intros Hi. unfold word. rewrite app_nth1 by (rewrite length_filled; lia).
  unfold filled. rewrite (nth_indep _ 0 (Fips.W M 0)) by (rewrite length_fmap, length_seq; lia).
  rewrite map_nth, seq_nth by done. done.
Qed.

Lemma insert_at_end {A} (l r : list A) (x y : A) n :
  n = length l → <[n := x]> (l ++ y :: r) = (l ++ [x]) ++ r.
Proof.
  intros ->. rewrite insert_app_r_alt by lia. rewrite Nat.sub_diag. by rewrite <-app_assoc.
Qed.

Lemma load_words_filled chunk M :
  (∀ t, (t < 16)%nat → chunk_word chunk t = M t) →
  load_words chunk (replicate 64 0) = filled M 16 ++ replicate 48 0.
Proof.
  intros HM.
  trans ((chunk_word chunk <$> seq 0 16) ++ replicate 48 0); [reflexivity|].
  f_equal. unfold filled. apply list_fmap_ext. intros i t Ht.
  apply lookup_seq in Ht as [-> Hlt]. rewrite W_first, HM by lia. done.
Qed.

Lemma extend_word_filled M t rest :
  (∀ t, u32_range (M t)) → (16 ≤ t)%nat →
  extend_word (filled M t ++ 0 :: rest) t = filled M (S t) ++ rest.
Proof.
  intros HM Ht. unfold extend_word. rewrite !word_filled by lia.
  rewrite filled_S, insert_at_end by (by rewrite length_filled). do 3 f_equal.
  rewrite (W_later M t) by done. unfold Fips.σ1, Fips.σ0, Fips.Xor3, Fips.SHR.
  rewrite !rotr32_Fips by (lia || exact (W_range _ _ HM)).
  rewrite !Z.lxor_assoc, !Z.shiftr_div_pow2 by lia. sums_agree.
Qed.

Lemma schedule_filled chunk M :
  (∀ t, u32_range (M t)) → (∀ t, (t < 16)%nat → chunk_word chunk t = M t) →
  schedule chunk = filled M 64.
Proof.
  intros Hrange HM. unfold schedule. rewrite (load_words_filled _ M) by done.
  enough (∀ k, (k ≤ 48)%nat →
    foldl extend_word (filled M 16 ++ replicate 48 0) (seq 16 k)
    = filled M (16 + k) ++ replicate (48 - k) 0) as ->; [by rewrite app_nil_r|done|].
  induction k as [|k IH]; intros Hk; [done|].
  rewrite seq_S, foldl_app, IH by lia. cbn [foldl].
  replace (48 - k)%nat with (S (48 - S k)) by lia. cbn [replicate].
  rewrite extend_word_filled by (done || lia). by rewrite Nat.add_succ_r.
Qed.

(** ** Compression *)

Definition vars_ok (v : Vars) : Prop := Forall u32_range (list_of v).

Lemma step_ok M v t : vars_ok v → vars_ok (Fips.step M v t).
Proof.
  destruct v. unfold vars_ok, Fips.step, list_of. simpl. intros Hv.
  repeat (apply Forall_cons in Hv as [? Hv]).
  repeat (apply Forall_cons; split; [done || apply wrap32_range|]). by apply Forall_nil.
Qed.

Lemma round_Fips words M v t :
  vars_ok v → word words t = Fips.W M t → round words v t = Fips.step M v t.
Proof.
  destruct v as [a b c d e f g h]. unfold vars_ok, list_of. simpl. intros Hv HW.
  repeat (apply Forall_cons in Hv as [? Hv]).
  unfold round, Fips.step, Fips.Σ1, Fips.Σ0, Fips.Maj, Fips.Xor3.
  rewrite HW, choose_Fips by done. rewrite !rotr32_Fips by (done || lia).
  rewrite !Z.lxor_assoc. f_equal; sums_agree.
Qed.

Lemma foldl_agree {A B} (I : A → Prop) (f g : A → B → A) l a :
  (∀ a x, x ∈ l → I a → f a x = g a x ∧ I (g a x)) → I a →
  foldl f a l = foldl g a l ∧ I (foldl g a l).
Proof.
  revert a. induction l as [|x l IH]; intros a Hfg Ha; simpl; [done|].
  destruct (Hfg a x) as [-> HI]; [left|done|].
  apply IH; [|done]. intros; apply Hfg; [by right|done].
Qed.

Definition hash_ok (hash : list Z) : Prop := length hash = 8%nat ∧ Forall u32_range hash.

Lemma nth_ok hash i : Forall u32_range hash → u32_range (nth i hash 0).
Proof.
  intros Hh. destruct (nth_in_or_default i hash 0) as [Hin| ->]; [|done].
  apply list_elem_of_In in Hin. by eapply Forall_forall in Hin.
Qed.

Lemma zip_sum_ok (f : Z → Z → Z) (hash l : list Z) :
  (∀ x y, u32_range (f x y)) → length hash = 8%nat → length l = 8%nat →
  hash_ok (zip_with f hash l).
Proof.
  intros Hf Hh Hl. split; [rewrite length_zip_with; lia|].
  apply Forall_forall. intros z (x & y & -> & _)%elem_of_zip_with. apply Hf.
Qed.

Lemma process_chunk_Fips hash chunk M :
  hash_ok hash → (∀ t, u32_range (M t)) →
  (∀ t, (t < 16)%nat → chunk_word chunk t = M t) →
  process_chunk hash chunk = Fips.block hash M ∧ hash_ok (Fips.block hash M).
Proof.
  intros [Hlen Hh] Hrange HM. unfold process_chunk, Fips.block.
  rewrite (schedule_filled chunk M) by done.
  destruct (foldl_agree vars_ok (round (filled M 64)) (Fips.step M) (seq 0 64) (vars_of hash))
    as [-> Hok].
  - intros v t Ht%elem_of_seq Hv. split; [|by apply step_ok].
    apply round_Fips; [done|]. rewrite <-(app_nil_r (filled M 64)). apply word_filled. lia.
  - unfold vars_ok, vars_of, list_of. simpl.
    repeat (apply Forall_cons; split; [by apply nth_ok|]). by apply Forall_nil.
  - split.
    + apply zip_with_ext; [|done..]. intros x y. sums_agree.
    + apply zip_sum_ok; [intros; apply wrap32_range|done|by destruct (foldl _ _ _)].
Qed.

(** ** Whole messages *)

Lemma chunks_exact_seq {A} n (l : list A) : (0 < n)%nat →
  chunks_exact n l = (λ i, take n (drop (n * i) l)) <$> seq 0 (length l / n).
Proof.
  intros Hn. unfold chunks_exact.
  enough (∀ fuel, (length l ≤ fuel)%nat → chunks_exact_fuel fuel n l
    = (λ i, take n (drop (n * i) l)) <$> seq 0 (length l / n)) as H by (by apply H).
  intros fuel. revert l. induction fuel as [|fuel IH]; intros l Hfuel; simpl.
  - replace (length l) with O by lia. by rewrite Nat.Div0.div_0_l.
  - case_decide as Hd; [by rewrite Nat.div_small|].
    rewrite IH by (rewrite length_drop; lia). rewrite length_drop.
    replace (length l / n)%nat with (S ((length l - n) / n)).
    2: { replace (length l) with (length l - n + 1 * n)%nat at 2 by lia.
         rewrite Nat.div_add by lia. lia. }
    cbn [seq fmap list_fmap]. rewrite Nat.mul_0_r, drop_0. f_equal.
    rewrite <-(fmap_S_seq 0), <-list_fmap_compose. apply list_fmap_ext.
    intros _ i _. simpl. rewrite drop_drop. by rewrite Nat.mul_succ_r, Nat.add_comm.
Qed.

Lemma chunk_word_M msg i t : (t < 16)%nat →
  chunk_word (take 64 (drop (64 * i) msg)) t = Fips.M msg i t.
Proof.
  intros Ht. unfold chunk_word, Fips.M. f_equal.
  rewrite skipn_firstn_comm, take_take, drop_drop.
  by rewrite Nat.min_l, (Nat.mul_comm t) by lia.
Qed.

Lemma M_range msg i t : u32_range (Fips.M msg i t).
Proof.
  unfold Fips.M. pose proof (be_val_range (take 4 (drop (64 * i + 4 * t) msg))) as [H0 H1].
  split; [done|]. eapply Z.lt_le_trans; [exact H1|].
  apply Z.pow_le_mono_r; [lia|]. rewrite length_take. lia.
Qed.

Lemma initial_ok : hash_ok INITIAL.
Proof. split; [done|]. repeat (apply Forall_cons; split; [done|]). by apply Forall_nil. Qed.

(** The hash array after the chunk loop is the standard's digest. *)
Lemma digest_loop bytes :
  foldl process_chunk INITIAL (chunks_exact 64 (padded bytes)) = Fips.digest bytes
  ∧ hash_ok (Fips.digest bytes).
Proof.
  rewrite chunks_exact_seq, foldl_fmap, padded_Fips by lia. unfold Fips.digest.
  apply (foldl_agree hash_ok); [|apply initial_ok].
  intros hash i _ Hok. apply process_chunk_Fips; [done|apply M_range|].
  intros t. apply chunk_word_M.
Qed.

Lemma length_hex_words hash : String.length (hex_words hash) = (8 * length hash)%nat.
Proof.
  induction hash as [|w hash IH]; [done|]. cbn [hex_words foldr length].
  rewrite string_length_app, hex08_length. unfold hex_words in IH. lia.
Qed.

Lemma hex_words_lower hash : string_all is_lower_hex (hex_words hash) = true.
Proof.
  induction hash as [|w hash IH]; [done|]. cbn [hex_words foldr].
  by rewrite string_all_app, hex08_lower.
Qed.

(** The digest has the shape that a well-formed revision demands. *)
Lemma sha256_hex bytes :
  String.length (sha256 bytes) = 64%nat ∧ string_all is_lower_hex (sha256 bytes) = true.
Proof.
  unfold sha256. destruct (digest_loop bytes) as [-> [Hlen _]].
  by rewrite length_hex_words, Hlen, hex_words_lower.
Qed.

(** ** Properties *)

(** C37: the server's SHA-256 routine computes the digest that FIPS 180-4
    defines, for every input, in lower-case hexadecimal. *)
Theorem sha256_is_fips_180_4 (bytes : list byte) :
  sha256 bytes = hex_words (Fips.digest bytes).
Proof. unfold sha256. by destruct (digest_loop bytes) as [-> _]. Qed.

(** The known vectors of the source's own tests. *)
Example sha256_empty :
  sha256 [] = "e3b0c44298fc1c149afbf4c8996fb92427ae41e4649b934ca495991b7852b855".
Proof. vm_compute. reflexivity. Qed.
Example sha256_thousand_a :
  sha256 (replicate 1000 x61)
  = "41edece42d63e8d9bf515a9ba6932e1c20cbc9f5a5d134645adb5db1b9737ea3".
Proof. vm_compute. reflexivity. Qed.
