(* ===== verification/Text.v ===== *)
(** * Text, paths and UTF-8

    What the server uses of Rust's standard library on strings:
    [str::from_utf8] (as a validity test), [std::path::Path] ([components],
    [parent], [file_name], [join], [starts_with] on strings) and the
    conversions between [String] and bytes. A Rust [String] is a [string]
    holding its UTF-8 bytes. *)
From S2P Require Import Prelude MachineInt.
Local Open Scope Z_scope.

(** ** [String::as_bytes] / [into_bytes] *)

Definition into_bytes (s : string) : list byte := String.list_byte_of_string s.
Definition of_bytes (bs : list byte) : string := String.string_of_list_byte bs.

Lemma into_of_bytes bs : into_bytes (of_bytes bs) = bs.
Proof. apply String.list_byte_of_string_of_list_byte. Qed.
Lemma of_into_bytes s : of_bytes (into_bytes s) = s.
Proof. apply String.string_of_list_byte_of_string. Qed.

(** A word between double quotes, as in the server's messages. *)
Definition quote : Ascii.ascii := Ascii.ascii_of_N 34.
Definition quoted (s : string) : string := String quote (s +:+ String quote EmptyString).

(** ** [std::str::from_utf8(bytes).is_ok()] *)

Definition between (lo hi : Z) (b : byte) : bool :=
  (lo <=? byte_val b) && (byte_val b <=? hi).
Definition continuation : byte → bool := between 0x80 0xBF.

(** The second byte that a three- or four-byte sequence allows after its first:
    no overlong forms, no surrogates, nothing above U+10FFFF. *)
Definition second_of_three (b0 b1 : byte) : bool :=
  if between 0xE0 0xE0 b0 then between 0xA0 0xBF b1
  else if between 0xED 0xED b0 then between 0x80 0x9F b1
  else between 0xE1 0xEF b0 && continuation b1.
Definition second_of_four (b0 b1 : byte) : bool :=
  if between 0xF0 0xF0 b0 then between 0x90 0xBF b1
  else if between 0xF4 0xF4 b0 then between 0x80 0x8F b1
  else between 0xF1 0xF3 b0 && continuation b1.

Fixpoint valid_utf8 (bs : list byte) : bool :=
  match bs with
  | [] => true
  | b0 :: r0 =>
      if between 0x00 0x7F b0 then valid_utf8 r0
      else match r0 with
      | [] => false
      | b1 :: r1 =>
          if between 0xC2 0xDF b0 then continuation b1 && valid_utf8 r1
          else match r1 with
          | [] => false
          | b2 :: r2 =>
              if second_of_three b0 b1 then continuation b2 && valid_utf8 r2
              else match r2 with
              | [] => false
              | b3 :: r3 =>
                  second_of_four b0 b1 && continuation b2 && continuation b3
                  && valid_utf8 r3
              end
          end
      end
  end.

Lemma ascii_valid_utf8 bs : Forall (λ b, byte_val b ≤ 127) bs → valid_utf8 bs = true.
Proof.
  induction 1 as [|b bs Hb _ IH]; [done|]. simpl. unfold between.
  pose proof (byte_val_range b) as [H0 _].
  by rewrite !(proj2 (Z.leb_le _ _)) by lia.
Qed.

(** ** [String::from_utf8_lossy] and [OsStr::to_string_lossy]

    Every longest beginning of a sequence that is not continued becomes U+FFFD. *)
Definition replacement : list byte := [xef; xbf; xbd].

Fixpoint lossy_bytes (bs : list byte) : list byte :=
  match bs with
  | [] => []
  | b0 :: r0 =>
      if between 0x00 0x7F b0 then b0 :: lossy_bytes r0
      else match r0 with
      | [] => replacement
      | b1 :: r1 =>
          if between 0xC2 0xDF b0 then
            if continuation b1 then b0 :: b1 :: lossy_bytes r1 else replacement ++ lossy_bytes r0
          else if second_of_three b0 b1 then
            match r1 with
            | [] => replacement
            | b2 :: r2 =>
                if continuation b2 then b0 :: b1 :: b2 :: lossy_bytes r2
                else replacement ++ lossy_bytes r1
            end
          else if second_of_four b0 b1 then
            match r1 with
            | [] => replacement
            | b2 :: r2 =>
                if continuation b2 then
                  match r2 with
                  | [] => replacement
                  | b3 :: r3 =>
                      if continuation b3 then b0 :: b1 :: b2 :: b3 :: lossy_bytes r3
                      else replacement ++ lossy_bytes r2
                  end
                else replacement ++ lossy_bytes r1
            end
          else replacement ++ lossy_bytes r0
      end
  end.
Definition to_string_lossy (s : string) : string := of_bytes (lossy_bytes (into_bytes s)).

(** Valid text is kept. *)
Lemma lossy_bytes_valid bs : valid_utf8 bs = true → lossy_bytes bs = bs.
Proof.
  enough (∀ n bs, (length bs ≤ n)%nat → valid_utf8 bs = true → lossy_bytes bs = bs) as He
    by (intros; by apply (He (length bs))).
  clear. intros n. induction n as [|n IH]; intros [|b0 r0] Hn; try done; [simpl in Hn; lia|].
  cbn [length] in Hn. cbn [valid_utf8 lossy_bytes].
  destruct (between 0 127 b0); [intros; f_equal; apply IH; [lia|done]|].
  destruct r0 as [|b1 r1]; [done|]. cbn [length] in Hn. destruct (between 0xC2 0xDF b0).
  { intros Hv. split_bools. repeat case_match; try done. do 2 f_equal. apply IH; [lia|done]. }
  destruct r1 as [|b2 r2]; [done|]. cbn [length] in Hn. destruct (second_of_three b0 b1).
  { intros Hv. split_bools. case_match; try done. do 3 f_equal. apply IH; [lia|done]. }
  destruct r2 as [|b3 r3]; [done|]. cbn [length] in Hn. intros Hv. split_bools.
  repeat case_match; try done. do 4 f_equal. apply IH; [lia|done].
Qed.
Lemma to_string_lossy_valid s : valid_utf8 (into_bytes s) = true → to_string_lossy s = s.
Proof. intros Hs. unfold to_string_lossy. rewrite lossy_bytes_valid by done. apply of_into_bytes. Qed.

(** ** [std::path::Path] on Unix

    A path is its component list: repeated and trailing separators vanish, a
    [.] survives only at the head of a relative path. *)
Record Path := mkPath { rooted : bool; comps : list string }.

#[export] Instance Path_eq_dec : EqDecision Path.
Proof. solve_decision. Defined.
#[export] Instance Path_countable : Countable Path.
Proof.
  refine (inj_countable' (λ p, (rooted p, comps p)) (λ '(r, c), mkPath r c) _).
  by intros [].
Defined.

Definition slash : Ascii.ascii := Ascii.ascii_of_N 47.

(** [s.split('/')] *)
Fixpoint split_slash (s : string) : list string :=
  match s with
  | EmptyString => [EmptyString]
  | String c s =>
      if Ascii.eqb c slash then EmptyString :: split_slash s
      else match split_slash s with
           | [] => [String c EmptyString]
           | w :: ws => String c w :: ws
           end
  end.

Definition normal_comps (l : list string) : list string :=
  filter (λ c, c ≠ EmptyString ∧ c ≠ "."%string) l.

(** [Path::new(s)] *)
Definition path_new (s : string) : Path :=
  match split_slash s with
  | [] => mkPath false []
  | first :: rest =>
      if String.prefix "/" s then mkPath true (normal_comps rest)
      else if decide (first = "."%string) then mkPath false ("."%string :: normal_comps rest)
      else mkPath false (normal_comps (first :: rest))
  end.

(** [Path::parent]: without a last component there is no parent. *)
Definition parent (p : Path) : option Path :=
  match comps p with
  | [] => None
  | c :: cs => Some (mkPath (rooted p) (removelast (c :: cs)))
  end.

(** [Path::file_name]: only an ordinary last component is a name. *)
Definition file_name (p : Path) : option string :=
  c ← last (comps p);
  if decide (c = "."%string ∨ c = ".."%string) then None else Some c.

(** [Path::join] with one ordinary name. *)
Definition join (p : Path) (name : string) : Path :=
  mkPath (rooted p) (comps p ++ [name]).

(** The bytes of a path; [display] and [to_string_lossy] print them through
    [to_string_lossy]. *)
Definition path_string (p : Path) : string :=
  (if rooted p then "/" else "") +:+ String.concat "/" (comps p).

Lemma parent_join p name : parent (join p name) = Some p.
Proof.
  destruct p as [r cs]. unfold parent, join. cbn [comps rooted].
  pose proof (removelast_last cs name) as Hlast.
  destruct (cs ++ [name]) eqn:Heq; [by destruct cs|]. by rewrite Hlast.
Qed.

Lemma join_inj p q a b : join p a = join q b → p = q ∧ a = b.
Proof.
  destruct p, q. unfold join. simpl. intros [= -> Hl].
  apply app_inj_2 in Hl as [-> [= ->]]; done.
Qed.

Lemma file_name_join p name :
  name ≠ "."%string → name ≠ ".."%string → file_name (join p name) = Some name.
Proof.
  intros H1 H2. unfold file_name, join. simpl. rewrite last_snoc. simpl.
  rewrite decide_False; [done|]. by intros [?|?].
Qed.

Lemma prefix_append s t : String.prefix s (s +:+ t) = true.
Proof.
  induction s as [|c s IH]; simpl; [by destruct t|]. by destruct (Ascii.ascii_dec c c).
Qed.

Example path_new_absolute : path_new "/a//b/./c/" = mkPath true ["a"; "b"; "c"]%string.
Proof. reflexivity. Qed.
Example path_new_relative : path_new "./a" = mkPath false ["."; "a"]%string.
Proof. reflexivity. Qed.
Example path_new_empty : path_new "" = mkPath false [].
Proof. reflexivity. Qed.
Example path_string_back : path_string (path_new "/a/b") = "/a/b"%string.
Proof. reflexivity. Qed.
