(* ===== verification/Json.v ===== *)
(** * The interface to [serde_json] and [base64]

    Both crates are third-party code: the development uses them through the
    operations the server calls and the documented laws its theorems need.
    [Reference.v] has an instance of each. *)
From S2P Require Import Prelude MachineInt Text.
Local Open Scope Z_scope.

(** ** [serde_json::Value]

    [of_object], [of_str], .. are what [json!] builds; [as_object], [as_str], ..
    are the accessors; [Map<String, Value>] is a finite map. *)
Class Json := {
  Value : Type;
  null : Value;
  of_bool : bool → Value;
  of_u64 : Z → Value;
  of_i64 : Z → Value;
  of_str : string → Value;
  of_array : list Value → Value;
  of_object : gmap string Value → Value;
  is_null : Value → bool;
  as_bool : Value → option bool;
  as_u64 : Value → option Z;
  as_i64 : Value → option Z;
  as_str : Value → option string;
  as_array : Value → option (list Value);
  as_object : Value → option (gmap string Value);
  (** [Value::to_string] and [serde_json::from_slice]. *)
  to_string : Value → string;
  from_slice : list byte → option Value;
}.

Class JsonLaws `{Json} : Prop := {
  is_null_null : is_null null = true;
  is_null_object m : is_null (of_object m) = false;
  as_bool_of b : as_bool (of_bool b) = Some b;
  as_u64_of n : u64_range n → as_u64 (of_u64 n) = Some n;
  as_i64_of n : i64_range n → as_i64 (of_i64 n) = Some n;
  as_u64_range v n : as_u64 v = Some n → u64_range n;
  as_i64_range v n : as_i64 v = Some n → i64_range n;
  as_str_of s : as_str (of_str s) = Some s;
  as_array_of l : as_array (of_array l) = Some l;
  as_object_of m : as_object (of_object m) = Some m;
  as_object_null : as_object null = None;
}.

Section values.
Context `{Json}.

(** [value.get(key)] with a string key: [None] unless the value is an object. *)
Definition get (v : Value) (key : string) : option Value := as_object v ≫= (.!! key).

(** [req.get(key).and_then(Value::as_..)] *)
Definition get_str (v : Value) (key : string) : option string := get v key ≫= as_str.
Definition get_bool (v : Value) (key : string) : option bool := get v key ≫= as_bool.
Definition get_u64 (v : Value) (key : string) : option Z := get v key ≫= as_u64.
Definition get_i64 (v : Value) (key : string) : option Z := get v key ≫= as_i64.

(** [json!({ k: v, .. })]: insertion in order, a later key replaces. *)
Definition fields (l : list (string * Value)) : gmap string Value :=
  foldl (λ m kv, <[kv.1 := kv.2]> m) ∅ l.
Definition obj (l : list (string * Value)) : Value := of_object (fields l).

(** [Option<T>] inside [json!]: [None] is [null]. *)
Definition of_option {A} (f : A → Value) (o : option A) : Value :=
  match o with Some a => f a | None => null end.

(** [if let Value::Object(ref mut m) = v { m.insert(key, x) }] *)
Definition insert_field (key : string) (x v : Value) : Value :=
  match as_object v with
  | Some m => of_object (<[key := x]> m)
  | None => v
  end.

Context `{!JsonLaws}.

Lemma get_obj l key : get (obj l) key = fields l !! key.
Proof. unfold get, obj. by rewrite as_object_of. Qed.

Lemma get_of_object m key : get (of_object m) key = m !! key.
Proof. unfold get. by rewrite as_object_of. Qed.

Lemma get_insert_field key x v key' :
  is_Some (as_object v) →
  get (insert_field key x v) key' = if decide (key = key') then Some x else get v key'.
Proof.
  intros [m Hm]. unfold insert_field, get. rewrite Hm, as_object_of. simpl.
  case_decide; [by subst; rewrite lookup_insert_eq|by rewrite lookup_insert_ne].
Qed.

Lemma insert_field_object key x v :
  is_Some (as_object v) → is_Some (as_object (insert_field key x v)).
Proof. intros [m Hm]. unfold insert_field. rewrite Hm, as_object_of. eauto. Qed.

Lemma obj_object l : is_Some (as_object (obj l)).
Proof. unfold obj. rewrite as_object_of. eauto. Qed.
End values.

#[export] Hint Resolve obj_object insert_field_object : core.

(** Reads a key of a literal object. *)
Ltac get_field :=
  rewrite get_obj; unfold fields; cbn [foldl fst snd]; by simplify_map_eq.

(** ** [base64::engine::general_purpose::STANDARD] *)
Class Base64 := {
  encode : list byte → string;
  (** The error is the [Display] text of [DecodeError]. *)
  decode : string → result (list byte) string;
}.

Class Base64Laws `{Base64} : Prop := {
  decode_encode bs : decode (encode bs) = Ok bs;
}.
