(* ===== verification/Kernel.v ===== *)
(** * The operating system under [std::fs]

    The file-system calls the server makes, on an explicit state: directory
    entries, inodes, a clock. Other processes run before every call ([env]),
    any call may fail ([fault]) and a transfer may move fewer bytes than asked
    ([chunk]): these are parameters, so a theorem about a server routine holds
    for every interleaving with the rest of the host.

    Every call appends the states just before and just after it to [w_log];
    "the routine never overwrites", "a crash after any call leaves .." are
    statements about that log.

    Pathnames are looked up as whole component lists, so aliases through
    symbolic links to directories and [..] are not followed; directory
    timestamps are not modelled. *)
From S2P Require Import Prelude MachineInt Text.
Local Open Scope Z_scope.

(** ** [std::io::Error] *)

Inductive ErrorKind := NotFound | AlreadyExists | OtherKind.
#[export] Instance ErrorKind_eq_dec : EqDecision ErrorKind.
Proof. solve_decision. Defined.

(** The kind, and the text that [Display] prints. *)
Record IoError := mkIoError { error_kind : ErrorKind; display : string }.

Definition ENOENT := mkIoError NotFound "No such file or directory (os error 2)".
Definition EEXIST := mkIoError AlreadyExists "File exists (os error 17)".
Definition EPERM := mkIoError OtherKind "Operation not permitted (os error 1)".
Definition ENOTDIR := mkIoError OtherKind "Not a directory (os error 20)".
Definition EISDIR := mkIoError OtherKind "Is a directory (os error 21)".
Definition EINVAL := mkIoError OtherKind "Invalid argument (os error 22)".
Definition ENOTEMPTY := mkIoError OtherKind "Directory not empty (os error 39)".
Definition ELOOP := mkIoError OtherKind "Too many levels of symbolic links (os error 40)".
Definition EBADF := mkIoError OtherKind "Bad file descriptor (os error 9)".
Definition injected (text : string) : IoError := mkIoError OtherKind text.

(** ** Inodes, and [std::fs::Metadata] *)

(** A time is seconds and nanoseconds. *)
Abbreviation time := (Z * Z)%type.

Record Inode := mkInode {
  i_dev : Z; i_ino : Z; i_mode : Z; i_nlink : Z; i_uid : Z; i_gid : Z;
  i_mtime : time; i_ctime : time; i_data : list byte;
}.

Record Metadata := mkMetadata {
  md_dev : Z; md_ino : Z; md_size : Z;
  md_mtime : Z; md_mtime_nsec : Z; md_ctime : Z; md_ctime_nsec : Z;
  md_mode : Z; md_uid : Z; md_gid : Z; md_nlink : Z;
}.

Definition size_of (i : Inode) : Z := Z.of_nat (length (i_data i)).

Definition metadata_of (i : Inode) : Metadata := {|
  md_dev := i_dev i; md_ino := i_ino i; md_size := size_of i;
  md_mtime := (i_mtime i).1; md_mtime_nsec := (i_mtime i).2;
  md_ctime := (i_ctime i).1; md_ctime_nsec := (i_ctime i).2;
  md_mode := i_mode i; md_uid := i_uid i; md_gid := i_gid i; md_nlink := i_nlink i;
|}.

(** [S_IFMT] and the file types of [<sys/stat.h>] (octal 170000, 100000, 040000,
    120000, 010000). *)
Definition S_IFMT : Z := 0xF000.
Definition S_IFREG : Z := 0x8000.
Definition S_IFDIR : Z := 0x4000.
Definition S_IFLNK : Z := 0xA000.
Definition S_IFIFO : Z := 0x1000.

Definition has_type (t mode : Z) : bool := Z.land mode S_IFMT =? t.
Definition is_file (md : Metadata) : bool := has_type S_IFREG (md_mode md).
Definition is_dir (md : Metadata) : bool := has_type S_IFDIR (md_mode md).
Definition is_symlink (md : Metadata) : bool := has_type S_IFLNK (md_mode md).
Definition is_fifo (md : Metadata) : bool := has_type S_IFIFO (md_mode md).

Definition inode_is_dir (i : Inode) : bool := has_type S_IFDIR (i_mode i).
Definition inode_is_symlink (i : Inode) : bool := has_type S_IFLNK (i_mode i).

(** ** The file system

    [names] are the directory entries. An inode is identified by its slot in
    [inodes], which a name or an open descriptor holds on to; its inode
    {e number} is a field, and the host may reuse it for a later inode. *)
Record FS := mkFS {
  names : gmap Path nat;
  inodes : gmap nat Inode;
  clock : time;
}.

Definition lookup_path (fs : FS) (p : Path) : option (nat * Inode) :=
  v ← names fs !! p; i ← inodes fs !! v; Some (v, i).

(** The bytes that a name leads to. *)
Definition content (fs : FS) (p : Path) : option (list byte) :=
  (λ vi : nat * Inode, i_data vi.2) <$> lookup_path fs p.

(** Two states of the host that differ in the time of day only. *)
#[export] Instance FS_equiv : Equiv FS := λ f g, names f = names g ∧ inodes f = inodes g.
#[export] Instance FS_equivalence : Equivalence (≡@{FS}).
Proof.
  split; [done|by intros f g [Hn Hi]|]. intros f g h [Hn Hi] [Hn' Hi']. split; congruence.
Qed.
Definition at_time (now : time) (fs : FS) : FS := mkFS (names fs) (inodes fs) now.

Lemma at_time_equiv now fs : at_time now fs ≡ fs.
Proof. done. Qed.
Lemma equiv_at_time f g : f ≡ g → f = at_time (clock f) g.
Proof. destruct f. intros [Hn Hi]. simpl in *. by subst. Qed.

#[export] Instance lookup_path_proper : Proper ((≡) ==> (=) ==> (=)) lookup_path.
Proof. intros f g [Hn Hi] p ? <-. unfold lookup_path. by rewrite Hn, Hi. Qed.
Lemma lookup_equiv f g p : f ≡ g → lookup_path f p = lookup_path g p.
Proof. by intros ->. Qed.
#[export] Instance content_proper : Proper ((≡) ==> (=) ==> (=)) content.
Proof. intros f g Hfg p ? <-. unfold content. by rewrite Hfg. Qed.

Definition set_names (n : gmap Path nat) (fs : FS) : FS := mkFS n (inodes fs) (clock fs).
Definition set_inode (v : nat) (i : Inode) (fs : FS) : FS :=
  mkFS (names fs) (<[v := i]> (inodes fs)) (clock fs).

#[export] Instance set_names_proper : Proper ((=) ==> (≡) ==> (≡)) set_names.
Proof. intros n ? <- f g [_ Hi]. by split. Qed.
#[export] Instance set_inode_proper : Proper ((=) ==> (=) ==> (≡) ==> (≡)) set_inode.
Proof. intros v ? <- i ? <- f g [Hn Hi]. split; [done|]. cbn [inodes set_inode]. by rewrite Hi. Qed.

Definition set_nlink (now : time) (n : Z) (i : Inode) : Inode :=
  mkInode (i_dev i) (i_ino i) (i_mode i) n (i_uid i) (i_gid i) (i_mtime i) now (i_data i).
Definition set_data (now : time) (bs : list byte) (i : Inode) : Inode :=
  mkInode (i_dev i) (i_ino i) (i_mode i) (i_nlink i) (i_uid i) (i_gid i) now now bs.
Definition set_mode (now : time) (m : Z) (i : Inode) : Inode :=
  mkInode (i_dev i) (i_ino i) m (i_nlink i) (i_uid i) (i_gid i) (i_mtime i) now (i_data i).
Definition set_owner (now : time) (u g m : Z) (i : Inode) : Inode :=
  mkInode (i_dev i) (i_ino i) m (i_nlink i) u g (i_mtime i) now (i_data i).

(** ** The host: what the server does not control *)
Class Kernel := {
  (** what other processes do before this process's [n]-th call *)
  env : nat → FS → FS;
  (** the text of the error, if any, that the [n]-th call fails with: an I/O
      error, a lack of space or of rights, an interruption. "Not found" and
      "exists" are never made up: they come from the file system. *)
  fault : nat → option string;
  (** how many of the wanted bytes the [n]-th transfer moves *)
  chunk : nat → Z → Z;
  (** the inode number of the next file created *)
  pick_ino : FS → Z;
  (** may this process give a file to user [u] and group [g]? *)
  chown_allowed : Z → Z → bool;
  process_id : Z; umask : Z; euid : Z; egid : Z; device : Z;
}.

(** Inode numbers identify the inodes in use: a new file gets a number that no
    linked inode has. *)
Class FreshInodes `{Kernel} : Prop :=
  pick_ino_fresh fs v i : inodes fs !! v = Some i → 0 < i_nlink i → i_ino i ≠ pick_ino fs.

(** No other process changes anything between the calls, while time goes by; no call
    fails. *)
Class Undisturbed `{Kernel} : Prop := undisturbed n fs : env n fs ≡ fs.
Class Faultless `{Kernel} : Prop := faultless n : fault n = None.

(** ** Calls *)
Section calls.
Context `{Kernel}.

(** A time that the clock shows to a call. *)
Definition shown (t : time) : Prop := ∃ n fs, t = clock (env n fs).

Definition dir_ok (fs : FS) (p : Path) : bool :=
  match parent p with
  | None => true
  | Some d =>
      match comps d with
      | [] => true
      | _ => match lookup_path fs d with Some (_, i) => inode_is_dir i | None => false end
      end
  end.

(** How much of [want] bytes the [n]-th call transfers: at least one. *)
Definition transfer (n : nat) (want : Z) : Z := Z.max 1 (Z.min want (chunk n want)).

Definition k_lstat (p : Path) (fs : FS) : result Metadata IoError :=
  match lookup_path fs p with
  | Some (_, i) => Ok (metadata_of i)
  | None => Err ENOENT
  end.

(** [open(p, O_RDONLY | O_NOFOLLOW | O_NONBLOCK)] *)
Definition k_open_nofollow (p : Path) (fs : FS) : result nat IoError :=
  match lookup_path fs p with
  | Some (v, i) => if inode_is_symlink i then Err ELOOP else Ok v
  | None => Err ENOENT
  end.

Definition k_fstat (v : nat) (fs : FS) : result Metadata IoError :=
  match inodes fs !! v with
  | Some i => Ok (metadata_of i)
  | None => Err EBADF
  end.

(** [read] of up to [want] bytes at [off]; nothing at or past the end. *)
Definition k_read (n : nat) (v : nat) (off want : Z) (fs : FS) : result (list byte) IoError :=
  match inodes fs !! v with
  | Some i =>
      if inode_is_dir i then Err EISDIR
      else let avail := Z.min want (size_of i - off) in
           if avail <=? 0 then Ok []
           else Ok (take (Z.to_nat (transfer n avail)) (drop (Z.to_nat off) (i_data i)))
  | None => Err EBADF
  end.

(** [open(p, O_WRONLY | O_CREAT | O_EXCL, 0o666)] *)
Definition new_inode (fs : FS) : Inode :=
  mkInode device (pick_ino fs) (Z.lor S_IFREG (Z.ldiff 0x1B6 umask)) 1 euid egid
          (clock fs) (clock fs) [].
Definition k_create_new (p : Path) (fs : FS) : result nat IoError * FS :=
  match names fs !! p with
  | Some _ => (Err EEXIST, fs)
  | None =>
      if dir_ok fs p then
        let v := fresh (dom (inodes fs)) in
        (Ok v, set_names (<[p := v]> (names fs)) (set_inode v (new_inode fs) fs))
      else (Err ENOENT, fs)
  end.

(** [write] at [off]; a hole before [off] reads as zeros. *)
Definition k_write (n : nat) (v : nat) (off : Z) (bs : list byte) (fs : FS) :
    result Z IoError * FS :=
  match inodes fs !! v with
  | Some i =>
      let k := transfer n (Z.of_nat (length bs)) in
      let data := i_data i ++ replicate (Z.to_nat (off - size_of i)) x00 in
      (Ok k, set_inode v (set_data (clock fs)
               (splice (Z.to_nat off) (take (Z.to_nat k) bs) data) i) fs)
  | None => (Err EBADF, fs)
  end.

(** [fchown] clears the set-id bits (octal 6000). *)
Definition k_fchown (v : nat) (u g : Z) (fs : FS) : result unit IoError * FS :=
  match inodes fs !! v with
  | Some i =>
      if bool_decide (u = i_uid i ∧ g = i_gid i) || chown_allowed u g then
        (Ok tt, set_inode v (set_owner (clock fs) u g (Z.ldiff (i_mode i) 0xC00) i) fs)
      else (Err EPERM, fs)
  | None => (Err EBADF, fs)
  end.

(** [fchmod] sets the permission and special bits (octal 7777). *)
Definition k_fchmod (v : nat) (m : Z) (fs : FS) : result unit IoError * FS :=
  match inodes fs !! v with
  | Some i =>
      (Ok tt, set_inode v (set_mode (clock fs)
                (Z.lor (Z.land (i_mode i) S_IFMT) (Z.land m 0xFFF)) i) fs)
  | None => (Err EBADF, fs)
  end.

Definition add_link (delta : Z) (v : nat) (fs : FS) : FS :=
  match inodes fs !! v with
  | Some i => set_inode v (set_nlink (clock fs) (i_nlink i + delta) i) fs
  | None => fs
  end.

Definition k_unlink (p : Path) (fs : FS) : result unit IoError * FS :=
  match lookup_path fs p with
  | Some (v, i) =>
      if inode_is_dir i then (Err EISDIR, fs)
      else (Ok tt, add_link (-1) v (set_names (delete p (names fs)) fs))
  | None => (Err ENOENT, fs)
  end.

(** [link]: never replaces. *)
Definition k_link (old new : Path) (fs : FS) : result unit IoError * FS :=
  match lookup_path fs old with
  | Some (v, i) =>
      match names fs !! new with
      | Some _ => (Err EEXIST, fs)
      | None =>
          if inode_is_dir i then (Err EPERM, fs)
          else if dir_ok fs new then
            (Ok tt, add_link 1 v (set_names (<[new := v]> (names fs)) fs))
          else (Err ENOENT, fs)
      end
  | None => (Err ENOENT, fs)
  end.

(** [rename] of a file: replaces a file, never a directory; a directory is
    moved by the same call (its entries with it) and replaces only an empty
    directory, which the server's revision code never asks for. *)
Definition has_entries (p : Path) (fs : FS) : bool :=
  existsb (λ kv : Path * nat,
    bool_decide (rooted kv.1 = rooted p ∧ comps p `prefix_of` comps kv.1 ∧ kv.1 ≠ p))
    (map_to_list (names fs)).
Definition rebase (old new p : Path) : Path :=
  if decide (rooted p = rooted old ∧ comps old `prefix_of` comps p)
  then mkPath (rooted new) (comps new ++ drop (length (comps old)) (comps p)) else p.
Definition move_entry (is_directory : bool) (old new : Path) (v : nat)
    (n : gmap Path nat) : gmap Path nat :=
  if is_directory then kmap (rebase old new) (delete new n)
  else <[new := v]> (delete old n).

Definition k_rename (old new : Path) (fs : FS) : result unit IoError * FS :=
  match lookup_path fs old with
  | None => (Err ENOENT, fs)
  | Some (v, i) =>
      if negb (dir_ok fs new) then (Err ENOENT, fs)
      else match lookup_path fs new with
      | None =>
          (Ok tt, add_link 0 v (set_names (move_entry (inode_is_dir i) old new v (names fs)) fs))
      | Some (v', i') =>
          if decide (v = v') then (Ok tt, fs)
          else if inode_is_dir i' && negb (inode_is_dir i) then (Err EISDIR, fs)
          else if inode_is_dir i && negb (inode_is_dir i') then (Err ENOTDIR, fs)
          else if inode_is_dir i' && has_entries new fs then (Err ENOTEMPTY, fs)
          else (Ok tt, add_link 0 v (add_link (-1) v'
                 (set_names (move_entry (inode_is_dir i) old new v (names fs)) fs)))
      end
  end.
End calls.

(** ** The process: file system, call counter, [NEXT_TEMP], call log *)
Record World := mkWorld {
  w_fs : FS;
  w_step : nat;
  w_temp : Z;
  w_log : list (FS * FS);
}.

(** Fallible I/O. *)
Abbreviation IO E A := (stm World E A).

Section syscalls.
Context `{Kernel}.

(** One call: the others run, then the call fails or takes effect. *)
Definition syscall {A} (call : nat → FS → result A IoError * FS) : IO IoError A := λ w,
  let n := w_step w in
  let fs := env n (w_fs w) in
  let '(r, fs') := match fault n with
                   | Some text => (Err (injected text), fs)
                   | None => call n fs
                   end in
  (r, mkWorld fs' (S n) (w_temp w) (w_log w ++ [(fs, fs')])).

(** A call that only looks. *)
Definition query {A} (look : nat → FS → result A IoError) : IO IoError A :=
  syscall (λ n fs, (look n fs, fs)).

(** An open file: the inode and the position. *)
Record File := mkFile { f_inode : nat; f_pos : Z }.

Definition symlink_metadata (p : Path) : IO IoError Metadata := query (λ _, k_lstat p).
Definition open_nofollow (p : Path) : IO IoError File :=
  v ← query (λ _, k_open_nofollow p); mret (mkFile v 0).
Definition file_metadata (f : File) : IO IoError Metadata := query (λ _, k_fstat (f_inode f)).

(** [file.seek(SeekFrom::Start(pos))]: the kernel's offsets are signed. *)
Definition seek_start (f : File) (pos : Z) : IO IoError File :=
  _ ← query (λ _ _, if pos <? 2 ^ 63 then Ok tt else Err EINVAL);
  mret (mkFile (f_inode f) pos).

(** [2 ^ loop_depth n] rounds are more than [n] rounds. *)
Definition loop_depth (n : Z) : nat := Z.to_nat (Z.log2 (Z.max 1 n) + 1).

(** [file.take(limit).read_to_end(&mut bytes)]: reads until the end of the
    file or of the limit, one transfer at a time. *)
Definition read_round (f : File) (s : Z * Z * list byte) :
    IO IoError (Z * Z * list byte + list byte) :=
  let '(pos, room, acc) := s in
  if room <=? 0 then mret (inr acc)
  else
    got ← query (λ n, k_read n (f_inode f) pos room);
    match got with
    | [] => mret (inr acc)
    | _ => let n := Z.of_nat (length got) in mret (inl (pos + n, room - n, acc ++ got))
    end.
Definition read_to_end (f : File) (limit : Z) : IO IoError (list byte) :=
  r ← mloop (loop_depth limit) (read_round f) (f_pos f, limit, []);
  mret match r with inl (_, _, acc) => acc | inr acc => acc end.

Definition create_new (p : Path) : IO IoError File :=
  v ← syscall (λ _, k_create_new p); mret (mkFile v 0).

(** [file.write_all(bytes)] *)
Definition write_round (f : File) (s : Z * list byte) :
    IO IoError (Z * list byte + unit) :=
  let '(pos, todo) := s in
  match todo with
  | [] => mret (inr tt)
  | _ =>
      k ← syscall (λ n, k_write n (f_inode f) pos todo);
      mret (inl (pos + k, drop (Z.to_nat k) todo))
  end.
Definition write_all (f : File) (bytes : list byte) : IO IoError unit :=
  _ ← mloop (loop_depth (Z.of_nat (length bytes))) (write_round f) (f_pos f, bytes);
  mret tt.

Definition sync_all (f : File) : IO IoError unit := query (λ _ _, Ok tt).
Definition fchown (f : File) (u g : Z) : IO IoError unit :=
  syscall (λ _, k_fchown (f_inode f) u g).
Definition set_permissions (f : File) (mode : Z) : IO IoError unit :=
  syscall (λ _, k_fchmod (f_inode f) mode).
Definition rename (old new : Path) : IO IoError unit := syscall (λ _, k_rename old new).
Definition hard_link (old new : Path) : IO IoError unit := syscall (λ _, k_link old new).
Definition remove_file (p : Path) : IO IoError unit := syscall (λ _, k_unlink p).
End syscalls.

(** ** Logs

    [logs I m]: every call that [m] makes satisfies [I before after]. *)
Definition log_extends (I : FS → FS → Prop) (w w' : World) : Prop :=
  ∃ l, w_log w' = w_log w ++ l ∧ Forall (λ e, I e.1 e.2) l.

#[export] Instance log_extends_preorder I : PreOrder (log_extends I).
Proof.
  split.
  - intros w. exists []. by rewrite app_nil_r.
  - intros w1 w2 w3 (l1 & E1 & H1) (l2 & E2 & H2). exists (l1 ++ l2).
    rewrite E2, E1, app_assoc. split; [done|by apply Forall_app].
Qed.

Abbreviation logs I m := (preserves (log_extends I) m).

(** ** Reasoning about calls *)

(** The world after the next call took the file system from [fs] to [fs']. *)
Definition after_call (w : World) (fs fs' : FS) : World :=
  mkWorld fs' (S (w_step w)) (w_temp w) (w_log w ++ [(fs, fs')]).

Section call_rules.
Context `{Kernel}.

(** Some call of the run may fail. *)
Definition faulty : Prop := ∃ n text, fault n = Some text.

(** [r] is [s], unless a failed call turned it into an error. *)
Definition or_fault {A E} (r s : result A E) : Prop := r = s ∨ (faulty ∧ is_ok r = false).

(** The file system that the next call meets. *)
Definition met (w : World) : FS := env (w_step w) (w_fs w).

Lemma wp_syscall {A} (call : nat → FS → result A IoError * FS) Q w :
  (∀ text, fault (w_step w) = Some text →
   Q (Err (injected text)) (after_call w (met w) (met w))) →
  (fault (w_step w) = None →
   Q (call (w_step w) (met w)).1 (after_call w (met w) (call (w_step w) (met w)).2)) →
  wp (syscall call) Q w.
Proof.
  intros He Hok. unfold wp, syscall, met, after_call in *.
  destruct (fault (w_step w)) as [text|]; [by apply He|].
  destruct (call _ _); simpl in *. by apply Hok.
Qed.

Lemma wp_query {A} (look : nat → FS → result A IoError) Q w :
  (∀ e, Q (Err e) (after_call w (met w) (met w))) →
  Q (look (w_step w) (met w)) (after_call w (met w) (met w)) →
  wp (query look) Q w.
Proof. intros He Hok. unfold query. apply wp_syscall; simpl; auto. Qed.

Lemma logs_syscall {A} I (call : nat → FS → result A IoError * FS) :
  (∀ fs, I fs fs) → (∀ n fs, I fs (call n fs).2) → logs I (syscall call).
Proof.
  intros Hrefl Hcall w. unfold syscall.
  destruct (fault (w_step w)) as [e|].
  - exists [(met w, met w)]. split; [done|]. by repeat constructor; simpl.
  - specialize (Hcall (w_step w) (met w)). unfold met in *.
    destruct (call _ _) as [r fs'] eqn:Hc. simpl in *.
    eexists [_]. split; [done|]. by repeat constructor.
Qed.

Lemma logs_query {A} I (look : nat → FS → result A IoError) :
  (∀ fs, I fs fs) → logs I (query look).
Proof. intros. by apply logs_syscall. Qed.

(** *** Loop lengths *)

Lemma loop_depth_enough n : (Z.to_nat n < 2 ^ loop_depth n)%nat.
Proof.
  unfold loop_depth. apply Nat2Z.inj_lt.
  pose proof (Z.log2_nonneg (Z.max 1 n)).
  rewrite Nat2Z.inj_pow, (Z2Nat.id (_ + 1)) by lia. change (Z.of_nat 2) with 2.
  destruct (Z.log2_spec (Z.max 1 n)) as [_ Hlt]; [lia|].
  rewrite <-Z.add_1_r in Hlt. lia.
Qed.

(** [read_to_end] and [write_all] never run out of rounds. *)
Lemma read_rounds_end f limit w s :
  (mloop (loop_depth limit) (read_round f) (f_pos f, limit, []) w).1 ≠ Ok (inl s).
Proof.
  apply (mloop_done _ (λ s, Z.to_nat s.1.2)); [|apply loop_depth_enough].
  intros [[pos room] acc] w0 [[pos' room'] acc']. unfold read_round. simpl.
  destruct (Z.leb_spec room 0); [done|].
  unfold mbind, stm_bind. destruct (query _ w0) as [[got|e] w1]; [|done].
  destruct got as [|b got]; [done|]. intros [= <- <- <-]. cbn [length]. lia.
Qed.

Lemma transfer_bounds n want : 0 < want → 0 < transfer n want ≤ want.
Proof. unfold transfer. lia. Qed.

(** Reading to the end keeps any invariant [J] of the bytes read so far that the others
    and a transfer keep; it stops at the limit, at the end of the file, or failing. *)
Lemma wp_read_while (J : list byte → FS → Prop) f limit w :
  (∀ n acc fs, J acc fs → J acc (env n fs)) →
  (∀ acc fs, J acc fs → ∃ i, inodes fs !! f_inode f = Some i ∧
    ∀ n, 0 < n → J (acc ++ take (Z.to_nat n) (drop (Z.to_nat (f_pos f + Z.of_nat (length acc))) (i_data i))) fs) →
  0 ≤ f_pos f → 0 ≤ limit → J [] (w_fs w) →
  wp (read_to_end f limit) (λ r w', ∃ i, inodes (w_fs w') !! f_inode f = Some i ∧
    match r with
    | Ok acc => J acc (w_fs w') ∧ Z.of_nat (length acc) ≤ limit ∧
        (Z.of_nat (length acc) = limit ∨ size_of i ≤ f_pos f + Z.of_nat (length acc))
    | Err _ => (∃ acc, J acc (w_fs w')) ∧ (faulty ∨ inode_is_dir i = true)
    end) w.
Proof.
  intros HR Hread Hpos Hlimit Hinit. unfold read_to_end. apply wp_bind.
  pose proof (read_rounds_end f limit w) as Hend.
  match goal with |- wp _ (bind_post _ ?Q) _ =>
    assert (wp (mloop (loop_depth limit) (read_round f) (f_pos f, limit, []))
      (loop_post (λ s w', let '(pos, room, acc) := s in
         pos = f_pos f + Z.of_nat (length acc) ∧ room = limit - Z.of_nat (length acc) ∧
         0 ≤ room ∧ J acc (w_fs w')) Q) w) as Hwp end.
  { apply wp_mloop; [|simpl; rewrite Z.add_0_r, Z.sub_0_r; auto].
    intros [[pos room] acc] w0 (-> & -> & Hroom & HJ). unfold read_round.
    destruct (Z.leb_spec (limit - Z.of_nat (length acc)) 0).
    { apply wp_ret. simpl. destruct (Hread _ _ HJ) as (i & Hi & _). exists i. split_and!; [done..|lia|left; lia]. }
    apply wp_bind. apply (HR (w_step w0)) in HJ. destruct (Hread _ _ HJ) as (i & Hi & HJ').
    apply wp_syscall; simpl; [intros text Hf; exists i; split_and!; [done|by exists acc|left; by do 2 eexists]|].
    intros _. unfold k_read, met. rewrite Hi. destruct (inode_is_dir i) eqn:Hdir.
    { simpl. exists i. split_and!; [done|by exists acc|by right]. }
    set (avail := Z.min _ _). destruct (Z.leb_spec avail 0) as [Hle|Hgt].
    { apply wp_ret. simpl. exists i. split_and!; [done..|lia|]. right. lia. }
    pose proof (transfer_bounds (w_step w0) avail Hgt) as Ht.
    set (t := transfer _ _) in *. specialize (HJ' t ltac:(lia)). set (got := take _ _) in *.
    assert (Z.of_nat (length got) = t) as Hlen.
    { unfold got. rewrite length_take, length_drop. unfold size_of in *. lia. }
    clearbody got. cbn [bind_post].
    destruct got as [|b0 got0]; [simpl in Hlen; lia|].
    apply wp_ret. cbn [loop_post]. autorewrite with list_len.
    split_and!; [lia..|exact HJ']. }
  unfold wp in *. destruct (mloop _ _ _ w) as [[[s|acc]|e] w'] eqn:Hm; simpl in *.
  - by destruct (Hend s).
  - exact Hwp.
  - exact Hwp.
Qed.

(** A file whose bytes stay what they are is read as a whole. *)
Lemma wp_read_constant (I : FS → Prop) d f limit w :
  (∀ n fs, I fs → I (env n fs)) →
  (∀ fs, I fs → ∃ i, inodes fs !! f_inode f = Some i ∧ i_data i = d ∧ inode_is_dir i = false) →
  0 ≤ f_pos f → 0 ≤ limit → I (w_fs w) →
  wp (read_to_end f limit) (λ r w', I (w_fs w') ∧
    or_fault r (Ok (take (Z.to_nat limit) (drop (Z.to_nat (f_pos f)) d)))) w.
Proof.
  intros HI Hd Hpos Hlimit Hw. eapply wp_mono.
  { apply (wp_read_while (λ acc fs, I fs ∧ acc `prefix_of` drop (Z.to_nat (f_pos f)) d)); [..|split; [exact Hw|apply prefix_nil]].
    - intros n acc fs [Hfs Hacc]. auto.
    - intros acc fs [Hfs [rest Hrest]]. destruct (Hd _ Hfs) as (i & Hi & Hdata & _). exists i. split; [done|]. intros n Hn.
      split; [done|]. rewrite Hdata, Z2Nat.inj_add, Nat2Z.id, <-drop_drop, Hrest, drop_app_length by lia.
      apply prefix_app, prefix_take.
    - done.
    - done. }
  intros r w' (i & Hi & Hr). destruct r as [acc|e].
  - destruct Hr as ([Hfs [rest Hrest]] & Hle & Hend). split; [done|]. left. f_equal.
    destruct (Hd _ Hfs) as (i' & Hi' & Hdata & _). rewrite Hi in Hi'. injection Hi' as <-.
    unfold size_of in Hend. rewrite Hdata in Hend. pose proof (f_equal length Hrest) as Hlen.
    rewrite length_drop, length_app in Hlen. rewrite Hrest. destruct Hend as [Heq|Hend].
    + by rewrite <-Heq, Nat2Z.id, take_app_length.
    + assert (rest = []) as -> by (apply length_zero_iff_nil; lia). by rewrite app_nil_r, take_ge by lia.
  - destruct Hr as ((acc & Hfs & _) & Hwhy). split; [done|]. right. split; [|done].
    destruct Hwhy as [Hf|Hdir]; [done|]. destruct (Hd _ Hfs) as (i' & Hi' & _ & Hnot). congruence.
Qed.

(** *** Following one inode through the work of others

    [Henv]: whatever the others do to an inode is a step of [R]; the slot of
    an inode survives, as an open descriptor or a name holds on to it. *)
Section follow.
Context (R : Inode → Inode → Prop).
Context (Henv : ∀ n fs v i, inodes fs !! v = Some i →
  ∃ i', inodes (env n fs) !! v = Some i' ∧ R i i').

(** The inode in slot [v] satisfies [P]. *)
Definition holds (v : nat) (P : Inode → Prop) (w : World) : Prop :=
  ∃ i, inodes (w_fs w) !! v = Some i ∧ P i.

Lemma holds_met v P w :
  holds v P w → ∃ i i', P i ∧ R i i' ∧ inodes (met w) !! v = Some i'.
Proof.
  intros (i & Hi & HP). destruct (Henv (w_step w) _ _ _ Hi) as (i' & Hi' & HR). eauto.
Qed.

Lemma holds_mono v (P Q : Inode → Prop) w :
  (∀ i, P i → Q i) → holds v P w → holds v Q w.
Proof. intros HPQ (i & ? & ?). exists i. auto. Qed.

(** How reading to the end stops: having kept [J], at the limit or at the end
    of the file. *)
Definition read_stops (J : list byte → Inode → Prop) (f : File) (limit : Z)
    (r : result (list byte) IoError) : World → Prop :=
  holds (f_inode f) (λ i,
    match r with
    | Ok acc => J acc i ∧ Z.of_nat (length acc) ≤ limit ∧
        (Z.of_nat (length acc) = limit ∨ size_of i ≤ f_pos f + Z.of_nat (length acc))
    | Err _ => ∃ acc, J acc i
    end).

(** Reading to the end keeps any invariant [J] of the bytes read so far
    that the others' steps and a transfer keep. *)
Lemma wp_read_to_end (J : list byte → Inode → Prop) f limit w :
  (∀ acc i i', J acc i → R i i' → J acc i') →
  (∀ acc i n, J acc i → 0 < n →
    J (acc ++ take (Z.to_nat n) (drop (Z.to_nat (f_pos f + Z.of_nat (length acc)))
         (i_data i))) i) →
  0 ≤ f_pos f → 0 ≤ limit → holds (f_inode f) (J []) w →
  wp (read_to_end f limit) (read_stops J f limit) w.
Proof.
  intros HR Hread Hpos Hlimit Hinit. eapply wp_mono.
  { apply (wp_read_while (λ acc fs, ∃ i, inodes fs !! f_inode f = Some i ∧ J acc i)); [..|exact Hinit]; [| |done..].
    - intros n acc fs (i & Hi & HJ). destruct (Henv n _ _ _ Hi) as (i' & Hi' & Hii). exists i'. eauto.
    - intros acc fs (i & Hi & HJ). exists i. split; [done|]. intros n Hn. exists i. auto. }
  intros r w' (i & Hi & Hr). exists i. split; [done|].
  destruct r as [acc|e]; [destruct Hr as ((i' & Hi' & HJ) & Hr)|destruct Hr as ((acc & i' & Hi' & HJ) & _)];
    rewrite Hi in Hi'; injection Hi' as <-; eauto.
Qed.
End follow.
End call_rules.

(** ** States passed through

    [passed w w' P]: one of the calls made between [w] and [w'] left a file
    system that satisfies [P]. *)
Abbreviation grows := (log_extends (λ _ _, True)).

Definition passed (w w' : World) (P : FS → Prop) : Prop :=
  ∃ e, e ∈ drop (length (w_log w)) (w_log w') ∧ P e.2.

Lemma passed_later w w1 w2 P : passed w w1 P → grows w1 w2 → passed w w2 P.
Proof.
  intros (e & He & HP) (l & Hl & _). exists e. split; [|done].
  rewrite Hl, drop_app. apply elem_of_app. by left.
Qed.

Lemma passed_earlier w w1 w2 P : grows w w1 → passed w1 w2 P → passed w w2 P.
Proof.
  intros (l & Hl & _) (e & He & HP). exists e. split; [|done].
  rewrite Hl, length_app, <-drop_drop in He. by apply subseteq_drop in He.
Qed.

Lemma passed_call w fs fs' (P : FS → Prop) : P fs' → passed w (after_call w fs fs') P.
Proof.
  intros HP. exists (fs, fs'). split; [|done]. simpl.
  rewrite drop_app_length. by left.
Qed.

Lemma grows_call w fs fs' : grows w (after_call w fs fs').
Proof. exists [(fs, fs')]. split; [done|]. by repeat constructor. Qed.

(** ** Honest clocks

    POSIX marks the status-change time of an inode whenever its data or its
    attributes change. [Honest]: the marks of others are fresh, so that an inode
    touched between two calls of this process differs in [i_ctime]. *)
Definition time_lt (t u : time) : Prop := t.1 < u.1 ∨ (t.1 = u.1 ∧ t.2 < u.2).
Definition later (i i' : Inode) : Prop := i = i' ∨ time_lt (i_ctime i) (i_ctime i').

Class Honest `{Kernel} : Prop := honest n fs v i :
  inodes fs !! v = Some i → ∃ i', inodes (env n fs) !! v = Some i' ∧ later i i'.

#[export] Instance later_preorder : PreOrder later.
Proof.
  split; [by left|]. intros i j k [->|Hij] [->|Hjk]; unfold later; auto.
  right. unfold time_lt in *. lia.
Qed.

Lemma later_same_time i i' : later i i' → i_ctime i = i_ctime i' → i = i'.
Proof. intros [->|Hlt] Heq; [done|]. unfold time_lt in Hlt. rewrite Heq in Hlt. lia. Qed.

(** An inode caught between two states with the same mark is that inode. *)
Lemma later_between i j k : later i j → later j k → i_ctime i = i_ctime k → j = i ∧ k = i.
Proof.
  intros Hij Hjk Heq. assert (i = k) as <- by (apply later_same_time; [by etrans|done]).
  destruct Hij as [<-|Hij]; [done|]. destruct Hjk as [->|Hjk]; [done|].
  unfold time_lt in *. lia.
Qed.

(** ** Running alone

    With no other process and no failing call a routine is a function of the
    file system, apart from the times that the calls read off the clock. *)
Definition same_state (w w' : World) : Prop := w_fs w' ≡ w_fs w ∧ w_temp w' = w_temp w.
#[export] Instance same_state_preorder : PreOrder same_state.
Proof.
  split; [done|]. intros w1 w2 w3 [F1 T1] [F2 T2]. split; [by rewrite F2, F1|congruence].
Qed.

Lemma same_state_call w fs : fs ≡ w_fs w → same_state w (after_call w fs fs).
Proof. done. Qed.

Lemma dir_ok_proper f g p : f ≡ g → dir_ok f p = dir_ok g p.
Proof. intros Hfg. unfold dir_ok. destruct (parent p) as [d|]; [|done]. destruct (comps d); [done|]. by rewrite Hfg. Qed.

Section alone.
Context `{!Kernel, !Undisturbed}.

#[export] Instance undisturbed_honest : Honest.
Proof. intros n fs v i Hi. exists i. destruct (undisturbed n fs) as [_ ->]. split; [done|by left]. Qed.

Lemma met_alone w : met w ≡ w_fs w.
Proof. apply undisturbed. Qed.
Lemma met_shown w : shown (clock (met w)).
Proof. by do 2 eexists. Qed.
Lemma some_time : ∃ t, shown t.
Proof. exists (clock (env 0 (mkFS ∅ ∅ (0, 0)))). by do 2 eexists. Qed.

Lemma same_state_query {A} (look : nat → FS → result A IoError) :
  preserves same_state (query look).
Proof.
  intros w. unfold query, syscall. pose proof (met_alone w) as Hm. unfold met in Hm.
  by destruct (fault (w_step w)).
Qed.

(** A call meets the file system as it is, at some time. *)
Lemma wp_syscall_alone {A} (call : nat → FS → result A IoError * FS) Q w :
  (∀ text fs, faulty → fs ≡ w_fs w → Q (Err (injected text)) (after_call w fs fs)) →
  (∀ fs, fs ≡ w_fs w → shown (clock fs) →
    Q (call (w_step w) fs).1 (after_call w fs (call (w_step w) fs).2)) →
  wp (syscall call) Q w.
Proof.
  intros He HQ. pose proof (met_alone w). apply wp_syscall; [|intros _; apply HQ; [done|apply met_shown]].
  intros text Hf. apply He; [|done]. by exists (w_step w), text.
Qed.

Lemma wp_query_alone {A} (look : nat → FS → result A IoError) Q w :
  (∀ text fs, faulty → fs ≡ w_fs w → Q (Err (injected text)) (after_call w fs fs)) →
  (∀ fs, fs ≡ w_fs w → Q (look (w_step w) fs) (after_call w fs fs)) → wp (query look) Q w.
Proof. intros He HQ. apply wp_syscall_alone; [done|]. intros fs Hfs _. by apply HQ. Qed.

End alone.

Lemma or_fault_refl `{Kernel} {A E} (r : result A E) : or_fault r r.
Proof. by left. Qed.
Lemma or_fault_err `{Kernel} {A E} (e : E) (s : result A E) : faulty → or_fault (Err e) s.
Proof. by right. Qed.
Lemma or_fault_ok `{Kernel} {A E} (r s : result A E) a : or_fault r s → r = Ok a → s = Ok a.
Proof. intros [->|[_ Hr]] Ha; [done|]. by rewrite Ha in Hr. Qed.
Lemma or_fault_never `{Kernel, !Faultless} {A E} (r s : result A E) : or_fault r s → r = s.
Proof. intros [->|[(n & e & Hf) _]]; [done|]. by rewrite faultless in Hf. Qed.
#[export] Hint Resolve or_fault_refl or_fault_err : core.

(** Through a chain of states that differ in the time only. *)
Ltac follow_equiv :=
  first [reflexivity | eassumption
        | match goal with H : ?f ≡ _ |- ?f ≡ _ => etrans; [exact H|]; clear H; follow_equiv end].

(** Nothing changed, and the result is the expected one or a fault. *)
Ltac quiet :=
  cbn [bind_post result_map_err result_map];
  split; [unfold same_state in *; cbn [w_fs w_temp after_call] in *;
          intuition (first [follow_equiv | congruence])|by auto].
