(* ===== verification/Files.v ===== *)
(** * The rest of [std::fs] that the handlers use

    Opening for writing (with truncation, or to append), directories, symbolic
    links, [copy] and [exists]. As in [Kernel.v], a symbolic link is followed when it
    is the last component of a path; the names a directory iteration returns are
    fixed when the iteration is opened. [canonicalize] is the host's. *)
From S2P Require Import Prelude MachineInt Text Kernel.
Local Open Scope string_scope.
Local Open Scope list_scope.
Local Open Scope Z_scope.

(** ** What the host decides *)
Class Directories := {
  (** [realpath(3)], which follows links in every component *)
  realpath : FS → Path → result Path IoError;
  (** the entries an iteration over a directory returns, in the host's order, with
      the errors that single entries may give *)
  listing : FS → Path → list (result string IoError);
}.

(** The names inside a directory. *)
Definition entry_of (dir p : Path) : option string :=
  if decide (parent p = Some dir) then last (comps p) else None.
Definition entries (fs : FS) (dir : Path) : list string :=
  omap (λ kv : Path * nat, entry_of dir kv.1) (map_to_list (names fs)).

(** An iteration over an unchanged directory returns its entries, each once. *)
Class CompleteListing `{Directories} : Prop :=
  listing_complete fs dir : listing fs dir ≡ₚ (Ok <$> entries fs dir).

(** ** Symbolic links *)

(** The target of a link at [p], as a path. *)
Definition link_target (p : Path) (i : Inode) : Path :=
  let t := path_new (of_bytes (i_data i)) in
  if rooted t then t
  else mkPath (rooted p) (removelast (comps p) ++ comps t).

(** Linux gives up after forty links. *)
Fixpoint follow (n : nat) (fs : FS) (p : Path) : result Path IoError :=
  match lookup_path fs p with
  | Some (_, i) =>
      if inode_is_symlink i then
        match n with
        | O => Err ELOOP
        | S n => follow n fs (link_target p i)
        end
      else Ok p
  | None => Ok p
  end.
Definition resolved (fs : FS) (p : Path) : result Path IoError := follow 40 fs p.

#[export] Instance resolved_proper : Proper ((≡) ==> (=) ==> (=)) resolved.
Proof.
  intros f g Hfg p ? <-. unfold resolved. generalize 40%nat. intros n. revert p.
  induction n as [|n IH]; intros p; cbn [follow]; rewrite (lookup_equiv _ _ _ Hfg); [done|].
  destruct (lookup_path g p) as [[v i]|]; [|done]. by rewrite IH.
Qed.
Lemma resolved_equiv f g p : f ≡ g → resolved f p = resolved g p.
Proof. by intros ->. Qed.

Section calls.
Context `{Kernel, Directories}.

(** [stat(p)], which follows links. *)
Definition k_stat (p : Path) (fs : FS) : result Metadata IoError :=
  let? q := resolved fs p in k_lstat q fs.

Definition k_readlink (p : Path) (fs : FS) : result string IoError :=
  match lookup_path fs p with
  | Some (_, i) => if inode_is_symlink i then Ok (of_bytes (i_data i)) else Err EINVAL
  | None => Err ENOENT
  end.

Definition k_opendir (p : Path) (fs : FS) : result (list (result string IoError)) IoError :=
  let? q := resolved fs p in
  match lookup_path fs q with
  | Some (_, i) => if inode_is_dir i then Ok (listing fs q) else Err ENOTDIR
  | None => Err ENOENT
  end.

(** [open(p, O_WRONLY | O_CREAT, 0o666)], with [O_TRUNC] or [O_APPEND]. *)
Definition k_open_write (truncate : bool) (p : Path) (fs : FS) : result nat IoError * FS :=
  match resolved fs p with
  | Err e => (Err e, fs)
  | Ok q =>
      match lookup_path fs q with
      | None => k_create_new q fs
      | Some (v, i) =>
          if inode_is_dir i then (Err EISDIR, fs)
          else (Ok v, if truncate then set_inode v (set_data (clock fs) [] i) fs else fs)
      end
  end.

(** [write] on a file opened with [O_APPEND]: always at its end. *)
Definition k_append (n : nat) (v : nat) (bs : list byte) (fs : FS) : result Z IoError * FS :=
  match inodes fs !! v with
  | Some i => k_write n v (size_of i) bs fs
  | None => (Err EBADF, fs)
  end.

(** A directory starts with its own two names. *)
Definition dir_mode : Z := Z.lor S_IFDIR (Z.ldiff 0x1FF umask).
Definition k_mkdir (p : Path) (fs : FS) : result unit IoError * FS :=
  match names fs !! p with
  | Some _ => (Err EEXIST, fs)
  | None =>
      if dir_ok fs p then
        let v := fresh (dom (inodes fs)) in
        let i := mkInode device (pick_ino fs) dir_mode 2 euid egid (clock fs) (clock fs) [] in
        (Ok tt, set_names (<[p := v]> (names fs)) (set_inode v i fs))
      else (Err ENOENT, fs)
  end.

Definition k_rmdir (p : Path) (fs : FS) : result unit IoError * FS :=
  match lookup_path fs p with
  | None => (Err ENOENT, fs)
  | Some (v, i) =>
      if negb (inode_is_dir i) then (Err ENOTDIR, fs)
      else if has_entries p fs then (Err ENOTEMPTY, fs)
      else (Ok tt, add_link (-2) v (set_names (delete p (names fs)) fs))
  end.

(** ** [std::fs] *)

Definition metadata (p : Path) : IO IoError Metadata := query (λ _, k_stat p).
(** [path.exists()] and [path.is_dir()] *)
Definition exists_at {E} (p : Path) : IO E bool :=
  r ← attempt (metadata p); mret (is_ok r).
Definition is_dir_at {E} (p : Path) : IO E bool :=
  r ← attempt (metadata p);
  mret match r with Ok md => is_dir md | Err _ => false end.

Definition read_link (p : Path) : IO IoError string := query (λ _, k_readlink p).
Definition canonicalize (p : Path) : IO IoError Path := query (λ _ fs, realpath fs p).
Definition read_dir (p : Path) : IO IoError (list (result string IoError)) :=
  query (λ _, k_opendir p).

(** [OpenOptions::new().create(true).append(true).open(p)] and its [write_all]. *)
Definition open_append (p : Path) : IO IoError nat := syscall (λ _, k_open_write false p).
Definition append_round (v : nat) (todo : list byte) : IO IoError (list byte + unit) :=
  match todo with
  | [] => mret (inr tt)
  | _ => k ← syscall (λ n, k_append n v todo); mret (inl (drop (Z.to_nat k) todo))
  end.
Definition append_all (v : nat) (bytes : list byte) : IO IoError unit :=
  _ ← mloop (loop_depth (Z.of_nat (length bytes))) (append_round v) bytes; mret tt.

(** [fs::write(p, bytes)] *)
Definition open_truncated (p : Path) : IO IoError File :=
  v ← syscall (λ _, k_open_write true p); mret (mkFile v 0).
Definition fs_write (p : Path) (bytes : list byte) : IO IoError unit :=
  f ← open_truncated p; write_all f bytes.

Definition create_dir (p : Path) : IO IoError unit := syscall (λ _, k_mkdir p).

(** [fs::create_dir_all]: the parents first when the directory cannot be made. *)
Definition failed_tree := mkIoError OtherKind "failed to create whole tree".
Fixpoint create_dir_all_upto (n : nat) (p : Path) : IO IoError unit :=
  match comps p, n with
  | [], _ | _, O => mret tt
  | _, S n =>
      r ← attempt (create_dir p);
      match r with
      | Ok _ => mret tt
      | Err e =>
          if decide (error_kind e = NotFound) then
            match parent p with
            | Some q => create_dir_all_upto n q
            | None => throw failed_tree
            end;;
            r ← attempt (create_dir p);
            match r with
            | Ok _ => mret tt
            | Err e => d ← is_dir_at p; if (d : bool) then mret tt else throw e
            end
          else d ← is_dir_at p; if (d : bool) then mret tt else throw e
      end
  end.
Definition create_dir_all (p : Path) : IO IoError unit :=
  create_dir_all_upto (length (comps p)) p.

Definition remove_dir (p : Path) : IO IoError unit := syscall (λ _, k_rmdir p).

(** [fs::remove_dir_all]: a link is removed itself; a directory is emptied from the
    inside. *)
Fixpoint remove_tree (n : nat) (p : Path) : IO IoError unit :=
  md ← symlink_metadata p;
  if is_dir md then
    match n with
    | O => throw ELOOP
    | S n =>
        names ← read_dir p;
        (fix each (l : list (result string IoError)) : IO IoError unit :=
           match l with
           | [] => mret tt
           | r :: l => name ← lift_result r; remove_tree n (join p name);; each l
           end) names;;
        remove_dir p
    end
  else remove_file p.
(** No path is deeper than [PATH_MAX]. *)
Definition remove_dir_all (p : Path) : IO IoError unit :=
  md ← symlink_metadata p;
  if is_symlink md then remove_file p
  else if is_dir md then remove_tree 4096 p
  else throw ENOTDIR.

(** [fs::copy(from, to)]: contents and permission bits of a regular file. *)
Definition not_regular := mkIoError OtherKind
  "the source path is neither a regular file nor a symlink to a regular file".
Definition MAX_COPY : Z := 2 ^ 63 - 1.
Definition fs_copy (from to : Path) : IO IoError Z :=
  v ← syscall (λ _ fs, (let? q := resolved fs from in k_open_nofollow q fs, fs));
  md ← file_metadata (mkFile v 0);
  (if is_file md then mret tt else throw not_regular);;
  f ← open_truncated to;
  set_permissions f (Z.land (md_mode md) 0xFFF);;
  bytes ← read_to_end (mkFile v 0) MAX_COPY;
  write_all f bytes;;
  mret (Z.of_nat (length bytes)).
End calls.

(** ** An instance to evaluate on *)
Definition plain_directories : Directories := {|
  realpath := λ fs p, let? q := resolved fs p in
    match lookup_path fs q with Some _ => Ok q | None => Err ENOENT end;
  listing := λ fs dir, Ok <$> entries fs dir |}.
Lemma plain_directories_complete : CompleteListing (H := plain_directories).
Proof. intros fs dir. apply Permutation_refl. Qed.
