(* ===== verification/Reference.v ===== *)
(** * Concrete instances of the interfaces

    A JSON value type, a byte codec and kernels for which the laws of [Json.v]
    and [Kernel.v] hold, and a small file system: what the examples and the
    witnesses evaluate on. None of it models the program. *)
From S2P Require Import Prelude MachineInt Text Json Kernel.
Local Open Scope Z_scope.

(** ** JSON *)

Local Unset Elimination Schemes.
Inductive jv :=
| JNull
| JBool (b : bool)
| JNum (n : Z)
| JStr (s : string)
| JArr (l : list jv)
| JObj (l : list (string * jv)).

Definition jstring (s : string) : string := quoted s.

Fixpoint jprint (v : jv) : string :=
  match v with
  | JNull => "null"
  | JBool b => if b then "true" else "false"
  | JNum n => pretty n
  | JStr s => jstring s
  | JArr l => "[" +:+ String.concat "," (jprint <$> l) +:+ "]"
  | JObj l => "{" +:+ String.concat ","
      ((λ kv : string * jv, jstring kv.1 +:+ ":" +:+ jprint kv.2) <$> l) +:+ "}"
  end.

Definition in_range (lo hi : Z) (v : jv) : option Z :=
  match v with
  | JNum n => if (lo <=? n) && (n <? hi) then Some n else None
  | _ => None
  end.

(** The parser knows two phrases by heart. *)
Definition read_the_note : jv := JObj [("op"%string, JStr "read"); ("path"%string, JStr "/d/note")].
Definition parse (text : string) : option jv := find (λ v, bool_decide (jprint v = text)) [JNull; read_the_note].

#[export] Instance ref_json : Json := {|
  Value := jv; null := JNull; of_bool := JBool; of_u64 := JNum; of_i64 := JNum;
  of_str := JStr; of_array := JArr; of_object := λ m, JObj (map_to_list m);
  is_null := λ v, match v with JNull => true | _ => false end;
  as_bool := λ v, match v with JBool b => Some b | _ => None end;
  as_u64 := in_range 0 (2 ^ 64); as_i64 := in_range (- 2 ^ 63) (2 ^ 63);
  as_str := λ v, match v with JStr s => Some s | _ => None end;
  as_array := λ v, match v with JArr l => Some l | _ => None end;
  as_object := λ v, match v with JObj l => Some (list_to_map l) | _ => None end;
  to_string := jprint;
  from_slice := λ bs, parse (of_bytes bs);
|}.

Lemma in_range_in lo hi n : lo ≤ n < hi → in_range lo hi (JNum n) = Some n.
Proof.
  intros [Hlo Hhi]. simpl. by rewrite (proj2 (Z.leb_le _ _)), (proj2 (Z.ltb_lt _ _)).
Qed.
Lemma in_range_out lo hi v n : in_range lo hi v = Some n → lo ≤ n < hi.
Proof.
  destruct v; simpl; try done. destruct (_ && _) eqn:Hb; [|done].
  intros [= <-]. split_bools. done.
Qed.

#[export] Instance ref_json_laws : JsonLaws.
Proof.
  split; try done.
  - apply in_range_in.
  - apply in_range_in.
  - apply in_range_out.
  - apply in_range_out.
  - intros m. simpl. by rewrite list_to_map_to_list.
Qed.

(** ** A byte codec with the round-trip law of base64 *)
#[export] Instance ref_base64 : Base64 := {| encode := of_bytes; decode := λ s, Ok (into_bytes s) |}.
#[export] Instance ref_base64_laws : Base64Laws.
Proof. split. intros bs. simpl. by rewrite into_of_bytes. Qed.

(** ** Kernels *)

Definition next_ino (fs : FS) : Z :=
  1 + foldr (λ vi m, Z.max (i_ino vi.2) m) 0 (map_to_list (inodes fs)).

Lemma next_ino_above fs v i : inodes fs !! v = Some i → i_ino i < next_ino fs.
Proof.
  intros Hi%elem_of_map_to_list. unfold next_ino.
  induction (map_to_list (inodes fs)) as [|[v' i'] l IH]; [by apply elem_of_nil in Hi|].
  simpl. apply elem_of_cons in Hi as [[= <- <-]|Hi]; [lia|]. specialize (IH Hi). lia.
Qed.

(** A host whose other processes follow a script. *)
Definition scripted (others : nat → FS → FS) (faults : nat → option string) : Kernel := {|
  env := others; fault := faults; chunk := λ _ n, n; pick_ino := next_ino;
  chown_allowed := λ _ _, false; process_id := 77; umask := 0x12; euid := 1000;
  egid := 1000; device := 5;
|}.

(** Nobody else is at work; the clock advances by a second from call to call. *)
Definition second (n : nat) : time := (100 + Z.of_nat n mod 1000000, 7).
Definition quiet_kernel : Kernel := scripted (λ n fs, at_time (second n) fs) (λ _, None).

#[export] Instance scripted_fresh others faults : FreshInodes (H := scripted others faults).
Proof. intros fs v i Hi _. apply next_ino_above in Hi. simpl. lia. Qed.
#[export] Instance quiet_undisturbed : Undisturbed (H := quiet_kernel).
Proof. done. Qed.
#[export] Instance quiet_faultless : Faultless (H := quiet_kernel).
Proof. done. Qed.

(** ** A file system with one directory and one file *)

Definition ascii_bytes (s : string) : list byte := into_bytes s.
Definition note : Path := path_new "/d/note".
Definition other : Path := path_new "/d/new".

Definition dir_inode : Inode :=
  mkInode 5 100 (Z.lor S_IFDIR 0x1ED) 2 1000 1000 (10, 0) (10, 0) [].
Definition note_inode (text : string) : Inode :=
  mkInode 5 101 (Z.lor S_IFREG 0x1A0) 1 1000 1000 (20, 5) (20, 5) (ascii_bytes text).

Definition sample_fs : FS := mkFS
  {[path_new "/d" := 0%nat; note := 1%nat]}
  {[0%nat := dir_inode; 1%nat := note_inode "base"]}
  (30, 7).

Definition sample : World := mkWorld sample_fs 0 0 [].

(** ** Other processes *)

(** Only before call [k]. *)
Definition at_call (k : nat) (f : FS → FS) (n : nat) (fs : FS) : FS :=
  if decide (n = k) then f fs else fs.

Definition others_file (fs : FS) (text : string) : Inode :=
  mkInode 5 900 (Z.lor S_IFREG 0x1A4) 1 1000 1000 (clock fs) (clock fs) (ascii_bytes text).

(** Another process creates a file, *)
Definition creates (p : Path) (text : string) (fs : FS) : FS :=
  match names fs !! p with
  | Some _ => fs
  | None => let v := fresh (dom (inodes fs)) in
            set_names (<[p := v]> (names fs)) (set_inode v (others_file fs text) fs)
  end.

(** .. writes to one in place, *)
Definition writes (p : Path) (text : string) (fs : FS) : FS :=
  match lookup_path fs p with
  | Some (v, i) => set_inode v (set_data ((i_ctime i).1 + 1, 0) (ascii_bytes text) i) fs
  | None => fs
  end.

(** .. or replaces one by renaming a new file over it. *)
Definition replaces (p : Path) (text : string) (fs : FS) : FS :=
  match lookup_path fs p with
  | Some (v, i) =>
      let u := fresh (dom (inodes fs)) in
      mkFS (<[p := u]> (names fs))
           (<[u := others_file fs text]>
             (<[v := set_nlink ((i_ctime i).1 + 1, 0) 0 i]> (inodes fs))) (clock fs)
  | None => fs
  end.

(** What keeps the clocks honest for single inodes. *)
Definition honest_step (f : FS → FS) : Prop := ∀ fs v i,
  inodes fs !! v = Some i → ∃ i', inodes (f fs) !! v = Some i' ∧ later i i'.

Lemma honest_update fs v i' u i n c :
  inodes fs !! u = Some i → (∀ j, inodes fs !! v = Some j → later j i') →
  ∃ i1, inodes (mkFS n (<[v := i']> (inodes fs)) c) !! u = Some i1 ∧ later i i1.
Proof.
  intros Hu Hv. simpl. destruct (decide (u = v)) as [->|Hne].
  - exists i'. rewrite lookup_insert_eq. auto.
  - exists i. rewrite lookup_insert_ne by done. split; [done|by left].
Qed.

Lemma fresh_slot fs : inodes fs !! fresh (dom (inodes fs)) = None.
Proof. apply not_elem_of_dom, is_fresh. Qed.

Lemma creates_honest p text : honest_step (creates p text).
Proof.
  intros fs v i Hi. unfold creates. destruct (names fs !! p); [exists i; by split; [|left]|].
  apply (honest_update fs _ _ _ _ (<[p := fresh (dom (inodes fs))]> (names fs)) (clock fs)); [done|].
  intros j Hj. by rewrite fresh_slot in Hj.
Qed.

Lemma writes_honest p text : honest_step (writes p text).
Proof.
  intros fs v i Hi. unfold writes, lookup_path. destruct (names fs !! p) as [u|]; simpl;
    [|exists i; by split; [|left]].
  destruct (inodes fs !! u) as [j|] eqn:Hj; simpl; [|exists i; by split; [|left]].
  apply (honest_update fs _ _ _ _ (names fs) (clock fs)); [done|]. intros j' Hj'. assert (j' = j) as -> by congruence.
  right. left. simpl. lia.
Qed.

Lemma replaces_honest p text : honest_step (replaces p text).
Proof.
  intros fs v i Hi. unfold replaces, lookup_path. destruct (names fs !! p) as [u|]; simpl;
    [|exists i; by split; [|left]].
  destruct (inodes fs !! u) as [j|] eqn:Hj; simpl; [|exists i; by split; [|left]].
  pose proof (fresh_slot fs) as Hfresh. cbn zeta. set (w := fresh _) in *. cbn [inodes].
  assert (v ≠ w) as Hvw by congruence.
  rewrite lookup_insert_ne by done. destruct (decide (v = u)) as [->|Hne].
  - rewrite lookup_insert_eq. eexists. split; [done|]. assert (i = j) as -> by congruence.
    right. left. simpl. lia.
  - rewrite lookup_insert_ne by done. exists i. split; [done|by left].
Qed.

(** A busy host: one event, no faults. *)
Definition busy (k : nat) (f : FS → FS) : Kernel := scripted (at_call k f) (λ _, None).

Lemma busy_honest k f : honest_step f → Honest (H := busy k f).
Proof.
  intros Hf n fs v i Hi. simpl. unfold at_call. destruct (decide (n = k)); [by apply Hf|].
  exists i. split; [done|by left].
Qed.

(** .. or appends to a file, as a logger does. *)
Definition appends (p : Path) (text : string) (fs : FS) : FS :=
  match lookup_path fs p with
  | Some (v, i) => set_inode v (set_data ((i_ctime i).1 + 1, 0) (i_data i ++ ascii_bytes text) i) fs
  | None => fs
  end.
