(* ===== verification/RevisionTypes.v ===== *)
(** * [revisions/types.rs] and [revisions/mod.rs]: revisions, errors, checks

    The revision token with its JSON form, the error values with their wire
    form, and the two guarded ways of looking at a path ([checked_lstat],
    [open_checked]). *)
From S2P Require Import Prelude MachineInt Text Json Kernel Sha256 Reference.
Local Open Scope string_scope.
Local Open Scope Z_scope.

(** [revisions/mod.rs] *)
Definition MAX_READ_BYTES : Z := 16 * 1024 * 1024.
Definition READ_ATTEMPTS : nat := 3.

(** ** Data *)

Inductive RevisionState := Present.
Inductive RevisionKind := RFile.

Record Revision := mkRevision {
  schema : Z; state : RevisionState; rkind : RevisionKind;
  dev : Z; ino : Z; rsize : Z;
  mtime_sec : Z; mtime_nsec : Z; ctime_sec : Z; ctime_nsec : Z;
  rmode : Z; digest : string;
}.

#[export] Instance RevisionState_eq_dec : EqDecision RevisionState.
Proof. solve_decision. Defined.
#[export] Instance RevisionKind_eq_dec : EqDecision RevisionKind.
Proof. solve_decision. Defined.
#[export] Instance Revision_eq_dec : EqDecision Revision.
Proof. solve_decision. Defined.

Inductive ExpectedRevision :=
| ExpPresent (r : Revision)
| ExpMissing.

Record RevisionRead := mkRevisionRead { read_bytes : list byte; read_revision : Revision }.
Record ConditionalWrite := mkConditionalWrite { saved_revision : Revision }.

Inductive ConflictKind := Changed | Deleted | Appeared | TypeChanged.

Inductive RevisionError :=
| UnstableRead
| Conflict (kind : ConflictKind) (current_revision : option Revision)
| UnsupportedFinalType (kind : string)
| UnsupportedEncoding
| TooLarge
| Io (message : string).

#[export] Instance ConflictKind_eq_dec : EqDecision ConflictKind.
Proof. solve_decision. Defined.
#[export] Instance RevisionError_eq_dec : EqDecision RevisionError.
Proof. solve_decision. Defined.

(** What the Rust types of the fields guarantee ([u8], [u64], [i64], [u32]). *)
Definition typed (r : Revision) : Prop :=
  u8_range (schema r) ∧ u64_range (dev r) ∧ u64_range (ino r) ∧ u64_range (rsize r) ∧
  i64_range (mtime_sec r) ∧ i64_range (mtime_nsec r) ∧
  i64_range (ctime_sec r) ∧ i64_range (ctime_nsec r) ∧ u32_range (rmode r).

(** ** [impl Revision] *)

(** The permission and special bits: octal 7777. *)
Definition PERMISSIONS : Z := 0xFFF.

Definition from_metadata (md : Metadata) (hash : string) : Revision := {|
  schema := 1; state := Present; rkind := RFile;
  dev := md_dev md; ino := md_ino md; rsize := md_size md;
  mtime_sec := md_mtime md; mtime_nsec := md_mtime_nsec md;
  ctime_sec := md_ctime md; ctime_nsec := md_ctime_nsec md;
  rmode := Z.land (md_mode md) PERMISSIONS; digest := hash;
|}.

Definition is_valid_file_revision (r : Revision) : bool :=
  (schema r =? 1)
  && bool_decide (state r = Present) && bool_decide (rkind r = RFile)
  && (0 <=? mtime_nsec r) && (mtime_nsec r <? 1000000000)
  && (0 <=? ctime_nsec r) && (ctime_nsec r <? 1000000000)
  && (rmode r <=? PERMISSIONS)
  && (String.length (digest r) =? 64)%nat
  && string_all is_lower_hex (digest r).

Section wire.
Context `{Json}.

Definition to_value (r : Revision) : Value := obj [
  ("schema", of_u64 (schema r));
  ("state", of_str "present");
  ("kind", of_str match rkind r with RFile => "file" end);
  ("dev", of_u64 (dev r));
  ("ino", of_u64 (ino r));
  ("size", of_u64 (rsize r));
  ("mtime_sec", of_i64 (mtime_sec r));
  ("mtime_nsec", of_i64 (mtime_nsec r));
  ("ctime_sec", of_i64 (ctime_sec r));
  ("ctime_nsec", of_i64 (ctime_nsec r));
  ("mode", of_u64 (rmode r));
  ("sha256", of_str (digest r))].

(** The closures [unsigned], [signed] and [text] of [from_value]. *)
Definition missing (name : string) : string := "missing or invalid " +:+ name.
Definition unsigned (o : gmap string Value) (name : string) : result Z string :=
  ok_or (missing name) (o !! name ≫= as_u64).
Definition signed (o : gmap string Value) (name : string) : result Z string :=
  ok_or (missing name) (o !! name ≫= as_i64).
Definition text (o : gmap string Value) (name : string) : result string string :=
  ok_or (missing name) (o !! name ≫= as_str).

(** [u8::try_from(n).map_err(|_| e)] and the [u32] one. *)
Definition try_u8 (n : Z) (e : string) : result Z string :=
  if n <? 2 ^ 8 then Ok n else Err e.
Definition try_u32 (n : Z) (e : string) : result Z string :=
  if n <? 2 ^ 32 then Ok n else Err e.

Definition parse_state (s : string) : result RevisionState string :=
  if bool_decide (s = "present") then Ok Present
  else Err "invalid state (expected present)".
Definition parse_kind (s : string) : result RevisionKind string :=
  if bool_decide (s = "file") then Ok RFile else Err "invalid kind".

Definition from_value (value : Value) : result Revision string :=
  let? o := ok_or "expected an object" (as_object value) in
  let? state_text := text o "state" in
  let? st := parse_state state_text in
  let? kind_text := text o "kind" in
  let? k := parse_kind kind_text in
  let? schema_number := unsigned o "schema" in
  let? sch := try_u8 schema_number "invalid schema" in
  let? d := unsigned o "dev" in
  let? i := unsigned o "ino" in
  let? sz := unsigned o "size" in
  let? ms := signed o "mtime_sec" in
  let? mn := signed o "mtime_nsec" in
  let? cs := signed o "ctime_sec" in
  let? cn := signed o "ctime_nsec" in
  let? mode_number := unsigned o "mode" in
  let? m := try_u32 mode_number "invalid mode" in
  let? h := text o "sha256" in
  let revision := mkRevision sch st k d i sz ms mn cs cn m h in
  if is_valid_file_revision revision then Ok revision
  else Err "invalid revision schema, metadata, or sha256".
End wire.

(** ** [impl ConflictKind], [impl RevisionError], [wire_error] *)

Definition wire_name (k : ConflictKind) : string :=
  match k with
  | Changed => "changed" | Deleted => "deleted"
  | Appeared => "appeared" | TypeChanged => "type_changed"
  end.

Definition readable_name (k : ConflictKind) : string :=
  match k with
  | Changed => "remote file changed" | Deleted => "remote file was deleted"
  | Appeared => "remote file appeared" | TypeChanged => "remote file type changed"
  end.

Definition readable (e : RevisionError) : string :=
  match e with
  | Conflict kind _ => "write conflict: " +:+ readable_name kind
  | UnstableRead => "read: file changed while being read"
  | UnsupportedFinalType kind => "read: unsupported final file type: " +:+ kind
  | UnsupportedEncoding => "read/write: file is not valid UTF-8"
  | TooLarge => "read: file exceeds " +:+ pretty MAX_READ_BYTES +:+ "-byte limit"
  | Io message => message
  end.

Section wire_error.
Context `{Json}.

Definition plain_error (code : string) (e : RevisionError) : Value :=
  obj [("ok", of_bool false); ("error_code", of_str code); ("error", of_str (readable e))].

Definition wire_error (e : RevisionError) : Value :=
  match e with
  | Conflict kind current => obj [
      ("ok", of_bool false);
      ("error_code", of_str "conflict");
      ("error", of_str (readable e));
      ("conflict", obj [("kind", of_str (wire_name kind));
                        ("current_revision", of_option to_value current)])]
  | UnstableRead => plain_error "unstable_read" e
  | UnsupportedFinalType _ => plain_error "unsupported_file_type" e
  | UnsupportedEncoding => plain_error "unsupported_encoding" e
  | TooLarge => plain_error "file_too_large" e
  | Io _ => plain_error "io" e
  end.
End wire_error.

(** ** Checks on files *)

Definition io_error (context : string) (e : IoError) : RevisionError :=
  Io (context +:+ ": " +:+ display e).

Definition final_type (md : Metadata) : option string :=
  if is_symlink md then Some "symlink"
  else if is_dir md then Some "directory"
  else if is_fifo md then Some "fifo"
  else if negb (is_file md) then Some "nonregular"
  else if negb (md_nlink md =? 1) then Some "hardlink"
  else None.

Definition metadata_equal (before after : Metadata) : bool :=
  (md_dev before =? md_dev after)
  && (md_ino before =? md_ino after)
  && (md_size before =? md_size after)
  && (md_mtime before =? md_mtime after)
  && (md_mtime_nsec before =? md_mtime_nsec after)
  && (md_ctime before =? md_ctime after)
  && (md_ctime_nsec before =? md_ctime_nsec after)
  && (md_mode before =? md_mode after)
  && (md_uid before =? md_uid after)
  && (md_gid before =? md_gid after)
  && (md_nlink before =? md_nlink after).

Section checks.
Context `{Kernel}.

Definition checked_lstat (path : Path) : IO RevisionError (option Metadata) :=
  r ← attempt (symlink_metadata path);
  match r with
  | Ok md => mret (Some md)
  | Err e => if decide (error_kind e = NotFound) then mret None
             else throw (io_error "read" e)
  end.

Definition open_checked (path : Path) : IO RevisionError File :=
  found ← checked_lstat path;
  initial ← lift_result (ok_or (Io "read: file not found") found);
  match final_type initial with
  | Some kind => throw (UnsupportedFinalType kind)
  | None => map_err (io_error "read") (open_nofollow path)
  end.
End checks.

(** ** Lemmas on revisions *)

Lemma permissions_range m : 0 ≤ Z.land m PERMISSIONS ≤ PERMISSIONS.
Proof.
  unfold PERMISSIONS. change 0xFFF with (Z.ones 12). rewrite Z.land_ones by lia.
  pose proof (Z.mod_pos_bound m (2 ^ 12)). change (Z.ones 12) with 4095. lia.
Qed.

(** Times a kernel reports: the nanoseconds are below one second. *)
Definition nsec_ok (n : Z) : Prop := 0 ≤ n < 1000000000.

Lemma from_metadata_valid md bytes :
  nsec_ok (md_mtime_nsec md) → nsec_ok (md_ctime_nsec md) →
  is_valid_file_revision (from_metadata md (sha256 bytes)) = true.
Proof.
  intros [??] [??]. pose proof (permissions_range (md_mode md)) as [_ Hm].
  pose proof (sha256_hex bytes) as [Hlen Hhex].
  unfold is_valid_file_revision, from_metadata. cbn [schema state rkind mtime_nsec
    ctime_nsec rmode digest]. rewrite Hlen, Hhex.
  rewrite !(proj2 (Z.leb_le _ _)), !(proj2 (Z.ltb_lt _ _)) by done. done.
Qed.

Section wire_lemmas.
Context `{JsonLaws}.

Lemma to_value_fields r : as_object (to_value r) = Some (fields [
  ("schema", of_u64 (schema r)); ("state", of_str "present");
  ("kind", of_str "file"); ("dev", of_u64 (dev r)); ("ino", of_u64 (ino r));
  ("size", of_u64 (rsize r)); ("mtime_sec", of_i64 (mtime_sec r));
  ("mtime_nsec", of_i64 (mtime_nsec r)); ("ctime_sec", of_i64 (ctime_sec r));
  ("ctime_nsec", of_i64 (ctime_nsec r)); ("mode", of_u64 (rmode r));
  ("sha256", of_str (digest r))]).
Proof. unfold to_value, obj. rewrite as_object_of. by destruct (rkind r). Qed.

Lemma unsigned_field o name n :
  o !! name = Some (of_u64 n) → u64_range n → unsigned o name = Ok n.
Proof. intros Ho Hn. unfold unsigned. rewrite Ho. simpl. by rewrite as_u64_of. Qed.
Lemma signed_field o name n :
  o !! name = Some (of_i64 n) → i64_range n → signed o name = Ok n.
Proof. intros Ho Hn. unfold signed. rewrite Ho. simpl. by rewrite as_i64_of. Qed.
Lemma text_field o name s : o !! name = Some (of_str s) → text o name = Ok s.
Proof. intros Ho. unfold text. rewrite Ho. simpl. by rewrite as_str_of. Qed.

Lemma unsigned_range o name n : unsigned o name = Ok n → u64_range n.
Proof. unfold unsigned. intros. inv_ok. by eapply as_u64_range. Qed.
Lemma signed_range o name n : signed o name = Ok n → i64_range n.
Proof. unfold signed. intros. inv_ok. by eapply as_i64_range. Qed.

Lemma from_value_sound v r :
  from_value v = Ok r → typed r ∧ is_valid_file_revision r = true.
Proof.
  unfold from_value. intros Hv. inv_ok. case_match; [|done]. inv_ok. subst r.
  split; [|done].
  repeat match goal with
  | H : unsigned _ _ = Ok _ |- _ => apply unsigned_range in H
  | H : signed _ _ = Ok _ |- _ => apply signed_range in H
  | H : try_u8 ?n _ = Ok _ |- _ => unfold try_u8 in H
  | H : try_u32 ?n _ = Ok _ |- _ => unfold try_u32 in H
  | H : (if (?n <? ?b)%Z then _ else _) = Ok _ |- _ =>
      destruct (Z.ltb_spec n b); [|done]; inv_ok; subst
  end.
  unfold typed, u8_range, u32_range, u64_range, i64_range in *. simpl. lia.
Qed.

(** The field of [v] that each field of a revision is read from. *)
Definition describes (v : Value) (r : Revision) : Prop :=
  get_str v "state" = Some "present" ∧ get_str v "kind" = Some "file" ∧
  get_u64 v "schema" = Some (schema r) ∧ get_u64 v "dev" = Some (dev r) ∧
  get_u64 v "ino" = Some (ino r) ∧ get_u64 v "size" = Some (rsize r) ∧
  get_i64 v "mtime_sec" = Some (mtime_sec r) ∧ get_i64 v "mtime_nsec" = Some (mtime_nsec r) ∧
  get_i64 v "ctime_sec" = Some (ctime_sec r) ∧ get_i64 v "ctime_nsec" = Some (ctime_nsec r) ∧
  get_u64 v "mode" = Some (rmode r) ∧ get_str v "sha256" = Some (digest r).

(** The digits [0] to [9] and [a] to [f], by their codes. *)
Definition hex_code (n : nat) : Prop := (48 ≤ n ≤ 57 ∨ 97 ≤ n ≤ 102)%nat.
Record well_formed (r : Revision) : Prop := {
  wf_schema : schema r = 1;
  wf_mtime : 0 ≤ mtime_nsec r < 10 ^ 9;
  wf_ctime : 0 ≤ ctime_nsec r < 10 ^ 9;
  wf_mode : 0 ≤ rmode r < 8 ^ 4;
  wf_length : length (String.list_ascii_of_string (digest r)) = 64%nat;
  wf_digits : Forall (hex_code ∘ Ascii.nat_of_ascii) (String.list_ascii_of_string (digest r));
}.

Lemma hex_code_spec c : is_lower_hex c = true ↔ hex_code (Ascii.nat_of_ascii c).
Proof.
  unfold is_lower_hex, is_ascii_digit, is_a_to_f, hex_code, ascii_code, Ascii.nat_of_ascii.
  rewrite orb_true_iff, !andb_true_iff, !Z.leb_le. lia.
Qed.
Lemma hex_digits_spec s :
  string_all is_lower_hex s = true ↔ Forall (hex_code ∘ Ascii.nat_of_ascii) (String.list_ascii_of_string s).
Proof.
  induction s as [|c s IH]; simpl; [done|]. by rewrite andb_true_iff, Forall_cons, IH, hex_code_spec.
Qed.
Lemma list_ascii_length s : length (String.list_ascii_of_string s) = String.length s.
Proof. induction s as [|c s IH]; simpl; [done|]. by rewrite IH. Qed.

Lemma valid_well_formed r : 0 ≤ rmode r → is_valid_file_revision r = true ↔ well_formed r.
Proof.
  intros Hmode. unfold is_valid_file_revision. split.
  - intros Hv. split_bools. split; rewrite ?list_ascii_length, <-?hex_digits_spec; unfold PERMISSIONS in *;
      repeat match goal with H : (_ =? _)%nat = true |- _ => apply Nat.eqb_eq in H end; done || lia.
  - intros [Hs Hm Hc Hp Hl Hd]. rewrite list_ascii_length in Hl. rewrite <-hex_digits_spec in Hd.
    rewrite Hs, Hl, Hd. destruct (state r), (rkind r).
    rewrite !(proj2 (Z.leb_le _ _)), !(proj2 (Z.ltb_lt _ _)) by (unfold PERMISSIONS; lia). done.
Qed.

Lemma try_u8_ok n e m : try_u8 n e = Ok m → n = m.
Proof. unfold try_u8. destruct (n <? _); congruence. Qed.
Lemma try_u32_ok n e m : try_u32 n e = Ok m → n = m.
Proof. unfold try_u32. destruct (n <? _); congruence. Qed.

Lemma from_value_iff v r : from_value v = Ok r ↔ describes v r ∧ well_formed r.
Proof.
  split.
  - intros Hv. assert (typed r ∧ is_valid_file_revision r = true) as [Ht Hvalid] by (by eapply from_value_sound).
    split; [|by apply valid_well_formed; [apply Ht|]].
    unfold from_value, unsigned, signed, text, parse_state, parse_kind in Hv. inv_ok. case_match; [|done]. inv_ok. subst r.
    repeat case_bool_decide; inv_ok; subst.
    repeat match goal with
    | H : try_u8 _ _ = Ok _ |- _ => apply try_u8_ok in H; subst
    | H : try_u32 _ _ = Ok _ |- _ => apply try_u32_ok in H; subst
    end.
    unfold describes, get_str, get_u64, get_i64, get. split_and!; simplify_option_eq; done.
  - intros [(H1 & H2 & H3 & H4 & H5 & H6 & H7 & H8 & H9 & H10 & H11 & H12) Hwf].
    assert (∃ o, as_object v = Some o) as [o Ho].
    { unfold get_str, get in H1. destruct (as_object v); [eauto|done]. }
    unfold get_str, get_u64, get_i64, get in *. rewrite Ho in *. cbn [mbind option_bind] in *.
    pose proof Hwf as [Hs _ _ Hm _ _].
    unfold from_value, unsigned, signed, text. rewrite Ho. cbn [ok_or result_bind].
    rewrite H1, H2, H3, H4, H5, H6, H7, H8, H9, H10, H11, H12. cbn [ok_or result_bind parse_state parse_kind].
    unfold try_u8, try_u32. rewrite !(proj2 (Z.ltb_lt _ _)) by lia. cbn [result_bind].
    destruct r as [? [] [] ? ? ? ? ? ? ? ? ?]. cbn [schema dev ino rsize mtime_sec mtime_nsec ctime_sec ctime_nsec rmode digest] in *.
    apply valid_well_formed in Hwf; [|apply Hm]. simpl. by rewrite Hwf.
Qed.

Lemma from_to_value r :
  typed r → is_valid_file_revision r = true → from_value (to_value r) = Ok r.
Proof.
  intros (Hs & Hd & Hi & Hz & Hms & Hmn & Hcs & Hcn & Hm) Hvalid.
  unfold from_value. rewrite to_value_fields. cbn [ok_or result_bind].
  set (o := fields _).
  rewrite (text_field o "state" "present"), (text_field o "kind" "file"),
    (text_field o "sha256" (digest r)) by reflexivity.
  rewrite (unsigned_field o "schema" (schema r)), (unsigned_field o "mode" (rmode r)),
    (unsigned_field o "dev" (dev r)), (unsigned_field o "ino" (ino r)),
    (unsigned_field o "size" (rsize r)), (signed_field o "mtime_sec" (mtime_sec r)),
    (signed_field o "mtime_nsec" (mtime_nsec r)), (signed_field o "ctime_sec" (ctime_sec r)),
    (signed_field o "ctime_nsec" (ctime_nsec r))
    by (reflexivity || done || (unfold u8_range, u32_range, u64_range in *; lia)).
  unfold try_u8, try_u32. cbn [result_bind parse_state parse_kind].
  rewrite !(proj2 (Z.ltb_lt _ _)) by (apply Hs || apply Hm). simpl.
  destruct r as [? [] [] ? ? ? ? ? ? ? ? ?]; simpl in *. by rewrite Hvalid.
Qed.
End wire_lemmas.

(** ** Properties *)

(** C35: a revision survives the wire. What the server sends for the revision of any
    file it has read parses back to the same revision, for every file state that a
    kernel can report. *)
Theorem revision_round_trip `{JsonLaws} md bytes :
  let r := from_metadata md (sha256 bytes) in
  typed r → nsec_ok (md_mtime_nsec md) → nsec_ok (md_ctime_nsec md) →
  from_value (to_value r) = Ok r.
Proof. intros r Hr Hm Hc. apply from_to_value; [done|]. by apply from_metadata_valid. Qed.

Lemma revision_round_trip_witness :
  let r := from_metadata (metadata_of (note_inode "base")) (sha256 (ascii_bytes "base")) in
  from_value (to_value r) = Ok r ∧ rsize r = 4 ∧ String.length (digest r) = 64%nat.
Proof.
  split; [|split; vm_compute; reflexivity].
  apply revision_round_trip; [|unfold nsec_ok; simpl; lia..].
  repeat split; vm_compute; congruence.
Defined.

(** C36: exactly the well-formed revisions get in. Whatever a client sends, it is accepted
    as the revision [r] if and only if each of its twelve fields is there, is of its type
    and is what [r] says, without being cut down to a smaller integer, and [r] is of schema
    1, its nanoseconds are below one second, its mode has permission bits only and its
    digest is 64 lower-case hexadecimal digits. All else is refused with an error. *)
Theorem accepted_revision_is_valid `{JsonLaws} v r :
  from_value v = Ok r ↔ describes v r ∧ well_formed r.
Proof. apply from_value_iff. Qed.

Lemma accepted_revision_is_valid_witness :
  let r := from_metadata (metadata_of (note_inode "base")) (sha256 (ascii_bytes "base")) in
  (describes (to_value r) r ∧ well_formed r) ∧
  ∀ r', from_value (insert_field "mode" (of_u64 (2 ^ 32 + 0x1A4)) (to_value r)) ≠ Ok r'.
Proof.
  cbn zeta. set (r := from_metadata _ _). split.
  - apply accepted_revision_is_valid. vm_compute. reflexivity.
  - intros r' Hr'. apply accepted_revision_is_valid in Hr' as [(_ & _ & _ & _ & _ & _ & _ & _ & _ & _ & Hm & _) [_ _ _ Hmode _ _]].
    assert (get_u64 (insert_field "mode" (of_u64 (2 ^ 32 + 0x1A4)) (to_value r)) "mode" = Some (2 ^ 32 + 0x1A4))
      as Hwide by (vm_compute; reflexivity).
    rewrite Hwide in Hm. injection Hm as Hm. lia.
Defined.

(** A conflict tells the client what is there now. The error reply of a conflict
    names its kind, and its current revision parses back to the server's, so that the
    client can resolve the conflict and save again. *)
Lemma conflict_reply_carries_revision `{JsonLaws} kind r :
  typed r → is_valid_file_revision r = true →
  let v := wire_error (Conflict kind (Some r)) in
  get_bool v "ok" = Some false ∧ get_str v "error_code" = Some "conflict" ∧
  ∃ c, get v "conflict" = Some c ∧ get_str c "kind" = Some (wire_name kind) ∧
    from_value <$> get c "current_revision" = Some (Ok r).
Proof.
  intros Ht Hv v. unfold v, wire_error, get_bool, get_str.
  rewrite !get_obj. unfold fields. cbn [foldl fst snd].
  split; [simplify_map_eq; apply as_bool_of|].
  split; [simplify_map_eq; apply as_str_of|]. eexists. split; [by simplify_map_eq|].
  rewrite !get_obj. unfold fields. cbn [foldl fst snd].
  split; simplify_map_eq; [apply as_str_of|]. by rewrite from_to_value.
Qed.

Lemma conflict_reply_carries_revision_witness :
  let r := from_metadata (metadata_of (note_inode "base")) (sha256 (ascii_bytes "base")) in
  let v := wire_error (Conflict Changed (Some r)) in
  get_bool v "ok" = Some false ∧ get_str v "error_code" = Some "conflict" ∧
  ∃ c, get v "conflict" = Some c ∧ get_str c "kind" = Some "changed" ∧
    from_value <$> get c "current_revision" = Some (Ok r).
Proof.
  apply (conflict_reply_carries_revision Changed).
  - repeat split; vm_compute; congruence.
  - vm_compute. reflexivity.
Defined.
