(* ===== verification/ReadPath.v ===== *)
(** * [revisions/read.rs]: reading a file with its revision

    [read_with_revision] (retry until two metadata samples of one descriptor
    agree), [read_range] and [tail_read]. *)
From S2P Require Import Prelude MachineInt Text Json Kernel Sha256 RevisionTypes.
Local Open Scope string_scope.
Local Open Scope Z_scope.

Section read.
Context `{Kernel}.

Definition io {A} (context : string) (m : IO IoError A) : IO RevisionError A :=
  map_err (io_error context) m.

(** [if let Some(kind) = final_type(..) { return Err(..) }] *)
Definition reject_type (md : Metadata) : IO RevisionError unit :=
  match final_type md with
  | Some kind => throw (UnsupportedFinalType kind)
  | None => mret tt
  end.

Definition guard_err (b : bool) (e : RevisionError) : IO RevisionError unit :=
  if b then throw e else mret tt.

(** A test hook: arbitrary work on the state, no result. *)
Definition run_hook (hook : World → World) : IO RevisionError unit :=
  λ w, (Ok tt, hook w).

(** The body of the [for] loop: [None] when the two samples differ. *)
Definition read_attempt (path : Path) (between_samples : World → World) :
    IO RevisionError (option RevisionRead) :=
  file ← open_checked path;
  before ← io "read" (file_metadata file);
  reject_type before;;
  guard_err (MAX_READ_BYTES <? md_size before) TooLarge;;
  bytes ← io "read" (read_to_end file (MAX_READ_BYTES + 1));
  guard_err (MAX_READ_BYTES <? Z.of_nat (length bytes)) TooLarge;;
  let hash := sha256 bytes in
  run_hook between_samples;;
  after ← io "read" (file_metadata file);
  reject_type after;;
  if metadata_equal before after then
    guard_err (negb (valid_utf8 bytes)) UnsupportedEncoding;;
    mret (Some (mkRevisionRead bytes (from_metadata after hash)))
  else mret None.

Fixpoint read_attempts (n : nat) (path : Path) (between_samples : World → World) :
    IO RevisionError RevisionRead :=
  match n with
  | O => throw UnstableRead
  | S n =>
      r ← read_attempt path between_samples;
      match r with
      | Some read => mret read
      | None => read_attempts n path between_samples
      end
  end.

Definition read_with_revision_hook (path : Path) (between_samples : World → World) :
    IO RevisionError RevisionRead :=
  read_attempts READ_ATTEMPTS path between_samples.

Definition read_with_revision (path : Path) : IO RevisionError RevisionRead :=
  read_with_revision_hook path id.

(** ** [read_range] *)

Definition MAX_RANGE_BYTES : Z := 1024 * 1024.

Definition range_attempt (path : Path) (start end_ : Z) :
    IO RevisionError (option (list byte)) :=
  file ← open_checked path;
  before ← io "read_range" (file_metadata file);
  reject_type before;;
  let file_size := md_size before in
  let actual_end := Z.min end_ file_size in
  if actual_end <? start then mret (Some [])
  else
    file ← io "read_range" (seek_start file start);
    bytes ← io "read_range" (read_to_end file (actual_end - start));
    after ← io "read_range" (file_metadata file);
    mret (if metadata_equal before after then Some bytes else None).

Fixpoint range_attempts (n : nat) (path : Path) (start end_ : Z) :
    IO RevisionError (list byte) :=
  match n with
  | O => throw UnstableRead
  | S n =>
      r ← range_attempt path start end_;
      match r with
      | Some bytes => mret bytes
      | None => range_attempts n path start end_
      end
  end.

Definition read_range (path : Path) (start end_ : Z) : IO RevisionError (list byte) :=
  if (end_ <? start) || (MAX_RANGE_BYTES <? end_ - start) then throw TooLarge
  else range_attempts READ_ATTEMPTS path start end_.

(** ** [tail_read] *)

Record TailRead := mkTailRead {
  tail_bytes : list byte; tail_start : Z; actual_end : Z; file_size : Z;
  tail_dev : Z; tail_ino : Z; truncated_or_rotated : bool; more_available : bool;
}.

Definition MAX_TAIL_BYTES : Z := 1024 * 1024.

(** [known.is_some_and(|k| k != actual)] *)
Definition differs (known : option Z) (actual : Z) : bool :=
  match known with Some k => negb (k =? actual) | None => false end.

Definition tail_read (path : Path) (known_offset : Z) (known_dev known_ino : option Z)
    (max_bytes : Z) : IO RevisionError TailRead :=
  let max_bytes := Z.min max_bytes MAX_TAIL_BYTES in
  file ← open_checked path;
  metadata ← io "tail_read" (file_metadata file);
  reject_type metadata;;
  let size := md_size metadata in
  let identity_changed :=
    differs known_dev (md_dev metadata) || differs known_ino (md_ino metadata) in
  let shrunk := size <? known_offset in
  let truncated := identity_changed || shrunk in
  let start := if truncated then 0 else known_offset in
  let want_end := Z.min (saturating_add64 start max_bytes) size in
  bytes ← (if start <? want_end then
             file ← io "tail_read" (seek_start file start);
             io "tail_read" (read_to_end file (want_end - start))
           else mret []);
  let stop := start + Z.of_nat (length bytes) in
  mret (mkTailRead bytes start stop size (md_dev metadata) (md_ino metadata)
          truncated (stop <? size)).
End read.

(** ** Reading only looks

    A relation on worlds that every look at the file system respects is one that
    all of this file's operations respect. *)
Class LookKeeps `{Kernel} (R : World → World → Prop) : Prop :=
  look_keeps A (look : nat → FS → result A IoError) : preserves R (query look).

#[export] Hint Extern 1 (preserves _ (query _)) => apply look_keeps : preserves.

Section looking.
Context `{Kernel} (R : World → World → Prop) `{!PreOrder R, !LookKeeps R}.

Lemma look_read_to_end f limit : preserves R (read_to_end f limit).
Proof.
  apply preserves_bind; [exact _| |intros; apply preserves_ret, _].
  apply preserves_mloop; [exact _|]. intros [[pos room] acc]. unfold read_round.
  preserves_tac.
Qed.
Hint Resolve look_read_to_end : preserves.

Lemma look_checked_lstat path : preserves R (checked_lstat path).
Proof. unfold checked_lstat, symlink_metadata. preserves_tac. Qed.
Hint Resolve look_checked_lstat : preserves.

Lemma look_open_checked path : preserves R (open_checked path).
Proof. unfold open_checked, open_nofollow. preserves_tac. Qed.
Hint Resolve look_open_checked : preserves.

Lemma look_no_hook : preserves R (run_hook id).
Proof. by intros w. Qed.

Lemma look_file_metadata context f : preserves R (io context (file_metadata f)).
Proof. unfold io, file_metadata. preserves_tac. Qed.

Lemma look_read_attempt path : preserves R (read_attempt path id).
Proof.
  unfold read_attempt, io, reject_type, guard_err, file_metadata, run_hook.
  preserves_tac. by intros w.
Qed.

Lemma look_read_with_revision path : preserves R (read_with_revision path).
Proof.
  unfold read_with_revision, read_with_revision_hook. generalize READ_ATTEMPTS.
  intros n. induction n as [|n IH]; simpl; [apply preserves_throw, _|].
  apply preserves_bind; [exact _|apply look_read_attempt|].
  by intros [r|]; [apply preserves_ret, _|].
Qed.

(** A read never reports a conflict. *)
Lemma read_raises path : raises (λ e, ∀ kind current, e ≠ Conflict kind current) (read_with_revision path).
Proof.
  unfold read_with_revision, read_with_revision_hook. generalize READ_ATTEMPTS.
  induction n as [|n IH]; simpl; [by apply raises_pure; intros e [= <-]|].
  apply raises_bind; [|by intros [r|]; [apply raises_pure|]].
  unfold read_attempt, open_checked, checked_lstat, io, reject_type, guard_err.
  repeat lazymatch goal with
  | |- forall _, _ => intro
  | |- raises _ (mbind _ _) => apply raises_bind
  | |- raises _ (attempt _) => apply raises_attempt
  | |- raises _ (map_err _ _) => apply raises_map_err; done
  | |- raises _ (match ?x with _ => _ end) => destruct x
  | |- raises _ (lift_result (ok_or _ ?x)) => destruct x; cbn [ok_or]
  | |- _ => by apply raises_pure; intros ? [= <-]
  end.
Qed.

Lemma look_range_attempt path s e : preserves R (range_attempt path s e).
Proof.
  unfold range_attempt, io, reject_type, file_metadata, seek_start. preserves_tac.
Qed.

Lemma look_read_range path s e : preserves R (read_range path s e).
Proof.
  unfold read_range. destruct (_ || _); [apply preserves_throw, _|].
  generalize READ_ATTEMPTS. intros n.
  induction n as [|n IH]; simpl; [apply preserves_throw, _|].
  apply preserves_bind; [exact _|apply look_range_attempt|].
  by intros [r|]; [apply preserves_ret, _|].
Qed.

Lemma look_tail_read path off kd ki m : preserves R (tail_read path off kd ki m).
Proof. unfold tail_read, io, reject_type, file_metadata, seek_start. preserves_tac. Qed.
End looking.

#[export] Hint Extern 1 (preserves _ (read_to_end _ _)) =>
  apply look_read_to_end; exact _ : preserves.
#[export] Hint Extern 1 (preserves _ (checked_lstat _)) =>
  apply look_checked_lstat; exact _ : preserves.
#[export] Hint Extern 1 (preserves _ (open_checked _)) =>
  apply look_open_checked; exact _ : preserves.
#[export] Hint Extern 1 (preserves _ (run_hook id)) => apply look_no_hook; exact _ : preserves.
#[export] Hint Extern 1 (preserves _ (read_attempt _ id)) =>
  apply look_read_attempt; exact _ : preserves.
#[export] Hint Extern 1 (preserves _ (read_with_revision _)) =>
  apply look_read_with_revision; exact _ : preserves.

(** A look leaves the file system as it met it. *)
#[export] Instance anything_reflexive : Reflexive (λ _ _ : FS, True).
Proof. done. Qed.
#[export] Instance look_logs `{Kernel} I : Reflexive I → LookKeeps (log_extends I).
Proof. intros HI A look. by apply logs_query. Qed.

(** ** One attempt under arbitrary interference *)

Section snapshot.
Context `{Kernel}.

Lemma lookup_path_inode fs p v i :
  lookup_path fs p = Some (v, i) → names fs !! p = Some v ∧ inodes fs !! v = Some i.
Proof.
  unfold lookup_path. intros Hl. apply bind_Some in Hl as (v' & Hn & Hl).
  apply bind_Some in Hl as (i' & Hi & [= -> ->]). done.
Qed.

Lemma wp_open_checked path w :
  wp (open_checked path) (λ r w', ∀ f, r = Ok f →
    f_pos f = 0 ∧ passed w w' (λ fs, names fs !! path = Some (f_inode f)) ∧
    is_Some (inodes (w_fs w') !! f_inode f)) w.
Proof.
  unfold open_checked, open_nofollow. wp_step. eapply wp_mono.
  { apply (wp_preserves grows), look_checked_lstat; exact _. }
  intros [found|e] w1 Hg; cbn [bind_post]; [|done].
  wp_step. wp_step. destruct found as [md|]; cbn [ok_or bind_post]; [|done].
  destruct (final_type md); [by wp_step|].
  do 2 wp_step. apply wp_query; [done|]. unfold k_open_nofollow.
  destruct (lookup_path (met w1) path) as [[v i]|] eqn:Hl; cbn [bind_post]; [|done].
  destruct (inode_is_symlink i); cbn [bind_post]; [done|].
  wp_step. intros f [= <-]. apply lookup_path_inode in Hl as [Hn Hi]. simpl.
  split_and!; [done| |by rewrite Hi].
  eapply passed_earlier; [exact Hg|]. by apply passed_call.
Qed.

Context `{!Honest}.

(** A metadata sample of an open file. *)
Lemma wp_file_metadata context f P w :
  holds (f_inode f) P w →
  wp (io context (file_metadata f)) (λ r w',
    ∀ md, r = Ok md → ∃ i i', P i ∧ later i i' ∧ md = metadata_of i' ∧
      inodes (w_fs w') !! f_inode f = Some i' ∧
      passed w w' (λ fs, inodes fs !! f_inode f = Some i')) w.
Proof.
  intros HP. destruct (holds_met _ honest _ _ _ HP) as (i & i' & ? & ? & Hi').
  unfold io, file_metadata. wp_step. apply wp_query; [done|].
  unfold k_fstat. rewrite Hi'. intros md [= <-]. exists i, i'. split_and!; try done.
  by apply passed_call.
Qed.

(** The bytes read so far are a piece of what [b] held, unless the inode is no
    longer [b]. *)
Definition stable (b : Inode) (off : nat) (acc : list byte) (i : Inode) : Prop :=
  later b i ∧ (i = b → acc `prefix_of` drop off (i_data b)).

Lemma wp_read_stable b f limit w :
  0 ≤ f_pos f → 0 ≤ limit → holds (f_inode f) (eq b) w →
  wp (read_to_end f limit) (read_stops (stable b (Z.to_nat (f_pos f))) f limit) w.
Proof.
  intros Hpos Hlimit Hb. apply (wp_read_to_end _ honest); try done.
  - intros acc i i' [Hbi Hacc] Hii. split; [by etrans|].
    intros ->. apply Hacc. by destruct (later_between b i b).
  - intros acc i n [Hbi Hacc] Hn. split; [done|].
    intros ->. destruct (Hacc eq_refl) as [rest Hrest].
    rewrite Z2Nat.inj_add, Nat2Z.id, <-drop_drop, Hrest, drop_app_length by lia.
    apply prefix_app, prefix_take.
  - eapply holds_mono; [|exact Hb]. intros i <-. split; [done|]. intros _.
    apply prefix_nil.
Qed.

(** Reading stopped, and the inode is still [b]: the bytes are the piece of
    [b] between the position and the limit. *)
Lemma stable_result b f limit acc :
  stable b (Z.to_nat (f_pos f)) acc b → 0 ≤ f_pos f →
  Z.of_nat (length acc) ≤ limit →
  Z.of_nat (length acc) = limit ∨ size_of b ≤ f_pos f + Z.of_nat (length acc) →
  acc = take (Z.to_nat limit) (drop (Z.to_nat (f_pos f)) (i_data b)).
Proof.
  intros [_ Hacc] Hpos Hle Hend. destruct (Hacc eq_refl) as [rest Hrest].
  rewrite Hrest. unfold size_of in Hend.
  assert (length (drop (Z.to_nat (f_pos f)) (i_data b)) = length acc + length rest)%nat
    as Hlen by (rewrite Hrest; apply length_app).
  rewrite length_drop in Hlen. destruct Hend as [Heq|Hend].
  - by rewrite <-Heq, Nat2Z.id, take_app_length.
  - assert (rest = []) as -> by (apply length_zero_iff_nil; lia).
    rewrite app_nil_r. by rewrite take_ge by lia.
Qed.

Lemma metadata_equal_time i j :
  metadata_equal (metadata_of i) (metadata_of j) = true → i_ctime i = i_ctime j.
Proof.
  unfold metadata_equal. intros Heq. split_bools. simpl in *.
  destruct (i_ctime i), (i_ctime j). simpl in *. congruence.
Qed.

(** [rd] is a picture of one inode, to which [path] led when it was opened and
    which still is exactly that in [w']. *)
Definition picture (path : Path) (w : World) (rd : RevisionRead) (w' : World) : Prop :=
  ∃ v i, passed w w' (λ fs, names fs !! path = Some v) ∧
    passed w w' (λ fs, inodes fs !! v = Some i) ∧ inodes (w_fs w') !! v = Some i ∧
    rd = mkRevisionRead (i_data i) (from_metadata (metadata_of i) (sha256 (i_data i))) ∧
    final_type (metadata_of i) = None ∧ size_of i ≤ MAX_READ_BYTES ∧
    valid_utf8 (i_data i) = true.

Lemma picture_earlier path w w1 rd w' :
  grows w w1 → picture path w1 rd w' → picture path w rd w'.
Proof.
  intros Hg (v & i & Hn & Hi & Hrest). exists v, i.
  split; [|split]; [by eapply passed_earlier..|exact Hrest].
Qed.

Lemma wp_reject_type md Q w :
  (final_type md = None → Q (Ok tt) w) →
  (∀ e, Q (Err e) w) → wp (reject_type md) Q w.
Proof. intros Hok He. unfold reject_type. destruct (final_type md); wp_step; auto. Qed.

Lemma wp_guard_err b e Q w :
  (b = false → Q (Ok tt) w) → Q (Err e) w → wp (guard_err b e) Q w.
Proof. intros Hok He. unfold guard_err. destruct b; wp_step; auto. Qed.

(** One attempt ends with an error, with [None], or with a picture. *)
Lemma wp_read_attempt path w :
  wp (read_attempt path id) (λ r w', ∀ rd, r = Ok (Some rd) → picture path w rd w') w.
Proof.
  unfold read_attempt. wp_step. eapply wp_mono.
  { apply wp_and; [apply wp_open_checked|].
    apply (wp_preserves grows), look_open_checked; exact _. }
  intros [f|e] w1 [Hopen Hg1]; cbn [bind_post]; [|done].
  destruct (Hopen f eq_refl) as (Hpos & Hpass & i0 & Hi0). clear Hopen.
  wp_step. eapply wp_mono.
  { apply wp_and; [apply (wp_file_metadata "read" f (eq i0)); by exists i0|].
    apply (wp_preserves grows), look_file_metadata; exact _. }
  intros [md|e] w2 [Hmd Hg2]; cbn [bind_post]; [|done].
  destruct (Hmd md eq_refl) as (? & b & <- & _ & -> & Hb & _). clear Hmd.
  wp_step. apply wp_reject_type; cbn [bind_post]; [|done]. intros Htype.
  wp_step. apply wp_guard_err; cbn [bind_post]; [|done]. intros _.
  wp_step. unfold io at 1. wp_step. eapply wp_mono.
  { apply wp_and.
    - apply (wp_read_stable b f (MAX_READ_BYTES + 1)); [lia|unfold MAX_READ_BYTES; lia|by exists b].
    - apply (wp_preserves grows), look_read_to_end; exact _. }
  intros [acc|e] w3 [Hacc Hg3]; cbn [bind_post result_map_err]; [|done].
  wp_step. apply wp_guard_err; cbn [bind_post]; [|done]. intros Hsize. split_bools.
  cbn zeta. wp_step. unfold run_hook, wp at 1, id. cbn [fst snd bind_post].
  wp_step. eapply wp_mono.
  { apply wp_and; [by apply (wp_file_metadata "read" f)|].
    apply (wp_preserves grows), look_file_metadata; exact _. }
  intros [md|e] w4 [Hmd Hg4]; cbn [bind_post]; [|done].
  destruct (Hmd md eq_refl) as (i & a & (Hst & Hle & Hend) & Hia & -> & Ha & Hpa). clear Hmd.
  wp_step. apply wp_reject_type; cbn [bind_post]; [|done]. intros Htype'.
  destruct (metadata_equal _ _) eqn:Heq; [|by wp_step].
  apply metadata_equal_time in Heq.
  destruct (later_between b i a (proj1 Hst) Hia Heq) as [-> ->].
  apply stable_result in Hend; try done; [|by rewrite Hpos].
  rewrite Hpos, Z2Nat.inj_0, drop_0 in Hend.
  assert (size_of b ≤ MAX_READ_BYTES) as Hsz.
  { rewrite Hend, length_take in Hsize. unfold size_of. lia. }
  rewrite take_ge in Hend by (unfold size_of in Hsz; lia). subst acc.
  wp_step. apply wp_guard_err; cbn [bind_post]; [|done]. intros Hutf. split_bools.
  wp_step. intros rd [= <-]. exists (f_inode f), b. split_and!; try done.
  - do 3 (eapply passed_later; [|eassumption]). exact Hpass.
  - eapply passed_earlier; [|exact Hpa]. etrans; [exact Hg1|]; etrans; [exact Hg2|exact Hg3].
Qed.

Lemma wp_read_with_revision path w :
  wp (read_with_revision path) (λ r w', ∀ rd, r = Ok rd → picture path w rd w') w.
Proof.
  unfold read_with_revision, read_with_revision_hook. generalize READ_ATTEMPTS as n.
  intros n. revert w. induction n as [|n IH]; intros w; simpl; [by wp_step|].
  wp_step. eapply wp_mono.
  { apply wp_and; [apply wp_read_attempt|apply (wp_preserves grows), look_read_attempt; exact _]. }
  intros [[rd|]|e] w1 [Hr Hg]; cbn [bind_post]; [|clear Hr|done].
  - wp_step. intros ? [= <-]. by apply Hr.
  - eapply wp_mono; [apply IH|]. intros r w2 Hr rd Hrd.
    eapply picture_earlier; [exact Hg|by apply Hr].
Qed.
End snapshot.

(** ** The specification *)

(** What [checked_lstat] sees. *)
Definition lstat_of (fs : FS) (p : Path) : option Metadata :=
  (λ vi : nat * Inode, metadata_of vi.2) <$> lookup_path fs p.

Lemma lstat_equiv f g p : f ≡ g → lstat_of f p = lstat_of g p.
Proof. intros Hfg. unfold lstat_of. by rewrite (lookup_equiv _ _ _ Hfg). Qed.

(** The file behind [path] and its suitability, as [open_checked] finds it. *)
Definition regular_at (fs : FS) (p : Path) : result (nat * Inode) RevisionError :=
  match lookup_path fs p with
  | None => Err (Io "read: file not found")
  | Some (v, i) =>
      match final_type (metadata_of i) with
      | Some kind => Err (UnsupportedFinalType kind)
      | None => Ok (v, i)
      end
  end.

Lemma final_type_file i :
  final_type (metadata_of i) = None → inode_is_symlink i = false ∧ inode_is_dir i = false.
Proof.
  unfold final_type, is_symlink, is_dir, inode_is_symlink, inode_is_dir. simpl.
  by destruct (has_type S_IFLNK _), (has_type S_IFDIR _).
Qed.

Lemma final_type_single i : final_type (metadata_of i) = None → i_nlink i = 1.
Proof. unfold final_type. intros Ht. repeat case_match; try done. split_bools. simpl in *. lia. Qed.

Lemma regular_at_ok fs p v i :
  regular_at fs p = Ok (v, i) →
  lookup_path fs p = Some (v, i) ∧ inodes fs !! v = Some i ∧
  final_type (metadata_of i) = None ∧ inode_is_dir i = false.
Proof.
  unfold regular_at. destruct (lookup_path fs p) as [[v' i']|] eqn:Hl; [|done].
  destruct (final_type _) eqn:Ht; [done|]. intros [= -> ->].
  apply lookup_path_inode in Hl as [_ Hi]. apply final_type_file in Ht as Ht'.
  by destruct Ht'.
Qed.

(** The whole of [read_with_revision] as a function of the file system. *)
Definition read_spec (fs : FS) (p : Path) : result RevisionRead RevisionError :=
  let? vi := regular_at fs p in
  let i := vi.2 in
  if MAX_READ_BYTES <? size_of i then Err TooLarge
  else if valid_utf8 (i_data i) then
    Ok (mkRevisionRead (i_data i) (from_metadata (metadata_of i) (sha256 (i_data i))))
  else Err UnsupportedEncoding.

Lemma read_spec_lookup f g p : lookup_path f p = lookup_path g p → read_spec f p = read_spec g p.
Proof. intros Hfg. unfold read_spec, regular_at. by rewrite Hfg. Qed.
Lemma read_spec_equiv f g p : f ≡ g → read_spec f p = read_spec g p.
Proof. intros Hfg. by apply read_spec_lookup, lookup_equiv. Qed.

Lemma metadata_equal_refl md : metadata_equal md md = true.
Proof. unfold metadata_equal. by rewrite !Z.eqb_refl. Qed.

(** ** A path that no one touches

    The others may do what they like elsewhere: once there is something at [path], it
    stays as it is. Then reading computes the specification. *)
Class Still `{Kernel} (path : Path) : Prop := still n fs v i :
  lookup_path fs path = Some (v, i) → lookup_path (env n fs) path = Some (v, i).

Section still.
Context `{Kernel} (path : Path) `{!Still path}.

Abbreviation stands v i := (λ fs, lookup_path fs path = Some (v, i)).

Lemma wp_query_still {A} (look : nat → FS → result A IoError) v i Q w :
  stands v i (w_fs w) →
  (∀ text fs, faulty → stands v i fs → Q (Err (injected text)) (after_call w fs fs)) →
  (∀ fs, stands v i fs → Q (look (w_step w) fs) (after_call w fs fs)) → wp (query look) Q w.
Proof.
  intros Hw He HQ. assert (stands v i (met w)) as Hmet by apply still, Hw. apply wp_syscall.
  - intros text Hf. apply He; [by do 2 eexists|done].
  - intros _. by apply HQ.
Qed.

Lemma wp_checked_lstat_met w : wp (checked_lstat path) (λ r w', or_fault r (Ok (lstat_of (w_fs w') path))) w.
Proof.
  unfold checked_lstat, symlink_metadata, lstat_of, k_lstat. do 2 wp_step. apply wp_syscall.
  { intros text Hf. cbn [bind_post]. rewrite decide_False by done. wp_step. right. split; [by do 2 eexists|done]. }
  intros _. cbn [fst snd]. destruct (lookup_path (met w) path) as [[v i]|] eqn:Hl; cbn [bind_post].
  - wp_step. cbn [w_fs after_call]. rewrite Hl. by left.
  - rewrite decide_True by done. wp_step. cbn [w_fs after_call]. rewrite Hl. by left.
Qed.

Lemma wp_open_checked_still w :
  wp (open_checked path) (λ r w',
    or_fault r (result_map (λ vi, mkFile vi.1 0) (regular_at (w_fs w') path))) w.
Proof.
  unfold open_checked, open_nofollow. wp_step.
  eapply wp_mono; [apply wp_checked_lstat_met|].
  intros ? w1 [->|[Hf Hr]].
  2: { destruct r; [done|]. cbn [bind_post]. by right. }
  cbn [bind_post]. unfold lstat_of, regular_at. do 2 wp_step.
  destruct (lookup_path (w_fs w1) path) as [[v i]|] eqn:Hl;
    cbn [fmap option_fmap option_map ok_or bind_post fst snd]; [|rewrite Hl; by left].
  destruct (final_type _) eqn:Ht; [wp_step; rewrite Hl, Ht; by left|].
  do 2 wp_step. eapply (wp_query_still _ v i); [exact Hl|by right|]. intros fs Hfs. unfold k_open_nofollow.
  apply final_type_file in Ht as Hfile. rewrite Hfs, (proj1 Hfile). cbn [bind_post]. wp_step.
  cbn [w_fs after_call]. rewrite Hfs, Ht. by left.
Qed.

(** A metadata sample. *)
Lemma wp_sample_still context f v i w :
  stands v i (w_fs w) → f_inode f = v →
  wp (io context (file_metadata f)) (λ r w', stands v i (w_fs w') ∧ or_fault r (Ok (metadata_of i))) w.
Proof.
  intros Hw <-. unfold io, file_metadata. wp_step. eapply wp_query_still; [exact Hw|by split; [|right]|].
  intros fs Hfs. unfold k_fstat. apply lookup_path_inode in Hfs as Hi. rewrite (proj2 Hi). by split; [|left].
Qed.

Lemma read_attempt_still w :
  wp (read_attempt path id) (λ r w', or_fault r (result_map Some (read_spec (w_fs w') path))) w.
Proof.
  unfold read_attempt. wp_step. eapply wp_mono; [apply wp_open_checked_still|]. intros ? w1 [->|[Hf Hr]].
  2: { destruct r; [done|]. by right. }
  destruct (regular_at (w_fs w1) path) as [[v i]|e] eqn:Hr; cbn [result_map bind_post].
  2: { unfold read_spec. rewrite Hr. by left. }
  apply regular_at_ok in Hr as (Hl & _ & Ht & Hdir).
  assert (∀ fs, stands v i fs → read_spec fs path =
    if MAX_READ_BYTES <? size_of i then Err TooLarge
    else if valid_utf8 (i_data i) then Ok (mkRevisionRead (i_data i) (from_metadata (metadata_of i) (sha256 (i_data i))))
    else Err UnsupportedEncoding) as Hspec by (intros fs Hfs; unfold read_spec, regular_at; by rewrite Hfs, Ht).
  cbn [fst snd]. wp_step. eapply wp_mono; [by apply (wp_sample_still _ _ v i)|].
  intros ? w2 [H2 [->|[Hf Hr]]]; [|destruct r; [done|by right]].
  cbn [bind_post]. unfold reject_type, guard_err.
  rewrite Ht. wp_step. wp_step. cbn [md_size metadata_of]. wp_step.
  destruct (MAX_READ_BYTES <? size_of i) eqn:Hsize; [wp_step; left; by rewrite Hspec|].
  apply Z.ltb_ge in Hsize. wp_step. wp_step. unfold io at 1. wp_step. eapply wp_mono.
  { apply (wp_read_constant (stands v i) (i_data i)); [intros; by apply still| |done|unfold MAX_READ_BYTES; lia|done].
    intros fs [_ Hfs]%lookup_path_inode. by exists i. }
  intros ? w3 [H3 [->|[Hf Hr]]]; [|destruct r; [done|by right]].
  cbn [f_pos bind_post result_map_err].
  rewrite drop_0, take_ge by (unfold size_of in Hsize; lia).
  rewrite (proj2 (Z.ltb_ge _ _)) by done. do 3 wp_step.
  unfold run_hook, wp at 1, id. cbn [fst snd bind_post]. wp_step.
  eapply wp_mono; [by apply (wp_sample_still _ _ v i)|].
  intros ? w4 [H4 [->|[Hf Hr]]]; [|destruct r; [done|by right]].
  cbn [bind_post]. rewrite Ht. wp_step. wp_step. rewrite metadata_equal_refl. wp_step.
  destruct (valid_utf8 (i_data i)); cbn [negb]; wp_step; [wp_step|]; left; by rewrite Hspec.
Qed.

Lemma read_with_revision_still w :
  wp (read_with_revision path) (λ r w', or_fault r (read_spec (w_fs w') path)) w.
Proof.
  unfold read_with_revision, read_with_revision_hook, READ_ATTEMPTS.
  change (read_attempts 3 path id) with
    (r ← read_attempt path id;
     match r with Some read => mret read | None => read_attempts 2 path id end).
  wp_step. eapply wp_mono; [apply read_attempt_still|]. intros ? w1 [->|[Hf Hr]].
  - destruct (read_spec (w_fs w1) path) eqn:Hspec; cbn [result_map bind_post]; [wp_step|]; rewrite Hspec; by left.
  - destruct r; [done|]. by right.
Qed.
End still.

(** ** A path whose file others replace

    The others may put new files at [path], but never write into one: once the path led
    to an inode, the bytes stay, and so does the name, or the inode loses its last link
    ([leads]). Then a successful read is what is at [path] at its last call. *)
Definition leads (path : Path) (v : nat) (i0 : Inode) (fs : FS) : Prop :=
  ∃ i, inodes fs !! v = Some i ∧ i_data i = i_data i0 ∧ inode_is_dir i = inode_is_dir i0 ∧
    (names fs !! path = Some v ∨ i_nlink i ≤ 0).

Class Replaced `{Kernel} (path : Path) : Prop := replaced n fs v i0 :
  leads path v i0 fs → leads path v i0 (env n fs).

Section replaced.
Context `{Kernel} (path : Path) `{!Replaced path}.

Lemma wp_open_replaced w :
  wp (open_checked path) (λ r w', ∀ f, r = Ok f →
    f_pos f = 0 ∧ ∃ i0, leads path (f_inode f) i0 (w_fs w')) w.
Proof.
  unfold open_checked, open_nofollow. wp_step.
  eapply wp_mono; [apply (wp_preserves (λ _ _, True)); by intros ?|]. intros [found|e] w1 _; [|done]. cbn [bind_post].
  wp_step. wp_step. destruct found as [md|]; cbn [ok_or bind_post]; [|done].
  destruct (final_type md); [by wp_step|]. do 2 wp_step. apply wp_query; [done|]. unfold k_open_nofollow.
  destruct (lookup_path (met w1) path) as [[v i]|] eqn:Hl; cbn [bind_post]; [|done].
  destruct (inode_is_symlink i); cbn [bind_post]; [done|].
  wp_step. intros f [= <-]. split; [done|]. apply lookup_path_inode in Hl as [Hn Hi].
  exists i, i. cbn [f_inode w_fs after_call]. auto.
Qed.

(** A metadata sample: a file with a link is still the one at [path]. *)
Lemma wp_sample_replaced context f i0 w :
  leads path (f_inode f) i0 (w_fs w) →
  wp (io context (file_metadata f)) (λ r w', ∀ md, r = Ok md → final_type md = None →
    ∃ i, md = metadata_of i ∧ lookup_path (w_fs w') path = Some (f_inode f, i) ∧
      i_data i = i_data i0 ∧ inode_is_dir i = inode_is_dir i0) w.
Proof.
  intros Hw. apply (replaced (w_step w)) in Hw as (i & Hi & Hdata & Hdir & Hn).
  unfold io, file_metadata. wp_step. apply wp_query; [done|].
  unfold k_fstat, met. rewrite Hi. intros md [= <-] Ht. exists i. split_and!; try done.
  apply final_type_single in Ht. destruct Hn as [Hn|Hn]; [|lia].
  unfold lookup_path. cbn [w_fs after_call]. by rewrite Hn; simpl; rewrite Hi.
Qed.

Lemma lookup_leads v i fs : lookup_path fs path = Some (v, i) → leads path v i fs.
Proof. intros [Hn Hi]%lookup_path_inode. exists i. auto. Qed.

Lemma wp_read_attempt_replaced w :
  wp (read_attempt path id) (λ r w', ∀ rd, r = Ok (Some rd) → read_spec (w_fs w') path = Ok rd) w.
Proof.
  unfold read_attempt. wp_step. eapply wp_mono; [apply wp_open_replaced|].
  intros [f|e] w1 Hopen; [|done]. destruct (Hopen f eq_refl) as (Hpos & i0 & H1). clear Hopen. cbn [bind_post].
  wp_step. eapply wp_mono; [by apply wp_sample_replaced|]. intros [md|e] w2 Hmd; [|done]. cbn [bind_post].
  wp_step. apply wp_reject_type; [|done]. intros Ht. cbn [bind_post].
  destruct (Hmd _ eq_refl Ht) as (b & -> & H2%lookup_leads & _). clear Hmd.
  apply final_type_file in Ht as [_ Hdir].
  wp_step. apply wp_guard_err; [|done]. intros _. cbn [bind_post].
  wp_step. unfold io at 1. wp_step. eapply wp_mono.
  { apply (wp_read_constant (leads path (f_inode f) b) (i_data b)); [intros; by apply replaced| |by rewrite Hpos|unfold MAX_READ_BYTES; lia|done].
    intros fs (i & Hi & Hd & Hdi & _). exists i. by rewrite Hdi. }
  rewrite Hpos, drop_0. intros [acc|e] w3 [H3 Hr]; cbn [bind_post result_map_err]; [|done].
  destruct Hr as [[= ->]|[_ [=]]].
  wp_step. apply wp_guard_err; [|done]. intros Hsize%Z.ltb_ge. cbn [bind_post].
  rewrite length_take in Hsize. rewrite take_ge by (unfold MAX_READ_BYTES in *; lia).
  cbn zeta. wp_step. unfold run_hook, wp at 1, id. cbn [fst snd bind_post].
  wp_step. eapply wp_mono; [by apply wp_sample_replaced|]. intros [md|e] w4 Hmd; [|done]. cbn [bind_post].
  wp_step. apply wp_reject_type; [|done]. intros Ht. cbn [bind_post].
  destruct (Hmd _ eq_refl Ht) as (a & -> & H4 & Hdata & _). clear Hmd.
  destruct (metadata_equal _ _); [|by wp_step].
  wp_step. apply wp_guard_err; [|done]. intros Hutf. split_bools. cbn [bind_post].
  wp_step. intros rd [= <-]. unfold read_spec, regular_at. rewrite H4, Ht. cbn [result_bind snd].
  unfold size_of. rewrite Hdata, (proj2 (Z.ltb_ge _ _)), Hutf by (unfold MAX_READ_BYTES in *; lia). done.
Qed.

Lemma wp_read_replaced w :
  wp (read_with_revision path) (λ r w', ∀ rd, r = Ok rd → read_spec (w_fs w') path = Ok rd) w.
Proof.
  unfold read_with_revision, read_with_revision_hook. generalize READ_ATTEMPTS as n.
  intros n. revert w. induction n as [|n IH]; intros w; simpl; [by wp_step|].
  wp_step. eapply wp_mono; [apply wp_read_attempt_replaced|].
  intros [[rd|]|e] w1 Hr; cbn [bind_post]; [|apply IH|done].
  wp_step. intros ? [= <-]. by apply Hr.
Qed.
End replaced.

(** ** Running alone *)

Section alone.
Context `{!Kernel, !Undisturbed}.

#[export] Instance look_same_state : LookKeeps same_state.
Proof. intros A look. apply same_state_query. Qed.
#[export] Instance undisturbed_still path : Still path.
Proof. intros n fs v i. by rewrite (lookup_equiv _ _ path (undisturbed n fs)). Qed.

Lemma wp_read_alone f limit b w :
  0 ≤ f_pos f → 0 ≤ limit → inodes (w_fs w) !! f_inode f = Some b →
  inode_is_dir b = false →
  wp (read_to_end f limit) (λ r w', same_state w w' ∧
    or_fault r (Ok (take (Z.to_nat limit) (drop (Z.to_nat (f_pos f)) (i_data b))))) w.
Proof.
  intros Hpos Hlimit Hb Hdir. eapply wp_mono.
  { apply wp_and; [|apply (wp_preserves same_state), look_read_to_end; exact _].
    apply (wp_read_constant (λ fs, fs ≡ w_fs w) (i_data b)); [| |done..].
    - intros n fs <-. apply undisturbed.
    - intros fs [_ Hfs]. exists b. by rewrite Hfs. }
  intros r w' [[_ Hr] Hsame]. done.
Qed.

(** What holds of the file system that a look leaves, holds of the one that it met. *)
Lemma wp_look_alone {E A} (m : IO E A) (s : FS → result A E) w :
  (∀ f g, f ≡ g → s f = s g) → preserves same_state m →
  wp m (λ r w', or_fault r (s (w_fs w'))) w → wp m (λ r w', same_state w w' ∧ or_fault r (s (w_fs w))) w.
Proof.
  intros Hs Hm Hw. eapply wp_mono; [apply wp_and; [exact Hw|apply (wp_preserves same_state), Hm]|].
  intros r w' [Hr Hsame]. split; [done|]. by rewrite <-(Hs _ _ (proj1 Hsame)).
Qed.

Lemma wp_checked_lstat_alone path w :
  wp (checked_lstat path)
     (λ r w', same_state w w' ∧ or_fault r (Ok (lstat_of (w_fs w) path))) w.
Proof.
  apply (wp_look_alone _ (λ fs, Ok (lstat_of fs path))); [|apply look_checked_lstat; exact _|apply wp_checked_lstat_met].
  intros f g Hfg. by rewrite (lstat_equiv _ _ _ Hfg).
Qed.

Lemma read_with_revision_alone path w :
  wp (read_with_revision path)
     (λ r w', same_state w w' ∧ or_fault r (read_spec (w_fs w) path)) w.
Proof.
  apply (wp_look_alone _ (λ fs, read_spec fs path));
    [|apply look_read_with_revision; exact _|apply (read_with_revision_still path)].
  intros f g Hfg. by apply read_spec_equiv.
Qed.
End alone.

(** ** Ranges *)

Section ranges.
Context `{!Kernel}.

(** No read returns more than its limit, whatever the others do. *)
Lemma wp_read_length f limit w :
  0 ≤ limit →
  wp (read_to_end f limit) (λ r _, ∀ acc, r = Ok acc → Z.of_nat (length acc) ≤ limit) w.
Proof.
  intros Hlimit. unfold read_to_end. wp_step. eapply wp_mono.
  { apply (wp_mloop (read_round f)
      (λ s _, let '(pos, room, acc) := s in 0 ≤ room ∧ Z.of_nat (length acc) + room = limit)
      (λ r _, ∀ acc, r = Ok acc → Z.of_nat (length acc) ≤ limit)); [|simpl; lia].
    intros [[pos room] acc] w0 [Hroom Hsum]. unfold read_round.
    destruct (Z.leb_spec room 0); [wp_step; intros ? [= <-]; lia|].
    wp_step. apply wp_query; [done|]. unfold k_read.
    destruct (inodes (met w0) !! f_inode f) as [i|]; [|done].
    destruct (inode_is_dir i); [done|]. set (avail := Z.min _ _).
    destruct (Z.leb_spec avail 0); cbn [bind_post]; [wp_step; intros ? [= <-]; lia|].
    pose proof (transfer_bounds (w_step w0) avail ltac:(lia)).
    set (got := take _ _).
    assert (Z.of_nat (length got) ≤ room) by (unfold got; rewrite length_take; lia).
    clearbody got. destruct got as [|b got]; wp_step; cbn [loop_post].
    - intros ? [= <-]. lia.
    - rewrite length_app. lia. }
  intros [[[[pos room] acc0]|acc]|e] w' Hr; cbn [bind_post loop_post] in *; [| |done].
  - wp_step. intros acc [= <-]. lia.
  - wp_step. exact Hr.
Qed.

Lemma wp_range_attempt_length path s e w :
  s ≤ e → wp (range_attempt path s e)
    (λ r _, ∀ bytes, r = Ok (Some bytes) → Z.of_nat (length bytes) ≤ e - s) w.
Proof.
  intros Hse. unfold range_attempt, io, seek_start, file_metadata. wp_step.
  eapply wp_mono; [apply wp_open_checked|]. intros [f|?] w1 _; cbn [bind_post]; [|done].
  do 2 wp_step. apply wp_query; [done|].
  destruct (k_fstat _ _) as [md|]; cbn [bind_post result_map_err]; [|done].
  wp_step. apply wp_reject_type; cbn [bind_post]; [|done]. intros _. cbn zeta.
  destruct (Z.ltb_spec (Z.min e (md_size md)) s).
  { wp_step. intros ? [= <-]. simpl. lia. }
  wp_step. wp_step. wp_step. apply wp_query; [done|].
  destruct (_ <? _); cbn [bind_post result_map_err]; [|done]. wp_step. cbn [bind_post result_map_err].
  wp_step. wp_step. eapply wp_mono; [apply wp_read_length; lia|].
  intros [acc|?] w2 Hacc; cbn [bind_post result_map_err]; [|done].
  specialize (Hacc acc eq_refl). do 2 wp_step. apply wp_query; [done|].
  destruct (k_fstat _ _) as [md'|]; cbn [bind_post result_map_err]; [|done].
  wp_step. intros bytes. case_match; [|done]. intros [= <-]. lia.
Qed.

Context `{!Honest}.

(** [bytes] is the piece from [s] to [e] of one inode that [path] led to. *)
Definition range_picture (path : Path) (s e : Z) (w : World) (bytes : list byte)
    (w' : World) : Prop :=
  ∃ v i, passed w w' (λ fs, names fs !! path = Some v) ∧ inodes (w_fs w') !! v = Some i ∧
    bytes = take (Z.to_nat (e - s)) (drop (Z.to_nat s) (i_data i)).

Lemma wp_range_attempt path s e w :
  0 ≤ s ≤ e → wp (range_attempt path s e)
    (λ r w', ∀ bytes, r = Ok (Some bytes) → range_picture path s e w bytes w') w.
Proof.
  intros [Hs He]. unfold range_attempt. wp_step.
  eapply wp_mono; [apply wp_open_checked|]. intros [f|?] w1 Hopen; cbn [bind_post]; [|done].
  destruct (Hopen f eq_refl) as (Hpos & Hpass & i0 & Hi0). clear Hopen.
  wp_step. eapply wp_mono.
  { apply wp_and; [apply (wp_file_metadata "read_range" f (eq i0)); by exists i0|].
    apply (wp_preserves grows), look_file_metadata; exact _. }
  intros [md|?] w2 [Hmd Hg2]; cbn [bind_post]; [|done].
  destruct (Hmd md eq_refl) as (? & b & <- & _ & -> & Hb & _). clear Hmd.
  wp_step. apply wp_reject_type; cbn [bind_post]; [|done]. intros _. cbn zeta.
  cbn [md_size metadata_of]. destruct (Z.ltb_spec (Z.min e (size_of b)) s).
  { wp_step. intros ? [= <-]. exists (f_inode f), b. split_and!; [|done|].
    - by eapply passed_later.
    - by rewrite drop_ge, take_nil by (unfold size_of in *; lia). }
  wp_step. unfold io at 1, seek_start. do 2 wp_step. apply wp_query; [done|].
  destruct (_ <? 2 ^ 63); cbn [bind_post result_map_err]; [|done]. wp_step. cbn [bind_post].
  destruct (holds_met _ honest _ (eq b) _ ltac:(by exists b)) as (? & b1 & <- & Hb1 & Hi1).
  wp_step. unfold io at 1. wp_step. eapply wp_mono.
  { apply wp_and; [|apply (wp_preserves grows), look_read_to_end; exact _].
    apply (wp_read_stable b1 (mkFile (f_inode f) s)); [done|lia|by exists b1]. }
  intros [acc|?] w3 [Hacc Hg3]; cbn [bind_post result_map_err]; [|done].
  wp_step. eapply wp_mono.
  { apply wp_and; [by apply (wp_file_metadata "read_range" f)|].
    apply (wp_preserves grows), look_file_metadata; exact _. }
  intros [md|?] w4 [Hmd Hg4]; cbn [bind_post]; [|done].
  destruct (Hmd md eq_refl) as (i & a & (Hst & Hle & Hend) & Hia & -> & Ha & Hpa). clear Hmd.
  wp_step. intros bytes. destruct (metadata_equal _ _) eqn:Heq; [|done]. intros [= <-].
  apply metadata_equal_time in Heq.
  assert (later b a) as Hba by (etrans; [exact Hb1|]; etrans; [apply Hst|done]).
  destruct (later_between b b1 a Hb1 ltac:(etrans; [apply Hst|done]) Heq) as [-> ->].
  destruct (later_between b i b (proj1 Hst) Hia eq_refl) as [-> _].
  apply stable_result in Hend; try done. cbn [f_pos] in Hend.
  exists (f_inode f), b. split_and!; [|done|].
  - apply (passed_later _ w1); [exact Hpass|]. etrans; [exact Hg2|].
    etrans; [apply grows_call|]. etrans; [exact Hg3|exact Hg4].
  - rewrite Hend. destruct (Z.min_spec e (size_of b)) as [[_ ->]|[Hle' ->]]; [done|].
    unfold size_of in *. by rewrite !take_ge by (rewrite length_drop; lia).
Qed.
End ranges.

Section range_results.
Context `{!Kernel}.

(** A property of successful attempts is one of the whole retry loop. *)
Lemma wp_range_attempts (P : World → list byte → World → Prop) n path s e w :
  (∀ w, wp (range_attempt path s e)
          (λ r w', ∀ bytes, r = Ok (Some bytes) → P w bytes w') w) →
  (∀ w w1 bytes w', grows w w1 → P w1 bytes w' → P w bytes w') →
  wp (range_attempts n path s e) (λ r w', ∀ bytes, r = Ok bytes → P w bytes w') w.
Proof.
  intros Hattempt Hgrow. revert w. induction n as [|n IH]; intros w; simpl; [by wp_step|].
  wp_step. eapply wp_mono.
  { apply wp_and; [apply Hattempt|apply (wp_preserves grows), look_range_attempt; exact _]. }
  intros [[bytes|]|] w1 [Hr Hg]; cbn [bind_post]; [|clear Hr|done].
  - wp_step. intros ? [= <-]. by apply Hr.
  - eapply wp_mono; [apply IH|]. intros r w2 Hr bytes Hbytes. eauto.
Qed.

Lemma wp_read_range_length path s e w :
  wp (read_range path s e) (λ r _, ∀ bytes, r = Ok bytes →
    Z.of_nat (length bytes) ≤ e - s ∧ Z.of_nat (length bytes) ≤ MAX_RANGE_BYTES) w.
Proof.
  unfold read_range. destruct ((e <? s) || _) eqn:Hb; [by wp_step|]. split_bools.
  eapply wp_mono.
  { apply (wp_range_attempts (λ _ bytes _, Z.of_nat (length bytes) ≤ e - s)); [|done].
    intros. by apply wp_range_attempt_length. }
  intros r w' Hr bytes Hbytes. specialize (Hr bytes Hbytes). lia.
Qed.

Lemma wp_read_range `{!Honest} path s e w :
  0 ≤ s →
  wp (read_range path s e) (λ r w', ∀ bytes, r = Ok bytes →
    range_picture path s e w bytes w') w.
Proof.
  intros Hs. unfold read_range. destruct ((e <? s) || _) eqn:Hb; [by wp_step|]. split_bools.
  apply wp_range_attempts.
  - intros. by apply wp_range_attempt.
  - intros w0 w1 bytes w' Hg (v & i & Hp & ?). exists v, i. split; [|done].
    by eapply passed_earlier.
Qed.
End range_results.

(** ** Tails *)

Section tails.
Context `{!Kernel}.

(** What every reply of [tail_read] satisfies, whatever happens meanwhile. *)
Definition tail_shape (off : Z) (kd ki : option Z) (m : Z) (t : TailRead) : Prop :=
  actual_end t = tail_start t + Z.of_nat (length (tail_bytes t)) ∧
  Z.of_nat (length (tail_bytes t)) ≤ Z.min m MAX_TAIL_BYTES ∧
  (tail_start t ≤ file_size t → actual_end t ≤ file_size t) ∧
  more_available t = (actual_end t <? file_size t) ∧
  tail_start t = (if truncated_or_rotated t then 0 else off) ∧
  truncated_or_rotated t
    = differs kd (tail_dev t) || differs ki (tail_ino t) || (file_size t <? off).

Lemma wp_tail_shape path off kd ki m w :
  0 ≤ m → wp (tail_read path off kd ki m)
    (λ r _, ∀ t, r = Ok t → tail_shape off kd ki m t) w.
Proof.
  intros Hm. unfold tail_read, io, seek_start, file_metadata. wp_step.
  eapply wp_mono; [apply wp_open_checked|]. intros [f|?] w1 _; cbn [bind_post]; [|done].
  do 2 wp_step. apply wp_query; [done|].
  destruct (k_fstat _ _) as [md|]; cbn [bind_post result_map_err]; [|done].
  wp_step. apply wp_reject_type; cbn [bind_post]; [|done]. intros _. cbn zeta.
  set (trunc := differs _ _ || _ || _). set (start := if trunc then 0 else off).
  set (want := Z.min (saturating_add64 _ _) _).
  assert (want ≤ start + Z.min m MAX_TAIL_BYTES ∧ want ≤ md_size md) as [Hw1 Hw2]
    by (unfold want, saturating_add64; lia).
  wp_step. apply (wp_mono _ (λ r _, ∀ bytes, r = Ok bytes →
    Z.of_nat (length bytes) ≤ Z.max 0 (want - start))).
  - destruct (Z.ltb_spec start want); [|wp_step; intros ? [= <-]; simpl; lia].
    do 3 wp_step. apply wp_query; [done|].
    destruct (start <? 2 ^ 63); cbn [bind_post result_map_err]; [|done].
    wp_step. cbn [bind_post result_map_err]. wp_step.
    eapply wp_mono; [apply wp_read_length; lia|].
    intros [acc|?] w2 Hacc; cbn [result_map_err]; [|done].
    intros ? [= <-]. specialize (Hacc acc eq_refl). lia.
  - intros [bytes|?] w2 Hb; cbn [bind_post]; [|done]. specialize (Hb bytes eq_refl).
    wp_step. intros t [= <-]. unfold tail_shape. cbn [tail_start tail_bytes actual_end
      file_size more_available truncated_or_rotated tail_dev tail_ino].
    unfold MAX_TAIL_BYTES in *. split_and!; try done; lia.
Qed.

(** Others only append: the inode keeps its identity and its bytes. *)
Definition appended (i i' : Inode) : Prop :=
  i_dev i = i_dev i' ∧ i_ino i = i_ino i' ∧ i_data i `prefix_of` i_data i'.
Class Appending : Prop := appending n fs v i :
  inodes fs !! v = Some i → ∃ i', inodes (env n fs) !! v = Some i' ∧ appended i i'.

#[export] Instance appended_preorder : PreOrder appended.
Proof.
  split; [done|]. intros i j k (Hd & Hi & Hp) (Hd' & Hi' & Hp').
  split_and!; [congruence..|by etrans].
Qed.

Lemma slice_appended {A} (n off : nat) (l l' : list A) :
  (off + n ≤ length l)%nat → l `prefix_of` l' →
  take n (drop off l') = take n (drop off l).
Proof.
  intros Hn [k ->]. rewrite drop_app_le by lia.
  by rewrite take_app_le by (rewrite length_drop; lia).
Qed.

(** [bytes] is the piece at [off] of [i], which continues [b]. *)
Definition piece (b : Inode) (off : nat) (bytes : list byte) (i : Inode) : Prop :=
  appended b i ∧ bytes = take (length bytes) (drop off (i_data i)) ∧
  (off + length bytes ≤ length (i_data i))%nat.

Lemma wp_read_piece `{!Appending} b f limit w :
  0 ≤ f_pos f → 0 ≤ limit → f_pos f ≤ size_of b → holds (f_inode f) (appended b) w →
  wp (read_to_end f limit) (read_stops (piece b (Z.to_nat (f_pos f))) f limit) w.
Proof.
  intros Hpos Hlimit Hsize Hb. unfold size_of in Hsize.
  apply (wp_read_to_end _ appending); try done.
  - intros acc i i' (Hbi & Hacc & Hlen) (Hd & Hi & Hp). split_and!.
    + etrans; [exact Hbi|]. by split_and!.
    + by rewrite (slice_appended _ _ (i_data i)).
    + apply prefix_length in Hp. lia.
  - intros acc i n (Hbi & Hacc & Hlen) Hn. split_and!; [done| |].
    + rewrite length_app, <-take_drop_app_split, <-Hacc. f_equal.
      rewrite Z2Nat.inj_add, Nat2Z.id, drop_drop by lia. by rewrite length_take, <-take_take, (take_ge _ (length _)).
    + rewrite length_app, length_take, length_drop. lia.
  - eapply holds_mono; [|exact Hb]. intros i Hbi. split_and!; [done..|].
    destruct Hbi as (_ & _ & Hp%prefix_length). simpl. lia.
Qed.

(** [t] is a true piece of inode [i], as long as was asked or up to the size
    that the reply reports. *)
Definition tail_picture (m : Z) (t : TailRead) (i : Inode) : Prop :=
  tail_dev t = i_dev i ∧ tail_ino t = i_ino i ∧ file_size t ≤ size_of i ∧
  0 ≤ tail_start t ≤ file_size t ∧
  tail_bytes t = take (length (tail_bytes t)) (drop (Z.to_nat (tail_start t)) (i_data i)) ∧
  actual_end t = Z.max (tail_start t)
    (Z.min (saturating_add64 (tail_start t) (Z.min m MAX_TAIL_BYTES)) (file_size t)).

(** Where [path] leads does not change. *)
Definition path_kept (path : Path) (w w' : World) : Prop :=
  names (w_fs w') !! path = names (w_fs w) !! path.
#[export] Instance path_kept_preorder path : PreOrder (path_kept path).
Proof. split; [done|]. intros ? ? ? H1 H2. red. congruence. Qed.

Definition path_steady (path : Path) : Prop :=
  ∀ n fs, names (env n fs) !! path = names fs !! path.

Lemma look_path_kept path : path_steady path → LookKeeps (path_kept path).
Proof.
  intros Hs A look w. unfold query, syscall, path_kept.
  destruct (fault (w_step w)); simpl; apply Hs.
Qed.

(** Inodes only grow. *)
Definition grown (w w' : World) : Prop := ∀ v i, inodes (w_fs w) !! v = Some i →
  ∃ i', inodes (w_fs w') !! v = Some i' ∧ appended i i'.
#[export] Instance grown_preorder : PreOrder grown.
Proof.
  split; [intros w v i Hi; by exists i|]. intros w1 w2 w3 H1 H2 v i Hi.
  destruct (H1 v i Hi) as (i' & Hi' & ?). destruct (H2 v i' Hi') as (i2 & ? & ?).
  exists i2. split; [done|by etrans].
Qed.
#[export] Instance look_grown `{!Appending} : LookKeeps grown.
Proof.
  intros A look w v i Hi. unfold query, syscall. destruct (fault (w_step w)); simpl;
    by apply appending.
Qed.

Lemma wp_open_name path w :
  wp (open_checked path) (λ r w', ∀ f, r = Ok f →
    f_pos f = 0 ∧ names (w_fs w') !! path = Some (f_inode f) ∧
    is_Some (inodes (w_fs w') !! f_inode f)) w.
Proof.
  unfold open_checked, open_nofollow. wp_step.
  apply (wp_mono _ (λ _ _, True)); [done|].
  intros [found|e] w1 _; cbn [bind_post]; [|done].
  wp_step. wp_step. destruct found as [md|]; cbn [ok_or bind_post]; [|done].
  destruct (final_type md); [by wp_step|].
  do 2 wp_step. apply wp_query; [done|]. unfold k_open_nofollow.
  destruct (lookup_path (met w1) path) as [[v i]|] eqn:Hl; cbn [bind_post]; [|done].
  destruct (inode_is_symlink i); cbn [bind_post]; [done|].
  wp_step. intros f [= <-]. apply lookup_path_inode in Hl as [Hn Hi]. simpl.
  by rewrite Hn, Hi.
Qed.

Lemma wp_tail_read `{!Appending} path off kd ki m w :
  path_steady path → 0 ≤ off → 0 ≤ m →
  wp (tail_read path off kd ki m) (λ r w', ∀ t, r = Ok t → ∃ v i,
    names (w_fs w') !! path = Some v ∧ inodes (w_fs w') !! v = Some i ∧
    tail_picture m t i ∧
    ∀ i0, inodes (w_fs w) !! v = Some i0 → size_of i0 ≤ file_size t) w.
Proof.
  intros Hs Hoff Hm. unfold tail_read. wp_step. eapply wp_mono.
  { apply wp_and; [apply wp_open_name|].
    apply (wp_preserves grown), look_open_checked; exact _. }
  intros [f|?] w1 [Hopen Hgrown]; cbn [bind_post]; [|done].
  destruct (Hopen f eq_refl) as (Hpos & Hname & i0 & Hi0). clear Hopen.
  destruct (holds_met _ appending _ (eq i0) _ ltac:(by exists i0)) as (? & b & <- & H0b & Hb).
  assert (∀ i, inodes (w_fs w) !! f_inode f = Some i → size_of i ≤ size_of b) as Hsize.
  { intros i Hi. destruct (Hgrown _ _ Hi) as (i' & Hi' & Hii). assert (i' = i0) as -> by congruence.
    destruct (transitivity Hii H0b) as (_ & _ & Hp%prefix_length). unfold size_of. lia. }
  wp_step. unfold io at 1, file_metadata. wp_step. apply wp_query; [done|].
  unfold k_fstat. rewrite Hb. cbn [result_map_err bind_post].
  wp_step. apply wp_reject_type; cbn [bind_post]; [|done]. intros _. cbn zeta.
  cbn [md_size md_dev md_ino metadata_of].
  set (trunc := differs _ _ || _ || (size_of b <? off)).
  set (start := if trunc then 0 else off).
  assert (0 ≤ start ≤ size_of b) as Hstart.
  { unfold start, size_of. destruct trunc eqn:Ht; [lia|].
    unfold trunc, size_of in Ht. apply orb_false_iff in Ht as [_ Ht]. split_bools. lia. }
  set (want := Z.min (saturating_add64 _ _) _).
  assert (want ≤ size_of b) as Hwant by (unfold want; lia).
  set (w2 := after_call w1 (met w1) (met w1)).
  assert (names (w_fs w2) !! path = Some (f_inode f)) as Hname2
    by (unfold w2, met; simpl; by rewrite Hs).
  wp_step. apply (wp_mono _ (λ r w', ∀ bytes, r = Ok bytes →
    names (w_fs w') !! path = Some (f_inode f) ∧ ∃ i, inodes (w_fs w') !! f_inode f = Some i ∧
    piece b (Z.to_nat start) bytes i ∧ Z.of_nat (length bytes) = Z.max start want - start)).
  2: { intros [bytes|?] w3 Hr; cbn [bind_post]; [|done].
    destruct (Hr bytes eq_refl) as (Hn3 & i & Hi & ((Hd & Hino & Hpre) & Hbytes & _) & Hlen).
    wp_step. intros t [= <-]. exists (f_inode f), i. split; [done|].
    split; [done|]. apply prefix_length in Hpre. unfold tail_picture, size_of in *. simpl in *.
    fold (size_of b) in Hlen |- *. fold want. split.
    - split_and!; try done; unfold size_of in *; lia.
    - done. }
  destruct (Z.ltb_spec start want).
  2: { wp_step. intros ? [= <-]. split; [done|]. exists b. split_and!; try done.
       - split_and!; [done..|]. unfold size_of in *. simpl. lia.
       - simpl. lia. }
  unfold io, seek_start. do 3 wp_step. apply wp_query; [done|].
  destruct (start <? 2 ^ 63); cbn [bind_post result_map_err]; [|done].
  wp_step. cbn [bind_post result_map_err]. wp_step.
  destruct (holds_met _ appending (f_inode f) (eq b) w2 ltac:(by exists b))
    as (? & b1 & <- & Hb1 & Hi1).
  eapply wp_mono.
  { apply wp_and.
    - apply (wp_read_piece b (mkFile (f_inode f) start)); simpl; [lia..|by exists b1].
    - pose proof (look_path_kept path Hs).
      apply (wp_preserves (path_kept path)), look_read_to_end; exact _. }
  intros [acc|?] w3 [(i & Hi & Hr) Hk]; cbn [result_map_err]; [|done].
  destruct Hr as (Hp & Hle & Hend). intros ? [= <-]. split.
  { unfold path_kept in Hk. rewrite Hk. simpl. unfold met. by rewrite Hs. }
  exists i. split_and!; [done|done|]. destruct Hp as ((_ & _ & Hpre%prefix_length) & _ & Hin).
  simpl in *. unfold size_of in *. lia.
Qed.
End tails.
