(* ===== verification/ReadTheorems.v ===== *)
(** * [revisions/read.rs]: properties

    Snapshots under interference, the exact behaviour alone, bounds, retries, and
    tails that continue one another. *)
From S2P Require Import Prelude MachineInt Text Json Kernel Sha256 Reference RevisionTypes.
From S2P Require Import ReadPath.
Local Open Scope string_scope.
Local Open Scope Z_scope.

(** C15: a read is a snapshot. Whatever other processes do to the file while it is
    read in pieces, with clocks that mark every change, a successful read returns
    the whole contents of one regular file, to which the path led, as they were at
    one moment, with the revision of exactly those contents. *)
Theorem read_is_snapshot `{!Kernel, !Honest} path w rd :
  (read_with_revision path w).1 = Ok rd →
  let w' := (read_with_revision path w).2 in
  ∃ v i, passed w w' (λ fs, names fs !! path = Some v) ∧ inodes (w_fs w') !! v = Some i ∧
    read_bytes rd = i_data i ∧
    read_revision rd = from_metadata (metadata_of i) (sha256 (i_data i)) ∧
    final_type (metadata_of i) = None ∧ size_of i ≤ MAX_READ_BYTES ∧
    valid_utf8 (i_data i) = true.
Proof.
  intros Hok. destruct (wp_read_with_revision path w rd Hok)
    as (v & i & Hn & _ & Hi & -> & Hrest). by exists v, i.
Qed.

(** The file is changed between two transfers; the read starts over. *)
Lemma read_is_snapshot_witness :
  let run := read_with_revision (H := busy 3 (writes note "changed")) note sample in
  match run.1 with
  | Ok rd => (∃ v i, passed sample run.2 (λ fs, names fs !! note = Some v) ∧
      inodes (w_fs run.2) !! v = Some i ∧ read_bytes rd = i_data i ∧
      read_revision rd = from_metadata (metadata_of i) (sha256 (i_data i)) ∧
      final_type (metadata_of i) = None ∧ size_of i ≤ MAX_READ_BYTES ∧
      valid_utf8 (i_data i) = true) ∧ read_bytes rd = ascii_bytes "changed"
  | Err _ => False
  end.
Proof.
  pose proof (busy_honest 3 _ (writes_honest note "changed")) as Hh.
  cbn zeta. destruct (read_with_revision _ sample).1 as [rd|e] eqn:Hrun.
  - split; [by apply (read_is_snapshot (H := busy 3 (writes note "changed")))|].
    vm_compute in Hrun. injection Hrun as <-. vm_compute. reflexivity.
  - vm_compute in Hrun. discriminate.
Defined.

(** C30: alone and without failures, reading is [read_spec]: an error for a missing
    or unsuitable file, for one over the limit and for one that is not UTF-8, in
    this order, and otherwise the contents with their revision; nothing changes. *)
Theorem read_refines_spec `{!Kernel, !Undisturbed, !Faultless} path w :
  (read_with_revision path w).1 = read_spec (w_fs w) path ∧
  w_fs (read_with_revision path w).2 ≡ w_fs w.
Proof.
  destruct (read_with_revision_alone path w) as [[Hfs _] Hr].
  split; [|done]. by apply or_fault_never in Hr.
Qed.

Lemma read_refines_spec_witness :
  let K := quiet_kernel in
  (read_with_revision note sample).1 = read_spec (w_fs sample) note ∧
  is_ok (read_with_revision note sample).1 = true ∧
  (read_with_revision (path_new "/d") sample).1 = Err (UnsupportedFinalType "directory") ∧
  (read_with_revision (path_new "/none") sample).1 = Err (Io "read: file not found").
Proof.
  cbn zeta. split; [|split_and!; vm_compute; reflexivity].
  by apply (read_refines_spec (H := quiet_kernel)).
Defined.

(** Reading only looks. No call of any of the three reading operations changes
    the file system, for any path and any interference. *)
Lemma reading_only_looks `{!Kernel} path start stop off kd ki m w :
  let looks {A} (m : IO RevisionError A) := log_extends (λ fs fs', fs' = fs) w (m w).2 in
  looks (read_with_revision path) ∧ looks (read_range path start stop) ∧
  looks (tail_read path off kd ki m).
Proof.
  assert (Reflexive (λ fs fs' : FS, fs' = fs)) by done.
  split_and!; [apply look_read_with_revision|apply look_read_range|apply look_tail_read]; exact _.
Qed.

(** Replies are bounded. A ranged read never returns more than was asked for,
    nor more than 1 MiB; whatever happens to the file meanwhile. *)
Lemma read_range_is_bounded `{!Kernel} path s e w bytes :
  (read_range path s e w).1 = Ok bytes →
  Z.of_nat (length bytes) ≤ e - s ∧ Z.of_nat (length bytes) ≤ MAX_RANGE_BYTES.
Proof. apply (wp_read_range_length path s e w). Qed.

Lemma read_range_is_bounded_witness :
  let K := quiet_kernel in
  (read_range note 1 3 sample).1 = Ok (ascii_bytes "as") ∧
  Z.of_nat (length (ascii_bytes "as")) ≤ 3 - 1 ∧
  (read_range note 0 (MAX_RANGE_BYTES + 1) sample).1 = Err TooLarge.
Proof.
  cbn zeta. assert ((read_range (H := quiet_kernel) note 1 3 sample).1 = Ok (ascii_bytes "as"))
    as Hr by (vm_compute; reflexivity).
  split; [exact Hr|]. split; [|vm_compute; reflexivity].
  by apply (read_range_is_bounded (H := quiet_kernel) note 1 3 sample).
Defined.

(** C34: a ranged read is a piece of a snapshot: under any interference (if what others
    change shows in its status-change time, [Honest]) the bytes returned are those between [s] and [e] of one file that the path led to, as it
    is when the call returns. *)
Theorem read_range_is_snapshot `{!Kernel, !Honest} path s e w bytes :
  0 ≤ s → (read_range path s e w).1 = Ok bytes →
  let w' := (read_range path s e w).2 in
  ∃ v i, passed w w' (λ fs, names fs !! path = Some v) ∧ inodes (w_fs w') !! v = Some i ∧
    bytes = take (Z.to_nat (e - s)) (drop (Z.to_nat s) (i_data i)).
Proof. intros Hs Hok. by apply (wp_read_range path s e w Hs). Qed.

Lemma read_range_is_snapshot_witness :
  let run := read_range (H := busy 4 (writes note "changed")) note 1 5 sample in
  match run.1 with
  | Ok bytes => (∃ v i, passed sample run.2 (λ fs, names fs !! note = Some v) ∧
      inodes (w_fs run.2) !! v = Some i ∧
      bytes = take (Z.to_nat (5 - 1)) (drop (Z.to_nat 1) (i_data i))) ∧
      bytes = ascii_bytes "hang"
  | Err _ => False
  end.
Proof.
  pose proof (busy_honest 4 _ (writes_honest note "changed")) as Hh.
  cbn zeta. destruct (read_range _ _ _ sample).1 as [bytes|e] eqn:Hrun.
  - split; [by apply (read_range_is_snapshot (H := busy 4 (writes note "changed")))|].
    vm_compute in Hrun. injection Hrun as <-. vm_compute. reflexivity.
  - vm_compute in Hrun. discriminate.
Defined.

(** ** Tails *)

(** C33: the reply of a tail read is consistent, whatever happens to the file: it
    ends where its bytes end, holds at most the requested number of bytes and at
    most 1 MiB, starts at the known offset or, exactly when the file was replaced or
    became shorter, at zero and says so, and announces more data exactly when it
    stops before the size it reports. *)
Theorem tail_reply_is_consistent `{!Kernel} path off kd ki m w t :
  0 ≤ m → (tail_read path off kd ki m w).1 = Ok t →
  actual_end t = tail_start t + Z.of_nat (length (tail_bytes t)) ∧
  Z.of_nat (length (tail_bytes t)) ≤ Z.min m MAX_TAIL_BYTES ∧
  tail_start t = (if truncated_or_rotated t then 0 else off) ∧
  truncated_or_rotated t
    = differs kd (tail_dev t) || differs ki (tail_ino t) || (file_size t <? off) ∧
  more_available t = (actual_end t <? file_size t).
Proof.
  intros Hm Ht. destruct (wp_tail_shape path off kd ki m w Hm t Ht) as (? & ? & _ & ? & ? & ?).
  done.
Qed.

Lemma tail_reply_is_consistent_witness :
  let run := tail_read (H := quiet_kernel) note 9 None None 3 sample in
  match run.1 with
  | Ok t => (actual_end t = tail_start t + Z.of_nat (length (tail_bytes t)) ∧
      Z.of_nat (length (tail_bytes t)) ≤ Z.min 3 MAX_TAIL_BYTES ∧
      tail_start t = (if truncated_or_rotated t then 0 else 9) ∧
      truncated_or_rotated t
        = differs None (tail_dev t) || differs None (tail_ino t) || (file_size t <? 9) ∧
      more_available t = (actual_end t <? file_size t)) ∧
      tail_bytes t = ascii_bytes "bas" ∧ more_available t = true
  | Err _ => False
  end.
Proof.
  cbn zeta. destruct (tail_read _ _ _ _ _ sample).1 as [t|e] eqn:Hrun.
  - split; [by apply (tail_reply_is_consistent (H := quiet_kernel) note 9 None None 3 sample)|].
    vm_compute in Hrun. injection Hrun as <-. split; vm_compute; reflexivity.
  - vm_compute in Hrun. discriminate.
Defined.

(** C32: following a growing file misses nothing and repeats nothing. When others only
    append, a tail read that continues a previous one (its end, its device and its
    inode) starts exactly where that one ended, never reports a rotation, and the
    two replies put together are one contiguous piece of the file. *)
Theorem tail_resumes `{!Kernel, !Appending} path off kd ki m1 m2 w t1 t2 :
  path_steady path → 0 ≤ off → 0 ≤ m1 → 0 ≤ m2 →
  let first := tail_read path off kd ki m1 w in
  let second := tail_read path (actual_end t1) (Some (tail_dev t1)) (Some (tail_ino t1)) m2 first.2 in
  first.1 = Ok t1 → second.1 = Ok t2 →
  truncated_or_rotated t2 = false ∧ tail_start t2 = actual_end t1 ∧
  ∃ v i, names (w_fs second.2) !! path = Some v ∧ inodes (w_fs second.2) !! v = Some i ∧
    let all := (tail_bytes t1 ++ tail_bytes t2)%list in
    all = take (length all) (drop (Z.to_nat (tail_start t1)) (i_data i)).
Proof.
  intros Hs Hoff Hm1 Hm2 first second H1 H2.
  destruct (wp_tail_read path off kd ki m1 w Hs Hoff Hm1 t1 H1)
    as (v & i1 & Hn1 & Hi1 & (Hd1 & Hino1 & Hsz1 & Hst1 & Hb1 & _) & _).
  destruct (wp_tail_shape path off kd ki m1 w Hm1 t1 H1) as (Hend1 & _ & Hin1 & _).
  specialize (Hin1 (proj2 Hst1)).
  destruct (wp_tail_read path (actual_end t1) (Some (tail_dev t1)) (Some (tail_ino t1)) m2 first.2
    Hs ltac:(lia) Hm2 t2 H2) as (v2 & i2 & Hn2 & Hi2 & (Hd2 & Hino2 & _ & _ & Hb2 & _) & Hgrow).
  pose proof (look_path_kept path Hs) as Hlook.
  assert (v2 = v) as ->.
  { pose proof (look_tail_read (path_kept path) path (actual_end t1) (Some (tail_dev t1))
      (Some (tail_ino t1)) m2 first.2) as Hk. unfold path_kept in Hk.
    fold second in Hk, Hn2. fold first in Hn1. congruence. }
  destruct (look_tail_read grown path (actual_end t1) (Some (tail_dev t1))
    (Some (tail_ino t1)) m2 first.2 v i1 Hi1) as (i' & Hi' & (Hdd & Hii & Hpre)).
  assert (i' = i2) as -> by congruence. specialize (Hgrow i1 Hi1).
  destruct (wp_tail_shape path (actual_end t1) (Some (tail_dev t1)) (Some (tail_ino t1)) m2
    first.2 Hm2 t2 H2) as (_ & _ & _ & _ & Hst2 & Htr2).
  assert (truncated_or_rotated t2 = false) as Hno.
  { rewrite Htr2. unfold differs. rewrite Hd1, Hd2, Hdd, Hino1, Hino2, Hii, !Z.eqb_refl.
    apply Z.ltb_ge. lia. }
  rewrite Hno in Hst2. split; [done|]. split; [done|].
  exists v, i2. split; [done|]. split; [done|]. cbn zeta.
  rewrite length_app, <-take_drop_app_split. f_equal.
  - rewrite (slice_appended _ _ (i_data i1)); [done| |done]. unfold size_of in *. lia.
  - rewrite drop_drop. rewrite Hb2 at 1. do 2 f_equal. lia.
Qed.

(** A logger appends between the two reads. *)
Definition logging : Kernel := busy 6 (appends note " camp").

Lemma logging_appends : Appending (H := logging).
Proof.
  intros n fs v i Hi. simpl. unfold at_call. destruct (decide _); [|by exists i].
  unfold appends, lookup_path. destruct (names fs !! note) as [u|]; simpl; [|by exists i].
  destruct (inodes fs !! u) as [j|] eqn:Hj; simpl; [|by exists i].
  destruct (decide (u = v)) as [->|Hne].
  - rewrite lookup_insert_eq. eexists. split; [done|]. assert (j = i) as -> by congruence.
    split_and!; [done..|]. by apply prefix_app_r.
  - rewrite lookup_insert_ne by done. by exists i.
Qed.

Lemma logging_steady : path_steady (H := logging) note.
Proof.
  intros n fs. simpl. unfold at_call. destruct (decide _); [|done].
  unfold appends. by destruct (lookup_path fs note) as [[v i]|].
Qed.

Lemma tail_resumes_witness :
  let first := tail_read (H := logging) note 0 None None 3 sample in
  match first.1 with
  | Ok t1 =>
      let second := tail_read (H := logging) note (actual_end t1) (Some (tail_dev t1))
                      (Some (tail_ino t1)) 100 first.2 in
      match second.1 with
      | Ok t2 => (truncated_or_rotated t2 = false ∧ tail_start t2 = actual_end t1 ∧
          ∃ v i, names (w_fs second.2) !! note = Some v ∧ inodes (w_fs second.2) !! v = Some i ∧
          let all := (tail_bytes t1 ++ tail_bytes t2)%list in
          all = take (length all) (drop (Z.to_nat (tail_start t1)) (i_data i))) ∧
          tail_bytes t1 = ascii_bytes "bas" ∧ tail_bytes t2 = ascii_bytes "e camp"
      | Err _ => False
      end
  | Err _ => False
  end.
Proof.
  cbn zeta. destruct (tail_read _ _ _ _ _ sample).1 as [t1|e] eqn:H1;
    [|vm_compute in H1; discriminate].
  destruct (tail_read note (actual_end t1) _ _ _ _).1 as [t2|e] eqn:H2;
    [|vm_compute in H1; injection H1 as <-; vm_compute in H2; discriminate].
  split.
  - pose proof logging_appends as Ha.
    apply (tail_resumes (H := logging) note 0 None None 3 100 sample t1 t2);
      [apply logging_steady|lia..|exact H1|exact H2].
  - vm_compute in H1. injection H1 as <-. vm_compute in H2. injection H2 as <-.
    split; vm_compute; reflexivity.
Defined.

(** ** Reading one inode *)

(** Every call from [I] meets the inode [v], a file of acceptable size. *)
Definition meets_file `{Kernel} (v : nat) (I : World → Prop) : Prop :=
  ∀ A (look : nat → FS → result A IoError) Q w, I w →
    (∀ n fs j, inodes fs !! v = Some j → inode_is_dir j = false → size_of j ≤ MAX_READ_BYTES →
       I (after_call w fs fs) → Q (look n fs) (after_call w fs fs)) →
    wp (query look) Q w.

Lemma wp_read_file `{Kernel} v I f w :
  meets_file v I → I w → f_inode f = v → f_pos f = 0 →
  wp (read_to_end f (MAX_READ_BYTES + 1)) (λ r w', I w' ∧ ∃ acc, r = Ok acc ∧
    Z.of_nat (length acc) ≤ MAX_READ_BYTES) w.
Proof.
  intros HI Hw Hv Hpos. unfold read_to_end. wp_step. eapply wp_mono.
  { apply (wp_mloop (read_round f) (λ s w', let '(pos, room, acc) := s in
        pos = Z.of_nat (length acc) ∧ pos ≤ MAX_READ_BYTES ∧ I w')
      (λ r w', I w' ∧ ∃ acc, r = Ok acc ∧ Z.of_nat (length acc) ≤ MAX_READ_BYTES)).
    2: { rewrite Hpos. split_and!; [done|unfold MAX_READ_BYTES; lia|done]. }
    intros [[pos room] acc] w0 (-> & Hacc & Hw0). unfold read_round.
    destruct (room <=? 0); [wp_step; split; [done|by exists acc]|]. wp_step.
    apply HI; [done|]. intros n fs i Hii Hdir Hsize Hw'.
    unfold k_read. rewrite Hv, Hii, Hdir. set (avail := Z.min _ _).
    destruct (Z.leb_spec avail 0) as [|Hav]; cbn [bind_post]; [wp_step; split; [done|by exists acc]|].
    pose proof (transfer_bounds n avail Hav) as Hn. set (got := take _ _).
    assert (Z.of_nat (length acc + length got) ≤ MAX_READ_BYTES) as Hlen
      by (unfold got; rewrite length_take, length_drop; unfold size_of in *; lia).
    clearbody got. destruct got as [|b got]; cbn [bind_post]; wp_step; cbn [loop_post].
    - split; [done|]. exists acc. split; [done|]. simpl in Hlen. lia.
    - rewrite length_app. split_and!; [lia|lia|done]. }
  intros [[[[pos room] acc]|acc]|e] w' Hr; cbn [bind_post loop_post] in *.
  - wp_step. destruct Hr as (-> & ? & ?). split; [done|by exists acc].
  - wp_step. exact Hr.
  - by destruct Hr as (_ & ? & ? & _).
Qed.

(** ** Files that never hold still *)

Section restless.
Context `{!Kernel, !Faultless} (path : Path) (v : nat).

(** [path] leads to an ordinary file [i] of acceptable size. *)
Definition at_path (fs : FS) (i : Inode) : Prop :=
  lookup_path fs path = Some (v, i) ∧ final_type (metadata_of i) = None ∧
  size_of i ≤ MAX_READ_BYTES.

(** Others change the file before every call. *)
Definition restless : Prop := ∀ n fs i, at_path fs i →
  ∃ i', at_path (env n fs) i' ∧ time_lt (i_ctime i) (i_ctime i').

Context (Hrestless : restless).

(** The file is there, marked later than [t]. *)
Definition after (t : time) (w : World) : Prop :=
  ∃ i, at_path (w_fs w) i ∧ (t = i_ctime i ∨ time_lt t (i_ctime i)).

Lemma wp_query_restless {A} t (look : nat → FS → result A IoError) Q w :
  after t w →
  (∀ n fs i, at_path fs i → time_lt t (i_ctime i) →
    let w' := after_call w fs fs in after (i_ctime i) w' → after t w' → Q (look n fs) w') →
  wp (query look) Q w.
Proof.
  intros (i & Hi & Ht) HQ. destruct (Hrestless (w_step w) _ _ Hi) as (i' & Hi' & Hlt).
  assert (time_lt t (i_ctime i')) as Hlt' by (destruct Ht as [->|Ht]; unfold time_lt in *; [done|lia]).
  unfold query. apply wp_syscall; rewrite faultless; [done|]. intros _.
  apply (HQ _ _ i'); [done..| |].
  - exists i'. split; [done|by left].
  - exists i'. split; [done|by right].
Qed.

Lemma at_path_inode fs i :
  at_path fs i → inodes fs !! v = Some i ∧ inode_is_dir i = false ∧ inode_is_symlink i = false.
Proof.
  intros (Hl & Ht & _). apply lookup_path_inode in Hl as [_ Hi].
  apply final_type_file in Ht as [? ?]. done.
Qed.

Lemma after_meets_file t : meets_file v (after t).
Proof.
  intros A look Q w Hw HQ. apply (wp_query_restless t); [done|]. intros n fs i Hi _ w' _ Hw'.
  destruct (at_path_inode _ _ Hi) as (Hii & Hdir & _). by apply (HQ n fs i); [| |apply Hi|].
Qed.

Lemma read_attempt_restless t w :
  after t w → wp (read_attempt path id) (λ r w', r = Ok None ∧ after t w') w.
Proof.
  intros Hw. unfold read_attempt, io, file_metadata, open_checked, checked_lstat,
    symlink_metadata, open_nofollow. do 4 wp_step.
  apply (wp_query_restless t); [done|]. intros _ fs1 i1 (Hl1 & Ht1 & _) _ w1 _ H1.
  unfold k_lstat. rewrite Hl1. cbn [bind_post]. do 3 wp_step. cbn [ok_or bind_post].
  rewrite Ht1. do 2 wp_step.
  apply (wp_query_restless t); [done|]. intros _ fs2 i2 Hi2 _ w2 _ H2.
  unfold k_open_nofollow. rewrite (proj1 Hi2), (proj2 (proj2 (at_path_inode _ _ Hi2))).
  cbn [bind_post]. wp_step. cbn [bind_post result_map_err]. do 2 wp_step.
  apply (wp_query_restless t); [done|]. intros _ fs3 b Hb Hbt w3 H3 _.
  unfold k_fstat. cbn [f_inode]. rewrite (proj1 (at_path_inode _ _ Hb)).
  destruct Hb as (_ & Htb & Hsb). cbn [result_map_err bind_post]. unfold reject_type, guard_err.
  rewrite Htb. do 2 wp_step. cbn [md_size metadata_of]. rewrite (proj2 (Z.ltb_ge _ _) Hsb).
  do 4 wp_step. eapply wp_mono; [by apply (wp_read_file v (after (i_ctime b))); [apply after_meets_file|..]|].
  intros ? w4 (H4 & acc & -> & Hacc). cbn [result_map_err bind_post].
  rewrite (proj2 (Z.ltb_ge _ _) Hacc). do 3 wp_step.
  unfold run_hook, wp at 1, id. cbn [fst snd bind_post]. do 2 wp_step.
  apply (wp_query_restless (i_ctime b)); [done|]. intros _ fs5 a Ha Hat w5 _ H5.
  unfold k_fstat. cbn [f_inode]. rewrite (proj1 (at_path_inode _ _ Ha)).
  destruct Ha as (_ & Hta & _). cbn [result_map_err bind_post]. rewrite Hta. do 2 wp_step.
  destruct (metadata_equal _ _) eqn:Heq.
  - apply metadata_equal_time in Heq. rewrite Heq in Hat. unfold time_lt in Hat. lia.
  - wp_step. split; [done|]. destruct H5 as (i5 & Hi5 & Ht5). exists i5. split; [done|].
    right. destruct Ht5 as [<-|Ht5]; unfold time_lt in *; [done|lia].
Qed.

Lemma read_attempts_restless n t w :
  after t w → wp (read_attempts n path id) (λ r _, r = Err UnstableRead) w.
Proof.
  revert w. induction n as [|n IH]; intros w Hw; simpl; [by wp_step|]. wp_step.
  eapply wp_mono; [by apply (read_attempt_restless t)|].
  intros ? w' [-> Hw']. cbn [bind_post]. by apply IH.
Qed.
End restless.

(** A file that never holds still is refused, not torn. If the file is changed
    between any two calls, the read gives up after its three attempts with
    [UnstableRead]; it neither loops nor returns a mixture. *)
Lemma restless_file_is_refused `{!Kernel, !Faultless} path v i w :
  restless path v → at_path path v (w_fs w) i →
  (read_with_revision path w).1 = Err UnstableRead.
Proof.
  intros Hr Hi. apply (read_attempts_restless path v Hr _ (i_ctime i)).
  exists i. split; [done|by left].
Qed.

(** ** Files that are replaced *)

Section replaced.
Context `{!Kernel, !Faultless} (path : Path) (v : nat) (i : Inode) (k : nat).

Definition stands (fs : FS) : Prop := lookup_path fs path = Some (v, i).
(** It has lost its last name. *)
Definition orphan (fs : FS) : Prop :=
  ∃ j, inodes fs !! v = Some j ∧ i_nlink j = 0 ∧ i_mode j = i_mode i ∧ i_data j = i_data i.

(** Others leave the file alone until they replace it before the [k]-th call. *)
Record replaced_at : Prop := {
  left_alone n fs : (n < k)%nat → stands fs → stands (env n fs);
  orphaned fs : stands fs → orphan (env k fs);
  stays_orphaned n fs : (k < n)%nat → orphan fs → orphan (env n fs);
}.

Context (Hreplaced : replaced_at) (Htype : final_type (metadata_of i) = None) (Hsize : size_of i ≤ MAX_READ_BYTES).

Definition followed (w : World) : Prop :=
  (w_step w ≤ k)%nat ∧ stands (w_fs w) ∨ (k < w_step w)%nat ∧ orphan (w_fs w).

Lemma wp_query_followed {A} (look : nat → FS → result A IoError) Q w :
  followed w →
  (∀ fs, (w_step w < k)%nat ∧ stands fs ∨ (k ≤ w_step w)%nat ∧ orphan fs →
     followed (after_call w fs fs) → Q (look (w_step w) fs) (after_call w fs fs)) →
  wp (query look) Q w.
Proof.
  intros Hw HQ. unfold query. apply wp_syscall; rewrite faultless; [done|]. intros _.
  assert ((w_step w < k)%nat ∧ stands (met w) ∨ (k ≤ w_step w)%nat ∧ orphan (met w)) as Hmet.
  { unfold met. destruct Hw as [[Hle Hs]|[Hlt Ho]].
    - destruct (decide (w_step w = k)) as [->|Hne]; [right; split; [done|by apply orphaned]|].
      left. split; [lia|]. apply left_alone; [done|lia|done].
    - right. split; [lia|]. by apply stays_orphaned. }
  apply (HQ (met w)); [done|]. unfold followed. cbn [after_call w_step w_fs].
  destruct Hmet as [[? ?]|[? ?]]; [left|right]; (split; [lia|done]).
Qed.

Lemma stands_inode fs : stands fs → inodes fs !! v = Some i.
Proof. by intros [_ Hi]%lookup_path_inode. Qed.

Lemma orphan_type j : i_nlink j = 0 → i_mode j = i_mode i → final_type (metadata_of j) = Some "hardlink".
Proof.
  intros Hn Hm. revert Htype. unfold final_type, is_symlink, is_dir, is_fifo, is_file, metadata_of.
  cbn [md_mode md_nlink]. rewrite Hn, Hm. repeat case_match; done.
Qed.

Lemma followed_meets_file : meets_file v followed.
Proof.
  intros A look Q w Hw HQ. apply wp_query_followed; [done|]. intros fs Hfs Hw'.
  pose proof (final_type_file _ Htype) as [_ Hdir]. destruct Hfs as [[_ Hs]|(_ & j & Hj & _ & Hm & Hd)].
  - by apply (HQ _ fs i); [apply stands_inode|..].
  - apply (HQ _ fs j); [done| | |done].
    + unfold inode_is_dir in *. by rewrite Hm.
    + unfold size_of in *. by rewrite Hd.
Qed.

Definition refused_or_before (r : result (option RevisionRead) RevisionError) (w : World) : Prop :=
  r = Err (UnsupportedFinalType "hardlink") ∨ (w_step w ≤ k)%nat ∧ r ≠ Ok None.

(** A sample of the file. *)
Lemma wp_sample Q w :
  followed w →
  (∀ fs, (w_step w < k)%nat → stands fs → followed (after_call w fs fs) → Q (Ok (metadata_of i)) (after_call w fs fs)) →
  (∀ j w', final_type (metadata_of j) = Some "hardlink" → Q (Ok (metadata_of j)) w') →
  wp (query (λ _, k_fstat v)) Q w.
Proof.
  intros Hw Hs Ho. apply wp_query_followed; [done|]. intros fs Hfs Hw'. unfold k_fstat.
  destruct Hfs as [[Hlt Hst]|(_ & j & Hj & Hn & Hm & _)].
  - rewrite (stands_inode fs Hst). by apply Hs.
  - rewrite Hj. apply Ho. by apply orphan_type.
Qed.

Lemma read_attempt_replaced w :
  stands (w_fs w) → (w_step w + 1 < k)%nat → wp (read_attempt path id) refused_or_before w.
Proof.
  intros Hw Hk. assert (followed w) as Hfol by (left; split; [lia|done]).
  unfold read_attempt, io, file_metadata, open_checked, checked_lstat,
    symlink_metadata, open_nofollow. do 4 wp_step.
  apply wp_query_followed; [done|]. intros fs1 [[_ Hs1]|[? _]] F1; [|lia].
  unfold k_lstat. rewrite Hs1. cbn [bind_post]. do 3 wp_step. cbn [ok_or bind_post].
  rewrite Htype. do 2 wp_step.
  apply wp_query_followed; [done|]. intros fs2 [[_ Hs2]|[Hlate _]] F2; [|simpl in Hlate; lia].
  unfold k_open_nofollow. rewrite Hs2. pose proof (final_type_file _ Htype) as [-> _].
  cbn [bind_post]. wp_step. cbn [bind_post result_map_err]. do 2 wp_step. cbn [f_inode].
  apply wp_sample; [done| |].
  2: { intros j w' Hj. cbn [result_map_err bind_post]. unfold reject_type. rewrite Hj. do 2 wp_step. by left. }
  intros fs3 _ _ F3. cbn [result_map_err bind_post]. unfold reject_type, guard_err.
  rewrite Htype. do 2 wp_step. cbn [md_size metadata_of]. rewrite (proj2 (Z.ltb_ge _ _) Hsize).
  do 4 wp_step. eapply wp_mono; [by apply (wp_read_file v followed); [apply followed_meets_file|..]|].
  intros ? w4 (F4 & acc & -> & Hacc). cbn [result_map_err bind_post].
  rewrite (proj2 (Z.ltb_ge _ _) Hacc). do 3 wp_step.
  unfold run_hook, wp at 1, id. cbn [fst snd bind_post]. do 2 wp_step.
  apply wp_sample; [done| |].
  2: { intros j w' Hj. cbn [result_map_err bind_post]. rewrite Hj. do 2 wp_step. by left. }
  intros fs5 Hlt _ _. cbn [result_map_err bind_post]. rewrite Htype. do 2 wp_step.
  rewrite metadata_equal_refl. wp_step.
  destruct (negb (valid_utf8 acc)); [wp_step|do 2 wp_step]; right; (split; [simpl; lia|done]).
Qed.
End replaced.

(** C31: a file that is replaced while it is being read is refused, not read again. Let
    another process replace the file by [rename] at any moment after it was opened and
    before the run is over, so that it loses its last name. Then the read ends with the
    error for hard links, whatever the file is replaced with and whatever else happens. *)
Theorem replaced_file_reads_as_hardlink `{!Kernel, !Faultless} path v i k w :
  lookup_path (w_fs w) path = Some (v, i) → final_type (metadata_of i) = None → size_of i ≤ MAX_READ_BYTES →
  replaced_at path v i k → (w_step w + 1 < k < w_step (read_with_revision path w).2)%nat →
  (read_with_revision path w).1 = Err (UnsupportedFinalType "hardlink").
Proof.
  intros Hw Htype Hsize Hk [Hopened Hrun].
  assert (wp (read_with_revision path) (λ r w', r = Err (UnsupportedFinalType "hardlink") ∨ (w_step w' ≤ k)%nat) w)
    as [Hr|Hr]; [|exact Hr|lia].
  unfold read_with_revision, read_with_revision_hook, READ_ATTEMPTS. cbn [read_attempts]. wp_step.
  eapply wp_mono; [by apply (read_attempt_replaced path v i k)|].
  intros r w' [->|[Hle Hr]]; [by left|]. destruct r as [[rd|]|e]; [|done|]; cbn [bind_post]; [wp_step|]; by right.
Qed.

(** Replaced before the first sample. *)
Definition replacing : Kernel := busy 3 (replaces note "new").
#[export] Instance replacing_faultless : Faultless (H := replacing).
Proof. done. Qed.

Lemma replaces_orphans fs v i : lookup_path fs note = Some (v, i) → orphan v i (replaces note "new" fs).
Proof.
  intros Hl. unfold replaces. rewrite Hl. apply lookup_path_inode in Hl as [_ Hi].
  pose proof (fresh_slot fs) as Hfresh. exists (set_nlink ((i_ctime i).1 + 1, 0) 0 i). cbn [inodes].
  rewrite lookup_insert_ne by congruence. by rewrite lookup_insert_eq.
Qed.

Lemma replacing_replaces v i : replaced_at (H := replacing) note v i 3.
Proof.
  split; cbn [env replacing busy scripted]; unfold at_call.
  - intros n fs Hn Hs. by rewrite decide_False by lia.
  - intros fs Hs. rewrite decide_True by done. by apply replaces_orphans.
  - intros n fs Hn Ho. by rewrite decide_False by lia.
Qed.

Lemma replaced_file_reads_as_hardlink_witness :
  (read_with_revision (H := replacing) note sample).1 = Err (UnsupportedFinalType "hardlink") ∧
  content (w_fs (read_with_revision (H := replacing) note sample).2) note = Some (ascii_bytes "new").
Proof.
  split; [|vm_compute; reflexivity].
  apply (replaced_file_reads_as_hardlink (H := replacing) note 1 (note_inode "base") 3); [reflexivity|reflexivity| | |].
  - unfold size_of, MAX_READ_BYTES. simpl. lia.
  - apply replacing_replaces.
  - vm_compute. lia.
Defined.
