(* ===== verification/WritePath.v ===== *)
(** * [revisions/write.rs]: conditional atomic replacement

    [conditional_write]: check the expected revision, write a temporary file in
    the same directory, check again, publish by [rename] (a present file) or by
    [link] (a missing one), and verify what was published. *)
From S2P Require Import Prelude MachineInt Text Json Kernel Sha256 RevisionTypes ReadPath.
Local Open Scope string_scope.
Local Open Scope Z_scope.

(** ** [PendingTemp] *)

Record PendingTemp := mkPendingTemp { temp_path : Path; active : bool }.

Section write.
Context `{Kernel}.

(** [format!(".relay-tmp-{}-{serial}", std::process::id())] *)
Definition temp_name (serial : Z) : string :=
  ".relay-tmp-" +:+ pretty process_id +:+ "-" +:+ pretty serial.

(** [NEXT_TEMP.fetch_add(1, Ordering::Relaxed)] *)
Definition fetch_add_temp {E} : IO E Z := λ w,
  (Ok (w_temp w), mkWorld (w_fs w) (w_step w) ((w_temp w + 1) mod 2 ^ 64) (w_log w)).

(** The rest of the [for _ in 0..100] loop, [n] rounds from its end. *)
Fixpoint new_temp (n : nat) (directory : Path) : IO RevisionError (PendingTemp * File) :=
  match n with
  | O => throw (Io "write(temp): exhausted unique temporary names")
  | S n =>
      serial ← fetch_add_temp;
      let path := join directory (temp_name serial) in
      r ← attempt (create_new path);
      match r with
      | Ok file => mret (mkPendingTemp path true, file)
      | Err e => if decide (error_kind e = AlreadyExists) then new_temp n directory
                 else throw (io_error "write(temp)" e)
      end
  end.
Definition pending_temp_new (directory : Path) : IO RevisionError (PendingTemp * File) :=
  new_temp 100 directory.

Definition keep_after_rename (p : PendingTemp) : PendingTemp :=
  mkPendingTemp (temp_path p) false.

(** [impl Drop for PendingTemp] *)
Definition drop_pending (p : PendingTemp) (w : World) : World :=
  if active p then (remove_file (temp_path p) w).2 else w.

(** ** Steps of the write *)

Definition preserve_metadata (temp : File) (original : option Metadata) :
    IO RevisionError unit :=
  match original with
  | None => mret tt
  | Some md =>
      io "write(set ownership)" (fchown temp (md_uid md) (md_gid md));;
      io "write(set mode)" (set_permissions temp (Z.land (md_mode md) PERMISSIONS))
  end.

Definition missing_appearance_conflict (path : Path) (md : Metadata) :
    IO RevisionError RevisionError :=
  match final_type md with
  | Some kind =>
      mret (if decide (kind = "hardlink") then UnsupportedFinalType kind
            else Conflict TypeChanged None)
  | None =>
      current ← read_with_revision path;
      mret (Conflict Appeared (Some (read_revision current)))
  end.

Definition conflict_for_existing (expected : ExpectedRevision) (path : Path) :
    IO RevisionError unit :=
  match expected with
  | ExpMissing =>
      found ← checked_lstat path;
      match found with
      | None => mret tt
      | Some md => e ← missing_appearance_conflict path md; throw e
      end
  | ExpPresent expected_revision =>
      guard_err (negb (is_valid_file_revision expected_revision))
        (Io "write: invalid expected revision");;
      found ← checked_lstat path;
      match found with
      | None => throw (Conflict Deleted None)
      | Some md =>
          match final_type md with
          | Some kind =>
              throw (if decide (kind = "hardlink") then UnsupportedFinalType kind
                     else Conflict TypeChanged None)
          | None =>
              current ← read_with_revision path;
              if decide (read_revision current = expected_revision) then mret tt
              else throw (Conflict Changed (Some (read_revision current)))
          end
      end
  end.

(** [match expected { .. }]: the one call that makes the bytes visible. *)
Definition publish (temp : Path) (path : Path) (expected : ExpectedRevision) :
    stm (World * PendingTemp) RevisionError unit :=
  match expected with
  | ExpPresent _ =>
      global (io "write(rename)" (rename temp path));;
      local keep_after_rename
  | ExpMissing =>
      r ← global (attempt (hard_link temp path));
      match r with
      | Ok _ =>
          global (io "write(publish cleanup)" (remove_file temp));;
          local keep_after_rename
      | Err e =>
          if decide (error_kind e = AlreadyExists) then
            found ← global (checked_lstat path);
            md ← global (lift_result (ok_or
              (Io "write(publish): destination disappeared after collision") found));
            conflict ← global (missing_appearance_conflict path md);
            throw conflict
          else throw (io_error "write(publish missing)" e)
      end
  end.

(** From the filled temporary file to the verified publication. *)
Definition replace (pending : PendingTemp) (temp : File) (path : Path) (bytes : list byte)
    (expected : ExpectedRevision) (original : option Metadata)
    (before_publish after_publish : World → World) :
    stm (World * PendingTemp) RevisionError ConditionalWrite :=
  global (preserve_metadata temp original);;
  global (io "write(temp)" (write_all temp bytes));;
  global (io "write(sync)" (sync_all temp));;
  global (conflict_for_existing expected path);;
  global (run_hook before_publish);;
  publish (temp_path pending) path expected;;
  global (run_hook after_publish);;
  published ← global (read_with_revision path);
  if decide (read_bytes published = bytes) then
    mret (mkConditionalWrite (read_revision published))
  else throw (Conflict Changed (Some (read_revision published))).

Definition conditional_write_locked_with_hooks (path : Path) (bytes : list byte)
    (expected : ExpectedRevision) (before_publish after_publish : World → World) :
    IO RevisionError ConditionalWrite :=
  guard_err (MAX_READ_BYTES <? Z.of_nat (length bytes)) TooLarge;;
  guard_err (negb (valid_utf8 bytes)) UnsupportedEncoding;;
  conflict_for_existing expected path;;
  original ← checked_lstat path;
  let directory := default (path_new ".") (parent path) in
  created ← pending_temp_new directory;
  let '(pending, temp) := created in
  scope drop_pending pending
    (replace pending temp path bytes expected original before_publish after_publish).

Definition conditional_write_locked (path : Path) (bytes : list byte)
    (expected : ExpectedRevision) : IO RevisionError ConditionalWrite :=
  conditional_write_locked_with_hooks path bytes expected id id.
End write.

(** ** The checks only look *)
Section looking.
Context `{Kernel} (R : World → World → Prop) `{!PreOrder R, !LookKeeps R}.

Lemma look_missing_appearance_conflict path md :
  preserves R (missing_appearance_conflict path md).
Proof. unfold missing_appearance_conflict. preserves_tac. Qed.
Hint Resolve look_missing_appearance_conflict : preserves.

Lemma look_conflict_for_existing expected path :
  preserves R (conflict_for_existing expected path).
Proof. unfold conflict_for_existing, guard_err. preserves_tac. Qed.

Lemma look_sync_all f : preserves R (sync_all f).
Proof. unfold sync_all. preserves_tac. Qed.
End looking.

#[export] Hint Extern 1 (preserves _ (missing_appearance_conflict _ _)) =>
  apply look_missing_appearance_conflict; exact _ : preserves.
#[export] Hint Extern 1 (preserves _ (conflict_for_existing _ _)) =>
  apply look_conflict_for_existing; exact _ : preserves.
#[export] Hint Extern 1 (preserves _ (sync_all _)) =>
  apply look_sync_all; exact _ : preserves.

(** ** Code inside the scope of the temporary file *)

(** [R] for the world; the temporary file keeps its name. *)
Definition scoped (R : World → World → Prop) (wl wl' : World * PendingTemp) : Prop :=
  R wl.1 wl'.1 ∧ temp_path wl'.2 = temp_path wl.2.

#[export] Instance scoped_preorder R : PreOrder R → PreOrder (scoped R).
Proof.
  intros HR. split; [by intros [w p]; split|].
  intros x y z [R1 T1] [R2 T2]. split; [by etrans|congruence].
Qed.

Lemma preserves_scoped_global {E A} R (m : stm World E A) :
  preserves R m → preserves (scoped R) (global m).
Proof. intros Hm [w p]. specialize (Hm w). unfold global. simpl. by destruct (m w). Qed.

Lemma preserves_scoped_keep {E} (R : World → World → Prop) `{!Reflexive R} :
  preserves (scoped R) (local keep_after_rename : stm _ E unit).
Proof. by intros [w p]. Qed.
#[export] Hint Resolve preserves_scoped_keep : preserves.

(** The scope as a whole moves along [R], its destructor included. *)
Lemma preserves_scope {E A} `{Kernel} R `{!PreOrder R} (p : PendingTemp)
    (body : stm (World * PendingTemp) E A) :
  preserves (scoped R) body →
  (∀ p' w, temp_path p' = temp_path p → R w (drop_pending p' w)) →
  preserves R (scope drop_pending p body).
Proof.
  intros Hbody Hdrop w. unfold scope. specialize (Hbody (w, p)).
  destruct (body (w, p)) as [r [w' p']]. destruct Hbody as [HR Hp]. simpl in *.
  etrans; [exact HR|]. by apply Hdrop.
Qed.

(** Publishing, and the whole scope, move along any relation that their calls
    move along. *)
Section publishing.
Context `{Kernel} (R : World → World → Prop) `{!PreOrder R, !LookKeeps R}.
Context (temp path : Path) (expected : ExpectedRevision).
Context (Hrename : expected ≠ ExpMissing → preserves R (rename temp path)).
Context (Hlink : preserves R (hard_link temp path)).
Context (Hremove : preserves R (remove_file temp)).

Lemma scoped_publish : preserves (scoped R) (publish temp path expected).
Proof.
  unfold publish, io. destruct expected as [r|].
  - apply preserves_bind; [exact _| |intros; apply preserves_scoped_keep, _].
    by apply preserves_scoped_global, preserves_map_err, Hrename.
  - apply preserves_bind; [exact _|by apply preserves_scoped_global, preserves_attempt|].
    intros [_|e].
    + apply preserves_bind; [exact _| |intros; apply preserves_scoped_keep, _].
      by apply preserves_scoped_global, preserves_map_err.
    + destruct (decide _); [|apply preserves_throw, _].
      repeat (apply preserves_bind; [exact _|apply preserves_scoped_global; preserves_tac|intros]).
      apply preserves_throw, _.
Qed.

Context (file : File) (bytes : list byte) (original : option Metadata).
Context (Hmeta : preserves R (preserve_metadata file original)).
Context (Hwrite : preserves R (write_all file bytes)).

Lemma scoped_replace pending :
  temp_path pending = temp →
  preserves (scoped R) (replace pending file path bytes expected original id id).
Proof.
  intros Htemp. unfold replace, io. rewrite Htemp.
  repeat (apply preserves_bind; [exact _| |intros]).
  all: try (apply preserves_scoped_global; preserves_tac).
  - apply scoped_publish.
  - destruct (decide _); [apply preserves_ret, _|apply preserves_throw, _].
Qed.
End publishing.
