(* ===== verification/WriteSafety.v ===== *)
(** * [revisions/write.rs] among other processes

    What a conditional write guarantees whatever the rest of the host does
    between its calls and whichever calls fail: which names and which bytes its
    own calls may touch, and what a returned success says. *)
From S2P Require Import Prelude MachineInt Text Json Kernel Sha256 RevisionTypes ReadPath.
From S2P Require Import WritePath Reference.
Local Open Scope string_scope.
Local Open Scope Z_scope.

(** ** What single calls keep

    [keeps prot old]: a call leaves the bindings of the protected names and the
    bytes of the [old] inodes alone. *)
Section keeps.
Context `{Kernel} (prot : Path → Prop) (old : nat → Prop).

Definition keeps (fs fs' : FS) : Prop :=
  (∀ p v, prot p → names fs !! p = Some v → names fs' !! p = Some v) ∧
  (∀ v, old v → i_data <$> inodes fs' !! v = i_data <$> inodes fs !! v) ∧
  dom (inodes fs) ⊆ dom (inodes fs').

#[export] Instance keeps_preorder : PreOrder keeps.
Proof.
  split; [done|]. intros f g h (N1 & D1 & S1) (N2 & D2 & S2).
  split_and!; [eauto| |set_solver]. intros v Hv. by rewrite D2, D1.
Qed.

Lemma keeps_names n fs :
  (∀ p v, prot p → names fs !! p = Some v → n !! p = Some v) → keeps fs (set_names n fs).
Proof. intros Hn. by split_and!. Qed.

(** Replacing an inode by one with the same bytes, or a new inode. *)
Lemma keeps_set_inode v i' fs :
  (old v → ∃ i, inodes fs !! v = Some i ∧ i_data i' = i_data i) →
  keeps fs (set_inode v i' fs).
Proof.
  intros Hv. split_and!; [done| |simpl; set_solver].
  intros u Hu. simpl. destruct (decide (u = v)) as [->|Hne]; [|by rewrite lookup_insert_ne].
  destruct (Hv Hu) as (i & Hi & Hd). rewrite lookup_insert_eq, Hi. simpl. by rewrite Hd.
Qed.

Lemma keeps_add_link d v fs : keeps fs (add_link d v fs).
Proof.
  unfold add_link. destruct (inodes fs !! v) as [i|] eqn:Hi; [|done].
  apply keeps_set_inode. eauto.
Qed.

Lemma keeps_create p fs :
  (∀ v, old v → v ∈ dom (inodes fs)) → keeps fs (k_create_new p fs).2.
Proof.
  intros Hold. unfold k_create_new. destruct (names fs !! p) eqn:Hp; [done|].
  destruct (dir_ok fs p); [|done]. cbn [snd].
  pose proof (is_fresh (dom (inodes fs))) as Hfresh. set (v := fresh _) in *.
  etrans; [apply (keeps_set_inode v (new_inode fs)); intros Hv; set_solver|].
  apply keeps_names. intros q u _ Hq. simpl in *. rewrite lookup_insert_ne; [done|].
  intros ->. congruence.
Qed.

Lemma keeps_write n v off bs fs : ¬ old v → keeps fs (k_write n v off bs fs).2.
Proof.
  intros Hv. unfold k_write. destruct (inodes fs !! v); [|done].
  by apply keeps_set_inode.
Qed.

Lemma keeps_fchown v u g fs : keeps fs (k_fchown v u g fs).2.
Proof.
  unfold k_fchown. destruct (inodes fs !! v) eqn:Hv; [|done].
  destruct (_ || _); [|done]. apply keeps_set_inode. eauto.
Qed.

Lemma keeps_fchmod v m fs : keeps fs (k_fchmod v m fs).2.
Proof.
  unfold k_fchmod. destruct (inodes fs !! v) eqn:Hv; [|done]. apply keeps_set_inode. eauto.
Qed.

Lemma keeps_unlink p fs : ¬ prot p → keeps fs (k_unlink p fs).2.
Proof.
  intros Hp. unfold k_unlink. destruct (lookup_path fs p) as [[v i]|]; [|done].
  destruct (inode_is_dir i); [done|]. etrans; [|apply keeps_add_link].
  apply keeps_names. intros q u Hq Hu. rewrite lookup_delete_ne; [done|]. by intros ->.
Qed.

(** [link] cannot replace, so no name is in danger. *)
Lemma keeps_link p q fs : keeps fs (k_link p q fs).2.
Proof.
  unfold k_link. destruct (lookup_path fs p) as [[v i]|]; [|done].
  destruct (names fs !! q) eqn:Hq; [done|]. destruct (inode_is_dir i); [done|].
  destruct (dir_ok fs q); [|done]. etrans; [|apply keeps_add_link].
  apply keeps_names. intros r u _ Hr. rewrite lookup_insert_ne; [done|].
  intros ->. congruence.
Qed.

Lemma keeps_rename p q fs : (∀ r, ¬ prot r) → keeps fs (k_rename p q fs).2.
Proof.
  intros Hp. unfold k_rename. destruct (lookup_path fs p) as [[v i]|]; [|done].
  destruct (negb _); [done|]. destruct (lookup_path fs q) as [[v' i']|].
  - repeat case_match; try done. do 2 (etrans; [|apply keeps_add_link]).
    apply keeps_names. intros r u Hr. by destruct (Hp r).
  - etrans; [|apply keeps_add_link]. apply keeps_names. intros r u Hr. by destruct (Hp r).
Qed.
End keeps.

(** ** Code whose calls all keep *)

Section safe.
Context `{!Kernel, !Honest} (prot : Path → Prop) (old : nat → Prop).

Definition in_use (fs : FS) : Prop := ∀ v, old v → v ∈ dom (inodes fs).

Definition safe (w w' : World) : Prop :=
  in_use (w_fs w) → in_use (w_fs w') ∧ log_extends (keeps prot old) w w'.

#[export] Instance safe_preorder : PreOrder safe.
Proof.
  split; [by intros w Hw|]. intros w1 w2 w3 H1 H2 Hw.
  destruct (H1 Hw) as [Hw2 L1]. destruct (H2 Hw2) as [Hw3 L2]. split; [done|by etrans].
Qed.

Lemma env_keeps_slots n fs : dom (inodes fs) ⊆ dom (inodes (env n fs)).
Proof.
  intros v Hv. apply elem_of_dom in Hv as [i Hi].
  destruct (honest n fs v i Hi) as (i' & Hi' & _). by apply elem_of_dom.
Qed.

Lemma safe_syscall {A} (call : nat → FS → result A IoError * FS) :
  (∀ n fs, (∀ v, old v → v ∈ dom (inodes fs)) → keeps prot old fs (call n fs).2) →
  preserves safe (syscall call).
Proof.
  intros Hcall w Hw.
  assert (in_use (met w)) as Hmet by (intros v Hv; by apply env_keeps_slots, Hw).
  unfold syscall. destruct (fault (w_step w)) as [e|].
  - split; [done|]. exists [(met w, met w)]. split; [done|]. by repeat constructor.
  - specialize (Hcall (w_step w) (met w) Hmet). unfold met in *.
    destruct (call _ _) as [r fs']. simpl in *. split.
    + destruct Hcall as (_ & _ & Hdom). intros v Hv. by apply Hdom, Hmet.
    + eexists [_]. split; [done|]. repeat constructor; by apply Hcall.
Qed.

#[export] Instance look_safe : LookKeeps safe.
Proof. intros A look. by apply safe_syscall. Qed.

Lemma safe_write_all f bytes : ¬ old (f_inode f) → preserves safe (write_all f bytes).
Proof.
  intros Hf. apply preserves_bind; [exact _| |intros; apply preserves_ret, _].
  apply preserves_mloop; [exact _|]. intros [pos [|b todo]]; unfold write_round.
  - apply preserves_ret, _.
  - apply preserves_bind; [exact _| |intros; apply preserves_ret, _].
    apply safe_syscall. intros. by apply keeps_write.
Qed.
Hint Resolve safe_write_all : preserves.

Lemma safe_preserve_metadata f md : preserves safe (preserve_metadata f md).
Proof.
  unfold preserve_metadata, io, fchown, set_permissions.
  pose proof (safe_syscall (A := unit)) as Hs.
  destruct md as [md|]; [|apply preserves_ret, _].
  apply preserves_bind; [exact _| |intros _]; apply preserves_map_err, Hs; intros;
    [apply keeps_fchown|apply keeps_fchmod].
Qed.
Hint Resolve safe_preserve_metadata : preserves.
End safe.

(** ** The whole write *)

(** A name that [PendingTemp::new] may make up. *)
Definition temporary `{Kernel} (p : Path) : Prop := ∃ d serial, p = join d (temp_name serial).

(** A decidable sufficient condition for a name not to be one of them. *)
Definition ordinary (p : Path) : bool :=
  match last (comps p) with
  | Some name => negb (String.prefix ".relay-tmp-" name)
  | None => true
  end.

Lemma ordinary_not_temporary `{Kernel} p : ordinary p = true → ¬ temporary p.
Proof.
  intros Hp (d & serial & ->). unfold ordinary, join in Hp. cbn [comps] in Hp.
  rewrite last_snoc in Hp. unfold temp_name in Hp.
  by rewrite prefix_append in Hp.
Qed.

Section whole.
Context `{!Kernel, !Honest} (prot : Path → Prop) (old : nat → Prop).
Context (Hprot : ∀ p, prot p → ¬ temporary p).
Hint Resolve safe_write_all safe_preserve_metadata : preserves.

Lemma wp_new_temp n dir w :
  in_use old (w_fs w) →
  wp (new_temp n dir) (λ r w', safe prot old w w' ∧ ∀ p f, r = Ok (p, f) →
    temporary (temp_path p) ∧ ¬ old (f_inode f)) w.
Proof.
  revert w. induction n as [|n IH]; intros w Hw; simpl; [by wp_step; split|].
  wp_step. unfold fetch_add_temp at 1, wp at 1. cbn [fst snd bind_post].
  set (w1 := mkWorld _ _ _ _).
  assert (safe prot old w w1) as H1 by (intros _; split; [done|by exists []; rewrite app_nil_r]).
  set (path := join dir _). do 2 wp_step.
  eapply (wp_mono _ (λ r w2, safe prot old w1 w2 ∧ ∀ f, r = Ok f → ¬ old (f_inode f))).
  { apply wp_and.
    { apply wp_preserves. unfold create_new. apply preserves_bind; [exact _| |].
      { apply safe_syscall. intros. by apply keeps_create. }
      intros. apply preserves_ret, _. }
    unfold create_new. wp_step. apply wp_syscall; [done|]. intros _.
    unfold k_create_new. destruct (names _ !! path); [done|].
    destruct (dir_ok _ _); [|done]. cbn [fst bind_post]. wp_step. intros f [= <-].
    cbn [f_inode]. pose proof (is_fresh (dom (inodes (met w1)))) as Hfresh.
    pose proof (env_keeps_slots (w_step w1) (w_fs w1)) as Hslots. unfold met in *.
    cbn [w1 w_fs w_step] in *. intros Hv. by apply Hfresh, Hslots, Hw. }
  intros [f|e] w2 [H2 Hf]; cbn [bind_post].
  - wp_step. split; [by etrans|]. intros p f' [= <- <-]. simpl. split; [by do 2 eexists|auto].
  - destruct (decide _); [|wp_step; split; [by etrans|done]].
    eapply wp_mono; [apply IH; by apply H2|]. intros r w3 [H3 Hr]. split; [|done].
    by do 2 (etrans; [eassumption|]).
Qed.

(** Publishing by [rename] replaces a name; publishing by [link] does not. *)
Context (expected : ExpectedRevision).
Context (Hexpected : expected ≠ ExpMissing → ∀ p, ¬ prot p).

Lemma safe_replace pending temp path bytes original :
  temporary (temp_path pending) → ¬ old (f_inode temp) →
  preserves (scoped (safe prot old)) (replace pending temp path bytes expected original id id).
Proof.
  intros Htemp Hf. apply (scoped_replace _ (temp_path pending)); [..|done].
  - intros Hp. apply safe_syscall. intros. apply keeps_rename. by apply Hexpected.
  - apply safe_syscall. intros. apply keeps_link.
  - apply safe_syscall. intros. apply keeps_unlink. intros Hp.
    by apply (Hprot (temp_path pending)).
  - by apply safe_preserve_metadata.
  - by apply safe_write_all.
Qed.

Lemma safe_drop p w : temporary (temp_path p) → safe prot old w (drop_pending p w).
Proof.
  intros Hp. unfold drop_pending. destruct (active p); [|done].
  apply (safe_syscall prot old). intros. apply keeps_unlink. intros Hq.
  by apply (Hprot (temp_path p)).
Qed.

Lemma safe_conditional_write path bytes w :
  in_use old (w_fs w) →
  safe prot old w (conditional_write_locked path bytes expected w).2.
Proof.
  intros Hw. enough (wp (conditional_write_locked path bytes expected)
    (λ _ w', safe prot old w w') w) as Hwp by exact Hwp.
  unfold conditional_write_locked, conditional_write_locked_with_hooks, guard_err.
  wp_step. destruct (_ <? _); wp_step; [done|]. wp_step.
  destruct (negb _); wp_step; [done|]. wp_step.
  eapply wp_mono; [apply (wp_preserves (safe prot old)); preserves_tac|].
  intros [u|e] w1 H1; cbn [bind_post]; [|done]. wp_step.
  eapply wp_mono; [apply (wp_preserves (safe prot old)); preserves_tac|].
  intros [original|e] w2 H2; cbn [bind_post]; [|by etrans]. cbn zeta. wp_step.
  assert (safe prot old w w2) as H02 by (by etrans).
  eapply wp_mono; [by apply wp_new_temp, H02|].
  intros [[pending temp]|e] w3 [H3 Htemp]; cbn [bind_post]; [|by etrans].
  destruct (Htemp _ _ eq_refl) as [Hname Hfresh].
  eapply wp_mono; [apply (wp_preserves (safe prot old)), preserves_scope; [exact _| |]|].
  - by apply safe_replace.
  - intros p' w' Hp. apply safe_drop. by rewrite Hp.
  - intros r w4 H4. etrans; [exact H02|by etrans].
Qed.
End whole.

(** ** What a success says *)

Definition revision_of (i : Inode) : Revision :=
  from_metadata (metadata_of i) (sha256 (i_data i)).

(** Between [w] and [w'] the file at [path] was seen to be as expected. *)
Definition expected_seen (path : Path) (expected : ExpectedRevision) (w w' : World) : Prop :=
  match expected with
  | ExpPresent revision => ∃ v i,
      passed w w' (λ fs, names fs !! path = Some v) ∧
      passed w w' (λ fs, inodes fs !! v = Some i) ∧ revision_of i = revision
  | ExpMissing => passed w w' (λ fs, lookup_path fs path = None)
  end.

Lemma expected_seen_later path expected w w1 w2 :
  expected_seen path expected w w1 → grows w1 w2 → expected_seen path expected w w2.
Proof.
  intros He Hg. destruct expected as [rev|]; simpl in *; [|by eapply passed_later].
  destruct He as (v & i & Hn & Hi & Hrev). exists v, i. split_and!; [by eapply passed_later..|done].
Qed.

Lemma log_extends_weaken (I J : FS → FS → Prop) w w' :
  (∀ fs fs', I fs fs' → J fs fs') → log_extends I w w' → log_extends J w w'.
Proof.
  intros HIJ (l & Hl & HI). exists l. split; [done|]. by eapply Forall_impl; [|intros; apply HIJ].
Qed.

Section success.
Context `{!Kernel, !Honest}.

Lemma wp_checked_lstat_none path w :
  wp (checked_lstat path) (λ r w', r = Ok None →
    passed w w' (λ fs, lookup_path fs path = None)) w.
Proof.
  unfold checked_lstat, symlink_metadata. do 2 wp_step. apply wp_syscall; cbn [fst snd bind_post].
  - intros text _. rewrite decide_False by done. by wp_step.
  - intros _. unfold k_lstat. destruct (lookup_path (met w) path) as [[v i]|] eqn:Hl;
      cbn [bind_post]; [by wp_step|].
    rewrite decide_True by done. wp_step. intros _. by apply passed_call.
Qed.

Lemma wp_conflict_for_existing expected path w :
  wp (conflict_for_existing expected path) (λ r w',
    is_ok r = true → expected_seen path expected w w') w.
Proof.
  unfold conflict_for_existing. destruct expected as [rev|].
  2: { wp_step. eapply wp_mono; [apply wp_checked_lstat_none|].
    intros [[md|]|e] w1 H1; cbn [bind_post]; [|wp_step; intros _; by apply H1|done].
    wp_step. apply (wp_mono _ (λ _ _, True)); [done|].
    intros [e|e] w2 _; cbn [bind_post]; by try wp_step. }
  wp_step. apply wp_guard_err; [|done]. intros _. cbn [bind_post]. wp_step.
  eapply wp_mono; [apply (wp_preserves grows); preserves_tac|].
  intros [[md|]|e] w1 Hg; cbn [bind_post]; [|by wp_step|done].
  destruct (final_type md); [by wp_step|]. wp_step.
  eapply wp_mono; [apply wp_read_with_revision|].
  intros [rd|e] w2 H2; cbn [bind_post]; [|done].
  destruct (decide _) as [Hrev|]; wp_step; [intros _|done].
  destruct (picture_earlier _ _ _ _ _ Hg (H2 rd eq_refl)) as (v & i & Hn & Hi & _ & -> & _).
  simpl in *. eauto.
Qed.

(** The calls after the last byte was written. *)
Abbreviation settled := (log_extends (keeps (λ _, False) (λ _, True))).

Lemma settled_publish temp path expected :
  preserves (scoped settled) (publish temp path expected).
Proof.
  apply (scoped_publish settled).
  - intros _. apply logs_syscall; [done|]. intros. apply keeps_rename. by intros r [].
  - apply logs_syscall; [done|]. intros. apply keeps_link.
  - apply logs_syscall; [done|]. intros. apply keeps_unlink. by intros [].
Qed.

(** A successful publication leaves nothing to the destructor. *)
Lemma wp_publish_inactive temp path expected w p :
  wp (publish temp path expected) (λ r wl, is_ok r = true → active wl.2 = false) (w, p).
Proof.
  unfold publish. destruct expected as [rev|].
  - wp_step. apply (wp_mono _ (λ _ _, True)); [done|].
    intros [u|e] [w1 p1] _; cbn [bind_post]; [by wp_step|done].
  - wp_step. apply (wp_mono _ (λ _ _, True)); [done|].
    intros [[u|e]|e] [w1 p1] _; cbn [bind_post]; [| |done].
    + wp_step. apply (wp_mono _ (λ _ _, True)); [done|].
      intros [u'|e] [w2 p2] _; cbn [bind_post]; [by wp_step|done].
    + destruct (decide _); [|by wp_step]. wp_step. apply (wp_mono _ (λ _ _, True)); [done|].
      intros [md|e'] [w2 p2] _; cbn [bind_post]; [|done]. wp_step.
      apply (wp_mono _ (λ _ _, True)); [done|].
      intros [md'|e'] [w3 p3] _; cbn [bind_post]; [|done]. wp_step.
      apply (wp_mono _ (λ _ _, True)); [done|].
      intros [c|e'] [w4 p4] _; cbn [bind_post]; [by wp_step|done].
Qed.

Lemma grows_write_all f bytes : preserves grows (write_all f bytes).
Proof.
  apply preserves_bind; [exact _| |intros; apply preserves_ret, _].
  apply preserves_mloop; [exact _|]. intros [pos [|b todo]]; unfold write_round;
    [apply preserves_ret, _|].
  apply preserves_bind; [exact _|by apply logs_syscall|intros; apply preserves_ret, _].
Qed.

Lemma grows_preserve_metadata f md : preserves grows (preserve_metadata f md).
Proof.
  unfold preserve_metadata, io, fchown, set_permissions.
  destruct md as [md|]; [|apply preserves_ret, _].
  apply preserves_bind; [exact _| |intros _]; by apply preserves_map_err, logs_syscall.
Qed.

Lemma grows_new_temp n dir : preserves grows (new_temp n dir).
Proof.
  induction n as [|n IH]; simpl; [apply preserves_throw, _|].
  apply preserves_bind; [exact _|intros w; exists []; by rewrite app_nil_r|]. intros serial.
  apply preserves_bind; [exact _| |].
  { unfold create_new. apply preserves_attempt, preserves_bind; [exact _| |].
    - by apply logs_syscall.
    - intros. apply preserves_ret, _. }
  intros [f|e]; [apply preserves_ret, _|].
  destruct (decide _); [exact IH|apply preserves_throw, _].
Qed.

Lemma settled_grows w w' : settled w w' → grows w w'.
Proof. by apply log_extends_weaken. Qed.

(** The report of a successful run of the write from [w] to [w']. *)
Definition success (path : Path) (bytes : list byte) (expected : ExpectedRevision)
    (w : World) (cw : ConditionalWrite) (w' : World) : Prop :=
  ∃ w1 rd, grows w w1 ∧ settled w1 w' ∧ expected_seen path expected w1 w' ∧
    picture path w rd w' ∧ read_bytes rd = bytes ∧ read_revision rd = saved_revision cw.

Lemma success_earlier path bytes expected w w0 cw w' :
  grows w w0 → success path bytes expected w0 cw w' → success path bytes expected w cw w'.
Proof.
  intros Hg (w1 & rd & Hg1 & Hs & He & Hp & Hb). exists w1, rd.
  split_and!; try done; [by etrans|by eapply picture_earlier|apply Hb..].
Qed.

Lemma wp_replace_success pending file path bytes expected original w :
  wp (replace pending file path bytes expected original id id)
     (λ r wl, ∀ cw, r = Ok cw → active wl.2 = false ∧ success path bytes expected w cw wl.1)
     (w, pending).
Proof.
  unfold replace, io. wp_step. wp_step.
  eapply wp_mono; [apply (wp_preserves grows), grows_preserve_metadata|].
  intros [u|e] w1 G1; cbn [bind_post]; [|done]. do 3 wp_step.
  eapply wp_mono; [apply (wp_preserves grows), grows_write_all|].
  intros [u1|e] w2 G2; cbn [bind_post result_map_err]; [|done]. do 3 wp_step.
  eapply wp_mono; [apply (wp_preserves grows), look_sync_all; exact _|].
  intros [u2|e] w3 G3; cbn [bind_post result_map_err]; [|done]. do 2 wp_step.
  eapply wp_mono.
  { apply wp_and; [apply wp_conflict_for_existing|].
    apply (wp_preserves settled), look_conflict_for_existing; exact _. }
  intros [u3|e] w4 [Hseen S4]; cbn [bind_post]; [|done]. specialize (Hseen eq_refl).
  wp_step. unfold global at 1, run_hook at 1, wp at 1, id. cbn [fst snd bind_post]. wp_step.
  eapply wp_mono.
  { apply wp_and; [apply wp_publish_inactive|].
    apply (wp_preserves (scoped settled)), settled_publish. }
  intros [u4|e] [w5 p5] [Hact [S5 _]]; cbn [bind_post]; [|done].
  specialize (Hact eq_refl). cbn [fst snd] in *.
  wp_step. unfold global at 1, run_hook at 1, wp at 1, id. cbn [fst snd bind_post]. do 2 wp_step.
  eapply wp_mono.
  { apply wp_and; [apply wp_read_with_revision|].
    apply (wp_preserves settled), look_read_with_revision; exact _. }
  intros [rd|e] w6 [Hrd S6]; cbn [bind_post]; [|done]. specialize (Hrd rd eq_refl).
  destruct (decide _) as [Hbytes|]; wp_step; [|done]. intros cw [= <-]. split; [done|].
  assert (grows w w3) as G03 by (etrans; [exact G1|]; by etrans).
  assert (settled w4 w6) as S46 by (by etrans).
  exists w3, rd. split_and!; [done|by etrans| | |done|done].
  - eapply expected_seen_later; [exact Hseen|by apply settled_grows].
  - eapply picture_earlier; [|exact Hrd]. etrans; [exact G03|].
    apply settled_grows. by etrans.
Qed.

Lemma wp_conditional_write_success path bytes expected w :
  wp (conditional_write_locked path bytes expected)
     (λ r w', ∀ cw, r = Ok cw → success path bytes expected w cw w') w.
Proof.
  unfold conditional_write_locked, conditional_write_locked_with_hooks.
  wp_step. apply wp_guard_err; [intros _|done]. cbn [bind_post].
  wp_step. apply wp_guard_err; [intros _|done]. cbn [bind_post].
  wp_step. eapply wp_mono; [apply (wp_preserves grows); preserves_tac|].
  intros [u|e] w1 G1; cbn [bind_post]; [|done]. wp_step.
  eapply wp_mono; [apply (wp_preserves grows); preserves_tac|].
  intros [original|e] w2 G2; cbn [bind_post]; [|done]. cbn zeta. wp_step.
  eapply wp_mono; [apply (wp_preserves grows), grows_new_temp|].
  intros [[pending file]|e] w3 G3; cbn [bind_post]; [|done]. wp_step.
  eapply wp_mono; [apply wp_replace_success|]. intros r [w4 p4] Hr cw Hcw.
  destruct (Hr cw Hcw) as [Hact Hs]. cbn [fst snd] in *. unfold drop_pending. rewrite Hact.
  eapply success_earlier; [|exact Hs]. etrans; [exact G1|by etrans].
Qed.
End success.

(** ** Properties *)

(** C2: creating a file never clobbers. Whatever other processes do between the
    calls (if what they change shows in its status-change time, [Honest]) and whichever
    calls fail, no call of a write that expects a missing
    file changes what an existing name leads to, the destination included: only
    names that the server makes up for temporary files ever go away. *)
Theorem missing_write_never_clobbers `{!Kernel, !Honest} path bytes w :
  log_extends (λ fs fs', ∀ p v, ¬ temporary p → names fs !! p = Some v → names fs' !! p = Some v)
    w (conditional_write_locked path bytes ExpMissing w).2.
Proof.
  destruct (safe_conditional_write (λ p, ¬ temporary p) (λ _, False) (λ p Hp, Hp)
    ExpMissing ltac:(done) path bytes w) as [_ Hlog]; [by intros v []|by intros v []|].
  eapply log_extends_weaken; [|exact Hlog]. intros fs fs' (Hn & _). eauto.
Qed.

(** Another process creates the file between the last check and the [link]. *)
Lemma missing_write_never_clobbers_witness :
  let run := conditional_write_locked (H := busy 6 (creates other "theirs"))
               other (ascii_bytes "mine") ExpMissing sample in
  log_extends (λ fs fs', ∀ p v, ¬ temporary (H := busy 6 (creates other "theirs")) p →
    names fs !! p = Some v → names fs' !! p = Some v) sample run.2 ∧
  content (w_fs run.2) other = Some (ascii_bytes "theirs") ∧ is_ok run.1 = false.
Proof.
  pose proof (busy_honest 6 _ (creates_honest other "theirs")) as Hh. split.
  - apply (missing_write_never_clobbers (H := busy 6 (creates other "theirs"))).
  - split; vm_compute; reflexivity.
Defined.

(** A write never writes in place. In either mode, and whatever the rest of
    the host does, no call of the write changes the bytes of a file that existed
    when it began: a reader that holds the old file open keeps reading it. *)
Lemma write_never_in_place `{!Kernel, !Honest} path bytes expected w v i :
  inodes (w_fs w) !! v = Some i →
  log_extends (λ fs fs', i_data <$> inodes fs' !! v = i_data <$> inodes fs !! v)
    w (conditional_write_locked path bytes expected w).2.
Proof.
  intros Hi. assert (in_use (eq v) (w_fs w)) as Hw by (intros u <-; by apply elem_of_dom).
  destruct (safe_conditional_write (λ _, False) (eq v) ltac:(done) expected ltac:(by intros ? p [])
    path bytes w) as [_ Hlog]; [done..|].
  eapply log_extends_weaken; [|exact Hlog]. intros fs fs' (_ & Hd & _). by apply Hd.
Qed.

(** The revision of [note] in the sample. *)
Definition note_revision : Revision := revision_of (note_inode "base").

(** C14: a successful write is true when it is reported. Under any interference (if what
    others change shows in its status-change time, [Honest]), [Ok] means that [path] led
    during the call to a file whose bytes, when the call returns, are the given ones, and
    whose revision then is the returned one. *)
Theorem successful_write_is_true `{!Kernel, !Honest} path bytes expected w cw :
  (conditional_write_locked path bytes expected w).1 = Ok cw →
  let w' := (conditional_write_locked path bytes expected w).2 in
  ∃ v i, passed w w' (λ fs, names fs !! path = Some v) ∧ inodes (w_fs w') !! v = Some i ∧
    i_data i = bytes ∧ saved_revision cw = revision_of i.
Proof.
  intros Hok. destruct (wp_conditional_write_success path bytes expected w cw Hok)
    as (w1 & rd & _ & _ & _ & (v & i & Hn & _ & Hi & -> & _) & Hb & Hr).
  exists v, i. split_and!; [done..|]. by rewrite <-Hr.
Qed.

(** Another process is active between the publication and its verification. *)
Lemma successful_write_is_true_witness :
  let K := busy 22 (creates other "late") in
  let run := conditional_write_locked (H := K) note (ascii_bytes "mine") (ExpPresent note_revision) sample in
  match run.1 with
  | Ok cw => ∃ v i, passed sample run.2 (λ fs, names fs !! note = Some v) ∧
      inodes (w_fs run.2) !! v = Some i ∧ i_data i = ascii_bytes "mine" ∧
      saved_revision cw = revision_of i
  | Err _ => False
  end.
Proof.
  cbn zeta. pose proof (busy_honest 22 _ (creates_honest other "late")) as Hh.
  destruct (conditional_write_locked _ _ _ sample).1 as [cw|e] eqn:Hrun.
  - by apply (successful_write_is_true (H := busy 22 (creates other "late")) _ _ (ExpPresent note_revision)).
  - vm_compute in Hrun. discriminate.
Defined.

(** C1: a stale save never succeeds. Under any interference (if what others change shows
    in its status-change time, [Honest]): if the write returns [Ok], the file was seen
    as expected (with exactly the expected revision, or missing) after the last
    byte of the replacement had been written, so that an editor whose revision
    never holds again cannot overwrite anything. *)
Theorem stale_write_never_succeeds `{!Kernel, !Honest} path bytes expected w :
  is_ok (conditional_write_locked path bytes expected w).1 = true →
  let w' := (conditional_write_locked path bytes expected w).2 in
  ∃ w1, grows w w1 ∧ expected_seen path expected w1 w' ∧
    log_extends (λ fs fs', ∀ v, i_data <$> inodes fs' !! v = i_data <$> inodes fs !! v) w1 w'.
Proof.
  destruct (conditional_write_locked path bytes expected w).1 as [cw|e] eqn:Hok; [|done].
  intros _. destruct (wp_conditional_write_success path bytes expected w cw Hok)
    as (w1 & rd & Hg & Hs & He & _). exists w1. split_and!; [done..|].
  eapply log_extends_weaken; [|exact Hs]. intros fs fs' (_ & Hd & _) v. by apply Hd.
Qed.

Lemma stale_write_never_succeeds_witness :
  let K := quiet_kernel in
  let run expected := conditional_write_locked note (ascii_bytes "mine") expected sample in
  (∃ w1, grows sample w1 ∧
    expected_seen note (ExpPresent note_revision) w1 (run (ExpPresent note_revision)).2 ∧
    log_extends (λ fs fs', ∀ v, i_data <$> inodes fs' !! v = i_data <$> inodes fs !! v)
      w1 (run (ExpPresent note_revision)).2) ∧
  (run ExpMissing).1 = Err (Conflict Appeared (Some note_revision)).
Proof.
  cbn zeta. split; [|vm_compute; reflexivity].
  apply (stale_write_never_succeeds (H := quiet_kernel)). vm_compute. reflexivity.
Defined.

(** *** The window before the publication *)

Section window.
Context `{Kernel} (temp path : Path) (p : PendingTemp) (w : World).

(** The temporary file is ready, and nothing but a file is in its way. *)
Definition may_rename (fs : FS) (i : Inode) : Prop :=
  ∃ v, lookup_path fs temp = Some (v, i) ∧ inode_is_dir i = false ∧ dir_ok fs path = true ∧ temp ≠ path ∧
    ∀ u j, lookup_path fs path = Some (u, j) → u ≠ v ∧ inode_is_dir j = false.

(** [rename] replaces whatever file it meets. *)
Lemma rename_is_blind fs i :
  may_rename fs i → (k_rename temp path fs).1 = Ok tt ∧ content (k_rename temp path fs).2 path = Some (i_data i).
Proof.
  intros (v & Hl & Hi & Hdir & _ & Hfree). apply lookup_path_inode in Hl as Hv. destruct Hv as [_ Hv].
  unfold k_rename. rewrite Hl, Hdir, Hi. cbn [negb].
  destruct (lookup_path fs path) as [[u j]|] eqn:Hp.
  - destruct (Hfree u j eq_refl) as [Hne ->]. rewrite decide_False by done. cbn [andb fst snd]. split; [done|].
    apply lookup_path_inode in Hp as [_ Hu]. unfold add_link, move_entry, content, lookup_path.
    cbn. rewrite Hu. cbn. rewrite lookup_insert_ne, Hv by done. cbn. rewrite lookup_insert_eq. cbn.
    by rewrite lookup_insert_eq.
  - split; [done|]. unfold add_link, move_entry, content, lookup_path. cbn. rewrite Hv. cbn.
    rewrite lookup_insert_eq. cbn. by rewrite lookup_insert_eq.
Qed.

Lemma publish_is_blind rev i :
  fault (w_step w) = None → may_rename (met w) i →
  wp (publish temp path (ExpPresent rev))
     (λ r wl, r = Ok tt ∧ content (w_fs wl.1) path = Some (i_data i)) (w, p).
Proof.
  intros Hf Hi. destruct (rename_is_blind _ _ Hi) as [Hr Hc]. unfold publish, io, rename. do 3 wp_step.
  apply wp_syscall; rewrite Hf; [done|]. intros _. rewrite Hr. cbn [result_map_err bind_post]. by wp_step.
Qed.

(** [link] replaces nothing, and neither does what follows its refusal. *)
Lemma publish_missing_yields u :
  names (met w) !! path = Some u →
  wp (publish temp path ExpMissing) (λ r wl, is_ok r = false ∧ log_extends eq w wl.1) (w, p).
Proof.
  intros Hu. unfold publish, hard_link. do 3 wp_step.
  assert (∀ w1, log_extends eq w (after_call w w1 w1)) as Hlog by (intros; eexists [_]; split; [done|by repeat constructor]).
  apply wp_syscall.
  - intros text _. cbn [bind_post]. rewrite decide_False by done. wp_step. split; [done|apply Hlog].
  - intros _. assert (k_link temp path (met w) = (Err ENOENT, met w) ∨ k_link temp path (met w) = (Err EEXIST, met w))
      as [-> | ->] by (unfold k_link; destruct (lookup_path _ temp) as [[v i]|]; rewrite ?Hu; auto);
      cbn [fst snd bind_post].
    + rewrite decide_False by done. wp_step. split; [done|apply Hlog].
    + rewrite decide_True by done. do 2 wp_step.
      eapply wp_mono; [apply (wp_preserves (log_extends eq)); preserves_tac|].
      intros [found|e] w1 H1; cbn [bind_post]; (assert (log_extends eq w w1) by (etrans; [apply Hlog|done])); [|done].
      do 3 wp_step. destruct found as [md|]; cbn [ok_or bind_post]; [|done]. do 2 wp_step.
      eapply wp_mono; [apply (wp_preserves (log_extends eq)); preserves_tac|].
      intros [e|e] w2 H2; cbn [bind_post]; [wp_step|]; (split; [done|by etrans]).
Qed.
End window.

(** C29: what the checks cannot see. The publication that ends a write of an expected
    file looks at nothing: whatever other processes have put in the place of the
    destination by then, or if they removed it, the [rename] puts the new bytes there.
    So between the last check and the [rename] there is a window: a change made in it
    is replaced although the write reports success (the last part shows a run; the
    file systems before and after the rename are in its log). A write that expects a
    missing file has no such window: its publication fails if anything is there, and no
    call of it, or of the look that follows, changes anything. *)
Theorem present_write_window :
  (∀ (K : Kernel) temp path p rev w i,
     fault (w_step w) = None → may_rename temp path (met w) i →
     let run := publish temp path (ExpPresent rev) (w, p) in
     run.1 = Ok tt ∧ content (w_fs run.2.1) path = Some (i_data i)) ∧
  (∀ (K : Kernel) temp path p w u,
     names (met w) !! path = Some u →
     let run := publish temp path ExpMissing (w, p) in
     is_ok run.1 = false ∧ log_extends eq w run.2.1) ∧
  ∃ (K : Kernel) (n : nat), Honest (H := K) ∧
    let run := conditional_write_locked (H := K) note (ascii_bytes "mine")
                 (ExpPresent note_revision) sample in
    is_ok run.1 = true ∧
    (λ e, (content e.1 note, content e.2 note)) <$> w_log run.2 !! n
      = Some (Some (ascii_bytes "theirs"), Some (ascii_bytes "mine")).
Proof.
  split; [intros; by apply publish_is_blind|]. split; [intros; by eapply publish_missing_yields|].
  exists (busy 20 (writes note "theirs")), 20%nat.
  split; [apply busy_honest, writes_honest|]. split; vm_compute; reflexivity.
Qed.

(** The sample's only file, renamed to a name that is gone, and as an obstacle. *)
Lemma present_write_window_witness :
  let renamed := publish (H := quiet_kernel) note other (ExpPresent note_revision) (sample, mkPendingTemp other true) in
  let linked := publish (H := quiet_kernel) other note ExpMissing (sample, mkPendingTemp other true) in
  (renamed.1 = Ok tt ∧ content (w_fs renamed.2.1) other = Some (ascii_bytes "base")) ∧
  is_ok linked.1 = false ∧ log_extends eq sample linked.2.1.
Proof.
  destruct present_write_window as (Hpresent & Hmissing & _). split.
  - apply (Hpresent quiet_kernel note other _ note_revision sample (note_inode "base")); [reflexivity|].
    exists 1%nat. split_and!; [reflexivity|reflexivity|reflexivity|done|]. intros u j Hl. vm_compute in Hl. discriminate.
  - apply (Hmissing quiet_kernel other note _ sample 1%nat). reflexivity.
Defined.
