(* ===== verification/WriteSpec.v ===== *)
(** * [revisions/write.rs] without interference: the specification

    A conditional write as a function of the file system and of the times at which
    it happens ([write_spec]); the phases that the file system passes through
    ([save_call]), with old bytes or new ones at every point ([old_or_new]); and the
    code's first half, the checks and the work on the temporary file, against it. *)
From S2P Require Import Prelude MachineInt Text Json Kernel Sha256 RevisionTypes ReadPath.
From S2P Require Import WritePath WriteSafety Reference.
Local Open Scope string_scope.
Local Open Scope list_scope.
Local Open Scope Z_scope.
Local Set Warnings "-clear-no-such-hyp".

(** ** Specification *)

Section spec.
Context `{Kernel}.

Definition conflict_spec (fs : FS) (expected : ExpectedRevision) (path : Path) :
    result unit RevisionError :=
  match expected, lstat_of fs path with
  | ExpMissing, None => Ok tt
  | ExpPresent r, None =>
      if is_valid_file_revision r then Err (Conflict Deleted None)
      else Err (Io "write: invalid expected revision")
  | ExpMissing, Some md =>
      match final_type md with
      | Some kind => Err (if decide (kind = "hardlink") then UnsupportedFinalType kind
                          else Conflict TypeChanged None)
      | None => let? current := read_spec fs path in
                Err (Conflict Appeared (Some (read_revision current)))
      end
  | ExpPresent r, Some md =>
      if is_valid_file_revision r then
        match final_type md with
        | Some kind => Err (if decide (kind = "hardlink") then UnsupportedFinalType kind
                            else Conflict TypeChanged None)
        | None =>
            let? current := read_spec fs path in
            if decide (read_revision current = r) then Ok tt
            else Err (Conflict Changed (Some (read_revision current)))
        end
      else Err (Io "write: invalid expected revision")
  end.

(** The temporary name: the first free one of a hundred. *)
Fixpoint find_temp (n : nat) (dir : Path) (serial : Z) (fs : FS) :
    result Path RevisionError :=
  match n with
  | O => Err (Io "write(temp): exhausted unique temporary names")
  | S n =>
      let path := join dir (temp_name serial) in
      match names fs !! path with
      | Some _ => find_temp n dir ((serial + 1) mod 2 ^ 64) fs
      | None => if dir_ok fs path then Ok path
                else Err (io_error "write(temp)" ENOENT)
      end
  end.

Definition ownership_spec (original : option Metadata) : result unit RevisionError :=
  match original with
  | None => Ok tt
  | Some md =>
      if bool_decide (md_uid md = euid ∧ md_gid md = egid) || chown_allowed (md_uid md) (md_gid md)
      then Ok tt else Err (io_error "write(set ownership)" EPERM)
  end.

(** The file that a write leaves: permissions and owner of the file it replaces. *)
Definition file_mode (original : option Metadata) : Z :=
  match original with
  | None => Z.lor S_IFREG (Z.ldiff 0x1B6 umask)
  | Some md => Z.lor S_IFREG (Z.land (md_mode md) PERMISSIONS)
  end.
Definition owner (original : option Metadata) : Z :=
  match original with Some md => md_uid md | None => euid end.
Definition group (original : option Metadata) : Z :=
  match original with Some md => md_gid md | None => egid end.

(** The times of a save: of the creation of the temporary file, of the last transfer
    (or the creation, when there is nothing to transfer), and of the publication. *)
Record Times := mkTimes { born : time; filled : time; changed : time }.
Definition shown_times (ts : Times) : Prop := shown (born ts) ∧ shown (filled ts) ∧ shown (changed ts).

Definition temp_inode (fs : FS) (ts : Times) (mode u g : Z) (bytes : list byte) : Inode :=
  mkInode device (pick_ino (at_time (born ts) fs)) mode 1 u g (filled ts) (changed ts) bytes.
Definition saved_inode (fs : FS) (ts : Times) (original : option Metadata) (bytes : list byte) : Inode :=
  temp_inode fs ts (file_mode original) (owner original) (group original) bytes.

Definition write_spec (fs : FS) (ts : Times) (serial : Z) (dir path : Path) (bytes : list byte)
    (expected : ExpectedRevision) : result ConditionalWrite RevisionError :=
  if MAX_READ_BYTES <? Z.of_nat (length bytes) then Err TooLarge
  else if negb (valid_utf8 bytes) then Err UnsupportedEncoding
  else
    let? _ := conflict_spec fs expected path in
    let? _ := find_temp 100 dir serial fs in
    let? _ := ownership_spec (lstat_of fs path) in
    Ok (mkConditionalWrite (revision_of (saved_inode fs ts (lstat_of fs path) bytes))).

Lemma find_temp_equiv f g n dir serial : f ≡ g → find_temp n dir serial f = find_temp n dir serial g.
Proof.
  intros Hfg. revert serial. induction n as [|n IH]; intros serial; [done|]. cbn [find_temp].
  by rewrite (proj1 Hfg), (dir_ok_proper _ _ _ Hfg), IH.
Qed.

(** The file systems of a write, apart from the clock: with the temporary file, with
    both names, after the publication (at the time [now]), and after a failure. *)
Definition staged (fs : FS) (temp : Path) (v : nat) (n : Inode) : FS :=
  mkFS (<[temp := v]> (names fs)) (<[v := n]> (inodes fs)) (clock fs).
Definition linked (fs : FS) (temp path : Path) (v : nat) (n : Inode) : FS :=
  mkFS (<[path := v]> (<[temp := v]> (names fs))) (<[v := n]> (inodes fs)) (clock fs).
Definition displaced (now : time) (fs : FS) (path : Path) : gmap nat Inode :=
  match lookup_path fs path with
  | Some (u, i) => <[u := set_nlink now (i_nlink i - 1) i]> (inodes fs)
  | None => inodes fs
  end.
Definition published (now : time) (fs : FS) (path : Path) (v : nat) (n : Inode) : FS :=
  mkFS (<[path := v]> (names fs)) (<[v := n]> (displaced now fs path)) now.
Definition abandoned (fs : FS) (v : nat) (n : Inode) : FS :=
  mkFS (names fs) (<[v := n]> (inodes fs)) (clock fs).

(** A name for the temporary file, and the slot of its inode. *)
Definition scratch (fs : FS) (path temp : Path) : Prop :=
  temporary temp ∧ parent temp = parent path ∧ names fs !! temp = None ∧ dir_ok fs temp = true.
Definition new_slot (fs : FS) : nat := fresh (dom (inodes fs)).

(** A failure leaves every name and every inode as it was; an inode that no name
    leads to may be new. *)
Definition untouched (fs0 fs : FS) : Prop := names fs = names fs0 ∧ inodes fs0 ⊆ inodes fs.

(** What a reader, or a restart after a crash, may find: names other than the
    destination and the temporary ones as before; behind the destination the old
    bytes or the new ones. *)
Definition old_or_new (fs0 : FS) (path : Path) (bytes : list byte) (fs : FS) : Prop :=
  (∀ p, p ≠ path → ¬ temporary p → names fs !! p = names fs0 !! p) ∧
  (content fs path = content fs0 path ∨ content fs path = Some bytes).
End spec.

(** ** The phases of a save

    Every call of a save leaves the file system in its phase, or takes it to the
    next one. *)
Inductive phase := Before | Staged | Linked | Published | Abandoned.

Inductive moves_on : phase → phase → Prop :=
| creating : moves_on Before Staged
| filling : moves_on Staged Staged
| renaming : moves_on Staged Published
| linking : moves_on Staged Linked
| unlinking : moves_on Linked Published
| dropping : moves_on Staged Abandoned.

Section phases.
Context `{Kernel}.
Context (fs0 : FS) (path : Path) (bytes : list byte) (expected : ExpectedRevision).

(** Only a write that has passed its check publishes. *)
Definition in_phase (temp : Path) (ph : phase) (fs : FS) : Prop :=
  match ph with
  | Before => fs ≡ fs0
  | Staged => scratch fs0 path temp ∧ ∃ n, i_nlink n = 1 ∧ fs ≡ staged fs0 temp (new_slot fs0) n
  | Linked => scratch fs0 path temp ∧ conflict_spec fs0 expected path = Ok tt ∧ names fs0 !! path = None ∧
      ∃ n, i_data n = bytes ∧ inode_is_dir n = false ∧ i_nlink n = 2 ∧
        fs ≡ linked fs0 temp path (new_slot fs0) n
  | Published => conflict_spec fs0 expected path = Ok tt ∧
      ∃ now n, i_data n = bytes ∧ inode_is_dir n = false ∧ fs ≡ published now fs0 path (new_slot fs0) n
  | Abandoned => scratch fs0 path temp ∧ ∃ n, fs ≡ abandoned fs0 (new_slot fs0) n
  end.

Definition save_call (f g : FS) : Prop :=
  ∃ temp ph ph', in_phase temp ph f ∧ in_phase temp ph' g ∧ ((ph = ph' ∧ f ≡ g) ∨ moves_on ph ph').

#[export] Instance in_phase_proper temp ph : Proper ((≡) ==> iff) (in_phase temp ph).
Proof.
  assert (∀ f g, f ≡ g → in_phase temp ph f → in_phase temp ph g) as Himp.
  { intros f g Hfg. assert (∀ h, f ≡ h → g ≡ h) by (intros h Hh; by rewrite <-Hfg).
    destruct ph; simpl; naive_solver. }
  intros f g Hfg. split; by apply Himp.
Qed.

Lemma stays temp ph f g : in_phase temp ph f → f ≡ g → save_call f g.
Proof. intros Hf Hfg. exists temp, ph, ph. rewrite <-Hfg at 1. auto. Qed.
End phases.

(** The check looks at one path. *)
Lemma conflict_spec_lookup fs fs' expected path :
  lookup_path fs path = lookup_path fs' path →
  conflict_spec fs expected path = conflict_spec fs' expected path.
Proof. intros Hl. unfold conflict_spec, lstat_of, read_spec, regular_at. by rewrite Hl. Qed.
Lemma conflict_spec_equiv fs fs' expected path :
  fs ≡ fs' → conflict_spec fs expected path = conflict_spec fs' expected path.
Proof. intros Hfs. by apply conflict_spec_lookup, lookup_equiv. Qed.

Lemma write_spec_equiv `{Kernel} f g ts serial dir path bytes expected :
  f ≡ g → write_spec f ts serial dir path bytes expected = write_spec g ts serial dir path bytes expected.
Proof.
  intros Hfg. unfold write_spec, saved_inode, temp_inode.
  rewrite (conflict_spec_equiv _ _ _ _ Hfg), (find_temp_equiv _ _ _ _ _ Hfg), (lstat_equiv _ _ _ Hfg).
  unfold at_time. by rewrite (proj1 Hfg), (proj2 Hfg).
Qed.

#[export] Instance untouched_proper : Proper ((≡) ==> (≡) ==> iff) untouched.
Proof. intros f f' [Hn Hi] g g' [Hn' Hi']. unfold untouched. by rewrite Hn, Hi, Hn', Hi'. Qed.

Lemma new_slot_unused fs : new_slot fs ∉ dom (inodes fs).
Proof. unfold new_slot. apply is_fresh. Qed.

(** Every name leads to an inode. *)
Definition wf_fs (fs : FS) : Prop := ∀ p v, names fs !! p = Some v → v ∈ dom (inodes fs).
#[export] Instance wf_fs_proper : Proper ((≡) ==> iff) wf_fs.
Proof. intros f g [Hn Hi]. unfold wf_fs. by rewrite Hn, Hi. Qed.

(** ** The checks *)

(** Nothing changed, and all that was seen is the file system as it is. *)
Definition looked (w w' : World) : Prop :=
  w_fs w' ≡ w_fs w ∧ w_temp w' = w_temp w ∧
  log_extends (λ f f', f ≡ w_fs w ∧ f' ≡ w_fs w) w w'.

#[export] Instance looked_preorder : PreOrder looked.
Proof.
  split; [by intros w; split_and!|]. intros w1 w2 w3 (F1 & T1 & L1) (F2 & T2 & L2).
  split_and!; [by rewrite F2, F1|congruence|]. etrans; [exact L1|]. eapply log_extends_weaken; [|exact L2].
  intros f f' [-> ->]. by rewrite F1.
Qed.

(** All calls are calls of the save. *)
Abbreviation calls fs0 path bytes expected := (log_extends (save_call fs0 path bytes expected)).

Lemma looked_calls `{Kernel} fs0 path bytes expected temp ph w w' :
  in_phase fs0 path bytes expected temp ph (w_fs w) → looked w w' → calls fs0 path bytes expected w w'.
Proof.
  intros Hph (_ & _ & L). eapply log_extends_weaken; [|exact L]. intros f f' [Hf Hf'].
  apply (stays _ _ _ _ temp ph); [by rewrite Hf|by rewrite Hf'].
Qed.

Lemma one_call (I : FS → FS → Prop) w fs fs' : I fs fs' → log_extends I w (after_call w fs fs').
Proof. intros HI. exists [(fs, fs')]. split; [done|]. by repeat constructor. Qed.

Section checks.
Context `{!Kernel, !Undisturbed}.

#[export] Instance look_looked : LookKeeps looked.
Proof.
  intros A look w. unfold query, syscall. pose proof (met_alone w) as Hm. unfold met in Hm.
  destruct (fault (w_step w)); simpl; (split_and!; [done..|]);
    eexists [_]; (split; [done|]); by apply Forall_singleton.
Qed.

(** A look that runs alone ends with its specified result, or in a fault. *)
Definition looks {A} (m : IO RevisionError A) (s : FS → result A RevisionError) : Prop :=
  ∀ w fs, w_fs w ≡ fs → wp m (λ r w', looked w w' ∧ or_fault r (s fs)) w.

Lemma looks_intro {A} (m : IO RevisionError A) s :
  (∀ f g, f ≡ g → s f = s g) →
  (∀ w, wp m (λ r w', same_state w w' ∧ or_fault r (s (w_fs w))) w) →
  preserves looked m → looks m s.
Proof.
  intros Hs Hm Hl w fs Hfs. rewrite <-(Hs _ _ Hfs). eapply wp_mono; [apply wp_and; [apply Hm|apply (wp_preserves looked), Hl]|].
  intros r w' [[_ Hr] Hw]. done.
Qed.

(** Sequencing looks. *)
Lemma looks_bind {A B} (m : IO RevisionError A) (f : A → IO RevisionError B) s t :
  looks m s → (∀ a, looks (f a) (t a)) →
  looks (m ≫= f) (λ fs, let? a := s fs in t a fs).
Proof.
  intros Hm Hf w fs Hfs. wp_step. eapply wp_mono; [by apply Hm|].
  intros r w1 [H1 [->|[Hfault Hr]]].
  - destruct (s fs) as [a|e]; cbn [bind_post result_bind]; [|auto].
    eapply wp_mono; [apply (Hf a w1 fs); by rewrite (proj1 H1)|].
    intros r w2 [H2 Hr]. split; [by etrans|done].
  - destruct r; [done|]. cbn [bind_post]. auto.
Qed.

Lemma looks_ret {A} (a : A) : looks (mret a) (λ _, Ok a).
Proof. intros w fs Hfs. by wp_step. Qed.
Lemma looks_throw {A} e : looks (throw e : IO RevisionError A) (λ _, Err e).
Proof. intros w fs Hfs. by wp_step. Qed.

Lemma looks_checked_lstat path : looks (checked_lstat path) (λ fs, Ok (lstat_of fs path)).
Proof.
  apply looks_intro; [|apply wp_checked_lstat_alone|preserves_tac].
  intros f g Hfg. by rewrite (lstat_equiv _ _ _ Hfg).
Qed.
Lemma looks_read_with_revision path :
  looks (read_with_revision path) (λ fs, read_spec fs path).
Proof. apply looks_intro; [intros; by apply read_spec_equiv|apply read_with_revision_alone|preserves_tac]. Qed.

Lemma looks_proper {A} (m : IO RevisionError A) s t :
  looks m s → (∀ fs, s fs = t fs) → looks m t.
Proof. intros Hm Hst w fs. rewrite <-Hst. apply Hm. Qed.

(** The check of a path whose metadata is known. *)
Lemma looks_appearance path md :
  looks (e ← missing_appearance_conflict path md; throw e : IO RevisionError unit)
    (λ fs, match final_type md with
           | Some kind => Err (if decide (kind = "hardlink") then UnsupportedFinalType kind
                               else Conflict TypeChanged None)
           | None => let? current := read_spec fs path in
                     Err (Conflict Appeared (Some (read_revision current)))
           end).
Proof.
  unfold missing_appearance_conflict. destruct (final_type md).
  - apply (looks_bind (mret _) throw (λ _, Ok _) (λ e _, Err e));
      [apply looks_ret|intros e; apply looks_throw].
  - eapply looks_proper; [apply (looks_bind _ _
      (λ fs, let? current := read_spec fs path in
             Ok (Conflict Appeared (Some (read_revision current)))) (λ e _, Err e))|].
    + apply looks_bind; [apply looks_read_with_revision|intros c; apply looks_ret].
    + intros e. apply looks_throw.
    + intros fs. cbn beta. by destruct (read_spec fs path).
Qed.

Lemma looks_present rev path :
  looks (conflict_for_existing (ExpPresent rev) path)
        (λ fs, conflict_spec fs (ExpPresent rev) path).
Proof.
  unfold conflict_for_existing, guard_err.
  eapply looks_proper; [apply (looks_bind _ _
    (λ _, if negb (is_valid_file_revision rev)
          then Err (Io "write: invalid expected revision") else Ok tt)
    (λ _ fs, let? found := Ok (lstat_of fs path) in
      match found with
      | None => Err (Conflict Deleted None)
      | Some md =>
          match final_type md with
          | Some kind => Err (if decide (kind = "hardlink") then UnsupportedFinalType kind
                              else Conflict TypeChanged None)
          | None =>
              let? current := read_spec fs path in
              if decide (read_revision current = rev) then Ok tt
              else Err (Conflict Changed (Some (read_revision current)))
          end
      end))|].
  - destruct (negb _); [apply looks_throw|apply looks_ret].
  - intros _. apply (looks_bind _ _ _ (λ found fs, _)); [apply looks_checked_lstat|].
    intros [md|]; [|apply looks_throw]. destruct (final_type md); [apply looks_throw|].
    apply (looks_bind _ _ _ (λ current fs, _)); [apply looks_read_with_revision|].
    intros current. destruct (decide _); [apply looks_ret|apply looks_throw].
  - intros fs. unfold conflict_spec. simpl.
    destruct (is_valid_file_revision rev), (lstat_of fs path); done.
Qed.

Lemma looks_conflict_for_existing expected path :
  looks (conflict_for_existing expected path) (λ fs, conflict_spec fs expected path).
Proof.
  destruct expected as [rev|]; [apply looks_present|]. unfold conflict_for_existing.
  eapply looks_proper; [apply (looks_bind _ _ (λ fs, Ok (lstat_of fs path))
    (λ found fs, match found with
                 | None => Ok tt
                 | Some md => match final_type md with
                   | Some kind => Err (if decide (kind = "hardlink")
                       then UnsupportedFinalType kind else Conflict TypeChanged None)
                   | None => let? current := read_spec fs path in
                             Err (Conflict Appeared (Some (read_revision current)))
                   end
                 end))|].
  - apply looks_checked_lstat.
  - intros [md|]; [apply looks_appearance|apply looks_ret].
  - intros fs. unfold conflict_spec. by destruct (lstat_of fs path).
Qed.
End checks.

(** ** The temporary file *)

(** The mode of a new file, its set-id bits cleared, is a regular file's. *)
Lemma regular_bits x : Z.land (Z.ldiff (Z.lor S_IFREG (Z.ldiff 0x1B6 x)) 0xC00) S_IFMT = S_IFREG.
Proof.
  apply Z.bits_inj'. intros k Hk.
  rewrite Z.land_spec, Z.ldiff_spec, Z.lor_spec, Z.ldiff_spec.
  unfold S_IFREG, S_IFMT. destruct (Z.leb_spec 16 k).
  - rewrite !(Z.bits_above_log2 _ k) by first [lia|by eapply Z.lt_le_trans; [|eassumption]]. done.
  - assert (k ∈ ((λ n, Z.of_nat n) <$> seq 0 16)) as Hin.
    { apply list_elem_of_fmap. exists (Z.to_nat k). split; [lia|]. apply elem_of_seq. lia. }
    simpl in Hin. repeat (apply elem_of_cons in Hin as [->|Hin]; [by destruct (Z.testbit x _)|]).
    by apply elem_of_nil in Hin.
Qed.

Lemma land_twice m : Z.land (Z.land m PERMISSIONS) 0xFFF = Z.land m PERMISSIONS.
Proof. unfold PERMISSIONS. by rewrite <-Z.land_assoc, Z.land_diag. Qed.

Lemma file_mode_type `{Kernel} original : Z.land (file_mode original) S_IFMT = S_IFREG.
Proof.
  assert (∀ a b, Z.land b S_IFMT = 0 → a = S_IFREG → Z.land (Z.lor a b) S_IFMT = S_IFREG) as Hor.
  { intros a b Hb ->. by rewrite Z.land_lor_distr_l, Hb. }
  destruct original as [md|]; apply Hor; try done.
  - rewrite <-Z.land_assoc. change (Z.land PERMISSIONS S_IFMT) with 0. by rewrite Z.land_0_r.
  - rewrite Z.ldiff_land, <-Z.land_assoc, (Z.land_comm (Z.lnot _)), Z.land_assoc.
    change (Z.land 0x1B6 S_IFMT) with 0. by rewrite Z.land_0_l.
Qed.

Section saved.
Context `{Kernel}.

Lemma final_type_saved fs ts original bytes :
  final_type (metadata_of (saved_inode fs ts original bytes)) = None.
Proof.
  unfold final_type, is_symlink, is_dir, is_fifo, is_file, has_type, saved_inode, temp_inode.
  cbn [md_mode md_nlink metadata_of i_mode i_nlink]. by rewrite file_mode_type.
Qed.

Lemma lookup_published now fs path v n :
  lookup_path (published now fs path v n) path = Some (v, n).
Proof.
  unfold lookup_path, published. simpl. rewrite lookup_insert_eq. simpl.
  by rewrite lookup_insert_eq.
Qed.

Lemma lstat_published now fs path v n :
  lstat_of (published now fs path v n) path = Some (metadata_of n).
Proof. unfold lstat_of. by rewrite lookup_published. Qed.

(** Publishing keeps every name leading to an inode. *)
Lemma wf_published now fs path v n : wf_fs fs → wf_fs (published now fs path v n).
Proof.
  intros Hwf p u. unfold published. cbn [names inodes]. intros Hu.
  assert (dom (inodes fs) ⊆ dom (displaced now fs path)) as Hdom.
  { unfold displaced. destruct (lookup_path fs path) as [[? ?]|]; [|done].
    rewrite dom_insert. apply union_subseteq_r. }
  rewrite dom_insert. apply elem_of_union. apply lookup_insert_Some in Hu as [[_ ->]|[_ Hu]];
    [left; by apply elem_of_singleton|right]. by apply Hdom, (Hwf p).
Qed.

(** Reading back what a write has published. *)
Lemma read_saved now fs ts original path bytes v :
  Z.of_nat (length bytes) ≤ MAX_READ_BYTES → valid_utf8 bytes = true →
  read_spec (published now fs path v (saved_inode fs ts original bytes)) path
    = Ok (mkRevisionRead bytes (revision_of (saved_inode fs ts original bytes))).
Proof.
  intros Hsize Hutf. unfold read_spec, regular_at.
  rewrite lookup_published, final_type_saved.
  cbn [result_bind snd]. set (n := saved_inode _ _ _ _).
  change (size_of n) with (Z.of_nat (length bytes)). change (i_data n) with bytes.
  by rewrite (proj2 (Z.ltb_ge _ _) Hsize), Hutf.
Qed.
End saved.

(** An expected revision that passes the check is the file's. *)
Lemma conflict_spec_present fs rev path :
  conflict_spec fs (ExpPresent rev) path = Ok tt →
  is_valid_file_revision rev = true ∧ ∃ u i, lookup_path fs path = Some (u, i) ∧
    final_type (metadata_of i) = None ∧ revision_of i = rev.
Proof.
  unfold conflict_spec, lstat_of, read_spec, regular_at.
  destruct (is_valid_file_revision rev); [|by destruct (lookup_path fs path)].
  destruct (lookup_path fs path) as [[u i]|]; [|done]. cbn [fmap option_fmap option_map snd].
  destruct (final_type (metadata_of i)) eqn:Ht; [done|]. cbn [result_bind snd].
  destruct (_ <? _); [done|]. destruct (valid_utf8 _); [|done]. cbn [result_bind read_revision].
  destruct (decide _) as [Hrev|]; [|done]. intros _. split; [done|]. by exists u, i.
Qed.

Lemma conflict_spec_read fs rev path :
  conflict_spec fs (ExpPresent rev) path = Ok tt →
  ∃ rd, read_spec fs path = Ok rd ∧ read_revision rd = rev.
Proof.
  unfold conflict_spec. destruct (is_valid_file_revision rev); [|by destruct (lstat_of fs path)].
  destruct (lstat_of fs path) as [md|]; [|done]. destruct (final_type md); [done|].
  destruct (read_spec fs path) as [rd|]; [|done]. cbn [result_bind].
  destruct (decide _); [eauto|done].
Qed.

(** The work on the temporary file [temp]. *)
Section staging.
Context `{!Kernel, !Undisturbed}.
Context (fs0 : FS) (path : Path) (bytes : list byte) (expected : ExpectedRevision).
Context (temp : Path) (Hscratch : scratch fs0 path temp).

Abbreviation v := (new_slot fs0).
Abbreviation stage := (staged fs0 temp v).
Abbreviation calls := (calls fs0 path bytes expected).

Lemma stage_phase fs n : i_nlink n = 1 → fs ≡ stage n → in_phase fs0 path bytes expected temp Staged fs.
Proof. split; [done|]. eauto. Qed.

Lemma stage_fails w fs n : i_nlink n = 1 → fs ≡ stage n → calls w (after_call w fs fs).
Proof. intros Hn Hfs. apply one_call. apply (stays _ _ _ _ temp Staged); [by eapply stage_phase|done]. Qed.

(** The temporary file, created at [b]. *)
Definition draft (b : time) (mode u g : Z) (data : list byte) (i : Inode) : Prop :=
  ∃ t c, shown t ∧ shown c ∧ i = temp_inode fs0 (mkTimes b t c) mode u g data.

(** [m] takes the temporary file from [P] to [P'], or fails on the way. *)
Definition moves {A} (m : IO RevisionError A) (a : A) (P P' : Inode → Prop) : Prop :=
  ∀ w n, P n → i_nlink n = 1 → w_fs w ≡ stage n →
  wp m (λ r w', calls w w' ∧
    ((r = Ok a ∧ ∃ n', P' n' ∧ i_nlink n' = 1 ∧ w_fs w' ≡ stage n') ∨
     (faulty ∧ is_ok r = false ∧ ∃ i, i_nlink i = 1 ∧ w_fs w' ≡ stage i))) w.

Lemma moves_bind {A B} (m : IO RevisionError A) (f : A → IO RevisionError B) a b P P1 P2 :
  moves m a P P1 → moves (f a) b P1 P2 → moves (m ≫= f) b P P2.
Proof.
  intros Hm Hf w n Hn Hl Hw. wp_step. eapply wp_mono; [by eapply Hm|].
  intros r w1 [H1 [(-> & n1 & Hn1 & Hl1 & Hw1)|(Hfault & Hr & Hi)]]; cbn [bind_post].
  - eapply wp_mono; [by eapply Hf|]. intros r w2 [H2 Hr]. split; [by etrans|done].
  - destruct r; [done|]. cbn [bind_post]. auto.
Qed.

Lemma stage_inode fs n : fs ≡ stage n → inodes fs !! v = Some n.
Proof. intros [_ ->]. apply lookup_insert_eq. Qed.

Lemma stage_set fs n n' : fs ≡ stage n → set_inode v n' fs ≡ stage n'.
Proof.
  intros [Hn Hi]. split; [exact Hn|]. cbn [inodes set_inode]. rewrite Hi. unfold staged. cbn [inodes].
  by rewrite insert_insert_eq.
Qed.

Lemma stage_call w fs fs' n n' :
  i_nlink n = 1 → i_nlink n' = 1 → fs ≡ stage n → fs' ≡ stage n' → calls w (after_call w fs fs').
Proof.
  intros Hn Hn' Hfs Hfs'. apply one_call. exists temp, Staged, Staged.
  split; [by apply (stage_phase _ n)|]. split; [by apply (stage_phase _ n')|]. right. constructor.
Qed.

(** One call on the temporary file. *)
Lemma moves_call {A} context (call : nat → FS → result A IoError * FS) a P P' :
  (∀ k fs n, P n → i_nlink n = 1 → fs ≡ stage n → shown (clock fs) →
     ∃ n', P' n' ∧ i_nlink n' = 1 ∧ (call k fs).1 = Ok a ∧ (call k fs).2 ≡ stage n') →
  moves (io context (syscall call)) a P P'.
Proof.
  intros Hcall w n Hn Hl Hw. unfold io. wp_step. apply wp_syscall_alone.
  - intros text fs Hf Hfs. rewrite Hw in Hfs. cbn [result_map_err].
    split; [by apply (stage_fails _ _ n)|]. eauto 6.
  - intros fs Hfs Ht. rewrite Hw in Hfs.
    destruct (Hcall (w_step w) fs n Hn Hl Hfs Ht) as (n' & Hn' & Hl' & Hr & Hfs').
    rewrite Hr. cbn [result_map_err]. split; [by apply (stage_call _ _ _ n n')|left; eauto].
Qed.

Lemma moves_preserve_metadata file original b data :
  f_inode file = v → ownership_spec original = Ok tt →
  moves (preserve_metadata file original) tt
    (draft b (file_mode None) euid egid data)
    (draft b (file_mode original) (owner original) (group original) data).
Proof.
  intros Hv Hown. unfold preserve_metadata. destruct original as [md|].
  2: { intros w n Hn Hl Hw. wp_step. split; [done|]. left. eauto. }
  eapply (moves_bind _ _ tt tt _ (draft b (Z.ldiff (file_mode None) 0xC00) (md_uid md) (md_gid md) data));
    unfold fchown, set_permissions; rewrite Hv.
  - apply moves_call. intros k fs n (t & c & Hst & _ & ->) _ Hfs Hshown. unfold k_fchown. rewrite (stage_inode _ _ Hfs).
    unfold ownership_spec in Hown. cbn [i_uid i_gid temp_inode].
    destruct (bool_decide _ || _); [|done]. eexists. split; [by exists t, (clock fs)|]. split; [done|]. split; [done|].
    by apply (stage_set _ _ _ Hfs).
  - apply moves_call. intros k fs n (t & c & Hst & _ & ->) _ Hfs Hshown. unfold k_fchmod. rewrite (stage_inode _ _ Hfs).
    eexists. split; [by exists t, (clock fs)|]. split; [done|]. split; [done|].
    cbn [snd]. rewrite (stage_set _ _ _ Hfs).
    unfold temp_inode, set_mode, file_mode.
    cbn [i_dev i_ino i_mode i_nlink i_uid i_gid i_mtime i_ctime i_data owner group born filled changed].
    by rewrite regular_bits, land_twice.
Qed.

Lemma write_rounds_end f (todo : list byte) w s :
  (mloop (loop_depth (Z.of_nat (length todo))) (write_round f) (f_pos f, todo) w).1
    ≠ Ok (inl s).
Proof.
  apply (mloop_done _ (λ s, length s.2)).
  2: { simpl. pose proof (loop_depth_enough (Z.of_nat (length todo))). lia. }
  intros [pos [|b todo']] w0 [pos' todo'']; unfold write_round; [done|].
  unfold mbind, stm_bind, syscall. destruct (fault _); [done|]. unfold k_write.
  destruct (inodes _ !! _); [|done]. simpl. intros [= <- <-].
  rewrite length_drop. cbn [length]. pose proof (transfer_bounds (w_step w0) (Z.of_nat (S (length todo')))).
  lia.
Qed.

(** A transfer at the end of the temporary file. *)
Lemma draft_grows b mode u g d chunk now n :
  draft b mode u g d n → shown now →
  draft b mode u g (d ++ chunk)
    (set_data now (splice (length d) chunk (i_data n ++ replicate (Z.to_nat (Z.of_nat (length d) - size_of n)) x00)) n).
Proof.
  intros (t & c & _ & _ & ->) Hnow. exists now, now. split; [done|]. split; [done|].
  unfold set_data, temp_inode, size_of. cbn [i_data]. rewrite Z.sub_diag. simpl replicate.
  by rewrite app_nil_r, splice_end.
Qed.

Lemma moves_write_all file b mode u g :
  f_inode file = v → f_pos file = 0 →
  moves (io "write(temp)" (write_all file bytes)) tt (draft b mode u g []) (draft b mode u g bytes).
Proof.
  intros Hv Hpos w n Hn Hl Hw. unfold io. wp_step. unfold write_all. wp_step.
  pose proof (write_rounds_end file bytes w) as Hend.
  assert (wp (mloop (loop_depth (Z.of_nat (length bytes))) (write_round file) (f_pos file, bytes))
    (loop_post (λ (s : Z * list byte) w', calls w w' ∧ ∃ (d : list byte) n', d ++ s.2 = bytes ∧
                  s.1 = Z.of_nat (length d) ∧ draft b mode u g d n' ∧ i_nlink n' = 1 ∧ w_fs w' ≡ stage n')
      (λ r w', calls w w' ∧
        ((r = Ok tt ∧ ∃ n', draft b mode u g bytes n' ∧ i_nlink n' = 1 ∧ w_fs w' ≡ stage n') ∨
         (faulty ∧ is_ok r = false ∧ ∃ i, i_nlink i = 1 ∧ w_fs w' ≡ stage i)))) w) as Hwp.
  { apply wp_mloop.
    2: { split; [done|]. exists [], n. by rewrite Hpos. }
    intros [pos todo] w1 HI. cbn [fst snd] in HI. destruct HI as (S1 & d & n1 & Hd & -> & Hn1 & Hl1 & Hw1).
    unfold write_round.
    destruct todo as [|x todo].
    { wp_step. split; [done|]. left. rewrite app_nil_r in Hd. subst. eauto. }
    wp_step. apply wp_syscall_alone.
    - intros text fs Hf Hfs. rewrite Hw1 in Hfs. cbn [bind_post loop_post].
      split; [etrans; [done|by apply (stage_fails _ _ n1)]|]. right. eauto 6.
    - intros fs Hfs Ht. rewrite Hw1 in Hfs. unfold k_write. rewrite Hv, (stage_inode _ _ Hfs).
      cbn [fst snd bind_post].
      pose proof (transfer_bounds (w_step w1) (Z.of_nat (length (x :: todo))) ltac:(simpl; lia)) as Hlen.
      set (k := transfer _ _) in *. wp_step. cbn [loop_post]. rewrite Nat2Z.id.
      match goal with |- context [set_inode v ?i fs] =>
        pose proof (stage_set fs n1 i Hfs) as Hset; assert (i_nlink i = 1) as Hl' by done
      end.
      split; [etrans; [exact S1|by eapply (stage_call _ _ _ n1)]|].
      eexists (d ++ take (Z.to_nat k) (x :: todo)), _. cbn [fst snd].
      split_and!; [by rewrite <-app_assoc, take_drop|rewrite length_app, length_take; lia| |exact Hl'|exact Hset].
      by apply draft_grows. }
  unfold wp in *. destruct (mloop _ _ _ w) as [[[s|x]|e] w'] eqn:Hm; simpl in *.
  - by destruct (Hend s).
  - destruct x. destruct Hwp as [Hs [[_ Hw']|(? & ? & ?)]]; [|done]. split; [done|]. by left.
  - destruct Hwp as [Hs [[? _]|(? & _ & ?)]]; [done|]. split; [done|]. by right.
Qed.

Lemma moves_look {A} (m : IO RevisionError A) s a P :
  looks m s → (∀ i, s (stage i) = Ok a) → moves m a P P.
Proof.
  intros Hm Hs w i Hi Hlink Hw. eapply wp_mono; [by apply (Hm w (stage i))|]. intros r w1 [Hl Hr].
  split; [eapply looked_calls; [by apply (stage_phase _ i)|done]|]. destruct Hl as [Hfs _]. rewrite Hw in Hfs.
  destruct Hr as [->|[Hfault Hr]]; [left; rewrite Hs|right]; eauto.
Qed.
End staging.
