(* ===== verification/WriteAlone.v ===== *)
(** * [revisions/write.rs] without interference: the proof

    The code computes [write_spec] when no other process changes anything and no call
    fails, while time goes by from call to call. Calls may fail in the main lemma: then
    the write still moves through the phases of [WriteSpec.v] only, so that a crash
    after any call leaves the old bytes or the new ones. *)
From S2P Require Import Prelude MachineInt Text Json Kernel Sha256 RevisionTypes ReadPath.
From S2P Require Import WritePath WriteSafety Reference WriteSpec.
Local Open Scope string_scope.
Local Open Scope list_scope.
Local Open Scope Z_scope.

(** ** Publication *)

Lemma parent_shorter p q : parent p = Some q → (length (comps q) < length (comps p))%nat.
Proof.
  unfold parent. destruct (comps p) as [|c cs] eqn:Hp; [done|]. intros Hq.
  assert (comps q = removelast (c :: cs)) as -> by (by inversion Hq).
  pose proof (f_equal length (app_removelast_last c (l := c :: cs) ltac:(done))) as Hl.
  rewrite length_app in Hl. cbn [length] in *. lia.
Qed.

Section publication.
Context `{!Kernel, !Undisturbed}.
Context (fs0 : FS) (dir path : Path) (bytes : list byte) (expected : ExpectedRevision) (temp : Path).
Context (Hwf : wf_fs fs0) (Hparent : parent path = Some dir) (Hpath : ¬ temporary path).
Context (Hscratch : scratch fs0 path temp).

Abbreviation v := (new_slot fs0).
Abbreviation calls := (calls fs0 path bytes expected).
Abbreviation in_phase := (in_phase fs0 path bytes expected temp).
Abbreviation stage := (staged fs0 temp v).

Lemma path_not_temp : path ≠ temp.
Proof. destruct Hscratch as [Ht _]. by intros ->. Qed.
Lemma temp_free : names fs0 !! temp = None.
Proof. apply Hscratch. Qed.

Lemma slot_unused p : names fs0 !! p ≠ Some v.
Proof. intros Hp. by apply Hwf, new_slot_unused in Hp. Qed.

Lemma lookup_stage n p : p ≠ temp → lookup_path (stage n) p = lookup_path fs0 p.
Proof.
  intros Hp. unfold lookup_path, staged. simpl. rewrite lookup_insert_ne by done.
  destruct (names fs0 !! p) as [u|] eqn:Hu; [|done]. simpl.
  rewrite lookup_insert_ne; [done|]. intros <-. by apply (slot_unused p).
Qed.

Lemma lookup_stage_temp n : lookup_path (stage n) temp = Some (v, n).
Proof. unfold lookup_path, staged. simpl. by rewrite !lookup_insert_eq; simpl; rewrite lookup_insert_eq. Qed.

Lemma dir_ok_stage n : dir_ok (stage n) path = true.
Proof.
  destruct Hscratch as (_ & Htemp & _ & Hdir). unfold dir_ok in *. rewrite Htemp, Hparent in *.
  destruct (comps dir) eqn:Hc; [done|]. rewrite lookup_stage; [done|].
  intros ->. apply parent_shorter in Htemp. lia.
Qed.

(** A name more, or less, for the temporary file. *)
Abbreviation relinked now k n := (set_nlink now k n).

Lemma rename_present now n u i0 :
  lookup_path fs0 path = Some (u, i0) → inode_is_dir i0 = false → inode_is_dir n = false → i_nlink n = 1 →
  k_rename temp path (at_time now (stage n)) = (Ok tt, published now fs0 path v (relinked now 1 n)).
Proof.
  intros Hl Hi0 Hfile Hlinks. pose proof path_not_temp as Hne. pose proof temp_free. unfold k_rename.
  rewrite (lookup_equiv _ _ temp (at_time_equiv now _)), (lookup_equiv _ _ path (at_time_equiv now _)),
    (dir_ok_proper _ _ path (at_time_equiv now _)), lookup_stage_temp, dir_ok_stage.
  rewrite lookup_stage, Hl by done. simpl negb. cbn iota.
  apply lookup_path_inode in Hl as Hl'. destruct Hl' as [Hu Hui].
  assert (v ≠ u) as Hvu by (intros <-; by apply (slot_unused path)).
  rewrite decide_False, Hi0, Hfile by done. simpl andb. cbn iota. f_equal.
  unfold move_entry, add_link, published, displaced. rewrite Hl. simpl.
  rewrite lookup_insert_ne, Hui by done. simpl. rewrite lookup_insert_ne by done.
  rewrite lookup_insert_eq. unfold set_inode. simpl. f_equal.
  - by rewrite delete_insert_id.
  - rewrite Hlinks. change (1 + 0) with 1.
    rewrite (insert_insert_ne _ v u) by done. rewrite insert_insert_eq.
    by rewrite (insert_insert_ne _ u v) by done.
Qed.

Lemma link_missing now n :
  names fs0 !! path = None → inode_is_dir n = false → i_nlink n = 1 →
  k_link temp path (at_time now (stage n)) = (Ok tt, at_time now (linked fs0 temp path v (relinked now 2 n))).
Proof.
  intros Hmissing Hfile Hlinks. pose proof path_not_temp as Hne. unfold k_link.
  rewrite (lookup_equiv _ _ temp (at_time_equiv now _)), (dir_ok_proper _ _ path (at_time_equiv now _)),
    lookup_stage_temp, dir_ok_stage, Hfile.
  cbn [names at_time]. unfold staged at 1. cbn [names]. rewrite lookup_insert_ne, Hmissing by done. f_equal.
  unfold add_link, at_time, staged, linked. simpl. rewrite lookup_insert_eq.
  unfold set_inode. simpl. rewrite insert_insert_eq, Hlinks. done.
Qed.

Lemma unlink_linked now n :
  names fs0 !! path = None → inode_is_dir n = false →
  k_unlink temp (at_time now (linked fs0 temp path v n))
    = (Ok tt, published now fs0 path v (relinked now (i_nlink n - 1) n)).
Proof.
  intros Hmissing Hfile. pose proof path_not_temp as Hne. pose proof temp_free. unfold k_unlink, lookup_path, linked. simpl.
  rewrite lookup_insert_ne, lookup_insert_eq by done. simpl. rewrite lookup_insert_eq. simpl.
  rewrite Hfile. f_equal.
  unfold add_link, published, displaced, lookup_path. rewrite Hmissing. simpl.
  rewrite lookup_insert_eq. unfold set_inode. simpl. rewrite insert_insert_eq. f_equal.
  rewrite delete_insert_ne, delete_insert_id by done. done.
Qed.

Lemma unlink_staged now i :
  inode_is_dir i = false →
  ∃ i', k_unlink temp (at_time now (stage i)) = (Ok tt, at_time now (abandoned fs0 v i')).
Proof.
  intros Hi. pose proof temp_free. unfold k_unlink. rewrite (lookup_equiv _ _ temp (at_time_equiv now _)), lookup_stage_temp, Hi.
  eexists. f_equal. unfold add_link, at_time, staged, abandoned. simpl. rewrite lookup_insert_eq.
  unfold set_inode. simpl. by rewrite delete_insert_id, insert_insert_eq by done.
Qed.

(** *** The code *)

Context (Hcheck : conflict_spec fs0 expected path = Ok tt).

Lemma published_phase now n fs :
  fs ≡ published now fs0 path v n → i_data n = bytes → inode_is_dir n = false → in_phase Published fs.
Proof. split; [done|]. eauto 6. Qed.

(** The temporary name is still there. *)
Definition unfinished (fs : FS) : Prop := in_phase Staged fs ∨ in_phase Linked fs.

Lemma unfinished_equiv f g : f ≡ g → unfinished g → unfinished f.
Proof. unfold unfinished. by intros ->. Qed.

Lemma unfinished_stays f g : unfinished f → f ≡ g → save_call fs0 path bytes expected f g.
Proof. intros [Hf|Hf] Hfg; by eapply stays. Qed.

Lemma unlink_unfinished fs : unfinished fs → save_call fs0 path bytes expected fs (k_unlink temp fs).2.
Proof.
  intros [Hs|Hl].
  - pose proof Hs as (_ & i & Hlink & Hi). destruct (inode_is_dir i) eqn:Hdi.
    + eapply stays; [exact Hs|]. unfold k_unlink. by rewrite (lookup_equiv _ _ temp Hi), lookup_stage_temp, Hdi.
    + exists temp, Staged, Abandoned. split; [done|]. split; [|right; constructor].
      rewrite (equiv_at_time _ _ Hi). destruct (unlink_staged (clock fs) i Hdi) as [i' ->].
      split; [done|]. by exists i'.
  - exists temp, Linked, Published. split; [done|]. split; [|right; constructor].
    destruct Hl as (_ & _ & Hm & n & Hd & Hn & _ & Hi). rewrite (equiv_at_time _ _ Hi), unlink_linked by done.
    eapply published_phase; done.
Qed.

Lemma drop_unfinished p w : temp_path p = temp → unfinished (w_fs w) → calls w (drop_pending p w).
Proof.
  intros Hp Hw. unfold drop_pending. destruct (active p); [|done].
  rewrite Hp. unfold remove_file.
  assert (∀ fs, fs ≡ w_fs w → unfinished fs) as Hun by (intros; by eapply unfinished_equiv).
  apply (wp_syscall_alone (λ _, k_unlink temp) (λ _ w', calls w w')).
  - intros text fs Hf Hfs. by apply one_call, unfinished_stays; [apply Hun|].
  - intros fs Hfs _. by apply one_call, unlink_unfinished, Hun.
Qed.

(** How publishing the finished temporary file [n] ends: done, or failed with the
    temporary name still there. *)
Definition publish_ends (n : Inode) (p : PendingTemp) (w : World) (r : result unit RevisionError)
    (wl : World * PendingTemp) : Prop :=
  calls w wl.1 ∧ temp_path wl.2 = temp_path p ∧
  ((r = Ok tt ∧ active wl.2 = false ∧ ∃ now, shown now ∧
    w_fs wl.1 ≡ published now fs0 path v (relinked now 1 n)) ∨
   (faulty ∧ is_ok r = false ∧ unfinished (w_fs wl.1))).

Lemma wp_publish_present rev n u i0 p w :
  lookup_path fs0 path = Some (u, i0) → inode_is_dir i0 = false →
  inode_is_dir n = false → i_nlink n = 1 → i_data n = bytes → w_fs w ≡ stage n →
  wp (publish temp path (ExpPresent rev)) (publish_ends n p w) (w, p).
Proof.
  intros Hl Hi0 Hfile Hlinks Hdata Hw. unfold publish, io, rename. do 3 wp_step.
  assert (∀ fs, fs ≡ stage n → in_phase Staged fs) as Hph by (intros; by apply (stage_phase _ _ _ _ _ Hscratch _ n)).
  apply wp_syscall_alone; intros.
  - match goal with H : ?fs ≡ w_fs w |- _ => rewrite Hw in H end.
    cbn [bind_post result_map_err]. split; [by apply one_call; eapply stays; [by apply Hph|]|]. split; [done|]. right.
    split_and!; [done..|]. left. by apply Hph.
  - match goal with H : ?fs ≡ w_fs w |- _ => rewrite Hw in H; rewrite (equiv_at_time _ _ H) end.
    rewrite (rename_present _ n u i0 Hl Hi0) by done. cbn [fst snd bind_post result_map_err].
    wp_step. split.
    { apply one_call. exists temp, Staged, Published. split; [apply Hph, at_time_equiv|].
      split; [eapply published_phase; done|right; constructor]. }
    split; [done|]. left. split_and!; [done..|]. eexists. by split.
Qed.

Lemma lookup_absent fs p : wf_fs fs → lookup_path fs p = None → names fs !! p = None.
Proof.
  intros Hfs Hl. destruct (names fs !! p) as [u|] eqn:Hu; [|done]. unfold lookup_path in Hl.
  rewrite Hu in Hl. apply Hfs, elem_of_dom in Hu as [i Hi]. simpl in Hl. by rewrite Hi in Hl.
Qed.

(** The new name is there, the old one is about to go. *)
Lemma wp_unlink_linked n now p w w0 :
  names fs0 !! path = None → inode_is_dir n = false → i_nlink n = 1 → i_data n = bytes → calls w0 w →
  w_fs w ≡ linked fs0 temp path v (relinked now 2 n) →
  wp (global (io "write(publish cleanup)" (remove_file temp));; local keep_after_rename)
    (publish_ends n p w0) (w, p).
Proof.
  intros Hm Hfile Hlinks Hdata Hw0 Hw. unfold io, remove_file.
  assert (∀ fs, fs ≡ linked fs0 temp path v (relinked now 2 n) → in_phase Linked fs) as Hph.
  { intros fs Hfs. split; [done|]. do 2 (split; [done|]). by exists (relinked now 2 n). }
  do 3 wp_step. apply wp_syscall_alone.
  - intros text fs Hf Hfs. rewrite Hw in Hfs. cbn [bind_post result_map_err].
    split; [etrans; [exact Hw0|by apply one_call; eapply stays; [by apply Hph|]]|]. split; [done|].
    right. split_and!; [done..|]. right. by apply Hph.
  - intros fs Hfs Hnow. rewrite Hw in Hfs. rewrite (equiv_at_time _ _ Hfs), unlink_linked by done.
    cbn [fst snd bind_post result_map_err]. wp_step. split.
    { etrans; [exact Hw0|]. apply one_call. exists temp, Linked, Published. split; [apply Hph, at_time_equiv|].
      split; [eapply published_phase; done|right; constructor]. }
    split; [done|]. left. split_and!; [done..|]. eexists. by split.
Qed.

Lemma wp_publish_missing n p w :
  lookup_path fs0 path = None →
  inode_is_dir n = false → i_nlink n = 1 → i_data n = bytes → w_fs w ≡ stage n →
  wp (publish temp path ExpMissing) (publish_ends n p w) (w, p).
Proof.
  intros Hl Hfile Hlinks Hdata Hw. pose proof (lookup_absent _ _ Hwf Hl) as Hm.
  assert (∀ fs, fs ≡ stage n → in_phase Staged fs) as Hph by (intros; by apply (stage_phase _ _ _ _ _ Hscratch _ n)).
  unfold publish. do 3 wp_step. unfold hard_link. apply wp_syscall_alone.
  - intros text fs Hf Hfs. rewrite Hw in Hfs.
    cbn [bind_post]. rewrite decide_False by done. wp_step.
    split; [by apply one_call; eapply stays; [by apply Hph|]|]. split; [done|]. right. split_and!; [done..|].
    left. by apply Hph.
  - intros fs Hfs _. rewrite Hw in Hfs. set (now := clock fs). rewrite (equiv_at_time _ _ Hfs). fold now.
    rewrite link_missing by done. cbn [fst snd bind_post].
    eapply (wp_unlink_linked n now); [done..| |apply at_time_equiv].
    apply one_call. exists temp, Staged, Linked. split; [apply Hph, at_time_equiv|]. split; [|right; constructor].
    rewrite at_time_equiv. split; [done|]. do 2 (split; [done|]). by exists (relinked now 2 n).
Qed.

(** *** The scope *)

Context (b : time) (Hborn : shown b).
Context (Hsize : Z.of_nat (length bytes) ≤ MAX_READ_BYTES) (Hutf : valid_utf8 bytes = true).

Abbreviation original := (lstat_of fs0 path).
Abbreviation finished := (draft fs0 b (file_mode original) (owner original) (group original) bytes).

Lemma finished_inode n :
  finished n → inode_is_dir n = false ∧ i_data n = bytes ∧
  ∀ now, shown now → ∃ ts, shown_times ts ∧ changed ts = now ∧ relinked now 1 n = saved_inode fs0 ts original bytes.
Proof.
  intros (t & c & Ht & Hc & ->). split_and!; [|done..|].
  - unfold inode_is_dir, has_type. cbn [i_mode temp_inode]. by rewrite file_mode_type.
  - intros now Hnow. by exists (mkTimes b t now).
Qed.

Lemma wp_publish_checked n p w :
  finished n → i_nlink n = 1 → w_fs w ≡ stage n → wp (publish temp path expected) (publish_ends n p w) (w, p).
Proof.
  intros Hn Hlinks Hw. apply finished_inode in Hn as (Hfile & Hdata & _).
  pose proof wp_publish_present as Hpresent. pose proof wp_publish_missing as Hmissing.
  unfold conflict_spec, lstat_of in Hcheck.
  destruct expected as [rev|], (lookup_path fs0 path) as [[u i0]|] eqn:Hl; simpl in Hcheck.
  - destruct (is_valid_file_revision rev); [|done].
    destruct (final_type _) eqn:Ht; [done|]. apply final_type_file in Ht as [_ Hi0].
    by apply (Hpresent rev n u i0).
  - by destruct (is_valid_file_revision rev).
  - destruct (final_type _); [done|]. by destruct (read_spec fs0 path).
  - by apply Hmissing.
Qed.

(** How the scope ends. *)
Definition replace_ends (w : World) (r : result ConditionalWrite RevisionError)
    (wl : World * PendingTemp) : Prop :=
  calls w wl.1 ∧ temp_path wl.2 = temp ∧
  ((active wl.2 = false ∧ ∃ ts, shown_times ts ∧
    r = Ok (mkConditionalWrite (revision_of (saved_inode fs0 ts original bytes))) ∧
    w_fs wl.1 ≡ published (changed ts) fs0 path v (saved_inode fs0 ts original bytes)) ∨
   (faulty ∧ is_ok r = false ∧ (unfinished (w_fs wl.1) ∨ active wl.2 = false))).

Context (file : File) (Hfv : f_inode file = v) (Hf0 : f_pos file = 0).
Context (Hown : ownership_spec original = Ok tt).

(** A step inside the scope that only works on the temporary file. *)
Lemma replace_moves {A} (m : IO RevisionError A) a P P' i (f : A → stm _ _ _) w w0 p :
  moves fs0 path bytes expected temp m a P P' → calls w0 w → P i → i_nlink i = 1 → w_fs w ≡ stage i → temp_path p = temp →
  (∀ w' i', calls w0 w' → P' i' → i_nlink i' = 1 → w_fs w' ≡ stage i' → wp (f a) (replace_ends w0) (w', p)) →
  wp (global m ≫= f) (replace_ends w0) (w, p).
Proof.
  intros Hm Hw0 Hi Hl Hw Hp Hf. do 2 wp_step. eapply wp_mono; [by eapply (Hm w i)|].
  intros r w1 [H1 [(-> & j & Hj & Hlj & Hw1)|(Hfault & Hr & j & Hlj & Hj)]]; cbn [bind_post].
  - eapply Hf; [by etrans|done..].
  - destruct r; [done|]. cbn [bind_post]. split; [by etrans|]. split; [done|].
    right. split_and!; [done..|]. left. left. by apply (stage_phase _ _ _ _ _ Hscratch _ j).
Qed.

(** The published file is read back. *)
Lemma wp_verify_published ts p w0 w (f : RevisionRead → stm _ _ _) :
  shown_times ts → calls w0 w → temp_path p = temp → active p = false →
  w_fs w ≡ published (changed ts) fs0 path v (saved_inode fs0 ts original bytes) →
  (∀ rd, f rd = if decide (read_bytes rd = bytes) then mret (mkConditionalWrite (read_revision rd))
                else throw (Conflict Changed (Some (read_revision rd)))) →
  wp (global (read_with_revision path) ≫= f) (replace_ends w0) (w, p).
Proof.
  intros Hts Hw0 Hp Hact Hw Hf. do 2 wp_step.
  eapply wp_mono; [by apply (looks_read_with_revision path w _ Hw)|].
  intros r w6 [Hl Hr]. rewrite read_saved in Hr by done.
  assert (calls w0 w6) as S6.
  { etrans; [exact Hw0|]. eapply (looked_calls _ _ _ _ temp); [|exact Hl].
    eapply published_phase; [done..|]. by eapply final_type_file, final_type_saved. }
  destruct Hl as [Hfs _]. rewrite Hw in Hfs.
  destruct Hr as [->|[Hfault Hr]].
  - cbn [bind_post]. rewrite Hf. cbn [read_bytes read_revision]. rewrite decide_True by done. wp_step.
    split; [done|]. split; [done|]. left. split; [done|]. by exists ts.
  - destruct r; [done|]. cbn [bind_post]. split; [done|]. split; [done|].
    right. split_and!; [done..|]. by right.
Qed.

Lemma wp_replace_alone p w i :
  temp_path p = temp → draft fs0 b (file_mode None) euid egid [] i → i_nlink i = 1 → w_fs w ≡ stage i →
  wp (replace p file path bytes expected original id id) (replace_ends w) (w, p).
Proof.
  intros Hp Hi Hli Hw. unfold replace. rewrite Hp.
  eapply replace_moves; [by apply (moves_preserve_metadata fs0 path bytes expected temp Hscratch file _ b [])
    |done|exact Hi|exact Hli|exact Hw|done|].
  intros w1 i1 S1 Hi1 Hl1 Hw1.
  eapply replace_moves; [by apply (moves_write_all fs0 path bytes expected temp Hscratch file b)
    |done|exact Hi1|exact Hl1|exact Hw1|done|].
  intros w2 i2 S2 Hi2 Hl2 Hw2.
  eapply (replace_moves _ tt finished finished); [|exact S2|exact Hi2|exact Hl2|exact Hw2|done|].
  { apply (moves_call fs0 path bytes expected temp Hscratch "write(sync)" (λ _ fs, (Ok tt, fs))). eauto 6. }
  intros w3 i3 S3 Hi3 Hl3 Hw3.
  eapply (replace_moves _ tt finished finished); [eapply moves_look; [exact Hscratch|apply looks_conflict_for_existing|]|
    exact S3|exact Hi3|exact Hl3|exact Hw3|done|].
  { intros k. cbn beta. rewrite <-Hcheck. apply conflict_spec_lookup, lookup_stage, path_not_temp. }
  intros w4 n S4 Hn Hl4 Hw4. wp_step.
  unfold global at 1, run_hook at 1, wp at 1, id. cbn [fst snd bind_post]. wp_step.
  eapply wp_mono; [by apply wp_publish_checked|].
  intros r [w5 p5] (S5 & Hp5 & Hr); cbn [fst snd] in *.
  destruct Hr as [(-> & Hact & now & Hnow & Hw5)|(Hfault & Hr & Hu)].
  2: { destruct r; [done|]. cbn [bind_post]. split; [by etrans|]. split; [simpl; congruence|].
    right. split_and!; [done..|]. by left. }
  apply finished_inode in Hn as (_ & _ & Hn). destruct (Hn now Hnow) as (ts & Hts & Hch & Hsaved).
  rewrite Hsaved, <-Hch in Hw5. cbn [bind_post]. wp_step.
  unfold global at 1, run_hook at 1, wp at 1, id. cbn [fst snd bind_post].
  apply (wp_verify_published ts); [done|by etrans|simpl; congruence|done..].
Qed.

(** With the destructor. *)
Lemma wp_scope_alone p w i :
  temp_path p = temp → draft fs0 b (file_mode None) euid egid [] i → i_nlink i = 1 → w_fs w ≡ stage i →
  wp (scope drop_pending p (replace p file path bytes expected original id id))
    (λ r w', calls w w' ∧
      ((∃ ts, shown_times ts ∧ r = Ok (mkConditionalWrite (revision_of (saved_inode fs0 ts original bytes))) ∧
        w_fs w' ≡ published (changed ts) fs0 path v (saved_inode fs0 ts original bytes)) ∨
       (faulty ∧ is_ok r = false))) w.
Proof.
  intros Hp Hi Hli Hw. wp_step. eapply wp_mono; [by eapply wp_replace_alone|].
  intros r [w1 p1] (S1 & Hp1 & Hr); cbn [fst snd] in *.
  assert (∀ w', active p1 = false → drop_pending p1 w' = w') as Hidle.
  { intros w' Ha. unfold drop_pending. by rewrite Ha. }
  destruct Hr as [(Hact & ts & Hts & Hr & Hw1)|(Hfault & Hr & [Hu|Hact])].
  - rewrite Hidle by done. split; [done|]. left. by exists ts.
  - split; [|by right]. etrans; [exact S1|by apply drop_unfinished].
  - rewrite Hidle by done. split; [done|]. by right.
Qed.
End publication.

(** ** The whole write *)

(** What a reader finds in any phase. *)
Section old_or_new.
Context `{Kernel} (fs0 : FS) (path : Path) (bytes : list byte) (expected : ExpectedRevision).
Context (Hwf : wf_fs fs0) (Hpath : ¬ temporary path).

#[export] Instance old_or_new_proper fs p data : Proper ((≡) ==> iff) (old_or_new fs p data).
Proof. intros f g Hfg. unfold old_or_new. by rewrite (proj1 Hfg), Hfg. Qed.

Lemma untouched_lookup fs fs' p : wf_fs fs → untouched fs fs' → lookup_path fs' p = lookup_path fs p.
Proof.
  intros Hfs (Hn & Hi). unfold lookup_path. rewrite Hn.
  destruct (names fs !! p) as [v|] eqn:Hv; [|done]. simpl. apply Hfs, elem_of_dom in Hv as [i Hv].
  rewrite Hv. by rewrite (lookup_weaken _ _ _ _ Hv Hi).
Qed.

Lemma untouched_content fs fs' p : wf_fs fs → untouched fs fs' → content fs' p = content fs p.
Proof. intros Hfs Hu. unfold content. by rewrite (untouched_lookup fs). Qed.

Lemma untouched_abandoned fs v i : v ∉ dom (inodes fs) → untouched fs (abandoned fs v i).
Proof. intros Hv. split; [done|]. by apply insert_subseteq, not_elem_of_dom. Qed.

Lemma old_or_new_staged temp i :
  scratch fs0 path temp → old_or_new fs0 path bytes (staged fs0 temp (new_slot fs0) i).
Proof.
  intros Hs. pose proof Hs as (Ht & _). split.
  - intros p _ Hnt. simpl. rewrite lookup_insert_ne; [done|]. by intros <-.
  - left. unfold content. by rewrite lookup_stage by (done || by intros ->).
Qed.

Lemma old_or_new_abandoned i : old_or_new fs0 path bytes (abandoned fs0 (new_slot fs0) i).
Proof. split; [done|]. left. apply untouched_content; [done|]. apply untouched_abandoned, new_slot_unused. Qed.

Lemma old_or_new_published now v i : i_data i = bytes → old_or_new fs0 path bytes (published now fs0 path v i).
Proof.
  intros <-. split.
  - intros p Hp _. simpl. by rewrite lookup_insert_ne.
  - right. unfold content. by rewrite lookup_published.
Qed.

Lemma old_or_new_linked temp v i :
  i_data i = bytes → temporary temp → old_or_new fs0 path bytes (linked fs0 temp path v i).
Proof.
  intros <- Ht. split.
  - intros p Hp Hnt. simpl. rewrite !lookup_insert_ne; [done| |done]. by intros <-.
  - right. unfold content, lookup_path, linked. simpl. rewrite lookup_insert_eq. simpl.
    by rewrite lookup_insert_eq.
Qed.

Lemma old_or_new_phase temp ph fs : in_phase fs0 path bytes expected temp ph fs → old_or_new fs0 path bytes fs.
Proof.
  destruct ph; simpl.
  - intros ->. split; [done|by left].
  - intros (Hs & n & _ & ->). by apply old_or_new_staged.
  - intros (Hs & _ & _ & n & Hd & _ & _ & ->). apply old_or_new_linked; [done|apply Hs].
  - intros (_ & now & n & Hd & _ & ->). by apply old_or_new_published.
  - intros (_ & n & ->). apply old_or_new_abandoned.
Qed.
End old_or_new.

Section whole.
Context `{!Kernel, !Undisturbed}.

Lemma find_temp_ok k dir path serial fs temp :
  parent path = Some dir → find_temp k dir serial fs = Ok temp → scratch fs path temp.
Proof.
  intros Hparent. revert serial. induction k as [|k IH]; intros serial; simpl; [done|].
  destruct (names fs !! join _ _) eqn:Hn; [apply IH|].
  destruct (dir_ok fs (join _ _)) eqn:Hd; [|done].
  intros [= <-]. split; [by do 2 eexists|]. split; [by rewrite Hparent, parent_join|done].
Qed.

(** The new temporary file. *)
Lemma created_temp fs0 temp now :
  names fs0 !! temp = None → dir_ok fs0 temp = true →
  k_create_new temp (at_time now fs0)
    = (Ok (new_slot fs0), at_time now (staged fs0 temp (new_slot fs0) (new_inode (at_time now fs0)))).
Proof.
  intros Hn Hd. unfold k_create_new. rewrite (dir_ok_proper _ _ temp (at_time_equiv now fs0)), Hd.
  cbn [names at_time]. by rewrite Hn.
Qed.

Lemma new_inode_draft fs0 now :
  shown now → draft fs0 now (file_mode None) euid egid [] (new_inode (at_time now fs0)).
Proof. intros Hnow. by exists now, now. Qed.

Section write.
Context (fs0 : FS) (path dir : Path) (bytes : list byte) (expected : ExpectedRevision).
Context (Hwf : wf_fs fs0) (Hparent : parent path = Some dir) (Hpath : ¬ temporary path).

Abbreviation calls := (calls fs0 path bytes expected).
Abbreviation v := (new_slot fs0).

(** A look, or a failed call, before there is a temporary file. *)
Lemma first_calls w w' : w_fs w ≡ fs0 → looked w w' → calls w w'.
Proof. intros Hw. by apply (looked_calls _ _ _ _ path Before). Qed.
Lemma first_call w fs : fs ≡ fs0 → calls w (after_call w fs fs).
Proof. intros Hfs. apply one_call. by apply (stays _ _ _ _ path Before). Qed.

Lemma wp_new_temp_alone k w :
  w_fs w ≡ fs0 →
  wp (new_temp k dir) (λ r w', calls w w' ∧
    match find_temp k dir (w_temp w) fs0 with
    | Ok temp =>
        (r = Ok (mkPendingTemp temp true, mkFile (new_slot fs0) 0) ∧
         ∃ b i, shown b ∧ draft fs0 b (file_mode None) euid egid [] i ∧ i_nlink i = 1 ∧
           w_fs w' ≡ staged fs0 temp (new_slot fs0) i) ∨
        (faulty ∧ is_ok r = false ∧ w_fs w' ≡ fs0)
    | Err e => or_fault r (Err e) ∧ w_fs w' ≡ fs0
    end) w.
Proof.
  revert w. induction k as [|k IH]; intros w Hw; simpl; [by wp_step|].
  wp_step. unfold fetch_add_temp at 1, wp at 1. cbn [fst snd bind_post].
  set (temp := join dir _). set (w1 := mkWorld _ _ _ _).
  assert (calls w w1) as S1 by (exists []; by rewrite app_nil_r).
  do 2 wp_step. unfold create_new. wp_step. apply wp_syscall_alone; cbn [w1 w_fs w_step].
  { intros text fs Hf Hfs. rewrite Hw in Hfs.
    cbn [bind_post]. rewrite decide_False by done. wp_step.
    split; [etrans; [exact S1|by apply first_call]|]. cbn [w_fs after_call].
    destruct (names _ !! temp); [|destruct (dir_ok _ _)].
    - destruct (find_temp _ _ _ _); [right|]; auto.
    - right. auto.
    - auto. }
  intros fs Hfs Hnow. rewrite Hw in Hfs. pose proof (first_call w1 _ Hfs) as Hstay.
  rewrite (equiv_at_time _ _ Hfs) in *. set (now := clock fs) in *. clearbody now. clear fs Hfs.
  destruct (names fs0 !! temp) eqn:Hn.
  { unfold k_create_new. cbn [names at_time]. rewrite Hn. cbn [fst snd bind_post]. rewrite decide_True by done.
    eapply wp_mono; [by apply IH|]. intros r w2 [S2 Hr]. split; [|done].
    etrans; [exact S1|]. etrans; [exact Hstay|exact S2]. }
  destruct (dir_ok fs0 temp) eqn:Hd.
  - rewrite created_temp by done. cbn [fst snd bind_post].
    assert (scratch fs0 path temp) as Hscratch.
    { split; [by do 2 eexists|]. split; [by rewrite Hparent; apply parent_join|done]. }
    do 2 wp_step. split.
    + etrans; [exact S1|]. apply one_call. exists temp, Before, Staged. split; [done|]. split; [|right; constructor].
      by apply (stage_phase _ _ _ _ _ Hscratch _ (new_inode (at_time now fs0))).
    + left. split; [done|]. exists now, (new_inode (at_time now fs0)). split; [done|].
      split; [by apply new_inode_draft|done].
  - unfold k_create_new. cbn [names at_time]. rewrite Hn, (dir_ok_proper _ _ temp (at_time_equiv now fs0)), Hd.
    cbn [fst snd bind_post].
    rewrite decide_False by done. wp_step. split; [etrans; [exact S1|exact Hstay]|by split; [left|]].
Qed.

(** The temporary file does not get its owner. *)
Lemma wp_scope_refused temp b i p w e :
  scratch fs0 path temp → ownership_spec (lstat_of fs0 path) = Err e → p = mkPendingTemp temp true →
  draft fs0 b (file_mode None) euid egid [] i → i_nlink i = 1 → w_fs w ≡ staged fs0 temp (new_slot fs0) i →
  wp (scope drop_pending p (replace p (mkFile (new_slot fs0) 0) path bytes expected (lstat_of fs0 path) id id))
    (λ r w', calls w w' ∧ or_fault r (Err e) ∧ (untouched fs0 (w_fs w') ∨ faulty)) w.
Proof.
  intros Hscratch Hown -> (t & c & _ & _ & Hi) Hlink Hw.
  assert (∀ fs, fs ≡ staged fs0 temp v i → in_phase fs0 path bytes expected temp Staged fs) as Hph
    by (intros; by apply (stage_phase _ _ _ _ _ Hscratch _ i)).
  assert (∀ fs, fs ≡ staged fs0 temp v i →
    ∃ i' now, k_unlink temp fs = (Ok tt, at_time now (abandoned fs0 v i'))) as Hunlink.
  { intros fs Hfs. rewrite (equiv_at_time _ _ Hfs).
    destruct (unlink_staged fs0 path temp Hscratch (clock fs) i) as [i' Hi']; [|by exists i', (clock fs)].
    subst i. unfold inode_is_dir, has_type. cbn [i_mode temp_inode]. by rewrite file_mode_type. }
  wp_step. unfold replace. do 2 wp_step. unfold preserve_metadata, ownership_spec in *.
  destruct (lstat_of fs0 path) as [md|]; [|done]. destruct (bool_decide _ || _) eqn:Hb; [done|].
  injection Hown as <-. unfold io, fchown. do 2 wp_step.
  eapply (wp_mono _ (λ r w', calls w w' ∧ w_fs w' ≡ staged fs0 temp v i ∧
    or_fault r (Err EPERM) ∧ is_ok r = false)).
  { apply wp_syscall_alone.
    - intros text fs Hf Hfs. rewrite Hw in Hfs.
      split; [by apply one_call; eapply stays; [by apply Hph|]|auto].
    - intros fs Hfs _. rewrite Hw in Hfs.
      cbn [f_inode]. unfold k_fchown. rewrite (stage_inode _ _ _ _ Hfs).
      assert (i_uid i = euid ∧ i_gid i = egid) as [-> ->] by (by rewrite Hi).
      rewrite Hb. cbn [fst snd]. split; [by apply one_call; eapply stays; [by apply Hph|]|auto]. }
  intros r w1 (S1 & Hw1 & Hr & Herr). destruct r as [u|e]; [done|].
  cbn [bind_post result_map_err fst snd]. unfold drop_pending, remove_file. cbn [active temp_path].
  assert (or_fault (Err (io_error "write(set ownership)" e) : result ConditionalWrite _)
    (Err (io_error "write(set ownership)" EPERM))) as Hr'.
  { destruct Hr as [[= ->]|[Hf _]]; auto. }
  match goal with |- _ ∧ ?Q ∧ _ =>
    apply (wp_syscall_alone (λ _, k_unlink temp) (λ _ w', calls w w' ∧ Q ∧ (untouched fs0 (w_fs w') ∨ faulty)))
  end.
  - intros text fs Hf Hfs. rewrite Hw1 in Hfs.
    split_and!; [|exact Hr'|by right].
    etrans; [exact S1|by apply one_call; eapply stays; [by apply Hph|]].
  - intros fs Hfs _. rewrite Hw1 in Hfs.
    destruct (Hunlink _ Hfs) as (j & now & Hu). rewrite Hu. cbn [fst snd w_fs after_call].
    split_and!; [|exact Hr'|left; rewrite at_time_equiv; by apply untouched_abandoned, new_slot_unused].
    etrans; [exact S1|]. apply one_call. exists temp, Staged, Abandoned.
    split; [by apply Hph|]. split; [|right; constructor]. rewrite at_time_equiv. split; [done|]. by exists j.
Qed.
End write.

(** What the specification fixes about the final file system. *)
Definition write_ends (fs0 : FS) (ts : Times) (serial : Z) (dir path : Path) (bytes : list byte)
    (expected : ExpectedRevision) (r : result ConditionalWrite RevisionError) (fs : FS) : Prop :=
  match write_spec fs0 ts serial dir path bytes expected with
  | Ok cw =>
      (r = Ok cw ∧ fs ≡ published (changed ts) fs0 path (new_slot fs0)
                          (saved_inode fs0 ts (lstat_of fs0 path) bytes)) ∨
      (faulty ∧ is_ok r = false)
  | Err e => or_fault r (Err e) ∧ (untouched fs0 fs ∨ faulty)
  end.

Lemma some_times : ∃ ts, shown_times ts.
Proof. destruct some_time as [t Ht]. by exists (mkTimes t t t). Qed.

(** An end that does not depend on the times. *)
Lemma some_ends P : (∀ ts, P ts) → ∃ ts, shown_times ts ∧ P ts.
Proof. destruct some_times as [ts Hts]. intros HP. by exists ts. Qed.

(** A failed call ends the write before anything is published. *)
Lemma ends_faulty fs0 ts serial dir path bytes expected e fs :
  faulty → write_ends fs0 ts serial dir path bytes expected (Err e) fs.
Proof. intros Hf. unfold write_ends. destruct (write_spec _ _ _ _ _ _ _); auto. Qed.

(** From the temporary file on. *)
Lemma wp_replace_checked fs0 path dir bytes expected w :
  wf_fs fs0 → parent path = Some dir → ¬ temporary path → w_fs w ≡ fs0 →
  Z.of_nat (length bytes) ≤ MAX_READ_BYTES → valid_utf8 bytes = true →
  conflict_spec fs0 expected path = Ok tt →
  wp (created ← pending_temp_new dir;
      let '(pending, temp) := created in
      scope drop_pending pending (replace pending temp path bytes expected (lstat_of fs0 path) id id))
    (λ r w', calls fs0 path bytes expected w w' ∧
      ∃ ts, shown_times ts ∧ write_ends fs0 ts (w_temp w) dir path bytes expected r (w_fs w')) w.
Proof.
  intros Hwf Hparent Hpath Hw Hsize Hutf Hcheck.
  assert (∀ f, f ≡ fs0 → untouched fs0 f) as HU by (intros f ->; done).
  pose proof (λ ts, ends_faulty fs0 ts (w_temp w) dir path bytes expected) as Hfaulty.
  unfold write_ends, write_spec in *. rewrite (proj2 (Z.ltb_ge _ _) Hsize), Hutf, Hcheck in *.
  cbn [negb result_bind] in *.
  unfold pending_temp_new. wp_step. eapply wp_mono; [by apply (wp_new_temp_alone fs0 path dir bytes expected Hparent)|].
  intros r w3 [S3 Hr]. destruct (find_temp 100 dir (w_temp w) fs0) as [temp|e] eqn:Htemp; cbn [result_bind] in *.
  2: { destruct Hr as [Hr F3]. assert (is_ok r = false) as Herr by (by destruct Hr as [->|[? ?]]).
    destruct r; [done|]. cbn [bind_post]. split; [done|]. apply some_ends. intros ts.
    split; [|by left; apply HU]. destruct Hr as [[= ->]|[? _]]; auto. }
  apply (find_temp_ok _ _ path) in Htemp as Hscratch; [|done].
  destruct Hr as [(-> & b & i & Hb & Hi & Hli & F3)|(Hfault & Hr & F3)].
  2: { destruct r; [done|]. cbn [bind_post]. split; [done|]. apply some_ends. intros ts. by apply Hfaulty. }
  cbn [bind_post]. destruct (ownership_spec (lstat_of fs0 path)) as [[]|e] eqn:Hown; cbn [result_bind] in *.
  - eapply wp_mono; [by eapply (wp_scope_alone fs0 dir path bytes expected temp) with (b := b)|].
    intros r w4 (S4 & Hr). split; [by etrans|].
    destruct Hr as [(ts & Hts & Hr & F4)|Hr]; [exists ts; split; [done|]; by left|].
    apply some_ends. by right.
  - eapply wp_mono; [by eapply (wp_scope_refused fs0 path bytes expected)|].
    intros r w4 (S4 & Hr). split; [by etrans|]. by apply some_ends.
Qed.

Lemma wp_write_alone path dir bytes expected w :
  wf_fs (w_fs w) → parent path = Some dir → ¬ temporary path →
  wp (conditional_write_locked path bytes expected) (λ r w',
    calls (w_fs w) path bytes expected w w' ∧
    ∃ ts, shown_times ts ∧ write_ends (w_fs w) ts (w_temp w) dir path bytes expected r (w_fs w')) w.
Proof.
  intros Hwf Hparent Hpath. set (fs0 := w_fs w) in *.
  assert (∀ f, f ≡ fs0 → untouched fs0 f) as HU by (intros f ->; done).
  pose proof (first_calls fs0 path bytes expected) as Hlooked.
  pose proof (λ ts, ends_faulty fs0 ts (w_temp w) dir path bytes expected) as Hfaulty.
  pose proof (wp_replace_checked fs0 path dir bytes expected) as Hreplace.
  unfold write_ends, write_spec in *.
  unfold conditional_write_locked, conditional_write_locked_with_hooks, guard_err.
  wp_step. destruct (Z.ltb_spec MAX_READ_BYTES (Z.of_nat (length bytes)))
    as [|Hsize]; wp_step; [split; [done|apply some_ends; auto]|].
  wp_step. destruct (valid_utf8 bytes) eqn:Hutf; cbn [negb] in *; wp_step;
    [|split; [done|apply some_ends; auto]].
  wp_step. eapply wp_mono; [by apply (looks_conflict_for_existing _ _ w fs0)|].
  intros r w1 [L1 Hr]. pose proof (Hlooked w w1 ltac:(done) L1) as S1.
  destruct L1 as (F1 & T1 & _). change (w_fs w) with fs0 in F1.
  destruct (conflict_spec fs0 expected path) as [[]|e] eqn:Hcheck.
  2: { assert (is_ok r = false) as Herr by (by destruct Hr as [->|[? ?]]).
    destruct r; [done|]. cbn [bind_post result_bind]. split; [done|]. apply some_ends. intros ts.
    split; [|by left; apply HU]. destruct Hr as [[= ->]|[? _]]; auto. }
  destruct Hr as [->|[Hfault Hr]].
  2: { destruct r; [done|]. cbn [bind_post]. split; [done|]. apply some_ends. intros ts. by apply Hfaulty. }
  cbn [bind_post]. wp_step. eapply wp_mono; [by apply (looks_checked_lstat _ w1 fs0)|].
  intros r w2 [L2 Hr]. pose proof (Hlooked w1 w2 F1 L2) as S2.
  destruct L2 as (F2 & T2 & _). rewrite F1 in F2.
  destruct Hr as [->|[Hfault Hr]].
  2: { destruct r; [done|]. cbn [bind_post]. split; [by etrans|]. apply some_ends. intros ts. by apply Hfaulty. }
  cbn [bind_post]. rewrite Hparent. change (default _ (Some dir)) with dir. cbn zeta.
  eapply wp_mono; [by apply Hreplace|]. intros r w3 (S3 & ts & Hts & Hends).
  split; [etrans; [exact S1|by etrans]|]. exists ts. split; [done|]. by rewrite T2, T1 in Hends.
Qed.
End whole.

(** ** Properties *)

(** The run of a routine, taken apart. *)
Abbreviation result_of m w := (m w).1.
Abbreviation world_after m w := (m w).2.

Section facts.
Context `{!Kernel, !Undisturbed, !Faultless}.
Context (path dir : Path) (bytes : list byte) (expected : ExpectedRevision) (w : World).
Context (Hwf : wf_fs (w_fs w)) (Hparent : parent path = Some dir) (Hpath : ¬ temporary path).

Lemma not_faulty : ¬ faulty.
Proof. intros (k & text & Hf). by rewrite faultless in Hf. Qed.

(** Running alone, the write computes its specification. *)
Lemma write_computes :
  ∃ ts, shown_times ts ∧
  match write_spec (w_fs w) ts (w_temp w) dir path bytes expected with
  | Ok cw =>
      result_of (conditional_write_locked path bytes expected) w = Ok cw ∧
      w_fs (world_after (conditional_write_locked path bytes expected) w)
        ≡ published (changed ts) (w_fs w) path (new_slot (w_fs w))
            (saved_inode (w_fs w) ts (lstat_of (w_fs w) path) bytes)
  | Err e =>
      result_of (conditional_write_locked path bytes expected) w = Err e ∧
      untouched (w_fs w) (w_fs (world_after (conditional_write_locked path bytes expected) w))
  end.
Proof.
  destruct (wp_write_alone path dir bytes expected w Hwf Hparent Hpath) as (_ & ts & Hts & Hends).
  exists ts. split; [done|].
  pose proof not_faulty. unfold write_ends in Hends. destruct (write_spec _ _ _ _ _ _ _).
  - destruct Hends as [Hends|[? _]]; [exact Hends|done].
  - destruct Hends as [Hr [Hu|?]]; [|done]. by apply or_fault_never in Hr.
Qed.

(** What a successful write had before it and has behind it. *)
Lemma write_ok_inv cw :
  result_of (conditional_write_locked path bytes expected) w = Ok cw →
  conflict_spec (w_fs w) expected path = Ok tt ∧
  Z.of_nat (length bytes) ≤ MAX_READ_BYTES ∧ valid_utf8 bytes = true ∧
  ∃ ts, shown_times ts ∧
  let n := saved_inode (w_fs w) ts (lstat_of (w_fs w) path) bytes in
  saved_revision cw = revision_of n ∧
  w_fs (world_after (conditional_write_locked path bytes expected) w)
    ≡ published (changed ts) (w_fs w) path (new_slot (w_fs w)) n.
Proof.
  intros Hok. destruct write_computes as (ts & Hts & Hw). rewrite Hok in Hw.
  destruct (write_spec _ _ _ _ _ _ _) as [cw'|e] eqn:Hspec; [|by destruct Hw].
  destruct Hw as [[= <-] Hfs]. unfold write_spec in Hspec.
  destruct (Z.ltb_spec MAX_READ_BYTES (Z.of_nat (length bytes))) as [|Hsize]; [done|].
  destruct (valid_utf8 bytes); [|done]. simpl in Hspec. inv_ok.
  repeat match goal with u : unit |- _ => destruct u end.
  split; [done|]. split; [done|]. split; [done|]. exists ts. split; [done|]. cbn zeta. by rewrite <-Hspec.
Qed.

(** After a save the revision that was expected has become stale. *)
Lemma saved_makes_stale `{!FreshInodes} rev cw :
  expected = ExpPresent rev →
  result_of (conditional_write_locked path bytes expected) w = Ok cw →
  conflict_spec (w_fs (world_after (conditional_write_locked path bytes expected) w)) expected path
    = Err (Conflict Changed (Some (saved_revision cw))).
Proof.
  intros Hexp Hok. destruct (write_ok_inv cw Hok) as (Hc & Hsize & Hutf & ts & Hts & Hrev & Hfs).
  rewrite (conflict_spec_equiv _ _ _ _ Hfs), Hexp in *. unfold conflict_spec at 1.
  rewrite lstat_published, final_type_saved, read_saved by done. cbn [result_bind read_revision].
  apply conflict_spec_present in Hc as (Hvalid & u & i & Hl & Ht & Hold). rewrite Hvalid.
  rewrite decide_False; [by rewrite Hrev|]. intros Hnew. rewrite <-Hold in Hnew.
  apply (f_equal ino) in Hnew. cbn [ino from_metadata revision_of md_ino metadata_of] in Hnew.
  apply lookup_path_inode in Hl as [_ Hi].
  assert (0 < i_nlink i) as Hlinks.
  { unfold final_type in Ht. repeat case_match; try done. split_bools. simpl in *. lia. }
  by apply (pick_ino_fresh (at_time (born ts) (w_fs w)) _ _ Hi Hlinks).
Qed.

Lemma conflict_decides bytes' expected' e :
  conflict_spec (w_fs w) expected' path = Err e →
  Z.of_nat (length bytes') ≤ MAX_READ_BYTES → valid_utf8 bytes' = true →
  result_of (conditional_write_locked path bytes' expected') w = Err e.
Proof.
  intros He Hsize Hutf. enough (wp (conditional_write_locked path bytes' expected')
    (λ r _, r = Err e) w) as Hwp by exact Hwp.
  unfold conditional_write_locked, conditional_write_locked_with_hooks, guard_err.
  rewrite (proj2 (Z.ltb_ge _ _) Hsize), Hutf. cbn [negb]. do 5 wp_step.
  eapply wp_mono; [by apply (looks_conflict_for_existing _ _ w (w_fs w))|].
  intros r w1 [_ Hr]. apply or_fault_never in Hr as ->. rewrite He. reflexivity.
Qed.
End facts.

(** The sample file system is well-formed. *)
Lemma sample_wf : wf_fs (w_fs sample).
Proof.
  intros p v Hp%elem_of_map_to_list. vm_compute in Hp.
  repeat (apply elem_of_cons in Hp as [[= -> ->]|Hp]; [by apply elem_of_dom; eexists|]).
  by apply elem_of_nil in Hp.
Qed.

(** C3: a crash never tears a file. With no other process at work, and whichever
    calls fail, every file system that the write passes through has the old bytes
    or all of the new bytes behind the destination, and every other name, apart
    from the temporary one, leads where it did. *)
Theorem write_is_atomic `{!Kernel, !Undisturbed} path dir bytes expected w :
  wf_fs (w_fs w) → parent path = Some dir → ¬ temporary path →
  let old_or_new := old_or_new (w_fs w) path bytes in
  log_extends (λ before after, old_or_new before ∧ old_or_new after)
    w (world_after (conditional_write_locked path bytes expected) w).
Proof.
  intros Hwf Hparent Hpath. cbn zeta.
  eapply log_extends_weaken; [|apply (wp_write_alone path dir bytes expected w Hwf Hparent Hpath)].
  intros f g (temp & ph & ph' & Hf & Hg & _). split; by eapply old_or_new_phase.
Qed.

(** The disk fails at the first transfer, and again when the name is removed. *)
Definition failing : Kernel := scripted (λ _ fs, fs)
  (λ n, if decide (n = 11 ∨ n = 12)%nat then Some "Input/output error" else None).
#[export] Instance failing_undisturbed : Undisturbed (H := failing).
Proof. done. Qed.

Lemma write_is_atomic_witness :
  let K := failing in
  let run := conditional_write_locked (H := failing) note (ascii_bytes "mine")
               (ExpPresent note_revision) sample in
  log_extends (λ before after, old_or_new (H := failing) sample_fs note (ascii_bytes "mine") before ∧
    old_or_new (H := failing) sample_fs note (ascii_bytes "mine") after) sample run.2 ∧
  run.1 = Err (Io "write(temp): Input/output error") ∧
  content (w_fs run.2) note = Some (ascii_bytes "base").
Proof.
  cbn zeta. split; [|split; vm_compute; reflexivity].
  apply (write_is_atomic (H := failing) note (path_new "/d") _ _ sample sample_wf).
  - reflexivity.
  - by apply ordinary_not_temporary.
Defined.

(** C8: alone and without failures the write is its specification, given the times
    that the clock shows to its calls: the same result, and the same file system; after
    an error every name and every inode is as before. *)
Theorem write_refines_spec `{!Kernel, !Undisturbed, !Faultless} path dir bytes expected w :
  wf_fs (w_fs w) → parent path = Some dir → ¬ temporary path →
  ∃ ts, shown_times ts ∧
  match write_spec (w_fs w) ts (w_temp w) dir path bytes expected with
  | Ok cw =>
      result_of (conditional_write_locked path bytes expected) w = Ok cw ∧
      w_fs (world_after (conditional_write_locked path bytes expected) w)
        ≡ published (changed ts) (w_fs w) path (new_slot (w_fs w))
            (saved_inode (w_fs w) ts (lstat_of (w_fs w) path) bytes)
  | Err e =>
      result_of (conditional_write_locked path bytes expected) w = Err e ∧
      untouched (w_fs w) (w_fs (world_after (conditional_write_locked path bytes expected) w))
  end.
Proof. apply write_computes. Qed.

Lemma write_refines_spec_witness :
  let K := quiet_kernel in
  let run := conditional_write_locked note (ascii_bytes "mine") (ExpPresent note_revision) in
  ∃ ts, shown_times ts ∧
  let saved := saved_inode sample_fs ts (lstat_of sample_fs note) (ascii_bytes "mine") in
  result_of run sample = Ok (mkConditionalWrite (revision_of saved)) ∧
  w_fs (world_after run sample) ≡ published (changed ts) sample_fs note 2%nat saved.
Proof.
  cbn zeta.
  destruct (write_refines_spec (H := quiet_kernel) note (path_new "/d") (ascii_bytes "mine")
    (ExpPresent note_revision) sample sample_wf eq_refl
    (ordinary_not_temporary (H := quiet_kernel) note eq_refl)) as (ts & Hts & Hw).
  exists ts. split; [exact Hts|].
  assert (write_spec (H := quiet_kernel) (w_fs sample) ts (w_temp sample) (path_new "/d") note
    (ascii_bytes "mine") (ExpPresent note_revision) = Ok (mkConditionalWrite (revision_of
      (saved_inode (H := quiet_kernel) sample_fs ts (lstat_of sample_fs note) (ascii_bytes "mine")))))
    as Hs by (vm_compute; reflexivity).
  rewrite Hs in Hw. exact Hw.
Defined.

(** Replacing a file keeps what the user set on it: owner, group and permission
    bits; the new file is a regular one with a single name. *)
Lemma write_preserves_attributes `{!Kernel, !Undisturbed, !Faultless} path dir bytes rev w cw :
  wf_fs (w_fs w) → parent path = Some dir → ¬ temporary path →
  result_of (conditional_write_locked path bytes (ExpPresent rev)) w = Ok cw →
  ∃ u i v i', lookup_path (w_fs w) path = Some (u, i) ∧
    lookup_path (w_fs (world_after (conditional_write_locked path bytes (ExpPresent rev)) w)) path
      = Some (v, i') ∧
    i_uid i' = i_uid i ∧ i_gid i' = i_gid i ∧
    Z.land (i_mode i') PERMISSIONS = Z.land (i_mode i) PERMISSIONS ∧
    final_type (metadata_of i') = None ∧ i_data i' = bytes.
Proof.
  intros Hwf Hparent Hpath Hok.
  destruct (write_ok_inv path dir bytes _ w Hwf Hparent Hpath cw Hok) as (Hc & _ & _ & ts & _ & _ & Hfs).
  apply conflict_spec_present in Hc as (_ & u & i & Hl & _).
  rewrite (lookup_equiv _ _ _ Hfs), lookup_published. unfold lstat_of. rewrite Hl. exists u, i. do 2 eexists. do 2 (split; [done|]). split_and!; [done..| |apply final_type_saved|done].
  cbn [fmap option_fmap option_map snd saved_inode temp_inode i_mode file_mode md_mode metadata_of].
  rewrite Z.land_lor_distr_l, <-Z.land_assoc, Z.land_diag.
  by change (Z.land S_IFREG PERMISSIONS) with 0.
Qed.

Lemma write_preserves_attributes_witness :
  let K := quiet_kernel in
  let run := conditional_write_locked note (ascii_bytes "mine") (ExpPresent note_revision) in
  match result_of run sample with
  | Ok cw => ∃ u i v i', lookup_path sample_fs note = Some (u, i) ∧
      lookup_path (w_fs (world_after run sample)) note = Some (v, i') ∧
      i_uid i' = i_uid i ∧ i_gid i' = i_gid i ∧
      Z.land (i_mode i') PERMISSIONS = Z.land (i_mode i) PERMISSIONS ∧
      final_type (metadata_of i') = None ∧ i_data i' = ascii_bytes "mine"
  | Err _ => False
  end.
Proof.
  cbn zeta. destruct (result_of _ sample) as [cw|e] eqn:Hrun.
  - apply (write_preserves_attributes (H := quiet_kernel) _ (path_new "/d") _
        note_revision sample cw);
      [apply sample_wf|reflexivity|by apply ordinary_not_temporary|exact Hrun].
  - vm_compute in Hrun. discriminate.
Defined.

(** Exactly one of two writers wins. Two editors hold the same revision; after
    the first one has saved, the second one's save is refused with a conflict that
    carries the revision of the first one's file, even if both saved the same
    bytes. *)
Lemma one_writer_wins `{!Kernel, !Undisturbed, !Faultless, !FreshInodes}
    path dir bytes1 bytes2 rev w cw :
  wf_fs (w_fs w) → parent path = Some dir → ¬ temporary path →
  result_of (conditional_write_locked path bytes1 (ExpPresent rev)) w = Ok cw →
  Z.of_nat (length bytes2) ≤ MAX_READ_BYTES → valid_utf8 bytes2 = true →
  result_of (conditional_write_locked path bytes2 (ExpPresent rev))
    (world_after (conditional_write_locked path bytes1 (ExpPresent rev)) w)
  = Err (Conflict Changed (Some (saved_revision cw))).
Proof.
  intros Hwf Hparent Hpath Hok Hsize2 Hutf2. apply conflict_decides; [|done..].
  by eapply saved_makes_stale.
Qed.

(** The second writer saves the very bytes that the first one saved. *)
Lemma one_writer_wins_witness :
  let K := quiet_kernel in
  let run := conditional_write_locked note (ascii_bytes "mine") (ExpPresent note_revision) in
  match result_of run sample with
  | Ok cw => result_of run (world_after run sample)
             = Err (Conflict Changed (Some (saved_revision cw)))
  | Err _ => False
  end.
Proof.
  cbn zeta. destruct (result_of _ sample) as [cw|e] eqn:Hrun.
  - apply (one_writer_wins (H := quiet_kernel) note (path_new "/d") (ascii_bytes "mine") _
      note_revision sample cw);
      [apply sample_wf|reflexivity|by apply ordinary_not_temporary|exact Hrun| |reflexivity].
    vm_compute. discriminate.
  - vm_compute in Hrun. discriminate.
Defined.

(** Exactly one of two creators wins. Both expect the file to be missing; the
    second one is told that it appeared, and gets the first one's revision. *)
Lemma one_creator_wins `{!Kernel, !Undisturbed, !Faultless} path dir bytes1 bytes2 w cw :
  wf_fs (w_fs w) → parent path = Some dir → ¬ temporary path →
  result_of (conditional_write_locked path bytes1 ExpMissing) w = Ok cw →
  Z.of_nat (length bytes2) ≤ MAX_READ_BYTES → valid_utf8 bytes2 = true →
  result_of (conditional_write_locked path bytes2 ExpMissing)
    (world_after (conditional_write_locked path bytes1 ExpMissing) w)
  = Err (Conflict Appeared (Some (saved_revision cw))).
Proof.
  intros Hwf Hparent Hpath Hok Hsize2 Hutf2.
  destruct (write_ok_inv path dir bytes1 _ w Hwf Hparent Hpath cw Hok)
    as (_ & Hsize & Hutf & ts & _ & Hrev & Hfs).
  apply conflict_decides; [|done..]. rewrite (conflict_spec_equiv _ _ _ _ Hfs), Hrev. unfold conflict_spec.
  by rewrite lstat_published, final_type_saved, read_saved.
Qed.

Lemma one_creator_wins_witness :
  let K := quiet_kernel in
  let run text := conditional_write_locked other (ascii_bytes text) ExpMissing in
  match result_of (run "first") sample with
  | Ok cw => result_of (run "second") (world_after (run "first") sample)
             = Err (Conflict Appeared (Some (saved_revision cw)))
  | Err _ => False
  end.
Proof.
  cbn zeta. destruct (result_of _ sample) as [cw|e] eqn:Hrun.
  - apply (one_creator_wins (H := quiet_kernel) other (path_new "/d") (ascii_bytes "first") _
      sample cw);
      [apply sample_wf|reflexivity|by apply ordinary_not_temporary|exact Hrun| |reflexivity].
    vm_compute. discriminate.
  - vm_compute in Hrun. discriminate.
Defined.

(** What was written is what is read. After a successful write the file reads
    back as the written bytes with the returned revision. *)
Lemma write_then_read `{!Kernel, !Undisturbed, !Faultless} path dir bytes expected w cw :
  wf_fs (w_fs w) → parent path = Some dir → ¬ temporary path →
  result_of (conditional_write_locked path bytes expected) w = Ok cw →
  result_of (read_with_revision path)
    (world_after (conditional_write_locked path bytes expected) w)
  = Ok (mkRevisionRead bytes (saved_revision cw)).
Proof.
  intros Hwf Hparent Hpath Hok.
  destruct (write_ok_inv path dir bytes _ w Hwf Hparent Hpath cw Hok)
    as (_ & Hsize & Hutf & ts & _ & Hrev & Hfs).
  destruct (read_with_revision_alone path
    (world_after (conditional_write_locked path bytes expected) w)) as [_ Hr].
  apply or_fault_never in Hr as ->. by rewrite (read_spec_equiv _ _ _ Hfs), Hrev, read_saved.
Qed.

Lemma write_then_read_witness :
  let K := quiet_kernel in
  let run := conditional_write_locked other (ascii_bytes "mine") ExpMissing in
  match result_of run sample with
  | Ok cw => result_of (read_with_revision other) (world_after run sample)
             = Ok (mkRevisionRead (ascii_bytes "mine") (saved_revision cw))
  | Err _ => False
  end.
Proof.
  cbn zeta. destruct (result_of _ sample) as [cw|e] eqn:Hrun.
  - apply (write_then_read (H := quiet_kernel) other (path_new "/d") _ ExpMissing sample cw);
      [apply sample_wf|reflexivity|by apply ordinary_not_temporary|exact Hrun].
  - vm_compute in Hrun. discriminate.
Defined.

(** An editor can always go on saving. If no one else touches the file, the
    revision that a write returned passes the check of the next one. *)
Lemma saved_revision_is_accepted `{!Kernel, !Undisturbed, !Faultless}
    path dir bytes expected w cw :
  wf_fs (w_fs w) → parent path = Some dir → ¬ temporary path → (∀ t, shown t → nsec_ok t.2) →
  result_of (conditional_write_locked path bytes expected) w = Ok cw →
  result_of (conflict_for_existing (ExpPresent (saved_revision cw)) path)
    (world_after (conditional_write_locked path bytes expected) w) = Ok tt.
Proof.
  intros Hwf Hparent Hpath Htime Hok.
  destruct (write_ok_inv path dir bytes _ w Hwf Hparent Hpath cw Hok)
    as (_ & Hsize & Hutf & ts & Hts & Hrev & Hfs).
  destruct (looks_conflict_for_existing (ExpPresent (saved_revision cw)) path _ _ Hfs) as [_ Hr].
  apply or_fault_never in Hr as ->. rewrite Hrev. unfold conflict_spec.
  assert (∀ original, is_valid_file_revision
    (revision_of (saved_inode (w_fs w) ts original bytes)) = true) as ->.
  { intros original. apply from_metadata_valid; apply Htime; apply Hts. }
  rewrite lstat_published, final_type_saved, read_saved by done. simpl.
  by rewrite decide_True.
Qed.

Lemma saved_revision_is_accepted_witness :
  let K := quiet_kernel in
  let run := conditional_write_locked note (ascii_bytes "mine") (ExpPresent note_revision) in
  match result_of run sample with
  | Ok cw => result_of (conflict_for_existing (ExpPresent (saved_revision cw)) note)
               (world_after run sample) = Ok tt
  | Err _ => False
  end.
Proof.
  cbn zeta. destruct (result_of _ sample) as [cw|e] eqn:Hrun.
  - apply (saved_revision_is_accepted (H := quiet_kernel) note (path_new "/d") _
      (ExpPresent note_revision) sample cw);
      [apply sample_wf|reflexivity|by apply ordinary_not_temporary|intros t (k & fs & ->); unfold nsec_ok; simpl; lia|exact Hrun].
  - vm_compute in Hrun. discriminate.
Defined.
