(* ===== verification/Framing.v ===== *)
(** * [framing.rs] and the two ends of the stream in [main.rs]

    Frames (a four-byte little-endian length, then the payload), the writer
    thread, the reading half of the main loop, replies ([send], [finish],
    [finish_revision]) and the [~] shorthand.

    The channel to the writer thread is the list of payloads it has accepted; the
    thread may be gone from some send on ([Receiver]). *)
From S2P Require Import Prelude MachineInt Text Json Kernel Sha256 Reference RevisionTypes.
Local Open Scope string_scope.
Local Open Scope list_scope.
Local Open Scope Z_scope.

Definition MAX_FRAME_BYTES : Z := 32 * 1024 * 1024.
Definition frame_size_allowed (size : Z) : bool := size <=? MAX_FRAME_BYTES.

(** ** The stream *)

(** [(payload.len() as u32).to_le_bytes()], then the payload. *)
Definition frame (payload : list byte) : list byte :=
  le_bytes 4 (wrap32 (Z.of_nat (length payload))) ++ payload.

(** The writer thread: [out.write_all] of the length and of the payload and
    [out.flush], in this order, until one of them fails; [fails n] is how many bytes
    the [n]-th of these calls still delivers when it fails. *)
Fixpoint writer (fails : nat → option nat) (n : nat) (rx : list (list byte)) : list byte :=
  match rx with
  | [] => []
  | payload :: rx =>
      let len := le_bytes 4 (wrap32 (Z.of_nat (length payload))) in
      match fails n, fails (S n), fails (S (S n)) with
      | Some k, _, _ => take k len
      | None, Some k, _ => len ++ take k payload
      | None, None, Some _ => len ++ payload
      | None, None, None => len ++ payload ++ writer fails (S (S (S n))) rx
      end
  end.

(** [stdin.read_exact(&mut buf)] on what is left of the stream. *)
Definition read_exact (n : nat) (stream : list byte) : option (list byte * list byte) :=
  if (n <=? length stream)%nat then Some (take n stream, drop n stream) else None.

(** One round of the main loop's reading: the payload of the next frame. *)
Definition next_frame (stream : list byte) : option (list byte * list byte) :=
  lenbuf ← read_exact 4 stream;
  let n := le_val lenbuf.1 in
  if frame_size_allowed n then read_exact (Z.to_nat n) lenbuf.2 else None.

(** The payloads the main loop reads; every frame takes at least four bytes. *)
Fixpoint frames_upto (fuel : nat) (stream : list byte) : list (list byte) :=
  match fuel with
  | O => []
  | S fuel =>
      match next_frame stream with
      | Some (payload, rest) => payload :: frames_upto fuel rest
      | None => []
      end
  end.
Definition frames (stream : list byte) : list (list byte) := frames_upto (length stream) stream.

(** ** [expand_home] *)

Class Environment := { HOME : option string }.

(** [PathBuf::push]: an absolute component replaces the path. *)
Definition push (path rest : string) : string :=
  if String.prefix "/" rest then rest
  else match last (String.list_ascii_of_string path) with
       | Some c => if Ascii.eqb c slash then path +:+ rest else path +:+ "/" +:+ rest
       | None => rest
       end.

(** [path.strip_prefix("~/")] *)
Definition strip_home (path : string) : option string :=
  if String.prefix "~/" path then Some (String.substring 2 (String.length path - 2) path)
  else None.

Definition expand_home `{Environment} (path : string) : string :=
  if bool_decide (path = "~") || String.prefix "~/" path then
    match HOME with
    | Some home =>
        match strip_home path with
        | Some rest => push home rest
        | None => home
        end
    | None => path
    end
  else path.

(** ** Replies *)

(** The sending half of the channel: what has been sent, and how often a send was
    tried. *)
Record Channel := mkChannel { sent : list (list byte); tries : nat }.

(** Is the receiver, the writer thread, gone at the [n]-th send? *)
Class Receiver := { gone : nat → bool }.

Section replies.
Context `{Json, Receiver}.

(** [tx.send(payload)]: whether it was accepted. *)
Definition tx_send (payload : list byte) (tx : Channel) : bool * Channel :=
  if gone (tries tx) then (false, mkChannel (sent tx) (S (tries tx)))
  else (true, mkChannel (sent tx ++ [payload]) (S (tries tx))).

Definition payload_of (v : Value) : list byte := into_bytes (to_string v).

Definition send (v : Value) (tx : Channel) : Channel :=
  let payload := payload_of v in
  if Z.of_nat (length payload) <=? MAX_FRAME_BYTES then (tx_send payload tx).2 else tx.

Definition finish_value (id : Z) (r : result Value string) : Value :=
  match r with
  | Ok v => insert_field "ok" (of_bool true) (insert_field "id" (of_i64 id) v)
  | Err e => obj [("id", of_i64 id); ("ok", of_bool false); ("error", of_str e)]
  end.
Definition finish (id : Z) (r : result Value string) (tx : Channel) : Channel :=
  send (finish_value id r) tx.

Definition finish_revision_value (id : Z) (r : result Value RevisionError) : Value :=
  match r with
  | Ok v => insert_field "ok" (of_bool true) (insert_field "id" (of_i64 id) v)
  | Err e => insert_field "id" (of_i64 id) (wire_error e)
  end.
Definition finish_revision (id : Z) (r : result Value RevisionError) (tx : Channel) : Channel :=
  send (finish_revision_value id r) tx.
End replies.

(** Instances to evaluate on: no home directory; the connection stands. *)
Definition no_home : Environment := {| HOME := None |}.
Definition connected : Receiver := {| gone := λ _, false |}.

(** ** Lemmas on frames *)

Lemma length_frame p : length (frame p) = (4 + length p)%nat.
Proof. unfold frame. by autorewrite with list_len. Qed.

Lemma read_exact_app n l rest : length l = n → read_exact n (l ++ rest) = Some (l, rest).
Proof.
  intros <-. unfold read_exact. rewrite length_app, (proj2 (Nat.leb_le _ _)) by lia.
  by rewrite take_app_length, drop_app_length.
Qed.

Lemma read_exact_some n l x rest :
  read_exact n l = Some (x, rest) → l = x ++ rest ∧ length x = n.
Proof.
  unfold read_exact. destruct (Nat.leb_spec n (length l)); [|done]. intros [= <- <-].
  by rewrite take_drop, length_take, min_l.
Qed.

(** The size of a message within the frame limit fits its prefix. *)
Definition fits (p : list byte) : Prop := Z.of_nat (length p) ≤ MAX_FRAME_BYTES.

Lemma frame_length_prefix p :
  fits p → le_val (le_bytes 4 (wrap32 (Z.of_nat (length p)))) = Z.of_nat (length p).
Proof.
  unfold fits, MAX_FRAME_BYTES, wrap32. intros Hp. rewrite le_val_bytes.
  change (8 * Z.of_nat 4) with 32. rewrite Z.mod_mod by lia. apply Z.mod_small. lia.
Qed.

Lemma next_frame_app p rest : fits p → next_frame (frame p ++ rest) = Some (p, rest).
Proof.
  intros Hp. unfold next_frame, frame. rewrite <-app_assoc.
  rewrite read_exact_app by apply length_le_bytes. cbn [mbind option_bind fst snd].
  rewrite frame_length_prefix by done. unfold frame_size_allowed. rewrite (proj2 (Z.leb_le _ _) Hp).
  apply read_exact_app. lia.
Qed.

Lemma next_frame_some s p rest :
  next_frame s = Some (p, rest) → fits p ∧ s = frame p ++ rest.
Proof.
  unfold next_frame. destruct (read_exact 4 s) as [[len s1]|] eqn:H4; [|done].
  cbn [mbind option_bind fst snd]. unfold frame_size_allowed.
  destruct (Z.leb_spec (le_val len) MAX_FRAME_BYTES) as [Hn|]; [|done]. intros Hp.
  apply read_exact_some in H4 as [-> Hlen]. apply read_exact_some in Hp as [-> Hp].
  pose proof (le_val_range len) as Hr. rewrite Hlen in Hr. split; [unfold fits; lia|].
  unfold frame. rewrite <-app_assoc. f_equal. unfold wrap32. rewrite Hp, Z2Nat.id by lia.
  rewrite Z.mod_small by lia. rewrite <-Hlen. by rewrite le_bytes_val.
Qed.

(** More fuel than bytes changes nothing. *)
Lemma frames_upto_enough k s : (length s ≤ k)%nat → frames_upto k s = frames s.
Proof.
  enough (∀ k m s, (length s ≤ k → length s ≤ m → frames_upto k s = frames_upto m s)%nat) as He
    by (intros; by apply He).
  clear. intros k. induction k as [|k IH]; intros [|m] s Hk Hm; simpl; try done.
  - destruct s; [done|simpl in *; lia].
  - destruct s; [done|simpl in *; lia].
  - destruct (next_frame s) as [[p rest]|] eqn:Hn; [|done].
    apply next_frame_some in Hn as [_ ->]. rewrite length_app, length_frame in *.
    f_equal. apply IH; lia.
Qed.

Lemma frames_none s : next_frame s = None → frames s = [].
Proof. unfold frames. destruct (length s); simpl; [done|]. by intros ->. Qed.

Lemma frames_cons p rest : fits p → frames (frame p ++ rest) = p :: frames rest.
Proof.
  intros Hp. unfold frames at 1.
  assert (length (frame p ++ rest) = S (length p + 3 + length rest)) as ->
    by (rewrite length_app, length_frame; lia).
  cbn [frames_upto].
  rewrite next_frame_app by done. f_equal. apply frames_upto_enough. lia.
Qed.

Lemma frames_concat ps rest :
  Forall fits ps → frames (concat (frame <$> ps) ++ rest) = ps ++ frames rest.
Proof.
  induction 1 as [|p ps Hp _ IH]; [done|]. rewrite fmap_cons. cbn [concat].
  rewrite <-app_assoc, frames_cons by done. by rewrite IH.
Qed.

(** A proper beginning of a frame is no frame. *)
Lemma next_frame_cut p s : fits p → s `prefix_of` frame p → s ≠ frame p → next_frame s = None.
Proof.
  intros Hp [rest Hs] Hne. destruct (next_frame s) as [[q rest']|] eqn:Hn; [|done].
  apply next_frame_some in Hn as [Hq ->]. exfalso. rewrite <-app_assoc in Hs.
  assert (next_frame (frame p) = Some (p, [])) as H1.
  { rewrite <-(app_nil_r (frame p)). by apply next_frame_app. }
  rewrite Hs, next_frame_app in H1 by done. injection H1 as <- Hnil.
  apply app_nil in Hnil as [-> _]. by rewrite app_nil_r in Hne.
Qed.

Lemma frames_cut ps s :
  Forall fits ps → s `prefix_of` concat (frame <$> ps) → frames s `prefix_of` ps.
Proof.
  intros Hps. revert s. induction Hps as [|p ps Hp _ IH]; intros s Hs;
    rewrite ?fmap_cons in Hs; cbn [concat] in Hs.
  { apply prefix_nil_inv in Hs as ->. done. }
  destruct Hs as [rest Hs].
  destruct (decide (length (frame p) ≤ length s)%nat) as [Hlen|Hlen].
  - assert (take (length (frame p)) s = frame p) as Htake.
    { pose proof (f_equal (take (length (frame p))) Hs) as Ht.
      rewrite take_app_length, take_app_le in Ht by done. done. }
    rewrite <-(take_drop (length (frame p)) s), Htake, frames_cons by done.
    apply prefix_cons, IH. exists rest.
    rewrite <-(take_drop (length (frame p)) s), Htake, <-app_assoc in Hs.
    by apply app_inv_head in Hs.
  - rewrite frames_none; [apply prefix_nil|]. apply (next_frame_cut p); [done| |].
    + exists (drop (length s) (frame p)).
      pose proof (f_equal (take (length s)) Hs) as Ht.
      rewrite take_app_length, take_app_le in Ht by lia. rewrite <-Ht at 1. by rewrite take_drop.
    + intros ->. lia.
Qed.

(** What the writer thread delivers is a beginning of the framed stream. *)
Lemma writer_prefix fails n ps : writer fails n ps `prefix_of` concat (frame <$> ps).
Proof.
  revert n. induction ps as [|p ps IH]; intros n; [done|].
  rewrite fmap_cons. cbn [concat writer]. set (len := le_bytes 4 _). assert (frame p = len ++ p) as -> by done. rewrite <-app_assoc.
  destruct (fails n) as [k|]; [apply prefix_app_r, prefix_take|].
  destruct (fails (S n)) as [k|]; [apply prefix_app, prefix_app_r, prefix_take|].
  destruct (fails (S (S n))) as [k|].
  - apply prefix_app. by apply prefix_app_r.
  - by apply prefix_app, prefix_app, IH.
Qed.

(** ** Lemmas on [~] and on replies *)

Lemma substring_all s : String.substring 0 (String.length s) s = s.
Proof. induction s as [|c s IH]; [done|]. cbn [String.length String.substring]. by rewrite IH. Qed.

Lemma strip_home_rest rest : strip_home ("~/" +:+ rest) = Some rest.
Proof.
  unfold strip_home. rewrite prefix_append. f_equal.
  change (String.length ("~/" +:+ rest)) with (S (S (String.length rest))).
  replace (S (S (String.length rest)) - 2)%nat with (String.length rest) by lia.
  cbn [String.append String.substring]. apply substring_all.
Qed.

Section reply_lemmas.
Context `{JsonLaws, !Receiver}.

Definition channel_fits (tx : Channel) : Prop := Forall fits (sent tx).

Lemma send_fits v tx : channel_fits tx → channel_fits (send v tx).
Proof.
  unfold send, tx_send, channel_fits. intros Htx. destruct (Z.leb_spec (Z.of_nat (length (payload_of v)))
    MAX_FRAME_BYTES) as [Hle|]; [|done]. destruct (gone (tries tx)); [done|]. simpl.
  apply Forall_app. split; [done|]. by apply Forall_singleton.
Qed.

(** A send adds at most its own payload. *)
Lemma send_sent v tx : sent (send v tx) = sent tx ∨ sent (send v tx) = sent tx ++ [payload_of v].
Proof.
  unfold send, tx_send. destruct (_ <=? _); [|by left]. destruct (gone _); [by left|by right].
Qed.

Lemma get_id_ok v id :
  is_Some (as_object v) → i64_range id →
  let v' := insert_field "ok" (of_bool true) (insert_field "id" (of_i64 id) v) in
  get_i64 v' "id" = Some id ∧ get_bool v' "ok" = Some true.
Proof.
  intros Hv Hid v'. unfold v', get_i64, get_bool.
  rewrite !get_insert_field, decide_False, !decide_True by auto. simpl.
  by rewrite as_i64_of, as_bool_of.
Qed.

Lemma wire_error_object e : is_Some (as_object (wire_error e)).
Proof. destruct e; apply obj_object. Qed.

Lemma wire_error_not_ok e : get_bool (wire_error e) "ok" = Some false.
Proof.
  unfold get_bool. destruct e; unfold wire_error, plain_error; rewrite get_obj; unfold fields;
    cbn [foldl fst snd]; simplify_map_eq; apply as_bool_of.
Qed.
End reply_lemmas.

(** ** Properties *)

(** Framing is faithful. A reader of the stream gets exactly the messages that
    were framed, in order, however many and whatever their bytes, as long as each is
    within the frame limit. *)
Lemma frames_round_trip ps :
  Forall fits ps → frames (concat (frame <$> ps)) = ps.
Proof.
  intros Hps. rewrite <-(app_nil_r (concat _)), frames_concat by done.
  by rewrite frames_none, app_nil_r.
Qed.

Lemma frames_round_trip_witness :
  let ps := [ascii_bytes "{}"; []; replicate 300 x00] in
  frames (concat (frame <$> ps)) = ps ∧ length (concat (frame <$> ps)) = 314%nat.
Proof.
  split; [|reflexivity]. apply frames_round_trip.
  repeat constructor; unfold fits, MAX_FRAME_BYTES; vm_compute; discriminate.
Defined.

(** C38: a broken connection loses messages but never garbles one. Whichever write of
    the writer thread fails, and however much of it was still delivered, the other
    side decodes a beginning of the sequence of messages, each of them whole. *)
Theorem writer_never_garbles fails ps :
  Forall fits ps → frames (writer fails 0 ps) `prefix_of` ps.
Proof. intros Hps. apply frames_cut; [done|]. apply writer_prefix. Qed.

(** The payload of the second message is cut after one byte. *)
Lemma writer_never_garbles_witness :
  let ps := [ascii_bytes "{}"; ascii_bytes "null"; ascii_bytes "1"] in
  let fails n := if decide (n = 4)%nat then Some 1%nat else None in
  frames (writer fails 0 ps) `prefix_of` ps ∧ frames (writer fails 0 ps) = [ascii_bytes "{}"].
Proof.
  split; [|vm_compute; reflexivity]. apply writer_never_garbles.
  repeat constructor; unfold fits, MAX_FRAME_BYTES; vm_compute; discriminate.
Defined.

(** C39: the server never buffers more than a frame. On any input stream whatever,
    every payload that the main loop reads is within the frame limit, the payloads are
    consecutive frames from the beginning of the stream, and the loop ends within the
    stream's length. *)
Theorem reading_is_bounded stream :
  Forall fits (frames stream) ∧ concat (frame <$> frames stream) `prefix_of` stream ∧
  4 * Z.of_nat (length (frames stream)) ≤ Z.of_nat (length stream).
Proof.
  unfold frames. generalize (length stream) at 1 2 3 as k. intros k. revert stream.
  induction k as [|k IH]; intros stream; cbn [frames_upto].
  { split_and!; [done|apply prefix_nil|simpl; lia]. }
  destruct (next_frame stream) as [[p rest]|] eqn:Hn.
  2: { split_and!; [done|apply prefix_nil|simpl; lia]. }
  apply next_frame_some in Hn as [Hp ->]. destruct (IH rest) as (H1 & H2 & H3).
  rewrite fmap_cons. cbn [concat]. rewrite length_app, length_frame. cbn [length].
  split_and!; [by constructor|by apply prefix_app|lia].
Qed.

(** Every reply is addressed and marked. The reply to a request carries the
    request's id, and [ok] is true exactly for a successful result; an error reply
    carries its text. *)
Lemma finish_is_addressed `{JsonLaws} id r :
  i64_range id → (∀ v, r = Ok v → is_Some (as_object v)) →
  get_i64 (finish_value id r) "id" = Some id ∧
  get_bool (finish_value id r) "ok" = Some (is_ok r) ∧
  (∀ e, r = Err e → get_str (finish_value id r) "error" = Some e).
Proof.
  intros Hid Hv. destruct r as [v|e]; simpl.
  - destruct (get_id_ok v id) as [-> ->]; [by apply Hv|done|]. done.
  - unfold get_i64, get_bool, get_str. rewrite !get_obj. unfold fields. cbn [foldl fst snd].
    split_and!; [simplify_map_eq; by apply as_i64_of|simplify_map_eq; apply as_bool_of|].
    intros e' [= <-]. simplify_map_eq. apply as_str_of.
Qed.

Lemma finish_is_addressed_witness :
  get_i64 (finish_value 7 (Ok (obj []))) "id" = Some 7 ∧
  get_bool (finish_value 7 (Ok (obj []))) "ok" = Some true ∧
  (∀ e, (Ok (obj []) : result Value string) = Err e →
    get_str (finish_value 7 (Ok (obj []))) "error" = Some e).
Proof. apply (finish_is_addressed 7 (Ok (obj []))); [unfold i64_range; lia|].
  intros v [= <-]. by eexists.
Defined.

(** The [~] shorthand. With a home directory, [~] is that directory and [~/x] the
    path [x] below it; every other path, [~other] included, stays as it is. *)
Lemma expand_home_spec `{Environment} home :
  HOME = Some home →
  expand_home "~" = home ∧
  (∀ rest c, last (String.list_ascii_of_string home) = Some c → c ≠ slash →
    String.prefix "/" rest = false → expand_home ("~/" +:+ rest) = home +:+ "/" +:+ rest) ∧
  (∀ path, path ≠ "~" → String.prefix "~/" path = false → expand_home path = path).
Proof.
  intros Hhome. unfold expand_home. rewrite Hhome. split_and!; [done| |].
  - intros rest c Hlast Hc Hrest. rewrite prefix_append, orb_true_r, strip_home_rest.
    unfold push. rewrite Hrest, Hlast. destruct (Ascii.eqb_spec c slash); [done|done].
  - intros path Hne Hp. by rewrite Hp, bool_decide_eq_false_2.
Qed.

Lemma expand_home_spec_witness :
  let E := {| HOME := Some "/home/me" |} in
  expand_home "~" = "/home/me" ∧ expand_home "~/project" = "/home/me/project" ∧
  expand_home "~other/project" = "~other/project" ∧ expand_home "~//etc" = "/etc".
Proof.
  destruct (expand_home_spec (H := {| HOME := Some "/home/me" |}) "/home/me" eq_refl)
    as (H1 & H2 & H3).
  split; [exact H1|]. split; [apply (H2 "project" (Ascii.ascii_of_N 101)); [reflexivity|discriminate|reflexivity]|].
  split; [apply H3; [discriminate|reflexivity]|vm_compute; reflexivity].
Defined.
