(* ===== verification/Exec.v ===== *)
(** * [fs_handlers.rs]: [exec]

    The request ([parse_exec]), the registry of running process groups, the polling
    loop, the collection of the output, and the two reader threads that share a byte
    budget.

    Time is in milliseconds since the child was started. What a child does is a
    parameter ([Child]): when it exits, when its two streams end and with what, and
    whether and when a [SIGKILL] ends it. The code between two waits takes no time; the
    polls happen at the instants [tick], at least one sleep apart. After a kill the code
    waits for the child's end, however long it takes: a run that waits for ever is one
    that stops with [Hangs]. *)
From S2P Require Import Prelude MachineInt Text Json Kernel Reference Framing.
Local Open Scope string_scope.
Local Open Scope list_scope.
Local Open Scope Z_scope.

Definition DEFAULT_EXEC_TIMEOUT_MS : Z := 30000.
Definition EXEC_COLLECT_GRACE_MS : Z := 100.
Definition EXEC_OUTPUT_LIMIT : Z := 8 * 1024 * 1024.

(** ** The request *)

Record ExecRequest := mkExecRequest {
  argv : list string; timeout_ms : Z; cwd : option string;
}.

Section request.
Context `{Json, Environment}.

(** [.map(..).collect::<Option<Vec<_>>>()] *)
Definition parse_argv (req : Value) : result (list string) string :=
  let? command := ok_or ("exec: missing or non-array " +:+ quoted "command") (get req "command" ≫= as_array) in
  match command with
  | [] => Err ("exec: " +:+ quoted "command" +:+ " must not be empty")
  | _ => ok_or ("exec: " +:+ quoted "command" +:+ " must be an array of strings") (mapM as_str command)
  end.
Definition parse_timeout (req : Value) : result Z string :=
  match get req "timeout_ms" with
  | None => Ok DEFAULT_EXEC_TIMEOUT_MS
  | Some v => ok_or ("exec: " +:+ quoted "timeout_ms" +:+ " must be a positive integer")
                (n ← as_u64 v; if 0 <? n then Some n else None)
  end.
Definition parse_cwd (req : Value) : result (option string) string :=
  match get req "cwd" with
  | None => Ok None
  | Some v => 
      result_map (λ s, Some (expand_home s))
        (ok_or ("exec: " +:+ quoted "cwd" +:+ " must be a string") (as_str v))
  end.
Definition parse_exec (req : Value) : result ExecRequest string :=
  let? a := parse_argv req in
  let? t := parse_timeout req in
  let? c := parse_cwd req in
  Ok (mkExecRequest a t c).
End request.

(** ** The child *)

(** How a piece of [exec] stops early: with an error, or never: it does not return. *)
Inductive Stop := Failed (message : string) | Hangs.

(** What a started child does: when [try_wait] first reports its exit, with its exit
    code (none when a signal ended it); from when on [try_wait] and [wait] fail, with
    the error's text; when each reader thread sends its result, if ever; from when on
    the overflow flag is set; when it has ended if its group is sent [SIGKILL] at a
    given instant (never, where the signal is not permitted or the child is stuck in
    the kernel). *)
Record Child := mkChild {
  exits : option (Z * option Z);
  wait_fails : option (Z * string);
  stdout_sent : option (Z * result (list byte) string);
  stderr_sent : option (Z * result (list byte) string);
  overflows : option Z;
  dies : Z → option Z;
}.

Class Processes := {
  (** [cmd.spawn()]: the child's id and behaviour, or the error's text *)
  spawn : list string → option string → result (Z * Child) string;
  (** the instant of the [k]-th poll *)
  tick : nat → Z;
}.

(** [thread::sleep] sleeps at least as long as it is asked to. *)
Class Sleeps `{Processes} : Prop := {
  tick_start : 0 ≤ tick 0;
  tick_next k : tick k + 20 ≤ tick (S k);
}.

(** The state that [exec] shares with the rest of the server, the registered process
    groups; the groups that were sent [SIGKILL]; and the instant. *)
Record Procs := mkProcs { registry : gset Z; killed : list Z; now : Z }.

Section exec.
Context `{Processes}.

Definition happened {A} (e : option (Z * A)) (now : Z) : bool :=
  match e with Some (t, _) => t <=? now | None => false end.
Definition set_by (e : option Z) (now : Z) : bool :=
  match e with Some t => t <=? now | None => false end.

(** [child.try_wait()] at the instant [now]. *)
Definition try_wait (c : Child) (now : Z) : result (option (option Z)) string :=
  match wait_fails c, exits c with
  | Some (t, e), _ => if t <=? now then Err e else
      match exits c with
      | Some (t, code) => Ok (if t <=? now then Some code else None)
      | None => Ok None
      end
  | None, Some (t, code) => Ok (if t <=? now then Some code else None)
  | None, None => Ok None
  end.

Definition modify {E} (f : Procs → Procs) : stm Procs E unit := λ p, (Ok tt, f p).
Definition register {E} (pgid : Z) : stm Procs E unit :=
  modify (λ p, mkProcs ({[pgid]} ∪ registry p) (killed p) (now p)).
(** [impl Drop for ExecRegistration] *)
Definition unregister (pgid : Z) (p : Procs) : Procs :=
  mkProcs (registry p ∖ {[pgid]}) (killed p) (now p).

(** The child after a [SIGKILL] at the instant [t]. *)
Definition slain (t : Z) (c : Child) : Child :=
  mkChild match dies c t, exits c with
          | Some d, Some (t0, code) => if t0 <=? d then Some (t0, code) else Some (d, None)
          | Some d, None => Some (d, None)
          | None, e => e
          end (wait_fails c) (stdout_sent c) (stderr_sent c) (overflows c) (dies c).
(** [kill_process_group(&mut child)] *)
Definition kill_process_group {E} (pgid : Z) (c : Child) : stm Procs E Child := λ p,
  (Ok (slain (now p) c), mkProcs (registry p) (killed p ++ [pgid]) (now p)).
Definition wait_until {E} (t : Z) : stm Procs E unit :=
  modify (λ p, mkProcs (registry p) (killed p) t).

(** [let _ = child.wait();] blocks until the child has ended, or [wait] itself fails. *)
Definition returns_by (c : Child) : option Z :=
  match exits c, wait_fails c with
  | Some (t, _), Some (t', _) => Some (Z.min t t')
  | Some (t, _), None | None, Some (t, _) => Some t
  | None, None => None
  end.
Definition wait (c : Child) : stm Procs Stop unit := λ p,
  match returns_by c with
  | Some t => wait_until (Z.max (now p) t) p
  | None => throw Hangs p
  end.

Definition overflow_message : string :=
  "exec: output exceeded " +:+ pretty EXEC_OUTPUT_LIMIT +:+ " bytes, process group killed".
Definition timeout_message (timeout : Z) : string :=
  "exec: timed out after " +:+ pretty timeout +:+ "ms, process killed".

(** The polling loop from its [k]-th round on: the status, if the child exited in time.
    Where the [fuel] is exhausted it has not ended. *)
Fixpoint poll_loop (fuel : nat) (k : nat) (pgid timeout : Z) (c : Child) :
    stm Procs Stop (option (option Z)) :=
  match fuel with
  | O => throw Hangs
  | S fuel =>
      wait_until (tick k);;
      match try_wait c (tick k) with
      | Ok (Some code) => mret (Some code)
      | Ok None =>
          if set_by (overflows c) (tick k) then
            child ← kill_process_group pgid c; wait child;; throw (Failed overflow_message)
          else if timeout <=? tick k then
            child ← kill_process_group pgid c; wait child;; mret None
          else poll_loop fuel (S k) pgid timeout c
      | Err e =>
          child ← kill_process_group pgid c; wait child;; throw (Failed ("exec: wait failed: " +:+ e))
      end
  end.

(** One poll every twenty milliseconds. *)
Definition poll_fuel (timeout : Z) : nat := Z.to_nat (timeout / 20) + 2.

(** [timeout.saturating_sub(start.elapsed()).max(grace)] *)
Definition remaining (timeout now : Z) : Z := Z.max (Z.max 0 (timeout - now)) EXEC_COLLECT_GRACE_MS.

(** [rx.recv_timeout(remaining)] and the [match] on its result. *)
Definition collect (sent : option (Z * result (list byte) string)) (timeout : Z) :
    stm Procs Stop (list byte) := λ p,
  let until := now p + remaining timeout (now p) in
  match sent with
  | Some (t, r) =>
      if t <=? until then (wait_until (Z.max (now p) t);; lift_result (result_map_err Failed r)) p
      else (wait_until until;; throw (Failed (timeout_message timeout))) p
  | None => (wait_until until;; throw (Failed (timeout_message timeout))) p
  end.

Record ExecOutput := mkExecOutput {
  exit_code : option Z; stdout : list byte; stderr : list byte;
}.

(** From the registration of the started child to its output. *)
Definition supervised (r : ExecRequest) (pgid : Z) (c : Child) : stm Procs Stop ExecOutput :=
  register pgid;;
  status ← poll_loop (poll_fuel (timeout_ms r)) 0 pgid (timeout_ms r) c;
  match status with
  | None => throw (Failed (timeout_message (timeout_ms r)))
  | Some code =>
      out ← collect (stdout_sent c) (timeout_ms r);
      err ← collect (stderr_sent c) (timeout_ms r);
      mret (mkExecOutput code out err)
  end.
(** The registration is dropped when the code returns. *)
Definition supervise (r : ExecRequest) (pgid : Z) (c : Child) : stm Procs Stop ExecOutput :=
  λ p, match supervised r pgid c p with
       | (Err Hangs, p') => (Err Hangs, p')
       | (res, p') => (res, unregister pgid p')
       end.

Definition run_request (r : ExecRequest) : stm Procs Stop ExecOutput :=
  match spawn (argv r) (cwd r) with
  | Ok (pgid, c) => supervise r pgid c
  | Err e => throw (Failed ("exec: spawn failed: " +:+ e))
  end.

Context `{Json, Environment, Base64}.

Definition exec_value (o : ExecOutput) : Value := obj [
  ("exit_code", of_option of_i64 (exit_code o));
  ("stdout_b64", of_str (encode (stdout o)));
  ("stderr_b64", of_str (encode (stderr o)))].

Definition exec_command_with_registry (req : Value) : stm Procs Stop Value :=
  match parse_exec req with
  | Err e => throw (Failed e)
  | Ok r => o ← run_request r; mret (exec_value o)
  end.
End exec.

(** [kill_registered_execs]: at the end of the connection. *)
Definition kill_registered_execs (p : Procs) : Procs :=
  mkProcs ∅ (killed p ++ elements (registry p)) (now p).

(** ** The reader threads

    Each drains one pipe into its own buffer, in chunks of at most 8192 bytes, and
    counts the bytes in the shared [used]; the one that exceeds the budget sets the
    shared flag and gives up. The rounds of the two interleave freely. *)
Record Reader := mkReader {
  chunks : list (list byte);        (** what the pipe still delivers *)
  failure : option string;          (** the read error at its end, if any *)
  buf : list byte;
  reply : option (result (list byte) string);
}.

(** One round of [spawn_output_reader]'s loop: the reader, [used], [overflow]. *)
Definition reader_round (r : Reader) (used : Z) (overflow : bool) : Reader * Z * bool :=
  match reply r, chunks r with
  | Some _, _ => (r, used, overflow)
  | None, [] =>
      (mkReader [] (failure r) (buf r)
         (Some match failure r with
               | Some e => Err ("exec: output read failed: " +:+ e)
               | None => Ok (buf r)
               end), used, overflow)
  | None, chunk :: rest =>
      let total := used + Z.of_nat (length chunk) in
      if EXEC_OUTPUT_LIMIT <? total then
        (mkReader rest (failure r) (buf r) (Some (Err overflow_message)), total, true)
      else (mkReader rest (failure r) (buf r ++ chunk) None, total, overflow)
  end.

Record Readers := mkReaders { out_reader : Reader; err_reader : Reader; used : Z; overflow : bool }.

Inductive readers_step : Readers → Readers → Prop :=
| out_moves a b u f a' u' f' :
    reader_round a u f = (a', u', f') →
    readers_step (mkReaders a b u f) (mkReaders a' b u' f')
| err_moves a b u f b' u' f' :
    reader_round b u f = (b', u', f') →
    readers_step (mkReaders a b u f) (mkReaders a b' u' f').

(** A pipe that is missing ([None]) is an empty one. *)
Definition new_reader (pipe : list (list byte) * option string) : Reader :=
  mkReader pipe.1 pipe.2 [] None.
Definition start_readers (out err : list (list byte) * option string) : Readers :=
  mkReaders (new_reader out) (new_reader err) 0 false.

(** ** Lemmas on the readers *)

Definition size (l : list byte) : Z := Z.of_nat (length l).

(** What is true of a reader of [pipe] after any number of its rounds. *)
Record reader_ok (pipe : list (list byte) * option string) (r : Reader) : Prop := {
  ok_failure : failure r = pipe.2;
  ok_reading : reply r = None → buf r ++ concat (chunks r) = concat pipe.1;
  ok_reply : ∀ bytes, reply r = Some (Ok bytes) →
    bytes = concat pipe.1 ∧ bytes = buf r ∧ pipe.2 = None;
}.

Lemma new_reader_ok pipe : reader_ok pipe (new_reader pipe).
Proof. by split. Qed.

Lemma reader_round_ok pipe r u f r' u' f' :
  reader_ok pipe r → reader_round r u f = (r', u', f') → reader_ok pipe r'.
Proof.
  intros Hok Hround. unfold reader_round in Hround.
  destruct (reply r) as [x|] eqn:Hreply; [by injection Hround as <- <- <-|].
  destruct Hok as [Hf Hr Hk]. specialize (Hr Hreply). destruct (chunks r) as [|chunk rest].
  - injection Hround as <- <- <-. simpl in Hr. rewrite app_nil_r in Hr.
    split; simpl; [done|done|]. intros bytes. rewrite Hf. destruct pipe.2; [done|].
    by intros [= <-].
  - destruct (_ <? _); injection Hround as <- <- <-; split; simpl; try done.
    by rewrite <-app_assoc.
Qed.

(** The budget: the buffers together hold no more than was counted, and never more
    than the limit; the flag goes up with the first reply that says so. *)
Record budget_ok (s : Readers) : Prop := {
  budget_used : size (buf (out_reader s)) + size (buf (err_reader s)) ≤ used s;
  budget_limit : size (buf (out_reader s)) + size (buf (err_reader s)) ≤ EXEC_OUTPUT_LIMIT;
  budget_flag : reply (out_reader s) = Some (Err overflow_message) ∨
    reply (err_reader s) = Some (Err overflow_message) → overflow s = true;
}.

Lemma reader_round_budget r u f r' u' f' other :
  size (buf r) + other ≤ u → size (buf r) + other ≤ EXEC_OUTPUT_LIMIT →
  (reply r = Some (Err overflow_message) → f = true) →
  reader_round r u f = (r', u', f') →
  size (buf r') + other ≤ u' ∧ size (buf r') + other ≤ EXEC_OUTPUT_LIMIT ∧
  (reply r' = Some (Err overflow_message) → f' = true) ∧ (f = true → f' = true).
Proof.
  intros Hu Hl Hf Hround. unfold reader_round in Hround. unfold size in *.
  destruct (reply r) as [x|] eqn:Hreply.
  { injection Hround as <- <- <-. rewrite Hreply. done. }
  destruct (chunks r) as [|chunk rest].
  { injection Hround as <- <- <-. split_and!; try done. simpl. destruct (failure r) as [e|]; [|done].
    by intros [=]. }
  destruct (Z.ltb_spec EXEC_OUTPUT_LIMIT (u + Z.of_nat (length chunk)));
    injection Hround as <- <- <-; cbn [buf reply]; rewrite ?length_app; split_and!; try done; lia.
Qed.

Lemma readers_step_budget s s' : budget_ok s → readers_step s s' → budget_ok s'.
Proof.
  intros [Hu Hl Hf] Hstep. destruct Hstep as [a b u f a' u' f' Hr|a b u f b' u' f' Hr]; simpl in *.
  - apply (reader_round_budget _ _ _ _ _ _ (size (buf b))) in Hr as (? & ? & Hf' & Hmono);
      [|done..|by auto]. split; simpl; [done..|]. intros [?|?]; auto.
  - apply (reader_round_budget _ _ _ _ _ _ (size (buf a))) in Hr as (? & ? & Hf' & Hmono);
      [|lia..|by auto]. split; simpl; [lia..|]. intros [?|?]; auto.
Qed.

Definition readers_ok (out err : list (list byte) * option string) (s : Readers) : Prop :=
  reader_ok out (out_reader s) ∧ reader_ok err (err_reader s) ∧ budget_ok s.

Lemma readers_reachable out err s :
  rtc readers_step (start_readers out err) s → readers_ok out err s.
Proof.
  intros Hs. assert (readers_ok out err (start_readers out err)) as H0.
  { split_and!; [apply new_reader_ok..|]. split; simpl; [done| |by intros [?|?]].
    unfold EXEC_OUTPUT_LIMIT, size. simpl. lia. }
  revert H0. induction Hs as [s|s s1 s2 Hstep _ IH]; [done|]. intros (Ho & He & Hb). apply IH.
  split_and!; [..|by eapply readers_step_budget];
    destruct Hstep; simpl in *; try done; by eapply reader_round_ok.
Qed.

(** ** Lemmas on the supervision *)

(** The instants of the polls are close together. *)
Class Punctual `{Processes} (slack : Z) : Prop := {
  punctual_start : tick 0 ≤ slack;
  punctual_next k : tick (S k) ≤ tick k + 20 + slack;
}.

Lemma registered_difference (pgid : Z) (R : gset Z) : ({[pgid]} ∪ R) ∖ {[pgid]} = R ∖ {[pgid]}.
Proof. by rewrite difference_union_distr_l_L, difference_diag_L, (left_id_L ∅ (∪)). Qed.

Section supervision.
Context `{!Processes, !Sleeps}.

Lemma tick_after k : 20 * Z.of_nat k ≤ tick k.
Proof.
  induction k as [|k IH]; [apply tick_start|]. pose proof (tick_next k). lia.
Qed.

Definition kill (pgid : Z) (p : Procs) : Procs :=
  mkProcs (registry p) (killed p ++ [pgid]) (now p).

Lemma slack_nonneg slack : Punctual slack → 0 ≤ slack.
Proof. intros Hp. pose proof punctual_start. pose proof tick_start. lia. Qed.

(** At most one late poll after the timeout. *)
Definition in_time (timeout t : Z) : Prop := ∀ slack, Punctual slack → t ≤ timeout + 20 + slack.

(** How the polling loop ends: with the exit of the child and no signal sent, or with
    the group killed and the child's end awaited. [t] is the instant of its last poll. *)
Definition poll_ends (pgid timeout : Z) (c : Child) (p : Procs)
    (r : result (option (option Z)) Stop) (p' : Procs) : Prop :=
  ∃ t, in_time timeout t ∧
    match r with
    | Ok (Some code) => p' = mkProcs (registry p) (killed p) t ∧ ∃ t0, exits c = Some (t0, code) ∧ t0 ≤ t
    | Err Hangs => p' = kill pgid (mkProcs (registry p) (killed p) t) ∧ returns_by (slain t c) = None
    | _ => ∃ t', returns_by (slain t c) = Some t' ∧ p' = kill pgid (mkProcs (registry p) (killed p) (Z.max t t'))
    end.

(** The three ways to the kill. *)
Lemma wp_kill pgid timeout c p t (m : stm Procs Stop (option (option Z))) :
  in_time timeout t →
  (∀ p', ∃ r, m p' = (r, p') ∧ match r with Ok (Some _) | Err Hangs => False | _ => True end) →
  wp (child ← kill_process_group pgid c; wait child;; m) (poll_ends pgid timeout c p)
    (mkProcs (registry p) (killed p) t).
Proof.
  intros Hin Hm. unfold wp, kill_process_group, wait, mbind, stm_bind. cbn [now registry killed].
  destruct (returns_by (slain t c)) as [t'|] eqn:Ht'; [|by exists t].
  unfold wait_until, modify. cbn [fst snd now registry killed].
  destruct (Hm (mkProcs (registry p) (killed p ++ [pgid]) (Z.max t t'))) as (r & -> & Hr). exists t. split; [done|].
  destruct r as [[code|]|[e|]]; try done; by exists t'.
Qed.

Lemma try_wait_some c t code :
  try_wait c t = Ok (Some code) → ∃ t0, exits c = Some (t0, code) ∧ t0 ≤ t.
Proof.
  unfold try_wait. destruct (wait_fails c) as [[tf e]|], (exits c) as [[t0 code0]|];
    repeat case_match; try done; intros [= <-]; split_bools; eauto.
Qed.

Lemma wp_poll_loop fuel k pgid timeout c p :
  0 ≤ timeout → (Z.to_nat (timeout / 20) + 2 ≤ fuel + k)%nat → (0 < fuel)%nat →
  in_time timeout (tick k) →
  wp (poll_loop fuel k pgid timeout c) (poll_ends pgid timeout c p) p.
Proof.
  intros Ht. revert k p. induction fuel as [|fuel IH]; intros k p Hk Hf Hin; [lia|].
  cbn [poll_loop]. wp_step. unfold wait_until at 1, modify at 1, wp at 1. cbn [fst snd bind_post].
  set (p1 := mkProcs _ _ _).
  destruct (try_wait c (tick k)) as [[code|]|e] eqn:Hwait.
  - wp_step. exists (tick k). split; [done|]. split; [done|]. by apply try_wait_some.
  - destruct (set_by (overflows c) (tick k)); [|destruct (Z.leb_spec timeout (tick k))].
    + apply wp_kill; [done|]. intros p'. by eexists.
    + apply wp_kill; [done|]. intros p'. by eexists.
    + pose proof (tick_after k).
      assert (in_time timeout (tick (S k))) as Hin'.
      { intros slack Hp. pose proof (punctual_next (slack := slack) k). lia. }
      destruct (decide (fuel = 0%nat)) as [->|].
      { exfalso. assert (timeout / 20 + 1 ≤ Z.of_nat k) by (rewrite <-(Z2Nat.id (timeout / 20)) by dlia; lia).
        dlia. }
      eapply wp_mono; [apply (IH (S k) p1); [lia..|done]|].
      intros r p' (t & Hin1 & Hr). exists t. split; [done|exact Hr].
  - apply wp_kill; [done|]. intros p'. by eexists.
Qed.

Lemma wp_poll pgid timeout c p :
  0 ≤ timeout → wp (poll_loop (poll_fuel timeout) 0 pgid timeout c) (poll_ends pgid timeout c p) p.
Proof.
  intros Ht. apply wp_poll_loop; [done|unfold poll_fuel; lia..|].
  intros slack Hp. pose proof punctual_start. lia.
Qed.

(** Collecting an output neither sends signals nor waits longer than the budget. *)
Lemma wp_collect sent timeout p :
  wp (collect sent timeout) (λ r p',
    registry p' = registry p ∧ killed p' = killed p ∧
    now p ≤ now p' ≤ Z.max timeout (now p + EXEC_COLLECT_GRACE_MS) ∧
    r ≠ Err Hangs ∧ ∀ buf, r = Ok buf → ∃ t, sent = Some (t, Ok buf)) p.
Proof.
  unfold collect, wp. assert (now p + remaining timeout (now p)
    = Z.max timeout (now p + EXEC_COLLECT_GRACE_MS)) as ->.
  { unfold remaining, EXEC_COLLECT_GRACE_MS. lia. }
  assert (0 ≤ EXEC_COLLECT_GRACE_MS) by (unfold EXEC_COLLECT_GRACE_MS; lia).
  destruct sent as [[t r]|]; [destruct (Z.leb_spec t (Z.max timeout (now p + EXEC_COLLECT_GRACE_MS)))|];
    simpl; split_and!; try done; try lia; destruct r; try done. intros buf [= ->]. eauto.
Qed.

(** A [SIGKILL] ends the child within [d] milliseconds. *)
Definition dies_within (d : Z) (c : Child) : Prop := ∀ t, ∃ t', dies c t = Some t' ∧ t' ≤ t + d.

Lemma returns_within d c t : dies_within d c → ∃ t', returns_by (slain t c) = Some t' ∧ t' ≤ t + d.
Proof.
  intros Hd. destruct (Hd t) as (t1 & Ht1 & Hle). unfold returns_by, slain. cbn [exits wait_fails]. rewrite Ht1.
  destruct (exits c) as [[t0 code]|]; [destruct (Z.leb_spec t0 t1)|];
    destruct (wait_fails c) as [[t2 e]|]; eexists; split; try done; lia.
Qed.

(** How the supervision of a started child ends. *)
Definition supervision_ends (r : ExecRequest) (pgid : Z) (c : Child) (p : Procs)
    (res : result ExecOutput Stop) (p' : Procs) : Prop :=
  (res = Err Hangs ∧ registry p' = {[pgid]} ∪ registry p ∧ killed p' = killed p ++ [pgid] ∧
   ∃ t, returns_by (slain t c) = None) ∨
  (res ≠ Err Hangs ∧ registry p' = registry p ∖ {[pgid]} ∧
   (∀ slack d, Punctual slack → dies_within d c →
      now p' ≤ timeout_ms r + 20 + slack + Z.max d (2 * EXEC_COLLECT_GRACE_MS)) ∧
   (killed p' = killed p ++ [pgid] ∧ is_ok res = false ∧ (∃ t, is_Some (returns_by (slain t c))) ∨
    killed p' = killed p ∧ ∃ t code, exits c = Some (t, code) ∧
      ∀ o, res = Ok o → exit_code o = code ∧
        (∃ t1, stdout_sent c = Some (t1, Ok (stdout o))) ∧
        (∃ t2, stderr_sent c = Some (t2, Ok (stderr o))))).

(** Leaving [supervised] otherwise than by hanging. *)
Definition dropped (pgid : Z) (res : result ExecOutput Stop) (p : Procs) : Procs :=
  match res with Err Hangs => p | _ => unregister pgid p end.

(** The child has exited; its output is collected. *)
Lemma wp_collected r pgid c p t t0 code :
  in_time (timeout_ms r) t → exits c = Some (t0, code) →
  wp (out ← collect (stdout_sent c) (timeout_ms r);
      err ← collect (stderr_sent c) (timeout_ms r);
      mret (mkExecOutput code out err))
    (λ res p', supervision_ends r pgid c p res (dropped pgid res p')) (mkProcs ({[pgid]} ∪ registry p) (killed p) t).
Proof.
  intros Hin Hexit. assert (0 ≤ EXEC_COLLECT_GRACE_MS) by (unfold EXEC_COLLECT_GRACE_MS; lia).
  assert (∀ res p', res ≠ Err Hangs → registry p' = {[pgid]} ∪ registry p → killed p' = killed p →
    now p' ≤ Z.max (timeout_ms r) (Z.max (timeout_ms r) (t + EXEC_COLLECT_GRACE_MS) + EXEC_COLLECT_GRACE_MS) →
    (∀ o, res = Ok o → exit_code o = code ∧ (∃ t1, stdout_sent c = Some (t1, Ok (stdout o))) ∧
       ∃ t2, stderr_sent c = Some (t2, Ok (stderr o))) →
    supervision_ends r pgid c p res (dropped pgid res p')) as Hends.
  { intros res p' Hres Hr Hk Hnow Ho. right.
    assert (dropped pgid res p' = unregister pgid p') as -> by (by destruct res as [|[]]).
    unfold unregister. cbn [registry killed now]. rewrite Hr, registered_difference. split_and!; [done..| |].
    - intros slack d Hp _. specialize (Hin slack Hp). pose proof (slack_nonneg slack Hp). lia.
    - right. split; [done|]. by exists t0, code. }
  wp_step. eapply wp_mono; [apply wp_collect|].
  intros [out|e] p3 (R3 & K3 & T3 & N3 & Ho); cbn [bind_post]; cbn [registry killed now] in *.
  2: { apply Hends; [by intros [= ->]|done..|lia|done]. }
  wp_step. eapply wp_mono; [apply wp_collect|].
  intros [err|e] p4 (R4 & K4 & T4 & N4 & He); cbn [bind_post].
  2: { apply Hends; [by intros [= ->]|congruence..|lia|done]. }
  wp_step. apply Hends; [done|congruence..|lia|]. intros o [= <-]. eauto.
Qed.

Lemma wp_supervised r pgid c p :
  0 ≤ timeout_ms r →
  wp (supervised r pgid c) (λ res p', supervision_ends r pgid c p res (dropped pgid res p')) p.
Proof.
  intros Ht. unfold supervised. wp_step. unfold register, modify at 1, wp at 1. cbn [fst snd bind_post].
  set (p1 := mkProcs _ _ _). wp_step. eapply wp_mono; [by apply (wp_poll _ _ _ p1)|].
  assert (∀ res p2 t t', res ≠ Err Hangs → is_ok res = false → in_time (timeout_ms r) t →
    returns_by (slain t c) = Some t' → p2 = kill pgid (mkProcs (registry p1) (killed p1) (Z.max t t')) →
    supervision_ends r pgid c p res (dropped pgid res p2)) as Hkilled.
  { intros res p2 t t' Hres Hok Hin Ht' ->. right.
    assert (∀ q, dropped pgid res q = unregister pgid q) as -> by (by destruct res as [|[]]).
    cbn [unregister kill registry killed now p1]. rewrite registered_difference. split_and!; [done..| |by left; eauto].
    intros slack d Hp Hd. specialize (Hin slack Hp). destruct (returns_within d c t Hd) as (t1 & Ht1 & Hle).
    pose proof (slack_nonneg slack Hp). rewrite Ht' in Ht1. injection Ht1 as ->. unfold EXEC_COLLECT_GRACE_MS. lia. }
  intros res p2 (t & Hin & Hr). destruct res as [[code|]|[e|]]; cbn [bind_post].
  - destruct Hr as [-> (t0 & Hexit & _)]. exact (wp_collected r pgid c p t t0 code Hin Hexit).
  - destruct Hr as (t' & Ht' & ->). wp_step. by eapply Hkilled.
  - destruct Hr as (t' & Ht' & ->). by eapply Hkilled.
  - destruct Hr as (-> & Hnever). left. split_and!; try done. by exists t.
Qed.

Lemma wp_supervise r pgid c p :
  0 ≤ timeout_ms r → wp (supervise r pgid c) (supervision_ends r pgid c p) p.
Proof.
  intros Ht. pose proof (wp_supervised r pgid c p Ht) as Hwp. unfold wp, supervise in *.
  by destruct (supervised r pgid c p) as [[o|[e|]] p'].
Qed.

(** A child that exits in time is seen to have exited. *)
Lemma poll_sees_exit fuel k pgid timeout c t0 code p :
  (Z.to_nat (timeout / 20) + 2 ≤ fuel + k)%nat → (0 < fuel)%nat →
  exits c = Some (t0, code) → t0 ≤ timeout → 0 ≤ timeout → wait_fails c = None →
  overflows c = None →
  ∃ t, t0 ≤ t ∧ poll_loop fuel k pgid timeout c p
    = (Ok (Some code), mkProcs (registry p) (killed p) t).
Proof.
  intros Hk Hf Hexit Ht0 Ht Hwait Hover. revert k p Hk. induction fuel as [|fuel IH]; intros k p Hk;
    [lia|]. cbn [poll_loop]. unfold mbind, stm_bind at 1, wait_until, modify.
  unfold try_wait at 1. rewrite Hwait, Hexit, Hover. cbn [set_by].
  destruct (Z.leb_spec t0 (tick k)); [by exists (tick k)|].
  rewrite (proj2 (Z.leb_gt _ _)) by lia. pose proof (tick_after k).
  destruct (decide (fuel = 0%nat)) as [->|Hfuel].
  { exfalso. assert (timeout / 20 + 1 ≤ Z.of_nat k)
      by (rewrite <-(Z2Nat.id (timeout / 20)) by dlia; lia). dlia. }
  destruct (IH ltac:(lia) (S k) (mkProcs (registry p) (killed p) (tick k)) ltac:(lia))
    as (t & Hle & Heq). by exists t.
Qed.

(** From then on the output is collected. *)
Lemma supervised_exit r pgid c p t0 code :
  0 ≤ timeout_ms r → exits c = Some (t0, code) → t0 ≤ timeout_ms r → wait_fails c = None → overflows c = None →
  ∃ t, supervised r pgid c p =
    (out ← collect (stdout_sent c) (timeout_ms r);
     err ← collect (stderr_sent c) (timeout_ms r);
     mret (mkExecOutput code out err)) (mkProcs ({[pgid]} ∪ registry p) (killed p) t).
Proof.
  intros Ht Hexit Ht0 Hwait Hover.
  destruct (poll_sees_exit (poll_fuel (timeout_ms r)) 0 pgid (timeout_ms r) c t0 code
    (mkProcs ({[pgid]} ∪ registry p) (killed p) (now p))) as (t & _ & Hpoll);
    [unfold poll_fuel; lia..|done|done|done|done|done|].
  exists t. unfold supervised, register, modify, mbind, stm_bind at 1 2. by rewrite Hpoll.
Qed.

Lemma collect_delivered t1 buf timeout p :
  t1 ≤ timeout → collect (Some (t1, Ok buf)) timeout p
    = (Ok buf, mkProcs (registry p) (killed p) (Z.max (now p) t1)).
Proof.
  intros Ht. unfold collect. rewrite (proj2 (Z.leb_le _ _)); [done|].
  unfold remaining, EXEC_COLLECT_GRACE_MS. lia.
Qed.
End supervision.

(** ** Properties *)

(** C22: [exec] answers in bounded time, if a kill is a kill. Whatever the child does, even
    if it never exits of itself or a descendant keeps its output open for ever: if a
    [SIGKILL] to its group ends it within [d] milliseconds, then the polling loop and the
    whole command return, at most one late poll and the longer of [d] and two collection
    graces after the timeout. A child that neither ends of itself nor by the kill holds its
    worker for ever, its group registered: after the kill the code waits for it. *)
Theorem exec_is_bounded `{!Processes, !Sleeps} r pgid c p :
  0 ≤ timeout_ms r →
  (∀ d, dies_within d c →
     (poll_loop (poll_fuel (timeout_ms r)) 0 pgid (timeout_ms r) c p).1 ≠ Err Hangs ∧
     (supervise r pgid c p).1 ≠ Err Hangs ∧
     ∀ slack, Punctual slack →
       now (supervise r pgid c p).2 ≤ timeout_ms r + 20 + slack + Z.max d (2 * EXEC_COLLECT_GRACE_MS)) ∧
  (exits c = None → wait_fails c = None → (∀ t, dies c t = None) →
     (supervise r pgid c p).1 = Err Hangs ∧ pgid ∈ registry (supervise r pgid c p).2 ∧
     killed (supervise r pgid c p).2 = killed p ++ [pgid]).
Proof.
  intros Ht. pose proof (wp_supervise r pgid c p Ht) as Hends. unfold wp in Hends. split.
  - intros d Hd. split.
    + pose proof (wp_poll pgid (timeout_ms r) c p Ht) as (t & _ & Hr). intros Hangs. rewrite Hangs in Hr.
      destruct Hr as [_ Hnever]. destruct (returns_within d c t Hd) as (t' & Ht' & _). congruence.
    + destruct Hends as [(_ & _ & _ & t & Hnever)|(Hret & _ & Htime & _)]; [|by eauto].
      destruct (returns_within d c t Hd) as (t' & Ht' & _). congruence.
  - intros Hexit Hwait Hdies. destruct Hends as [(Hres & Hreg & Hk & _)|(_ & _ & _ & Hends)].
    + split_and!; [done| |done]. rewrite Hreg. clear. set_solver.
    + exfalso. destruct Hends as [(_ & _ & t & Ht')|(_ & t & code & Hexit' & _)]; [|congruence].
      unfold returns_by, slain in Ht'. cbn [exits wait_fails] in Ht'. rewrite Hexit, Hwait, Hdies in Ht'. by destruct Ht'.
Qed.

(** Polls exactly twenty milliseconds apart. *)
Definition steady_clock : Processes :=
  {| spawn := λ _ _, Err "no such file"; tick := λ k, 20 * Z.of_nat k |}.
Lemma steady_sleeps : Sleeps (H := steady_clock).
Proof. split; [done|]. intros k. simpl tick. lia. Qed.
Lemma steady_punctual : Punctual (H := steady_clock) 0.
Proof. split; [done|]. intros k. simpl tick. lia. Qed.

(** A child that exits at 50, while a descendant holds both streams open, and one that
    never does; a kill takes five milliseconds. One that nothing ends. *)
Definition lingering : Child := mkChild (Some (50, Some 0)) None None None None (λ t, Some (t + 5)).
Definition hanging : Child := mkChild None None None None None (λ t, Some (t + 5)).
Definition unkillable : Child := mkChild None None None None None (λ _, None).
Definition true_request : ExecRequest := mkExecRequest ["true"] 1000 None.
Definition no_procs : Procs := mkProcs ∅ [] 0.

Lemma exec_is_bounded_witness :
  let P := steady_clock in
  ((supervise (H := P) true_request 7 hanging no_procs).1 ≠ Err Hangs ∧
   now (supervise (H := P) true_request 7 hanging no_procs).2 ≤ 1000 + 20 + 0 + Z.max 5 (2 * EXEC_COLLECT_GRACE_MS)) ∧
  now (supervise (H := P) true_request 7 hanging no_procs).2 = 1005 ∧
  now (supervise (H := P) true_request 7 lingering no_procs).2 = 1000 ∧
  (supervise (H := P) true_request 7 unkillable no_procs).1 = Err Hangs.
Proof.
  cbn zeta. pose proof steady_sleeps as Hs. split; [|split; [reflexivity|split; [reflexivity|]]].
  - destruct (exec_is_bounded (H := steady_clock) true_request 7 hanging no_procs) as [Hreturns _]; [simpl; lia|].
    destruct (Hreturns 5) as (_ & Hres & Hnow); [by intros t; exists (t + 5)|].
    split; [exact Hres|]. apply (Hnow 0), steady_punctual.
  - by apply (exec_is_bounded (H := steady_clock) true_request 7 unkillable no_procs).
Defined.

(** C21: what [exec] reports is what happened. A success carries the child's own exit
    code and the complete contents that its two readers sent, and no signal was sent;
    every other outcome either killed the child's group or comes after the child had
    exited; and whenever it returns the group is no longer registered. It does not return
    only if it has killed the group and the child has not ended from it. *)
Theorem exec_reports_the_child `{!Processes, !Sleeps} r pgid c p :
  0 ≤ timeout_ms r →
  let res := (supervise r pgid c p).1 in
  let p' := (supervise r pgid c p).2 in
  (res = Err Hangs → killed p' = killed p ++ [pgid] ∧ ∃ t, returns_by (slain t c) = None) ∧
  (res ≠ Err Hangs → registry p' = registry p ∖ {[pgid]} ∧
   (killed p' = killed p ++ [pgid] ∧ is_ok res = false ∨
    killed p' = killed p ∧ ∃ t code, exits c = Some (t, code) ∧
      ∀ o, res = Ok o → exit_code o = code ∧
        (∃ t1, stdout_sent c = Some (t1, Ok (stdout o))) ∧
        (∃ t2, stderr_sent c = Some (t2, Ok (stderr o))))).
Proof.
  intros Ht. destruct (wp_supervise r pgid c p Ht) as [(Hres & _ & Hk & Hnever)|(Hres & Hreg & _ & Hends)].
  - by split.
  - split; [done|]. intros _. split; [done|]. destruct Hends as [(? & ? & _)|?]; auto.
Qed.

(** It never ends of itself. *)
Lemma exec_reports_the_child_witness :
  let P := steady_clock in
  let run := supervise (H := P) true_request 7 hanging no_procs in
  (registry run.2 = ∅ ∖ {[7]} ∧
   (killed run.2 = [] ++ [7] ∧ is_ok run.1 = false ∨
    killed run.2 = [] ∧ ∃ t code, exits hanging = Some (t, code) ∧
      ∀ o, run.1 = Ok o → exit_code o = code ∧
        (∃ t1, stdout_sent hanging = Some (t1, Ok (stdout o))) ∧
        (∃ t2, stderr_sent hanging = Some (t2, Ok (stderr o))))) ∧
  run.1 = Err (Failed "exec: timed out after 1000ms, process killed").
Proof.
  cbn zeta. pose proof steady_sleeps as Hs. split; [|vm_compute; reflexivity].
  destruct (exec_reports_the_child (H := steady_clock) true_request 7 hanging no_procs) as [_ Hret]; [simpl; lia|].
  apply Hret. vm_compute. discriminate.
Defined.

(** C23: a command that finishes in time succeeds. If the child exits within the
    timeout, its output is within the budget and complete within the timeout, then
    [exec] returns its exit code and its output, and kills nothing. *)
Theorem prompt_command_succeeds `{!Processes, !Sleeps} r pgid c p t0 code t1 out t2 err :
  0 ≤ timeout_ms r → exits c = Some (t0, code) → t0 ≤ timeout_ms r →
  wait_fails c = None → overflows c = None →
  stdout_sent c = Some (t1, Ok out) → t1 ≤ timeout_ms r →
  stderr_sent c = Some (t2, Ok err) → t2 ≤ timeout_ms r →
  (supervise r pgid c p).1 = Ok (mkExecOutput code out err) ∧
  killed (supervise r pgid c p).2 = killed p.
Proof.
  intros Ht Hexit Ht0 Hwait Hover Hout Ht1 Herr Ht2.
  destruct (supervised_exit r pgid c p t0 code) as (t & Hrun); [done..|].
  unfold supervise. rewrite Hrun. unfold mbind, stm_bind.
  rewrite Hout, collect_delivered by done. rewrite Herr, collect_delivered by done. done.
Qed.

Lemma prompt_command_succeeds_witness :
  let P := steady_clock in
  let c := mkChild (Some (130, Some 3)) None (Some (125, Ok (ascii_bytes "out")))
             (Some (131, Ok [])) None (λ _, None) in
  (supervise (H := P) true_request 7 c no_procs).1 = Ok (mkExecOutput (Some 3) (ascii_bytes "out") []) ∧
  killed (supervise (H := P) true_request 7 c no_procs).2 = [].
Proof.
  cbn zeta. pose proof steady_sleeps as Hs.
  apply (prompt_command_succeeds (H := steady_clock) true_request 7 _ no_procs 130 (Some 3) 125 _ 131);
    simpl; (reflexivity || lia).
Defined.

(** C40: a timeout while collecting kills nothing. Whenever the child exits in time but a
    descendant keeps one of its streams open, the answer says that the process was killed,
    although no signal was sent: the descendant lives on, and unregistered. *)
Theorem collection_timeout_kills_nothing `{!Processes, !Sleeps} r pgid c p t0 code :
  0 ≤ timeout_ms r → exits c = Some (t0, code) → t0 ≤ timeout_ms r →
  wait_fails c = None → overflows c = None →
  (stdout_sent c = None ∨
   ∃ t1 out, stdout_sent c = Some (t1, Ok out) ∧ t1 ≤ timeout_ms r ∧ stderr_sent c = None) →
  (supervise r pgid c p).1 = Err (Failed (timeout_message (timeout_ms r))) ∧
  killed (supervise r pgid c p).2 = killed p ∧ registry (supervise r pgid c p).2 = registry p ∖ {[pgid]}.
Proof.
  intros Ht Hexit Ht0 Hwait Hover Hopen.
  destruct (supervised_exit r pgid c p t0 code) as (t & Hrun); [done..|].
  unfold supervise. rewrite Hrun. unfold mbind, stm_bind.
  destruct Hopen as [->|(t1 & out & -> & Ht1 & ->)]; rewrite ?collect_delivered by done;
    (split; [done|split; [done|apply registered_difference]]).
Qed.

(** Only the error stream stays open. *)
Lemma collection_timeout_kills_nothing_witness :
  let c := mkChild (Some (50, Some 0)) None (Some (60, Ok (ascii_bytes "out"))) None None (λ _, None) in
  let run := supervise (H := steady_clock) true_request 7 c no_procs in
  run.1 = Err (Failed "exec: timed out after 1000ms, process killed") ∧ killed run.2 = [] ∧ registry run.2 = ∅ ∖ {[7]}.
Proof.
  cbn zeta. pose proof steady_sleeps as Hs.
  apply (collection_timeout_kills_nothing (H := steady_clock) true_request 7 _ no_procs 50 (Some 0)); try reflexivity;
    [simpl; lia..|]. right. exists 60, (ascii_bytes "out"). split; [reflexivity|]. split; [simpl; lia|reflexivity].
Defined.

(** C24: the output budget holds for every interleaving of the two readers: at no time
    do their buffers hold more than 8 MiB together; a stream reported as complete is
    exactly what its pipe delivered; both can be reported only if together they are
    within the budget; and a reader that gave up has set the flag that makes the
    polling loop kill the group. *)
Theorem readers_respect_budget out err s :
  rtc readers_step (start_readers out err) s →
  size (buf (out_reader s)) + size (buf (err_reader s)) ≤ EXEC_OUTPUT_LIMIT ∧
  (∀ bytes, reply (out_reader s) = Some (Ok bytes) → bytes = concat out.1) ∧
  (∀ bytes, reply (err_reader s) = Some (Ok bytes) → bytes = concat err.1) ∧
  (∀ b1 b2, reply (out_reader s) = Some (Ok b1) → reply (err_reader s) = Some (Ok b2) →
     size (concat out.1) + size (concat err.1) ≤ EXEC_OUTPUT_LIMIT) ∧
  (reply (out_reader s) = Some (Err overflow_message) ∨
   reply (err_reader s) = Some (Err overflow_message) → overflow s = true).
Proof.
  intros Hs. apply readers_reachable in Hs as ([_ _ Ho] & [_ _ He] & [_ Hl Hf]).
  split_and!; [done| | | |done].
  - intros bytes Hb. by destruct (Ho bytes Hb).
  - intros bytes Hb. by destruct (He bytes Hb).
  - intros b1 b2 H1 H2. destruct (Ho b1 H1) as (<- & -> & _). destruct (He b2 H2) as (<- & -> & _).
    done.
Qed.

(** The readers take turns. *)
Lemma readers_respect_budget_witness :
  let out := ([ascii_bytes "a"; ascii_bytes "b"], None) in
  let err := ([ascii_bytes "e"], None) in
  ∃ s, rtc readers_step (start_readers out err) s ∧
    reply (out_reader s) = Some (Ok (ascii_bytes "ab")) ∧
    reply (err_reader s) = Some (Ok (ascii_bytes "e")) ∧
    size (buf (out_reader s)) + size (buf (err_reader s)) ≤ EXEC_OUTPUT_LIMIT.
Proof.
  cbn zeta. set (out := ([_; _], None)). set (err := ([_], None)).
  exists (mkReaders (mkReader [] None (ascii_bytes "ab") (Some (Ok (ascii_bytes "ab"))))
    (mkReader [] None (ascii_bytes "e") (Some (Ok (ascii_bytes "e")))) 3 false).
  assert (rtc readers_step (start_readers out err) (mkReaders
    (mkReader [] None (ascii_bytes "ab") (Some (Ok (ascii_bytes "ab"))))
    (mkReader [] None (ascii_bytes "e") (Some (Ok (ascii_bytes "e")))) 3 false)) as Hrun.
  { eapply rtc_l; [by apply out_moves|]. eapply rtc_l; [by apply err_moves|].
    eapply rtc_l; [by apply out_moves|]. eapply rtc_l; [by apply out_moves|].
    eapply rtc_l; [by apply err_moves|]. apply rtc_refl. }
  split_and!; [exact Hrun|reflexivity..|]. apply (readers_respect_budget out err). exact Hrun.
Defined.

(** Closing the connection leaves no command running: every registered process
    group is killed, and none stays registered. *)
Lemma shutdown_kills_registered p :
  registry (kill_registered_execs p) = ∅ ∧
  ∀ pgid, pgid ∈ registry p → pgid ∈ killed (kill_registered_execs p).
Proof.
  split; [done|]. intros pgid Hp. simpl. apply elem_of_app. right. by apply elem_of_elements.
Qed.
