(* ===== verification/FsHandlers.v ===== *)
(** * [fs_handlers.rs]: the request handler

    [handle_fs] with all its operations, as the source composes them: the [read],
    [read_range], [tail_read], [readdir] and conditional [write] requests, and the
    single-reply operations behind the mutation lock.

    A handler works on a [Session]: the file system, the channel to the writer
    thread, the running commands, and the trace of what it did that other workers
    can notice ([Event]): its file-system calls and its use of the mutation lock. *)
From S2P Require Import Prelude MachineInt Text Json Kernel Files Reference RevisionTypes ReadPath WritePath Framing Exec.
Local Open Scope string_scope.
Local Open Scope list_scope.
Local Open Scope Z_scope.

(** ** The session *)

Inductive Event :=
| Acquired
| Released
| Called (before after : FS).

Record Session := mkSession {
  world : World; channel : Channel; procs : Procs; trace : list Event;
}.

Definition called (e : FS * FS) : Event := Called e.1 e.2.

(** The calls a piece of work appended to the log. *)
Definition new_calls (w w' : World) : list Event := called <$> drop (length (w_log w)) (w_log w').

Definition on_world {E A} (m : IO E A) : stm Session E A := λ s,
  match m (world s) with
  | (r, w') => (r, mkSession w' (channel s) (procs s) (trace s ++ new_calls (world s) w'))
  end.
Definition on_procs {E A} (m : stm Procs E A) : stm Session E A := λ s,
  match m (procs s) with
  | (r, p') => (r, mkSession (world s) (channel s) p' (trace s))
  end.
Definition tell {E} (f : Channel → Channel) : stm Session E unit := λ s,
  (Ok tt, mkSession (world s) (f (channel s)) (procs s) (trace s)).
Definition note_event {E} (e : Event) : stm Session E unit := λ s,
  (Ok tt, mkSession (world s) (channel s) (procs s) (trace s ++ [e])).

(** A scope that holds [mutation_guard()]. *)
Definition with_guard {E A} (m : stm Session E A) : stm Session E A :=
  note_event Acquired;;
  r ← attempt m;
  note_event Released;;
  lift_result r.

Definition READDIR_CHUNK_SIZE : Z := 2000.

Section handlers.
Context `{Kernel, Directories, Json, Base64, Environment, Receiver, Processes}.

(** [revisions::conditional_write] *)
Definition conditional_write (path : Path) (bytes : list byte) (expected : ExpectedRevision) :
    stm Session RevisionError ConditionalWrite :=
  with_guard (on_world (conditional_write_locked path bytes expected)).

(** ** Requests *)

Definition str_or (req : Value) (key default_ : string) : string := default default_ (get_str req key).
Definition bool_or (req : Value) (key : string) (default_ : bool) : bool :=
  default default_ (get_bool req key).
Definition request_id (req : Value) : Z := default 0 (get_i64 req "id").

Definition expected_revision_from_request (req : Value) : result (option ExpectedRevision) string :=
  match get_str req "expected_state" with
  | Some state =>
      if decide (state = "missing") then Ok (Some ExpMissing)
      else if decide (state = "present") then
        Err "write: expected_state present requires expected_revision"
      else Err ("write: invalid expected_state: " +:+ state)
  | None =>
      match get req "expected_revision" with
      | None => Ok None
      | Some value =>
          let? revision := result_map_err (λ e, "write: invalid expected_revision: " +:+ e)
                             (from_value value) in
          Ok (Some (ExpPresent revision))
      end
  end.

(** ** Attributes *)

Definition file_kind (md : Metadata) : string :=
  if is_dir md then "dir" else if is_symlink md then "symlink" else "file".

(** The reply for metadata [md], with the target of a symbolic link. *)
Definition attributes (md : Metadata) (target : option string) : Value := obj [
  ("kind", of_str (file_kind md));
  ("size", of_u64 (md_size md));
  ("mtime", of_i64 (md_mtime md));
  ("mtime_nsec", of_i64 (md_mtime_nsec md));
  ("mode", of_u64 (md_mode md));
  ("symlink", of_bool (is_symlink md));
  ("target", of_option of_str target)].

Definition stat_value {E} (p : Path) : IO E Value :=
  r ← attempt (symlink_metadata p);
  match r with
  | Ok md =>
      target ← (if is_symlink md
                then r ← attempt (read_link p); mret (to_string_lossy <$> result_ok r)
                else mret None);
      mret (attributes md target)
  | Err _ => mret null
  end.

(** The placeholder for an entry that is gone. *)
Definition unknown_entry : Value := obj [
  ("kind", of_str "file"); ("size", of_u64 0); ("mtime", of_u64 0); ("mode", of_u64 0);
  ("symlink", of_bool false); ("target", null)].
Definition dir_entry_value {E} (name : string) (p : Path) : IO E Value :=
  v ← stat_value p;
  mret (insert_field "name" (of_str name) (if is_null v then unknown_entry else v)).

(** ** [readdir] *)

Definition more_message (id : Z) (batch : list Value) : Value := obj [
  ("id", of_i64 id); ("ok", of_bool true); ("more", of_bool true); ("entries", of_array batch)].
Definition last_message (id : Z) (batch : list Value) (self_attrs : Value) : Value := obj [
  ("id", of_i64 id); ("ok", of_bool true); ("entries", of_array batch); ("self_attrs", self_attrs)].

(** [tx.send(v.to_string().into_bytes())]: was it accepted? *)
Definition tell_directly {E} (v : Value) : stm Session E bool := λ s,
  match tx_send (payload_of v) (channel s) with
  | (accepted, tx) => (Ok accepted, mkSession (world s) tx (procs s) (trace s))
  end.

Fixpoint stream_entries {E} (path : Path) (id : Z) (self_attrs : Value)
    (rd : list (result string IoError)) (batch : list Value) : stm Session E unit :=
  match rd with
  | [] => tell (send (last_message id batch self_attrs))
  | Err _ :: rd => stream_entries path id self_attrs rd batch
  | Ok file_name :: rd =>
      v ← on_world (dir_entry_value (to_string_lossy file_name) (join path file_name));
      let batch := batch ++ [v] in
      if READDIR_CHUNK_SIZE <=? Z.of_nat (length batch) then
        accepted ← tell_directly (more_message id batch);
        if (accepted : bool) then stream_entries path id self_attrs rd [] else mret tt
      else stream_entries path id self_attrs rd batch
  end.

Definition readdir_stream {E} (path : Path) (id : Z) : stm Session E unit :=
  r ← attempt (on_world (read_dir path));
  match r with
  | Err e => tell (finish id (Err ("readdir: " +:+ display e)))
  | Ok rd =>
      self_attrs ← on_world (stat_value path);
      stream_entries path id self_attrs rd []
  end.

(** ** Single replies *)

(** [framing::finish(tx, id, m)] and [finish_revision(tx, id, m)]. *)
Definition reply {E} (id : Z) (m : stm Session string Value) : stm Session E unit :=
  r ← attempt m; tell (finish id r).
(** [finish] where the work may never return. *)
Definition answer (id : Z) (m : stm Session Stop Value) : stm Session Stop unit :=
  r ← attempt m;
  match r with
  | Ok v => tell (finish id (Ok v))
  | Err (Failed e) => tell (finish id (Err e))
  | Err Hangs => throw Hangs
  end.
Definition reply_revision {E} (id : Z) (m : stm Session RevisionError Value) : stm Session E unit :=
  r ← attempt m; tell (finish_revision id r).

Definition read_request (path : Path) : stm Session RevisionError Value :=
  read ← on_world (read_with_revision path);
  mret (obj [("bytes_b64", of_str (encode (read_bytes read)));
             ("revision", to_value (read_revision read))]).

Definition read_range_request (req : Value) (path : Path) : stm Session string Value :=
  let start := default 0 (get_u64 req "start") in
  let end_ := default start (get_u64 req "end") in
  bytes ← map_err readable (on_world (read_range path start end_));
  mret (obj [("bytes_b64", of_str (encode bytes)); ("start", of_u64 start); ("end", of_u64 end_)]).

Definition tail_value (t : TailRead) : Value := obj [
  ("bytes_b64", of_str (encode (tail_bytes t)));
  ("start", of_u64 (tail_start t));
  ("actual_end", of_u64 (actual_end t));
  ("file_size", of_u64 (file_size t));
  ("dev", of_u64 (tail_dev t));
  ("ino", of_u64 (tail_ino t));
  ("truncated_or_rotated", of_bool (truncated_or_rotated t));
  ("more_available", of_bool (more_available t))].
Definition tail_read_request (req : Value) (path : Path) : stm Session string Value :=
  tail ← map_err readable (on_world (tail_read path (default 0 (get_u64 req "known_offset"))
           (get_u64 req "known_dev") (get_u64 req "known_ino")
           (default 0 (get_u64 req "max_bytes"))));
  mret (tail_value tail).

(** The part of a [write] request that carries an expectation. *)
Definition conditional_request {E} (req : Value) (path : Path) (id : Z)
    (expected : ExpectedRevision) : stm Session E unit :=
  match get_str req "bytes_b64" with
  | None => tell (finish id (Err "write: missing bytes_b64"))
  | Some encoded =>
      match decode encoded with
      | Err error => tell (finish id (Err ("write decode: " +:+ error)))
      | Ok bytes =>
          reply_revision id (
            saved ← conditional_write path bytes expected;
            mret (obj [("revision", to_value (saved_revision saved))]))
      end
  end.

Definition resolve (path : Path) : IO string Value :=
  real ← map_err (λ e, "resolve: " +:+ display e) (canonicalize path);
  attrs ← stat_value real;
  mret (obj [("realpath", of_str (to_string_lossy (path_string real))); ("attrs", attrs)]).

(** [m.map_err(|e| format!("op: {e}"))] *)
Definition op_io {A} (context : string) (m : IO IoError A) : IO string A :=
  map_err (λ e, context +:+ ": " +:+ display e) m.

Definition write_file (path : Path) (b64 : string) (append must_be_new : bool) : IO string unit :=
  bytes ← lift_result (result_map_err (λ e, "write decode: " +:+ e) (decode b64));
  if must_be_new then
    f ← op_io "write(create new)" (create_new path);
    op_io "write(create new)" (write_all f bytes)
  else if append then
    v ← op_io "write(open append)" (open_append path);
    op_io "write(append)" (append_all v bytes)
  else op_io "write" (fs_write path bytes).

(** [mkdir], [rmdir], [delete], [rename], [copy]: a successful one replies [{}]. *)
Definition mkdir_op (req : Value) (path : Path) : IO string unit :=
  op_io "mkdir" (if bool_or req "parents" false then create_dir_all path else create_dir path).
Definition rmdir_op (req : Value) (path : Path) : IO string unit :=
  op_io "rmdir" (if bool_or req "recursive" false then remove_dir_all path else remove_dir path).
Definition delete_op (path : Path) : IO string unit := op_io "delete" (remove_file path).

(** The check that [rename] and [copy] share, and what follows it. *)
Definition unless_exists (req : Value) (op : string) (act : Path → IO IoError unit) : IO string unit :=
  let to := expand_home (str_or req "to" "") in
  let ok_if_exists := bool_or req "ok_if_exists" true in
  there ← (if ok_if_exists then mret false else exists_at (path_new to));
  if (there : bool) then throw (op +:+ ": destination exists: " +:+ to)
  else op_io op (act (path_new to)).
Definition rename_op (req : Value) (path : Path) : IO string unit :=
  unless_exists req "rename" (rename path).
Definition copy_op (req : Value) (path : Path) : IO string unit :=
  unless_exists req "copy" (λ to, fs_copy path to;; mret tt).

Definition is_mutation (op : string) : bool :=
  bool_decide (op ∈ ["write"; "mkdir"; "rmdir"; "delete"; "rename"; "copy"]).

(** The [match op] at the end of [handle_fs]: all but [exec], which may not return. *)
Definition single_op (op : string) (req : Value) (path : Path) : stm Session string Value :=
  if decide (op = "stat") then on_world (attrs ← stat_value path; mret (obj [("attrs", attrs)]))
  else if decide (op = "resolve") then on_world (resolve path)
  else if decide (op = "write") then
    on_world (write_file path (str_or req "bytes_b64" "") (bool_or req "append" false)
                (bool_or req "must_be_new" false));;
    mret (obj [("ok", of_bool true)])
  else if decide (op = "mkdir") then on_world (mkdir_op req path);; mret (obj [])
  else if decide (op = "rmdir") then on_world (rmdir_op req path);; mret (obj [])
  else if decide (op = "delete") then on_world (delete_op path);; mret (obj [])
  else if decide (op = "rename") then on_world (rename_op req path);; mret (obj [])
  else if decide (op = "copy") then on_world (copy_op req path);; mret (obj [])
  else throw ("unknown fs op: " +:+ op).

Definition dispatch (op : string) (req : Value) (path : Path) : stm Session Stop Value :=
  if decide (op = "exec") then on_procs (exec_command_with_registry req)
  else map_err Failed (single_op op req path).

(** From the guard to the reply; the guard is held until the reply is queued. *)
Definition dispatched (op : string) (req : Value) (path : Path) (id : Z) : stm Session Stop unit :=
  if is_mutation op then with_guard (answer id (dispatch op req path))
  else answer id (dispatch op req path).

(** The operations with replies of their own first, then all others. *)
Definition handle_op (op : string) (req : Value) (path : Path) (id : Z) : stm Session Stop unit :=
  if decide (op = "readdir") then readdir_stream path id
  else if decide (op = "read") then reply_revision id (read_request path)
  else if decide (op = "read_range") then reply id (read_range_request req path)
  else if decide (op = "tail_read") then reply id (tail_read_request req path)
  else if decide (op = "write") then
    let append := bool_or req "append" false in
    let must_be_new := bool_or req "must_be_new" false in
    match expected_revision_from_request req with
    | Err error => tell (finish id (Err error))
    | Ok (Some expected) =>
        if negb append && negb must_be_new then conditional_request req path id expected
        else dispatched op req path id
    | Ok None => dispatched op req path id
    end
  else dispatched op req path id.

Definition handle_fs (req : Value) : stm Session Stop unit :=
  let id := request_id req in
  let op := str_or req "op" "" in
  let path := path_new (expand_home (str_or req "path" "")) in
  handle_op op req path id.

(** A request for [op]. *)
Lemma handle_fs_op req op :
  get_str req "op" = Some op →
  handle_fs req
  = handle_op op req (path_new (expand_home (str_or req "path" ""))) (request_id req).
Proof. intros Hop. unfold handle_fs. unfold str_or at 1. by rewrite Hop. Qed.

(** What cannot hang is answered as ever. *)
Lemma answer_failed id (m : stm Session string Value) s : answer id (map_err Failed m) s = reply id m s.
Proof. unfold answer, reply, attempt, map_err, mbind, stm_bind. by destruct (m s) as [[v|e] s']. Qed.
Lemma answer_single id op req path s :
  op ≠ "exec" → answer id (dispatch op req path) s = reply id (single_op op req path) s.
Proof. intros Hop. unfold dispatch. rewrite decide_False by done. apply answer_failed. Qed.
Lemma mutation_not_exec op : is_mutation op = true → op ≠ "exec".
Proof. by intros Hop ->. Qed.
Lemma guard_answer op id req path s :
  is_mutation op = true →
  with_guard (answer id (dispatch op req path)) s = with_guard (reply id (single_op op req path)) s.
Proof.
  intros Hop. unfold with_guard, note_event, mbind, stm_bind, attempt.
  by rewrite answer_single by (by apply mutation_not_exec).
Qed.
End handlers.
