(* ===== verification/Locking.v ===== *)
(** * The mutation lock

    What a worker does with [mutation_guard] and the file system, read off the trace
    of its session: it never takes the lock twice, it gives it back, and it changes
    the file system only while it holds it. [Server.v] draws the consequence for
    several workers. *)
From S2P Require Import Prelude MachineInt Text Json Kernel Files Reference RevisionTypes ReadPath WritePath WriteSafety Framing Exec FsHandlers.
Local Open Scope string_scope.
Local Open Scope list_scope.
Local Open Scope Z_scope.

(** The rules, for a worker that holds the lock or not. *)
Fixpoint disciplined (held : bool) (l : list Event) : Prop :=
  match l with
  | [] => held = false
  | Acquired :: l => held = false ∧ disciplined true l
  | Released :: l => held = true ∧ disciplined false l
  | Called before after :: l => (held = false → after = before) ∧ disciplined held l
  end.

Lemma disciplined_app held l l' : disciplined held l → disciplined false l' → disciplined held (l ++ l').
Proof.
  revert held. induction l as [|[| |] l IH]; simpl; intros held; [by intros ->|..];
    intros [? ?]; auto.
Qed.

(** Calls alone: anything under the lock, looks without it. *)
Definition is_call (e : Event) : Prop := match e with Called _ _ => True | _ => False end.
Definition is_look (e : Event) : Prop := match e with Called a b => b = a | _ => False end.

Lemma disciplined_looks l : Forall is_look l → disciplined false l.
Proof. induction 1 as [|[] l He _ IH]; simpl in *; try done. all: auto. Qed.

Lemma disciplined_locked l : Forall is_call l → disciplined false (Acquired :: l ++ [Released]).
Proof.
  intros Hl. split; [done|]. induction Hl as [|[] l He _ IH]; simpl in *; try done. all: auto.
Qed.

(** ** Sessions *)

(** The session went on by events that satisfy [P]. *)
Definition extends (P : list Event → Prop) (s s' : Session) : Prop :=
  ∃ l, trace s' = trace s ++ l ∧ P l.
Abbreviation free := (extends (disciplined false)).
Abbreviation calling := (extends (Forall is_call)).
Abbreviation looking := (extends (Forall is_look)).

Lemma extends_preorder P : P [] → (∀ l l', P l → P l' → P (l ++ l')) → PreOrder (extends P).
Proof.
  intros Hnil Happ. split.
  - intros s. exists []. by rewrite app_nil_r.
  - intros s1 s2 s3 (l1 & E1 & H1) (l2 & E2 & H2). exists (l1 ++ l2).
    rewrite E2, E1, app_assoc. auto.
Qed.
#[export] Instance free_preorder : PreOrder free.
Proof. apply extends_preorder; [done|]. intros. by apply disciplined_app. Qed.
#[export] Instance calling_preorder : PreOrder calling.
Proof. apply extends_preorder; [done|]. intros. by apply Forall_app. Qed.

#[export] Instance looking_preorder : PreOrder looking.
Proof. apply extends_preorder; [done|]. intros. by apply Forall_app. Qed.

Lemma looking_free {E A} (m : stm Session E A) : preserves looking m → preserves free m.
Proof. intros Hm s. destruct (Hm s) as (l & Hl & Hlooks). exists l. split; [done|by apply disciplined_looks]. Qed.

(** A relation on sessions that sees only the trace. *)
Lemma extends_same P s s' : P [] → trace s' = trace s → extends P s s'.
Proof. intros HP Ht. exists []. by rewrite app_nil_r. Qed.

Section lifting.
Context (P : list Event → Prop) (HP : P []).

Lemma extends_tell {E} f : preserves (extends P) (tell f : stm Session E unit).
Proof. intros s. by apply extends_same. Qed.
Lemma extends_procs {E A} (m : stm Procs E A) : preserves (extends P) (on_procs m).
Proof. intros s. unfold on_procs. destruct (m (procs s)). by apply extends_same. Qed.
Lemma extends_directly {E} `{Json, Receiver} v :
  preserves (extends P) (tell_directly v : stm Session E bool).
Proof. intros s. unfold tell_directly. destruct (tx_send _ _). by apply extends_same. Qed.

(** The calls of a piece of work. *)
Lemma extends_world {E A} I (m : IO E A) :
  (∀ l, Forall (λ e, I e.1 e.2) l → P (called <$> l)) → logs I m → preserves (extends P) (on_world m).
Proof.
  intros HI Hm s. specialize (Hm (world s)) as (l & Hlog & Hl). unfold on_world, new_calls.
  destruct (m (world s)) as [r w'] eqn:Hw. simpl in *. exists (called <$> l). split; [|auto].
  by rewrite Hlog, drop_app_length.
Qed.
End lifting.

Abbreviation same := (λ fs fs' : FS, fs' = fs).

Lemma looking_world {E A} (m : IO E A) : logs same m → preserves looking (on_world m).
Proof. apply extends_world. intros l Hl. apply Forall_fmap. eapply Forall_impl; [exact Hl|]. by intros []. Qed.
Lemma calling_world {E A} (m : IO E A) : preserves grows m → preserves calling (on_world m).
Proof. apply extends_world. intros l _. by apply Forall_fmap, Forall_true. Qed.

(** Work under the lock. *)
Lemma free_guard {E A} (m : stm Session E A) : preserves calling m → preserves free (with_guard m).
Proof.
  intros Hm s. unfold with_guard, note_event, attempt, mbind, stm_bind, lift_result.
  set (s1 := mkSession _ _ _ _). destruct (Hm s1) as (l & Hl & Hcalls). destruct (m s1) as [r s2].
  simpl in *. exists (Acquired :: l ++ [Released]). rewrite Hl, <-!app_assoc. split; [done|].
  by apply disciplined_locked.
Qed.

#[export] Hint Extern 1 (preserves _ (tell _)) => apply extends_tell; done : preserves.
#[export] Hint Extern 1 (preserves _ (on_procs _)) => apply extends_procs; done : preserves.
#[export] Hint Extern 1 (preserves _ (tell_directly _)) => apply extends_directly; done : preserves.
#[export] Hint Extern 2 (preserves looking (on_world _)) => apply looking_world : preserves.
#[export] Hint Extern 2 (preserves calling (on_world _)) => apply calling_world : preserves.

(** ** What the file-system operations do *)
Section operations.
Context `{Kernel, Directories}.

#[export] Instance same_reflexive : Reflexive same.
Proof. done. Qed.

Section looks.
Context (R : World → World → Prop) `{!PreOrder R, !LookKeeps R}.
Lemma look_exists {E} p : preserves R (exists_at p : IO E bool).
Proof. unfold exists_at, metadata. preserves_tac. Qed.
Lemma look_is_dir {E} p : preserves R (is_dir_at p : IO E bool).
Proof. unfold is_dir_at, metadata. preserves_tac. Qed.
Lemma look_stat_value {E} `{Json} p : preserves R (stat_value p : IO E Value).
Proof. unfold stat_value, symlink_metadata, read_link. preserves_tac. Qed.
Lemma look_dir_entry_value {E} `{Json} name p : preserves R (dir_entry_value name p : IO E Value).
Proof. apply preserves_bind; [exact _|apply look_stat_value|]. intros. apply preserves_ret, _. Qed.
End looks.

Lemma grows_syscall {A} (call : nat → FS → result A IoError * FS) : preserves grows (syscall call).
Proof. by apply logs_syscall. Qed.
End operations.

#[export] Hint Extern 1 (preserves _ (exists_at _)) => apply look_exists; exact _ : preserves.
#[export] Hint Extern 1 (preserves _ (is_dir_at _)) => apply look_is_dir; exact _ : preserves.
#[export] Hint Extern 1 (preserves _ (stat_value _)) => apply look_stat_value; exact _ : preserves.
#[export] Hint Extern 1 (preserves _ (read_range _ _ _)) => apply look_read_range; exact _ : preserves.
#[export] Hint Extern 1 (preserves _ (tail_read _ _ _ _ _)) => apply look_tail_read; exact _ : preserves.
#[export] Hint Extern 1 (preserves _ (syscall _)) => apply grows_syscall : preserves.
#[export] Hint Extern 1 (preserves _ (write_all _ _)) => apply grows_write_all : preserves.
#[export] Hint Extern 1 (preserves _ (preserve_metadata _ _)) => apply grows_preserve_metadata : preserves.
#[export] Hint Extern 1 (preserves _ (new_temp _ _)) => apply grows_new_temp : preserves.

Section growing.
Context `{Kernel, Directories, Json, Base64, Environment}.

Lemma grows_conditional_write path bytes expected :
  preserves grows (conditional_write_locked path bytes expected).
Proof.
  unfold conditional_write_locked, conditional_write_locked_with_hooks, guard_err,
    pending_temp_new.
  do 3 (apply preserves_bind; [exact _|preserves_tac; by apply look_conflict_for_existing, _|intros]).
  apply preserves_bind; [exact _|preserves_tac|intros original]. cbn zeta.
  apply preserves_bind; [exact _|preserves_tac|intros [pending temp]].
  apply preserves_scope; [exact _| |].
  - eapply scoped_replace; try done; try exact _; unfold rename, hard_link, remove_file;
      intros; auto with preserves.
  - intros p' w _. unfold drop_pending. destruct (active p'); [|done].
    apply (grows_syscall (λ _, k_unlink (temp_path p'))).
Qed.

Lemma grows_append_all v bytes : preserves grows (append_all v bytes).
Proof.
  apply preserves_bind; [exact _| |intros; apply preserves_ret, _].
  apply preserves_mloop; [exact _|]. intros [|b todo]; unfold append_round; preserves_tac.
Qed.
Hint Resolve grows_append_all : preserves.

Lemma grows_fs_write p bytes : preserves grows (fs_write p bytes).
Proof. unfold fs_write, open_truncated. preserves_tac. Qed.
Hint Resolve grows_fs_write : preserves.

Lemma grows_write_file path b64 append must_be_new :
  preserves grows (write_file path b64 append must_be_new).
Proof. unfold write_file, op_io, create_new, open_append. preserves_tac. Qed.

Lemma grows_create_dir_all n p : preserves grows (create_dir_all_upto n p).
Proof.
  revert p. induction n as [|n IH]; intros p; simpl; unfold create_dir; preserves_tac.
Qed.

Lemma grows_remove_tree n p : preserves grows (remove_tree n p).
Proof.
  revert p. induction n as [|n IH]; intros p; simpl;
    (apply preserves_bind; [exact _|unfold symlink_metadata; preserves_tac|intros md]);
    (destruct (is_dir md); [|unfold remove_file; preserves_tac]); [preserves_tac|].
  apply preserves_bind; [exact _|unfold read_dir; preserves_tac|intros names].
  apply preserves_bind; [exact _| |intros _; unfold remove_dir; preserves_tac].
  induction names as [|name names IHnames]; [preserves_tac|].
  preserves_tac.
Qed.

Lemma grows_fs_copy from to : preserves grows (fs_copy from to).
Proof. unfold fs_copy, open_truncated, file_metadata, set_permissions. preserves_tac. Qed.

Lemma grows_unless_exists req op act :
  (∀ to, preserves grows (act to)) → preserves grows (unless_exists req op act).
Proof. intros Hact. unfold unless_exists, op_io. preserves_tac. Qed.
End growing.

(** ** The handler *)
Section handler.
Context `{Kernel, Directories, Json, Base64, Environment, Receiver, Processes}.
Hint Resolve grows_conditional_write grows_write_file grows_create_dir_all grows_remove_tree
  grows_fs_copy grows_unless_exists : preserves.

Lemma looking_entries {E} path id self_attrs rd batch :
  preserves looking (stream_entries path id self_attrs rd batch : stm Session E unit).
Proof.
  revert batch. induction rd as [|[name|e] rd IH]; intros batch; cbn [stream_entries];
    [preserves_tac| |apply IH].
  apply preserves_bind; [exact _| |intros v; preserves_tac].
  apply looking_world, look_dir_entry_value; exact _.
Qed.
Hint Resolve looking_entries : preserves.

Lemma looking_readdir {E} path id : preserves looking (readdir_stream path id : stm Session E unit).
Proof. unfold readdir_stream, read_dir. preserves_tac. Qed.

Lemma calling_mutation op req path :
  is_mutation op = true → preserves calling (single_op op req path).
Proof.
  intros Hop%bool_decide_eq_true.
  assert (∀ (m : IO string unit) v, preserves grows m →
    preserves calling (on_world m;; mret v : stm Session string Value)) as Hdo.
  { intros m v Hm. apply preserves_bind; [exact _|by apply calling_world|].
    intros _. apply preserves_ret, _. }
  repeat (apply elem_of_cons in Hop as [->|Hop]); [..|by apply elem_of_nil in Hop]; apply Hdo;
    unfold mkdir_op, rmdir_op, delete_op, rename_op, copy_op, op_io, create_dir_all, create_dir,
      remove_dir_all, remove_dir, remove_file, symlink_metadata;
    try (apply grows_unless_exists; intros to; unfold rename); preserves_tac.
Qed.

Lemma looking_query op req path : is_mutation op = false → preserves looking (dispatch op req path).
Proof.
  intros Hop. unfold dispatch, single_op.
  destruct (decide (op = "exec")); [preserves_tac|]. apply preserves_map_err.
  destruct (decide (op = "stat")); [apply looking_world; preserves_tac|].
  destruct (decide (op = "resolve")); [apply looking_world; unfold resolve, canonicalize; preserves_tac|].
  repeat (destruct (decide _) as [->|_]; [done|]). apply preserves_throw, _.
Qed.
Hint Resolve looking_query : preserves.

Lemma free_dispatched op req path id : preserves free (dispatched op req path id).
Proof.
  unfold dispatched, answer. destruct (is_mutation op) eqn:Hop.
  - apply free_guard. apply preserves_bind; [exact _| |intros; preserves_tac].
    unfold dispatch. rewrite decide_False by (by apply mutation_not_exec).
    by apply preserves_attempt, preserves_map_err, calling_mutation.
  - apply looking_free. preserves_tac.
Qed.
Hint Resolve free_dispatched : preserves.

(** What does not ask for a change only looks. *)
Definition is_query (req : Value) : bool := negb (is_mutation (str_or req "op" "")).

(** Changes are made under the lock until the reply is sent; not so conditional writes,
    and writes with an expectation that cannot be read. *)
Definition replies_locked (req : Value) : bool :=
  let op := str_or req "op" "" in
  is_mutation op &&
  (bool_decide (op ≠ "write") ||
   match expected_revision_from_request req with
   | Err _ => false
   | Ok (Some _) => bool_or req "append" false || bool_or req "must_be_new" false
   | Ok None => true
   end).

Lemma looking_handle_fs req : is_query req = true → preserves looking (handle_fs req).
Proof.
  intros Hq%negb_true_iff. unfold handle_fs, handle_op, dispatched, answer, reply_revision, reply, read_request,
    read_range_request, tail_read_request. cbn zeta.
  destruct (decide _); [apply looking_readdir|]. rewrite Hq.
  repeat (destruct (decide (_ = _)) as [Hop|_]; [by preserves_tac; rewrite Hop in Hq|]). preserves_tac.
Qed.

Lemma free_handle_fs req : preserves free (handle_fs req).
Proof.
  destruct (is_query req) eqn:Hq; [by apply looking_free, looking_handle_fs|].
  apply negb_false_iff in Hq. unfold handle_fs, handle_op. cbn zeta.
  set (op := str_or req "op" "") in *.
  do 4 (destruct (decide _) as [Hop|_]; [by rewrite Hop in Hq|]).
  unfold conditional_request, reply_revision, conditional_write.
  preserves_tac. by apply free_guard, calling_world, grows_conditional_write.
Qed.
End handler.

(** ** Property *)

(** C10: the mutation lock is used as it is meant to. Whatever the request, the worker
    takes the lock at most as long as it does not hold it (so it cannot block itself),
    has given it back when it is done, and changes the file system only under it. *)
Theorem changes_are_locked `{Kernel, Directories, Json, Base64, Environment, Receiver, Processes}
    req s :
  ∃ l, trace (handle_fs req s).2 = trace s ++ l ∧ disciplined false l.
Proof. apply (free_handle_fs req s). Qed.
