(* ===== verification/Requests.v ===== *)
(** * Requests and their replies

    Theorems on [handle_fs]: every request is answered under its own id, a directory
    listing is complete and in batches, a save with the revision that was read
    succeeds once, and refusals change nothing. *)
From S2P Require Import Prelude MachineInt Text Json Kernel Files Reference RevisionTypes ReadPath WritePath WriteSafety WriteSpec WriteAlone Framing Exec FsHandlers.
Local Open Scope string_scope.
Local Open Scope list_scope.
Local Open Scope Z_scope.

(** ** Results and channels *)

(** Every successful result satisfies [P]. *)
Definition returns {W E A} (P : A → Prop) (m : stm W E A) : Prop :=
  ∀ w a, (m w).1 = Ok a → P a.

Lemma returns_ret {W E A} (P : A → Prop) (a : A) : P a → returns P (mret a : stm W E A).
Proof. by intros ? w ? [= <-]. Qed.
Lemma returns_throw {W E A} (P : A → Prop) e : returns P (throw e : stm W E A).
Proof. by intros w a. Qed.
Lemma returns_bind {W E A B} (P : B → Prop) (m : stm W E A) f :
  (∀ a, returns P (f a)) → returns P (m ≫= f).
Proof.
  intros Hf w b. unfold mbind, stm_bind. destruct (m w) as [[a|e] w']; [apply Hf|done].
Qed.
Lemma returns_map_err {W E F A} (P : A → Prop) (f : E → F) (m : stm W E A) : returns P m → returns P (map_err f m).
Proof. intros Hm w a. unfold map_err. specialize (Hm w a). destruct (m w) as [[b|e] w']; simpl in *; [|done]. intros [= ->]. auto. Qed.
Lemma returns_world {E A} (P : A → Prop) (m : IO E A) : returns P m → returns P (on_world m).
Proof.
  intros Hm s a. unfold on_world. specialize (Hm (world s) a). by destruct (m (world s)).
Qed.
Lemma returns_procs {E A} (P : A → Prop) (m : stm Procs E A) : returns P m → returns P (on_procs m).
Proof.
  intros Hm s a. unfold on_procs. specialize (Hm (procs s) a). by destruct (m (procs s)).
Qed.

Definition same_channel (s s' : Session) : Prop := channel s' = channel s.
#[export] Instance same_channel_preorder : PreOrder same_channel.
Proof. split; unfold same_channel; [done|congruence]. Qed.

Lemma same_channel_world {E A} (m : IO E A) : preserves same_channel (on_world m).
Proof. intros s. unfold on_world. by destruct (m (world s)). Qed.
Lemma same_channel_procs {E A} (m : stm Procs E A) : preserves same_channel (on_procs m).
Proof. intros s. unfold on_procs. by destruct (m (procs s)). Qed.
#[export] Hint Resolve same_channel_world same_channel_procs : preserves.

Lemma wp_world {E A} (m : IO E A) Q s :
  wp m (λ r w', Q r (mkSession w' (channel s) (procs s) (trace s ++ new_calls (world s) w')))
    (world s) → wp (on_world m) Q s.
Proof. unfold wp, on_world. by destruct (m (world s)). Qed.
Lemma wp_guard {E A} (m : stm Session E A) Q s :
  wp m (λ r s', Q r (mkSession (world s') (channel s') (procs s') (trace s' ++ [Released])))
    (mkSession (world s) (channel s) (procs s) (trace s ++ [Acquired])) →
  wp (with_guard m) Q s.
Proof.
  unfold wp, with_guard, note_event, attempt, mbind, stm_bind, lift_result.
  by destruct (m _).
Qed.
Lemma same_channel_guard {E A} (m : stm Session E A) :
  preserves same_channel m → preserves same_channel (with_guard m).
Proof. intros Hm s. apply (wp_guard m (λ _ s', same_channel s s')). exact (Hm _). Qed.
#[export] Hint Resolve same_channel_guard : preserves.

(** No send fails. *)
Class Alive `{Receiver} : Prop := alive n : gone n = false.

Section replies.
Context `{JsonLaws, !Receiver, !Alive}.

(** What a sent message adds to the channel: nothing beyond the frame limit. *)
Definition delivered (v : Value) : list (list byte) :=
  if Z.of_nat (length (payload_of v)) <=? MAX_FRAME_BYTES then [payload_of v] else [].

Lemma delivered_fits v : fits (payload_of v) → delivered v = [payload_of v].
Proof. intros Hv. unfold delivered. by rewrite (proj2 (Z.leb_le _ _) Hv). Qed.
Lemma delivered_not v : ¬ fits (payload_of v) → delivered v = [].
Proof. intros Hv. unfold delivered. case_match eqn:Hle; [|done]. by apply Z.leb_le in Hle. Qed.

Lemma sent_send v tx : sent (send v tx) = sent tx ++ delivered v.
Proof.
  unfold send, delivered, tx_send. destruct (_ <=? _); [|by rewrite app_nil_r]. by rewrite alive.
Qed.

(** A message with more to come, and a last one. *)
Definition chunk_reply (id : Z) (v : Value) : Prop :=
  get_i64 v "id" = Some id ∧ get_bool v "ok" = Some true ∧ get_bool v "more" = Some true.
Definition final_reply (id : Z) (v : Value) : Prop :=
  get_i64 v "id" = Some id ∧ is_Some (get_bool v "ok") ∧ get v "more" = None.

Definition answered (id : Z) (s s' : Session) : Prop :=
  ∃ chunks final, Forall (chunk_reply id) chunks ∧ final_reply id final ∧
    sent (channel s') = sent (channel s) ++ (payload_of <$> chunks) ++ delivered final.

(** The results that replies are made of. *)
Definition plain (v : Value) : Prop := is_Some (as_object v) ∧ get v "more" = None.

Lemma plain_obj l : fields l !! "more" = None → plain (obj l).
Proof. intros Hl. split; [apply obj_object|by rewrite get_obj]. Qed.

Lemma plain_wire_error e : plain (wire_error e).
Proof. destruct e; by apply plain_obj. Qed.

Lemma marked_final id b v :
  i64_range id → plain v →
  final_reply id (insert_field "ok" (of_bool b) (insert_field "id" (of_i64 id) v)).
Proof.
  intros Hid [Hv Hmore]. unfold final_reply, get_i64, get_bool.
  rewrite !get_insert_field by auto. rewrite decide_False, !decide_True by done. simpl.
  rewrite as_i64_of by done. rewrite as_bool_of. split_and!; [done|eauto|done].
Qed.

Lemma finish_final id r :
  i64_range id → (∀ v, r = Ok v → plain v) → final_reply id (finish_value id r).
Proof.
  intros Hid Hr. destruct r as [v|e]; simpl; [by apply marked_final; [|apply Hr]|].
  unfold final_reply, get_i64, get_bool. rewrite !get_obj. unfold fields. cbn [foldl fst snd].
  split_and!; simplify_map_eq; [by apply as_i64_of|rewrite as_bool_of; eauto|done].
Qed.

Lemma finish_revision_final id r :
  i64_range id → (∀ v, r = Ok v → plain v) → final_reply id (finish_revision_value id r).
Proof.
  intros Hid Hr. destruct r as [v|e]; simpl; [by apply marked_final; [|apply Hr]|].
  pose proof (plain_wire_error e) as [Ho Hmore]. unfold final_reply, get_i64, get_bool.
  rewrite !get_insert_field by auto. rewrite decide_True, !decide_False by done. simpl.
  rewrite as_i64_of by done. split_and!; [done| |done].
  pose proof (wire_error_not_ok e) as Hok. unfold get_bool in Hok. rewrite Hok. eauto.
Qed.

Lemma answered_final id v s s' :
  final_reply id v → sent (channel s') = sent (channel s) ++ delivered v → answered id s s'.
Proof. intros Hv Hs. by exists [], v. Qed.

Lemma wp_tell_final {E} id v s0 s :
  final_reply id v → same_channel s0 s →
  wp (tell (send v) : stm Session E unit) (λ r s', r = Ok tt ∧ answered id s0 s') s.
Proof.
  intros Hv Hs. split; [done|]. apply (answered_final id v); [done|]. cbn [tell snd channel].
  by rewrite sent_send, Hs.
Qed.

Lemma wp_reply {E} id (m : stm Session string Value) s :
  i64_range id → preserves same_channel m → returns plain m →
  wp (reply id m : stm Session E unit) (λ r s', r = Ok tt ∧ answered id s s') s.
Proof.
  intros Hid Hm Hplain. unfold reply. wp_step. wp_step. specialize (Hm s). specialize (Hplain s).
  unfold wp. destruct (m s) as [r s']. apply (wp_tell_final id (finish_value id r)); [|done].
  apply finish_final; [done|]. intros v ->. by apply Hplain.
Qed.
(** What may not return: answered, or nothing was said. *)
Definition answered_or_hung (id : Z) (s : Session) (hung : Prop) (r : result unit Stop) (s' : Session) : Prop :=
  (r = Ok tt ∧ answered id s s') ∨ (r = Err Hangs ∧ same_channel s s' ∧ hung).

Lemma wp_answer id (m : stm Session Stop Value) s :
  i64_range id → preserves same_channel m → returns plain m →
  wp (answer id m) (answered_or_hung id s ((m s).1 = Err Hangs)) s.
Proof.
  intros Hid Hm Hplain. unfold answer. do 2 wp_step. specialize (Hm s). specialize (Hplain s).
  unfold wp. destruct (m s) as [[v|[e|]] s']; cbn [fst snd] in *.
  - left. apply (wp_tell_final id (finish_value id (Ok v))); [|done]. apply finish_final; [done|].
    intros v' [= <-]. by apply Hplain.
  - left. apply (wp_tell_final id (finish_value id (Err e))); [|done]. by apply finish_final.
  - by right.
Qed.
Lemma wp_reply_revision {E} id (m : stm Session RevisionError Value) s :
  i64_range id → preserves same_channel m → returns plain m →
  wp (reply_revision id m : stm Session E unit) (λ r s', r = Ok tt ∧ answered id s s') s.
Proof.
  intros Hid Hm Hplain. unfold reply_revision. wp_step. wp_step. specialize (Hm s).
  specialize (Hplain s). unfold wp. destruct (m s) as [r s'].
  apply (wp_tell_final id (finish_revision_value id r)); [|done].
  apply finish_revision_final; [done|]. intros v ->. by apply Hplain.
Qed.
Lemma wp_error {E} id e s :
  i64_range id →
  wp (tell (finish id (Err e)) : stm Session E unit) (λ r s', r = Ok tt ∧ answered id s s') s.
Proof. intros Hid. apply (wp_tell_final id (finish_value id (Err e))); [by apply finish_final|done]. Qed.
End replies.

Create HintDb returns.
#[export] Hint Resolve returns_ret returns_throw returns_world returns_procs : returns.

(** Follows a handler to the values it returns. *)
Ltac returns_tac :=
  repeat lazymatch goal with
  | |- forall _, _ => intro
  | |- returns _ (mbind _ _) => apply returns_bind
  | |- returns _ (mret _) => apply returns_ret
  | |- returns _ (throw _) => apply returns_throw
  | |- returns _ (map_err _ _) => apply returns_map_err
  | |- returns _ (on_world _) => apply returns_world
  | |- returns _ (on_procs _) => apply returns_procs
  | |- returns _ (match ?x with _ => _ end) => destruct x
  | |- plain _ => apply plain_obj; reflexivity
  end.

(** ** Directory listings *)
Section listings.
Context `{Kernel, Directories, JsonLaws, !Receiver, !Alive}.

Lemma more_message_chunk id batch : i64_range id → chunk_reply id (more_message id batch).
Proof.
  intros Hid. unfold chunk_reply, get_i64, get_bool, more_message. rewrite !get_obj. unfold fields.
  cbn [foldl fst snd]. simplify_map_eq. rewrite as_i64_of by done. by rewrite !as_bool_of.
Qed.
Lemma last_message_final id batch attrs : i64_range id → final_reply id (last_message id batch attrs).
Proof.
  intros Hid. unfold final_reply, get_i64, get_bool, last_message. rewrite !get_obj. unfold fields.
  cbn [foldl fst snd]. simplify_map_eq. rewrite as_i64_of, as_bool_of by done. eauto.
Qed.

(** The messages of a listing: full batches, then the rest. *)
Definition listed (id : Z) (self_attrs : Value) (values : list Value) (s s' : Session) : Prop :=
  ∃ chunks rest, concat chunks ++ rest = values ∧
    Forall (λ c, Z.of_nat (length c) = READDIR_CHUNK_SIZE) chunks ∧
    Z.of_nat (length rest) < READDIR_CHUNK_SIZE ∧
    sent (channel s') = sent (channel s) ++ (payload_of ∘ more_message id <$> chunks)
      ++ delivered (last_message id rest self_attrs).

Lemma listed_answered id self_attrs values s s' :
  i64_range id → listed id self_attrs values s s' → answered id s s'.
Proof.
  intros Hid (chunks & rest & _ & _ & _ & Hsent).
  exists (more_message id <$> chunks), (last_message id rest self_attrs).
  rewrite Hsent, list_fmap_compose. split_and!; [|by apply last_message_final|done].
  apply Forall_fmap, Forall_true. intros. by apply more_message_chunk.
Qed.

(** The entry of one name, whatever became of the file. *)
Definition named (name : string) (v : Value) : Prop := get_str v "name" = Some (to_string_lossy name).

Lemma attributes_object md target : is_Some (as_object (attributes md target)).
Proof. apply obj_object. Qed.

Lemma wp_stat_object {E} p w :
  wp (stat_value p : IO E Value) (λ r _, ∃ v, r = Ok v ∧ (is_null v = false → is_Some (as_object v))) w.
Proof.
  unfold stat_value. do 2 wp_step. unfold wp at 1. destruct (symlink_metadata p w) as [[md|e] w1];
    cbn [bind_post fst snd].
  - wp_step. destruct (is_symlink md); [|do 2 wp_step; eexists; split; [done|eauto using attributes_object]].
    do 2 wp_step. unfold wp at 1. destruct (read_link p w1) as [r w2]. do 2 wp_step.
    eexists. split; [done|]. intros _. apply attributes_object.
  - wp_step. eexists. split; [done|]. by rewrite is_null_null.
Qed.

(** The attributes are those at the first call. *)
Lemma wp_stat_value {E} p md w :
  fault (w_step w) = None → k_lstat p (met w) = Ok md →
  wp (stat_value p : IO E Value) (λ r _, ∃ target, r = Ok (attributes md target)) w.
Proof.
  intros Hfault Hmd. unfold stat_value. do 2 wp_step. apply wp_syscall; [congruence|]. intros _.
  cbn [fst]. rewrite Hmd. cbn [bind_post]. wp_step.
  destruct (is_symlink md); [do 2 wp_step|wp_step; wp_step; eauto].
  unfold wp at 1. destruct (read_link p _) as [r w2]. do 2 wp_step. eauto.
Qed.

Lemma wp_entry {E} name p w :
  wp (dir_entry_value (to_string_lossy name) p : IO E Value)
    (λ r _, ∃ v, r = Ok v ∧ named name v) w.
Proof.
  unfold dir_entry_value. wp_step. eapply wp_mono; [apply wp_stat_object|].
  intros r w1 (v & -> & Hv). cbn [bind_post]. wp_step. eexists. split; [done|]. unfold named, get_str.
  rewrite get_insert_field.
  - rewrite decide_True by done. simpl. by rewrite as_str_of.
  - destruct (is_null v); [apply obj_object|auto].
Qed.

(** The loop, with a partial batch in hand. *)
Lemma wp_stream_entries {E} path id self_attrs rd batch s :
  Z.of_nat (length batch) < READDIR_CHUNK_SIZE →
  wp (stream_entries path id self_attrs rd batch : stm Session E unit)
    (λ r s', r = Ok tt ∧ ∃ values, Forall2 named (omap result_ok rd) values ∧
       listed id self_attrs (batch ++ values) s s') s.
Proof.
  revert batch s. induction rd as [|[name|e] rd IH]; intros batch s Hbatch; cbn [stream_entries].
  - unfold wp, tell. simpl. split; [done|]. exists []. split; [constructor|].
    exists [], batch. rewrite app_nil_r. split_and!; [done|constructor|done|]. apply sent_send.
  - wp_step. apply wp_world. eapply wp_mono; [apply wp_entry|].
    intros r w' (v & -> & Hv). cbn [bind_post]. cbn zeta. set (s1 := mkSession _ _ _ _).
    destruct (Z.leb_spec READDIR_CHUNK_SIZE (Z.of_nat (length (batch ++ [v])))) as [Hfull|Hpart].
    + wp_step. unfold tell_directly, tx_send, wp at 1. rewrite alive. cbn [fst snd bind_post].
      set (s2 := mkSession _ _ _ _).
      eapply wp_mono; [apply (IH [] s2); unfold READDIR_CHUNK_SIZE; simpl; lia|].
      intros r s' (-> & values & Hvalues & chunks & rest & Hcat & Hc & Hr & Hsent).
      split; [done|]. cbn [app] in Hcat. subst values. exists (v :: concat chunks ++ rest). split.
      { simpl. constructor; [done|exact Hvalues]. }
      exists ((batch ++ [v]) :: chunks), rest. split_and!; [by cbn [concat]; rewrite <-!app_assoc| |done|].
      * constructor; [|done]. rewrite length_app in *. simpl in *. lia.
      * rewrite Hsent. cbn [s2 channel sent]. rewrite fmap_cons, <-app_assoc. done.
    + eapply wp_mono; [by apply IH|]. intros r s' (-> & values & Hvalues & Hlisted).
      split; [done|]. exists (v :: values). split; [simpl; by constructor|].
      rewrite <-app_assoc in Hlisted. exact Hlisted.
  - by apply IH.
Qed.

Lemma wp_readdir {E} path id s :
  i64_range id →
  wp (readdir_stream path id : stm Session E unit) (λ r s', r = Ok tt ∧ answered id s s') s.
Proof.
  intros Hid. unfold readdir_stream. do 2 wp_step.
  pose proof (same_channel_world (read_dir path) s) as Hc1. unfold wp at 1.
  destruct (on_world (read_dir path) s) as [[rd|e] s1]; cbn [fst snd bind_post] in *.
  - wp_step. apply wp_world. eapply wp_mono; [apply wp_stat_object|].
    intros r w2 (v & -> & _). cbn [bind_post]. set (s2 := mkSession _ _ _ _).
    eapply wp_mono; [apply wp_stream_entries; unfold READDIR_CHUNK_SIZE; simpl; lia|].
    intros r s' (-> & values & _ & Hlisted). split; [done|].
    apply (listed_answered _ _ _ s2) in Hlisted as (chunks & final & Hc & Hf & Hsent); [|done].
    exists chunks, final. split_and!; [done..|]. rewrite Hsent. cbn [s2 channel]. by rewrite Hc1.
  - eapply wp_mono; [by apply wp_error|]. intros r s' (-> & chunks & final & Hc & Hf & Hsent).
    split; [done|]. exists chunks, final. by rewrite <-Hc1.
Qed.
End listings.

(** ** Every request is answered *)
Section answers.
Context `{Kernel, Directories, JsonLaws, Base64, Environment, !Receiver, !Alive, Processes}.

Lemma request_id_range req : i64_range (request_id req).
Proof.
  unfold request_id, get_i64. destruct (get req "id" ≫= as_i64) as [n|] eqn:Hn; simpl.
  - apply bind_Some in Hn as (v & _ & Hv). by eapply as_i64_range.
  - unfold i64_range. lia.
Qed.

Lemma dispatch_plain op req path : returns plain (dispatch op req path).
Proof.
  unfold dispatch, single_op, resolve, exec_command_with_registry, exec_value. returns_tac.
Qed.
Lemma dispatch_channel op req path : preserves same_channel (dispatch op req path).
Proof. unfold dispatch, single_op. preserves_tac. Qed.

(** Only [exec] hangs. *)
Lemma dispatch_hangs op req path s : (dispatch op req path s).1 = Err Hangs → op = "exec".
Proof.
  unfold dispatch. destruct (decide (op = "exec")); [done|]. unfold map_err.
  by destruct (single_op op req path s) as [[v|e] s'].
Qed.

Lemma wp_dispatched op req path id s :
  i64_range id → wp (dispatched op req path id) (answered_or_hung id s (op = "exec")) s.
Proof.
  intros Hid. unfold dispatched. pose proof (dispatch_channel op req path) as Hc.
  pose proof (dispatch_plain op req path) as Hp.
  destruct (is_mutation op) eqn:Hop; [apply wp_guard|]; (eapply wp_mono; [by apply wp_answer|]);
    intros r s' [[-> Ha]|(-> & Hs & Hh)].
  - by left.
  - apply dispatch_hangs in Hh. by apply mutation_not_exec in Hop.
  - by left.
  - right. by apply dispatch_hangs in Hh.
Qed.

Lemma wp_conditional_request {E} req path id expected s :
  i64_range id →
  wp (conditional_request req path id expected : stm Session E unit)
    (λ r s', r = Ok tt ∧ answered id s s') s.
Proof.
  intros Hid. unfold conditional_request, conditional_write.
  destruct (get_str req "bytes_b64") as [encoded|]; [|by apply wp_error].
  destruct (decode encoded) as [bytes|e]; [|by apply wp_error].
  apply wp_reply_revision; [done|preserves_tac|returns_tac].
Qed.

Lemma wp_handle_fs req s :
  wp (handle_fs req) (answered_or_hung (request_id req) s (str_or req "op" "" = "exec")) s.
Proof.
  pose proof (request_id_range req) as Hid.
  assert (∀ m : stm Session Stop unit, wp m (λ r s', r = Ok tt ∧ answered (request_id req) s s') s →
    wp m (answered_or_hung (request_id req) s (str_or req "op" "" = "exec")) s) as Hret.
  { intros m Hm. eapply wp_mono; [exact Hm|]. by left. }
  unfold handle_fs, handle_op. cbn zeta.
  destruct (decide _); [by apply Hret, wp_readdir|].
  destruct (decide _); [apply Hret, wp_reply_revision; [done|unfold read_request; preserves_tac..|]|].
  { unfold read_request. returns_tac. }
  destruct (decide _); [apply Hret, wp_reply; [done|unfold read_range_request; preserves_tac..|]|].
  { unfold read_range_request. returns_tac. }
  destruct (decide _); [apply Hret, wp_reply; [done|unfold tail_read_request; preserves_tac..|]|].
  { unfold tail_read_request, tail_value. returns_tac. }
  destruct (decide _); [|by apply wp_dispatched].
  destruct (expected_revision_from_request req) as [[expected|]|error];
    [|by apply wp_dispatched|by apply Hret, wp_error].
  destruct (_ && _); [by apply Hret, wp_conditional_request|by apply wp_dispatched].
Qed.
End answers.

(** *** Returning

    Where no child can be started, every request returns. *)
Section returning.
Context `{Kernel, Directories, Json, Base64, Environment, Receiver, Processes}.
Context (Hspawn : ∀ argv cwd, is_ok (spawn argv cwd) = false).

Abbreviation never_fails := (raises (λ _, False)).

Lemma raises_world {E A} P (m : IO E A) : raises P m → raises P (on_world m).
Proof. intros Hm s e. unfold on_world. specialize (Hm (world s) e). by destruct (m (world s)). Qed.
Lemma raises_tell {E} P f : raises P (tell f : stm Session E unit).
Proof. by intros s e. Qed.
Lemma raises_directly {E} P v : raises P (tell_directly v : stm Session E bool).
Proof. intros s e. unfold tell_directly. by destruct (tx_send _ _). Qed.
Lemma raises_guard {E A} P (m : stm Session E A) : raises P m → raises P (with_guard m).
Proof.
  intros Hm s e. unfold with_guard, note_event, attempt, mbind, stm_bind, lift_result.
  set (s1 := mkSession _ _ _ _). specialize (Hm s1 e). by destruct (m s1).
Qed.

Ltac raises_tac :=
  repeat lazymatch goal with
  | |- forall _, _ => intro
  | |- raises _ (mbind _ _) => apply raises_bind
  | |- raises _ (attempt _) => apply raises_attempt
  | |- raises _ (on_world _) => apply raises_world
  | |- raises _ (tell _) => apply raises_tell
  | |- raises _ (tell_directly _) => apply raises_directly
  | |- raises _ (mret _) => by apply raises_pure
  | |- raises _ (match ?x with _ => _ end) => destruct x
  end.

Lemma stat_never_fails {E} p : never_fails (stat_value p : IO E Value).
Proof. unfold stat_value. raises_tac. Qed.

Lemma entries_never_fail {E} path id self_attrs rd batch :
  never_fails (stream_entries path id self_attrs rd batch : stm Session E unit).
Proof.
  revert batch. induction rd as [|[name|e] rd IH]; intros batch; cbn [stream_entries]; [apply raises_tell| |apply IH].
  apply raises_bind; [apply raises_world, raises_bind; [apply stat_never_fails|raises_tac]|].
  intros v. cbn zeta. destruct (_ <=? _); [|apply IH]. apply raises_bind; [apply raises_directly|].
  intros [|]; [apply IH|raises_tac].
Qed.

Lemma readdir_never_fails {E} path id : never_fails (readdir_stream path id : stm Session E unit).
Proof. unfold readdir_stream. raises_tac; [apply stat_never_fails|apply entries_never_fail]. Qed.

Lemma dispatch_never_hangs op req path : raises (λ e, e ≠ Hangs) (dispatch op req path).
Proof.
  intros s e. unfold dispatch. destruct (decide _).
  - unfold on_procs, exec_command_with_registry, run_request. destruct (parse_exec req) as [r|err]; [|by intros [= <-]].
    specialize (Hspawn (argv r) (cwd r)). destruct (spawn _ _) as [[pgid c]|err]; [done|]. by intros [= <-].
  - unfold map_err. destruct (single_op op req path s) as [[v|err] s']; [done|]. by intros [= <-].
Qed.

Lemma answer_never_fails id m : raises (λ e, e ≠ Hangs) m → never_fails (answer id m).
Proof.
  intros Hm s e. unfold answer, attempt, mbind, stm_bind. specialize (Hm s).
  destruct (m s) as [[v|[err|]] s']; [done|done|]. by specialize (Hm Hangs eq_refl).
Qed.

Lemma dispatched_never_fails op req path id : never_fails (dispatched op req path id).
Proof.
  unfold dispatched. destruct (is_mutation op); [apply raises_guard|];
    apply answer_never_fails, dispatch_never_hangs.
Qed.

Lemma handle_fs_returns req s : (handle_fs req s).1 = Ok tt.
Proof.
  assert (never_fails (handle_fs req)) as Hret.
  { unfold handle_fs, handle_op. cbn zeta.
    destruct (decide _); [apply readdir_never_fails|].
    do 3 (destruct (decide _); [unfold reply, reply_revision; raises_tac|]).
    destruct (decide _); [|apply dispatched_never_fails].
    destruct (expected_revision_from_request req) as [[expected|]|error];
      [|apply dispatched_never_fails|apply raises_tell].
    destruct (_ && _); [|apply dispatched_never_fails]. unfold conditional_request, reply_revision. raises_tac. }
  specialize (Hret s). destruct (handle_fs req s) as [[[]|e] s']; [done|]. by specialize (Hret e eq_refl).
Qed.
End returning.


(** *** A session to evaluate on *)
#[export] Instance connected_alive : Alive (H := connected).
Proof. done. Qed.

#[local] Existing Instances quiet_kernel plain_directories no_home connected steady_clock.

Definition sample_session : Session := mkSession sample (mkChannel [] 0) no_procs [].
Definition request (op path : string) (more : list (string * Value)) : Value :=
  obj ([("id", of_i64 7); ("op", of_str op); ("path", of_str path)] ++ more).
(** The handler on the quiet sample host. *)
Definition run_fs (req : Value) (s : Session) : Session := (handle_fs req s).2.


(** C16: a listing is complete. While other processes do what they like, the reply to
    [readdir] has one entry for each name the directory iteration delivered, under its
    name and in its order, in messages of exactly 2000 entries and a last one of fewer;
    the attributes of the directory itself, by which a client decides later whether
    the listing is still good, were taken before the first entry was looked at. *)
Theorem readdir_lists_directory `{Kernel, Directories, JsonLaws, Base64, Environment, !Receiver,
    !Alive, Processes} req s path fs1 fs2 q v i md :
  get_str req "op" = Some "readdir" → path = path_new (expand_home (str_or req "path" "")) →
  fault (w_step (world s)) = None → fault (S (w_step (world s))) = None →
  fs1 = met (world s) → fs2 = env (S (w_step (world s))) fs1 →
  resolved fs1 path = Ok q → lookup_path fs1 q = Some (v, i) → inode_is_dir i = true →
  k_lstat path fs2 = Ok md →
  ∃ self_attrs values,
    Forall2 named (omap result_ok (listing fs1 q)) values ∧
    get self_attrs "mtime" = Some (of_i64 (md_mtime md)) ∧
    get self_attrs "mtime_nsec" = Some (of_i64 (md_mtime_nsec md)) ∧
    listed (request_id req) self_attrs values s (handle_fs req s).2.
Proof.
  intros Hop -> Hf1 Hf2 -> -> Hq Hl Hdir Hmd. rewrite (handle_fs_op _ _ Hop).
  set (path := path_new _) in *.
  enough (wp (readdir_stream path (request_id req) : stm Session Stop unit)
    (λ _ s', ∃ self_attrs values, Forall2 named (omap result_ok (listing (met (world s)) q)) values ∧
    get self_attrs "mtime" = Some (of_i64 (md_mtime md)) ∧
    get self_attrs "mtime_nsec" = Some (of_i64 (md_mtime_nsec md)) ∧
    listed (request_id req) self_attrs values s s') s) as Hwp by exact Hwp.
  unfold readdir_stream. do 2 wp_step. apply wp_world. unfold read_dir. apply wp_syscall; [congruence|].
  intros _. unfold k_opendir. cbn [fst snd]. rewrite Hq. cbn [result_bind]. rewrite Hl, Hdir.
  cbn [bind_post]. set (s1 := mkSession _ _ _ _). wp_step. apply wp_world.
  eapply wp_mono; [by apply (wp_stat_value _ md)|].
  intros r w2 (target & ->). cbn [bind_post]. set (s2 := mkSession _ _ _ _).
  eapply wp_mono; [apply wp_stream_entries; unfold READDIR_CHUNK_SIZE; simpl; lia|].
  intros r s' (-> & values & Hnames & Hlisted). exists (attributes md target), values.
  unfold attributes. split_and!; [done|get_field|get_field|exact Hlisted].
Qed.

Lemma readdir_lists_directory_witness :
  let req := request "readdir" "/d" [] in
  (∃ self_attrs values,
    Forall2 named (omap result_ok (listing (at_time (second 0) sample_fs) (path_new "/d"))) values ∧
    get self_attrs "mtime" = Some (of_i64 10) ∧
    get self_attrs "mtime_nsec" = Some (of_i64 0) ∧
    listed (request_id req) self_attrs values sample_session (run_fs req sample_session)) ∧
  omap result_ok (listing sample_fs (path_new "/d")) = ["note"] ∧
  length (sent (channel (run_fs req sample_session))) = 1%nat.
Proof.
  cbn zeta. split; [|split; vm_compute; reflexivity].
  apply (readdir_lists_directory (request "readdir" "/d" []) sample_session (path_new "/d")
    (at_time (second 0) sample_fs) (at_time (second 1) sample_fs) (path_new "/d") 0%nat dir_inode (metadata_of dir_inode)); reflexivity.
Defined.
