(* ===== verification/Saving.v ===== *)
(** * Editing a file over the wire

    What the [read] and conditional [write] requests do when no other process is at
    work: the handler computes [read_spec] and [write_spec] and replies accordingly;
    two editors that read the same revision cannot overwrite one another; and requests
    that are refused leave the file system alone. *)
From S2P Require Import Prelude MachineInt Text Json Kernel Files Reference RevisionTypes ReadPath WritePath WriteSafety WriteSpec WriteAlone Framing Exec FsHandlers Requests.
Local Open Scope string_scope.
Local Open Scope list_scope.
Local Open Scope Z_scope.

(** ** Requests *)
Section requests.
Context `{Json, Base64}.

(** [req] asks for the file at [path]. *)
Definition reads (path : string) (req : Value) : Prop :=
  get_str req "op" = Some "read" ∧ str_or req "path" "" = path.

(** [req] asks to save [bytes], with the revision [expected] as the client has it. *)
Record saves (path : string) (expected : Value) (bytes : list byte) (req : Value) : Prop := {
  saves_op : get_str req "op" = Some "write";
  saves_path : str_or req "path" "" = path;
  saves_state : get_str req "expected_state" = None;
  saves_revision : get req "expected_revision" = Some expected;
  saves_bytes : get_str req "bytes_b64" = Some (encode bytes);
  saves_append : bool_or req "append" false = false;
  saves_new : bool_or req "must_be_new" false = false;
}.

Definition saved_value (cw : ConditionalWrite) : Value :=
  obj [("revision", to_value (saved_revision cw))].
Definition read_value (rd : RevisionRead) : Value :=
  obj [("bytes_b64", of_str (encode (read_bytes rd))); ("revision", to_value (read_revision rd))].
End requests.

Section handling.
Context `{Kernel, Directories, JsonLaws, Base64Laws, Environment, !Receiver, Processes}.

Abbreviation after_fs req s := (handle_fs req s).2.

(** The handler does a conditional write, and replies with its result. *)
Lemma handle_expected text bytes req expected s :
  get_str req "op" = Some "write" → str_or req "path" "" = text →
  expected_revision_from_request req = Ok (Some expected) →
  get_str req "bytes_b64" = Some (encode bytes) →
  bool_or req "append" false = false → bool_or req "must_be_new" false = false →
  let m := conditional_write_locked (path_new (expand_home text)) bytes expected in
  world (after_fs req s) = (m (world s)).2 ∧
  channel (after_fs req s)
    = finish_revision (request_id req) (result_map saved_value (m (world s)).1) (channel s) ∧
  trace (after_fs req s) = trace s ++ Acquired :: new_calls (world s) (m (world s)).2 ++ [Released].
Proof.
  intros Hop Hpath Hexp Hbytes Happ Hnew m. rewrite (handle_fs_op _ _ Hop), Hpath.
  unfold handle_op. do 4 rewrite decide_False by done. rewrite decide_True by done.
  rewrite Hexp, Happ, Hnew. cbn [negb andb]. unfold conditional_request. rewrite Hbytes, decode_encode.
  unfold reply_revision, conditional_write, with_guard, note_event, on_world, tell, attempt,
    lift_result, mbind, stm_bind. cbn [world channel trace].
  subst m. destruct (conditional_write_locked _ _ _ (world s)) as [[cw|e] w']; cbn [fst snd world channel trace];
    by rewrite <-!app_assoc.
Qed.

Lemma handle_save text v bytes req rev s :
  saves text v bytes req → from_value v = Ok rev →
  let m := conditional_write_locked (path_new (expand_home text)) bytes (ExpPresent rev) in
  world (after_fs req s) = (m (world s)).2 ∧
  channel (after_fs req s)
    = finish_revision (request_id req) (result_map saved_value (m (world s)).1) (channel s).
Proof.
  intros [Hop Hpath Hstate Hrev Hbytes Happ Hnew] Hv m.
  destruct (handle_expected text bytes req (ExpPresent rev) s) as (Hw & Hc & _); try done. unfold expected_revision_from_request. by rewrite Hstate, Hrev, Hv.
Qed.

Lemma handle_read text req s :
  reads text req →
  let m := read_with_revision (path_new (expand_home text)) in
  world (after_fs req s) = (m (world s)).2 ∧
  channel (after_fs req s)
    = finish_revision (request_id req) (result_map read_value (m (world s)).1) (channel s) ∧
  trace (after_fs req s) = trace s ++ new_calls (world s) (m (world s)).2.
Proof.
  intros [Hop Hpath] m. rewrite (handle_fs_op _ _ Hop), Hpath. unfold handle_op.
  rewrite decide_False, decide_True by done.
  unfold reply_revision, read_request, on_world, tell, attempt, mbind, stm_bind. subst m.
  destruct (read_with_revision _ (world s)) as [[rd|e] w']; done.
Qed.
End handling.

(** Replies. *)
Section replying.
Context `{JsonLaws, Base64}.

Lemma finish_revision_ok id v :
  is_Some (as_object v) → get_bool (finish_revision_value id (Ok v)) "ok" = Some true.
Proof.
  intros Hv. unfold finish_revision_value, get_bool. rewrite get_insert_field, decide_True by auto.
  apply as_bool_of.
Qed.
Lemma finish_revision_get id v key :
  is_Some (as_object v) → key ≠ "ok" → key ≠ "id" →
  get (finish_revision_value id (Ok v)) key = get v key.
Proof. intros Hv Hok Hid. simpl. by rewrite !get_insert_field, !decide_False by auto. Qed.
Lemma finish_revision_conflict id kind current :
  let v := finish_revision_value id (Err (Conflict kind current)) in
  get_bool v "ok" = Some false ∧ get_str v "error_code" = Some "conflict".
Proof.
  unfold finish_revision_value, get_bool, get_str, wire_error.
  rewrite !get_insert_field, !decide_False by auto. rewrite !get_obj. unfold fields.
  cbn [foldl fst snd]. simplify_map_eq. by rewrite as_bool_of, as_str_of.
Qed.
End replying.

(** ** Properties *)

Section editing.
Context `{!Kernel, !Undisturbed, !Faultless}.
Context (path dir : Path) (Hparent : parent path = Some dir) (Hpath : ¬ temporary path).

(** The specification grants the save, at whatever time. *)
Definition grants (fs : FS) (serial : Z) (bytes : list byte) (expected : ExpectedRevision) : Prop :=
  ∀ ts, is_ok (write_spec fs ts serial dir path bytes expected) = true.

(** The world after a save that its specification grants. *)
Lemma granted_save bytes expected w :
  wf_fs (w_fs w) → grants (w_fs w) (w_temp w) bytes expected →
  let m := conditional_write_locked path bytes expected in
  ∃ cw, (m w).1 = Ok cw ∧ wf_fs (w_fs (m w).2) ∧ content (w_fs (m w).2) path = Some bytes.
Proof.
  intros Hwf Hspec m. destruct (write_computes path dir bytes expected w Hwf Hparent Hpath) as (ts & _ & Hw).
  specialize (Hspec ts). destruct (write_spec _ _ _ _ _ _ _) as [cw|e]; [|done].
  destruct Hw as [Hr Hfs]. exists cw. subst m.
  split_and!; [done|rewrite Hfs; by apply wf_published|]. rewrite Hfs. unfold content. by rewrite lookup_published.
Qed.

(** A save that its specification refuses. *)
Lemma refused_save bytes expected w e :
  wf_fs (w_fs w) → (∀ ts, write_spec (w_fs w) ts (w_temp w) dir path bytes expected = Err e) →
  let m := conditional_write_locked path bytes expected in
  (m w).1 = Err e ∧ ∀ p, content (w_fs (m w).2) p = content (w_fs w) p.
Proof.
  intros Hwf Hspec m. destruct (write_computes path dir bytes expected w Hwf Hparent Hpath) as (ts & _ & Hw).
  rewrite Hspec in Hw. destruct Hw as [Hr Hu]. split; [done|]. intros p.
  by apply untouched_content.
Qed.
End editing.

(** No update is lost. A client reads a file; a client saves it, expecting the
    revision that came with the read, and gets [ok]; a second save that expects that
    revision too is refused with the code [conflict], and the file still holds what the
    first one saved. All of it as the clients see it, in requests and replies. *)
Lemma lost_update_is_prevented `{!Kernel, !Undisturbed, !Faultless, !FreshInodes, Directories,
    JsonLaws, Base64Laws, Environment, !Receiver, Processes}
    text path dir s u i bytes1 bytes2 req0 :
  path = path_new (expand_home text) → parent path = Some dir → ¬ temporary path →
  wf_fs (w_fs (world s)) → lookup_path (w_fs (world s)) path = Some (u, i) →
  typed (revision_of i) →
  grants path dir (w_fs (world s)) (w_temp (world s)) bytes1 (ExpPresent (revision_of i)) →
  Z.of_nat (length bytes2) ≤ MAX_READ_BYTES → valid_utf8 bytes2 = true →
  reads text req0 →
  let s0 := (handle_fs req0 s).2 in
  ∃ reply0 revision,
    channel s0 = send reply0 (channel s) ∧ get_bool reply0 "ok" = Some true ∧
    get reply0 "revision" = Some revision ∧
    ∀ req1 req2, saves text revision bytes1 req1 → saves text revision bytes2 req2 →
      let s1 := (handle_fs req1 s0).2 in
      let s2 := (handle_fs req2 s1).2 in
      ∃ reply1 reply2,
        channel s1 = send reply1 (channel s0) ∧ get_bool reply1 "ok" = Some true ∧
        content (w_fs (world s1)) path = Some bytes1 ∧
        channel s2 = send reply2 (channel s1) ∧ get_bool reply2 "ok" = Some false ∧
        get_str reply2 "error_code" = Some "conflict" ∧
        content (w_fs (world s2)) path = Some bytes1.
Proof.
  intros -> Hparent Hpath Hwf Hl Htyped Hspec Hsize2 Hutf2 Hreads s0.
  set (path := path_new _) in *. set (rev := revision_of i) in *.
  assert (conflict_spec (w_fs (world s)) (ExpPresent rev) path = Ok tt) as Hc.
  { destruct some_times as [ts _]. specialize (Hspec ts). unfold write_spec in Hspec. repeat case_match; try done.
    by destruct (conflict_spec _ _ _) as [[]|]. }
  pose proof (conflict_spec_read _ _ _ Hc) as (rd & Hrd & Hrev).
  pose proof (conflict_spec_present _ _ _ Hc) as (Hvalid & _).
  destruct (handle_read text req0 s Hreads) as (Hw0 & Hc0 & _). fold path in Hw0, Hc0.
  destruct (read_with_revision_alone path (world s)) as [[Hfs0 Htemp0] Hr0].
  apply or_fault_never in Hr0. rewrite Hr0, Hrd in Hc0. fold s0 in Hw0, Hc0.
  rewrite <-Hw0 in Hfs0, Htemp0.
  exists (finish_revision_value (request_id req0) (Ok (read_value rd))), (to_value rev).
  split; [exact Hc0|]. split; [apply finish_revision_ok, obj_object|]. split.
  { rewrite finish_revision_get by (done || apply obj_object). rewrite <-Hrev. unfold read_value.
    get_field. }
  intros req1 req2 Hsave1 Hsave2 s1 s2. pose proof (from_to_value rev Htyped Hvalid) as Hv.
  rewrite <-Hfs0 in Hwf. rewrite <-Htemp0 in Hspec.
  assert (grants path dir (w_fs (world s0)) (w_temp (world s0)) bytes1 (ExpPresent rev)) as Hgrants
    by (intros ts; by rewrite (write_spec_equiv _ _ _ _ _ _ _ _ Hfs0)).
  destruct (granted_save path dir Hparent Hpath _ _ _ Hwf Hgrants) as (cw & Hr1 & Hwf1 & Hcontent1).
  destruct (handle_save text _ _ _ _ s0 Hsave1 Hv) as [Hw1 Hc1]. fold path s1 in Hw1, Hc1.
  assert (∀ ts, write_spec (w_fs (world s1)) ts (w_temp (world s1)) dir path bytes2 (ExpPresent rev)
    = Err (Conflict Changed (Some (saved_revision cw)))) as Hspec2.
  { intros ts. unfold write_spec. rewrite (proj2 (Z.ltb_ge _ _) Hsize2), Hutf2. cbn [negb].
    rewrite Hw1. by erewrite saved_makes_stale. }
  rewrite <-Hw1 in Hwf1, Hcontent1.
  destruct (refused_save path dir Hparent Hpath _ _ _ _ Hwf1 Hspec2) as (Hr2 & Hcontent2).
  destruct (handle_save text _ _ _ _ s1 Hsave2 Hv) as [Hw2 Hc2]. fold path s2 in Hw2, Hc2.
  rewrite Hr1 in Hc1. rewrite Hr2 in Hc2.
  exists (finish_revision_value (request_id req1) (Ok (saved_value cw))),
    (finish_revision_value (request_id req2) (Err (Conflict Changed (Some (saved_revision cw))))).
  destruct (finish_revision_conflict (request_id req2) Changed (Some (saved_revision cw))) as [Hok Hcode].
  split_and!; try done.
  - apply finish_revision_ok, obj_object.
  - by rewrite Hw2, Hcontent2.
Qed.

Section witness.
#[local] Existing Instances quiet_kernel plain_directories no_home connected steady_clock.

Definition save_request (text : string) (revision : Value) : Value :=
  request "write" "/d/note" [("expected_revision", revision); ("bytes_b64", of_str text)].

Lemma save_request_saves text revision :
  saves "/d/note" revision (into_bytes text) (save_request text revision).
Proof.
  split; unfold save_request, request, get_str, str_or, bool_or, get_bool, get_str;
    rewrite get_obj; unfold fields; cbn [app foldl fst snd]; simplify_map_eq; try done.
  simpl. by rewrite of_into_bytes.
Qed.

Lemma lost_update_is_prevented_witness :
  let s0 := run_fs (request "read" "/d/note" []) sample_session in
  ∃ reply0 revision,
    channel s0 = send reply0 (channel sample_session) ∧ get_bool reply0 "ok" = Some true ∧
    get reply0 "revision" = Some revision ∧
    let s1 := run_fs (save_request "mine" revision) s0 in
    let s2 := run_fs (save_request "yours" revision) s1 in
    ∃ reply1 reply2,
      channel s1 = send reply1 (channel s0) ∧ get_bool reply1 "ok" = Some true ∧
      content (w_fs (world s1)) note = Some (ascii_bytes "mine") ∧
      channel s2 = send reply2 (channel s1) ∧ get_bool reply2 "ok" = Some false ∧
      get_str reply2 "error_code" = Some "conflict" ∧
      content (w_fs (world s2)) note = Some (ascii_bytes "mine").
Proof.
  destruct (lost_update_is_prevented "/d/note" note (path_new "/d") sample_session 1 (note_inode "base")
    (ascii_bytes "mine") (ascii_bytes "yours") (request "read" "/d/note" []))
    as (reply0 & revision & H1 & H2 & H3 & H4); try reflexivity.
  - by apply ordinary_not_temporary.
  - apply sample_wf.
  - repeat split; vm_compute; congruence.
  - intros ts. vm_compute. reflexivity.
  - vm_compute. discriminate.
  - split; reflexivity.
  - exists reply0, revision. split_and!; [exact H1|exact H2|exact H3|].
    apply H4; apply save_request_saves.
Defined.
End witness.

(** ** Refusals *)

(** The work fails, and none of its calls changes the file system. *)
Definition fails_quietly {E A} (m : IO E A) (w : World) : Prop :=
  ∃ e, (m w).1 = Err e ∧ log_extends (λ fs fs', fs' = fs) w (m w).2.

(** The request is answered with an error, and no call of its changed anything. *)
Definition refused `{Kernel, Directories, Json, Base64, Environment, Receiver, Processes}
    (req : Value) (s : Session) : Prop :=
  let s' := (handle_fs req s).2 in
  ∃ e l, channel s' = finish (request_id req) (Err e) (channel s) ∧ trace s' = trace s ++ l ∧
    ∀ before after, Called before after ∈ l → after = before.

Section refusing.
Context `{Kernel, Directories}.

Lemma fails_quietly_op {A} context (m : IO IoError A) w :
  fails_quietly m w → fails_quietly (op_io context m) w.
Proof.
  intros (e & He & Hl). unfold fails_quietly, op_io, map_err. destruct (m w); simpl in *. subst.
  simpl. eauto.
Qed.

Lemma fails_quietly_bind {E A B} (m : IO E A) (f : A → IO E B) w :
  fails_quietly m w → fails_quietly (m ≫= f) w.
Proof.
  intros (e & He & Hl). unfold fails_quietly, mbind, stm_bind. destruct (m w) as [[|e'] w'];
    simpl in *; [done|]. eauto.
Qed.

Lemma fails_quietly_lift {E A B} (a : A) (f : A → IO E B) w :
  fails_quietly (f a) w → fails_quietly (lift_result (Ok a) ≫= f) w.
Proof. done. Qed.

(** A call that refuses, or that fails. *)
Lemma fails_quietly_call {A} (call : nat → FS → result A IoError * FS) w e :
  call (w_step w) (met w) = (Err e, met w) → fails_quietly (syscall call) w.
Proof.
  intros Hcall. unfold fails_quietly. assert (∃ e, syscall call w = (Err e, after_call w (met w) (met w)))
    as [e' ->].
  { unfold syscall. fold (met w). destruct (fault (w_step w)); [eauto|]. rewrite Hcall. eauto. }
  exists e'. split; [done|]. exists [(met w, met w)]. split; [done|]. by repeat constructor.
Qed.

Lemma rmdir_refuses p w i v :
  lookup_path (met w) p = Some (v, i) → has_entries p (met w) = true → fails_quietly (remove_dir p) w.
Proof.
  intros Hl He. unfold remove_dir. destruct (inode_is_dir i) eqn:Hdir;
    eapply fails_quietly_call; unfold k_rmdir; rewrite Hl, Hdir; cbn [negb]; [by rewrite He|done].
Qed.

Lemma create_new_refuses p w v : names (met w) !! p = Some v → fails_quietly (create_new p) w.
Proof.
  intros Hn. apply fails_quietly_bind. eapply fails_quietly_call. unfold k_create_new. by rewrite Hn.
Qed.

Context `{JsonLaws, Base64, Environment, !Receiver, Processes}.

Lemma write_file_refuses p b64 append w v :
  names (met w) !! p = Some v → fails_quietly (write_file p b64 append true) w.
Proof.
  intros Hn. unfold write_file. destruct (decode b64) as [bytes|e].
  - cbn [result_map_err]. apply fails_quietly_lift.
    by apply fails_quietly_bind, fails_quietly_op, (create_new_refuses p w v).
  - eexists. by split.
Qed.

Lemma unless_exists_refuses req op act to w md :
  to = path_new (expand_home (str_or req "to" "")) → bool_or req "ok_if_exists" true = false →
  fault (w_step w) = None → k_stat to (met w) = Ok md →
  fails_quietly (unless_exists req op act) w.
Proof.
  intros -> Hok Hfault Hmd. unfold unless_exists. rewrite Hok. unfold fails_quietly, exists_at, metadata,
    query, syscall, attempt, mbind, stm_bind. fold (met w). rewrite Hfault, Hmd. eexists. split; [done|].
  exists [(met w, met w)]. split; [done|]. by repeat constructor.
Qed.

Lemma refused_dispatch {A} op req (m : IO string A) f s :
  get_str req "op" = Some op → is_mutation op = true →
  handle_op op req (path_new (expand_home (str_or req "path" ""))) (request_id req)
    = dispatched op req (path_new (expand_home (str_or req "path" ""))) (request_id req) →
  single_op op req (path_new (expand_home (str_or req "path" ""))) = (a ← on_world m; f a) →
  fails_quietly m (world s) → refused req s.
Proof.
  intros Hop Hmut Hhandle Hdispatch (e & He & l & Hlog & Hl). unfold refused.
  rewrite (handle_fs_op _ _ Hop), Hhandle. unfold dispatched. rewrite Hmut, (guard_answer _ _ _ _ _ Hmut), Hdispatch.
  unfold reply, with_guard, note_event, on_world, tell, attempt, lift_result, mbind, stm_bind.
  cbn [world channel trace procs].
  destruct (m (world s)) as [r w'] eqn:Hm. simpl in He, Hlog. subst r. cbn [fst snd world channel trace].
  exists e, ([Acquired] ++ (called <$> l) ++ [Released]). split; [done|].
  unfold new_calls. rewrite Hlog, drop_app_length, <-!app_assoc. split; [done|].
  intros before after Hin. apply elem_of_app in Hin as [Hin|Hin].
  { apply list_elem_of_singleton in Hin. done. }
  apply elem_of_app in Hin as [Hin|Hin]; [|by apply list_elem_of_singleton in Hin].
  apply list_elem_of_fmap in Hin as ([a b] & Hab & Hin). injection Hab as -> ->.
  rewrite Forall_forall in Hl. by apply (Hl (a, b)).
Qed.
End refusing.

(** C17: a refusal destroys nothing. Under any interference: a plain [rmdir] of a
    directory with entries, a [write] marked [must_be_new] to a name that exists, a
    [rename] or a [copy] that may not replace a destination that exists; each is
    answered with an error, and no call made for it changes the file system. *)
Theorem refusal_destroys_nothing `{Kernel, Directories, JsonLaws, Base64, Environment, !Receiver,
    Processes} req s :
  let path := path_new (expand_home (str_or req "path" "")) in
  let to := path_new (expand_home (str_or req "to" "")) in
  let fs := met (world s) in
  let op := get_str req "op" in
  (op = Some "rmdir" → bool_or req "recursive" false = false → has_entries path fs = true →
     is_Some (lookup_path fs path) → refused req s) ∧
  (op = Some "write" → bool_or req "must_be_new" false = true → is_Some (names fs !! path) →
     is_ok (expected_revision_from_request req) = true → refused req s) ∧
  (op = Some "rename" ∨ op = Some "copy" → bool_or req "ok_if_exists" true = false →
     fault (w_step (world s)) = None → is_ok (k_stat to fs) = true → refused req s).
Proof.
  cbn zeta. split_and!.
  - intros Hop Hrec He [[v i] Hl]. eapply (refused_dispatch "rmdir"); [done..|reflexivity|].
    unfold rmdir_op. rewrite Hrec. by eapply fails_quietly_op, rmdir_refuses.
  - intros Hop Hnew [v Hv] Hexp. eapply (refused_dispatch "write"); [done|done| |reflexivity|].
    + unfold handle_op. do 4 rewrite decide_False by done. rewrite decide_True by done.
      rewrite Hnew, andb_false_r. by destruct (expected_revision_from_request req) as [[]|].
    + rewrite Hnew. by eapply write_file_refuses.
  - intros Hop Hok Hf Hmd. destruct (k_stat _ _) as [md|] eqn:Hstat; [|done].
    destruct Hop as [Hop|Hop]; (eapply (refused_dispatch _ req _ _ s Hop); [done..|reflexivity|]);
      by eapply unless_exists_refuses.
Qed.

Section refusal_witness.
#[local] Existing Instances quiet_kernel plain_directories no_home connected steady_clock.

Lemma refusal_destroys_nothing_witness :
  refused (request "rmdir" "/d" []) sample_session ∧
  refused (request "write" "/d/note" [("must_be_new", of_bool true); ("bytes_b64", of_str "x")])
    sample_session ∧
  refused (request "rename" "/d" [("to", of_str "/d/note"); ("ok_if_exists", of_bool false)])
    sample_session.
Proof.
  pose proof (λ req, refusal_destroys_nothing req sample_session) as Hr. cbn zeta in Hr.
  split_and!.
  - destruct (Hr (request "rmdir" "/d" [])) as (Hrmdir & _ & _).
    apply Hrmdir; [reflexivity..|by eexists].
  - destruct (Hr (request "write" "/d/note" [("must_be_new", of_bool true); ("bytes_b64", of_str "x")]))
      as (_ & Hwrite & _). apply Hwrite; [reflexivity..|by eexists|reflexivity].
  - destruct (Hr (request "rename" "/d" [("to", of_str "/d/note"); ("ok_if_exists", of_bool false)]))
      as (_ & _ & Hrename). apply Hrename; [by left|reflexivity..].
Defined.
End refusal_witness.
