(* ===== verification/Control.v ===== *)
(** * [control.rs] and the watcher's callback in [main.rs]

    The control operations [hello], [watch] and [unwatch] on the shared map from
    canonical directories to the aliases that clients asked for, and the translation of
    the watcher's notifications into events for every alias.

    The watcher itself ([notify]) is a parameter: whether there is one, and which of
    the attempts to watch a directory it refuses. [registered] is the set of
    directories it accepted and was not told to drop. *)
From S2P Require Import Prelude MachineInt Text Json Kernel Files Reference RevisionTypes Framing.
Local Open Scope string_scope.
Local Open Scope list_scope.
Local Open Scope Z_scope.
Local Set Warnings "-clear-no-such-hyp".

(** ** Parameters *)

(** [notify::RecommendedWatcher] *)
Class Notify := {
  available : bool;                               (** [recommended_watcher(..).ok().is_some()] *)
  watch_fails : nat → string → option string;     (** the error of the [n]-th [watch] *)
}.
(** The order in which a [HashMap] is iterated. *)
Class HashOrder := { iteration : gmap string (list string) → list (string * list string) }.
Class HashOrderLaws `{HashOrder} : Prop := iteration_complete m : iteration m ≡ₚ map_to_list m.
(** What the build fixes. *)
Class Build := { SERVER_VERSION : string; OS : string; ARCH : string }.

Definition PROTOCOL_VERSION : Z := 1.

(** ** State *)

Record Watches := mkWatches {
  watched : gmap string (list string); registered : gset string; attempts : nat;
}.
Record Main := mkMain { main_world : World; main_channel : Channel; watches : Watches }.

Definition main_io {E A} (m : IO E A) : stm Main E A := λ s,
  match m (main_world s) with (r, w') => (r, mkMain w' (main_channel s) (watches s)) end.
Definition main_tell {E} (f : Channel → Channel) : stm Main E unit := λ s,
  (Ok tt, mkMain (main_world s) (f (main_channel s)) (watches s)).
(** Work on the watches. *)
Definition on_watches {E A} (m : Watches → result A E * Watches) : stm Main E A := λ s,
  match m (watches s) with (r, ws) => (r, mkMain (main_world s) (main_channel s) ws) end.

Section control.
Context `{Kernel, Directories, Json, Environment, Receiver, Notify, HashOrder, Build}.

Definition hello : Value := obj [
  ("server_version", of_str SERVER_VERSION);
  ("protocol_version", of_u64 PROTOCOL_VERSION);
  ("capabilities", of_array (of_str <$> ["revisions-v1"; "read-range-v1"; "exec-v1"; "tail-read-v1"]));
  ("os", of_str OS);
  ("arch", of_str ARCH)].

(** [if !aliases.iter().any(|a| a == path) { aliases.push(path) }] *)
Definition add_alias (path : string) (aliases : list string) : list string :=
  if bool_decide (path ∈ aliases) then aliases else aliases ++ [path].

(** The watch of [canon] for the alias [path]. *)
Definition add_watch (path canon : string) (ws : Watches) : result Value string * Watches :=
  let already_watching := bool_decide (is_Some (watched ws !! canon)) in
  let map := <[canon := add_alias path (default [] (watched ws !! canon))]> (watched ws) in
  if already_watching then (Ok (obj []), mkWatches map (registered ws) (attempts ws))
  else if available then
    match watch_fails (attempts ws) canon with
    | None => (Ok (obj []), mkWatches map ({[canon]} ∪ registered ws) (S (attempts ws)))
    | Some e => (Err ("watch: " +:+ e),
                 mkWatches (delete canon map) (registered ws) (S (attempts ws)))
    end
  else (Err "no watcher available", mkWatches map (registered ws) (attempts ws)).

Definition canonical (path : string) : IO string string :=
  let expanded_path := expand_home path in
  r ← attempt (canonicalize (path_new expanded_path));
  mret match r with Ok p => to_string_lossy (path_string p) | Err _ => expanded_path end.

(** [aliases.iter().position(|a| a == path)] and [aliases.remove(pos)] *)
Fixpoint remove_alias (path : string) (aliases : list string) : option (list string) :=
  match aliases with
  | [] => None
  | a :: aliases =>
      if decide (a = path) then Some aliases else cons a <$> remove_alias path aliases
  end.

(** The first entry, in the order of iteration, that has the alias. *)
Fixpoint find_alias (path : string) (entries : list (string * list string)) :
    option (string * list string) :=
  match entries with
  | [] => None
  | (canon, aliases) :: entries =>
      match remove_alias path aliases with
      | Some rest => Some (canon, rest)
      | None => find_alias path entries
      end
  end.

Definition remove_watch (path : string) (ws : Watches) : result Value string * Watches :=
  match find_alias path (iteration (watched ws)) with
  | None => (Ok (obj []), ws)
  | Some (canon, []) =>
      (Ok (obj []), mkWatches (delete canon (watched ws))
         (if available then registered ws ∖ {[canon]} else registered ws) (attempts ws))
  | Some (canon, rest) =>
      (Ok (obj []), mkWatches (<[canon := rest]> (watched ws)) (registered ws) (attempts ws))
  end.

(** The [match op] of [handle_ctl]. *)
Definition control (op path : string) : stm Main string Value :=
  if decide (op = "hello") then mret hello
  else if decide (op = "watch") then canon ← main_io (canonical path); on_watches (add_watch path canon)
  else if decide (op = "unwatch") then on_watches (remove_watch path)
  else throw ("unknown ctl op: " +:+ op).

Definition handle_ctl {E} (req : Value) : stm Main E unit :=
  let id := default 0 (get_i64 req "id") in
  let op := default "" (get_str req "op") in
  let path := default "" (get_str req "path") in
  r ← attempt (control op path);
  main_tell (finish id r).

(** ** Notifications *)

Inductive EventKind := Create | Remove | Modify | OtherEvent.
Inductive Notification :=
| Happened (kind : EventKind) (paths : list Path)
| WatchError.

Definition kind_name (k : EventKind) : string :=
  match k with Create => "created" | Remove => "removed" | Modify => "modified" | OtherEvent => "modified" end.

Definition self_changed (alias : string) : Value :=
  obj [("event", of_str "self_changed"); ("dir", of_str alias)].
Definition child_event (kind dir name : string) : Value :=
  obj [("event", of_str kind); ("dir", of_str dir); ("name", of_str name)].
Definition overflow_event : Value := obj [("event", of_str "overflow")].

(** The messages for one path of a notification. *)
Definition path_events (map : gmap string (list string)) (kind : EventKind) (p : Path) : list Value :=
  match map !! to_string_lossy (path_string p) with
  | Some aliases => self_changed <$> aliases
  | None =>
      let dir_canon := default "" (to_string_lossy ∘ path_string <$> parent p) in
      let name := default "" (to_string_lossy <$> file_name p) in
      let dirs := default [dir_canon] (map !! dir_canon) in
      (λ dir, child_event (kind_name kind) dir name) <$> dirs
  end.
Definition events (map : gmap string (list string)) (n : Notification) : list Value :=
  match n with
  | Happened kind paths => paths ≫= path_events map kind
  | WatchError => [overflow_event]
  end.

(** The callback: every message goes straight to the channel. *)
Definition notified {E} (n : Notification) : stm Main E unit := λ s,
  (Ok tt, mkMain (main_world s)
     (foldl (λ tx v, (tx_send (payload_of v) tx).2) (main_channel s) (events (watched (watches s)) n))
     (watches s)).
End control.

(** ** Aliases *)

Lemma add_alias_in path aliases : path ∈ add_alias path aliases.
Proof. unfold add_alias. case_bool_decide; [done|]. set_solver. Qed.
Lemma add_alias_NoDup path aliases : NoDup aliases → NoDup (add_alias path aliases).
Proof.
  intros Hnd. unfold add_alias. case_bool_decide; [done|]. apply NoDup_app. split_and!; [done|set_solver|].
  apply NoDup_singleton.
Qed.

Lemma remove_alias_some path aliases rest :
  remove_alias path aliases = Some rest → ∃ l1 l2, aliases = l1 ++ path :: l2 ∧ rest = l1 ++ l2 ∧ path ∉ l1.
Proof.
  revert rest. induction aliases as [|a aliases IH]; intros rest; simpl; [done|].
  destruct (decide (a = path)) as [->|Hne].
  - intros [= ->]. exists [], rest. set_solver.
  - intros Hr. apply fmap_Some in Hr as (rest' & Hr & ->). destruct (IH rest' Hr) as (l1 & l2 & -> & -> & Hl1).
    exists (a :: l1), l2. split_and!; [done..|]. set_solver.
Qed.
Lemma remove_alias_none path aliases : remove_alias path aliases = None ↔ path ∉ aliases.
Proof.
  induction aliases as [|a aliases IH]; simpl; [set_solver|].
  destruct (decide (a = path)); [set_solver|]. rewrite fmap_None, IH. set_solver.
Qed.
Lemma remove_alias_last path aliases :
  path ∉ aliases → remove_alias path (aliases ++ [path]) = Some aliases.
Proof.
  induction aliases as [|a aliases IH]; simpl; intros Ha; [by rewrite decide_True|].
  rewrite decide_False by set_solver. rewrite IH by set_solver. done.
Qed.

Lemma find_alias_some path entries canon rest :
  find_alias path entries = Some (canon, rest) →
  ∃ aliases, (canon, aliases) ∈ entries ∧ remove_alias path aliases = Some rest.
Proof.
  induction entries as [|[c a] entries IH]; simpl; [done|].
  destruct (remove_alias path a) as [r|] eqn:Hr.
  - intros [= -> ->]. exists a. split; [by left|done].
  - intros Hf. destruct (IH Hf) as (aliases & Hin & Hrest). exists aliases. split; [by right|done].
Qed.
Lemma find_alias_none path entries :
  find_alias path entries = None ↔ ∀ canon aliases, (canon, aliases) ∈ entries → path ∉ aliases.
Proof.
  induction entries as [|[c a] entries IH]; simpl; [set_solver|].
  destruct (remove_alias path a) as [r|] eqn:Hr.
  - split; [done|]. intros Hall. apply remove_alias_some in Hr as (l1 & l2 & -> & _).
    exfalso. eapply (Hall c); [by left|]. set_solver.
  - apply remove_alias_none in Hr. rewrite IH. split; [|set_solver].
    intros Hall canon aliases [[= -> ->]|Hin]%elem_of_cons; [done|by eapply Hall].
Qed.

Section lemmas.
Context `{Notify, HashOrder, !HashOrderLaws, Json}.

(** What the watcher was told agrees with the map; every watched directory has
    aliases, each once. *)
Record watches_ok (ws : Watches) : Prop := {
  ok_registered : registered ws = if available then dom (watched ws) else ∅;
  ok_aliases canon l : watched ws !! canon = Some l → l ≠ [] ∧ NoDup l;
}.

Lemma add_watch_ok path canon ws : watches_ok ws → watches_ok (add_watch path canon ws).2.
Proof.
  intros [Hreg Hal]. set (l := add_alias path (default [] (watched ws !! canon))).
  assert (l ≠ [] ∧ NoDup l) as Hl.
  { split; [intros Hnil; pose proof (add_alias_in path (default [] (watched ws !! canon))) as Hin;
      fold l in Hin; rewrite Hnil in Hin; set_solver|].
    apply add_alias_NoDup. destruct (watched ws !! canon) as [l0|] eqn:Hc; [|constructor].
    by apply (Hal canon). }
  assert (∀ c l', <[canon := l]> (watched ws) !! c = Some l' → l' ≠ [] ∧ NoDup l') as Hmap.
  { intros c l' [[<- <-]|[_ Hc]]%lookup_insert_Some; [done|by apply (Hal c)]. }
  unfold add_watch. fold l. case_bool_decide as Hin; [|destruct available eqn:Hav;
    [destruct (watch_fails _ _)|]]; (split; cbn [snd watched registered]; [|try exact Hmap]).
  - rewrite Hreg, dom_insert_lookup_L by done. done.
  - rewrite Hreg, Hav, dom_delete_L, dom_insert_L. apply eq_None_not_Some, not_elem_of_dom in Hin. set_solver.
  - intros c l' Hc. apply lookup_delete_Some in Hc as [_ Hc]. by apply (Hmap c).
  - by rewrite Hreg, Hav, dom_insert_L.
  - by rewrite Hreg, Hav.
Qed.

Lemma iteration_lookup (ws : Watches) canon aliases :
  (canon, aliases) ∈ iteration (watched ws) ↔ watched ws !! canon = Some aliases.
Proof. by rewrite iteration_complete, elem_of_map_to_list. Qed.

Lemma remove_watch_ok path ws : watches_ok ws → watches_ok (remove_watch path ws).2.
Proof.
  intros [Hreg Hal]. unfold remove_watch. destruct (find_alias path _) as [[canon rest]|] eqn:Hf; [|done].
  apply find_alias_some in Hf as (aliases & Hin & Hrest). apply iteration_lookup in Hin.
  apply remove_alias_some in Hrest as (l1 & l2 & -> & -> & _). destruct (Hal canon _ Hin) as [_ Hnd].
  destruct (l1 ++ l2) as [|a l] eqn:Hl; split; cbn [snd watched registered].
  - rewrite Hreg. destruct available; [by rewrite dom_delete_L|done].
  - intros c l' Hc. apply lookup_delete_Some in Hc as [_ Hc]. by apply (Hal c).
  - rewrite Hreg, dom_insert_lookup_L by done. done.
  - intros c l'. rewrite lookup_insert_Some, <-Hl. intros [[_ <-]|[_ Hc]]; [|by apply (Hal c)].
    split; [by rewrite Hl|]. rewrite NoDup_app, NoDup_cons in Hnd. rewrite NoDup_app. set_solver.
Qed.

(** The alias of a fresh watch is found where it was put. *)
Lemma find_fresh path canon (ws : Watches) map l :
  (∀ c l, watched ws !! c = Some l → path ∉ l) →
  map = <[canon := l ++ [path]]> (watched ws) → path ∉ l →
  find_alias path (iteration map) = Some (canon, l).
Proof.
  intros Hfresh -> Hl. destruct (find_alias _ _) as [[c rest]|] eqn:Hf.
  - apply find_alias_some in Hf as (aliases & Hin & Hrest).
    rewrite iteration_complete, elem_of_map_to_list in Hin.
    apply lookup_insert_Some in Hin as [[<- <-]|[_ Hin]].
    + rewrite remove_alias_last in Hrest by done. by injection Hrest as ->.
    + exfalso. assert (remove_alias path aliases = None) as Hnone
        by (apply remove_alias_none; by eapply Hfresh). congruence.
  - exfalso. rewrite find_alias_none in Hf. eapply (Hf canon (l ++ [path])); [|set_solver].
    by rewrite iteration_complete, elem_of_map_to_list, lookup_insert_eq.
Qed.
End lemmas.

(** ** Properties *)

Section requests.
Context `{Kernel, Directories, JsonLaws, Environment, !Receiver, Notify, HashOrder, !HashOrderLaws, Build}.

Definition ctl_ok (s : Main) : Prop := watches_ok (watches s).

Lemma control_ok op path s : ctl_ok s → ctl_ok (control op path s).2.
Proof.
  intros Hok. unfold control. destruct (decide _); [done|]. destruct (decide _).
  { unfold main_io, on_watches, mbind, stm_bind. destruct (canonical path (main_world s)) as [[canon|err] w'];
      [|done]. cbn [watches]. pose proof (add_watch_ok path canon (watches s) Hok) as Hadd.
    by destruct (add_watch path canon (watches s)). }
  destruct (decide _); [|done]. unfold on_watches, ctl_ok.
  pose proof (remove_watch_ok path (watches s) Hok) as Hrem. by destruct (remove_watch path (watches s)).
Qed.

Lemma handle_ctl_watches {E} req s :
  watches (handle_ctl (E := E) req s).2
  = watches (control (default "" (get_str req "op")) (default "" (get_str req "path")) s).2.
Proof.
  unfold handle_ctl, attempt, main_tell, mbind, stm_bind. cbn zeta. by destruct (control _ _ s).
Qed.

Lemma canonical_total path w : ∃ canon, (canonical path w).1 = Ok canon.
Proof.
  unfold canonical, attempt, mbind, stm_bind. destruct (canonicalize _ w) as [[p|e] w']; eauto.
Qed.

(** What a granted [watch] did. *)
Lemma control_watch path s canon :
  (canonical path (main_world s)).1 = Ok canon →
  (control "watch" path s).1 = (add_watch path canon (watches s)).1 ∧
  watches (control "watch" path s).2 = (add_watch path canon (watches s)).2.
Proof.
  intros Hc. change (control "watch" path) with
    (canon ← main_io (canonical path); on_watches (add_watch path canon)).
  unfold main_io, on_watches, mbind, stm_bind. destruct (canonical path (main_world s)) as [r w'].
  simpl in Hc. subst r. cbn [watches]. by destruct (add_watch path canon (watches s)).
Qed.
Lemma control_unwatch path s :
  watches (control "unwatch" path s).2 = (remove_watch path (watches s)).2.
Proof.
  change (control "unwatch" path) with (on_watches (remove_watch path) : stm Main string Value).
  unfold on_watches. by destruct (remove_watch path (watches s)).
Qed.

Lemma add_watch_ok_inv path canon ws v :
  (add_watch path canon ws).1 = Ok v →
  let l := add_alias path (default [] (watched ws !! canon)) in
  watched (add_watch path canon ws).2 = <[canon := l]> (watched ws) ∧
  (is_Some (watched ws !! canon) ∧ registered (add_watch path canon ws).2 = registered ws ∨
   watched ws !! canon = None ∧ available = true ∧
     registered (add_watch path canon ws).2 = {[canon]} ∪ registered ws).
Proof.
  unfold add_watch. case_bool_decide as Hin; [by auto|]. apply eq_None_not_Some in Hin.
  destruct available; [|done]. destruct (watch_fails _ _); [done|]. by auto.
Qed.

(** [req] takes back the alias [path]. *)
Definition unwatches (path : string) (req : Value) : Prop :=
  get_str req "op" = Some "unwatch" ∧ default "" (get_str req "path") = path.
Definition has_alias (canon path : string) (s : Main) : Prop :=
  ∃ l, watched (watches s) !! canon = Some l ∧ path ∈ l.

Lemma add_watch_keeps canon path path' canon' ws l :
  watched ws !! canon = Some l → path ∈ l →
  ∃ l', watched (add_watch path' canon' ws).2 !! canon = Some l' ∧ path ∈ l'.
Proof.
  intros Hl Hin. unfold add_watch. case_bool_decide as Hw.
  - cbn [snd watched]. destruct (decide (canon' = canon)) as [->|Hne].
    + rewrite lookup_insert_eq, Hl. eexists. split; [done|]. unfold add_alias. cbn [default].
      unfold id. case_bool_decide; set_solver.
    + rewrite lookup_insert_ne by done. eauto.
  - assert (canon' ≠ canon) as Hne by (intros ->; apply Hw; eauto).
    destruct available; [destruct (watch_fails _ _)|]; cbn [snd watched];
      rewrite ?lookup_delete_ne, lookup_insert_ne by done; eauto.
Qed.

Lemma remove_watch_keeps canon path path' ws l :
  watched ws !! canon = Some l → path ∈ l → path' ≠ path →
  ∃ l', watched (remove_watch path' ws).2 !! canon = Some l' ∧ path ∈ l'.
Proof.
  intros Hl Hin Hne. unfold remove_watch. destruct (find_alias path' _) as [[canon' rest]|] eqn:Hf; [|eauto].
  apply find_alias_some in Hf as (aliases & Hwas & Hrest). apply iteration_lookup in Hwas.
  apply remove_alias_some in Hrest as (l1 & l2 & -> & -> & _).
  destruct (decide (canon' = canon)) as [->|Hother].
  - rewrite Hl in Hwas. injection Hwas as ->. assert (path ∈ l1 ++ l2) as Hstays by set_solver.
    destruct (l1 ++ l2) as [|a rest]; [by apply elem_of_nil in Hstays|]. cbn [snd watched].
    rewrite lookup_insert_eq. eauto.
  - destruct (l1 ++ l2); cbn [snd watched]; rewrite ?lookup_delete_ne, ?lookup_insert_ne by done; eauto.
Qed.

(** Only its own [unwatch] takes an alias away. *)
Lemma requests_keep_alias canon path s reqs :
  ctl_ok s → has_alias canon path s → Forall (λ req, ¬ unwatches path req) reqs →
  ctl_ok (foldl (λ s req, (handle_ctl (E := Empty_set) req s).2) s reqs) ∧
  has_alias canon path (foldl (λ s req, (handle_ctl (E := Empty_set) req s).2) s reqs).
Proof.
  intros Hok Hal Hreqs. revert s Hok Hal. induction Hreqs as [|req reqs Hreq _ IH]; intros s Hok Hal; [done|].
  simpl. apply IH; unfold ctl_ok, has_alias; rewrite handle_ctl_watches; [by apply control_ok|].
  destruct Hal as (l & Hl & Hin). set (path' := default "" (get_str req "path")).
  unfold control. destruct (decide _); [eauto|]. destruct (decide _).
  { unfold main_io, on_watches, mbind, stm_bind. destruct (canonical path' (main_world s)) as [[canon'|err] w']; [|eauto].
    cbn [watches]. pose proof (add_watch_keeps canon path path' canon' (watches s) l Hl Hin) as Hkeep.
    by destruct (add_watch path' canon' (watches s)). }
  destruct (decide (default "" (get_str req "op") = "unwatch")) as [Hop|]; [|eauto]. unfold on_watches.
  pose proof (remove_watch_keeps canon path path' (watches s) l Hl Hin) as Hkeep.
  destruct (remove_watch path' (watches s)). apply Hkeep. intros Hpath. apply Hreq. split; [|done].
  by destruct (get_str req "op"); simpl in Hop; [f_equal|].
Qed.
End requests.

(** C28: the watcher watches what the clients asked for. After any sequence of control
    requests, whatever they hold and whichever watches the watcher refuses, the
    directories registered with it are exactly the keys of the alias map, no directory
    is kept without an alias, and no alias is listed twice. Where there is no watcher,
    nothing is ever registered; a [watch] is then granted exactly if its directory is in
    the map at that moment, and leaves it there even if it is refused. So the refused
    request is granted when it is repeated, as long as no [unwatch] comes between. *)
Theorem watcher_agrees_with_map `{Kernel, Directories, JsonLaws, Environment, !Receiver, Notify,
    HashOrder, !HashOrderLaws, Build} reqs s :
  watches s = mkWatches ∅ ∅ 0 →
  let s' := foldl (λ s req, (handle_ctl (E := Empty_set) req s).2) s reqs in
  (available = true → registered (watches s') = dom (watched (watches s'))) ∧
  (∀ canon l, watched (watches s') !! canon = Some l → l ≠ [] ∧ NoDup l) ∧
  (available = false → registered (watches s') = ∅ ∧
   ∀ path canon, (canonical path (main_world s')).1 = Ok canon →
     (control "watch" path s').1 = (if decide (canon ∈ dom (watched (watches s'))) then Ok (obj [])
                                    else Err "no watcher available") ∧
     canon ∈ dom (watched (watches (control "watch" path s').2))).
Proof.
  intros Hs s'. assert (ctl_ok s') as [Hreg Hal].
  { assert (ctl_ok s) as Hok by (split; rewrite Hs; cbn; [by destruct available; rewrite ?dom_empty_L|done]).
    unfold s'. clear Hs s'. revert s Hok. induction reqs as [|req reqs IH]; intros s Hok; [done|].
    apply IH. unfold ctl_ok. rewrite handle_ctl_watches. by apply control_ok. }
  split_and!; [by intros Hav; rewrite Hav in Hreg|exact Hal|]. intros Hav. rewrite Hav in Hreg. split; [exact Hreg|].
  intros path canon Hcanon. destruct (control_watch path s' canon Hcanon) as [-> ->]. unfold add_watch. rewrite Hav.
  case_decide as Hin; rewrite elem_of_dom in Hin; [rewrite bool_decide_eq_true_2 by done|rewrite bool_decide_eq_false_2 by done];
    (split; [done|]); cbn [snd watched]; rewrite dom_insert_L; set_solver.
Qed.


(** [unwatch] undoes [watch]. If no one used the alias before, then watching and
    unwatching leaves the map and the registered directories as they were, however the
    map is iterated. *)
Lemma unwatch_undoes_watch `{Kernel, Directories, JsonLaws, Environment, !Receiver, Notify,
    HashOrder, !HashOrderLaws, Build} path s v :
  watches_ok (watches s) → (∀ c l, watched (watches s) !! c = Some l → path ∉ l) →
  (control "watch" path s).1 = Ok v →
  let ws := watches (control "unwatch" path (control "watch" path s).2).2 in
  watched ws = watched (watches s) ∧ registered ws = registered (watches s).
Proof.
  intros Hok Hfresh Hv. destruct (canonical_total path (main_world s)) as [canon Hcanon].
  destruct (control_watch path s _ Hcanon) as [Hr Hws]. cbn zeta. rewrite control_unwatch, Hws.
  rewrite Hr in Hv. destruct (add_watch_ok_inv _ _ _ _ Hv) as [Hmap Hreg].
  set (ws' := (add_watch path canon (watches s)).2) in *.
  set (l := default [] (watched (watches s) !! canon)) in *.
  assert (path ∉ l) as Hl.
  { unfold l. destruct (watched (watches s) !! canon) as [l0|] eqn:Hc; [by eapply Hfresh|set_solver]. }
  unfold add_alias in Hmap. rewrite bool_decide_eq_false_2 in Hmap by done.
  unfold remove_watch. rewrite (find_fresh path canon (watches s) _ l Hfresh Hmap Hl), Hmap.
  destruct Hreg as [[[l0 Hc] Hreg]|(Hc & Hav & Hreg)].
  - unfold l in *. rewrite Hc in *. cbn [default] in *. destruct Hok as [_ Hal].
    unfold id. destruct l0 as [|a l0]; [by destruct (Hal canon [] Hc)|]. cbn [snd watched registered].
    by rewrite insert_insert_eq, insert_id.
  - unfold l in *. rewrite Hc in *. cbn [default snd watched registered].
    rewrite Hav, delete_insert_id by done. split; [done|]. rewrite Hreg.
    destruct Hok as [Hdom _]. rewrite Hav in Hdom. apply not_elem_of_dom in Hc. set_solver.
Qed.

(** ** Witnesses *)
Section witnesses.
Definition willing : Notify := {| available := true; watch_fails := λ _ _, None |}.
Definition map_order : HashOrder := {| iteration := map_to_list |}.
Definition a_build : Build := {| SERVER_VERSION := "1.0.0"; OS := "linux"; ARCH := "x86_64" |}.
Lemma map_order_laws : HashOrderLaws (H := map_order).
Proof. intros m. apply Permutation_refl. Qed.
#[local] Existing Instances quiet_kernel plain_directories no_home connected willing map_order
  map_order_laws a_build.

Definition idle : Main := mkMain sample (mkChannel [] 0) (mkWatches ∅ ∅ 0).
Definition ctl (op path : string) : Value := obj [("op", of_str op); ("path", of_str path)].

Lemma idle_empty c l : watched (watches idle) !! c ≠ Some l.
Proof. unfold idle. cbn [watches watched]. by rewrite lookup_empty. Qed.
Lemma idle_ok : watches_ok (watches idle).
Proof. split; [reflexivity|]. intros canon l Hl. by apply idle_empty in Hl. Qed.

Lemma watcher_agrees_with_map_witness :
  let reqs := [ctl "watch" "/d"; ctl "watch" "/d/"; ctl "watch" "/e"; ctl "unwatch" "/d"] in
  let s' := foldl (λ s req, (handle_ctl (E := Empty_set) req s).2) idle reqs in
  registered (watches s') = dom (watched (watches s')) ∧
  map_to_list (watched (watches s')) = [("/e", ["/e"]); ("/d", ["/d/"])].
Proof.
  cbn zeta. split; [|vm_compute; reflexivity].
  by apply (watcher_agrees_with_map [ctl "watch" "/d"; ctl "watch" "/d/"; ctl "watch" "/e"; ctl "unwatch" "/d"] idle).
Defined.


Lemma unwatch_undoes_watch_witness :
  let ws := watches (control "unwatch" "/d" (control "watch" "/d" idle).2).2 in
  watched ws = ∅ ∧ registered ws = ∅.
Proof.
  apply (unwatch_undoes_watch "/d" idle (obj [])); try reflexivity.
  - apply idle_ok.
  - intros c l Hl. by apply idle_empty in Hl.
Defined.
End witnesses.
