(* ===== verification/Isolation.v ===== *)
(** * A run that no one disturbed

    A routine runs against the host [K], whose other processes may do anything before
    every call. What it does depends only on the file systems that its calls met, which
    its log shows: with anything else that leads from call to call in the same way
    ([follows]) the run is the same ([isolated]). In particular, if only time passed
    between its calls, it is a run on a host without other processes ([quieted]). The relation is proved along the code of the
    conditional write; the rest of the world, other runs included, may be as noisy as
    it likes. *)
From S2P Require Import Prelude MachineInt Text Json Kernel Sha256 RevisionTypes ReadPath WritePath.
Local Open Scope string_scope.
Local Open Scope list_scope.
Local Open Scope Z_scope.
Local Set Warnings "-clear-no-such-hyp".

(** ** Undisturbed logs *)

(** From [f] to [g], with nothing but time between the calls. *)
Fixpoint chain (f : FS) (l : list (FS * FS)) (g : FS) : Prop :=
  match l with
  | [] => f = g
  | (before, after) :: l => before ≡ f ∧ chain after l g
  end.

Lemma chain_app f l l' g : chain f (l ++ l') g ↔ ∃ h, chain f l h ∧ chain h l' g.
Proof.
  revert f. induction l as [|[b a] l IH]; intros f; simpl.
  - split; [eauto|]. by intros (h & -> & Hl).
  - rewrite IH. naive_solver.
Qed.

Lemma chain_equiv f f' l g : f' ≡ f → chain f l g → ∃ g', g' ≡ g ∧ chain f' l g'.
Proof.
  intros Hf. destruct l as [|[b a] l]; simpl; [intros <-; eauto|]. intros [Hb Hl]. exists g. by rewrite Hf.
Qed.

(** From [f] to [g], with [E n] before the [n]-th call. *)
Fixpoint follows (E : nat → FS → FS) (n : nat) (f : FS) (l : list (FS * FS)) (g : FS) : Prop :=
  match l with
  | [] => f = g
  | (before, after) :: l => before = E n f ∧ follows E (S n) after l g
  end.

Lemma follows_app E n f l l' g :
  follows E n f (l ++ l') g ↔ ∃ h, follows E n f l h ∧ follows E (n + length l) h l' g.
Proof.
  revert n f. induction l as [|[b a] l IH]; intros n f; simpl.
  - rewrite Nat.add_0_r. split; [eauto|]. by intros (h & -> & Hl).
  - rewrite IH. replace (S n + length l)%nat with (n + S (length l))%nat by lia. naive_solver.
Qed.

#[export] Instance Inode_eq_dec : EqDecision Inode.
Proof. solve_decision. Defined.
#[export] Instance FS_eq_dec : EqDecision FS.
Proof. solve_decision. Defined.

(** A log again, call by call; what came between the calls is [gaps]. *)
Definition gaps (P : FS → FS → Prop) (l : list (FS * FS)) : Prop :=
  ∀ k e e', l !! k = Some e → l !! S k = Some e' → P e.2 e'.1.

Definition replay (n0 : nat) (l : list (FS * FS)) (n : nat) (fs : FS) : FS :=
  match (n - n0)%nat with
  | O => fs
  | S k => match l !! k, l !! S k with
           | Some e, Some e' => if decide (fs = e.2) then e'.1 else fs
           | _, _ => fs
           end
  end.

Lemma replay_steps P n0 l : Reflexive P → gaps P l → ∀ n fs, P fs (replay n0 l n fs).
Proof.
  intros HP Hl n fs. unfold replay. destruct (n - n0)%nat as [|k]; [apply HP|].
  destruct (l !! k) as [e|] eqn:He, (l !! S k) as [e'|] eqn:He'; try apply HP.
  case_decide as Hfs; [|apply HP]. rewrite Hfs. by eapply Hl.
Qed.

Lemma replay_follows_from n0 e pre l :
  follows (replay n0 (pre ++ e :: l)) (n0 + S (length pre)) e.2 l (List.last (e :: l) e).2.
Proof.
  revert pre e. induction l as [|e' l IH]; intros pre e; [done|].
  assert (e' = (e'.1, e'.2)) as Hpair by (by destruct e'). rewrite Hpair at 2. cbn [follows]. split.
  - unfold replay. replace (n0 + S (length pre) - n0)%nat with (S (length pre)) by lia.
    rewrite list_lookup_middle by done. rewrite lookup_app_r by lia.
    replace (S (length pre) - length pre)%nat with 1%nat by lia. simpl. by rewrite decide_True.
  - specialize (IH (pre ++ [e]) e'). rewrite <-app_assoc, length_app in IH. simpl in IH.
    replace (S (n0 + S (length pre)))%nat with (n0 + S (length pre + 1))%nat by lia.
    replace (List.last (e :: e' :: l) e) with (List.last (e' :: l) e'); [exact IH|].
    clear. simpl. destruct l as [|x l]; [done|]. revert x. induction l as [|y l IH]; intros x; [done|]. apply (IH y).
Qed.

Lemma replay_follows n0 e l :
  follows (replay n0 (e :: l)) n0 e.1 (e :: l) (List.last (e :: l) e).2.
Proof.
  pose proof (replay_follows_from n0 e [] l) as Hl. cbn [app length] in Hl. rewrite Nat.add_1_r in Hl.
  destruct e as [b a]. split; [unfold replay; by rewrite Nat.sub_diag|exact Hl].
Qed.

(** The host [K] with [E] in place of its other processes. *)
Definition with_env (E : nat → FS → FS) (K : Kernel) : Kernel := {|
  env := E; fault := fault; chunk := chunk; pick_ino := pick_ino;
  chown_allowed := chown_allowed; process_id := process_id; umask := umask;
  euid := euid; egid := egid; device := device |}.

#[export] Instance with_env_faultless E K : Faultless (H := K) → Faultless (H := with_env E K).
Proof. intros Hf n. apply Hf. Qed.
#[export] Instance with_env_fresh E K : FreshInodes (H := K) → FreshInodes (H := with_env E K).
Proof. intros Hf fs. apply Hf. Qed.

(** The host without other processes; the clock shows [T n] to the [n]-th call. *)
Definition quieted (T : nat → time) (K : Kernel) : Kernel := with_env (λ n fs, at_time (T n) fs) K.

#[export] Instance quieted_undisturbed T K : Undisturbed (H := quieted T K).
Proof. done. Qed.
Lemma quieted_shown T K t : shown (H := quieted T K) t → ∃ n, t = T n.
Proof. intros (n & fs & ->). by exists n. Qed.

(** The times that a log shows, for every call from the [n]-th on. *)
Definition schedule (n : nat) (l : list (FS * FS)) (t0 : time) (k : nat) : time :=
  match l !! (k - n)%nat with Some e => clock e.1 | None => t0 end.

Lemma chain_follows n f l g t0 :
  chain f l g → follows (λ k fs, at_time (schedule n l t0 k) fs) n f l g.
Proof.
  assert (∀ T m f' l', chain f' l' g → (∀ k e, l' !! k = Some e → T (m + k)%nat = clock e.1) →
    follows (λ k fs, at_time (T k) fs) m f' l' g) as Hgen.
  { intros T m f' l'. revert m f'. induction l' as [|[b a] l' IH]; intros m f'; [done|].
    intros [Hb Hl] HT. split.
    - specialize (HT 0%nat _ eq_refl). rewrite Nat.add_0_r in HT. rewrite HT. by apply equiv_at_time.
    - apply IH; [done|]. intros k e Hk. specialize (HT (S k) e Hk). by replace (S m + k)%nat with (m + S k)%nat by lia. }
  intros Hl. apply Hgen; [done|]. intros k e Hk. unfold schedule. by replace (n + k - n)%nat with k by lia; rewrite Hk.
Qed.

(** ** The relation

    States that contain a world: its log, the number of its next call, and the state
    with another file system. *)
Class Housed (W : Type) := {
  log_of : W → list (FS * FS); step_of : W → nat; settle : FS → W → W }.
#[export] Instance housed_world : Housed World := {|
  log_of := w_log; step_of := w_step; settle f w := mkWorld f (w_step w) (w_temp w) (w_log w) |}.
#[export] Instance housed_local {L} : Housed (World * L) := {|
  log_of wl := w_log wl.1; step_of wl := w_step wl.1; settle f wl := (settle f wl.1, wl.2) |}.

(** The calls of a run: what they add to the log, one entry each, at times that the
    clock of [K] shows. *)
Record run_log (K : Kernel) {W} `{Housed W} (w w' : W) (l : list (FS * FS)) : Prop := {
  run_calls : log_of w' = log_of w ++ l;
  run_steps : step_of w' = (step_of w + length l)%nat;
  run_shown : Forall (λ e, shown (H := K) (clock e.1)) l;
}.

Definition isolated (K : Kernel) {W E A} `{Housed W} (m : stm W E A) (m' : (nat → FS → FS) → stm W E A) : Prop :=
  ∀ w, ∃ l, run_log K w (m w).2 l ∧
    ∀ E f g, follows E (step_of w) f l g → m' E (settle f w) = ((m w).1, settle g (m w).2).

Section rules.
Context (K : Kernel) {W : Type} `{Housed W} {E : Type}.

Lemma run_log_none (w : W) : run_log K w w [].
Proof. split; [by rewrite app_nil_r|simpl; lia|constructor]. Qed.
Lemma run_log_app (w w1 w2 : W) l l' : run_log K w w1 l → run_log K w1 w2 l' → run_log K w w2 (l ++ l').
Proof.
  intros [C1 S1 F1] [C2 S2 F2]. split; [by rewrite C2, C1, app_assoc|rewrite S2, S1, length_app; lia|].
  by apply Forall_app.
Qed.

Lemma isolated_pure {A} (r : result A E) : isolated K (W := W) (λ w, (r, w)) (λ _ w, (r, w)).
Proof. intros w. exists []. split; [apply run_log_none|]. by intros T f g ->. Qed.
Lemma isolated_ret {A} (a : A) : isolated K (mret a : stm W E A) (λ _, mret a).
Proof. apply isolated_pure. Qed.
Lemma isolated_throw {A} (e : E) : isolated K (throw e : stm W E A) (λ _, throw e).
Proof. apply isolated_pure. Qed.
Lemma isolated_lift {A} (r : result A E) : isolated K (lift_result r : stm W E A) (λ _, lift_result r).
Proof. apply isolated_pure. Qed.

Lemma isolated_bind {A B} (m : stm W E A) m' (k : A → stm W E B) (k' : (nat → FS → FS) → A → stm W E B) :
  isolated K m m' → (∀ a, isolated K (k a) (λ T, k' T a)) → isolated K (m ≫= k) (λ T, m' T ≫= k' T).
Proof.
  intros Hm Hk w. destruct (Hm w) as (l & Hl & Hr). unfold mbind, stm_bind.
  destruct (m w) as [[a|e] w1]; cbn [fst snd] in *.
  - destruct (Hk a w1) as (l' & Hl' & Hr'). exists (l ++ l'). split; [by eapply run_log_app|].
    intros T f g (h & Hfh & Hhg)%follows_app. rewrite (Hr T f h Hfh).
    apply (Hr' T h g). by rewrite (run_steps _ _ _ _ Hl).
  - exists l. split; [done|]. intros T f g Hfg. by rewrite (Hr T f g Hfg).
Qed.

Lemma isolated_attempt {F A} (m : stm W E A) m' :
  isolated K m m' → isolated K (attempt m : stm W F _) (λ T, attempt (m' T)).
Proof.
  intros Hm w. destruct (Hm w) as (l & Hl & Hr). exists l. unfold attempt.
  destruct (m w); cbn [fst snd] in *. split; [done|]. intros T f g Hfg. by rewrite (Hr T f g Hfg).
Qed.
Lemma isolated_map_err {F A} (h : E → F) (m : stm W E A) m' :
  isolated K m m' → isolated K (map_err h m) (λ T, map_err h (m' T)).
Proof.
  intros Hm w. destruct (Hm w) as (l & Hl & Hr). exists l. unfold map_err.
  destruct (m w); cbn [fst snd] in *. split; [done|]. intros T f g Hfg. by rewrite (Hr T f g Hfg).
Qed.

Lemma isolated_mloop {S R} d (step : S → stm W E (S + R)) (step' : (nat → FS → FS) → S → stm W E (S + R)) s :
  (∀ s, isolated K (step s) (λ T, step' T s)) → isolated K (mloop d step s) (λ T, mloop d (step' T) s).
Proof.
  intros Hstep. revert s. induction d as [|d IH]; intros s; simpl; [apply Hstep|].
  apply (isolated_bind _ _ _ (λ T r, match r with inl s' => mloop d (step' T) s' | inr x => mret (inr x) end));
    [apply IH|]. intros [s'|x]; [apply IH|apply isolated_ret].
Qed.
End rules.

Lemma isolated_global K {L E A} (m : stm World E A) m' :
  isolated K m m' → isolated K (global m : stm (World * L) E A) (λ T, global (m' T)).
Proof.
  intros Hm [w p]. destruct (Hm w) as (l & [C S F] & Hr). exists l. unfold global. cbn [fst snd].
  destruct (m w); cbn [fst snd] in *. split; [by split|]. intros T f g Hfg.
  change (settle f (w, p)) with (settle f w, p). cbn [fst snd]. by rewrite (Hr T f g Hfg).
Qed.
Lemma isolated_local K {L E} (h : L → L) :
  isolated K (local h : stm (World * L) E unit) (λ _, local h).
Proof.
  intros [w p]. exists []. split; [split; [by rewrite app_nil_r|simpl; lia|constructor]|]. by intros T f g ->.
Qed.

(** A scope, whose destructor may make calls. *)
Lemma isolated_scope K {L E A} (drop : L → World → World) drop' p (body : stm (World * L) E A) body' :
  isolated K body body' →
  (∀ p, isolated K (λ w, (Ok tt : result unit E, drop p w)) (λ T w, (Ok tt, drop' T p w))) →
  isolated K (scope drop p body) (λ T, scope (drop' T) p (body' T)).
Proof.
  intros Hbody Hdrop w. destruct (Hbody (w, p)) as (l & [C S F] & Hr). unfold scope.
  destruct (body (w, p)) as [r [w1 p1]]. cbn [fst snd] in *.
  assert (run_log K w w1 l) as Hl by (by split).
  destruct (Hdrop p1 w1) as (l' & Hl' & Hr'). cbn [fst snd] in *. exists (l ++ l').
  split; [by eapply run_log_app|]. intros T f g (h & Hfh & Hhg)%follows_app.
  specialize (Hr T f h Hfh). change (settle f (w, p)) with (settle f w, p) in Hr. rewrite Hr.
  change (settle h (w1, p1)) with (settle h w1, p1). rewrite <-(run_steps _ _ _ _ Hl) in Hhg.
  specialize (Hr' T h g Hhg). apply (f_equal snd) in Hr'. cbn [snd] in Hr'. cbv beta iota. by rewrite Hr'.
Qed.

(** One call. *)
Lemma isolated_call (K : Kernel) {A} (call : nat → FS → result A IoError * FS) call' :
  (∀ T n fs, call' T n fs = call n fs) →
  isolated K (syscall (H := K) call) (λ T, syscall (H := with_env T K) (call' T)).
Proof.
  intros Hcall w. unfold syscall. cbn [env fault with_env settle housed_world w_step w_fs w_temp w_log].
  set (met := env (w_step w) (w_fs w)).
  assert (∀ fs', run_log K w (mkWorld fs' (S (w_step w)) (w_temp w) (w_log w ++ [(met, fs')])) [(met, fs')]) as Hl.
  { intros fs'. split; [done|simpl; lia|]. apply Forall_singleton. by do 2 eexists. }
  destruct (fault (w_step w)) as [text|] eqn:Hf.
  - exists [(met, met)]. split; [apply Hl|]. intros T f g [Hmet <-]. cbn [step_of housed_world] in Hmet. by rewrite <-Hmet.
  - destruct (call (w_step w) met) as [r fs'] eqn:Hc. exists [(met, fs')]. split; [apply Hl|].
    intros T f g [Hmet <-]. cbn [step_of housed_world] in Hmet. by rewrite <-Hmet, Hcall, Hc.
Qed.
Lemma isolated_query (K : Kernel) {A} (look : nat → FS → result A IoError) look' :
  (∀ T n fs, look' T n fs = look n fs) →
  isolated K (query (H := K) look) (λ T, query (H := with_env T K) (look' T)).
Proof. intros Hlook. apply isolated_call. intros T n fs. by rewrite Hlook. Qed.

Ltac isolated_tac :=
  repeat lazymatch goal with
  | |- forall _, _ => intro
  | |- isolated _ (mbind _ _) _ => apply isolated_bind
  | |- isolated _ (mret _) _ => apply isolated_ret
  | |- isolated _ (throw _) _ => apply isolated_throw
  | |- isolated _ (lift_result _) _ => apply isolated_lift
  | |- isolated _ (attempt _) _ => apply isolated_attempt
  | |- isolated _ (map_err _ _) _ => apply isolated_map_err
  | |- isolated _ (global _) _ => apply isolated_global
  | |- isolated _ (local _) _ => apply isolated_local
  | |- isolated _ (syscall _) _ => apply isolated_call; reflexivity
  | |- isolated _ (query _) _ => apply isolated_query; reflexivity
  | |- isolated _ (mloop _ _ _) _ => apply isolated_mloop
  | |- isolated _ (match ?x with _ => _ end) _ => destruct x
  | |- _ => solve [auto with isolated]
  end.
Create HintDb isolated.

(** ** The code *)
Section code.
Context (K : Kernel).

(** What [m] does on the host [K] alone, if its log shows no one else. *)
Abbreviation alone m := (isolated K (m K) (λ T, m (with_env T K))).

Lemma isolated_read_to_end f limit : alone (λ K, read_to_end (H := K) f limit).
Proof. unfold read_to_end, read_round. isolated_tac. Qed.
Hint Resolve isolated_read_to_end : isolated.

Lemma isolated_checked_lstat p : alone (λ K, checked_lstat (H := K) p).
Proof. unfold checked_lstat, symlink_metadata. isolated_tac. Qed.
Hint Resolve isolated_checked_lstat : isolated.

Lemma isolated_read_attempt p : alone (λ K, read_attempt (H := K) p id).
Proof.
  unfold read_attempt, open_checked, open_nofollow, io, reject_type, guard_err, file_metadata.
  isolated_tac. apply isolated_pure.
Qed.
Hint Resolve isolated_read_attempt : isolated.

Lemma isolated_read_with_revision p : alone (λ K, read_with_revision (H := K) p).
Proof.
  unfold read_with_revision, read_with_revision_hook. generalize READ_ATTEMPTS. intros n.
  induction n as [|n IH]; cbn [read_attempts]; isolated_tac.
Qed.
Hint Resolve isolated_read_with_revision : isolated.

Lemma isolated_appearance p md : alone (λ K, missing_appearance_conflict (H := K) p md).
Proof. unfold missing_appearance_conflict. isolated_tac. Qed.
Hint Resolve isolated_appearance : isolated.

Lemma isolated_conflict expected p : alone (λ K, conflict_for_existing (H := K) expected p).
Proof. unfold conflict_for_existing, guard_err. isolated_tac. Qed.
Hint Resolve isolated_conflict : isolated.

Lemma isolated_fetch_add {E} : isolated K (fetch_add_temp : IO E Z) (λ _, fetch_add_temp).
Proof.
  intros w. exists []. split; [split; [by rewrite app_nil_r|simpl; lia|constructor]|]. by intros T f g ->.
Qed.
Hint Resolve isolated_fetch_add : isolated.

Lemma isolated_new_temp n dir : alone (λ K, new_temp (H := K) n dir).
Proof.
  induction n as [|n IH]; cbn [new_temp]; [apply isolated_throw|].
  change (λ T, @temp_name (with_env T K)) with (λ _ : nat → FS → FS, @temp_name K). unfold create_new. isolated_tac.
Qed.
Hint Resolve isolated_new_temp : isolated.

Lemma isolated_preserve f original : alone (λ K, preserve_metadata (H := K) f original).
Proof. unfold preserve_metadata, io, fchown, set_permissions. isolated_tac. Qed.
Hint Resolve isolated_preserve : isolated.

Lemma isolated_write_all f bytes : alone (λ K, write_all (H := K) f bytes).
Proof. unfold write_all, write_round. isolated_tac. Qed.
Hint Resolve isolated_write_all : isolated.

Lemma isolated_publish temp p expected : alone (λ K, publish (H := K) temp p expected).
Proof. unfold publish, io, rename, hard_link, remove_file. isolated_tac. Qed.
Hint Resolve isolated_publish : isolated.

Lemma isolated_replace pending file p bytes expected original :
  alone (λ K, replace (H := K) pending file p bytes expected original id id).
Proof. unfold replace, io, sync_all, run_hook. isolated_tac; apply isolated_pure. Qed.
Hint Resolve isolated_replace : isolated.

Lemma isolated_drop {E} p :
  isolated K (λ w, (Ok tt : result unit E, drop_pending (H := K) p w))
    (λ T w, (Ok tt, drop_pending (H := with_env T K) p w)).
Proof.
  unfold drop_pending. destruct (active p); [|apply isolated_pure]. intros w.
  destruct (isolated_call K (λ _, k_unlink (temp_path p)) (λ _ _, k_unlink (temp_path p)) ltac:(reflexivity) w)
    as (l & Hl & Hr). exists l. split; [exact Hl|]. intros T f g Hfg. cbn [fst snd]. unfold remove_file.
  by rewrite (Hr T f g Hfg).
Qed.

(** The conditional write as a whole. *)
Lemma isolated_conditional_write p bytes expected :
  alone (λ K, conditional_write_locked (H := K) p bytes expected).
Proof.
  unfold conditional_write_locked, conditional_write_locked_with_hooks, guard_err, pending_temp_new.
  isolated_tac. apply (isolated_scope K _ (λ T, drop_pending (H := with_env T K)));
    [auto with isolated|]. intros. apply isolated_drop.
Qed.
End code.

(** ** A read among others

    What a read makes of a file depends on what came between its calls only. *)
Definition steps (w w' : World) : Prop := (w_step w ≤ w_step w')%nat.
#[export] Instance steps_preorder : PreOrder steps.
Proof. unfold steps. split; [by intros w|]. intros w1 w2 w3. lia. Qed.

Section reading.
Context (K : Kernel) (path : Path).

Lemma query_steps {A} (look : nat → FS → result A IoError) w : w_step (query look w).2 = S (w_step w).
Proof. unfold query, syscall. by destruct (fault _). Qed.
#[local] Instance look_steps : LookKeeps steps.
Proof. intros A look w. unfold steps. rewrite query_steps. lia. Qed.

Lemma advances_bind {A B} (m : IO RevisionError A) (k : A → IO RevisionError B) :
  (∀ w, (w_step w < w_step (m w).2)%nat) → (∀ a, preserves steps (k a)) →
  ∀ w, (w_step w < w_step ((m ≫= k) w).2)%nat.
Proof.
  intros Hm Hk w0. unfold mbind, stm_bind. specialize (Hm w0). destruct (m w0) as [[a|e] w1]; [|done].
  specialize (Hk a w1). unfold steps in Hk. simpl in *. lia.
Qed.

(** A read makes a call. *)
Lemma read_calls w : (w_step w < w_step (read_with_revision path w).2)%nat.
Proof.
  unfold read_with_revision, read_with_revision_hook, READ_ATTEMPTS.
  change (read_attempts 3 path id) with
    (r ← read_attempt path id;
     match r with Some read => mret read | None => read_attempts 2 path id end).
  revert w. apply advances_bind.
  - unfold read_attempt. apply advances_bind; [unfold open_checked; apply advances_bind|].
    + unfold checked_lstat. apply advances_bind.
      * intros w. unfold attempt, symlink_metadata.
        pose proof (query_steps (λ _, k_lstat path) w) as Hs. destruct (query _ w) as [r w']. simpl in *. lia.
      * preserves_tac.
    + unfold open_nofollow. preserves_tac.
    + unfold io, reject_type, guard_err, file_metadata, run_hook. preserves_tac. by intros w.
  - intros [rd|]; [apply preserves_ret, _|]. cbn [read_attempts]. preserves_tac.
Qed.

Lemma last_default {A} (l : list A) d e : last l = Some e → List.last l d = e.
Proof.
  induction l as [|x l IH]; [done|]. simpl. destruct l as [|y l]; [by intros [= ->]|]. apply IH.
Qed.

(** What a read among others comes to. *)
Record read_outcome (w : World) (l : list (FS * FS)) : Prop := {
  read_log : run_log K w (read_with_revision path w).2 l;
  read_looks : Forall (λ e, e.2 = e.1) l;
  read_last : is_Some (last l);
  (** Others may have replaced the file. *)
  read_replaced e rd :
    gaps (λ f g, ∀ v i0, leads path v i0 f → leads path v i0 g) l → last l = Some e →
    (read_with_revision path w).1 = Ok rd → read_spec e.1 path = Ok rd;
  (** Others have not touched the path once there was something. *)
  read_still e :
    Faultless (H := K) → gaps (λ f g, ∀ x, lookup_path f path = Some x → lookup_path g path = Some x) l →
    last l = Some e → (read_with_revision path w).1 = read_spec e.1 path;
}.

Lemma read_among w : ∃ l, read_outcome w l.
Proof.
  destruct (isolated_read_with_revision K path w) as (l & Hl & Hrun). exists l.
  assert (Forall (λ e : FS * FS, e.2 = e.1) l) as Hlooks.
  { assert (preserves (log_extends (λ fs fs', fs' = fs)) (read_with_revision path)) as Hkeep
      by (apply look_read_with_revision; [exact _|apply look_logs; by intros ?]).
    destruct (Hkeep w) as (l' & Hl' & Hall). pose proof (run_calls _ _ _ _ Hl) as Hc. cbn [log_of housed_world] in Hc.
    rewrite Hl' in Hc. apply app_inv_head in Hc as <-. exact Hall. }
  assert (is_Some (last l)) as Hlast.
  { apply last_is_Some. intros ->. pose proof (read_calls w) as Hc. pose proof (run_steps _ _ _ _ Hl) as Hs. simpl in Hs. lia. }
  assert (∀ P e, Reflexive P → gaps P l → last l = Some e →
    ∃ E f, (∀ n fs, P fs (E n fs)) ∧
      read_with_revision (H := with_env E K) path (settle f w)
        = ((read_with_revision path w).1, settle e.1 (read_with_revision path w).2)) as Hreplay.
  { intros P e HP Hgaps He. destruct l as [|e0 l']; [done|]. exists (replay (w_step w) (e0 :: l')), e0.1.
    split; [by apply replay_steps|]. apply Hrun.
    assert (e.1 = (List.last (e0 :: l') e0).2) as ->; [|apply replay_follows].
    rewrite (last_default _ e0 _ He).
    rewrite Forall_forall in Hlooks. symmetry. apply Hlooks. by apply last_Some_elem_of. }
  split; [exact Hl|exact Hlooks|exact Hlast| |].
  - intros e rd Hgaps He Hok.
    edestruct Hreplay as (E & f & HE & Hr); [|exact Hgaps|exact He|]; [by intros f v i0|].
    assert (Replaced (H := with_env E K) path) as Hrep by (intros n fs v i0; apply HE).
    pose proof (wp_read_replaced (H := with_env E K) path (settle f w)) as Hread. unfold wp in Hread.
    rewrite Hr in Hread. by apply Hread.
  - intros e Hfault Hgaps He.
    edestruct Hreplay as (E & f & HE & Hr); [|exact Hgaps|exact He|]; [by intros f x|].
    assert (Still (H := with_env E K) path) as Hstill by (intros n fs v i; apply HE).
    pose proof (read_with_revision_still (H := with_env E K) path (settle f w)) as Hread. unfold wp in Hread.
    rewrite Hr in Hread. apply (or_fault_never (H := with_env E K)) in Hread. exact Hread.
Qed.
End reading.
