(* ===== verification/Operations.v ===== *)
(** * The plain operations

    Unconditional [write], [copy] and the recursive [rmdir] of [fs_handlers.rs], when no
    other process is at work and no call fails: what they do to the file system, name by
    name. [computes] is the big-step relation of such runs. *)
From S2P Require Import Prelude MachineInt Text Json Kernel Files Reference RevisionTypes ReadPath WritePath WriteSafety WriteSpec WriteAlone Framing Exec FsHandlers Requests.
Local Open Scope string_scope.
Local Open Scope list_scope.
Local Open Scope Z_scope.

(** ** Runs alone *)
Section computing.
Context `{Kernel, Directories, !Undisturbed, !Faultless}.

(** From the file system [fs], whatever the time and the number of the next call, [m]
    returns [r] and leaves a file system that satisfies [Q]. *)
Definition computes {E A} (m : IO E A) (fs : FS) (r : result A E) (Q : FS → Prop) : Prop :=
  ∀ w, w_fs w ≡ fs → (m w).1 = r ∧ Q (w_fs (m w).2).
Abbreviation stays fs := (λ f : FS, f ≡ fs).

Lemma computes_mono {E A} (m : IO E A) fs r (Q R : FS → Prop) :
  computes m fs r Q → (∀ f, Q f → R f) → computes m fs r R.
Proof. intros Hm HQR w Hw. destruct (Hm w Hw). auto. Qed.

Lemma computes_ret {E A} (a : A) fs : computes (mret a : IO E A) fs (Ok a) (stays fs).
Proof. by intros w Hw. Qed.
Lemma computes_throw {E A} (e : E) fs : computes (throw e : IO E A) fs (Err e) (stays fs).
Proof. by intros w Hw. Qed.
Lemma computes_lift {E A} (r : result A E) fs : computes (lift_result r) fs r (stays fs).
Proof. by intros w Hw. Qed.

Lemma computes_bind {E A B} (m : IO E A) (k : A → IO E B) fs a r (Q R : FS → Prop) :
  computes m fs (Ok a) Q → (∀ f, Q f → computes (k a) f r R) → computes (m ≫= k) fs r R.
Proof.
  intros Hm Hk w Hw. destruct (Hm w Hw) as [Hr Hfs]. unfold mbind, stm_bind.
  destruct (m w) as [r' w']. simpl in *. subst r'. by apply (Hk _ Hfs).
Qed.
(** The first part only looks, or leaves one file system, whatever the time. *)
Lemma computes_seq {E A B} (m : IO E A) (k : A → IO E B) fs fs1 a r (R : FS → Prop) :
  computes m fs (Ok a) (stays fs1) → computes (k a) fs1 r R → computes (m ≫= k) fs r R.
Proof.
  intros Hm Hk. eapply computes_bind; [exact Hm|]. intros f Hf w Hw. apply Hk. by rewrite Hw.
Qed.
(** The first part only looks, and may see one thing or another. *)
Lemma computes_look {A B} (look : nat → FS → result A IoError) (k : A → IO IoError B) fs r
    (P : A → Prop) (R : FS → Prop) :
  (∀ n f, f ≡ fs → ∃ a, look n f = Ok a ∧ P a) → (∀ a, P a → computes (k a) fs r R) →
  computes (query look ≫= k) fs r R.
Proof.
  intros Hlook Hk w Hw. change (wp (query look ≫= k) (λ r' w', r' = r ∧ R (w_fs w')) w). wp_step.
  apply wp_query_alone; [intros text f [n [e Hf]]; by rewrite faultless in Hf|].
  intros f Hf. rewrite Hw in Hf. destruct (Hlook (w_step w) f Hf) as (a & -> & Ha). cbn [bind_post].
  by apply (Hk a Ha).
Qed.
Lemma computes_attempt {E F A} (m : IO E A) fs r Q :
  computes m fs r Q → computes (attempt m : IO F _) fs (Ok r) Q.
Proof.
  intros Hm w Hw. destruct (Hm w Hw) as [Hr Hfs]. unfold attempt. destruct (m w). simpl in *. by subst.
Qed.
Lemma computes_map_err {E F A} (g : E → F) (m : IO E A) fs r Q :
  computes m fs r Q → computes (map_err g m) fs (result_map_err g r) Q.
Proof.
  intros Hm w Hw. destruct (Hm w Hw) as [Hr Hfs]. unfold map_err. destruct (m w). simpl in *. by subst.
Qed.

Lemma computes_call {A} (call : nat → FS → result A IoError * FS) fs r (Q : FS → Prop) :
  (∀ n f, f ≡ fs → (call n f).1 = r ∧ Q (call n f).2) → computes (syscall call) fs r Q.
Proof.
  intros Hcall w Hw. apply (wp_syscall_alone call (λ r' w', r' = r ∧ Q (w_fs w'))).
  - intros text f [n [e Hf]]. by rewrite faultless in Hf.
  - intros f Hf _. apply Hcall. by rewrite Hf.
Qed.
Lemma computes_query {A} (look : nat → FS → result A IoError) fs r :
  (∀ n f, f ≡ fs → look n f = r) → computes (query look) fs r (stays fs).
Proof. intros Hlook. apply computes_call. intros n f Hf. by rewrite Hlook. Qed.
End computing.

(** Only the time differs. *)
Abbreviation stays fs := (λ f : FS, f ≡ fs).

Lemma set_inode_again v i j f fs : f ≡ set_inode v j fs → set_inode v i f ≡ set_inode v i fs.
Proof.
  intros [Hn Hi]. split; [exact Hn|]. cbn [inodes set_inode] in *. by rewrite Hi, insert_insert_eq.
Qed.

Create HintDb computes.
#[export] Hint Resolve computes_ret computes_throw computes_lift computes_attempt computes_map_err : computes.

(** ** Writing out a buffer *)
Section buffers.
Context `{Kernel, Directories, !Undisturbed, !Faultless}.
Context (fs : FS) (v : nat) (i : Inode) (Hi : inodes fs !! v = Some i).

(** [bytes] added at the end of the file, the last of them at [now]; writing nothing
    leaves its times alone. *)
Definition extended (now : time) (bytes : list byte) : Inode :=
  match bytes with [] => i | _ => set_data now (i_data i ++ bytes) i end.
Definition grown (d : list byte) (f : FS) : Prop := ∃ now, f ≡ set_inode v (extended now d) fs.

Lemma grown_inode now d f :
  f ≡ set_inode v (extended now d) fs → inodes f !! v = Some (extended now d).
Proof. intros [_ ->]. apply lookup_insert_eq. Qed.
Lemma size_extended now d : size_of (extended now d) = size_of i + Z.of_nat (length d).
Proof. unfold size_of. destruct d; simpl; rewrite ?length_app; simpl; lia. Qed.

(** One [write] at the end. *)
Lemma write_at_end now n d b todo f :
  let t := transfer n (Z.of_nat (length (b :: todo))) in
  f ≡ set_inode v (extended now d) fs →
  (k_write n v (size_of (extended now d)) (b :: todo) f).1 = Ok t ∧
  grown (d ++ take (Z.to_nat t) (b :: todo)) (k_write n v (size_of (extended now d)) (b :: todo) f).2.
Proof.
  intros t Hf. unfold k_write. rewrite (grown_inode _ _ _ Hf). fold t. split; [done|]. exists (clock f).
  pose proof (transfer_bounds n (Z.of_nat (length (b :: todo))) ltac:(simpl; lia)) as Ht. fold t in Ht.
  cbn [snd]. rewrite (set_inode_again _ _ _ _ _ Hf). apply reflexive_eq. f_equal.
  rewrite Z.sub_diag. simpl replicate. rewrite app_nil_r.
  assert (Z.to_nat (size_of (extended now d)) = length (i_data (extended now d))) as -> by (unfold size_of; lia).
  rewrite splice_end. set (l := take (Z.to_nat t) (b :: todo)).
  assert (l ≠ []) as Hl.
  { subst l. destruct (Z.to_nat t) eqn:Hz; [lia|]. by simpl. }
  unfold extended. destruct d as [|x d]; simpl; [by destruct l|]. unfold set_data. simpl. by rewrite <-app_assoc.
Qed.

Lemma grown_none f : f ≡ fs → grown [] f.
Proof.
  intros Hf. exists (0, 0). rewrite Hf. split; [done|]. cbn [inodes set_inode extended]. by rewrite insert_id.
Qed.

(** What is left of a buffer after [d] of it has been written. *)
Lemma rest_written n (d : list byte) b todo bytes :
  d ++ b :: todo = bytes →
  let t := transfer n (Z.of_nat (length (b :: todo))) in
  (d ++ take (Z.to_nat t) (b :: todo)) ++ drop (Z.to_nat t) (b :: todo) = bytes ∧
  (length (drop (Z.to_nat t) (b :: todo)) < length (b :: todo))%nat ∧
  Z.of_nat (length (d ++ take (Z.to_nat t) (b :: todo))) = Z.of_nat (length d) + t.
Proof.
  intros Hd t. pose proof (transfer_bounds n (Z.of_nat (length (b :: todo))) ltac:(simpl; lia)) as Ht.
  fold t in Ht. rewrite <-app_assoc, take_drop, length_drop, length_app, length_take. split; [done|].
  split; [|lia]. simpl length in *. lia.
Qed.

Lemma computes_write_all bytes :
  computes (write_all (mkFile v (size_of i)) bytes) fs (Ok tt) (grown bytes).
Proof.
  intros w Hw. change (wp (write_all (mkFile v (size_of i)) bytes) (λ r w', r = Ok tt ∧ grown bytes (w_fs w')) w).
  unfold write_all. wp_step. eapply wp_mono.
  { apply (wp_mloop_total _ (λ (s : Z * list byte) w', ∃ d, d ++ s.2 = bytes ∧
        s.1 = size_of i + Z.of_nat (length d) ∧ grown d (w_fs w'))
      (λ _ w', grown bytes (w_fs w')) (λ s, length s.2)).
    - intros [pos todo] w1 (d & Hd & Hpos & now & Hw1). cbn [fst snd] in *. unfold write_round.
      destruct todo as [|b todo]; [wp_step; rewrite app_nil_r in Hd; subst; by exists now|].
      wp_step. apply wp_syscall_alone; [intros ? ? [? [? Hf]]; by rewrite faultless in Hf|].
      intros f Hf _. rewrite Hw1 in Hf. cbn [f_inode]. rewrite Hpos, <-(size_extended now).
      destruct (write_at_end now (w_step w1) d b todo f Hf) as [-> Hgrown]. cbn [fst snd bind_post]. wp_step.
      destruct (rest_written (w_step w1) d b todo bytes Hd) as (Hd' & Hlen & Hlen').
      split; [|exact Hlen]. eexists. split; [exact Hd'|]. split; [|exact Hgrown]. cbn [fst]. rewrite Hlen', size_extended. lia.
    - exists []. split_and!; [done|cbn [fst f_pos]; simpl length; lia|by apply grown_none].
    - simpl. pose proof (loop_depth_enough (Z.of_nat (length bytes))). lia. }
  intros r w' ([] & -> & Hfs). by cbn [bind_post].
Qed.

Lemma computes_append_all bytes : computes (append_all v bytes) fs (Ok tt) (grown bytes).
Proof.
  intros w Hw. change (wp (append_all v bytes) (λ r w', r = Ok tt ∧ grown bytes (w_fs w')) w).
  unfold append_all. wp_step. eapply wp_mono.
  { apply (wp_mloop_total _ (λ todo w', ∃ d, d ++ todo = bytes ∧ grown d (w_fs w'))
      (λ _ w', grown bytes (w_fs w')) length).
    - intros todo w1 (d & Hd & now & Hw1). unfold append_round.
      destruct todo as [|b todo]; [wp_step; rewrite app_nil_r in Hd; subst; by exists now|].
      wp_step. apply wp_syscall_alone; [intros ? ? [? [? Hf]]; by rewrite faultless in Hf|].
      intros f Hf _. rewrite Hw1 in Hf. unfold k_append. rewrite (grown_inode _ _ _ Hf).
      destruct (write_at_end now (w_step w1) d b todo f Hf) as [-> Hgrown]. cbn [fst snd bind_post]. wp_step.
      destruct (rest_written (w_step w1) d b todo bytes Hd) as (Hd' & Hlen & _). split; [|exact Hlen]. eauto.
    - exists []. split; [done|]. by apply grown_none.
    - pose proof (loop_depth_enough (Z.of_nat (length bytes))). lia. }
  intros r w' ([] & -> & Hfs). by cbn [bind_post].
Qed.
End buffers.

(** ** Unconditional writes *)

(** [p] is not a name of the file at [q]. *)
Definition other_file (fs : FS) (p q : Path) : Prop :=
  p ≠ q ∧ ∀ v, names fs !! p = Some v → names fs !! q ≠ Some v.

Lemma extended_data i now bytes : i_data (extended i now bytes) = i_data i ++ bytes.
Proof. destruct bytes; [by rewrite app_nil_r|done]. Qed.

Lemma content_set_inode fs v i j p :
  inodes fs !! v = Some i →
  content (set_inode v j fs) p
  = if decide (names fs !! p = Some v) then Some (i_data j) else content fs p.
Proof.
  intros Hi. unfold content, lookup_path, set_inode. cbn [names inodes].
  destruct (names fs !! p) as [u|]; [|by rewrite decide_False by done]. cbn [mbind option_bind].
  case_decide as Hu; [injection Hu as ->; by rewrite lookup_insert_eq|].
  rewrite lookup_insert_ne; [done|congruence].
Qed.

Section writing.
Context `{Kernel, Directories, !Undisturbed, !Faultless}.

(** The file that a write opens: through a symbolic link, or a new one at the path
    itself. *)
Inductive opens (fs : FS) (path : Path) (must_be_new : bool) (q : Path) : Prop :=
| opens_existing v i :
    must_be_new = false → resolved fs path = Ok q → lookup_path fs q = Some (v, i) →
    inode_is_dir i = false → opens fs path must_be_new q
| opens_absent :
    must_be_new = false → resolved fs path = Ok q → names fs !! q = None → dir_ok fs q = true →
    opens fs path must_be_new q
| opens_new :
    must_be_new = true → q = path → names fs !! q = None → dir_ok fs q = true →
    opens fs path must_be_new q.

Definition written_data (fs : FS) (q : Path) (append must_be_new : bool) (bytes : list byte) : list byte :=
  if append && negb must_be_new then default [] (content fs q) ++ bytes else bytes.

(** What a write leaves: the new contents at [q], every other file as it was. *)
Record writes_at (fs : FS) (q : Path) (data : list byte) (fs' : FS) : Prop := {
  written_content : content fs' q = Some data;
  written_names p : p ≠ q → names fs' !! p = names fs !! p;
  written_others p : other_file fs p q → content fs' p = content fs p;
}.

#[export] Instance writes_at_proper fs q data : Proper ((≡) ==> iff) (writes_at fs q data).
Proof.
  assert (∀ f g, f ≡ g → writes_at fs q data f → writes_at fs q data g) as Himp.
  { intros f g Hfg [Hc Hn Ho]. split; [by rewrite <-Hfg| |].
    - intros p Hp. rewrite <-(proj1 Hfg). by apply Hn.
    - intros p Hp. rewrite <-Hfg. by apply Ho. }
  intros f g Hfg. split; by apply Himp.
Qed.

(** A file is there, or has just been made; then its bytes are written. *)
Lemma writes_existing fs q v i i1 bytes now :
  lookup_path fs q = Some (v, i) →
  writes_at fs q (i_data i1 ++ bytes) (set_inode v (extended i1 now bytes) fs).
Proof.
  intros Hl. apply lookup_path_inode in Hl as [Hq Hi]. split; [|done|].
  - by rewrite (content_set_inode _ _ _ _ _ Hi), decide_True, extended_data.
  - intros p [_ Hp]. assert (names fs !! p ≠ Some v) as Hv by (intros Hv; by apply (Hp v)).
    by rewrite (content_set_inode _ _ _ _ _ Hi), decide_False.
Qed.

(** The file system with a new file. *)
Definition with_file (fs : FS) (q : Path) (i : Inode) : FS :=
  set_names (<[q := new_slot fs]> (names fs)) (set_inode (new_slot fs) i fs).

Lemma with_file_again fs q i j f :
  f ≡ with_file fs q j → set_inode (new_slot fs) i f ≡ with_file fs q i.
Proof.
  intros [Hn Hi]. split; [exact Hn|]. cbn [inodes set_inode] in *. rewrite Hi. unfold with_file.
  cbn [inodes set_names set_inode]. by rewrite insert_insert_eq.
Qed.

Lemma writes_created fs q i1 bytes now :
  wf_fs fs → names fs !! q = None →
  writes_at fs q (i_data i1 ++ bytes) (with_file fs q (extended i1 now bytes)).
Proof.
  intros Hwf Hq. pose proof (new_slot_unused fs) as Hv. unfold with_file. set (v := new_slot fs) in *.
  assert (∀ p, names fs !! p ≠ Some v) as Hno by (intros p Hu; by apply Hv, (Hwf p)).
  split.
  - unfold content, lookup_path. cbn [names inodes set_names set_inode]. rewrite lookup_insert_eq. simpl.
    rewrite lookup_insert_eq. simpl. by rewrite extended_data.
  - intros p Hp. simpl. by rewrite lookup_insert_ne.
  - intros p [Hp _]. unfold content, lookup_path. cbn [names inodes set_names set_inode].
    rewrite lookup_insert_ne by done. destruct (names fs !! p) as [u|] eqn:Hu; [|done]. cbn [mbind option_bind].
    rewrite lookup_insert_ne; [done|]. intros <-. by apply (Hno p).
Qed.

(** What an open file holds, once [bytes] have been written to it. *)
Lemma grown_existing fs q v i i1 bytes f1 f :
  lookup_path fs q = Some (v, i) → f1 ≡ set_inode v i1 fs → grown f1 v i1 bytes f →
  writes_at fs q (i_data i1 ++ bytes) f.
Proof.
  intros Hl Hf1 [now Hf]. rewrite Hf, (set_inode_again _ _ _ _ _ Hf1). by eapply writes_existing.
Qed.
Lemma grown_created fs q i1 bytes f1 f :
  wf_fs fs → names fs !! q = None → f1 ≡ with_file fs q i1 → grown f1 (new_slot fs) i1 bytes f →
  writes_at fs q (i_data i1 ++ bytes) f.
Proof.
  intros Hwf Hq Hf1 [now Hf]. rewrite Hf, (with_file_again _ _ _ _ _ Hf1). by apply writes_created.
Qed.
Lemma inode_of_set fs v i f : f ≡ set_inode v i fs → inodes f !! v = Some i.
Proof. intros [_ ->]. apply lookup_insert_eq. Qed.
Lemma inode_with_file fs q i f : f ≡ with_file fs q i → inodes f !! new_slot fs = Some i.
Proof. intros [_ ->]. apply lookup_insert_eq. Qed.

(** Opening, for the three ways of writing. *)
Definition truncated (truncate : bool) (now : time) (i : Inode) : Inode :=
  if truncate then set_data now [] i else i.

Lemma set_inode_same fs v i : inodes fs !! v = Some i → set_inode v i fs ≡ fs.
Proof. intros Hi. split; [done|]. cbn [inodes set_inode]. by rewrite insert_id. Qed.

Lemma computes_open truncate path q fs v i :
  resolved fs path = Ok q → lookup_path fs q = Some (v, i) → inode_is_dir i = false →
  computes (syscall (λ _, k_open_write truncate path)) fs (Ok v)
    (λ f, ∃ now, f ≡ set_inode v (truncated truncate now i) fs).
Proof.
  intros Hq Hl Hdir. apply computes_call. intros _ f Hf. unfold k_open_write.
  rewrite (resolved_equiv _ _ _ Hf), Hq, (lookup_equiv _ _ _ Hf), Hl, Hdir. split; [done|]. exists (clock f).
  generalize (clock f). intros now. destruct truncate; cbn [snd truncated]; rewrite Hf; [done|].
  apply lookup_path_inode in Hl as [_ Hi]. by rewrite (set_inode_same _ _ _ Hi).
Qed.

Lemma created_file fs q f :
  names fs !! q = None → dir_ok fs q = true → f ≡ fs →
  (k_create_new q f).1 = Ok (new_slot fs) ∧
  ∃ now, (k_create_new q f).2 ≡ with_file fs q (new_inode (at_time now fs)).
Proof.
  intros Hn Hd Hf. rewrite (equiv_at_time _ _ Hf), created_temp by done. split; [done|]. by exists (clock f).
Qed.

Lemma computes_open_absent truncate path q fs :
  resolved fs path = Ok q → names fs !! q = None → dir_ok fs q = true →
  computes (syscall (λ _, k_open_write truncate path)) fs (Ok (new_slot fs))
    (λ f, ∃ now, f ≡ with_file fs q (new_inode (at_time now fs))).
Proof.
  intros Hq Hn Hd. apply computes_call. intros _ f Hf. unfold k_open_write.
  rewrite (resolved_equiv _ _ _ Hf), Hq, (lookup_equiv _ _ _ Hf). unfold lookup_path.
  rewrite Hn. by apply created_file.
Qed.

Lemma computes_create q fs :
  names fs !! q = None → dir_ok fs q = true →
  computes (create_new q) fs (Ok (mkFile (new_slot fs) 0))
    (λ f, ∃ now, f ≡ with_file fs q (new_inode (at_time now fs))).
Proof.
  intros Hn Hd. unfold create_new.
  eapply (computes_bind _ _ _ _ _ (λ f, ∃ now, f ≡ with_file fs q (new_inode (at_time now fs)))).
  - apply computes_call. intros _ f Hf. by apply created_file.
  - intros f (now & Hf). eapply computes_mono; [apply computes_ret|]. intros g Hg. exists now. by rewrite Hg.
Qed.

Lemma computes_op {A} context (m : IO IoError A) fs a Q :
  computes m fs (Ok a) Q → computes (op_io context m) fs (Ok a) Q.
Proof. intros Hm. by apply (computes_map_err _ _ _ (Ok a)). Qed.

(** The destination after it has been opened and truncated: its slot, and its inode,
    empty. *)
Inductive emptied (fs : FS) (q : Path) : nat → Inode → FS → Prop :=
| emptied_existing v i now f :
    lookup_path fs q = Some (v, i) → inode_is_dir i = false →
    f ≡ set_inode v (set_data now [] i) fs → emptied fs q v (set_data now [] i) f
| emptied_absent now f :
    names fs !! q = None → f ≡ with_file fs q (new_inode (at_time now fs)) →
    emptied fs q (new_slot fs) (new_inode (at_time now fs)) f.

Lemma computes_open_truncated path fs q :
  opens fs path false q →
  ∃ u, computes (open_truncated path) fs (Ok (mkFile u 0)) (λ f, ∃ j, emptied fs q u j f).
Proof.
  unfold open_truncated. intros [v i _ Hq Hl Hdir|_ Hq Hn Hd|]; [exists v|exists (new_slot fs)|done].
  - eapply computes_bind; [by eapply (computes_open true)|]. intros f (now & Hf).
    eapply computes_mono; [apply computes_ret|]. intros g Hg. eexists. apply (emptied_existing fs q v i now); [done..|].
    by rewrite Hg.
  - eapply computes_bind; [by apply (computes_open_absent true path q)|]. intros f (now & Hf).
    eapply computes_mono; [apply computes_ret|]. intros g Hg. eexists. apply emptied_absent; [done|]. by rewrite Hg.
Qed.

Lemma emptied_inode fs q u j f : emptied fs q u j f → inodes f !! u = Some j ∧ i_data j = [].
Proof.
  intros [v i now g Hl _ Hg|now g Hn Hg]; (split; [|done]); [by eapply inode_of_set|by eapply inode_with_file].
Qed.

(** Whatever then happens to the mode, writing gives the bytes. *)
Lemma writes_emptied fs q u j i1 bytes f1 f2 f :
  wf_fs fs → emptied fs q u j f1 → f2 ≡ set_inode u i1 f1 → i_data i1 = [] → grown f2 u i1 bytes f →
  writes_at fs q bytes f.
Proof.
  intros Hwf Hu Hf2 Hi1 Hf. enough (writes_at fs q (i_data i1 ++ bytes) f) as Hw by by rewrite Hi1 in Hw.
  destruct Hu as [v i now f1 Hl _ Hf1|now f1 Hn Hf1].
  - rewrite (set_inode_again _ _ _ _ _ Hf1) in Hf2. by eapply grown_existing.
  - rewrite (with_file_again _ _ _ _ _ Hf1) in Hf2. by eapply grown_created.
Qed.

(** [fs::write] *)
Lemma computes_fs_write path fs q bytes :
  wf_fs fs → opens fs path false q → computes (fs_write path bytes) fs (Ok tt) (writes_at fs q bytes).
Proof.
  intros Hwf Hopen. destruct (computes_open_truncated path fs q Hopen) as [u Hm].
  unfold fs_write. eapply computes_bind; [exact Hm|]. intros f (j & Hf).
  destruct (emptied_inode _ _ _ _ _ Hf) as [Hj Hdata].
  assert (size_of j = 0) as Hz by (unfold size_of; by rewrite Hdata).
  rewrite <-Hz. eapply computes_mono; [by apply (computes_write_all f u j)|]. intros g Hg.
  eapply (writes_emptied fs q u j j bytes f f); [done|done| |done|done]. by rewrite (set_inode_same _ _ _ Hj).
Qed.

Context `{Base64}.
Lemma computes_write_file path b64 append must_be_new fs q bytes :
  wf_fs fs → decode b64 = Ok bytes → opens fs path must_be_new q →
  computes (write_file path b64 append must_be_new) fs (Ok tt)
    (writes_at fs q (written_data fs q append must_be_new bytes)).
Proof.
  intros Hwf Hb Hopen. unfold write_file. rewrite Hb. cbn [result_map_err].
  eapply computes_seq; [apply computes_lift|]. unfold written_data.
  destruct must_be_new; cbn [negb]; [rewrite andb_false_r|rewrite andb_true_r; destruct append].
  - destruct Hopen as [? ? [=]|[=]|_ -> Hn Hd]. eapply computes_bind.
    { by apply computes_op, computes_create. }
    intros f (now & Hf). apply computes_op. eapply computes_mono.
    { apply (computes_write_all f (new_slot fs) (new_inode (at_time now fs))). by eapply inode_with_file. }
    intros g Hg. by apply (grown_created fs path (new_inode (at_time now fs)) bytes f).
  - destruct Hopen as [v i _ Hq Hl Hdir|_ Hq Hn Hd|]; [| |done].
    + assert (content fs q = Some (i_data i)) as -> by (unfold content; by rewrite Hl).
      eapply computes_bind; [by eapply computes_op, (computes_open false)|]. intros f (now & Hf). cbn [truncated] in Hf.
      apply computes_op. eapply computes_mono; [apply (computes_append_all f v i); by eapply inode_of_set|].
      intros g Hg. by apply (grown_existing fs q v i i bytes f).
    + assert (content fs q = None) as -> by (unfold content, lookup_path; by rewrite Hn).
      eapply computes_bind; [by eapply computes_op, (computes_open_absent false)|]. intros f (now & Hf).
      apply computes_op. eapply computes_mono.
      { apply (computes_append_all f (new_slot fs) (new_inode (at_time now fs))). by eapply inode_with_file. }
      intros g Hg. by apply (grown_created fs q (new_inode (at_time now fs)) bytes f).
  - by apply computes_op, computes_fs_write.
Qed.
End writing.

(** ** Copies *)
Section copying.
Context `{Kernel, Directories, !Undisturbed, !Faultless}.

Lemma computes_read_all fs v i limit :
  inodes fs !! v = Some i → inode_is_dir i = false → 0 ≤ limit → size_of i ≤ limit →
  computes (read_to_end (mkFile v 0) limit) fs (Ok (i_data i)) (stays fs).
Proof.
  intros Hi Hdir Hl Hsize w Hw.
  destruct (wp_read_alone (mkFile v 0) limit i w) as [[Hfs _] Hr]; [done|done|by rewrite (proj2 Hw)|done|].
  apply or_fault_never in Hr. split; [|by rewrite Hfs]. rewrite Hr. simpl. rewrite drop_0, take_ge; [done|].
  unfold size_of in Hsize. lia.
Qed.

(** What the source holds once the destination is open. *)
Definition copied_data (fs : FS) (v : nat) (i : Inode) (q : Path) : list byte :=
  if decide (names fs !! q = Some v) then [] else i_data i.

Lemma regular_inode i : is_file (metadata_of i) = true → inode_is_symlink i = false ∧ inode_is_dir i = false.
Proof.
  unfold is_file, inode_is_symlink, inode_is_dir, has_type. cbn [md_mode metadata_of].
  intros Hm%Z.eqb_eq. by rewrite Hm.
Qed.

(** A change of permissions is none of type. *)
Lemma fchmod_type m x : Z.land (Z.lor (Z.land m S_IFMT) (Z.land x 0xFFF)) S_IFMT = Z.land m S_IFMT.
Proof.
  rewrite Z.land_lor_distr_l, <-!Z.land_assoc, Z.land_diag. change (Z.land 0xFFF S_IFMT) with 0.
  by rewrite Z.land_0_r, Z.lor_0_r.
Qed.
Definition permitted (now : time) (m : Z) (j : Inode) : Inode :=
  set_mode now (Z.lor (Z.land (i_mode j) S_IFMT) (Z.land m 0xFFF)) j.
Lemma permitted_dir now m j : inode_is_dir (permitted now m j) = inode_is_dir j.
Proof. unfold inode_is_dir, has_type, permitted. cbn [i_mode set_mode]. by rewrite fchmod_type. Qed.

Lemma emptied_type fs q u j f : emptied fs q u j f → inode_is_dir j = false.
Proof.
  intros [v i now g Hl Hdir Hg|now g Hn Hg]; [exact Hdir|]. unfold inode_is_dir, has_type, new_inode. cbn [i_mode].
  change (Z.lor S_IFREG (Z.ldiff 438 umask)) with (file_mode None). by rewrite file_mode_type.
Qed.

(** The source after the destination has been emptied. *)
Lemma source_after fs q u j f1 f2 v i now m :
  emptied fs q u j f1 → f2 ≡ set_inode u (permitted now m j) f1 → inodes fs !! v = Some i → inode_is_dir i = false →
  ∃ i', inodes f2 !! v = Some i' ∧ i_data i' = copied_data fs v i q ∧
    inode_is_dir i' = false ∧ size_of i' ≤ size_of i.
Proof.
  intros Hu Hf2 Hi Hdir. pose proof (emptied_type _ _ _ _ _ Hu) as Hj. unfold copied_data.
  rewrite (proj2 Hf2). cbn [inodes set_inode].
  destruct Hu as [w k t f1 Hl Hk Hf1|t f1 Hn Hf1]; rewrite (proj2 Hf1).
  - apply lookup_path_inode in Hl as [Hq Hw]. rewrite Hq. cbn [inodes set_inode].
    destruct (decide (w = v)) as [->|Hwv].
    + eexists. rewrite lookup_insert_eq, decide_True by done. split; [done|]. split; [done|].
      rewrite permitted_dir. split; [exact Hj|]. unfold size_of. simpl. lia.
    + exists i. rewrite !lookup_insert_ne, decide_False by (done || congruence). by split_and!.
  - rewrite Hn, decide_False by done. exists i. unfold with_file, set_inode, set_names. cbn [inodes names].
    assert (new_slot fs ≠ v) as Hv by (intros <-; apply (new_slot_unused fs); by apply elem_of_dom).
    rewrite !lookup_insert_ne by done. by split_and!.
Qed.

Lemma computes_copy fs from to qf q v i :
  wf_fs fs → resolved fs from = Ok qf → lookup_path fs qf = Some (v, i) →
  is_file (metadata_of i) = true → size_of i ≤ MAX_COPY → opens fs to false q →
  ∃ n, computes (fs_copy from to) fs (Ok n) (writes_at fs q (copied_data fs v i q)).
Proof.
  intros Hwf Hfrom Hl Hfile Hsize Hopen. pose proof (regular_inode i Hfile) as [Hlink Hdir].
  apply lookup_path_inode in Hl as Hi. destruct Hi as [_ Hi].
  destruct (computes_open_truncated to fs q Hopen) as (u & Hopened).
  set (m := Z.land (md_mode (metadata_of i)) 0xFFF).
  eexists. unfold fs_copy. eapply computes_seq.
  { apply computes_query. intros _ f Hf. rewrite (resolved_equiv _ _ _ Hf), Hfrom. cbn [result_bind].
    unfold k_open_nofollow. by rewrite (lookup_equiv _ _ _ Hf), Hl, Hlink. }
  eapply computes_seq.
  { apply computes_query. intros _ f Hf. unfold k_fstat. cbn [f_inode]. by rewrite (proj2 Hf), Hi. }
  rewrite Hfile. eapply computes_seq; [apply computes_ret|]. eapply computes_bind; [exact Hopened|].
  intros f1 (j & Hempty). destruct (emptied_inode _ _ _ _ _ Hempty) as [Hj Hdata].
  eapply (computes_bind _ _ _ _ _ (λ f2, ∃ now, f2 ≡ set_inode u (permitted now m j) f1)).
  { apply computes_call. intros _ f Hf. unfold k_fchmod. cbn [f_inode]. rewrite (proj2 Hf), Hj. split; [done|].
    exists (clock f). generalize (clock f). intros now. cbn [snd]. by rewrite Hf. }
  intros f2 (now & Hf2).
  destruct (source_after fs q u j f1 f2 v i now m Hempty Hf2 Hi Hdir) as (i' & Hi' & Hdata' & Hdir' & Hsize').
  eapply computes_seq; [eapply computes_read_all; [exact Hi'|exact Hdir'|done|lia]|].
  eapply computes_bind.
  { set (i1 := permitted now m j). assert (size_of i1 = 0) as Hz by (unfold size_of, i1, permitted; simpl; by rewrite Hdata).
    rewrite <-Hz. apply (computes_write_all f2 u i1). by eapply inode_of_set. }
  intros f3 Hf3. cbn beta. eapply computes_mono.
  { rewrite Hdata'. apply computes_ret. }
  intros g Hg. rewrite Hg. rewrite <-Hdata'. by eapply (writes_emptied fs q u j (permitted now m j)).
Qed.
End copying.

(** ** Requests *)
Section requests.
Context `{Kernel, Directories, Json, Base64, Environment, !Receiver, Processes, !Undisturbed, !Faultless}.

Abbreviation path_of req := (path_new (expand_home (str_or req "path" ""))).

(** A request whose operation succeeds: the reply and the file system. *)
Lemma succeeds op req {A} (m : IO string A) v s a (Q : FS → Prop) :
  get_str req "op" = Some op → is_mutation op = true →
  handle_op op req (path_of req) (request_id req)
    = dispatched op req (path_of req) (request_id req) →
  single_op op req (path_of req) = (_ ← on_world m; mret v) →
  computes m (w_fs (world s)) (Ok a) Q →
  let s' := (handle_fs req s).2 in
  channel s' = finish (request_id req) (Ok v) (channel s) ∧ Q (w_fs (world s')).
Proof.
  intros Hop Hmut Hhandle Hdispatch Hm s'. unfold s'. rewrite (handle_fs_op _ _ Hop), Hhandle.
  unfold dispatched. rewrite Hmut. destruct (Hm (world s) ltac:(done)) as [Hr Hfs].
  rewrite (guard_answer _ _ _ _ _ Hmut), Hdispatch. unfold reply, with_guard, note_event, on_world, tell, attempt, lift_result, mbind, stm_bind.
  cbn [world channel trace procs]. destruct (m (world s)) as [r w']. cbn [fst snd] in *. by subst.
Qed.
End requests.

(** ** Properties *)

(** C18: an unconditional write does what it says. Alone and without failures, to a file
    that is there, through a symbolic link, or to a new one: the reply is [ok]; the file
    holds the bytes, or with [append] its old contents followed by them; no other name
    appears or vanishes, and every other file has its old contents. A request with
    [append] or [must_be_new] is such a write even if it carries an expected revision,
    whatever the file's revision is. *)
Theorem plain_write_writes `{Kernel, Directories, Json, Base64Laws, Environment, !Receiver, Processes,
    !Undisturbed, !Faultless} req bytes q s expected :
  let path := path_new (expand_home (str_or req "path" "")) in
  let append := bool_or req "append" false in
  let must_be_new := bool_or req "must_be_new" false in
  let fs := w_fs (world s) in
  get_str req "op" = Some "write" → expected_revision_from_request req = Ok expected →
  expected = None ∨ append || must_be_new = true →
  str_or req "bytes_b64" "" = encode bytes →
  wf_fs fs → opens fs path must_be_new q →
  let s' := (handle_fs req s).2 in
  channel s' = finish (request_id req) (Ok (obj [("ok", of_bool true)])) (channel s) ∧
  writes_at fs q (written_data fs q append must_be_new bytes) (w_fs (world s')).
Proof.
  intros path append must_be_new fs Hop Hexp Hplain Hb Hwf Hopen s'.
  pose proof (computes_write_file path (str_or req "bytes_b64" "") append must_be_new fs q bytes Hwf
    ltac:(by rewrite Hb, decode_encode) Hopen) as Hm.
  eapply (succeeds "write" req (A := unit)); [done..| |reflexivity|exact Hm].
  unfold handle_op. do 4 rewrite decide_False by done. rewrite decide_True by done. rewrite Hexp.
  destruct expected as [e|]; [|done]. destruct Hplain as [|Hplain]; [done|].
  rewrite <-negb_orb. unfold append, must_be_new in Hplain. by rewrite Hplain.
Qed.

(** The check before a [rename] or [copy], when it lets them go on. *)
Lemma computes_unless_exists `{Kernel, Directories, Json, Environment, !Undisturbed, !Faultless} req op act fs Q :
  let to := path_new (expand_home (str_or req "to" "")) in
  bool_or req "ok_if_exists" true = true ∨ is_ok (k_stat to fs) = false →
  computes (act to) fs (Ok tt) Q → computes (unless_exists req op act) fs (Ok tt) Q.
Proof.
  intros to Hmay Hact. unfold unless_exists. fold to.
  apply (computes_seq _ _ fs fs false); [|by apply computes_op].
  destruct (bool_or req "ok_if_exists" true); [apply computes_ret|]. destruct Hmay as [|Hmay]; [done|].
  unfold exists_at. rewrite <-Hmay. eapply computes_seq; [|apply computes_ret].
  apply computes_attempt, computes_query. intros _ f Hf. unfold k_stat. rewrite (resolved_equiv _ _ _ Hf).
  destruct (resolved fs to); [|done]. cbn [result_bind]. unfold k_lstat. by rewrite (lookup_equiv _ _ _ Hf).
Qed.

(** C19: a copy copies, except onto itself. Alone and without failures, from a regular
    file to a file that is there or to a new one, through symbolic links at either end:
    the reply is [{}]; the destination then holds what the source held, the source and
    every other file are as before. Where both paths lead to one and the same file, the
    reply is the same, and the file is empty. A destination that must not exist may be a
    symbolic link that leads nowhere: the copy goes through it. *)
Theorem copy_copies `{Kernel, Directories, Json, Base64, Environment, !Receiver, Processes,
    !Undisturbed, !Faultless} req s source q v i :
  let path := path_new (expand_home (str_or req "path" "")) in
  let to := path_new (expand_home (str_or req "to" "")) in
  let fs := w_fs (world s) in
  get_str req "op" = Some "copy" →
  bool_or req "ok_if_exists" true = true ∨ is_ok (k_stat to fs) = false →
  wf_fs fs → resolved fs path = Ok source → lookup_path fs source = Some (v, i) →
  is_file (metadata_of i) = true → size_of i ≤ MAX_COPY → opens fs to false q →
  let s' := (handle_fs req s).2 in
  channel s' = finish (request_id req) (Ok (obj [])) (channel s) ∧
  (∀ p, other_file fs p q → content (w_fs (world s')) p = content fs p) ∧
  (∀ p, p ≠ q → names (w_fs (world s')) !! p = names fs !! p) ∧
  (names fs !! q ≠ Some v →
     content (w_fs (world s')) q = Some (i_data i) ∧ content (w_fs (world s')) source = Some (i_data i)) ∧
  (names fs !! q = Some v → content (w_fs (world s')) q = Some []).
Proof.
  intros path to fs Hop Hmay Hwf Hsource Hl Hfile Hsize Hopen s'.
  destruct (computes_copy fs path to source q v i Hwf Hsource Hl Hfile Hsize Hopen) as (n & Hm).
  assert (channel s' = finish (request_id req) (Ok (obj [])) (channel s) ∧
    writes_at fs q (copied_data fs v i q) (w_fs (world s'))) as [Hc Hw].
  { eapply (succeeds "copy" req (A := unit)); [done..|reflexivity|reflexivity|].
    apply computes_unless_exists; [exact Hmay|]. eapply computes_bind; [exact Hm|]. intros f Hf.
    eapply computes_mono; [apply computes_ret|]. intros g Hg. by rewrite Hg. }
  destruct Hw as [Hcontent Hnames Hothers]. unfold copied_data in Hcontent.
  split_and!; [exact Hc|exact Hothers|exact Hnames| |]; intros Hq.
  - rewrite decide_False in Hcontent by done. split; [done|]. rewrite Hothers; [unfold content; by rewrite Hl|].
    apply lookup_path_inode in Hl as [Hv _]. split; [congruence|]. intros u Hu. congruence.
  - by rewrite decide_True in Hcontent.
Qed.

Section witness.
#[local] Existing Instances quiet_kernel plain_directories no_home connected steady_clock.

(** An append that carries the revision of other contents. *)
Definition append_request : Value :=
  request "write" "/d/note" [("append", of_bool true); ("bytes_b64", of_str "line");
    ("expected_revision", to_value (revision_of (note_inode "other")))].

Lemma sample_opens path q :
  resolved sample_fs path = Ok q → q = note ∨ q = other → opens sample_fs path false q.
Proof.
  intros Hq [->| ->].
  - by apply (opens_existing _ _ _ _ 1 (note_inode "base")).
  - by apply opens_absent.
Qed.

Lemma plain_write_writes_witness :
  let s' := run_fs append_request sample_session in
  channel s' = finish 7 (Ok (obj [("ok", of_bool true)])) (channel sample_session) ∧
  content (w_fs (world s')) note = Some (ascii_bytes "baseline") ∧
  content (w_fs (world s')) (path_new "/d") = content sample_fs (path_new "/d").
Proof.
  cbn zeta. destruct (plain_write_writes append_request (into_bytes "line") note sample_session
    (Some (ExpPresent (revision_of (note_inode "other"))))) as [Hc [Hcontent _ Hothers]].
  - reflexivity.
  - vm_compute. reflexivity.
  - right. reflexivity.
  - vm_compute. reflexivity.
  - exact sample_wf.
  - by apply sample_opens; [|left].
  - split; [exact Hc|]. split; [exact Hcontent|]. apply Hothers. split; [done|].
    intros v Hv Hv'. vm_compute in Hv, Hv'. congruence.
Defined.

(** A copy to a new name, and one onto itself. *)
Lemma copy_copies_witness :
  let copy to := run_fs (request "copy" "/d/note" [("to", of_str to)]) sample_session in
  content (w_fs (world (copy "/d/new"))) other = Some (ascii_bytes "base") ∧
  content (w_fs (world (copy "/d/note"))) note = Some [].
Proof.
  cbn zeta. split.
  - destruct (copy_copies (request "copy" "/d/note" [("to", of_str "/d/new")]) sample_session note other 1
      (note_inode "base")) as (_ & _ & _ & Hcopied & _);
      [reflexivity|by left|exact sample_wf|reflexivity..|vm_compute; discriminate|by apply sample_opens; [|right]|].
    apply Hcopied. discriminate.
  - destruct (copy_copies (request "copy" "/d/note" [("to", of_str "/d/note")]) sample_session note note 1
      (note_inode "base")) as (_ & _ & _ & _ & Hself);
      [reflexivity|by left|exact sample_wf|reflexivity..|vm_compute; discriminate|by apply sample_opens; [|left]|].
    apply Hself. reflexivity.
Defined.
End witness.
