(* ===== verification/Removal.v ===== *)
(** * Recursive [rmdir]

    [fs::remove_dir_all] of [Files.v], alone and without failures: it removes exactly the
    directory and what is below it, and it succeeds on every tree that a host can hold. *)
From S2P Require Import Prelude MachineInt Text Json Kernel Files Reference RevisionTypes ReadPath WritePath WriteSafety WriteSpec WriteAlone Framing Exec FsHandlers Requests Operations.
Local Open Scope string_scope.
Local Open Scope list_scope.
Local Open Scope Z_scope.

(** ** Below a path *)

Definition inside (p q : Path) : Prop := rooted q = rooted p ∧ comps p `prefix_of` comps q.
#[export] Instance inside_dec p q : Decision (inside p q).
Proof. unfold inside. apply _. Defined.

#[export] Instance inside_preorder : PreOrder inside.
Proof.
  split; [done|]. intros p q r [H1 H2] [H3 H4]. split; [congruence|by etrans].
Qed.

Lemma inside_antisym p q : inside p q → inside q p → p = q.
Proof.
  intros [H1 [k Hk]] [_ [l Hl]]. destruct p as [rp cp], q as [rq cq]. simpl in *. subst.
  f_equal. rewrite <-app_assoc in Hl. apply (f_equal length) in Hl as Hlen. rewrite !length_app in Hlen.
  destruct k; [by rewrite app_nil_r|simpl in Hlen; lia].
Qed.

Lemma inside_join p name : inside p (join p name).
Proof. split; [done|]. by exists [name]. Qed.

Lemma join_not_self p name : join p name ≠ p.
Proof. intros Hj. apply (f_equal (length ∘ comps)) in Hj. unfold join in Hj. simpl in Hj. rewrite length_app in Hj. simpl in Hj. lia. Qed.

(** What is strictly below [p] is below one of its entries. *)
Lemma inside_child p q : inside p q → q ≠ p → ∃ name, inside (join p name) q.
Proof.
  intros [Hr [[|name k] Hk]] Hne.
  - destruct Hne. destruct p, q. simpl in *. subst. by rewrite app_nil_r.
  - exists name. split; [done|]. exists k. unfold join. simpl. by rewrite Hk, <-app_assoc.
Qed.

Lemma inside_siblings p x y q : inside (join p x) q → inside (join p y) q → x = y.
Proof.
  intros [_ [k Hk]] [_ [l Hl]]. rewrite Hk in Hl. unfold join in Hl. simpl in Hl.
  rewrite <-!app_assoc in Hl. apply app_inv_head in Hl. by injection Hl.
Qed.

Lemma inside_parent p q d : inside p q → q ≠ p → parent q = Some d → inside p d.
Proof.
  intros [Hr [k Hk]] Hne Hd. unfold parent in Hd. destruct (comps q) as [|c cs] eqn:Hq; [done|].
  assert (comps d = removelast (c :: cs) ∧ rooted d = rooted q) as [Hcd Hrd] by (by inversion Hd).
  split; [congruence|]. rewrite Hcd, Hk. destruct k as [|x k].
  - destruct Hne. destruct p, q. simpl in *. subst. f_equal. by rewrite app_nil_r in Hk.
  - rewrite removelast_app by done. by eexists.
Qed.
Lemma inside_from_parent p q d : parent q = Some d → inside p d → inside p q.
Proof.
  intros Hd Hp. etrans; [exact Hp|]. unfold parent in Hd. destruct (comps q) as [|c cs] eqn:Hq; [done|].
  assert (comps d = removelast (c :: cs) ∧ rooted d = rooted q) as [Hcd Hrd] by (by inversion Hd).
  split; [done|]. rewrite Hcd, Hq. eexists. apply app_removelast_last. done.
Unshelve. exact "".
Qed.

(** ** Trees *)

(** The bytes, the kinds and the number of the inodes. *)
Definition same_files (fs fs' : FS) : Prop :=
  ∀ v i, inodes fs !! v = Some i → ∃ i', inodes fs' !! v = Some i' ∧ i_data i' = i_data i ∧ i_mode i' = i_mode i.
#[export] Instance same_files_preorder : PreOrder same_files.
Proof.
  split; [intros fs v i Hi; eauto|]. intros f g h Hfg Hgh v i Hi.
  destruct (Hfg v i Hi) as (j & Hj & Hd & Hm). destruct (Hgh v j Hj) as (k & Hk & Hd' & Hm').
  exists k. split; [done|]. split; congruence.
Qed.

Lemma same_files_equiv f g : f ≡ g → same_files f g.
Proof. intros [_ Hi] v i Hv. exists i. by rewrite <-Hi. Qed.

Definition is_directory (fs : FS) (p : Path) : Prop :=
  ∃ v i, lookup_path fs p = Some (v, i) ∧ inode_is_dir i = true.

(** Every name below [p] is an entry of a directory, and at most [n] deep. *)
Record tree (fs : FS) (p : Path) (n : nat) : Prop := {
  tree_names : wf_fs fs;
  tree_parents q d : is_Some (names fs !! q) → inside p q → q ≠ p → parent q = Some d → is_directory fs d;
  tree_depth q : is_Some (names fs !! q) → inside p q → (length (comps q) ≤ length (comps p) + n)%nat;
}.

(** [fs'] is [fs] without [p] and what is below. *)
Record pruned (fs : FS) (p : Path) (fs' : FS) : Prop := {
  pruned_names q : names fs' !! q = if decide (inside p q) then None else names fs !! q;
  pruned_files : same_files fs fs';
}.

Lemma is_directory_same fs fs' p :
  names fs' !! p = names fs !! p → same_files fs fs' → is_directory fs p → is_directory fs' p.
Proof.
  intros Hn Hs (v & i & Hl & Hd). apply lookup_path_inode in Hl as [Hp Hi].
  destruct (Hs v i Hi) as (j & Hj & _ & Hm). exists v, j. unfold lookup_path. rewrite Hn, Hp. simpl. rewrite Hj.
  split; [done|]. unfold inode_is_dir in *. by rewrite Hm.
Qed.

Lemma wf_fewer fs fs' :
  (∀ q v, names fs' !! q = Some v → names fs !! q = Some v) → same_files fs fs' → wf_fs fs → wf_fs fs'.
Proof.
  intros Hn Hs Hwf q v Hq. apply Hn, Hwf, elem_of_dom in Hq as [i Hi].
  destruct (Hs v i Hi) as (j & Hj & _). by apply elem_of_dom.
Qed.

Lemma pruned_fewer fs p fs' q v : pruned fs p fs' → names fs' !! q = Some v → names fs !! q = Some v.
Proof. intros [Hn _]. rewrite Hn. by case_decide. Qed.

(** Pruning one part leaves a tree. *)
Lemma tree_pruned fs p n c fs' : tree fs p n → pruned fs c fs' → tree fs' p n.
Proof.
  intros [Hwf Hp Hd] Hc. split.
  - eapply wf_fewer; [|apply Hc|exact Hwf]. intros q v. by eapply pruned_fewer.
  - intros q d [v Hq] Hin Hne Hpar. pose proof (pruned_fewer _ _ _ _ _ Hc Hq) as Hq0.
    eapply is_directory_same; [|apply Hc|by eapply (Hp q)]. rewrite (pruned_names _ _ _ Hc).
    rewrite decide_False; [done|]. intros Hcd. pose proof (pruned_names _ _ _ Hc q) as Hn.
    rewrite decide_True in Hn by (by eapply inside_from_parent). congruence.
  - intros q [v Hq]. apply Hd. exists v. by eapply pruned_fewer.
Qed.

Lemma tree_child fs p n name : tree fs p (S n) → tree fs (join p name) n.
Proof.
  intros [Hwf Hp Hd]. split; [done| |].
  - intros q d Hq Hin Hne. apply Hp; [done|etrans; [apply inside_join|done]|]. intros ->.
    apply Hne. symmetry. by apply inside_antisym, inside_join.
  - intros q Hq Hin. assert (inside p q) as Hpq by (etrans; [apply inside_join|done]).
    specialize (Hd q Hq Hpq). unfold join. simpl. rewrite length_app. simpl. lia.
Qed.

(** ** Entries *)

Lemma entry_join dir q x : entry_of dir q = Some x ↔ q = join dir x.
Proof.
  unfold entry_of. split.
  - case_decide as Hp; [|done]. intros [l Hl]%last_Some.
    assert (q = join (mkPath (rooted q) l) x) as Hq by (destruct q; unfold join; simpl in *; by subst).
    rewrite Hq, parent_join in Hp. injection Hp as <-. exact Hq.
  - intros ->. rewrite decide_True by apply parent_join. unfold join. simpl. apply last_snoc.
Qed.

Lemma entries_names fs dir x : x ∈ entries fs dir ↔ is_Some (names fs !! join dir x).
Proof.
  unfold entries. rewrite list_elem_of_omap. split.
  - intros ([q v] & Hq%elem_of_map_to_list & Hx). apply entry_join in Hx. simpl in Hx. subst q. by exists v.
  - intros [v Hv]. exists (join dir x, v). split; [by apply elem_of_map_to_list|by apply entry_join].
Qed.

Lemma entries_once fs dir : NoDup (entries fs dir).
Proof.
  unfold entries. pose proof (NoDup_fst_map_to_list (names fs)) as Hnd.
  induction (map_to_list (names fs)) as [|[q v] l IH]; simpl in *; [constructor|].
  apply NoDup_cons in Hnd as [Hq Hnd]. destruct (entry_of dir q) as [x|] eqn:Hx; [|by apply IH].
  apply NoDup_cons. split; [|by apply IH]. intros ([q' v'] & Hq' & Hx')%list_elem_of_omap. apply Hq.
  apply entry_join in Hx. apply entry_join in Hx'. simpl in Hx'. subst q q'. apply list_elem_of_fmap.
  by exists (join dir x, v').
Qed.

(** ** The removal *)
Section removing.
Context `{Kernel, Directories, !CompleteListing, !Undisturbed, !Faultless}.

(** The loop over the entries. *)
Definition remove_each (n : nat) (p : Path) : list (result string IoError) → IO IoError unit :=
  fix each l :=
    match l with
    | [] => mret tt
    | r :: l => name ← lift_result r; remove_tree n (join p name);; each l
    end.

(** [fs'] is [fs] without the entries [l] of [p] and what is below them. *)
Definition emptied_of (fs : FS) (p : Path) (l : list string) (fs' : FS) : Prop :=
  (∀ q, names fs' !! q = if decide (Exists (λ x, inside (join p x) q) l) then None else names fs !! q) ∧
  same_files fs fs'.

Lemma add_link_files d v fs : same_files fs (add_link d v fs).
Proof.
  intros u i Hi. unfold add_link. destruct (inodes fs !! v) as [j|] eqn:Hj; [|eauto].
  destruct (decide (v = u)) as [->|Hne]; simpl.
  - rewrite lookup_insert_eq. rewrite Hi in Hj. injection Hj as ->. by eexists.
  - rewrite lookup_insert_ne by done. eauto.
Qed.
Lemma add_link_names d v fs : names (add_link d v fs) = names fs.
Proof. unfold add_link. by destruct (inodes fs !! v). Qed.

(** Removing the last name. *)
Lemma pruned_unlink fs p d v :
  (∀ q, is_Some (names fs !! q) → inside p q → q = p) →
  pruned fs p (add_link d v (set_names (delete p (names fs)) fs)).
Proof.
  intros Hlone. split.
  - intros q. rewrite add_link_names. simpl. case_decide as Hq.
    + destruct (decide (q = p)) as [->|Hne]; [apply lookup_delete_eq|]. rewrite lookup_delete_ne by done.
      apply eq_None_not_Some. intros Hs. by apply Hne, Hlone.
    + apply lookup_delete_ne. intros ->. by destruct Hq.
  - etrans; [|apply add_link_files]. intros u i Hi. by exists i.
Qed.

(** Below what is not a directory there is nothing. *)
Lemma tree_leaf fs p n v i q :
  tree fs p n → lookup_path fs p = Some (v, i) → inode_is_dir i = false →
  is_Some (names fs !! q) → inside p q → q = p.
Proof.
  intros [_ Hp _] Hl Hd. remember (length (comps q)) as k eqn:Hk. revert q Hk.
  induction (lt_wf k) as [k _ IH]. intros q -> Hq Hin. destruct (decide (q = p)) as [|Hne]; [done|].
  destruct (parent q) as [d|] eqn:Hpar.
  - pose proof (Hp q d Hq Hin Hne Hpar) as (u & j & Hu & Hj). pose proof (inside_parent _ _ _ Hin Hne Hpar) as Hpd.
    assert (d = p) as ->.
    { apply (IH (length (comps d))); [by apply parent_shorter|done| |done].
      apply lookup_path_inode in Hu as [Hu _]. by exists u. }
    rewrite Hl in Hu. injection Hu as <- <-. congruence.
  - destruct Hne. unfold parent in Hpar. destruct q as [rq [|]], p as [rp cp]; [|done].
    destruct Hin as [Hr Hpre]. simpl in *. apply prefix_nil_inv in Hpre. by subst.
Qed.
Lemma emptied_of_none fs p f : f ≡ fs → emptied_of fs p [] f.
Proof.
  intros Hf. split; [|by apply same_files_equiv]. intros q. rewrite (proj1 Hf).
  by rewrite decide_False by (intros Hq; inversion Hq).
Qed.
Lemma pruned_equiv fs p f g : f ≡ fs → pruned f p g → pruned fs p g.
Proof.
  intros Hf [Hn Hs]. split; [intros q; by rewrite Hn, (proj1 Hf)|]. etrans; [by apply same_files_equiv|done].
Qed.

(** The entries one after the other. *)
Lemma computes_each n p l fs :
  (∀ x fs, tree fs (join p x) n → is_Some (names fs !! join p x) →
     computes (remove_tree (S n) (join p x)) fs (Ok tt) (pruned fs (join p x))) →
  NoDup l → tree fs p (S n) → (∀ x, x ∈ l → is_Some (names fs !! join p x)) →
  computes (remove_each (S n) p (Ok <$> l)) fs (Ok tt) (emptied_of fs p l).
Proof.
  intros Hchild. revert fs. induction l as [|x l IH]; intros fs Hnd Htree Hl.
  { eapply computes_mono; [apply computes_ret|apply emptied_of_none]. }
  apply NoDup_cons in Hnd as [Hx Hnd]. cbn [fmap list_fmap remove_each].
  eapply computes_seq; [apply computes_lift|].
  eapply computes_bind; [apply (Hchild x fs); [by apply tree_child|apply Hl; left]|]. intros fs1 Hp1.
  eapply computes_mono; [apply IH; [done|by eapply tree_pruned|]|].
  - intros y Hy. rewrite (pruned_names _ _ _ Hp1), decide_False; [apply Hl; by right|].
    intros Hin. assert (x = y) as -> by (by eapply inside_siblings). done.
  - intros fs2 [Hn2 Hf2]. split; [|etrans; [apply Hp1|exact Hf2]]. intros q. rewrite Hn2, (pruned_names _ _ _ Hp1).
    destruct (decide (inside (join p x) q)) as [Hq|Hq], (decide (Exists _ l)) as [He|He].
    + by rewrite decide_True by (by left).
    + by rewrite decide_True by (by left).
    + by rewrite decide_True by (by right).
    + rewrite decide_False; [done|]. intros [|]%Exists_cons; done.
Qed.

(** Between two names of a tree everything is there. *)
Lemma tree_between fs p n c q :
  tree fs p n → is_Some (names fs !! q) → inside p c → c ≠ p → inside c q → is_Some (names fs !! c).
Proof.
  intros [_ Hp _] Hq Hpc Hcp Hin. remember (length (comps q)) as k eqn:Hk. revert q Hk Hq Hin.
  induction (lt_wf k) as [k _ IH]. intros q -> Hq Hin. destruct (decide (q = c)) as [->|Hne]; [done|].
  destruct (parent q) as [d|] eqn:Hpar.
  - assert (q ≠ p) as Hqp by (intros ->; apply Hcp; by apply inside_antisym).
    destruct (Hp q d Hq ltac:(by etrans) Hqp Hpar) as (u & j & Hu & _).
    apply (IH (length (comps d))) with d; [by apply parent_shorter|done| |by eapply inside_parent].
    apply lookup_path_inode in Hu as [Hu _]. by exists u.
  - destruct Hne. unfold parent in Hpar. destruct q as [rq [|]], c as [rc cc]; [|done].
    destruct Hin as [Hr Hpre]. simpl in *. apply prefix_nil_inv in Hpre. by subst.
Qed.

Lemma emptied_below fs p n l fs1 q :
  tree fs p n → emptied_of fs p l fs1 → (∀ x, is_Some (names fs !! join p x) → x ∈ l) →
  inside p q → q ≠ p → names fs1 !! q = None.
Proof.
  intros Htree [Hn _] Hl Hin Hne. rewrite Hn. case_decide as He; [done|].
  apply eq_None_not_Some. intros Hs. apply He. destruct (inside_child p q Hin Hne) as [x Hx].
  apply Exists_exists. exists x. split; [|done]. apply Hl.
  by apply (tree_between fs p n _ q Htree Hs (inside_join p x) (join_not_self p x)).
Qed.

Lemma no_entries p fs :
  (∀ q, inside p q → q ≠ p → names fs !! q = None) → has_entries p fs = false.
Proof.
  intros Hnone. apply not_true_is_false. unfold has_entries. rewrite existsb_exists.
  intros ([q v] & Hq%list_elem_of_In%elem_of_map_to_list & Hb%bool_decide_eq_true). simpl in Hb.
  destruct Hb as (Hr & Hp & Hne). by rewrite Hnone in Hq by (done || by split).
Qed.

(** A directory whose entries are gone. *)
Lemma computes_remove_dir p n fs fs1 l :
  is_directory fs p → tree fs p n → emptied_of fs p l fs1 → (∀ x, is_Some (names fs !! join p x) → x ∈ l) →
  computes (remove_dir p) fs1 (Ok tt) (pruned fs p).
Proof.
  intros Hdir Htree He Hl. pose proof (emptied_below fs p n l fs1) as Hbelow.
  assert (∀ q, ¬ inside p q ∨ q = p → names fs1 !! q = names fs !! q) as Hother.
  { intros q Hq. rewrite (proj1 He), decide_False; [done|]. intros (x & _ & Hx)%Exists_exists.
    destruct Hq as [Hq| ->].
    - apply Hq. etrans; [apply inside_join|exact Hx].
    - by apply (join_not_self p x), inside_antisym, inside_join. }
  assert (is_directory fs1 p) as (v & j & Hv & Hj)
    by (eapply is_directory_same; [apply Hother; by right|apply He|done]).
  apply computes_call. intros _ f Hf. unfold k_rmdir. rewrite (lookup_equiv _ _ _ Hf), Hv, Hj. cbn [negb].
  rewrite no_entries by (intros; rewrite (proj1 Hf); by eapply Hbelow). split; [done|]. cbn [snd].
  destruct (pruned_unlink f p (-2) v) as [Hn Hs].
  { intros q [u Hu] Hin. destruct (decide (q = p)) as [|Hne]; [done|]. rewrite (proj1 Hf) in Hu.
    by rewrite Hbelow in Hu. }
  split.
  - intros q. rewrite Hn. case_decide; [done|]. rewrite (proj1 Hf). apply Hother. by left.
  - etrans; [apply He|]. etrans; [|exact Hs]. by apply same_files_equiv.
Qed.

Lemma resolved_self fs p v i :
  lookup_path fs p = Some (v, i) → inode_is_symlink i = false → resolved fs p = Ok p.
Proof. intros Hl Hi. unfold resolved, follow. by rewrite Hl, Hi. Qed.

Lemma directory_not_link i : inode_is_dir i = true → inode_is_symlink i = false.
Proof. unfold inode_is_dir, inode_is_symlink, has_type. intros ->%Z.eqb_eq. done. Qed.

Lemma computes_lstat fs p v i :
  lookup_path fs p = Some (v, i) → computes (symlink_metadata p) fs (Ok (metadata_of i)) (stays fs).
Proof. intros Hl. apply computes_query. intros _ f Hf. unfold k_lstat. by rewrite (lookup_equiv _ _ _ Hf), Hl. Qed.

(** A directory is listed, its entries are removed, and then itself. *)
Lemma computes_directory m n p fs v i :
  tree fs p n → lookup_path fs p = Some (v, i) → inode_is_dir i = true →
  (∀ l, l ≡ₚ entries fs p → computes (remove_each m p (Ok <$> l)) fs (Ok tt) (emptied_of fs p l)) →
  computes (remove_tree (S m) p) fs (Ok tt) (pruned fs p).
Proof.
  intros Htree Hl Hdir Heach. cbn [remove_tree].
  eapply computes_seq; [by eapply computes_lstat|]. unfold is_dir. cbn [md_mode metadata_of].
  pose proof Hdir as Hmode. unfold inode_is_dir in Hmode. rewrite Hmode.
  apply (computes_look _ _ _ _ (λ l', ∃ l, l' = Ok <$> l ∧ l ≡ₚ entries fs p)).
  { intros _ f Hf. unfold k_opendir. rewrite (resolved_equiv _ _ _ Hf).
    rewrite (resolved_self _ _ _ _ Hl) by (by apply directory_not_link). cbn [result_bind].
    rewrite (lookup_equiv _ _ _ Hf), Hl, Hdir. eexists. split; [done|].
    destruct (Permutation_map_inv Ok _ (listing_complete f p)) as (l & Hlist & Hperm).
    exists l. split; [exact Hlist|]. symmetry. unfold entries in *. by rewrite (proj1 Hf) in Hperm. }
  intros l' (l & -> & Hperm). eapply computes_bind; [by apply Heach|]. intros f He.
  eapply computes_remove_dir; [by exists v, i|done|exact He|]. intros x Hx. rewrite Hperm. by apply entries_names.
Qed.

Lemma computes_leaf m n p fs v i :
  tree fs p n → lookup_path fs p = Some (v, i) → inode_is_dir i = false →
  computes (remove_tree m p) fs (Ok tt) (pruned fs p).
Proof.
  intros Htree Hl Hdir.
  assert (computes (remove_file p) fs (Ok tt) (pruned fs p)) as Hfile.
  { apply computes_call. intros _ f Hf. unfold k_unlink. rewrite (lookup_equiv _ _ _ Hf), Hl, Hdir. split; [done|].
    eapply pruned_equiv; [exact Hf|]. apply pruned_unlink. intros q Hq Hin. rewrite (proj1 Hf) in Hq. by eapply tree_leaf. }
  unfold inode_is_dir in Hdir.
  destruct m; cbn [remove_tree]; (eapply computes_seq; [by eapply computes_lstat|]); unfold is_dir;
    cbn [md_mode metadata_of]; by rewrite Hdir.
Qed.

Lemma computes_remove_tree n p fs :
  tree fs p n → is_Some (names fs !! p) → computes (remove_tree (S n) p) fs (Ok tt) (pruned fs p).
Proof.
  revert p fs. induction n as [|n IH]; intros p fs Htree [v Hv];
    pose proof (tree_names _ _ _ Htree p v Hv) as [i Hi]%elem_of_dom;
    (assert (lookup_path fs p = Some (v, i)) as Hl by (unfold lookup_path; rewrite Hv; simpl; by rewrite Hi));
    (destruct (inode_is_dir i) eqn:Hdir; [|by eapply computes_leaf]);
    eapply computes_directory; [done..| |done|done|done|]; intros l Hperm.
  - destruct l as [|x l].
    { eapply computes_mono; [apply computes_ret|apply emptied_of_none]. }
    assert (is_Some (names fs !! join p x)) as Hx by (apply entries_names; rewrite <-Hperm; left).
    pose proof (tree_depth _ _ _ Htree _ Hx (inside_join p x)) as Hd. unfold join in Hd. simpl in Hd.
    rewrite length_app in Hd. simpl in Hd. lia.
  - apply computes_each; [intros; by apply IH| |done|].
    + rewrite Hperm. apply entries_once.
    + intros x Hx. apply entries_names. by rewrite <-Hperm.
Qed.
End removing.

Lemma pruned_content fs p fs' q :
  wf_fs fs → pruned fs p fs' → ¬ inside p q → content fs' q = content fs q.
Proof.
  intros Hwf [Hn Hf] Hq. unfold content, lookup_path. rewrite Hn, decide_False by done.
  destruct (names fs !! q) as [v|] eqn:Hv; [|done]. apply Hwf, elem_of_dom in Hv as [i Hi].
  destruct (Hf v i Hi) as (j & Hj & Hd & _). simpl. rewrite Hi, Hj. simpl. by rewrite Hd.
Qed.

Lemma tree_le fs p m n : (m ≤ n)%nat → tree fs p m → tree fs p n.
Proof. intros Hle [Hwf Hp Hd]. split; [done..|]. intros q Hq Hin. specialize (Hd q Hq Hin). lia. Qed.

(** ** Property *)

(** C20: a recursive [rmdir] removes the tree, and nothing else. Alone and without
    failures, of any directory whose names are at most as deep as a path can be, whatever
    the order in which the host lists it: the reply is [{}]; the directory and every name
    below it are gone; every other name is there with its contents, also where a symbolic
    link inside the tree leads to it. *)
Theorem recursive_removal_is_exact `{Kernel, Directories, !CompleteListing, Json, Base64, Environment,
    !Receiver, Processes, !Undisturbed, !Faultless} req s n :
  let path := path_new (expand_home (str_or req "path" "")) in
  let fs := w_fs (world s) in
  get_str req "op" = Some "rmdir" → bool_or req "recursive" false = true →
  is_directory fs path → tree fs path n → (n < 4096)%nat →
  let s' := (handle_fs req s).2 in
  channel s' = finish (request_id req) (Ok (obj [])) (channel s) ∧
  (∀ q, names (w_fs (world s')) !! q = if decide (inside path q) then None else names fs !! q) ∧
  (∀ q, ¬ inside path q → content (w_fs (world s')) q = content fs q).
Proof.
  intros path fs Hop Hrec (v & i & Hl & Hdir) Htree Hn s'.
  assert (computes (remove_tree 4096 path) fs (Ok tt) (pruned fs path)) as Hm.
  { apply (computes_remove_tree 4095); [by apply (tree_le _ _ n); [lia|]|].
    apply lookup_path_inode in Hl as [Hv _]. by exists v. }
  assert (channel s' = finish (request_id req) (Ok (obj [])) (channel s) ∧ pruned fs path (w_fs (world s'))) as [Hc Hp].
  { eapply (succeeds "rmdir" req (A := unit)); [done..|reflexivity|reflexivity|]. unfold rmdir_op. rewrite Hrec.
    apply computes_op. unfold remove_dir_all. eapply computes_seq; [by eapply computes_lstat|].
    pose proof (directory_not_link i Hdir) as Hlink. unfold is_symlink, is_dir. cbn [md_mode metadata_of].
    unfold inode_is_symlink in Hlink. unfold inode_is_dir in Hdir. rewrite Hlink, Hdir. exact Hm. }
  split; [exact Hc|]. split; [apply Hp|]. intros q. eapply pruned_content; [apply Htree|exact Hp].
Qed.

Section witness.
#[local] Existing Instances quiet_kernel plain_directories plain_directories_complete no_home connected steady_clock.

Lemma sample_tree : tree sample_fs (path_new "/d") 1.
Proof.
  assert (∀ q, is_Some (names sample_fs !! q) → q = path_new "/d" ∨ q = note) as Hnames.
  { intros q [v Hq]. unfold sample_fs in Hq. cbn [names] in Hq.
    apply lookup_insert_Some in Hq as [[<- _]|[_ Hq]]; [by left|].
    apply lookup_singleton_Some in Hq as [<- _]. by right. }
  split; [exact sample_wf| |].
  - intros q d [->| ->]%Hnames Hin Hne Hpar; [done|]. injection Hpar as <-. by exists 0%nat, dir_inode.
  - intros q [->| ->]%Hnames Hin; simpl; lia.
Qed.

Lemma recursive_removal_is_exact_witness :
  let s' := run_fs (request "rmdir" "/d" [("recursive", of_bool true)]) sample_session in
  channel s' = finish 7 (Ok (obj [])) (channel sample_session) ∧
  names (w_fs (world s')) !! note = None ∧ names (w_fs (world s')) !! path_new "/d" = None.
Proof.
  cbn zeta. destruct (recursive_removal_is_exact (request "rmdir" "/d" [("recursive", of_bool true)])
    sample_session 1) as (Hc & Hn & _); [reflexivity|reflexivity|by exists 0%nat, dir_inode|exact sample_tree|lia|].
  split; [exact Hc|]. split; [rewrite Hn; reflexivity|rewrite Hn; reflexivity].
Defined.
End witness.
