(* ===== verification/Registry.v ===== *)
(** * The registry of running commands

    The process groups that the workers share with the main loop ([ExecRegistry]), as a
    step relation: a worker starts a child, registers its group, reaps the child (having
    killed the group, perhaps) and drops the registration; the main loop drains the
    registry at the end of the input and then kills, one after the other, the groups that
    it found. Each touches the registry under its lock, so that these are the steps; they
    interleave freely. The process exits when the main loop has killed the last group.

    The kernel gives a new child an id that no child still to be reaped has. *)
From S2P Require Import Prelude MachineInt Text Json Kernel Framing Exec.
Local Open Scope list_scope.
Local Open Scope Z_scope.
Local Set Warnings "-clear-no-such-hyp".

(** ** The table *)

(** What a worker is at: the child is started; its group is registered; it is reaped. *)
Inductive Phase := Started (pgid : Z) | Registered (pgid : Z) | Reaped (pgid : Z).
#[export] Instance Phase_eq_dec : EqDecision Phase.
Proof. solve_decision. Defined.

Definition group_of (f : Phase) : Z :=
  match f with Started g | Registered g | Reaped g => g end.
(** The child runs, or waits to be reaped. *)
Definition unreaped (f : Phase) : Prop := match f with Reaped _ => False | _ => True end.
#[export] Instance unreaped_dec f : Decision (unreaped f).
Proof. destruct f; simpl; apply _. Defined.

(** The workers that run a command; the registered groups; the groups that were sent
    [SIGKILL]; whether the main loop has drained the registry; what it found there and
    has still to kill. *)
Record Table := mkTable {
  phases : gmap nat Phase; groups : gset Z; signalled : gset Z; drained : bool; doomed : list Z;
}.

Inductive table_step : Table → Table → Prop :=
| child_starts w g f r k d l :
    f !! w = None → map_Forall (λ _ x, unreaped x → group_of x ≠ g) f →
    table_step (mkTable f r k d l) (mkTable (<[w := Started g]> f) r k d l)
| child_registers w g f r k d l :
    f !! w = Some (Started g) →
    table_step (mkTable f r k d l) (mkTable (<[w := Registered g]> f) ({[g]} ∪ r) k d l)
| child_is_killed w g f r k d l :
    f !! w = Some (Registered g) →
    table_step (mkTable f r k d l) (mkTable f r ({[g]} ∪ k) d l)
| child_is_reaped w g f r k d l :
    f !! w = Some (Registered g) →
    table_step (mkTable f r k d l) (mkTable (<[w := Reaped g]> f) r k d l)
| registration_drops w g f r k d l :
    f !! w = Some (Reaped g) →
    table_step (mkTable f r k d l) (mkTable (delete w f) (r ∖ {[g]}) k d l)
| main_drains f r k l :
    l ≡ₚ elements r → table_step (mkTable f r k false []) (mkTable f ∅ k true l)
| main_kills f r k d g l :
    table_step (mkTable f r k d (g :: l)) (mkTable f r ({[g]} ∪ k) d l).

Definition no_commands : Table := mkTable ∅ ∅ ∅ false [].

(** ** One command *)

Definition at_start (w : nat) (g : Z) (p : Procs) : Table :=
  mkTable {[w := Started g]} (registry p) (list_to_set (killed p)) false [].
Definition at_end (p : Procs) : Table := mkTable ∅ (registry p) (list_to_set (killed p)) false [].

(** [exec] alone goes through these steps, on every path on which it returns. *)
Lemma supervise_steps `{Processes, !Sleeps} r w g c p :
  0 ≤ timeout_ms r → (supervise r g c p).1 ≠ Err Hangs →
  rtc table_step (at_start w g p) (at_end (supervise r g c p).2).
Proof.
  intros Ht Hret. destruct (wp_supervise r g c p Ht) as [(? & _)|(_ & Hr & _ & Hk)]; [done|]. revert Hr Hk. clear Hret.
  generalize (supervise r g c p). intros [res p'] Hr Hk. cbn [fst snd] in *. unfold at_start, at_end.
  assert (registry p' = ({[g]} ∪ registry p) ∖ {[g]}) as Hr' by (rewrite Hr; set_solver).
  eapply rtc_l; [apply (child_registers w g), lookup_singleton_eq|].
  rewrite insert_singleton_eq. etrans.
  { instantiate (1 := mkTable {[w := Registered g]} ({[g]} ∪ registry p) (list_to_set (killed p')) false []).
    destruct Hk as [(-> & _)|[-> _]]; [|apply rtc_refl].
    assert (list_to_set (killed p ++ [g]) = ({[g]} ∪ list_to_set (killed p) : gset Z)) as -> by set_solver.
    apply rtc_once, (child_is_killed w g), lookup_singleton_eq. }
  eapply rtc_l; [apply (child_is_reaped w g), lookup_singleton_eq|]. rewrite insert_singleton_eq.
  eapply rtc_l; [apply (registration_drops w g), lookup_singleton_eq|].
  rewrite delete_singleton_eq, Hr'. apply rtc_refl.
Qed.

(** The kills of the main loop, one after the other. *)
Lemma kills_steps f r k d l : rtc table_step (mkTable f r k d l) (mkTable f r (list_to_set l ∪ k) d []).
Proof.
  revert k. induction l as [|g l IH]; intros k.
  - assert (list_to_set [] ∪ k = k) as -> by set_solver. apply rtc_refl.
  - eapply rtc_l; [apply main_kills|]. assert (list_to_set (g :: l) ∪ k = list_to_set l ∪ ({[g]} ∪ k)) as -> by set_solver.
    apply IH.
Qed.

(** [kill_registered_execs] is the drain and the kills. *)
Lemma shutdown_steps f p :
  rtc table_step (mkTable f (registry p) (list_to_set (killed p)) false [])
    (mkTable f (registry (kill_registered_execs p)) (list_to_set (killed (kill_registered_execs p))) true []).
Proof.
  eapply rtc_l; [by apply (main_drains _ _ _ (elements (registry p)))|].
  cbn [kill_registered_execs registry killed].
  assert (list_to_set (killed p ++ elements (registry p)) = (list_to_set (elements (registry p)) ∪ list_to_set (killed p) : gset Z))
    as -> by set_solver. apply kills_steps.
Qed.

(** ** The invariant *)

(** No id is used again while it is registered. *)
Definition no_reuse (t t' : Table) : Prop :=
  ∀ w g, phases t !! w = None → phases t' !! w = Some (Started g) → g ∉ groups t.
Definition fresh_step (t t' : Table) : Prop := table_step t t' ∧ no_reuse t t'.

(** The workers that hold a registration, or will. *)
Definition listed (f : gmap nat Phase) (g : Z) : Prop :=
  ∃ w x, f !! w = Some x ∧ (x = Registered g ∨ x = Reaped g).
Definition distinct (f : gmap nat Phase) : Prop :=
  ∀ w w' x x', f !! w = Some x → f !! w' = Some x' → group_of x = group_of x' → w = w'.

Record table_ok (t : Table) : Prop := {
  table_listed g : g ∈ groups t ↔ listed (phases t) g;
  table_distinct : distinct (phases t);
}.

Lemma distinct_insert f w y :
  (∀ w' x, w' ≠ w → f !! w' = Some x → group_of x ≠ group_of y) → distinct f → distinct (<[w := y]> f).
Proof.
  intros Hy Hd w1 w2 x1 x2 [[<- <-]|[? H1]]%lookup_insert_Some [[<- <-]|[? H2]]%lookup_insert_Some Heq;
    [done| | |by eapply Hd].
  - by destruct (Hy w2 x2).
  - by destruct (Hy w1 x1).
Qed.
(** A worker keeps its group. *)
Lemma distinct_same f w x y :
  f !! w = Some x → group_of y = group_of x → distinct f → distinct (<[w := y]> f).
Proof.
  intros Hx Hy Hd. apply distinct_insert; [|done]. intros w' x' Hw Hx' Heq. apply Hw.
  eapply Hd; [done..|]. congruence.
Qed.
Lemma distinct_delete f w : distinct f → distinct (delete w f).
Proof. intros Hd w1 w2 x1 x2 [_ H1]%lookup_delete_Some [_ H2]%lookup_delete_Some. by apply Hd. Qed.

Lemma listed_insert f w y g :
  f !! w = None ∨ (∃ g', f !! w = Some (Started g')) →
  listed (<[w := y]> f) g ↔ y = Registered g ∨ y = Reaped g ∨ listed f g.
Proof.
  intros Hw. split.
  - intros (w' & x & [[<- <-]|[? Hx]]%lookup_insert_Some & Hg); [tauto|]. right. right. by exists w', x.
  - intros [->|[->|(w' & x & Hx & Hg)]]; [exists w; eexists; rewrite lookup_insert_eq; eauto..|].
    exists w', x. rewrite lookup_insert_ne; [done|]. intros ->. destruct Hw as [Hw|[g' Hw]]; rewrite Hw in Hx; [done|].
    injection Hx as <-. by destruct Hg.
Qed.

Lemma fresh_step_ok t t' : table_ok t → fresh_step t t' → drained t' = false → table_ok t'.
Proof.
  intros [Hl Hd] [Hstep Hreuse] Hdr.
  destruct Hstep as [w g f r k d l Hw Hg|w g f r k d l Hw|w g f r k d l Hw|w g f r k d l Hw|w g f r k d l Hw| |];
    cbn [phases groups drained] in *; [| |by split| | |done|by split]; split; cbn [phases groups].
  - intros g'. rewrite Hl, listed_insert by eauto. naive_solver.
  - apply distinct_insert; [|done]. intros w' x _ Hx. destruct (decide (unreaped x)) as [Hu|Hu]; [by apply (Hg w' x)|].
    destruct x as [| |g']; try by destruct Hu. simpl. intros ->.
    apply (Hreuse w g Hw (lookup_insert_eq _ _ _)), Hl. by exists w', (Reaped g); auto.
  - intros g'. rewrite elem_of_union, elem_of_singleton, Hl, listed_insert by eauto. naive_solver.
  - by apply (distinct_same _ _ (Started g)).
  - intros g'. rewrite Hl. split; intros (w' & x & Hx & Hg).
    + destruct (decide (w = w')) as [->|]; [|exists w', x; by rewrite lookup_insert_ne].
      exists w', (Reaped g). rewrite lookup_insert_eq. split; [done|]. rewrite Hw in Hx. naive_solver.
    + apply lookup_insert_Some in Hx as [[<- <-]|[? Hx]]; [|by exists w', x].
      exists w, (Registered g). split; [done|]. naive_solver.
  - by apply (distinct_same _ _ (Registered g)).
  - intros g'. rewrite elem_of_difference, elem_of_singleton, Hl. split.
    + intros [(w' & x & Hx & Hg) Hne]. exists w', x. split; [|done]. apply lookup_delete_Some.
      split; [|done]. intros ->. rewrite Hw in Hx. naive_solver.
    + intros (w' & x & [Hww Hx]%lookup_delete_Some & Hg). split; [by exists w', x|]. intros ->. apply Hww.
      eapply (Hd w w'); [done..|]. by destruct Hg as [->| ->].
  - by apply distinct_delete.
Qed.

Lemma no_commands_ok : table_ok no_commands.
Proof.
  unfold no_commands. split; cbn [phases groups].
  - intros g. split; [set_solver|]. intros (w & x & Hx & _). by rewrite lookup_empty in Hx.
  - intros w w' x x' Hx. by rewrite lookup_empty in Hx.
Qed.

(** Once drained, the table stays so. *)
Lemma drained_stays t t' : table_step t t' → drained t' = false → drained t = false.
Proof. by destruct 1. Qed.
Lemma fresh_reachable t : rtc fresh_step no_commands t → drained t = false → table_ok t.
Proof.
  revert t. refine (rtc_ind_r _ _ _ _); [intros _; apply no_commands_ok|]. intros t t' _ Hstep IH Hd. eapply fresh_step_ok; [|done..]. apply IH. by eapply drained_stays, Hd; apply Hstep.
Qed.
(** Nothing is doomed before the drain. *)
Lemma undrained_doomed t : rtc fresh_step no_commands t → drained t = false → doomed t = [].
Proof.
  revert t. refine (rtc_ind_r _ _ _ _); [done|]. intros t t' _ [Hstep _] IH Hd.
  specialize (IH (drained_stays _ _ Hstep Hd)). by destruct Hstep.
Qed.

Lemma signalled_mono t t' : rtc table_step t t' → signalled t ⊆ signalled t'.
Proof. induction 1 as [|t t1 t' Hstep _ IH]; [done|]. etrans; [|exact IH]. destruct Hstep; set_solver. Qed.

(** After the drain: what is doomed stays so until it is killed, and nothing joins it. *)
Lemma doomed_later t t' g :
  rtc table_step t t' → drained t = true →
  drained t' = true ∧ (g ∈ doomed t → g ∈ doomed t' ∨ g ∈ signalled t') ∧ (g ∈ doomed t' → g ∈ doomed t).
Proof.
  intros Hs. induction Hs as [t|t t1 t' Hstep Hrest IH]; intros Hd; [auto|].
  assert (drained t1 = true ∧ (g ∈ doomed t → g ∈ doomed t1 ∨ g ∈ signalled t1) ∧ (g ∈ doomed t1 → g ∈ doomed t))
    as (Hd1 & Hfate & Hback).
  { destruct Hstep; cbn [drained doomed signalled] in *; try done; set_solver. }
  destruct (IH Hd1) as (? & Hfate' & Hback'). split_and!; [done| |by auto]. intros Hg.
  destruct (Hfate Hg) as [Hg1|Hg1]; [auto|]. right. by apply (signalled_mono _ _ Hrest).
Qed.

(** Some worker had [g] registered between [t] and [t']. *)
Definition held_between (t t' : Table) (g : Z) : Prop :=
  ∃ t1 w, rtc table_step t t1 ∧ rtc table_step t1 t' ∧ phases t1 !! w = Some (Registered g).

(** Who is killed was doomed, or is killed by its own worker. *)
Lemma signalled_why t t' g :
  rtc table_step t t' → drained t = true → g ∈ signalled t' →
  g ∈ signalled t ∨ g ∈ doomed t ∨ held_between t t' g.
Proof.
  intros Hs. induction Hs as [t|t t1 t' Hstep Hrest IH]; intros Hd Hg; [auto|].
  assert (drained t1 = true) as Hd1 by (by destruct Hstep).
  destruct (IH Hd1 Hg) as [Hg1|[Hg1|(t2 & w & H1 & H2 & Hw)]].
  - destruct Hstep as [| |w h f r k d l Hw| | | |]; cbn [signalled doomed drained] in *; auto; [|set_solver..].
    apply elem_of_union in Hg1 as [->%elem_of_singleton|]; [|auto]. right. right.
    eexists _, w. split; [apply rtc_refl|]. split; [|exact Hw]. by eapply rtc_l; [apply (child_is_killed w h)|].
  - right. left. destruct Hstep; cbn [doomed drained] in *; try done. set_solver.
  - right. right. exists t2, w. split; [by eapply rtc_l|done].
Qed.

(** ** Properties *)

(** C25: the end of the connection kills the registered commands. As long as the system
    uses no id again while it is registered, and however the workers interleave: until the
    drain the registry holds exactly the groups of the commands that are registered and not
    yet dropped. The drain leaves it empty and dooms exactly these groups; whatever the
    workers do from then on, the main loop can go on killing to the end, and by then every
    one of them has been sent the signal, and no other group but by a worker that holds it
    registered. Done without a break, this is [kill_registered_execs]. (A command that is
    not registered when the drain comes is missed, and so may be one whose id is used
    again: see C26.) *)
Theorem shutdown_kills_commands t :
  rtc fresh_step no_commands t → drained t = false →
  (∀ g, g ∈ groups t ↔ listed (phases t) g) ∧
  (∀ p, registry p = groups t → list_to_set (killed p) = signalled t →
     rtc table_step t (mkTable (phases t) (registry (kill_registered_execs p))
                         (list_to_set (killed (kill_registered_execs p))) true [])) ∧
  ∀ t', table_step t t' → drained t' = true →
    groups t' = ∅ ∧ (∀ g, g ∈ doomed t' ↔ listed (phases t) g) ∧
    ∀ t'', rtc table_step t' t'' →
      rtc table_step t'' (mkTable (phases t'') (groups t'') (list_to_set (doomed t'') ∪ signalled t'') (drained t'') []) ∧
      (doomed t'' = [] → ∀ g, listed (phases t) g → g ∈ signalled t'') ∧
      (∀ g, g ∈ signalled t'' → g ∈ signalled t ∨ listed (phases t) g ∨ held_between t' t'' g).
Proof.
  intros Hr Hd. destruct (fresh_reachable t Hr Hd) as [Hl _]. pose proof (undrained_doomed t Hr Hd) as Hnone.
  split; [exact Hl|]. split.
  { intros p Hreg Hk. destruct t as [f r k d l]. cbn [phases groups signalled drained doomed] in *. subst. apply shutdown_steps. }
  intros t' Hstep Hd'.
  assert (groups t' = ∅ ∧ signalled t' = signalled t ∧ ∀ g, g ∈ doomed t' ↔ listed (phases t) g) as (Hempty & Hsig & Hdoom).
  { destruct Hstep as [| | | | |f r k l Hperm|]; cbn [drained phases groups signalled doomed] in *; try congruence.
    split_and!; [done..|]. intros g. by rewrite Hperm, elem_of_elements, Hl. }
  split_and!; [done..|]. intros t'' Hrest. split_and!.
  - destruct t''. apply kills_steps.
  - intros Hdone g Hg. destruct (doomed_later t' t'' g Hrest Hd') as (_ & Hfate & _).
    destruct (Hfate (proj2 (Hdoom g) Hg)) as [Hin|]; [|done]. rewrite Hdone in Hin. by apply elem_of_nil in Hin.
  - intros g Hg. destruct (signalled_why t' t'' g Hrest Hd' Hg) as [|[|]]; [left; congruence| |auto].
    right. left. by apply Hdoom.
Qed.

(** The table while one worker collects the output of a reaped command, and another one
    has started a command with the same id. *)
Definition reused_id : Table :=
  mkTable (<[1%nat := Registered 7]> {[0%nat := Reaped 7]}) ({[7]} ∪ ({[7]} ∪ ∅)) ∅ false [].

Lemma reused_id_reached : rtc table_step no_commands reused_id.
Proof.
  eapply rtc_l; [apply (child_starts 0 7); [done|apply map_Forall_empty]|].
  eapply rtc_l; [apply (child_registers 0 7), lookup_insert_eq|]. rewrite insert_insert_eq.
  eapply rtc_l; [apply (child_is_reaped 0 7), lookup_insert_eq|]. rewrite insert_insert_eq.
  eapply rtc_l; [apply (child_starts 1 7)|].
  { done. }
  { apply map_Forall_insert; [done|]. split; [by intros []|apply map_Forall_empty]. }
  eapply rtc_l; [apply (child_registers 1 7), lookup_insert_eq|]. rewrite insert_insert_eq. apply rtc_refl.
Qed.

(** C26: the boundary of that guarantee. A command that has been started but not yet been
    registered when the registry is drained is not killed, even if no id is ever used
    twice. And where the id of a reaped command is used again while its output is still
    being collected, dropping the first registration takes the second one with it: the
    drain then misses a command that its worker has registered. In both cases the main
    loop has nothing left to kill. *)
Theorem shutdown_window :
  (∃ t w g, rtc fresh_step no_commands t ∧ drained t = true ∧ doomed t = [] ∧
     phases t !! w = Some (Registered g) ∧ g ∉ signalled t) ∧
  (∃ t t' w g, rtc table_step no_commands t ∧ drained t = false ∧ phases t !! w = Some (Registered g) ∧
     table_step t t' ∧ drained t' = true ∧ doomed t' = [] ∧ g ∉ signalled t').
Proof.
  split.
  - exists (mkTable (<[0%nat := Registered 7]> (<[0%nat := Started 7]> ∅)) ({[7]} ∪ ∅) ∅ true []), 0%nat, 7.
    split; [|split_and!; [done|done|apply lookup_insert_eq|set_solver]].
    eapply rtc_l; [split; [apply (child_starts 0 7); [done|apply map_Forall_empty]|]|].
    { intros w g _ _. simpl. set_solver. }
    eapply rtc_l; [split; [by apply (main_drains _ _ _ [])|]|].
    { intros w g Hw Hw'. simpl in *. by rewrite Hw in Hw'. }
    eapply rtc_l; [split; [apply (child_registers 0 7), lookup_insert_eq|]|apply rtc_refl].
    intros w g Hw Hw'. simpl in *. set_solver.
  - pose proof (registration_drops 0 7 (phases reused_id) (groups reused_id) ∅ false []) as Hdrop.
    eexists _, _, 1%nat, 7. split; [eapply rtc_r; [apply reused_id_reached|by apply Hdrop]|].
    split; [done|]. split; [done|]. split; [by apply (main_drains _ _ _ [])|]. split_and!; [done|done|]. simpl. set_solver.
Qed.

(** ** Witness *)

(** Two commands run when the input ends. *)
Definition two_commands : Table :=
  mkTable (<[1%nat := Registered 8]> (<[1%nat := Started 8]> (<[0%nat := Registered 7]> (<[0%nat := Started 7]> ∅))))
    ({[8]} ∪ ({[7]} ∪ ∅)) ∅ false [].

Lemma two_commands_reached : rtc fresh_step no_commands two_commands.
Proof.
  eapply rtc_l; [split; [apply (child_starts 0 7); [done|apply map_Forall_empty]|]|].
  { intros w g _ _. simpl. set_solver. }
  eapply rtc_l; [split; [apply (child_registers 0 7), lookup_insert_eq|]|].
  { intros w g _ _. simpl. set_solver. }
  eapply rtc_l; [split; [apply (child_starts 1 8)|]|].
  { done. }
  { rewrite insert_insert_eq. apply map_Forall_insert; [done|]. by split; [|apply map_Forall_empty]. }
  { intros w g Hw Hw'. simpl in *. apply lookup_insert_Some in Hw' as [[_ [= <-]]|[? Hw']]; [set_solver|].
    by rewrite Hw in Hw'. }
  eapply rtc_l; [split; [apply (child_registers 1 8), lookup_insert_eq|]|apply rtc_refl].
  intros w g Hw Hw'. simpl in *. apply lookup_insert_Some in Hw' as [[_ ?]|[? Hw']]; [done|].
  by rewrite Hw in Hw'.
Qed.

(** The main loop kills one after the other. *)
Lemma shutdown_kills_commands_witness :
  let t' := mkTable (phases two_commands) ∅ ∅ true (elements (groups two_commands)) in
  let t'' := mkTable (phases two_commands) ∅ (list_to_set (elements (groups two_commands)) ∪ ∅) true [] in
  rtc fresh_step no_commands two_commands ∧ 7 ∈ doomed t' ∧ rtc table_step t' t'' ∧
  7 ∈ signalled t'' ∧ 8 ∈ signalled t''.
Proof.
  intros t' t''. split; [exact two_commands_reached|].
  destruct (shutdown_kills_commands two_commands two_commands_reached eq_refl) as (_ & _ & Hdrain).
  destruct (Hdrain t') as (_ & Hdoomed & Hlater); [by apply main_drains|done|].
  assert (listed (phases two_commands) 7) as H7 by (exists 0%nat, (Registered 7); auto).
  assert (listed (phases two_commands) 8) as H8 by (exists 1%nat, (Registered 8); auto).
  destruct (Hlater t' (rtc_refl _ _)) as [Hkills _].
  split; [by apply Hdoomed|]. split; [exact Hkills|].
  destruct (Hlater t'' Hkills) as (_ & Hkilled & _). split; by apply Hkilled.
Defined.
