(* ===== verification/Store.v ===== *)
(** * What the clients see: a store with compare-and-swap

    An abstract specification of reading and saving over the wire. To a client the host
    is a store: at each path nothing, a file with its revision, or something that the
    server will not touch ([Entry]). A save names the revision that it replaces, or that
    it creates; [store_step] says what may be answered and what becomes of the store.

    The server implements this store: every request, with its reply decoded as a client
    decodes it ([answer_of]), is a step of the abstract one. No other process runs
    during a request and no call fails; between the requests others may change the host
    as they like ([outside]). *)
From S2P Require Import Prelude MachineInt Text Json Kernel Files Reference Sha256 RevisionTypes ReadPath WritePath WriteSafety WriteSpec WriteAlone Framing Exec FsHandlers Requests Saving.
Local Open Scope string_scope.
Local Open Scope list_scope.
Local Open Scope Z_scope.

(** ** The abstract store *)

Inductive Entry := Absent | Blocked | Holds (bytes : list byte) (rev : Revision).
Definition Store := Path → Entry.

Inductive Command :=
| Fetch (path : Path)
| Save (path : Path) (bytes : list byte) (expected : ExpectedRevision).

(** The kind of a conflict is its name on the wire. *)
Inductive Answer :=
| Got (bytes : list byte) (rev : Revision)
| Saved (rev : Revision)
| Conflicts (kind : string) (current : option Revision)
| Refused.

Definition same_store (σ σ' : Store) : Prop := ∀ p, σ' p = σ p.
Definition stored (path : Path) (e : Entry) (σ σ' : Store) : Prop :=
  ∀ p, σ' p = if decide (p = path) then e else σ p.

Definition savable (bytes : list byte) : Prop :=
  Z.of_nat (length bytes) ≤ MAX_READ_BYTES ∧ valid_utf8 bytes = true.

(** The save is what the entry allows; a new revision is none of the old. *)
Inductive allows : Entry → ExpectedRevision → Revision → Prop :=
| allows_replacing bytes rev rev' : rev' ≠ rev → allows (Holds bytes rev) (ExpPresent rev) rev'
| allows_creating rev' : allows Absent ExpMissing rev'.

(** What a save is told that came too late. *)
Inductive outdated : Entry → ExpectedRevision → Answer → Prop :=
| outdated_changed bytes current rev :
    current ≠ rev → outdated (Holds bytes current) (ExpPresent rev) (Conflicts "changed" (Some current))
| outdated_appeared bytes current :
    outdated (Holds bytes current) ExpMissing (Conflicts "appeared" (Some current))
| outdated_deleted rev : outdated Absent (ExpPresent rev) (Conflicts "deleted" None)
| outdated_blocked expected : outdated Blocked expected (Conflicts "type_changed" None)
| outdated_refused expected : outdated Blocked expected Refused.

Inductive store_step (σ : Store) : Command → Answer → Store → Prop :=
| fetches path bytes rev σ' :
    σ path = Holds bytes rev → same_store σ σ' → store_step σ (Fetch path) (Got bytes rev) σ'
| fetches_not path σ' :
    (∀ bytes rev, σ path ≠ Holds bytes rev) → same_store σ σ' → store_step σ (Fetch path) Refused σ'
| saves_it path bytes expected rev σ' :
    savable bytes → allows (σ path) expected rev → stored path (Holds bytes rev) σ σ' →
    store_step σ (Save path bytes expected) (Saved rev) σ'
| comes_late path bytes expected answer σ' :
    savable bytes → outdated (σ path) expected answer → same_store σ σ' →
    store_step σ (Save path bytes expected) answer σ'
| not_text path bytes expected σ' :
    ¬ savable bytes → same_store σ σ' → store_step σ (Save path bytes expected) Refused σ'
| no_room path bytes expected rev σ' :
    (* No directory, no free temporary name, no right to the owner's files. *)
    savable bytes → allows (σ path) expected rev → same_store σ σ' →
    store_step σ (Save path bytes expected) Refused σ'.

Lemma store_step_same σ σ1 cmd answer σ' :
  same_store σ σ1 → store_step σ1 cmd answer σ' → store_step σ cmd answer σ'.
Proof.
  intros Hσ Hstep. unfold same_store in Hσ. destruct Hstep as [path b r ? H1 H2|path ? H1 H2|path b e r ? H0 H1 H2|
    path b e a ? H0 H1 H2|path b e ? H1 H2|path b e r ? H0 H1 H2].
  - apply (fetches _ _ b r); [by rewrite <-Hσ|]. intros p. by rewrite H2, Hσ.
  - apply fetches_not; [by setoid_rewrite <-Hσ|]. intros p. by rewrite H2, Hσ.
  - apply saves_it; [done|by rewrite <-Hσ|]. intros p. by rewrite H2, Hσ.
  - apply comes_late; [done|by rewrite <-Hσ|]. intros p. by rewrite H2, Hσ.
  - apply not_text; [done|]. intros p. by rewrite H2, Hσ.
  - apply (no_room _ _ _ _ r); [done|by rewrite <-Hσ|]. intros p. by rewrite H2, Hσ.
Qed.

(** With what others do in between. *)
Inductive Label := Asked (cmd : Command) (answer : Answer) | Elsewhere.
Inductive store_trace : Store → list Label → Store → Prop :=
| store_done σ σ' : same_store σ σ' → store_trace σ [] σ'
| store_asked σ σ1 σ' cmd answer l :
    store_step σ cmd answer σ1 → store_trace σ1 l σ' → store_trace σ (Asked cmd answer :: l) σ'
| store_elsewhere σ σ1 σ' l : store_trace σ1 l σ' → store_trace σ (Elsewhere :: l) σ'.

(** ** The host as a store *)

Definition entry (fs : FS) : Store := λ path,
  match lookup_path fs path with
  | None => Absent
  | Some _ => match read_spec fs path with
              | Ok rd => Holds (read_bytes rd) (read_revision rd)
              | Err _ => Blocked
              end
  end.

Definition time_ok (t : time) : Prop := i64_range t.1 ∧ nsec_ok t.2.

(** A sane host: names lead to inodes, a single link has a single name, and what the
    kernel reports fits the fields that it is reported in. *)
Record host_ok (fs : FS) : Prop := {
  host_names : wf_fs fs;
  host_single p q v i :
    names fs !! p = Some v → names fs !! q = Some v → inodes fs !! v = Some i → i_nlink i = 1 → p = q;
  host_typed p v i : lookup_path fs p = Some (v, i) →
    typed (revision_of i) ∧ nsec_ok (i_mtime i).2 ∧ nsec_ok (i_ctime i).2;
}.

(** The clock stays in the range of [i64] seconds. *)
Class SaneClock `{Kernel} : Prop := sane_clock t : shown t → time_ok t.

(** The device and the next inode number, whenever it is taken, are [u64]: there are
    numbers left. *)
Definition addressable `{Kernel} (fs : FS) : Prop :=
  u64_range device ∧ ∀ now, u64_range (pick_ino (at_time now fs)).

(** ** Requests and replies *)
Section client.
Context `{Json, Base64, Environment}.

(** [req] asks for [cmd]. *)
Inductive asks : Command → Value → Prop :=
| asks_fetch text req : reads text req → asks (Fetch (path_new (expand_home text))) req
| asks_save text v rev bytes req :
    saves text v bytes req → from_value v = Ok rev →
    asks (Save (path_new (expand_home text)) bytes (ExpPresent rev)) req
| asks_create text bytes req :
    get_str req "op" = Some "write" → str_or req "path" "" = text →
    get_str req "expected_state" = Some "missing" → get_str req "bytes_b64" = Some (encode bytes) →
    bool_or req "append" false = false → bool_or req "must_be_new" false = false →
    asks (Save (path_new (expand_home text)) bytes ExpMissing) req.

Definition sent_revision (v : Value) (key : string) : option Revision :=
  get v key ≫= λ r, result_ok (from_value r).

(** The reply as a client decodes it. *)
Definition answer_of (reply : Value) : option Answer :=
  ok ← get_bool reply "ok";
  if (ok : bool) then
    rev ← sent_revision reply "revision";
    match get_str reply "bytes_b64" with
    | Some text => (λ bytes, Got bytes rev) <$> result_ok (decode text)
    | None => Some (Saved rev)
    end
  else if decide (get_str reply "error_code" = Some "conflict") then
    conflict ← get reply "conflict"; kind ← get_str conflict "kind";
    Some (Conflicts kind (sent_revision conflict "current_revision"))
  else Some Refused.
End client.

(** ** Entries *)

Lemma entry_lookup fs fs' p : lookup_path fs p = lookup_path fs' p → entry fs p = entry fs' p.
Proof. intros Hl. unfold entry, read_spec, regular_at. by rewrite Hl. Qed.

Lemma entry_equiv fs fs' p : fs ≡ fs' → entry fs p = entry fs' p.
Proof. intros Hfs. by apply entry_lookup, lookup_equiv. Qed.
#[export] Instance host_ok_proper : Proper ((≡) ==> iff) host_ok.
Proof.
  assert (∀ f g, f ≡ g → host_ok f → host_ok g) as Himp.
  { intros f g Hfg [Hn Hs Ht]. split; [by rewrite <-Hfg| |].
    - intros p q v i. rewrite <-(proj1 Hfg), <-(proj2 Hfg). apply Hs.
    - intros p v i. rewrite <-(lookup_equiv _ _ _ Hfg). apply Ht. }
  intros f g Hfg. split; by apply Himp.
Qed.

Lemma entry_absent fs p : entry fs p = Absent ↔ lookup_path fs p = None.
Proof. unfold entry. destruct (lookup_path fs p); [|done]. by destruct (read_spec fs p). Qed.

Lemma entry_holds fs p bytes rev :
  entry fs p = Holds bytes rev → read_spec fs p = Ok (mkRevisionRead bytes rev).
Proof.
  unfold entry. destruct (lookup_path fs p); [|done]. destruct (read_spec fs p) as [[]|]; [|done].
  by intros [= <- <-].
Qed.

Lemma read_entry fs p rd :
  read_spec fs p = Ok rd → entry fs p = Holds (read_bytes rd) (read_revision rd).
Proof.
  intros Hr. unfold entry. rewrite Hr. destruct (lookup_path fs p) eqn:Hl; [done|].
  unfold read_spec, regular_at in Hr. by rewrite Hl in Hr.
Qed.

(** What is read is typed, valid, and has one link. *)
Lemma read_inode fs p rd :
  host_ok fs → read_spec fs p = Ok rd →
  typed (read_revision rd) ∧ is_valid_file_revision (read_revision rd) = true ∧
  ∃ v i, lookup_path fs p = Some (v, i) ∧ i_nlink i = 1 ∧ read_revision rd = revision_of i.
Proof.
  intros Hok Hr. unfold read_spec in Hr. inv_ok. destruct x as [v i]. cbn [snd] in Hr.
  destruct (regular_at_ok fs p v i) as (Hl & _ & Ht & _); [done|].
  destruct (_ <? _); [done|]. destruct (valid_utf8 _); [|done]. injection Hr as <-.
  destruct (host_typed _ Hok _ _ _ Hl) as (Htyped & Hm & Hc). cbn [read_revision]. split_and!.
  - done.
  - by apply from_metadata_valid.
  - exists v, i. split_and!; [done| |done]. unfold final_type in Ht. repeat case_match; try done.
    split_bools. simpl in *. lia.
Qed.

(** ** The check of a save *)

(** What the client makes of an error. *)
Definition error_answer (e : RevisionError) : Answer :=
  match e with Conflict kind current => Conflicts (wire_name kind) current | _ => Refused end.

Definition well_formed (expected : ExpectedRevision) : Prop :=
  match expected with ExpPresent rev => is_valid_file_revision rev = true | ExpMissing => True end.

Lemma blocked_entry fs p e :
  is_Some (lookup_path fs p) → read_spec fs p = Err e → entry fs p = Blocked.
Proof. intros [? Hl] He. unfold entry. by rewrite Hl, He. Qed.

Lemma final_type_blocked fs p v i kind :
  lookup_path fs p = Some (v, i) → final_type (metadata_of i) = Some kind → entry fs p = Blocked.
Proof.
  intros Hl Ht. apply (blocked_entry _ _ (UnsupportedFinalType kind)); [eauto|].
  unfold read_spec, regular_at. by rewrite Hl, Ht.
Qed.

Lemma read_error fs p e : read_spec fs p = Err e → error_answer e = Refused.
Proof.
  unfold read_spec, regular_at. destruct (lookup_path fs p) as [[v i]|]; [|by intros [= <-]].
  destruct (final_type _); [by intros [= <-]|]. cbn [result_bind snd].
  destruct (_ <? _); [by intros [= <-]|]. destruct (valid_utf8 _); [done|by intros [= <-]].
Qed.

Lemma check_late fs expected p e :
  well_formed expected → conflict_spec fs expected p = Err e →
  outdated (entry fs p) expected (error_answer e).
Proof.
  intros Hwell. unfold conflict_spec, lstat_of. destruct (lookup_path fs p) as [[v i]|] eqn:Hl;
    cbn [fmap option_fmap option_map snd].
  - assert (is_Some (lookup_path fs p)) as Hs by eauto.
    destruct expected as [rev|]; simpl in Hwell; rewrite ?Hwell;
      (destruct (final_type _) as [kind|] eqn:Ht;
        [rewrite (final_type_blocked _ _ _ _ _ Hl Ht); intros [= <-]; case_decide; constructor|]);
      (destruct (read_spec fs p) as [rd|e'] eqn:Hr; cbn [result_bind];
        [rewrite (read_entry _ _ _ Hr)|rewrite (blocked_entry _ _ _ Hs Hr)]).
    + case_decide; [done|]. intros [= <-]. by constructor.
    + intros [= <-]. rewrite (read_error _ _ _ Hr). constructor.
    + intros [= <-]. constructor.
    + intros [= <-]. rewrite (read_error _ _ _ Hr). constructor.
  - rewrite (proj2 (entry_absent _ _) Hl). destruct expected as [rev|]; [|done].
    simpl in Hwell. rewrite Hwell. intros [= <-]. constructor.
Qed.

Lemma check_passes fs expected p rev' :
  conflict_spec fs expected p = Ok tt →
  (∀ bytes rev, entry fs p = Holds bytes rev → rev' ≠ rev) → allows (entry fs p) expected rev'.
Proof.
  destruct expected as [rev|]; intros Hc Hnew.
  - destruct (conflict_spec_read _ _ _ Hc) as (rd & Hr & <-). apply read_entry in Hr.
    rewrite Hr. constructor. by eapply Hnew.
  - assert (entry fs p = Absent) as ->; [|constructor]. apply entry_absent. unfold conflict_spec, lstat_of in Hc.
    destruct (lookup_path fs p) as [[v i]|]; [|done]. cbn [fmap option_fmap option_map] in Hc.
    destruct (final_type _); [done|]. by destruct (read_spec fs p).
Qed.

(** ** The file system after a save *)
Section publishing.
Context `{Kernel, !FreshInodes, !SaneClock}.
Context (ts : Times) (Hts : shown_times ts).
Context (fs : FS) (Haddr : addressable fs) (path : Path) (expected : ExpectedRevision) (bytes : list byte).
Context (Hok : host_ok fs) (Hcheck : conflict_spec fs expected path = Ok tt).
Context (Hsize : Z.of_nat (length bytes) ≤ MAX_READ_BYTES) (Hutf : valid_utf8 bytes = true).

Abbreviation saved := (saved_inode fs ts (lstat_of fs path) bytes).
Abbreviation fs' := (published (changed ts) fs path (new_slot fs) saved).

(** The inode that is replaced has no other name. *)
Lemma displaced_link u i : lookup_path fs path = Some (u, i) → i_nlink i = 1.
Proof.
  intros Hl. destruct expected as [rev|].
  - destruct (conflict_spec_read _ _ _ Hcheck) as (rd & Hr & _).
    destruct (read_inode _ _ _ Hok Hr) as (_ & _ & v & i' & Hl' & Hn & _).
    rewrite Hl in Hl'. by injection Hl' as -> ->.
  - revert Hcheck. unfold conflict_spec, lstat_of. rewrite Hl. cbn [fmap option_fmap option_map].
    destruct (final_type _); [done|]. by destruct (read_spec fs path).
Qed.

Lemma lookup_published_ne now n p :
  p ≠ path → lookup_path (published now fs path (new_slot fs) n) p = lookup_path fs p.
Proof.
  intros Hp. unfold lookup_path at 1, published. cbn [names inodes]. rewrite lookup_insert_ne by done.
  unfold lookup_path. destruct (names fs !! p) as [w|] eqn:Hw; [|done]. simpl.
  pose proof (host_names _ Hok _ _ Hw) as Hdom.
  rewrite lookup_insert_ne by (intros <-; by apply (new_slot_unused fs)).
  unfold displaced. destruct (lookup_path fs path) as [[u i]|] eqn:Hl; [|done].
  rewrite lookup_insert_ne; [done|]. intros ->. apply Hp. apply lookup_path_inode in Hl as Hl'.
  destruct Hl' as [Hn Hi]. by eapply (host_single _ Hok _ _ w i); [| | |eapply displaced_link].
Qed.

Lemma new_revision b rev : entry fs path = Holds b rev → revision_of saved ≠ rev.
Proof.
  intros He Hrev. apply entry_holds in He.
  destruct (read_inode _ _ _ Hok He) as (_ & _ & u & i & Hl & Hn & Hi). simpl in Hi. subst rev.
  apply (f_equal ino) in Hi. apply lookup_path_inode in Hl as [_ Hl].
  apply (pick_ino_fresh (at_time (born ts) fs) _ _ Hl); [lia|]. symmetry. exact Hi.
Qed.

Lemma stored_published : stored path (Holds bytes (revision_of saved)) (entry fs) (entry fs').
Proof.
  intros p. case_decide as Hp; [subst p|by apply entry_lookup, lookup_published_ne].
  by rewrite (read_entry _ _ _ (read_saved _ fs ts (lstat_of fs path) path bytes _ Hsize Hutf)).
Qed.

Lemma saved_typed : typed (revision_of saved).
Proof.
  destruct Hts as (_ & [Hsec Hnsec]%sane_clock & [Hsec' Hnsec']%sane_clock).
  pose proof (permissions_range (i_mode saved)) as Hperm.
  destruct Haddr as [Hdev Hino]. specialize (Hino (born ts)). unfold nsec_ok, MAX_READ_BYTES, PERMISSIONS in *.
  unfold typed, u8_range, u32_range, u64_range, i64_range in *. cbn [schema dev ino rsize mtime_sec mtime_nsec
    ctime_sec ctime_nsec rmode revision_of from_metadata metadata_of md_dev md_ino md_size md_mtime
    md_mtime_nsec md_ctime md_ctime_nsec md_mode saved_inode temp_inode i_dev i_ino i_mtime i_ctime].
  unfold size_of. cbn [i_data saved_inode temp_inode]. unfold PERMISSIONS. lia.
Qed.
Lemma saved_nsec : nsec_ok (i_mtime saved).2 ∧ nsec_ok (i_ctime saved).2.
Proof. split; apply sane_clock; apply Hts. Qed.

Lemma host_ok_published : host_ok fs'.
Proof.
  split.
  - apply wf_published, Hok.
  - intros p q v i Hp Hq Hi Hn. destruct (decide (p = path)) as [->|Hpp], (decide (q = path)) as [->|Hqp]; [done| | |].
    + exfalso. simpl in Hp, Hq. rewrite lookup_insert_eq in Hp. rewrite lookup_insert_ne in Hq by done.
      injection Hp as <-. by apply (new_slot_unused fs), (host_names _ Hok q).
    + exfalso. simpl in Hp, Hq. rewrite lookup_insert_eq in Hq. rewrite lookup_insert_ne in Hp by done.
      injection Hq as <-. by apply (new_slot_unused fs), (host_names _ Hok p).
    + pose proof (lookup_published_ne (changed ts) saved p Hpp) as Hl. unfold lookup_path in Hl. rewrite Hp in Hl.
      cbn [mbind option_bind] in Hl. rewrite Hi in Hl. cbn [mbind option_bind] in Hl. simpl in Hp, Hq.
      rewrite lookup_insert_ne in Hp, Hq by done. rewrite Hp in Hl. simpl in Hl.
      destruct (inodes fs !! v) eqn:Hv; [|done]. injection Hl as <-. by eapply (host_single _ Hok).
  - intros p v i Hl. destruct (decide (p = path)) as [->|Hp].
    + rewrite lookup_published in Hl. injection Hl as _ <-. split; [apply saved_typed|apply saved_nsec].
    + rewrite lookup_published_ne in Hl by done. by eapply (host_typed _ Hok).
Qed.
End publishing.

Lemma host_ok_untouched fs fs' :
  host_ok fs → untouched fs fs' → host_ok fs' ∧ same_store (entry fs) (entry fs').
Proof.
  intros Hok (Hn & Hi).
  assert (∀ p, lookup_path fs' p = lookup_path fs p) as Hl
    by (intros p; apply untouched_lookup; [apply Hok|done]).
  split; [|intros p; by apply entry_lookup]. split.
  - intros p v Hv. rewrite Hn in Hv. apply (host_names _ Hok) in Hv. by eapply subseteq_dom.
  - intros p q v i Hp Hq Hv Hlink. rewrite Hn in Hp, Hq. pose proof (host_names _ Hok _ _ Hp) as Hd.
    apply elem_of_dom in Hd as [i' Hd]. rewrite (lookup_weaken _ _ _ _ Hd Hi) in Hv. injection Hv as ->.
    by eapply (host_single _ Hok).
  - intros p v i. rewrite Hl. apply (host_typed _ Hok).
Qed.

(** ** Replies, decoded *)
Section decoding.
Context `{JsonLaws, Base64Laws}.

Lemma answer_read id rd :
  typed (read_revision rd) → is_valid_file_revision (read_revision rd) = true →
  answer_of (finish_revision_value id (Ok (read_value rd))) = Some (Got (read_bytes rd) (read_revision rd)).
Proof.
  intros Ht Hv. unfold answer_of. rewrite finish_revision_ok by apply obj_object.
  cbn [mbind option_bind]. unfold sent_revision, get_str. rewrite !finish_revision_get by (done || apply obj_object).
  unfold read_value. rewrite !get_obj. unfold fields. cbn [foldl fst snd]. simplify_map_eq.
  rewrite from_to_value by done. simpl. by rewrite as_str_of, decode_encode.
Qed.

Lemma answer_saved id rev :
  typed rev → is_valid_file_revision rev = true →
  answer_of (finish_revision_value id (Ok (saved_value (mkConditionalWrite rev)))) = Some (Saved rev).
Proof.
  intros Ht Hv. unfold answer_of. rewrite finish_revision_ok by apply obj_object.
  cbn [mbind option_bind]. unfold sent_revision, get_str. rewrite !finish_revision_get by (done || apply obj_object).
  unfold saved_value. rewrite !get_obj. unfold fields. cbn [foldl fst snd]. simplify_map_eq.
  by rewrite from_to_value.
Qed.

Definition carries (P : Revision → Prop) (e : RevisionError) : Prop :=
  match e with Conflict _ (Some r) => P r | _ => True end.

Lemma finish_error_get id e key :
  key ≠ "id" → get (finish_revision_value id (Err e)) key = get (wire_error e) key.
Proof.
  intros Hkey. unfold finish_revision_value. rewrite get_insert_field, decide_False; [done..|].
  destruct e; apply obj_object.
Qed.

Lemma answer_error id e :
  carries (λ r, typed r ∧ is_valid_file_revision r = true) e →
  answer_of (finish_revision_value id (Err e)) = Some (error_answer e).
Proof.
  intros He. unfold answer_of, get_bool, get_str. rewrite !finish_error_get by done.
  destruct e as [|k c| | | |]; cbn [wire_error plain_error error_answer]; unfold plain_error; rewrite !get_obj;
    unfold fields; cbn [foldl fst snd]; simplify_map_eq; rewrite as_bool_of, as_str_of;
    cbn [mbind option_bind]; [by rewrite decide_False by congruence| |by rewrite decide_False by congruence..].
  rewrite decide_True by done. rewrite get_obj. unfold fields, sent_revision. rewrite get_obj.
  unfold fields. cbn [foldl fst snd]. simplify_map_eq. rewrite as_str_of. simpl. do 2 f_equal.
  destruct c as [r|]; simpl.
  - destruct He. by rewrite from_to_value.
  - unfold from_value. by rewrite as_object_null.
Qed.
End decoding.

(** ** A request is a step *)

Abbreviation proper := (λ r, typed r ∧ is_valid_file_revision r = true).

Lemma read_error_carries fs p e : read_spec fs p = Err e → carries proper e.
Proof. intros He. apply read_error in He. by destruct e. Qed.

Lemma check_carries fs expected p e :
  host_ok fs → conflict_spec fs expected p = Err e → carries proper e.
Proof.
  intros Hok. unfold conflict_spec. destruct expected as [rev|], (lstat_of fs p) as [md|];
    try (destruct (is_valid_file_revision rev)); try destruct (final_type md);
    try (destruct (read_spec fs p) as [rd|] eqn:Hr; cbn [result_bind];
         [pose proof (read_inode _ _ _ Hok Hr) as (? & ? & _)|apply read_error_carries in Hr]);
    intros He; repeat case_decide; simplify_eq; try done; by repeat split.
Qed.

Lemma find_temp_error `{Kernel} k dir serial fs e :
  find_temp k dir serial fs = Err e → ∃ message, e = Io message.
Proof.
  revert serial. induction k as [|k IH]; intros serial; simpl; [intros [= <-]; eauto|].
  destruct (names fs !! _); [by apply IH|]. destruct (dir_ok _ _); [done|]. intros [= <-]. unfold io_error. eauto.
Qed.

Section saving.
Context `{Kernel, !FreshInodes, !SaneClock}.

Lemma stored_same path e σ σ' σ'' : stored path e σ σ' → same_store σ' σ'' → stored path e σ σ''.
Proof. intros Hst Hs p. by rewrite Hs. Qed.

(** What a save comes to, in terms of the store. *)
Lemma save_step fs ts serial dir path bytes expected :
  host_ok fs → addressable fs → well_formed expected → shown_times ts →
  match write_spec fs ts serial dir path bytes expected with
  | Ok cw =>
      let fs' := published (changed ts) fs path (new_slot fs) (saved_inode fs ts (lstat_of fs path) bytes) in
      proper (saved_revision cw) ∧ host_ok fs' ∧
      ∀ σ', same_store (entry fs') σ' →
        store_step (entry fs) (Save path bytes expected) (Saved (saved_revision cw)) σ'
  | Err e =>
      carries proper e ∧
      ∀ σ', same_store (entry fs) σ' → store_step (entry fs) (Save path bytes expected) (error_answer e) σ'
  end.
Proof.
  intros Hok Haddr Hwell Hts. unfold write_spec.
  destruct (Z.ltb_spec MAX_READ_BYTES (Z.of_nat (length bytes))) as [Hlong|Hsize].
  { split; [done|]. intros σ' Hσ. apply not_text; [|done]. intros [? _]. lia. }
  destruct (valid_utf8 bytes) eqn:Hutf; cbn [negb].
  2: { split; [done|]. intros σ' Hσ. apply not_text; [|done]. intros [_ ?]. congruence. }
  assert (savable bytes) as Hsav by done.
  destruct (conflict_spec fs expected path) as [[]|e] eqn:Hc; cbn [result_bind].
  2: { split; [by eapply check_carries|]. intros σ' Hσ. apply comes_late; [done| |done]. by apply check_late. }
  set (n := saved_inode fs ts (lstat_of fs path) bytes).
  assert (allows (entry fs path) expected (revision_of n)) as Hallow
    by (eapply check_passes; [done|]; by apply new_revision).
  assert (∀ σ' message, same_store (entry fs) σ' →
    store_step (entry fs) (Save path bytes expected) (error_answer (Io message)) σ') as Hno
    by (intros; by eapply no_room).
  destruct (find_temp 100 dir serial fs) as [temp|e] eqn:Ht; cbn [result_bind].
  2: { apply find_temp_error in Ht as [message ->]. by split; [|auto]. }
  destruct (ownership_spec _) as [[]|e] eqn:Ho; cbn [result_bind saved_revision].
  2: { unfold ownership_spec in Ho. repeat case_match; simplify_eq. by split; [|intros; by apply Hno]. }
  cbn zeta. split_and!.
  - by eapply saved_typed.
  - by apply from_metadata_valid; apply (saved_nsec ts).
  - by eapply host_ok_published.
  - intros σ' Hσ. eapply saves_it; [done..|]. eapply stored_same; [by eapply stored_published|exact Hσ].
Qed.
End saving.

(** ** Runs *)
Section runs.
Context `{Kernel, Directories, JsonLaws, Base64Laws, Environment, !Receiver, Processes}.

(** Between two requests the host becomes [fs]: other processes, and time. *)
Inductive Move := Request (cmd : Command) (req : Value) | Outside (fs : FS).

Definition outside (fs : FS) (s : Session) : Session :=
  mkSession (mkWorld fs (w_step (world s)) (w_temp (world s)) (w_log (world s))) (channel s) (procs s) (trace s).

Fixpoint serve (s : Session) (moves : list Move) : Session :=
  match moves with
  | [] => s
  | Request _ req :: moves => serve (handle_fs req s).2 moves
  | Outside fs :: moves => serve (outside fs s) moves
  end.

(** A file to save is in a directory, and not one of the server's temporary files. *)
Definition ordinary (cmd : Command) : Prop :=
  match cmd with Fetch _ => True | Save path _ _ => is_Some (parent path) ∧ ¬ temporary path end.
Fixpoint allowed (s : Session) (moves : list Move) : Prop :=
  match moves with
  | [] => True
  | Request cmd req :: moves =>
      asks cmd req ∧ ordinary cmd ∧ addressable (w_fs (world s)) ∧
      allowed (handle_fs req s).2 moves
  | Outside fs :: moves => host_ok fs ∧ allowed (outside fs s) moves
  end.

(** The moves, with the reply to each request, as the clients see them. *)
Inductive observed : list Move → list Value → list Label → Prop :=
| observed_none : observed [] [] []
| observed_request cmd req reply answer moves replies labels :
    answer_of reply = Some answer → observed moves replies labels →
    observed (Request cmd req :: moves) (reply :: replies) (Asked cmd answer :: labels)
| observed_outside fs moves replies labels :
    observed moves replies labels → observed (Outside fs :: moves) replies (Elsewhere :: labels).

(** A request to save runs the conditional write, and replies with its result. *)
Lemma handle_asked path bytes expected req s :
  asks (Save path bytes expected) req →
  let m := conditional_write_locked path bytes expected in
  let s' := (handle_fs req s).2 in
  well_formed expected ∧
  world s' = (m (world s)).2 ∧
  channel s' = finish_revision (request_id req) (result_map saved_value (m (world s)).1) (channel s) ∧
  trace s' = trace s ++ Acquired :: new_calls (world s) (m (world s)).2 ++ [Released].
Proof.
  intros Hask. inversion Hask as [|text v rev ? ? [Hop Hpath Hst Hrev Hb Ha Hn] Hv|text ? ? Hop Hpath Hst Hb Ha Hn];
    subst; (split; [try by apply from_value_sound in Hv as [_ Hv]|]); try done;
    apply (handle_expected _ _ _ _ s); try done; unfold expected_revision_from_request.
  - by rewrite Hst, Hrev, Hv.
  - by rewrite Hst.
Qed.

Context `{!Undisturbed, !Faultless, !FreshInodes, !SaneClock}.

Lemma save_is_step path dir bytes expected req s :
  host_ok (w_fs (world s)) → addressable (w_fs (world s)) → parent path = Some dir → ¬ temporary path →
  asks (Save path bytes expected) req →
  let s' := (handle_fs req s).2 in
  host_ok (w_fs (world s')) ∧ ∃ reply answer,
    channel s' = send reply (channel s) ∧ answer_of reply = Some answer ∧
    store_step (entry (w_fs (world s))) (Save path bytes expected) answer (entry (w_fs (world s'))).
Proof.
  intros Hok Haddr Hparent Htemp Hask s'. destruct (handle_asked path bytes expected req s Hask) as (Hwell & Hw & Hc & _).
  fold s' in Hw, Hc.
  destruct (write_computes path dir bytes expected (world s) (host_names _ Hok) Hparent Htemp) as (ts & Hts & Hm).
  pose proof (save_step (w_fs (world s)) ts (w_temp (world s)) dir path bytes expected Hok Haddr Hwell Hts) as Hstep.
  destruct (write_spec _ _ _ _ _ _ _) as [cw|e]; destruct Hm as [Hr Hfs]; rewrite Hr in Hc; rewrite <-Hw in Hfs.
  - destruct Hstep as ([Ht Hv] & Hok' & Hstep). split; [by rewrite Hfs|].
    exists (finish_revision_value (request_id req) (Ok (saved_value cw))), (Saved (saved_revision cw)).
    split; [exact Hc|]. split; [destruct cw; by apply answer_saved|]. apply Hstep. intros p. by apply entry_equiv.
  - destruct Hstep as [He Hstep]. destruct (host_ok_untouched _ _ Hok Hfs) as [Hok' Hsame].
    split; [done|]. eexists _, _. split; [exact Hc|]. split; [by apply answer_error|by apply Hstep].
Qed.

Lemma request_is_step cmd req s :
  host_ok (w_fs (world s)) → asks cmd req → ordinary cmd → addressable (w_fs (world s)) →
  let s' := (handle_fs req s).2 in
  host_ok (w_fs (world s')) ∧ ∃ reply answer,
    channel s' = send reply (channel s) ∧ answer_of reply = Some answer ∧
    store_step (entry (w_fs (world s))) cmd answer (entry (w_fs (world s'))).
Proof.
  intros Hok Hask Hord Haddr s'. destruct cmd as [path|path bytes expected].
  2: { destruct Hord as [[dir Hparent] Htemp]. by eapply save_is_step. }
  inversion Hask as [text ? Hreads| |]; subst.
  destruct (handle_read text req s Hreads) as (Hw & Hc & _). fold s' in Hw, Hc.
  destruct (read_with_revision_alone (path_new (expand_home text)) (world s)) as [[Hfs _] Hr].
  apply or_fault_never in Hr. rewrite <-Hw in Hfs. rewrite Hr in Hc. split; [by rewrite Hfs|].
  assert (same_store (entry (w_fs (world s))) (entry (w_fs (world s')))) as Hsame by (intros p; by apply entry_equiv).
  destruct (read_spec _ _) as [rd|e] eqn:Hspec; cbn [result_map] in Hc.
  - destruct (read_inode _ _ _ Hok Hspec) as (Ht & Hvalid & _). eexists _, _. split; [exact Hc|].
    split; [by apply answer_read|]. by apply fetches; [apply read_entry|].
  - eexists _, _. split; [exact Hc|]. split; [apply answer_error; by eapply read_error_carries|].
    rewrite (read_error _ _ _ Hspec). apply fetches_not; [|done].
    intros bytes rev He. apply entry_holds in He. congruence.
Qed.
End runs.

(** ** Property *)

(** C7: the server is a compare-and-swap store. Whatever requests to read, save and create
    arrive, in any order, for any paths, and whatever others do to the host between them:
    the replies, as the clients decode them, and the host are those of the abstract
    store. A save is granted exactly from the revision or the absence it expects, then
    carries a new revision and changes nothing else; one that comes too late is told what
    is there now; every other request changes nothing. *)
Theorem server_is_a_store `{Kernel, Directories, JsonLaws, Base64Laws, Environment, !Receiver, Processes,
    !Undisturbed, !Faultless, !FreshInodes, !SaneClock} moves s :
  host_ok (w_fs (world s)) → allowed s moves →
  let s' := serve s moves in
  host_ok (w_fs (world s')) ∧ ∃ replies labels,
    observed moves replies labels ∧
    channel s' = foldl (flip send) (channel s) replies ∧
    store_trace (entry (w_fs (world s))) labels (entry (w_fs (world s'))).
Proof.
  revert s. induction moves as [|[cmd req|fs] moves IH]; intros s Hok Hmoves; cbn [serve allowed] in *.
  - split; [done|]. exists [], []. split_and!; by constructor.
  - destruct Hmoves as (Hask & Hord & Haddr & Hmoves). destruct (request_is_step cmd req s Hok Hask Hord Haddr)
      as (Hok1 & reply & answer & Hc & Hanswer & Hstep).
    destruct (IH _ Hok1 Hmoves) as (Hok' & replies & labels & Hobs & Hsent & Htrace). split; [done|].
    exists (reply :: replies), (Asked cmd answer :: labels). split_and!; [by constructor| |by econstructor].
    by rewrite Hsent, Hc.
  - destruct Hmoves as [Hfs Hmoves].
    destruct (IH (outside fs s) Hfs Hmoves) as (Hok' & replies & labels & Hobs & Hsent & Htrace). split; [done|].
    exists replies, (Elsewhere :: labels). split_and!; [by constructor|done|by econstructor].
Qed.

(** Hosts whose clock shows the second of the call. *)
Lemma seconds_sane others faults :
  SaneClock (H := scripted (λ n fs, at_time (second n) (others n fs)) faults).
Proof.
  intros t (n & fs & ->). cbn [env scripted clock at_time]. unfold time_ok, i64_range, nsec_ok, second.
  cbn [fst snd]. pose proof (Z.mod_pos_bound (Z.of_nat n) 1000000). lia.
Qed.
#[export] Instance quiet_sane : SaneClock (H := quiet_kernel).
Proof. apply (seconds_sane (λ _ fs, fs)). Qed.

Lemma u64_check n : (0 <=? n) && (n <? 2 ^ 64) = true → u64_range n.
Proof. unfold u64_range. intros [H1 H2]%andb_true_iff. split; [by apply Z.leb_le|by apply Z.ltb_lt]. Qed.

(** On the scripted hosts the next number does not depend on the time. *)
Lemma scripted_addressable others faults fs :
  (0 <=? next_ino fs) && (next_ino fs <? 2 ^ 64) = true → addressable (H := scripted others faults) fs.
Proof. intros Hn. split; [by apply u64_check|]. intros now. by apply u64_check. Qed.

Section witness.
#[local] Existing Instances quiet_kernel plain_directories no_home connected steady_clock.

(** The sample host at a later time. *)
Definition sample_at (now : time) : FS := mkFS (names sample_fs) (inodes sample_fs) now.

Lemma sample_names p v :
  names sample_fs !! p = Some v → (p = path_new "/d" ∧ v = 0%nat) ∨ (p = note ∧ v = 1%nat).
Proof.
  unfold sample_fs. cbn [names]. intros [[<- <-]|[_ Hp]]%lookup_insert_Some; [by left|].
  apply lookup_singleton_Some in Hp as [<- <-]. by right.
Qed.

Lemma sample_at_ok now : host_ok (sample_at now).
Proof.
  split; [exact sample_wf| |].
  - intros p q v i [[-> ->]|[-> ->]]%sample_names [[-> Hv]|[-> Hv]]%sample_names; done.
  - intros p v i Hl. apply lookup_path_inode in Hl as [Hp Hi].
    apply sample_names in Hp as [[-> ->]|[-> ->]]; vm_compute in Hi; injection Hi as <-;
      repeat split; vm_compute; congruence.
Qed.

(** A client reads the note; a minute passes; another one saves; the first one's save,
    which expects what it has read, comes too late. *)
Definition morning : list Move := [
  Request (Fetch note) (request "read" "/d/note" []);
  Outside (sample_at (90, 0));
  Request (Save note (into_bytes "mine") (ExpPresent note_revision))
    (save_request "mine" (to_value note_revision));
  Request (Save note (into_bytes "yours") (ExpPresent note_revision))
    (save_request "yours" (to_value note_revision))].

Lemma morning_allowed : allowed sample_session morning.
Proof.
  assert (∀ text, asks (Save note (into_bytes text) (ExpPresent note_revision))
    (save_request text (to_value note_revision))) as Hsave.
  { intros text. apply (asks_save "/d/note" (to_value note_revision)); [apply save_request_saves|].
    vm_compute. reflexivity. }
  assert (ordinary (Save note [] ExpMissing)) as Hord.
  { split; [by eexists|by apply ordinary_not_temporary]. }
  unfold morning. cbn [allowed].
  split; [apply (asks_fetch "/d/note"); split; reflexivity|]. split; [done|].
  assert (∀ fs, (0 <=? next_ino fs) && (next_ino fs <? 2 ^ 64) = true → addressable fs) as Haddr
    by apply scripted_addressable.
  split; [apply Haddr; vm_compute; reflexivity|]. split; [apply sample_at_ok|].
  split; [apply Hsave|]. split; [exact Hord|]. split; [apply Haddr; vm_compute; reflexivity|].
  split; [apply Hsave|]. split; [exact Hord|]. split; [apply Haddr; vm_compute; reflexivity|done].
Qed.

Lemma server_is_a_store_witness :
  let s' := serve sample_session morning in
  read_bytes <$> result_ok (read_spec (w_fs (world s')) note) = Some (into_bytes "mine") ∧
  host_ok (w_fs (world s')) ∧ ∃ replies labels,
    observed morning replies labels ∧
    channel s' = foldl (flip send) (channel sample_session) replies ∧
    store_trace (entry sample_fs) labels (entry (w_fs (world s'))).
Proof.
  cbn zeta. split; [vm_compute; reflexivity|].
  apply (server_is_a_store morning sample_session).
  - apply (sample_at_ok (30, 7)).
  - exact morning_allowed.
Defined.
End witness.
