(* ===== verification/Sharing.v ===== *)
(** * What a save looks like to others

    While a worker saves, others read. At every call of the save, an ordinary path that
    leads to a file goes on leading to it, or the file has lost its last link
    ([leads]); except at the call that publishes, a path that leads somewhere leads
    there still; and until then the store looks as it did, apart from a path that is
    being created, which may look blocked instead of absent ([shows]). *)
From S2P Require Import Prelude MachineInt Text Json Kernel Files RevisionTypes ReadPath WritePath WriteSafety WriteSpec WriteAlone Store.
Local Open Scope string_scope.
Local Open Scope list_scope.
Local Open Scope Z_scope.

#[export] Instance leads_proper path v i0 : Proper ((≡) ==> iff) (leads path v i0).
Proof. intros f g [Hn Hi]. unfold leads. by rewrite Hn, Hi. Qed.

(** From [b] to [a] ordinary paths are kept, apart from the publication at [touched]. *)
Definition keeps_paths (odd : Path → Prop) (touched : option Path) (b a : FS) : Prop :=
  ∀ p, ¬ odd p → (∀ v i0, leads p v i0 b → leads p v i0 a) ∧
    (touched ≠ Some p → ∀ x, lookup_path b p = Some x → lookup_path a p = Some x).

Lemma keeps_paths_equiv odd touched b a : b ≡ a → keeps_paths odd touched b a.
Proof.
  intros Hba p _. split; [intros v i0; by rewrite Hba|]. intros _ x. by rewrite (lookup_equiv _ _ p Hba).
Qed.

(** The store as it looks in [fs]: a path that is being created may look blocked. *)
Definition shows (odd : Path → Prop) (σ : Store) (fs : FS) : Prop :=
  ∀ p, ¬ odd p → σ p = entry fs p ∨ (σ p = Absent ∧ entry fs p = Blocked).

#[export] Instance shows_proper odd σ : Proper ((≡) ==> iff) (shows odd σ).
Proof.
  assert (∀ f g, f ≡ g → shows odd σ f → shows odd σ g) as Himp.
  { intros f g Hfg Hf p Hp. specialize (Hf p Hp). by rewrite (entry_equiv _ _ p Hfg) in Hf. }
  intros f g Hfg. split; by apply Himp.
Qed.

Lemma shows_itself odd fs : shows odd (entry fs) fs.
Proof. intros p _. by left. Qed.

#[export] Instance phase_eq_dec : EqDecision phase.
Proof. solve_decision. Defined.

Section sharing.
Context `{Kernel} (fs0 : FS) (path : Path) (bytes : list byte) (expected : ExpectedRevision).
Context (Hok : host_ok fs0).

Abbreviation in_phase := (in_phase fs0 path bytes expected).
Abbreviation v := (new_slot fs0).

Lemma slot_is_new p : names fs0 !! p ≠ Some v.
Proof. apply slot_unused, Hok. Qed.

(** *** Phase by phase *)

Lemma phase_names temp ph fs p :
  in_phase temp ph fs → ¬ temporary p → (p = path → ph ≠ Linked ∧ ph ≠ Published) →
  names fs !! p = names fs0 !! p.
Proof.
  intros Hph Hp Hpath. destruct ph; simpl in Hph.
  - by rewrite (proj1 Hph).
  - destruct Hph as ((Ht & _) & n & _ & [-> _]). simpl. apply lookup_insert_ne. by intros ->.
  - destruct Hph as ((Ht & _) & _ & _ & n & _ & _ & _ & [-> _]). simpl.
    rewrite !lookup_insert_ne; [done|by intros ->|]. intros ->. by destruct (Hpath eq_refl).
  - destruct Hph as (_ & now & n & _ & _ & [-> _]). simpl.
    apply lookup_insert_ne. intros ->. by destruct (Hpath eq_refl).
  - by destruct Hph as (_ & n & [-> _]).
Qed.

Lemma phase_inodes temp ph fs u :
  in_phase temp ph fs → ph ≠ Published → u ≠ v → inodes fs !! u = inodes fs0 !! u.
Proof.
  intros Hph Hnot Hu. destruct ph; simpl in Hph; [..|done|].
  - by rewrite (proj2 Hph).
  - destruct Hph as (_ & n & _ & [_ ->]). by apply lookup_insert_ne.
  - destruct Hph as (_ & _ & _ & n & _ & _ & _ & [_ ->]). by apply lookup_insert_ne.
  - destruct Hph as (_ & n & [_ ->]). by apply lookup_insert_ne.
Qed.

Lemma phase_lookup temp ph fs p :
  in_phase temp ph fs → ¬ temporary p → (p = path → ph ≠ Linked ∧ ph ≠ Published) →
  lookup_path fs p = lookup_path fs0 p.
Proof.
  intros Hph Hp Hpath. destruct (decide (ph = Published)) as [->|Hnot].
  - destruct Hph as (Hcheck & now & n & _ & _ & Hfs). rewrite (lookup_equiv _ _ p Hfs).
    apply (lookup_published_ne fs0 path expected); [done..|]. intros ->. by destruct (Hpath eq_refl).
  - unfold lookup_path. rewrite (phase_names _ _ _ _ Hph Hp Hpath).
    destruct (names fs0 !! p) as [u|] eqn:Hu; [|done]. simpl.
    rewrite (phase_inodes _ _ _ _ Hph Hnot); [done|]. intros ->. by apply (slot_is_new p).
Qed.

(** The path that is being created. *)
Lemma linked_blocked temp fs : in_phase temp Linked fs → entry fs0 path = Absent ∧ entry fs path = Blocked.
Proof.
  intros (_ & _ & Hm & n & _ & _ & Hl & Hfs). split.
  - apply entry_absent. unfold lookup_path. by rewrite Hm.
  - rewrite (entry_equiv _ _ path Hfs).
    assert (lookup_path (linked fs0 temp path v n) path = Some (v, n)) as Hn.
    { unfold lookup_path. simpl. rewrite lookup_insert_eq. simpl. by rewrite lookup_insert_eq. }
    destruct (final_type (metadata_of n)) as [kind|] eqn:Ht; [by eapply final_type_blocked|].
    apply final_type_single in Ht. lia.
Qed.

(** *** Files go on being led to *)

(** Before the publication the new inode is no ordinary path's. *)
Lemma leads_old temp ph fs p u i0 :
  in_phase temp ph fs → ph = Before ∨ ph = Staged → ¬ temporary p → leads p u i0 fs →
  u ≠ v ∧ ∃ i, inodes fs0 !! u = Some i ∧ i_data i = i_data i0 ∧ inode_is_dir i = inode_is_dir i0 ∧
    (names fs0 !! p = Some u ∨ i_nlink i ≤ 0).
Proof.
  intros Hph Hwhich Hp (i & Hi & Hd & Hdir & Hn).
  assert (p = path → ph ≠ Linked ∧ ph ≠ Published) as Hpath by (destruct Hwhich as [-> | ->]; done).
  rewrite (phase_names _ _ _ _ Hph Hp Hpath) in Hn.
  assert (u ≠ v) as Hu.
  { intros ->. destruct Hn as [Hn|Hn]; [by apply (slot_is_new p)|]. destruct Hwhich as [-> | ->]; simpl in Hph.
    - rewrite (proj2 Hph) in Hi. by apply (new_slot_unused fs0), elem_of_dom; exists i.
    - destruct Hph as (_ & n & Hl & [_ Hin]). rewrite Hin in Hi. simpl in Hi. rewrite lookup_insert_eq in Hi.
      injection Hi as ->. lia. }
  split; [done|]. exists i. rewrite <-(phase_inodes temp ph fs u Hph); [done| |done]. by destruct Hwhich as [-> | ->].
Qed.

Lemma displaced_leads now p u i :
  conflict_spec fs0 expected path = Ok tt → inodes fs0 !! u = Some i → (names fs0 !! p = Some u ∨ i_nlink i ≤ 0) →
  ∃ i', displaced now fs0 path !! u = Some i' ∧ i_data i' = i_data i ∧ inode_is_dir i' = inode_is_dir i ∧
    ((p ≠ path ∧ names fs0 !! p = Some u) ∨ i_nlink i' ≤ 0).
Proof.
  intros Hcheck Hi Hn. unfold displaced. destruct (lookup_path fs0 path) as [[w iw]|] eqn:Hl.
  - pose proof (displaced_link fs0 path expected Hok Hcheck _ _ Hl) as Hone.
    apply lookup_path_inode in Hl as [Hw Hiw]. destruct (decide (u = w)) as [->|Hu].
    + rewrite Hi in Hiw. injection Hiw as ->. rewrite lookup_insert_eq. eexists. split; [done|].
      split; [done|]. split; [done|]. right. cbn [i_nlink set_nlink]. lia.
    + rewrite lookup_insert_ne by done. exists i. do 3 (split; [done|]). destruct Hn as [Hn|]; [left|by right].
      split; [|done]. intros ->. congruence.
  - exists i. do 3 (split; [done|]). destruct Hn as [Hn|]; [left|by right]. split; [|done]. intros ->.
    apply lookup_absent in Hl; [congruence|apply Hok].
Qed.

Lemma published_leads temp fs p u i :
  in_phase temp Published fs → u ≠ v → inodes fs0 !! u = Some i → (names fs0 !! p = Some u ∨ i_nlink i ≤ 0) →
  leads p u i fs.
Proof.
  intros (Hcheck & now & n & _ & _ & ->) Hu Hi Hn.
  destruct (displaced_leads now p u i Hcheck Hi Hn) as (i' & Hi' & Hd & Hdir & Hn').
  exists i'. simpl. rewrite lookup_insert_ne by done. do 3 (split; [done|]).
  destruct Hn' as [[Hp Hn']|]; [left|by right]. by rewrite lookup_insert_ne.
Qed.

Lemma leads_trans p u i i0 fs :
  i_data i = i_data i0 → inode_is_dir i = inode_is_dir i0 → leads p u i fs → leads p u i0 fs.
Proof. intros Hd Hdir (j & Hj & Hdj & Hdirj & Hn). exists j. split_and!; [done|congruence..|done]. Qed.

Lemma phase_leads temp ph ph' b a p u i0 :
  in_phase temp ph b → in_phase temp ph' a → moves_on ph ph' → ¬ temporary p → leads p u i0 b → leads p u i0 a.
Proof.
  intros Hb Ha Hmove Hp Hleads.
  destruct (decide (ph = Linked)) as [->|Hnot].
  - inversion Hmove; subst. pose proof Hb as (_ & Hcheck & Hm & n & Hdata & Hfile & Hlink & [Hnames Hinodes]).
    destruct Hleads as (i & Hi & Hd & Hdir & Hn). destruct (decide (u = v)) as [->|Hu].
    + rewrite Hinodes in Hi. simpl in Hi. rewrite lookup_insert_eq in Hi. injection Hi as <-.
      destruct Ha as (_ & now & n' & Hdata' & Hfile' & ->). exists n'. simpl. rewrite lookup_insert_eq.
      split; [done|]. split; [congruence|]. split; [congruence|]. left. destruct Hn as [Hn|]; [|lia].
      destruct (decide (p = path)) as [->|Hne]; [by rewrite lookup_insert_eq|].
      rewrite (phase_names temp Linked b p Hb Hp) in Hn by done. by destruct (slot_is_new p).
    + apply (leads_trans p u i); [done..|]. rewrite (phase_inodes temp Linked b u Hb) in Hi by done.
      apply (published_leads temp); [done..|]. destruct Hn as [Hn|]; [|by right]. left.
      destruct (decide (p = path)) as [->|Hne]; [|by rewrite (phase_names temp Linked b p Hb Hp) in Hn].
      rewrite Hnames in Hn. simpl in Hn. rewrite lookup_insert_eq in Hn. congruence.
  - assert (ph = Before ∨ ph = Staged) as Hwhich by (inversion Hmove; subst; auto; done).
    destruct (leads_old _ _ _ _ _ _ Hb Hwhich Hp Hleads) as (Hu & i & Hi & Hd & Hdir & Hn).
    apply (leads_trans p u i); [done..|]. destruct (decide (ph' = Published)) as [->|Hnot'].
    { by eapply published_leads. }
    exists i. rewrite (phase_inodes _ _ _ _ Ha Hnot' Hu). do 3 (split; [done|]). destruct Hn as [Hn|]; [left|by right].
    rewrite (phase_names _ _ _ _ Ha Hp); [done|]. intros ->. split; [|done]. intros ->.
    destruct Ha as (_ & _ & Hm & _). congruence.
Qed.

(** *** Paths that lead somewhere *)
Lemma phase_stands temp ph ph' b a p x :
  in_phase temp ph b → in_phase temp ph' a → moves_on ph ph' → ¬ temporary p → p ≠ path ∨ ph' ≠ Published →
  lookup_path b p = Some x → lookup_path a p = Some x.
Proof.
  intros Hb Ha Hmove Hp Hwhich. destruct (decide (p = path)) as [->|Hne].
  - destruct Hwhich as [|Hwhich]; [done|].
    rewrite (phase_lookup _ _ _ _ Hb Hp) by (intros _; inversion Hmove; subst; done).
    destruct (decide (ph' = Linked)) as [->|Hnot].
    + destruct Ha as (_ & _ & Hm & _). unfold lookup_path at 1. by rewrite Hm.
    + by rewrite (phase_lookup _ _ _ _ Ha Hp) by (intros _; done).
  - by rewrite (phase_lookup _ _ _ _ Hb Hp), (phase_lookup _ _ _ _ Ha Hp) by done.
Qed.

(** *** Call by call *)
Context (Hpath : ¬ temporary path).

Definition unpublished (fs : FS) : Prop := ∃ temp ph, in_phase temp ph fs ∧ ph ≠ Published.

Lemma unpublished_equiv f g : f ≡ g → unpublished f → unpublished g.
Proof. intros Hfg (temp & ph & Hf & Hnot). exists temp, ph. by rewrite <-Hfg. Qed.

Lemma starts_unpublished : unpublished fs0.
Proof. by exists path, Before. Qed.

Lemma unpublished_shows fs : unpublished fs → shows temporary (entry fs0) fs.
Proof.
  intros (temp & ph & Hph & Hnot) p Hp. destruct (decide (p = path ∧ ph = Linked)) as [[-> ->]|Hne].
  - right. by eapply linked_blocked.
  - left. apply entry_lookup. symmetry. apply (phase_lookup _ _ _ _ Hph Hp). intros ->. split; [|done]. intros ->. by destruct Hne.
Qed.

(** The publication shows in the names. *)
Lemma published_names fs : names fs = <[path := v]> (names fs0) → ¬ unpublished fs.
Proof.
  intros Hn (temp & ph & Hph & Hnot). destruct (decide (ph = Linked)) as [->|Hlinked].
  - destruct Hph as ((Ht & _ & Hfree & _) & _ & _ & n & _ & _ & _ & [Hnames _]).
    assert (path ≠ temp) as Hne by (by intros ->).
    assert (names fs !! temp = Some v) as Htemp by (rewrite Hnames; simpl; rewrite lookup_insert_ne, lookup_insert_eq; done).
    rewrite Hn, lookup_insert_ne in Htemp by done. congruence.
  - apply (slot_is_new path). rewrite <-(phase_names _ _ _ _ Hph Hpath) by done. rewrite Hn. apply lookup_insert_eq.
Qed.

Lemma published_is_not fs : in_phase path Published fs → ¬ unpublished fs.
Proof. intros (_ & now & n & _ & _ & [Hn _]). by apply published_names. Qed.

Lemma published_touches fs : in_phase path Published fs → ¬ untouched fs0 fs.
Proof.
  intros (_ & now & n & _ & _ & [Hn _]) [Hsame _]. apply (slot_is_new path). rewrite <-Hsame, Hn. apply lookup_insert_eq.
Qed.

(** Every call keeps the paths; one call publishes. *)
Lemma call_unpublished b a :
  unpublished b → save_call fs0 path bytes expected b a →
  (keeps_paths temporary None b a ∧ unpublished a) ∨
  (keeps_paths temporary (Some path) b a ∧ in_phase path Published a).
Proof.
  intros Hb (temp & ph & ph' & Hph & Hph' & [[<- Hba]|Hmove]).
  - left. split; [by apply keeps_paths_equiv|by eapply unpublished_equiv].
  - destruct (decide (ph' = Published)) as [->|Hnot]; [right|left].
    + split; [|exact Hph']. intros p Hp. split; [intros u i0; by eapply phase_leads|].
      intros Hne x. eapply phase_stands; [done..|]. left. congruence.
    + split; [|by exists temp, ph']. intros p Hp. split; [intros u i0; by eapply phase_leads|].
      intros _ x. eapply phase_stands; [done..|]. by right.
Qed.

Lemma call_published b a : in_phase path Published b → save_call fs0 path bytes expected b a → b ≡ a.
Proof.
  intros Hb (temp & ph & ph' & Hph & Hph' & [[<- Hba]|Hmove]); [done|]. exfalso.
  apply (published_is_not b Hb). exists temp, ph. split; [done|]. intros ->. inversion Hmove.
Qed.
End sharing.
