(* ===== verification/Server.v ===== *)
(** * [main.rs]: the main loop and the worker pool

    The main loop reads requests, answers control requests itself and puts all others
    into a bounded queue, from which eight workers take them. The moves of the main
    loop and of the workers interleave freely ([pool_step]).

    The second half is about the one lock that the workers share: from what each of
    them does on its own ([Locking.v]) it follows that, whatever the interleaving, only
    the holder of the lock changes the file system. *)
From S2P Require Import Prelude MachineInt Text Json Kernel Files Reference RevisionTypes ReadPath WritePath Framing Exec FsHandlers Locking Requests.
Local Open Scope string_scope.
Local Open Scope list_scope.
Local Open Scope Z_scope.

Definition WRITER_QUEUE_CAPACITY : nat := 64.
Definition FS_WORKER_COUNT : nat := 8.
Definition FS_JOB_QUEUE_CAPACITY : nat := 64.

(** ** The main loop and the workers *)

Inductive Route (A : Type) := Skip | Inline (req : A) | Job (req : A).
Arguments Skip {A}.
Arguments Inline {A} req.
Arguments Job {A} req.

Section pool.
Context `{Json}.

(** What the main loop does with a payload: what does not parse is skipped. *)
Definition route (payload : list byte) : Route Value :=
  match from_slice payload with
  | None => Skip
  | Some req =>
      if bool_decide (str_or req "op" "" ∈ ["hello"; "watch"; "unwatch"]) then Inline req
      else Job req
  end.

(** [pending]: the payloads still to be read; [handled]: the control requests the main
    loop has handled; [queue]: the channel to the workers; [taken]: the jobs that left
    it, in this order; [running]: what each worker is at; [finished]: the jobs done. *)
Record Pool := mkPool {
  pending : list (list byte); handled : list Value; queue : list Value;
  taken : list Value; running : list (option Value); finished : list Value;
}.

Inductive pool_step : Pool → Pool → Prop :=
| main_skips p ps h q t r f :
    route p = Skip →
    pool_step (mkPool (p :: ps) h q t r f) (mkPool ps h q t r f)
| main_handles p ps h q t r f req :
    route p = Inline req →
    pool_step (mkPool (p :: ps) h q t r f) (mkPool ps (h ++ [req]) q t r f)
| main_submits p ps h q t r f req :
    route p = Job req → (length q < FS_JOB_QUEUE_CAPACITY)%nat →
    pool_step (mkPool (p :: ps) h q t r f) (mkPool ps h (q ++ [req]) t r f)
| worker_takes ps h req q t r f i :
    r !! i = Some None →
    pool_step (mkPool ps h (req :: q) t r f) (mkPool ps h q (t ++ [req]) (<[i := Some req]> r) f)
| worker_finishes ps h q t r f i req :
    r !! i = Some (Some req) →
    pool_step (mkPool ps h q t r f) (mkPool ps h q t (<[i := None]> r) (f ++ [req])).

Definition start (payloads : list (list byte)) : Pool :=
  mkPool payloads [] [] [] (replicate FS_WORKER_COUNT None) [].

Definition jobs (payloads : list (list byte)) : list Value :=
  omap (λ p, match route p with Job req => Some req | _ => None end) payloads.
Definition inline (payloads : list (list byte)) : list Value :=
  omap (λ p, match route p with Inline req => Some req | _ => None end) payloads.

(** ** The invariant *)

Definition at_work (p : Pool) : list Value := omap id (running p).

Record pool_ok (payloads : list (list byte)) (p : Pool) : Prop := {
  pool_bound : (length (queue p) ≤ FS_JOB_QUEUE_CAPACITY)%nat;
  pool_workers : length (running p) = FS_WORKER_COUNT;
  pool_order : taken p ++ queue p ++ jobs (pending p) = jobs payloads;
  pool_inline : handled p ++ inline (pending p) = inline payloads;
  pool_once : taken p ≡ₚ finished p ++ at_work p;
}.

Lemma omap_replicate_none {A} n : omap id (replicate n (@None A)) = [].
Proof. by induction n. Qed.

(** Setting a worker's slot. *)
Lemma omap_insert_none {A} (l : list (option A)) i x :
  l !! i = Some None → omap id (<[i := Some x]> l) ≡ₚ x :: omap id l.
Proof.
  revert i. induction l as [|y l IH]; intros [|i] Hi; simpl in *; try done.
  - by injection Hi as ->.
  - destruct y; simpl; [|by apply IH]. rewrite IH by done. constructor.
Qed.
Lemma omap_insert_some {A} (l : list (option A)) i x :
  l !! i = Some (Some x) → omap id l ≡ₚ x :: omap id (<[i := None]> l).
Proof.
  intros Hi. rewrite <-(omap_insert_none (<[i := None]> l) i x).
  - by rewrite list_insert_insert_eq, list_insert_id.
  - apply list_lookup_insert_eq. by eapply lookup_lt_Some.
Qed.

Lemma omap_shorter {A} (l : list (option A)) : (length (omap id l) ≤ length l)%nat.
Proof. induction l as [|[x|] l IH]; [done|by apply le_n_S|by apply le_S]. Qed.

Lemma start_ok payloads : pool_ok payloads (start payloads).
Proof.
  split; try done. unfold FS_JOB_QUEUE_CAPACITY. simpl. lia.
Qed.

Lemma pool_step_ok payloads p p' : pool_ok payloads p → pool_step p p' → pool_ok payloads p'.
Proof.
  intros [Hb Hw Ho Hi H1] Hstep.
  destruct Hstep as [p ps h q t r f Hr|p ps h q t r f req Hr|p ps h q t r f req Hr Hq
    |ps h req q t r f i Hr|ps h q t r f i req Hr]; unfold jobs, inline in *; cbn in *;
    rewrite ?Hr in *; split; unfold at_work, jobs, inline in *; cbn in *; try done.
  - by rewrite <-app_assoc.
  - rewrite length_app. simpl. lia.
  - by rewrite <-Ho, <-!app_assoc.
  - lia.
  - by rewrite length_insert.
  - by rewrite <-Ho, <-!app_assoc.
  - rewrite omap_insert_none by done. rewrite H1. solve_Permutation.
  - by rewrite length_insert.
  - rewrite H1, (omap_insert_some r i req) by done. solve_Permutation.
Qed.

(** ** Progress *)

(** Each payload takes at most three steps: in, taken, done. *)
Definition work (p : Pool) : nat :=
  3 * length (pending p) + 2 * length (queue p) + length (at_work p).

Lemma pool_step_work p p' : pool_step p p' → (work p' < work p)%nat.
Proof.
  intros Hstep. unfold work, at_work.
  destruct Hstep as [| | |ps h req q t r f i Hr|ps h q t r f i req Hr]; cbn;
    rewrite ?length_app; simpl; try lia.
  - rewrite (omap_insert_none r i req Hr). simpl. lia.
  - rewrite (omap_insert_some r i req Hr). simpl. lia.
Qed.

Lemma idle_worker (r : list (option Value)) :
  (∃ i, r !! i = Some None) ∨ length (omap id r) = length r.
Proof.
  induction r as [|[x|] r IH]; simpl; [by right| |left; by exists 0%nat].
  destruct IH as [[i Hi]|Hl]; [left; by exists (S i)|right; by f_equal].
Qed.
Lemma busy_worker (r : list (option Value)) :
  omap id r ≠ [] → ∃ i req, r !! i = Some (Some req).
Proof.
  induction r as [|[x|] r IH]; simpl; [done|intros _; by exists 0%nat, x|].
  intros Hr. destruct (IH Hr) as (i & req & Hi). by exists (S i), req.
Qed.

(** The server is never stuck while something is left to do. *)
Lemma pool_progress payloads p :
  pool_ok payloads p → (∀ p', ¬ pool_step p p') →
  pending p = [] ∧ queue p = [] ∧ at_work p = [].
Proof.
  intros [Hb Hw _ _ _] Hstuck. destruct p as [ps h q t r f]. unfold at_work. cbn in *.
  assert (omap id r = []) as Hidle.
  { destruct (decide (omap id r = [])) as [|Hne]; [done|]. exfalso.
    destruct (busy_worker r Hne) as (i & req & Hi). by eapply Hstuck, worker_finishes. }
  assert (q = []) as ->.
  { destruct q as [|req q]; [done|]. exfalso. destruct (idle_worker r) as [[i Hi]|Hl].
    - by eapply Hstuck, worker_takes.
    - rewrite Hidle, Hw in Hl. done. }
  split_and!; [|done..]. destruct ps as [|p ps]; [done|]. exfalso.
  destruct (route p) as [|req|req] eqn:Hr.
  - by eapply Hstuck, main_skips.
  - by eapply Hstuck, main_handles.
  - eapply Hstuck, main_submits; [done|]. unfold FS_JOB_QUEUE_CAPACITY. simpl. lia.
Qed.

Lemma pool_reachable payloads p : rtc pool_step (start payloads) p → pool_ok payloads p.
Proof.
  intros Hp. pose proof (start_ok payloads) as H0. revert H0.
  induction Hp as [|p p1 p2 Hstep _ IH]; [done|]. intros Hok. by apply IH, (pool_step_ok _ p).
Qed.
End pool.

(** ** Shutdown *)

(** At the end of the input the running commands are killed. *)
Definition shutdown (s : Session) : Session :=
  mkSession (world s) (channel s) (kill_registered_execs (procs s)) (trace s).

(** ** The lock among the workers *)

(** What the workers did, in the order in which it happened. *)
Abbreviation history := (list (nat * Event)).

(** The worker that holds the lock after some events. *)
Definition next_holder (owner : option nat) (e : nat * Event) : option nat :=
  match e.2 with
  | Acquired => Some e.1
  | Released => None
  | Called _ _ => owner
  end.
Definition holder (l : history) : option nat := foldl next_holder None l.

(** A mutex is given to one that asks only when no one has it. *)
Fixpoint mutual (owner : option nat) (l : history) : Prop :=
  match l with
  | [] => True
  | e :: l => (e.2 = Acquired → owner = None) ∧ mutual (next_holder owner e) l
  end.

(** The events of worker [i]. *)
Definition events_of (i : nat) (l : history) : list Event :=
  omap (λ e, if decide (e.1 = i) then Some e.2 else None) l.

(** Each worker is somewhere in the middle of a disciplined run, and thinks that it
    holds the lock exactly if it does. *)
Definition worker_ok (owner : option nat) (l : history) (i : nat) : Prop :=
  ∃ rest, disciplined (bool_decide (owner = Some i)) (events_of i l ++ rest).

(** One event later they still do. *)
Lemma workers_step owner j e l :
  mutual owner ((j, e) :: l) → (∀ i, worker_ok owner ((j, e) :: l) i) →
  mutual (next_holder owner (j, e)) l ∧ ∀ i, worker_ok (next_holder owner (j, e)) l i.
Proof.
  intros [Hacq Hmut] Hok. split; [exact Hmut|].
  intros k. destruct (Hok k) as [rest Hd]. exists rest. revert Hd. unfold events_of. simpl.
  destruct (Hok j) as [rest' Hj]. revert Hj. unfold events_of. simpl.
  rewrite decide_True by done. cbn [app].
  destruct (decide (j = k)) as [->|Hjk]; cbn [app]; intros Hj Hd.
  - destruct e as [| |a b]; cbn [disciplined next_holder fst snd] in *; destruct Hd as [H1 Hd].
    + by rewrite bool_decide_eq_true_2.
    + by rewrite bool_decide_eq_false_2.
    + exact Hd.
  - destruct e as [| |a b]; cbn [disciplined next_holder fst snd] in *; destruct Hj as [H1 _].
    + specialize (Hacq eq_refl) as ->. rewrite bool_decide_eq_false_2 in Hd by done.
      by rewrite bool_decide_eq_false_2 by congruence.
    + apply bool_decide_eq_true in H1 as ->. rewrite bool_decide_eq_false_2 in Hd by congruence.
      by rewrite bool_decide_eq_false_2.
    + exact Hd.
Qed.

(** Who does not hold the lock only looks. *)
Lemma outsider_looks owner j before after l :
  (∀ i, worker_ok owner ((j, Called before after) :: l) i) → owner ≠ Some j → after = before.
Proof.
  intros Hok Hne. destruct (Hok j) as [rest Hd]. revert Hd. unfold events_of. simpl.
  rewrite decide_True by done. cbn [app disciplined]. rewrite bool_decide_eq_false_2 by done. by intros [Hlook _]; apply Hlook.
Qed.

Lemma changes_need_lock owner l :
  mutual owner l → (∀ i, worker_ok owner l i) →
  ∀ l1 i before after l2, l = l1 ++ (i, Called before after) :: l2 → after ≠ before →
  foldl next_holder owner l1 = Some i.
Proof.
  revert owner. induction l as [|[j e] l IH]; intros owner Hmut Hok l1 i before after l2 Hl Hne;
    [by destruct l1|].
  destruct l1 as [|e1 l1].
  - injection Hl as -> -> _. destruct (decide (owner = Some i)); [done|]. exfalso.
    by eapply Hne, outsider_looks.
  - injection Hl as <- Hl. destruct (workers_step owner j e l Hmut Hok) as [Hmut' Hok'].
    by eapply (IH _ Hmut' Hok').
Qed.

Section handlings.
Context `{Directories, Json, Base64, Environment, Receiver, Processes}.

(** A request in the hands of a worker. What the workers share (the counter of temporary
    names, the queue of replies, the registry) is at that moment as the others have left
    it, and so is the host: a request has a session and a view of the host of its own. *)
Record Handling := mkHandling { host_of : Kernel; session_of : Session; request_of : Value }.

Definition session_after (h : Handling) : Session :=
  (handle_fs (H := host_of h) (request_of h) (session_of h)).2.

(** What the worker does for it. *)
Definition done_for (h : Handling) : list Event :=
  drop (length (trace (session_of h))) (trace (session_after h)).

Lemma done_for_eq h l : trace (session_after h) = trace (session_of h) ++ l → done_for h = l.
Proof. unfold done_for. intros ->. by rewrite drop_app_length. Qed.

Lemma done_disciplined h : disciplined false (done_for h).
Proof.
  destruct (free_handle_fs (H := host_of h) (request_of h) (session_of h)) as (l & Hl & Hd).
  by rewrite (done_for_eq h l Hl).
Qed.

(** A worker that handles requests one after the other is one of these. *)
Lemma handling_ok l i handlings :
  events_of i l `prefix_of` concat (done_for <$> handlings) → worker_ok None l i.
Proof.
  intros (rest & Hrest). exists rest. rewrite bool_decide_eq_false_2, <-Hrest by done. clear Hrest.
  induction handlings as [|h handlings IH]; simpl; [done|]. apply disciplined_app; [apply done_disciplined|done].
Qed.
End handlings.

(** ** Properties *)

(** No request is lost, repeated or overtaken. However the main loop and the workers
    interleave: at most 64 jobs wait and 8 run; jobs start in the order in which they
    were sent; each that was sent is waiting, running or done exactly once; control
    requests are handled in their order; and the server comes to rest, after at most
    three moves for each request, only when every job is done. *)
Lemma pool_runs_every_job `{Json} payloads p :
  rtc pool_step (start payloads) p →
  (length (queue p) ≤ FS_JOB_QUEUE_CAPACITY)%nat ∧ (length (at_work p) ≤ FS_WORKER_COUNT)%nat ∧
  taken p ++ queue p ++ jobs (pending p) = jobs payloads ∧
  handled p ++ inline (pending p) = inline payloads ∧
  taken p ≡ₚ finished p ++ at_work p ∧
  (∀ n p', nsteps pool_step n (start payloads) p' → (n ≤ 3 * length payloads)%nat) ∧
  ((∀ p', ¬ pool_step p p') → finished p ≡ₚ jobs payloads ∧ handled p = inline payloads).
Proof.
  intros Hp. pose proof (pool_reachable payloads p Hp) as Hok. pose proof Hok as [Hb Hw Ho Hi H1].
  split_and!; try done.
  - rewrite <-Hw. apply omap_shorter.
  - intros n p' Hn. enough (n + work p' ≤ work (start payloads))%nat as Hle.
    { unfold work, at_work in Hle. simpl in Hle. lia. }
    clear -Hn. induction Hn as [|n x y z Hxy _ IH]; [done|]. apply pool_step_work in Hxy. lia.
  - intros Hstuck. destruct (pool_progress payloads p Hok Hstuck) as (Hpend & Hq & Hwork).
    rewrite Hpend, Hq in *. simpl in Ho. rewrite app_nil_r in Ho. rewrite <-Ho, H1, Hwork, app_nil_r.
    split; [done|]. simpl in Hi. by rewrite app_nil_r in Hi.
Qed.

(** C9: the workers never mix their changes. Several workers run the handler on one
    request after the other; their steps interleave in any way a mutex allows. Then every call that changes the file system is made by the worker that
    holds the lock at that moment: between the first check of a conditional write and its
    publication no other worker changes anything. *)
Theorem changes_are_exclusive `{Directories, Json, Base64, Environment, Receiver, Processes}
    (history : list (nat * Event)) (handlings : nat → list Handling) :
  mutual None history →
  (∀ i, events_of i history `prefix_of` concat (done_for <$> handlings i)) →
  ∀ l1 i before after l2,
    history = l1 ++ (i, Called before after) :: l2 → after ≠ before → holder l1 = Some i.
Proof.
  intros Hmut Hworkers. apply changes_need_lock; [done|]. intros i. by eapply handling_ok.
Qed.

(** ** Witnesses *)

(** A job and a payload that does not parse; the job is done while the other payload
    is still unread. *)
Lemma pool_runs_every_job_witness :
  let payloads := [ascii_bytes "null"; ascii_bytes "?"] in
  let p := mkPool [] [] [] [null] (<[3%nat := None]> (<[3%nat := Some null]>
             (replicate FS_WORKER_COUNT None))) [null] in
  rtc pool_step (start payloads) p ∧
  (length (queue p) ≤ FS_JOB_QUEUE_CAPACITY)%nat ∧ taken p ++ queue p ++ jobs (pending p) = [null].
Proof.
  intros payloads p. assert (rtc pool_step (start payloads) p) as Hrun.
  { eapply rtc_l; [apply main_submits; [reflexivity|unfold FS_JOB_QUEUE_CAPACITY; simpl; lia]|].
    eapply rtc_l; [by apply (worker_takes _ _ _ _ _ _ _ 3)|].
    eapply rtc_l; [by apply (worker_finishes _ _ _ _ _ _ 3 null)|].
    eapply rtc_l; [by apply main_skips|]. apply rtc_refl. }
  split; [exact Hrun|]. destruct (pool_runs_every_job payloads p Hrun) as (H1 & _ & H2 & _).
  split; [exact H1|exact H2].
Defined.

Section lock_witness.
#[local] Existing Instances quiet_kernel plain_directories no_home connected steady_clock.

Definition deleting : Handling := mkHandling quiet_kernel sample_session (request "delete" "/d/note" []).
Definition stating : Handling := mkHandling quiet_kernel sample_session (request "stat" "/d" []).

(** While one worker holds the lock, another one looks. *)
Lemma changes_are_exclusive_witness :
  let history := (pair 0%nat <$> take 1 (done_for deleting)) ++ (pair 1%nat <$> done_for stating)
                   ++ (pair 0%nat <$> drop 1 (done_for deleting)) in
  length history = 4%nat ∧
  ∀ l1 i before after l2,
    history = l1 ++ (i, Called before after) :: l2 → after ≠ before → holder l1 = Some i.
Proof.
  cbn zeta. split; [vm_compute; reflexivity|].
  apply changes_are_exclusive with (handlings := λ i, match i with O => [deleting] | 1%nat => [stating] | _ => [] end).
  - vm_compute. repeat split; done.
  - intros [|[|i]]; exists []; vm_compute; reflexivity.
Defined.
End lock_witness.
