(* ===== verification/Concurrent.v ===== *)
(** * Concurrent saves, one after the other

    Several workers handle requests; the mutex orders their critical sections; no process
    other than the server is at work. Each save then takes effect as one atomic step of
    the store of [Store.v], between the moment at which its worker gets the lock and the
    moment at which it gives it back, whatever the other workers do meanwhile:
    linearizability of the conditional writes.

    The parts come together here: the lock among the workers ([Server.v]), runs that no
    one disturbs ([Isolation.v]), and the store ([Store.v]). *)
From S2P Require Import Prelude MachineInt Text Json Kernel Files Reference RevisionTypes ReadPath WritePath WriteSafety WriteSpec WriteAlone Framing Exec FsHandlers Locking Requests Saving Isolation Store Server.
Local Open Scope string_scope.
Local Open Scope list_scope.
Local Open Scope Z_scope.
Local Set Warnings "-clear-no-such-hyp".

(** ** One file system among the workers *)

(** The calls of all workers take the file system from [f] to [g], with nothing but
    time in between. *)
Fixpoint chained (f : FS) (l : history) (g : FS) : Prop :=
  match l with
  | [] => f = g
  | (_, Called before after) :: l => before ≡ f ∧ chained after l g
  | _ :: l => chained f l g
  end.

Lemma chained_end f l g h : chained f l g → chained f l h → g = h.
Proof.
  revert f. induction l as [|[i [| |b a]] l IH]; intros f; simpl; [by intros -> ->|apply IH..|].
  intros [_ Hg] [_ Hh]. by eapply IH.
Qed.

#[export] Instance FS_equiv_dec : RelDecision (≡@{FS}).
Proof. intros f g. unfold equiv, FS_equiv. apply _. Defined.
#[export] Instance Event_eq_dec : EqDecision Event.
Proof. solve_decision. Defined.
#[export] Instance mutual_dec owner l : Decision (mutual owner l).
Proof. revert owner. induction l as [|e l IH]; intros owner; simpl; [apply _|]. apply and_dec; [apply _|apply IH]. Defined.
#[export] Instance chained_dec f l g : Decision (chained f l g).
Proof.
  revert f. induction l as [|[i [| |b a]] l IH]; intros f; simpl; [apply _|apply IH..|].
  apply and_dec; [apply _|apply IH].
Defined.

Lemma chained_app f l l' g : chained f (l ++ l') g ↔ ∃ h, chained f l h ∧ chained h l' g.
Proof.
  revert f. induction l as [|[i [| |b a]] l IH]; intros f; simpl; [|apply IH..|].
  - split; [eauto|]. by intros (h & -> & Hl).
  - rewrite IH. naive_solver.
Qed.

(** The events of one worker. *)
Lemma events_of_cons i j x l : events_of i ((j, x) :: l) = if decide (j = i) then x :: events_of i l else events_of i l.
Proof. unfold events_of. simpl. by destruct (decide (j = i)). Qed.
Lemma events_of_app i l l' : events_of i (l ++ l') = events_of i l ++ events_of i l'.
Proof. apply omap_app. Qed.

(** Where an event of a worker is in the history. *)
Lemma find_event i l pre e rest :
  events_of i l = pre ++ e :: rest →
  ∃ l1 l2, l = l1 ++ (i, e) :: l2 ∧ events_of i l1 = pre ∧ events_of i l2 = rest.
Proof.
  revert pre. induction l as [|[j x] l IH]; intros pre; [by destruct pre|].
  rewrite events_of_cons. case_decide as Hj.
  - subst j. destruct pre as [|y pre]; simpl.
    + intros [= -> Hl]. by exists [], l.
    + intros [= -> Hl]. destruct (IH pre Hl) as (l1 & l2 & -> & H1 & H2). exists ((i, y) :: l1), l2.
      by rewrite events_of_cons, decide_True, H1 by done.
  - intros Hl. destruct (IH pre Hl) as (l1 & l2 & -> & H1 & H2). exists ((j, x) :: l1), l2.
    by rewrite events_of_cons, decide_False by done.
Qed.

Lemma workers_app owner l l' :
  mutual owner (l ++ l') → (∀ i, worker_ok owner (l ++ l') i) →
  mutual (foldl next_holder owner l) l' ∧ ∀ i, worker_ok (foldl next_holder owner l) l' i.
Proof.
  revert owner. induction l as [|[j e] l IH]; intros owner Hmut Hok; [done|].
  destruct (workers_step owner j e (l ++ l') Hmut Hok) as [Hmut' Hok']. by apply IH.
Qed.

(** While a worker is in its critical section only time passes between its calls; the
    others look. *)
Lemma critical_section i cs rest l f e :
  mutual (Some i) l → (∀ j, worker_ok (Some i) l j) → chained f l e →
  events_of i l = (called <$> cs) ++ Released :: rest →
  ∃ l1 l2 g g', l = l1 ++ (i, Released) :: l2 ∧ g' ≡ g ∧ chain f cs g' ∧ chained f l1 g ∧
    events_of i l1 = called <$> cs ∧ Forall (λ x, x.1 ≠ i → is_look x.2) l1.
Proof.
  revert f cs. induction l as [|[j x] l IH]; intros f cs Hmut Hok Hf Hev.
  { by destruct cs. }
  destruct (workers_step _ _ _ _ Hmut Hok) as [Hmut' Hok'].
  rewrite events_of_cons in Hev. destruct (decide (j = i)) as [->|Hj].
  - simpl in Hev. destruct cs as [|[b a] cs]; simpl in Hev.
    + injection Hev as -> _. by exists [], l, f, f.
    + injection Hev as Hx Hev. unfold called in Hx. cbn [fst snd] in Hx. subst x. destruct Hf as [Hb Hf].
      destruct (IH a cs Hmut' Hok' Hf Hev) as (l1 & l2 & g & g' & -> & Hg' & Hc & Hg & Hown & Hlooks).
      exists ((i, Called b a) :: l1), l2, g, g'. rewrite events_of_cons, decide_True, Hown by done.
      split_and!; [done..|]. by constructor.
  - assert (∃ f1, next_holder (Some i) (j, x) = Some i ∧ f1 ≡ f ∧ chained f1 l e ∧ is_look x ∧
      ∀ l1 g, chained f1 l1 g → chained f ((j, x) :: l1) g) as (f1 & Hstay & Hf1 & Hf' & Hlook & Hback).
    { destruct x as [| |b a].
      - destruct Hmut as [Hacq _]. by specialize (Hacq eq_refl).
      - destruct (Hok j) as [rest' Hd]. rewrite events_of_cons, decide_True in Hd by done.
        destruct Hd as [Hd _]. apply bool_decide_eq_true in Hd. congruence.
      - assert (a = b) as -> by (eapply outsider_looks; [exact Hok|congruence]). destruct Hf as [Hb Hf].
        exists b. by split_and!. }
    rewrite Hstay in Hmut', Hok'.
    destruct (IH f1 cs Hmut' Hok' Hf' Hev) as (l1 & l2 & g & g' & -> & Hg' & Hc & Hg & Hown & Hlooks).
    destruct (chain_equiv f1 f cs g' ltac:(by symmetry) Hc) as (g2 & Hg2 & Hc2).
    exists ((j, x) :: l1), l2, g, g2. rewrite events_of_cons, decide_False by done.
    split_and!; [done|by rewrite Hg2|done|by apply Hback|done|by constructor].
Qed.

(** ** A save alone *)
Section saving.
Context `{Directories, JsonLaws, Base64Laws, Environment, !Receiver, Processes}.

(** The trace of a save: the lock, the calls of the conditional write, the lock. *)
Definition calls_of (path : Path) (bytes : list byte) (expected : ExpectedRevision) (h : Handling)
    (l : list (FS * FS)) : Prop :=
  run_log (host_of h) (world (session_of h))
    (conditional_write_locked (H := host_of h) path bytes expected (world (session_of h))).2 l.

Lemma done_for_save path bytes expected h :
  asks (Save path bytes expected) (request_of h) →
  ∃ l, done_for h = Acquired :: (called <$> l) ++ [Released] ∧ calls_of path bytes expected h l.
Proof.
  intros Hask. destruct h as [K s req]. cbn [request_of] in Hask.
  destruct (handle_asked path bytes expected req s Hask) as (_ & _ & _ & Ht).
  destruct (isolated_conditional_write K path bytes expected (world s)) as (l & Hlog & _).
  exists l. split; [|exact Hlog]. apply done_for_eq. cbn [session_of]. unfold session_after. cbn [host_of session_of request_of].
  rewrite Ht. unfold new_calls. pose proof (run_calls _ _ _ _ Hlog) as Hl. cbn [log_of housed_world] in Hl.
  by rewrite Hl, drop_app_length.
Qed.

(** A save whose calls follow one another from [f] to [g]: its reply and the way from [f]
    to [g] are a step of the store; each call moves within the phases of a save. *)
Record save_outcome (h : Handling) (path : Path) (bytes : list byte) (expected : ExpectedRevision)
    (f : FS) (l : list (FS * FS)) (g : FS) (reply : Value) (answer : Answer) : Prop := {
  outcome_sent : channel (session_after h) = send reply (channel (session_of h));
  outcome_answer : answer_of reply = Some answer;
  outcome_step σ : same_store (entry g) σ → store_step (entry f) (Save path bytes expected) answer σ;
  outcome_host : host_ok g;
  outcome_calls : Forall (λ e, save_call (H := host_of h) f path bytes expected e.1 e.2) l;
  outcome_granted rev : answer = Saved rev →
    ∃ now n, g ≡ published now f path (new_slot f) n;
  outcome_refused : (∀ rev, answer ≠ Saved rev) → untouched f g;
}.

Lemma undisturbed_save h path bytes expected f g l :
  Faultless (H := host_of h) → FreshInodes (H := host_of h) → SaneClock (H := host_of h) →
  host_ok f → addressable (H := host_of h) f →
  asks (Save path bytes expected) (request_of h) → ordinary (H := host_of h) (Save path bytes expected) →
  calls_of path bytes expected h l → chain f l g →
  ∃ reply answer, save_outcome h path bytes expected f l g reply answer.
Proof.
  destruct h as [K s req]. unfold calls_of. cbn [host_of session_of request_of].
  intros Hfault Hfresh Hclock Hok Haddr Hask [[dir Hparent] Htemp] Hl Hchain.
  destruct (handle_asked path bytes expected req s Hask) as (Hwell & _ & Hc & _).
  change (handle_fs req s).2 with (session_after (mkHandling K s req)) in Hc. unfold finish_revision in Hc.
  set (m := conditional_write_locked path bytes expected) in *. set (w := world s) in *.
  destruct (isolated_conditional_write K path bytes expected w) as (l' & Hl' & Hrun). fold m in Hl', Hrun.
  assert (l' = l) as ->.
  { pose proof (run_calls _ _ _ _ Hl') as Hcalls. rewrite (run_calls _ _ _ _ Hl) in Hcalls. by apply app_inv_head in Hcalls. }
  set (T := schedule (w_step w) l (clock (env 0 f))).
  assert (SaneClock (H := quieted T K)) as Hsane.
  { intros t (n & ->)%quieted_shown. apply sane_clock. unfold T, schedule.
    destruct (l !! _) as [e|] eqn:He; [|by do 2 eexists].
    pose proof (run_shown _ _ _ _ Hl) as Hs. by eapply Forall_lookup_1 in Hs. }
  specialize (Hrun _ f g (chain_follows (w_step w) f l g (clock (env 0 f)) Hchain)).
  change (with_env _ K) with (quieted T K) in Hrun.
  assert (wf_fs (w_fs (settle f w))) as Hwf by exact (host_names _ Hok).
  destruct (wp_write_alone (H := quieted T K) path dir bytes expected (settle f w) Hwf Hparent Htemp) as ((l' & Hlog & Hcalls) & _).
  destruct (write_computes (H := quieted T K) path dir bytes expected (settle f w) Hwf Hparent Htemp) as (ts & Hts & Hw).
  pose proof (save_step (H := quieted T K) f ts (w_temp w) dir path bytes expected Hok Haddr Hwell Hts) as Hstep.
  cbn beta in Hrun. rewrite Hrun in Hlog, Hw. cbn [fst snd] in Hlog, Hw.
  change (w_log (settle g (m w).2)) with (log_of (m w).2) in Hlog. change (w_log (settle f w)) with (log_of w) in Hlog.
  rewrite (run_calls _ _ _ _ Hl) in Hlog. apply app_inv_head in Hlog as <-.
  change (w_fs (settle f w)) with f in Hw, Hcalls. change (w_temp (settle f w)) with (w_temp w) in Hw.
  change (w_fs (settle g (m w).2)) with g in Hw.
  destruct (write_spec (H := quieted T K) f ts (w_temp w) dir path bytes expected) as [cw|e]; destruct Hw as [Hr Hg];
    rewrite Hr in Hc; cbn [result_map] in Hc.
  - destruct Hstep as ([Ht Hv] & Hok' & Hstep).
    exists (finish_revision_value (request_id req) (Ok (saved_value cw))), (Saved (saved_revision cw)).
    split; [exact Hc|by destruct cw; apply answer_saved| |by rewrite Hg|exact Hcalls| |].
    + intros σ Hσ. apply Hstep. intros p. rewrite Hσ. by apply entry_equiv.
    + intros rev _. do 2 eexists. exact Hg.
    + intros Hno. by destruct (Hno (saved_revision cw)).
  - destruct Hstep as (Hcar & Hstep). destruct (host_ok_untouched _ _ Hok Hg) as [Hok' Hsame].
    exists (finish_revision_value (request_id req) (Err e)), (error_answer e).
    split; [exact Hc|by apply answer_error| |done|exact Hcalls| |done].
    + intros σ Hσ. apply Hstep. intros p. by rewrite Hσ, Hsame.
    + intros rev. destruct e; discriminate.
Qed.
End saving.

(** ** Property *)

(** C4: concurrent saves are linearizable. Several workers handle requests of any kind;
    their steps interleave in any way the mutex allows; apart from them nothing but time
    changes the file system, and no call of the save at hand fails. Then a save takes
    effect at once: with [f] the file system at which its worker gets the lock and [g] the
    one at which it gives it back, its reply and the way from [f] to [g] are those of a
    single step of the compare-and-swap store, whatever the other workers do in between. *)
Theorem saves_are_linearizable `{Directories, JsonLaws, Base64Laws, Environment, !Receiver, Processes}
    (history : list (nat * Event)) (handlings : nat → list Handling) (start end_ : FS) :
  mutual None history → chained start history end_ →
  (∀ i, events_of i history `prefix_of` concat (done_for <$> handlings i)) →
  ∀ i earlier h later path bytes expected,
    handlings i = earlier ++ h :: later →
    concat (done_for <$> earlier) ++ done_for h `prefix_of` events_of i history →
    Faultless (H := host_of h) → FreshInodes (H := host_of h) → SaneClock (H := host_of h) →
    asks (Save path bytes expected) (request_of h) → ordinary (H := host_of h) (Save path bytes expected) →
    (∀ l1 l2 f, history = l1 ++ (i, Acquired) :: l2 → events_of i l1 = concat (done_for <$> earlier) →
       chained start l1 f → host_ok f ∧ addressable (H := host_of h) f) →
    ∃ l1 l2 l3 f g reply answer,
      history = l1 ++ (i, Acquired) :: l2 ++ (i, Released) :: l3 ∧
      events_of i l1 = concat (done_for <$> earlier) ∧
      chained start l1 f ∧ chained f l2 g ∧
      channel (session_after h) = send reply (channel (session_of h)) ∧ answer_of reply = Some answer ∧
      store_step (entry f) (Save path bytes expected) answer (entry g).
Proof.
  intros Hmut Hchained Hworkers i earlier h later path bytes expected _ [post Hpre] Hfault Hfresh Hsane Hask Hord Hhost.
  destruct (done_for_save path bytes expected h Hask) as (cs & Hdone & Hcs).
  rewrite Hdone, <-!app_assoc in Hpre. cbn [app] in Hpre. rewrite <-app_assoc in Hpre. cbn [app] in Hpre.
  destruct (find_event _ _ _ _ _ Hpre) as (l1 & l2 & Hl & Hl1 & Hl2).
  assert (∀ j, worker_ok None history j) as Hok by (intros j; by eapply handling_ok).
  rewrite Hl in Hmut, Hchained, Hok. apply chained_app in Hchained as (f & Hf & Hrest).
  destruct (workers_app _ _ _ Hmut Hok) as [Hmut1 Hok1].
  destruct (workers_step _ _ _ _ Hmut1 Hok1) as [Hmut2 Hok2].
  destruct (critical_section i cs post l2 f end_ Hmut2 Hok2 Hrest Hl2) as (l2' & l3 & g & g' & -> & Hg' & Hchain & Hg & _).
  destruct (Hhost l1 _ f Hl Hl1 Hf) as [Hhostok Haddr].
  destruct (undisturbed_save h path bytes expected f g' cs Hfault Hfresh Hsane Hhostok Haddr Hask Hord Hcs Hchain)
    as (reply & answer & Hout).
  exists l1, l2', l3, f, g, reply, answer. split; [exact Hl|]. split; [exact Hl1|]. split; [exact Hf|]. split; [exact Hg|].
  split; [by eapply outcome_sent|]. split; [by eapply outcome_answer|]. eapply outcome_step; [exact Hout|].
  intros p. symmetry. by apply entry_equiv.
Qed.

(** ** Witness *)

Lemma events_of_own i l : events_of i (pair i <$> l) = l.
Proof. induction l as [|e l IH]; [done|]. unfold events_of in *. simpl. rewrite decide_True by done. simpl. by f_equal. Qed.
Lemma events_of_other i j l : i ≠ j → events_of j (pair i <$> l) = [].
Proof. intros Hij. induction l as [|e l IH]; [done|]. unfold events_of in *. simpl. by rewrite decide_False. Qed.

(** Where the second of two workers gets the lock. *)
Lemma second_section (i j : nat) l l' l1 l2 :
  i ≠ j → (pair i <$> l) ++ (pair j <$> Acquired :: l') = l1 ++ (j, Acquired) :: l2 →
  events_of j l1 = [] → l1 = pair i <$> l.
Proof.
  intros Hij. revert l1. induction l as [|e l IH]; intros [|x l1] Hl Hev; simpl in *; try done.
  - injection Hl as <- _. unfold events_of in Hev. simpl in Hev. by rewrite decide_True in Hev.
  - injection Hl as Hi _. done.
  - injection Hl as <- Hl. f_equal. apply IH; [exact Hl|]. unfold events_of in *. simpl in Hev.
    by rewrite decide_False in Hev.
Qed.

Section witness.
#[local] Existing Instances plain_directories no_home connected steady_clock.

(** Two workers save the note; both expect the revision that they have read. *)
Definition first_handling : Handling :=
  mkHandling quiet_kernel sample_session (save_request "mine" (to_value note_revision)).
Definition first_save : Session := session_after first_handling.
Definition second_host : Kernel :=
  scripted (λ n fs, at_time (second n) (if decide (n = 0%nat) then w_fs (world first_save) else fs)) (λ _, None).
Definition second_handling : Handling :=
  mkHandling second_host sample_session (save_request "yours" (to_value note_revision)).
Definition second_save : Session := session_after second_handling.
Definition both : history := (pair 0%nat <$> done_for first_handling) ++ (pair 1%nat <$> done_for second_handling).

Lemma second_host_faultless : Faultless (H := second_host).
Proof. intros n. reflexivity. Qed.
Lemma second_host_sane : SaneClock (H := second_host).
Proof. exact (seconds_sane (λ n fs, if decide (n = 0%nat) then w_fs (world first_save) else fs) (λ _, None)). Qed.
Lemma second_host_addressable fs :
  (0 <=? next_ino fs) && (next_ino fs <? 2 ^ 64) = true → addressable (H := second_host) fs.
Proof. apply scripted_addressable. Qed.

Lemma first_save_ok : host_ok (w_fs (world first_save)).
Proof.
  apply (request_is_step (H := quiet_kernel) (Save note (into_bytes "mine") (ExpPresent note_revision))).
  - apply (sample_at_ok (30, 7)).
  - apply (asks_save "/d/note" (to_value note_revision)); [apply save_request_saves|]. vm_compute. reflexivity.
  - split; [by eexists|by apply (ordinary_not_temporary (H := quiet_kernel))].
  - apply scripted_addressable. vm_compute. reflexivity.
Qed.

Lemma first_save_addressable : addressable (H := second_host) (w_fs (world first_save)).
Proof. apply second_host_addressable. vm_compute. reflexivity. Qed.
Lemma second_save_starts : ∃ rest, done_for second_handling = Acquired :: rest.
Proof.
  assert (head (done_for second_handling) = Some Acquired) as Hhead by (vm_compute; reflexivity).
  destruct (done_for second_handling) as [|e rest]; [discriminate Hhead|]. injection Hhead as ->. by exists rest.
Qed.
Lemma note_ordinary K bytes expected : ordinary (H := K) (Save note bytes expected).
Proof. split; [by eexists|by apply ordinary_not_temporary]. Qed.
Lemma both_mutual : mutual None both.
Proof. apply (@bool_decide_unpack _ (mutual_dec None both)). vm_compute. exact I. Qed.
Lemma both_chained : chained sample_fs both (w_fs (world second_save)).
Proof. apply (@bool_decide_unpack _ (chained_dec _ _ _)). vm_compute. exact I. Qed.
Lemma first_chained : chained sample_fs (pair 0%nat <$> done_for first_handling) (w_fs (world first_save)).
Proof. apply (@bool_decide_unpack _ (chained_dec _ _ _)). vm_compute. exact I. Qed.

#[local] Opaque session_after done_for second_handling.
Lemma saves_are_linearizable_witness :
  content (w_fs (world (session_after second_handling))) note = Some (into_bytes "mine") ∧
  ∃ l1 l2 l3 f g reply answer,
    both = l1 ++ (1%nat, Acquired) :: l2 ++ (1%nat, Released) :: l3 ∧ events_of 1 l1 = [] ∧
    chained sample_fs l1 f ∧ chained f l2 g ∧
    channel (session_after second_handling) = send reply (channel (session_of second_handling)) ∧ answer_of reply = Some answer ∧
    store_step (entry f) (Save note (into_bytes "yours") (ExpPresent note_revision)) answer (entry g).
Proof.
  split; [vm_compute; reflexivity|].
  assert (events_of 0 both = done_for first_handling ∧ events_of 1 both = done_for second_handling) as [Hfirst Hsecond].
  { unfold both. rewrite !events_of_app, !events_of_own, !events_of_other by done. by rewrite app_nil_r. }
  apply (saves_are_linearizable both (λ i, match i with O => [first_handling] | 1%nat => [second_handling] | _ => [] end)
    sample_fs (w_fs (world second_save))) with (i := 1%nat) (earlier := []) (h := second_handling) (later := []).
  - exact both_mutual.
  - exact both_chained.
  - intros [|[|i]].
    + rewrite Hfirst. cbn. by rewrite app_nil_r.
    + rewrite Hsecond. cbn. by rewrite app_nil_r.
    + unfold both. rewrite events_of_app, !events_of_other by done. reflexivity.
  - reflexivity.
  - by rewrite Hsecond.
  - exact second_host_faultless.
  - apply (scripted_fresh (λ n fs, at_time (second n) (if decide (n = 0%nat) then w_fs (world first_save) else fs)) (λ _, None)).
  - exact second_host_sane.
  - apply (asks_save "/d/note" (to_value note_revision)); [apply save_request_saves|]. vm_compute. reflexivity.
  - apply note_ordinary.
  - intros l1 l2 f Hl Hl1 Hf.
    destruct second_save_starts as [rest Hrest].
    assert (l1 = pair 0%nat <$> done_for first_handling) as ->.
    { apply (second_section 0 1 _ rest _ l2); [done| |exact Hl1]. by rewrite <-Hrest. }
    rewrite (chained_end _ _ _ _ Hf first_chained). split; [apply first_save_ok|exact first_save_addressable].
Defined.
End witness.
