(* ===== verification/Linear.v ===== *)
(** * Reading and saving among the workers

    Several workers read and save at the same time, through one file system. Saves hold
    the lock; reads do not, and go on while a save prepares and publishes its file. Still
    the server is the compare-and-swap store of [Store.v]: in every interleaving each
    request takes effect at one of its own calls, with the reply that its client gets.
    Only a read whose file is replaced while it is at work may be refused for no other
    reason (the link count of the file that it had opened has gone to zero).

    A history of events is marked with the effects ([marked]): a save's at the call that
    publishes, or when it gets the lock if it is refused; a read's at its last call. *)
From S2P Require Import Prelude MachineInt Text Json Kernel Files Reference RevisionTypes ReadPath WritePath WriteSafety WriteSpec WriteAlone Framing Exec FsHandlers Locking Requests Saving Isolation Store Sharing Server Concurrent.
Local Open Scope string_scope.
Local Open Scope list_scope.
Local Open Scope Z_scope.
Local Set Warnings "-clear-no-such-hyp".

(** ** Marked histories *)

(** What a request does to the store, and is told. *)
Definition Effect : Type := Command * Answer.
Definition marked : Type := list ((nat * Event) * option Effect).

(** The part of worker [i]; the effects, in their order. *)
Definition own (i : nat) (M : marked) : list (Event * option Effect) :=
  omap (λ x : (nat * Event) * option Effect, if decide (x.1.1 = i) then Some (x.1.2, x.2) else None) M.
Definition marks {A} (l : list (A * option Effect)) : list Effect := omap snd l.

(** Events without a mark. *)
Definition plain {A} (l : list A) : list (A * option Effect) := (λ e, (e, None)) <$> l.

Definition saved_path (m : option Effect) : option Path :=
  match m with Some (Save path _ _, Saved _) => Some path | _ => None end.

(** A save of [path] is granted in [S]. *)
Definition overtaken (path : Path) (S : marked) : Prop := ∃ x, x ∈ S ∧ saved_path x.2 = Some path.

Lemma own_cons i j e m M : own i (((j, e), m) :: M) = if decide (j = i) then (e, m) :: own i M else own i M.
Proof. unfold own. simpl. by destruct (decide (j = i)). Qed.
Lemma own_app i M M' : own i (M ++ M') = own i M ++ own i M'.
Proof. apply omap_app. Qed.
Lemma own_events i M : (own i M).*1 = events_of i M.*1.
Proof.
  induction M as [|[[j e] m] M IH]; [done|]. rewrite fmap_cons. cbn [fst]. rewrite own_cons, events_of_cons.
  destruct (decide (j = i)); [rewrite fmap_cons; cbn [fst]; by f_equal|exact IH].
Qed.
Lemma marks_app {A} (l l' : list (A * option Effect)) : marks (l ++ l') = marks l ++ marks l'.
Proof. apply omap_app. Qed.
Lemma marks_plain {A} (l : list A) : marks (plain l) = [].
Proof. by induction l. Qed.
Lemma plain_events {A} (l : list A) : (plain l).*1 = l.
Proof. unfold plain. rewrite <-list_fmap_compose. apply list_fmap_id. Qed.
Lemma own_plain i l : own i (plain l) = plain (events_of i l).
Proof.
  induction l as [|[j e] l IH]; [done|]. unfold plain in *. rewrite fmap_cons, own_cons, events_of_cons, IH.
  by destruct (decide (j = i)).
Qed.

Lemma own_enclosed i j e e' m M :
  own i (((j, e), m) :: M ++ [((j, e'), None)]) = if decide (j = i) then (e, m) :: own i M ++ [(e', None)] else own i M.
Proof. rewrite own_cons, own_app, own_cons. destruct (decide (j = i)); [done|apply app_nil_r]. Qed.
Lemma marks_enclosed {A} (e e' : A) m l : marks ((e, m) :: l ++ [(e', None)]) = option_list m ++ marks l.
Proof. unfold marks. destruct m; simpl; by rewrite omap_app, app_nil_r. Qed.

(** ** Histories that the store explains *)

(** What a revision in the store is like. *)
Definition sane_store (σ : Store) : Prop :=
  ∀ p bytes rev, σ p = Holds bytes rev → typed rev ∧ is_valid_file_revision rev = true.

Lemma host_sane fs : host_ok fs → sane_store (entry fs).
Proof.
  intros Hok p bytes rev He%entry_holds. by destruct (read_inode _ _ _ Hok He) as (Ht & Hv & _).
Qed.

Definition takes (σ : Store) (m : option Effect) (σ' : Store) : Prop :=
  match m with None => same_store σ σ' | Some (cmd, answer) => store_step σ cmd answer σ' end.

(** The calls follow one another from [f] to [g], and the marks lead the store from [σ]
    to [σ']; the store is what the file system shows after every event; and each call
    keeps the paths, apart from the one that a granted save replaces. *)
Fixpoint explains (odd : Path → Prop) (f : FS) (σ : Store) (M : marked) (g : FS) (σ' : Store) : Prop :=
  match M with
  | [] => f = g ∧ σ = σ'
  | ((_, e), m) :: M =>
      ∃ σ1, takes σ m σ1 ∧ sane_store σ1 ∧
      match e with
      | Called before after =>
          before ≡ f ∧ keeps_paths odd (saved_path m) before after ∧ shows odd σ1 after ∧
          explains odd after σ1 M g σ'
      | _ => shows odd σ1 f ∧ explains odd f σ1 M g σ'
      end
  end.

Lemma explains_app odd f σ M M' g σ' :
  explains odd f σ (M ++ M') g σ' ↔ ∃ h σ1, explains odd f σ M h σ1 ∧ explains odd h σ1 M' g σ'.
Proof.
  revert f σ. induction M as [|[[i e] m] M IH]; intros f σ; simpl.
  - split; [by exists f, σ|]. by intros (h & σ1 & [-> ->] & HM).
  - split.
    + intros (σ1 & Ht & Hs & HM). destruct e as [| |b a].
      all: try (destruct HM as (Hsh & (h & σ2 & H1 & H2)%IH); exists h, σ2; split; [|done]; by exists σ1).
      destruct HM as (Hb & Hk & Hsh & (h & σ2 & H1 & H2)%IH). exists h, σ2. split; [|done]. by exists σ1.
    + intros (h & σ2 & (σ1 & Ht & Hs & HM) & H2). exists σ1. split; [done|]. split; [done|]. destruct e as [| |b a].
      all: try (destruct HM as (Hsh & H1); split; [done|]; apply IH; by exists h, σ2).
      destruct HM as (Hb & Hk & Hsh & H1). do 3 (split; [done|]). apply IH. by exists h, σ2.
Qed.

Lemma store_trace_same σ σ1 l σ' : same_store σ σ1 → store_trace σ1 l σ' → store_trace σ l σ'.
Proof.
  intros Hσ Hl. destruct Hl as [σ1 σ' Hs|σ1 σ2 σ' cmd answer l Hstep Hl|σ1 σ2 σ' l Hl].
  - constructor. intros p. by rewrite Hs, Hσ.
  - econstructor; [|exact Hl]. by eapply store_step_same.
  - by econstructor.
Qed.

(** The effects are a run of the store. *)
Lemma explains_run odd f σ M g σ' :
  explains odd f σ M g σ' → store_trace σ ((λ x, Asked x.1 x.2) <$> marks M) σ'.
Proof.
  revert f σ. induction M as [|[[i e] m] M IH]; intros f σ; simpl; [by intros [_ ->]; constructor|].
  intros (σ1 & Ht & _ & HM).
  assert (store_trace σ1 ((λ x, Asked x.1 x.2) <$> marks M) σ') as Hl.
  { destruct e as [| |b a]; [..|destruct HM as (_ & _ & HM)]; destruct HM as (_ & HM); by eapply IH. }
  unfold marks in *. destruct m as [[cmd answer]|]; simpl; [by econstructor|by eapply store_trace_same].
Qed.

(** Before and after a stretch of looks. *)
Lemma explains_look odd f σ i b m M g σ' :
  b ≡ f → same_store σ (entry b) → host_ok b → m = None →
  explains odd b (entry b) M g σ' → explains odd f σ (((i, Called b b), m) :: M) g σ'.
Proof.
  intros Hb Hσ Hok -> HM. exists (entry b). split; [done|]. split; [by apply host_sane|].
  split; [done|]. split; [by apply keeps_paths_equiv|]. split; [apply shows_itself|done].
Qed.

(** ** What the workers do *)
Section workers.
Context `{Directories, JsonLaws, Base64Laws, Environment, !Receiver, Processes}.
Context (server : Kernel).

(** The names of the server's temporary files. *)
Abbreviation odd := (temporary (H := server)).

Lemma same_process (K : Kernel) : @process_id K = @process_id server → temporary (H := K) = odd.
Proof. intros Hp. unfold temporary, temp_name. by rewrite Hp. Qed.

Definition path_of (cmd : Command) : Path := match cmd with Fetch path | Save path _ _ => path end.

(** A task: a command, and the request for it in the hands of a worker. The threads are
    one process; no call fails, inode numbers are not reused while in use, and clocks are
    in range; the path is not one of the server's temporary files. *)
Record task_ok (t : Command * Handling) : Prop := {
  task_process : @process_id (host_of t.2) = @process_id server;
  task_faultless : Faultless (H := host_of t.2);
  task_fresh : FreshInodes (H := host_of t.2);
  task_clock : SaneClock (H := host_of t.2);
  task_asks : asks t.1 (request_of t.2);
  task_ordinary : ordinary (H := host_of t.2) t.1;
  task_path : ¬ odd (path_of t.1);
}.

(** The reply, decoded. *)
Definition replied (h : Handling) (answer : Answer) : Prop :=
  ∃ reply, channel (session_after h) = send reply (channel (session_of h)) ∧ answer_of reply = Some answer.

(** Looks, and these saves in their order; the same, with the marks. *)
Inductive does : list (Command * Handling) → list Event → Prop :=
| does_nothing : does [] []
| does_look b ss l : does ss l → does ss (Called b b :: l)
| does_save path bytes expected h ss l :
    task_ok (Save path bytes expected, h) → does ss l →
    does ((Save path bytes expected, h) :: ss) (done_for h ++ l).

Inductive marked_as : list (Command * Handling) → list (Event * option Effect) → Prop :=
| marked_nothing : marked_as [] []
| marked_look b ss l : marked_as ss l → marked_as ss ((Called b b, None) :: l)
| marked_save path bytes expected h answer seg ss l :
    seg.*1 = done_for h → replied h answer → marks seg = [(Save path bytes expected, answer)] →
    marked_as ss l → marked_as ((Save path bytes expected, h) :: ss) (seg ++ l).

Lemma does_nil ss : does ss [] → ss = [].
Proof.
  inversion 1 as [| |path bytes expected h ss' l Hok Hl Hss Hnil]; [done|].
  destruct (done_for_save path bytes expected h (task_asks _ Hok)) as (cs & Hd & _). by rewrite Hd in Hnil.
Qed.

(** The next event: a look, or the lock for the next save. *)
Lemma does_cons ss e l :
  does ss (e :: l) →
  (∃ b, e = Called b b ∧ does ss l) ∨
  (e = Acquired ∧ ∃ path bytes expected h ss' cs l', ss = (Save path bytes expected, h) :: ss' ∧
    task_ok (Save path bytes expected, h) ∧ done_for h = Acquired :: (called <$> cs) ++ [Released] ∧
    calls_of path bytes expected h cs ∧ l = (called <$> cs) ++ Released :: l' ∧ does ss' l').
Proof.
  inversion 1 as [|b ss' l' Hl|path bytes expected h ss' l' Hok Hl Hss Hev]; [left; eauto|right].
  destruct (done_for_save path bytes expected h (task_asks _ Hok)) as (cs & Hd & Hcs).
  rewrite Hd in Hev. cbn [app] in Hev. injection Hev as <- <-. split; [done|].
  exists path, bytes, expected, h, ss', cs, l'. rewrite <-app_assoc. done.
Qed.

Lemma does_looks ss l l' : Forall is_look l → does ss (l ++ l') → does ss l'.
Proof.
  intros Hl. induction Hl as [|e l He _ IH]; [done|]. cbn [app]. intros [(b & -> & Hd)|(-> & _)]%does_cons; [by apply IH|done].
Qed.

Lemma marked_looks ss l l' : Forall is_look l → marked_as ss l' → marked_as ss (plain l ++ l').
Proof.
  intros Hl Hm. induction Hl as [|[| |b a] l He _ IH]; [done..|]. simpl in He. subst a. by constructor.
Qed.

(** ** The marks of a save *)
Section save.
Context (j : nat) (h : Handling) (path : Path) (bytes : list byte) (expected : ExpectedRevision).
Context (Hok : task_ok (Save path bytes expected, h)).
Context (f0 : FS) (Hhost : host_ok f0).

Abbreviation save_call := (save_call (H := host_of h) f0 path bytes expected).
Abbreviation unpublished := (unpublished (H := host_of h) f0 path bytes expected).
Abbreviation is_published := (in_phase (H := host_of h) f0 path bytes expected path Published).
Abbreviation others_look l := (Forall (λ x : nat * Event, x.1 ≠ j → is_look x.2) l).

Lemma odd_path : ¬ temporary (H := host_of h) path.
Proof. rewrite same_process by apply Hok. apply (task_path _ Hok). Qed.

(** After the publication nothing happens any more. *)
Lemma published_rest l f g cs :
  chained f l g → others_look l → events_of j l = called <$> cs →
  Forall (λ e, save_call e.1 e.2) cs → is_published f → host_ok g →
  g ≡ f ∧ explains odd f (entry f) (plain l) g (entry g).
Proof.
  revert f cs. induction l as [|[k x] l IH]; intros f cs Hch Hlooks Hev Hcs Hf Hgok; [by destruct Hch|].
  apply Forall_cons in Hlooks as [Hx Hlooks]. rewrite events_of_cons in Hev.
  assert (∃ b a cs', x = Called b a ∧ b ≡ a ∧ b ≡ f ∧ chained a l g ∧ events_of j l = called <$> cs' ∧
    Forall (λ e, save_call e.1 e.2) cs') as (b & a & cs' & -> & Hba & Hb & Hch' & Hev' & Hcs').
  { case_decide as Hk.
    - destruct cs as [|[b a] cs]; [done|]. injection Hev as -> Hev. destruct Hch as [Hb Hch].
      apply Forall_cons in Hcs as [Hcall Hcs]. exists b, a, cs. split_and!; try done.
      eapply (call_published (H := host_of h) f0 path bytes expected); [exact Hhost|apply odd_path| |exact Hcall].
      by rewrite Hb.
    - specialize (Hx Hk). destruct x as [| |b a]; [done..|]. simpl in Hx. subst a. destruct Hch as [Hb Hch].
      by exists b, b, cs. }
  assert (a ≡ f) as Ha by (by rewrite <-Hba).
  destruct (IH a cs' Hch' Hlooks Hev' Hcs') as [Hg HM]; [by rewrite Ha|done|].
  split; [by rewrite Hg|]. exists (entry a). split; [intros p; by apply entry_equiv|].
  split; [apply host_sane; by rewrite <-Hg|]. split; [done|]. split; [by apply keeps_paths_equiv|].
  split; [apply shows_itself|exact HM].
Qed.
(** At some call it does, or it never does. *)
Lemma save_marks l f g cs :
  chained f l g → others_look l → events_of j l = called <$> cs →
  Forall (λ e, save_call e.1 e.2) cs → unpublished f → host_ok g →
  (unpublished g ∧ explains odd f (entry f0) (plain l) g (entry f0)) ∨
  (is_published g ∧ ∀ rev,
    (∀ σ, same_store (entry g) σ → store_step (entry f0) (Save path bytes expected) (Saved rev) σ) →
    ∃ M, M.*1 = l ∧ explains odd f (entry f0) M g (entry g) ∧
      marks (own j M) = [(Save path bytes expected, Saved rev)] ∧
      ∀ i, i ≠ j → own i M = plain (events_of i l)).
Proof.
  pose proof odd_path as Hpath. pose proof (same_process _ (task_process _ Hok)) as Hodd. cbn [snd] in Hodd.
  assert (∀ f', unpublished f' → shows odd (entry f0) f') as Hshows by (rewrite <-Hodd; by apply unpublished_shows).
  revert f cs. induction l as [|[k x] l IH]; intros f cs Hch Hlooks Hev Hcs Hf Hgok; [destruct Hch; by left|].
  apply Forall_cons in Hlooks as [Hx Hlooks]. rewrite events_of_cons in Hev. case_decide as Hk.
  - subst k. destruct cs as [|[b a] cs]; [done|]. injection Hev as -> Hev. destruct Hch as [Hb Hch].
    apply Forall_cons in Hcs as [Hcall Hcs]. cbn [fst snd] in *.
    assert (unpublished b) as Hub by (eapply unpublished_equiv; [symmetry; exact Hb|done]).
    destruct (call_unpublished f0 path bytes expected Hhost b a Hub Hcall) as [[Hkeep Ha]|[Hkeep Ha]];
      rewrite Hodd in Hkeep.
    + destruct (IH a cs Hch Hlooks Hev Hcs Ha Hgok) as [[Hg HM]|[Hg HM]]; [left|right]; (split; [done|]).
      * exists (entry f0). split; [done|]. split; [by apply host_sane|].
        split; [done|]. split; [exact Hkeep|]. split; [by apply Hshows|exact HM].
      * intros rev Hstep. destruct (HM rev Hstep) as (M & <- & HM' & Hown & Hothers).
        exists (((j, Called b a), None) :: M). split; [done|]. split.
        { exists (entry f0). split; [done|]. split; [by apply host_sane|].
          split; [done|]. split; [exact Hkeep|]. split; [by apply Hshows|exact HM']. }
        rewrite own_cons, decide_True by done. split; [exact Hown|]. intros i Hi.
        rewrite own_cons, events_of_cons, !decide_False by done. by apply Hothers.
    + right. destruct (published_rest l a g cs Hch Hlooks Hev Hcs Ha Hgok) as [Hg HM]. split; [by rewrite Hg|].
      intros rev Hstep. exists (((j, Called b a), Some (Save path bytes expected, Saved rev)) :: plain l).
      rewrite fmap_cons, plain_events. split; [done|]. split.
      { exists (entry a). split; [apply Hstep; intros p; by apply entry_equiv|].
        split; [apply host_sane; by rewrite <-Hg|]. split; [done|]. split; [exact Hkeep|]. split; [apply shows_itself|exact HM]. }
      rewrite own_cons, decide_True, own_plain by done. split.
      { cbn [marks omap list_omap snd]. fold (marks (plain (events_of j l))). by rewrite marks_plain. }
      intros i Hi. by rewrite own_cons, events_of_cons, !decide_False, own_plain by done.
  - specialize (Hx Hk). destruct x as [| |b a]; [done..|]. simpl in Hx. subst a. destruct Hch as [Hb Hch].
    assert (unpublished b) as Hub by (eapply unpublished_equiv; [symmetry; exact Hb|done]).
    destruct (IH b cs Hch Hlooks Hev Hcs Hub Hgok) as [[Hg HM]|[Hg HM]]; [left|right]; (split; [done|]).
    + exists (entry f0). split; [done|]. split; [by apply host_sane|]. split; [done|].
      split; [by apply keeps_paths_equiv|]. split; [by apply Hshows|exact HM].
    + intros rev Hstep. destruct (HM rev Hstep) as (M & <- & HM' & Hown & Hothers).
      exists (((k, Called b b), None) :: M). split; [done|]. split.
      { exists (entry f0). split; [done|]. split; [by apply host_sane|]. split; [done|].
        split; [by apply keeps_paths_equiv|]. split; [by apply Hshows|exact HM']. }
      rewrite own_cons, decide_False by done. split; [exact Hown|]. intros i Hi.
      rewrite own_cons, events_of_cons. destruct (decide (k = i)); rewrite Hothers by done; done.
Qed.
(** From the lock to its release. *)
Context (l : history) (g g' : FS) (cs : list (FS * FS)).
Context (Haddr : addressable (H := host_of h) f0).
Context (Hcs : calls_of path bytes expected h cs) (Hchain : chain f0 cs g') (Hg : g' ≡ g).
Context (Hch : chained f0 l g) (Hev : events_of j l = called <$> cs) (Hlooks : others_look l).

Definition section_marked (answer : Answer) (M : marked) : Prop :=
  M.*1 = (j, Acquired) :: l ++ [(j, Released)] ∧ explains odd f0 (entry f0) M g (entry g) ∧
  marks (own j M) = [(Save path bytes expected, answer)] ∧ ∀ i, i ≠ j → own i M = plain (events_of i l).

Lemma released_explained f σ : same_store σ (entry g) → host_ok g → f = g →
  explains odd f σ [((j, Released), None)] g (entry g).
Proof.
  intros Hsame Hgok ->. exists (entry g). split; [done|]. split; [by apply host_sane|].
  split; [apply shows_itself|done].
Qed.

Lemma refused_marked answer :
  host_ok g → untouched f0 g → unpublished g → explains odd f0 (entry f0) (plain l) g (entry f0) →
  store_step (entry f0) (Save path bytes expected) answer (entry f0) →
  section_marked answer (((j, Acquired), Some (Save path bytes expected, answer)) :: plain l ++ [((j, Released), None)]).
Proof.
  intros Hgok Hun Hunp HM Hstep. split; [by rewrite fmap_cons, fmap_app, plain_events|]. split.
  { exists (entry f0). split; [done|]. split; [by apply host_sane|]. split; [apply shows_itself|].
    apply explains_app. exists g, (entry f0). split; [done|]. apply released_explained; [|done..].
    by apply host_ok_untouched. }
  rewrite own_enclosed, decide_True, own_plain, marks_enclosed, marks_plain by done. split; [done|].
  intros i Hi. by rewrite own_enclosed, decide_False, own_plain by done.
Qed.

Lemma granted_marked rev M :
  host_ok g → M.*1 = l → explains odd f0 (entry f0) M g (entry g) →
  marks (own j M) = [(Save path bytes expected, Saved rev)] →
  (∀ i, i ≠ j → own i M = plain (events_of i l)) →
  section_marked (Saved rev) (((j, Acquired), None) :: M ++ [((j, Released), None)]).
Proof.
  intros Hgok HMl HM Hmarks Hothers. split; [by rewrite fmap_cons, fmap_app, HMl|]. split.
  { exists (entry f0). split; [done|]. split; [by apply host_sane|]. split; [apply shows_itself|].
    apply explains_app. exists g, (entry g). split; [done|]. by apply released_explained. }
  rewrite own_enclosed, decide_True, marks_enclosed, Hmarks by done. split; [done|].
  intros i Hi. rewrite own_enclosed, decide_False by done. by apply Hothers.
Qed.

Lemma section_explained : host_ok g ∧ ∃ answer M, replied h answer ∧ section_marked answer M.
Proof.
  destruct (undisturbed_save h path bytes expected f0 g' cs) as (reply & answer & [Hsent Hans Hstep Hgok Hcalls Hgranted Hrefused]);
    [apply Hok..|done|done|apply Hok|apply Hok|done|done|].
  rewrite Hg in Hgok. split; [done|].
  assert (replied h answer) as Hreplied by (by exists reply).
  destruct (save_marks l f0 g cs Hch Hlooks Hev Hcalls) as [[Hunp HM]|[Hpub HM]]; [apply starts_unpublished|done|..].
  - assert (∀ rev, answer ≠ Saved rev) as Hno.
    { intros rev ->. destruct (Hgranted rev eq_refl) as (now & n & Hpub). rewrite Hg in Hpub.
      apply (published_names f0 path bytes expected Hhost odd_path g); [|done]. by rewrite (proj1 Hpub). }
    specialize (Hrefused Hno). rewrite Hg in Hrefused.
    exists answer. eexists. split; [done|]. apply refused_marked; [done..|].
    apply Hstep. intros p. destruct (host_ok_untouched f0 g Hhost Hrefused) as [_ Hsame].
    rewrite <-Hsame. symmetry. by apply entry_equiv.
  - destruct answer as [b r|rev|kind current|].
    2: { destruct (HM rev) as (M & HMl & HMe & Hmarks & Hothers).
      { intros σ Hσ. apply Hstep. intros p. rewrite Hσ. symmetry. by apply entry_equiv. }
      eexists (Saved rev), _. split; [done|]. by apply (granted_marked rev M). }
    all: exfalso; apply (published_touches f0 path bytes expected Hhost g Hpub); rewrite <-Hg; by apply Hrefused.
Qed.
End save.

(** ** All saves *)

(** At every moment of [l], from [f] on, there is room for another inode. *)
Definition roomy (f : FS) (l : history) (h : Handling) : Prop :=
  ∀ l1 l2 g, l = l1 ++ l2 → chained f l1 g → addressable (H := host_of h) g.

Lemma roomy_app f l l' g h : chained f l g → roomy f (l ++ l') h → roomy g l' h.
Proof.
  intros Hl Hroom l1 l2 g' -> Hl1. apply (Hroom (l ++ l1) l2); [by rewrite app_assoc|].
  apply chained_app. by exists g.
Qed.

Lemma section_looks i j l :
  i ≠ j → Forall (λ x : nat * Event, x.1 ≠ j → is_look x.2) l → Forall is_look (events_of i l).
Proof.
  intros Hij. induction 1 as [|[k e] l He _ IH]; [constructor|]. rewrite events_of_cons. case_decide as Hk; [|done].
  constructor; [apply He; simpl; congruence|done].
Qed.

Lemma released_holder owner j l : foldl next_holder owner (l ++ [(j, Released)]) = None.
Proof. by rewrite foldl_app. Qed.

Lemma save_history l f e (ss : nat → list (Command * Handling)) :
  host_ok f → mutual None l → (∀ i, worker_ok None l i) → chained f l e →
  (∀ i t, t ∈ ss i → roomy f l t.2) → (∀ i, does (ss i) (events_of i l)) →
  ∃ M, M.*1 = l ∧ explains odd f (entry f) M e (entry e) ∧ ∀ i, marked_as (ss i) (own i M).
Proof.
  remember (length l) as n eqn:Hlen. revert l f ss Hlen.
  induction (lt_wf n) as [n _ IH]. intros [|[j x] l] f ss -> Hhost Hmut Hok Hch Hroom Hdoes.
  { destruct Hch. exists []. do 2 (split; [done|]). intros i. rewrite (does_nil _ (Hdoes i)). constructor. }
  destruct (workers_step _ _ _ _ Hmut Hok) as [Hmut' Hok'].
  pose proof (Hdoes j) as Hj. rewrite events_of_cons, decide_True in Hj by done.
  apply does_cons in Hj as [(b & -> & Hj)|(-> & path & bytes & expected & h & ss' & cs & l' & Hss & Htask & Hd & Hcs & Hev & Hj)].
  - destruct Hch as [Hb Hch]. destruct (IH (length l) ltac:(simpl; lia) l b ss) as (M & <- & HM & Hmarked); try done.
    + by rewrite Hb.
    + intros i t Ht. apply (roomy_app f [(j, Called b b)]); [by split|by apply (Hroom i)].
    + intros i. destruct (decide (i = j)) as [->|Hi]; [done|]. specialize (Hdoes i).
      by rewrite events_of_cons, decide_False in Hdoes.
    + exists (((j, Called b b), None) :: M). split; [done|]. split.
      { apply explains_look; [done| |by rewrite Hb|done..]. intros p. by apply entry_equiv. }
      intros i. rewrite own_cons. case_decide; [by constructor|done].
  - destruct (critical_section j cs l' l f e Hmut' Hok' Hch Hev)
      as (l1 & l2 & g & g' & -> & Hg' & Hchain & Hg & Hown & Hlooks).
    assert (addressable (H := host_of h) f) as Haddr.
    { apply (Hroom j (Save path bytes expected, h) ltac:(rewrite Hss; constructor) [] _ f eq_refl). done. }
    destruct (section_explained j h path bytes expected Htask f Hhost l1 g g' cs Haddr Hcs Hchain Hg' Hg Hown Hlooks)
      as (Hgok & answer & M1 & Hrep & HM1 & HM1e & HM1m & HM1o).
    change ((j, Acquired) :: l1 ++ (j, Released) :: l2) with (((j, Acquired) :: l1) ++ [(j, Released)] ++ l2) in *.
    rewrite app_assoc in *. assert (chained f (((j, Acquired) :: l1) ++ [(j, Released)]) g) as Hsec
      by (apply chained_app; by exists g).
    destruct (workers_app _ _ _ Hmut Hok) as [Hmut2 Hok2]. rewrite released_holder in Hmut2, Hok2.
    assert (chained g l2 e) as Hch2.
    { apply chained_app in Hch as (g2 & Hg2 & Hch). by rewrite (chained_end _ _ _ _ Hg2 Hsec) in Hch. }
    rewrite events_of_app, Hown in Hev. apply app_inv_head in Hev. cbn [app] in Hev.
    rewrite events_of_cons, decide_True in Hev by done. injection Hev as Hev.
    destruct (IH (length l2) ltac:(rewrite !length_app; simpl; lia) l2 g (λ i, if decide (i = j) then ss' else ss i))
      as (M2 & <- & HM2e & HM2); try done.
    + intros i t Ht. apply (roomy_app f _ _ _ _ Hsec). apply (Hroom i). case_decide as Hi; [|done].
      subst i. rewrite Hss. by right.
    + intros i. case_decide as Hi; [by subst i; rewrite Hev|]. specialize (Hdoes i).
      rewrite !events_of_app, events_of_cons, decide_False, events_of_cons, decide_False, app_nil_r in Hdoes by done.
      apply (does_looks _ (events_of i l1)); [|done]. by eapply section_looks.
    + exists (M1 ++ M2). split; [by rewrite fmap_app, HM1|].
      split; [apply explains_app; by exists g, (entry g)|]. intros i. rewrite own_app. specialize (HM2 i). case_decide as Hi.
      * subst i. rewrite Hss. apply (marked_save path bytes expected h answer); [|done..].
        rewrite own_events, HM1, Hd. change ((j, Acquired) :: l1 ++ [(j, Released)]) with ([(j, Acquired)] ++ l1 ++ [(j, Released)]).
        by rewrite !events_of_app, Hown, !events_of_cons, !decide_True by done.
      * rewrite HM1o by done. apply marked_looks; [|done]. by eapply section_looks.
Qed.
End workers.
