(* ===== verification/Linearizable.v ===== *)
(** * Every request takes effect at once

    [Linear.v] marks the saves of a history. Here the reads are marked, each at its last
    call: what they return is what the store holds at that moment. Requests that change
    nothing may go on at the same time ([is_query]). *)
From S2P Require Import Prelude MachineInt Text Json Kernel Files Reference RevisionTypes ReadPath WritePath WriteSafety WriteSpec WriteAlone Framing Exec FsHandlers Locking Requests Saving Isolation Store Sharing Server Concurrent Linear.
Local Open Scope string_scope.
Local Open Scope list_scope.
Local Open Scope Z_scope.
Local Set Warnings "-clear-no-such-hyp".

(** ** Adding marks of reads *)

(** What a read that looks at [fs] is told. *)
Definition seen (fs : FS) (path : Path) : Answer :=
  match entry fs path with Holds bytes rev => Got bytes rev | _ => Refused end.

Inductive noted (odd : Path → Prop) : Event * option Effect → Event * option Effect → Prop :=
| noted_same x : noted odd x x
| noted_read b path : ¬ odd path → noted odd (Called b b, None) (Called b b, Some (Fetch path, seen b path)).

Definition noted_in (odd : Path → Prop) (x y : (nat * Event) * option Effect) : Prop :=
  x.1.1 = y.1.1 ∧ noted odd (x.1.2, x.2) (y.1.2, y.2).

Lemma noted_saved odd x y : noted odd x y → saved_path x.2 = saved_path y.2.
Proof. by intros []. Qed.
Lemma noted_event odd x y : noted odd x y → x.1 = y.1.
Proof. by intros []. Qed.

Lemma noted_events odd l l' : Forall2 (noted odd) l l' → l'.*1 = l.*1.
Proof. induction 1 as [|x y l l' Hx _ IH]; [done|]. by rewrite !fmap_cons, IH, (noted_event odd x y Hx). Qed.

Lemma noted_same_events odd M M' : Forall2 (noted_in odd) M M' → M'.*1 = M.*1.
Proof.
  induction 1 as [|[[j e] m] [[k e'] m'] M M' [Hi Hx] _ IH]; [done|]. rewrite !fmap_cons, IH.
  apply noted_event in Hx. cbn [fst snd] in *. by subst.
Qed.

Lemma shown_holds odd σ fs p bytes rev :
  shows odd σ fs → ¬ odd p → σ p = Holds bytes rev ↔ entry fs p = Holds bytes rev.
Proof. intros Hsh Hp. destruct (Hsh p Hp) as [->|[-> ->]]; [done|]. split; discriminate. Qed.

Lemma seen_step odd σ σ' fs p :
  shows odd σ' fs → ¬ odd p → same_store σ σ' → store_step σ (Fetch p) (seen fs p) σ'.
Proof.
  intros Hsh Hp Hσ. assert (∀ bytes rev, σ p = Holds bytes rev ↔ entry fs p = Holds bytes rev) as Hholds.
  { intros bytes rev. rewrite <-(Hσ p). by apply (shown_holds odd). }
  unfold seen. destruct (entry fs p) as [| |bytes rev].
  1, 2: apply fetches_not; [by intros b r Hb%Hholds|done].
  apply fetches; [by apply Hholds|done].
Qed.

Lemma explains_noted odd f σ M M' g σ' :
  Forall2 (noted_in odd) M M' → explains odd f σ M g σ' → explains odd f σ M' g σ'.
Proof.
  intros HM. revert f σ. induction HM as [|[[i e] m] [[j e'] m'] M M' [Hi Hx] _ IH]; intros f σ; [done|].
  cbn [fst snd] in *. simpl. intros (σ1 & Htakes & Hsane & HM).
  inversion Hx as [x Hxx|b p Hp]; subst.
  - exists σ1. split; [done|]. split; [done|]. destruct e' as [| |b a]; naive_solver.
  - destruct HM as (Hb & Hk & Hsh & HM). exists σ1. split; [by apply (seen_step odd)|].
    do 4 (split; [done|]). by apply IH.
Qed.

(** Marks may be added to each worker's part. *)
Lemma own_noted odd i M M' : Forall2 (noted_in odd) M M' → Forall2 (noted odd) (own i M) (own i M').
Proof.
  induction 1 as [|[[j e] m] [[k e'] m'] M M' [Hi Hx] _ IH]; [constructor|]. simpl in Hi. subst k. rewrite !own_cons.
  case_decide; [by constructor|done].
Qed.

Lemma note_each odd M (Q : nat → list (Event * option Effect) → Prop) :
  (∀ i, ∃ m, Forall2 (noted odd) (own i M) m ∧ Q i m) →
  ∃ M', Forall2 (noted_in odd) M M' ∧ ∀ i, Q i (own i M').
Proof.
  revert Q. induction M as [|[[j e] m] M IH]; intros Q HQ.
  - exists []. split; [constructor|]. intros i. destruct (HQ i) as (m & ->%Forall2_nil_inv_l & Hm). exact Hm.
  - destruct (HQ j) as (mj & Hmj & Hj). rewrite own_cons, decide_True in Hmj by done.
    apply Forall2_cons_inv_l in Hmj as ([e' m'] & mj' & Hx & Hmj & ->).
    destruct (IH (λ i m, if decide (i = j) then Q j ((e', m') :: m) else Q i m)) as (M' & HM & HQ').
    { intros i. case_decide as Hi; [subst i; eauto|]. destruct (HQ i) as (mi & Hmi & HQi).
      rewrite own_cons, decide_False in Hmi by done. eauto. }
    exists (((j, e'), m') :: M'). split; [by constructor|]. intros i. specialize (HQ' i). rewrite own_cons.
    destruct (decide (i = j)) as [->|Hi]; [by rewrite decide_True|by rewrite decide_False].
Qed.

(** ** Spans *)

Lemma find_own i M pre x rest :
  own i M = pre ++ x :: rest → ∃ M1 M2, M = M1 ++ ((i, x.1), x.2) :: M2 ∧ own i M1 = pre ∧ own i M2 = rest.
Proof.
  revert pre. induction M as [|[[j e] m] M IH]; intros pre; [by destruct pre|].
  rewrite own_cons. case_decide as Hj.
  - subst j. destruct pre as [|y pre]; simpl.
    + intros [= <- Hl]. by exists [], M.
    + intros [= <- Hl]. destruct (IH pre Hl) as (M1 & M2 & -> & H1 & H2). exists (((i, e), m) :: M1), M2.
      by rewrite own_cons, decide_True, H1 by done.
  - intros Hl. destruct (IH pre Hl) as (M1 & M2 & -> & H1 & H2). exists (((j, e), m) :: M1), M2.
    by rewrite own_cons, decide_False by done.
Qed.

(** From an event of worker [i] to another one of its events, or empty. *)
Definition tight (i : nat) (S : marked) : Prop :=
  ∀ j, head S.*1.*1 = Some j ∨ last S.*1.*1 = Some j → j = i.

Lemma find_span i M pre seg rest :
  own i M = pre ++ seg ++ rest →
  ∃ before span after, M = before ++ span ++ after ∧ own i before = pre ∧ own i span = seg ∧ tight i span.
Proof.
  intros HM. destruct seg as [|x seg].
  { assert (∃ before after, M = before ++ after ∧ own i before = pre) as (before & after & HMs & Hpre).
    { destruct pre as [|x pre _] using rev_ind; [by exists [], M|]. rewrite <-app_assoc in HM.
      destruct (find_own i M pre x rest HM) as (before & after & -> & Hpre & _).
      exists (before ++ [((i, x.1), x.2)]), after. rewrite <-app_assoc. split; [done|].
      rewrite own_app, Hpre, own_cons, decide_True by done. by destruct x. }
    exists before, [], after. do 3 (split; [done|]). by intros j [|]. }
  destruct (find_own i M pre x (seg ++ rest) HM) as (before & M1 & -> & Hpre & HM1).
  destruct seg as [|y seg _] using rev_ind.
  - exists before, [((i, x.1), x.2)], M1. do 2 (split; [done|]). split.
    { rewrite own_cons, decide_True by done. by destruct x. }
    by intros j [[= <-]|[= <-]].
  - rewrite <-app_assoc in HM1. destruct (find_own i M1 seg y rest HM1) as (N & after & -> & HN & _).
    exists before, (((i, x.1), x.2) :: N ++ [((i, y.1), y.2)]), after. rewrite <-app_comm_cons, <-app_assoc.
    do 2 (split; [done|]). split.
    { rewrite own_cons, decide_True, own_app, own_cons, decide_True, HN by done. by destruct x, y. }
    intros j. rewrite !fmap_cons, !fmap_app, app_comm_cons. simpl. intros [[= <-]|Hj]; [done|].
    rewrite app_comm_cons, last_snoc in Hj. by injection Hj.
Qed.

(** ** What a history does to a path *)

Lemma explains_chained odd f σ M g σ' : explains odd f σ M g σ' → chained f M.*1 g.
Proof.
  revert f σ. induction M as [|[[i e] m] M IH]; intros f σ; simpl; [by intros [-> _]|].
  intros (σ1 & _ & _ & HM). destruct e; naive_solver.
Qed.

Definition kept (odd : Path → Prop) (x : (nat * Event) * option Effect) : Prop :=
  match x.1.2 with
  | Called b a => keeps_paths odd (saved_path x.2) b a ∧ ∃ σ, sane_store σ ∧ shows odd σ a
  | _ => True
  end.

Lemma explains_kept odd f σ M g σ' : explains odd f σ M g σ' → Forall (kept odd) M.
Proof.
  revert f σ. induction M as [|[[i e] m] M IH]; intros f σ; [constructor|]. simpl.
  intros (σ1 & _ & Hsane & HM). constructor; [|destruct e; naive_solver].
  destruct e as [| |b a]; [done..|]. unfold kept. naive_solver.
Qed.

(** Between the calls of one worker there are only calls of the history. *)
Lemma chained_gaps (P : FS → FS → Prop) `{!PreOrder P} i l f g cs :
  (∀ a b, a ≡ b → P a b) → chained f l g →
  Forall (λ x : nat * Event, match x.2 with Called b a => P b a | _ => True end) l → events_of i l = called <$> cs →
  gaps P cs ∧ ∀ e, head cs = Some e → P f e.1.
Proof.
  intros HP Hch Hl. revert f cs Hch. induction Hl as [|[j x] l Hx _ IH]; intros f cs Hch Hev.
  { destruct cs; [|done]. split; [by intros k e e' He|done]. }
  rewrite events_of_cons in Hev. case_decide as Hj.
  - destruct cs as [|[b a] cs]; [done|]. injection Hev as -> Hev. destruct Hch as [Hb Hch].
    destruct (IH a cs Hch Hev) as [Hgaps Hfirst]. split.
    + intros [|k] e e'; simpl; [|by apply Hgaps]. intros [= <-] He'. apply Hfirst. by destruct cs.
    + intros e [= <-]. apply HP. by symmetry.
  - assert (∃ f1, P f f1 ∧ chained f1 l g) as (f1 & Hf1 & Hch1).
    { destruct x as [| |b a]; [by exists f|by exists f|]. destruct Hch as [Hb Hch]. exists a. split; [|done].
      transitivity b; [apply HP; by symmetry|exact Hx]. }
    destruct (IH f1 cs Hch1 Hev) as [Hgaps Hfirst]. split; [done|]. intros e He. transitivity f1; [done|by apply Hfirst].
Qed.

Definition leads_on (path : Path) (f g : FS) : Prop := ∀ v i0, leads path v i0 f → leads path v i0 g.
Definition stands_on (path : Path) (f g : FS) : Prop := ∀ x, lookup_path f path = Some x → lookup_path g path = Some x.
#[export] Instance leads_on_preorder path : PreOrder (leads_on path).
Proof. split; [by intros f v i0|]. intros f g h Hfg Hgh v i0 Hf. by apply Hgh, Hfg. Qed.
#[export] Instance stands_on_preorder path : PreOrder (stands_on path).
Proof. split; [by intros f x|]. intros f g h Hfg Hgh x Hf. by apply Hgh, Hfg. Qed.

Section span.
Context (odd : Path → Prop) (f g : FS) (σ σ' : Store) (S : marked) (HS : explains odd f σ S g σ').
Context (i : nat) (cs : list (FS * FS)) (Hcs : (own i S).*1 = called <$> cs) (path : Path) (Hpath : ¬ odd path).

Lemma span_leads : gaps (leads_on path) cs.
Proof.
  eapply (chained_gaps _ i S.*1 f g); [|by eapply explains_chained| |by rewrite <-own_events].
  - intros a b Hab v i0. by rewrite Hab.
  - apply Forall_fmap. eapply Forall_impl; [by eapply explains_kept|]. intros [[j [| |b a]] m]; [done..|].
    intros [Hk _]. exact (proj1 (Hk path Hpath)).
Qed.

Lemma span_stands : ¬ overtaken path S → gaps (stands_on path) cs.
Proof.
  intros Hno. eapply (chained_gaps _ i S.*1 f g); [|by eapply explains_chained| |by rewrite <-own_events].
  - intros a b Hab x. by rewrite (lookup_equiv _ _ path Hab).
  - apply Forall_fmap. apply Forall_forall. intros [[j [| |b a]] m] Hx; [done..|].
    pose proof (explains_kept _ _ _ _ _ _ HS) as Hall. rewrite Forall_forall in Hall. destruct (Hall _ Hx) as [Hk _].
    refine (proj2 (Hk path Hpath) _). intros Hs. apply Hno. by exists ((j, Called b a), m).
Qed.

(** At its last call the worker sees what the store holds. *)
Lemma span_shows e : e.2 = e.1 → last cs = Some e → ∃ σ1, sane_store σ1 ∧ shows odd σ1 e.1.
Proof.
  intros He Hlast. assert (Called e.1 e.1 ∈ (own i S).*1) as Hin.
  { rewrite Hcs. apply list_elem_of_fmap. exists e. unfold called. split; [by rewrite He|by apply last_Some_elem_of]. }
  apply list_elem_of_fmap in Hin as ([ev m] & Hev & Hin). cbn [fst] in Hev. subst ev.
  apply list_elem_of_omap in Hin as ([[j ev'] m'] & Hin & Hown). cbn [fst snd] in Hown.
  destruct (decide (j = i)); [|done]. injection Hown as -> ->.
  pose proof (explains_kept _ _ _ _ _ _ HS) as Hall. rewrite Forall_forall in Hall. by destruct (Hall _ Hin).
Qed.
End span.

(** ** A read among the saves *)

#[export] Instance overtaken_dec path S : Decision (overtaken path S).
Proof. unfold overtaken. apply list_exist_dec. intros x. apply _. Defined.

Lemma unmarked {A} (l : list (A * option Effect)) : marks l = [] → l = plain l.*1.
Proof. induction l as [|[a [m|]] l IH]; [done..|]. intros Hl. unfold plain in *. rewrite !fmap_cons. f_equal. by apply IH. Qed.

Lemma plain_noted odd l : Forall2 (noted odd) (plain l) (plain l).
Proof. induction l; constructor; [constructor|done]. Qed.

(** What a worker has been given: a command, or some other request. *)
Abbreviation Task := (option Command * Handling)%type.

Section reads.
Context `{Directories, JsonLaws, Base64Laws, Environment, !Receiver, Processes}.
Context (server : Kernel).
Abbreviation odd := (temporary (H := server)).

Lemma done_for_fetch path h :
  asks (Fetch path) (request_of h) →
  ∃ cs, done_for h = called <$> cs ∧ read_outcome (host_of h) path (world (session_of h)) cs ∧
    channel (session_after h) = finish_revision (request_id (request_of h))
      (result_map read_value (read_with_revision (H := host_of h) path (world (session_of h))).1) (channel (session_of h)).
Proof.
  destruct h as [K s req]. cbn [host_of session_of request_of]. intros Hask. inversion Hask as [text req' Hreads| |]; subst.
  destruct (handle_read (H := K) text req s Hreads) as (_ & Hc & Ht).
  destruct (read_among K (path_new (expand_home text)) (world s)) as (cs & Hout). exists cs. split; [|by split].
  apply done_for_eq. unfold session_after. cbn [host_of session_of request_of]. rewrite Ht. f_equal. unfold new_calls.
  pose proof (run_calls _ _ _ _ (read_log _ _ _ _ Hout)) as Hl. cbn [log_of housed_world] in Hl.
  by rewrite Hl, drop_app_length.
Qed.
Lemma read_segment i h path S f g σ σ' :
  task_ok server (Fetch path, h) → explains odd f σ S g σ' → (own i S).*1 = done_for h → marks (own i S) = [] →
  ∃ answer seg, replied h answer ∧ Forall2 (noted odd) (own i S) seg ∧
    (marks seg = [(Fetch path, answer)] ∨ marks seg = [] ∧ answer = Refused ∧ overtaken path S).
Proof.
  intros Htask HS Hown Hmarks. pose proof (task_path _ _ Htask) as Hpath. cbn [path_of fst] in Hpath.
  destruct (done_for_fetch path h (task_asks _ _ Htask)) as (cs & Hd & Hout & Hch). rewrite Hd in Hown.
  destruct (read_last _ _ _ _ Hout) as [e He].
  assert (e.2 = e.1) as Hlook.
  { pose proof (read_looks _ _ _ _ Hout) as Hall. rewrite Forall_forall in Hall. by apply Hall, last_Some_elem_of. }
  destruct (span_shows _ _ _ _ _ _ HS i cs Hown e Hlook He) as (σ1 & Hsane & Hshows).
  assert (∃ seg, Forall2 (noted odd) (own i S) seg ∧ marks seg = [(Fetch path, seen e.1 path)]) as (seg & Hseg & Hmark).
  { pose proof He as (cs0 & ->)%last_Some. rewrite (unmarked _ Hmarks), Hown, fmap_app. unfold plain. rewrite fmap_app.
    exists (plain (called <$> cs0) ++ [(Called e.1 e.1, Some (Fetch path, seen e.1 path))]). split.
    - apply Forall2_app; [apply plain_noted|]. constructor; [|constructor]. unfold called. rewrite Hlook. by constructor.
    - by rewrite marks_app, marks_plain. }
  set (r := read_with_revision path (world (session_of h))) in *.
  assert (∀ rd, r.1 = Ok rd → read_spec e.1 path = Ok rd → replied h (seen e.1 path)) as Hgot.
  { intros rd Hr Hspec%read_entry. unfold seen. rewrite Hspec. eexists. split; [rewrite Hch, Hr; reflexivity|].
    destruct (Hsane path (read_bytes rd) (read_revision rd)) as [Ht Hv].
    { by apply (shown_holds odd _ e.1). }
    by apply answer_read. }
  assert (∀ err, r.1 = Err err → replied h Refused) as Hrefused.
  { intros err Hr. pose proof (read_raises path _ _ Hr) as Hno. eexists. split; [rewrite Hch, Hr; reflexivity|].
    cbn [result_map]. rewrite answer_error; by destruct err as [|kind current| | | |]; try by destruct (Hno kind current). }
  destruct (decide (overtaken path S)) as [Hover|Hover].
  - destruct r.1 as [rd|err] eqn:Hr.
    + exists (seen e.1 path), seg. split; [|by auto]. apply (Hgot rd); [done|].
      apply (read_replaced _ _ _ _ Hout); [|done..]. eapply span_leads; [exact HS|done..].
    + specialize (Hrefused err eq_refl). exists Refused. destruct (entry e.1 path) as [| |bytes rev] eqn:Hentry.
      1, 2: exists seg; unfold seen in Hmark; rewrite Hentry in Hmark; by auto.
      exists (own i S). split; [done|]. split; [|by right]. rewrite (unmarked _ Hmarks). apply plain_noted.
  - assert (r.1 = read_spec e.1 path) as Hr.
    { apply (read_still _ _ _ _ Hout); [apply Htask| |done]. eapply span_stands; [exact HS|done..]. }
    exists (seen e.1 path), seg. split; [|by auto]. destruct (read_spec e.1 path) as [rd|err] eqn:Hspec; [by apply (Hgot rd)|].
    unfold seen. destruct (entry e.1 path) as [| |bytes rev] eqn:Hentry; [by eapply Hrefused..|].
    apply entry_holds in Hentry. congruence.
Qed.

(** ** One task after the other *)


(** Other requests only look. *)
Definition given (t : Task) : Prop :=
  match t.1 with Some cmd => task_ok server (cmd, t.2) | None => is_query (request_of t.2) = true end.

(** Worker [i] handles [h] in [span], after the tasks [earlier], which it did in [before]. *)
Definition during (i : nat) (earlier : list Task) (h : Handling) (before span : marked) : Prop :=
  (own i before).*1 = concat (done_for <$> earlier.*2) ∧ (own i span).*1 = done_for h ∧ tight i span.

(** A command has its effect, and the reply says so; or a read is refused, while a save
    replaces its file. *)
Definition effective (cmd : Command) (answer : Answer) (span : marked) (effects : list Effect) : Prop :=
  effects = [(cmd, answer)] ∨
  ∃ path, cmd = Fetch path ∧ answer = Refused ∧ effects = [] ∧ overtaken path span.
Definition told (t : Task) (span : marked) (effects : list Effect) : Prop :=
  match t.1 with
  | Some cmd => ∃ answer, replied t.2 answer ∧ effective cmd answer span effects
  | None => effects = []
  end.

Definition save_in (t : Task) : option (Command * Handling) :=
  match t.1 with Some (Save path bytes expected) => Some (Save path bytes expected, t.2) | _ => None end.
Abbreviation saves_of ts := (omap save_in ts).

Lemma saves_given ts : Forall given ts → Forall (task_ok server) (saves_of ts).
Proof.
  induction 1 as [|[[[path|path bytes expected]|] h] ts Ht _ IH]; [constructor|done| |done].
  constructor; [exact Ht|exact IH].
Qed.

Lemma fetch_looks path h : task_ok server (Fetch path, h) → Forall is_look (done_for h).
Proof.
  intros Htask. destruct (done_for_fetch path h (task_asks _ _ Htask)) as (cs & -> & Hout & _).
  apply Forall_fmap. eapply Forall_impl; [apply (read_looks _ _ _ _ Hout)|]. by intros [b a].
Qed.

Lemma query_looks h : is_query (request_of h) = true → Forall is_look (done_for h).
Proof.
  intros Hq. destruct (looking_handle_fs (H := host_of h) _ Hq (session_of h)) as (l & Hl & Hlooks).
  by rewrite (done_for_eq h l Hl).
Qed.

(** Tasks without effects of their own. *)
Lemma given_looks t : given t → save_in t = None → Forall is_look (done_for t.2).
Proof.
  destruct t as [[[path|path bytes expected]|] h]; intros Ht Hs; [by apply (fetch_looks path)|done|by apply query_looks].
Qed.

Lemma does_more ss l l' : Forall is_look l → does server ss l' → does server ss (l ++ l').
Proof.
  intros Hl Hd. induction Hl as [|[| |b a] l He _ IH]; [done..|]. simpl in He. subst a. by constructor.
Qed.

Lemma does_tasks ts : Forall given ts → does server (saves_of ts) (concat (done_for <$> ts.*2)).
Proof.
  induction 1 as [|t ts Ht _ IH]; simpl; [constructor|]. destruct (save_in t) eqn:Hs.
  - destruct t as [[[path|path bytes expected]|] h]; [done| |done]. injection Hs as <-. by constructor.
  - apply does_more; [by apply given_looks|done].
Qed.

(** The marks of the first task. *)
Lemma marked_looks_first ss l m rest :
  Forall is_look l → Forall (task_ok server) ss → marked_as ss m → m.*1 = l ++ rest →
  ∃ m', m = plain l ++ m' ∧ marked_as ss m' ∧ m'.*1 = rest.
Proof.
  intros Hl Hss. revert m. induction Hl as [|x l Hx _ IH]; intros m Hm Hev; [by exists m|].
  destruct Hm as [|b ss m Hm|path bytes expected h answer seg ss m Hseg Hrep Hmarks Hm]; [done|..].
  - injection Hev as <- Hev. destruct (IH m Hm Hev) as (m' & -> & Hm' & He). by exists m'.
  - apply Forall_cons in Hss as [Htask _].
    destruct (done_for_save path bytes expected h (task_asks _ _ Htask)) as (cs & Hd & _).
    rewrite fmap_app, Hseg, Hd in Hev. by injection Hev as <- _.
Qed.

Lemma marked_task t ts m :
  Forall given (t :: ts) → marked_as (saves_of (t :: ts)) m → m.*1 = done_for t.2 ++ concat (done_for <$> ts.*2) →
  ∃ seg m', m = seg ++ m' ∧ seg.*1 = done_for t.2 ∧ marked_as (saves_of ts) m' ∧ m'.*1 = concat (done_for <$> ts.*2) ∧
    match save_in t with
    | None => marks seg = []
    | Some (cmd, h) => ∃ answer, replied h answer ∧ marks seg = [(cmd, answer)]
    end.
Proof.
  intros [Ht Hts]%Forall_cons Hm Hev. cbn [omap list_omap] in Hm. destruct (save_in t) as [[cmd h]|] eqn:Hs.
  - destruct t as [[[path|path bytes expected]|] h']; [done| |done]. injection Hs as <- <-. cbn [snd] in *.
    inversion Hm as [|b ss l Hl|path' bytes' expected' h0 answer seg ss l Hseg Hrep Hmarks Hl]; subst.
    + destruct (done_for_save path bytes expected h' (task_asks _ _ Ht)) as (cs & Hd & _). by rewrite Hd in Hev.
    + exists seg, l. rewrite fmap_app, Hseg in Hev. apply app_inv_head in Hev. do 4 (split; [done|]). by exists answer.
  - destruct (marked_looks_first _ _ _ _ (given_looks t Ht Hs) (saves_given ts Hts) Hm Hev) as (m' & -> & Hm' & He).
    exists (plain (done_for t.2)), m'. rewrite plain_events. do 4 (split; [done|]). apply marks_plain.
Qed.

(** All tasks of a worker. *)
Definition noted_tasks (M : marked) (i : nat) (done ts : list Task) (m : list (Event * option Effect)) : Prop :=
  ∀ earlier t later, ts = earlier ++ t :: later →
  ∃ m1 seg m2 before span after, m = m1 ++ seg ++ m2 ∧ m1.*1 = concat (done_for <$> earlier.*2) ∧ seg.*1 = done_for t.2 ∧
    M = before ++ span ++ after ∧ during i (done ++ earlier) t.2 before span ∧ told t span (marks seg).

Lemma note_tasks M f σ g σ' i ts done mdone m :
  explains odd f σ M g σ' → Forall given ts → own i M = mdone ++ m →
  mdone.*1 = concat (done_for <$> done.*2) → marked_as (saves_of ts) m → m.*1 = concat (done_for <$> ts.*2) →
  ∃ m', Forall2 (noted odd) m m' ∧ noted_tasks M i done ts m'.
Proof.
  intros HM. revert done mdone m. induction ts as [|t ts IH]; intros done mdone m Hts Hown Hdone Hm Hev.
  { exists []. split; [by rewrite (fmap_nil_inv _ _ Hev)|]. by intros []. }
  pose proof Hts as [Htask Hts']%Forall_cons.
  destruct (marked_task t ts m Hts Hm Hev) as (seg & m1 & -> & Hseg & Hm1 & Hev1 & Hkind).
  destruct (IH (done ++ [t]) (mdone ++ seg) m1) as (m1' & Hnoted & Hall); try done.
  { by rewrite <-app_assoc. }
  { by rewrite !fmap_app, concat_app, Hdone, Hseg; simpl; rewrite app_nil_r. }
  destruct (find_span i M mdone seg m1) as (before & span & after & -> & Hbefore & Hspan & Htight); [done|].
  assert (during i done t.2 before span) as Hduring by (split; [by rewrite Hbefore|split; [by rewrite Hspan|done]]).
  assert (∃ seg', Forall2 (noted odd) seg seg' ∧ told t span (marks seg')) as (seg' & Hseg' & Htold).
  { assert (Forall2 (noted odd) seg seg) as Hsame by (clear; induction seg; constructor; [constructor|done]).
    destruct t as [[[path|path bytes expected]|] h]; cbn [fst snd save_in] in *; [| |by exists seg].
    - apply explains_app in HM as (f1 & σ1 & _ & (f2 & σ2 & HS & _)%explains_app).
      destruct (read_segment i h path span _ _ _ _ Htask HS) as (answer & seg' & Hrep & Hnote & Hwhat); [by rewrite Hspan..|].
      rewrite Hspan in Hnote. exists seg'. split; [done|]. exists answer. split; [done|].
      destruct Hwhat as [|(? & ? & ?)]; [by left|right; by exists path].
    - destruct Hkind as (answer & Hrep & Hmark). exists seg. split; [done|]. exists answer. split; [done|by left]. }
  exists (seg' ++ m1'). split; [by apply Forall2_app|]. intros [|t' earlier] t0 later Hsplit; injection Hsplit as -> Hlater.
  - exists [], seg', m1', before, span, after. rewrite app_nil_r. do 2 (split; [done|]). split; [|done].
    by rewrite (noted_events _ _ _ Hseg').
  - destruct (Hall earlier t0 later Hlater) as (n1 & seg0 & n2 & b0 & s0 & a0 & -> & Hn1 & Hs0 & Hsp & Hb & Ht).
    exists (seg' ++ n1), seg0, n2, b0, s0, a0. rewrite <-app_assoc in Hb. rewrite <-!app_assoc. split; [done|]. split; [|done].
    by rewrite fmap_app, Hn1, (noted_events _ _ _ Hseg'), Hseg.
Qed.

(** The same spans, with the marks of the reads. *)
Lemma noted_history M M' i ts :
  Forall2 (noted_in odd) M M' → noted_tasks M i [] ts (own i M') →
  ∀ earlier t later, ts = earlier ++ t :: later →
  ∃ before span after, M' = before ++ span ++ after ∧ during i earlier t.2 before span ∧ told t span (marks (own i span)).
Proof.
  intros HM Hts earlier t later Hsplit.
  destruct (Hts earlier t later Hsplit) as (m1 & seg & m2 & before & span & after & Hown & Hm1 & Hseg & -> & Hduring & Htold).
  apply Forall2_app_inv_l in HM as (before' & rest' & Hbefore & HM & ->).
  apply Forall2_app_inv_l in HM as (span' & after' & Hspan & Hafter & ->).
  pose proof (noted_same_events odd) as Hsame.
  destruct Hduring as (Hb & Hs & Htight).
  assert ((own i before').*1 = concat (done_for <$> earlier.*2)) as Hb'
    by (by rewrite own_events, (Hsame _ _ Hbefore), <-own_events).
  assert ((own i span').*1 = done_for t.2) as Hs' by (by rewrite own_events, (Hsame _ _ Hspan), <-own_events).
  rewrite !own_app in Hown. apply app_inj_1 in Hown as [_ Hown].
  2: { rewrite <-(length_fmap fst (own i before')), Hb', <-Hm1. apply length_fmap. }
  apply app_inj_1 in Hown as [Hown _].
  2: { rewrite <-(length_fmap fst (own i span')), Hs', <-Hseg. apply length_fmap. }
  exists before', span', after'. split; [done|]. rewrite Hown. split.
  { split; [done|]. split; [done|]. unfold tight. by rewrite (Hsame _ _ Hspan). }
  unfold told in *. destruct t.1 as [cmd|]; [|done]. destruct Htold as (answer & Hrep & Hwhat). exists answer.
  split; [done|].
  destruct Hwhat as [|(path & Hp & Ha & He & Hover)]; [by left|right]. exists path. do 3 (split; [done|]).
  destruct Hover as (x & Hx & Hsaved). apply list_elem_of_lookup in Hx as [k Hk].
  destruct (Forall2_lookup_l _ _ _ _ _ Hspan Hk) as (y & Hy & _ & Hn). exists y.
  split; [by eapply list_elem_of_lookup_2|]. rewrite <-Hsaved. symmetry. exact (noted_saved odd _ _ Hn).
Qed.

(** All together. *)
Lemma linearization (history : list (nat * Event)) (tasks : nat → list Task) (start end_ : FS) :
  mutual None history → chained start history end_ → host_ok start →
  (∀ i, events_of i history = concat (done_for <$> (tasks i).*2)) →
  (∀ i t, t ∈ tasks i → given t) →
  (∀ i cmd h, (Some cmd, h) ∈ tasks i → roomy start history h) →
  ∃ M : marked,
    M.*1 = history ∧ explains odd start (entry start) M end_ (entry end_) ∧
    ∀ i earlier t later, tasks i = earlier ++ t :: later →
      ∃ before span after, M = before ++ span ++ after ∧ during i earlier t.2 before span ∧
        told t span (marks (own i span)).
Proof.
  intros Hmut Hchained Hhost Hevents Htasks Hroom.
  assert (∀ i, Forall given (tasks i)) as Hok.
  { intros i. apply Forall_forall. intros t Ht. by apply (Htasks i). }
  destruct (save_history server history start end_ (λ i, omap save_in (tasks i))) as (M & HMh & HM & Hmarked); try done.
  - intros i. apply (handling_ok _ _ (tasks i).*2). by rewrite Hevents.
  - intros i t ([[cmd|] h] & Ht & Hs)%list_elem_of_omap; [|done]. unfold save_in in Hs.
    assert (t.2 = h) as -> by (destruct cmd; [done|by injection Hs as <-]). by apply (Hroom i cmd).
  - intros i. rewrite Hevents. by apply does_tasks.
  - destruct (note_each odd M (λ i, noted_tasks M i [] (tasks i))) as (M' & HM' & Hnoted).
    { intros i. apply (note_tasks M _ _ _ _ i (tasks i) [] [] (own i M) HM); [done..|].
      by rewrite own_events, HMh. }
    exists M'. split; [|split].
    + by rewrite (noted_same_events _ _ _ HM').
    + by eapply explains_noted.
    + intros i earlier t later. by apply (noted_history M).
Qed.
End reads.

(** ** Property *)

(** C5: the server is linearizable. Several workers read and save, and answer requests
    that change nothing, each one after the other; their calls interleave in any way that
    the mutex allows, and reads go on while others save. Then the history has a marking with
    effects, which one after the other are a run of the compare-and-swap store, from what
    the file system shows at the start to what it shows at the end. Every request to read
    or save has its effect at one of its own calls, and its client is told just that, a
    read which finds its file replaced under its hands excepted: it may be refused, without
    an effect, while a save of that file is granted between its calls. *)
Theorem workers_are_linearizable `{Directories, JsonLaws, Base64Laws, Environment, !Receiver, Processes}
    (server : Kernel) (history : list (nat * Event)) (tasks : nat → list Task) (start end_ : FS) :
  mutual None history → chained start history end_ → host_ok start →
  (∀ i, events_of i history = concat (done_for <$> (tasks i).*2)) →
  (∀ i t, t ∈ tasks i → given server t) →
  (∀ i cmd h, (Some cmd, h) ∈ tasks i → roomy start history h) →
  ∃ M : marked,
    M.*1 = history ∧ store_trace (entry start) ((λ x, Asked x.1 x.2) <$> marks M) (entry end_) ∧
    ∀ i earlier t later, tasks i = earlier ++ t :: later →
      ∃ before span after, M = before ++ span ++ after ∧ during i earlier t.2 before span ∧
        told t span (marks (own i span)).
Proof.
  intros Hmut Hchained Hhost Hevents Htasks Hroom.
  destruct (linearization server history tasks start end_) as (M & HMh & HM & Hserved); [done..|].
  exists M. split; [exact HMh|]. split; [by eapply explains_run|exact Hserved].
Qed.

(** ** Witness *)

(** A state on the way is the first one or the one after a call. *)
Lemma chained_state f l g : chained f l g → g = f ∨ Exists (λ x : nat * Event, match x.2 with Called _ a => g = a | _ => False end) l.
Proof.
  revert f. induction l as [|[i [| |b a]] l IH]; intros f; simpl; [by left|..].
  1, 2: intros [?|?]%IH; [by left|right; by right].
  intros [_ [->|?]%IH]; right; [by left|by right].
Qed.

Lemma roomy_check (ok : FS → bool) start history h :
  (∀ fs, ok fs = true → addressable (H := host_of h) fs) →
  ok start && forallb (λ x : nat * Event, match x.2 with Called _ a => ok a | _ => true end) history = true →
  roomy start history h.
Proof.
  intros Hok [Hs Hl]%andb_true_iff l1 l2 g -> Hch. apply Hok. rewrite forallb_app in Hl. apply andb_true_iff in Hl as [Hl _].
  apply chained_state in Hch as [->|Hg]; [done|]. apply Exists_exists in Hg as ([j [| |b a]] & Hin & Hg); [done..|].
  simpl in Hg. subst a. rewrite forallb_forall in Hl. apply (Hl (j, Called b g)). by apply list_elem_of_In.
Qed.

Section witness.
#[local] Existing Instances plain_directories no_home connected steady_clock.

(** A worker looks at the note; before it opens it another one saves. A third looks at
    the directory. *)
Definition reading_host : Kernel :=
  scripted (λ n fs, at_time (second n) (if decide (n = 1%nat) then w_fs (world first_save) else fs)) (λ _, None).
Definition reading : Handling := mkHandling reading_host sample_session (request "read" "/d/note" []).
Definition reading_and_saving : history :=
  (pair 1%nat <$> take 1 (done_for reading)) ++ (pair 2%nat <$> done_for stating)
    ++ (pair 0%nat <$> done_for first_handling) ++ (pair 1%nat <$> drop 1 (done_for reading)).
Definition their_tasks (i : nat) : list Task :=
  match i with
  | O => [(Some (Save note (into_bytes "mine") (ExpPresent note_revision)), first_handling)]
  | 1%nat => [(Some (Fetch note), reading)]
  | 2%nat => [(None, stating)]
  | _ => []
  end.

Lemma their_mutual : mutual None reading_and_saving.
Proof. apply (@bool_decide_unpack _ (mutual_dec None _)). vm_compute. exact I. Qed.
Lemma their_chain : chained sample_fs reading_and_saving (w_fs (world (session_after reading))).
Proof. apply (@bool_decide_unpack _ (chained_dec _ _ _)). vm_compute. exact I. Qed.
Lemma their_room h others : host_of h = scripted others (λ _, None) → roomy sample_fs reading_and_saving h.
Proof.
  intros Hh. apply (roomy_check (λ fs, (0 <=? next_ino fs) && (next_ino fs <? 2 ^ 64))).
  - intros fs. rewrite Hh. apply scripted_addressable.
  - vm_compute. reflexivity.
Qed.
Lemma reading_asks : asks (Fetch note) (request_of reading).
Proof. apply (asks_fetch "/d/note"). split; vm_compute; reflexivity. Qed.

Lemma quiet_room : roomy sample_fs reading_and_saving first_handling.
Proof. by eapply their_room. Qed.
Lemma reading_room : roomy sample_fs reading_and_saving reading.
Proof. by eapply their_room. Qed.
Lemma stating_room : roomy sample_fs reading_and_saving stating.
Proof. by eapply their_room. Qed.
Lemma note_is_ordinary : ¬ temporary (H := quiet_kernel) note.
Proof. by apply (ordinary_not_temporary (H := quiet_kernel)). Qed.

Lemma first_task : task_ok quiet_kernel (Save note (into_bytes "mine") (ExpPresent note_revision), first_handling).
Proof.
  split; [done|exact _..| | |].
  - apply (asks_save "/d/note" (to_value note_revision)); [apply save_request_saves|]. vm_compute. reflexivity.
  - apply note_ordinary.
  - exact note_is_ordinary.
Qed.
Lemma reading_task : task_ok quiet_kernel (Fetch note, reading).
Proof.
  split; [done|by intros n|apply scripted_fresh| |exact reading_asks|done|exact note_is_ordinary].
  apply (seconds_sane (λ n fs, if decide (n = 1%nat) then w_fs (world first_save) else fs) (λ _, None)).
Qed.

Lemma stating_looks : given quiet_kernel (None, stating).
Proof. vm_compute. reflexivity. Qed.

Lemma events_around (d0 d1 d2 : list Event) i :
  events_of i ((pair 1%nat <$> take 1 d1) ++ (pair 2%nat <$> d2) ++ (pair 0%nat <$> d0) ++ (pair 1%nat <$> drop 1 d1)) =
  match i with O => d0 ++ [] | 1%nat => d1 ++ [] | 2%nat => d2 ++ [] | _ => [] end.
Proof.
  rewrite !events_of_app. destruct i as [|[|[|i]]]; rewrite ?events_of_own, ?events_of_other by done;
    rewrite ?app_nil_l, ?app_nil_r; [done| |done..]. apply take_drop.
Qed.
Lemma their_events i : events_of i reading_and_saving = concat (done_for <$> (their_tasks i).*2).
Proof. unfold reading_and_saving. rewrite events_around. by destruct i as [|[|[|i]]]. Qed.

Lemma one_of_them i a h : (a, h) ∈ their_tasks i → h = first_handling ∨ h = reading ∨ h = stating.
Proof.
  unfold their_tasks. generalize first_handling as h0, reading as h1, stating as h2. intros h0 h1 h2.
  destruct i as [|[|[|i]]]; [intros [= _ ->]%list_elem_of_singleton; auto..|by intros ?%elem_of_nil].
Qed.

Lemma their_rooms i cmd h : (Some cmd, h) ∈ their_tasks i → roomy sample_fs reading_and_saving h.
Proof.
  intros [->|[->| ->]]%one_of_them; [exact quiet_room|exact reading_room|exact stating_room].
Qed.

#[local] Opaque first_handling reading stating reading_and_saving session_after.
Lemma workers_are_linearizable_witness :
  length reading_and_saving = 36%nat ∧ content sample_fs note = Some (into_bytes "base") ∧
  content (w_fs (world (session_after reading))) note = Some (into_bytes "mine") ∧
  ∃ M : marked,
    M.*1 = reading_and_saving ∧
    store_trace (entry sample_fs) ((λ x, Asked x.1 x.2) <$> marks M) (entry (w_fs (world (session_after reading)))) ∧
    ∀ i earlier t later, their_tasks i = earlier ++ t :: later →
      ∃ before span after, M = before ++ span ++ after ∧ during i earlier t.2 before span ∧
        told t span (marks (own i span)).
Proof.
  do 3 (split; [vm_compute; reflexivity|]).
  apply (workers_are_linearizable quiet_kernel).
  - exact their_mutual.
  - exact their_chain.
  - apply (sample_at_ok (30, 7)).
  - exact their_events.
  - intros [|[|[|i]]] t Ht; [apply list_elem_of_singleton in Ht as ->..|by apply elem_of_nil in Ht].
    + exact first_task.
    + exact reading_task.
    + exact stating_looks.
  - exact their_rooms.
Defined.
End witness.
