(* ===== verification/Delivery.v ===== *)
(** * The server as a whole: from requests to the bytes on standard output

    [Server.v]'s pool with what its threads have to say. The main loop, the watcher's
    thread and the eight workers send their messages one at a time into the bounded
    queue of the writer thread, which frames them on standard output; their moves
    interleave freely.

    A worker's messages are those of one run of [handle_fs] that returns, under any view
    of the host and of its children (one that does not return makes no more moves);
    the main loop's are those of [handle_ctl] on the shared watches. [Source] tags a
    message with the piece of work that it belongs to; the tags are not part of the
    program. The relation is about a connection that stands: at the end of the input
    the process exits, and what is still queued is lost. *)
From S2P Require Import Prelude MachineInt Text Json Kernel Files Reference RevisionTypes Framing Exec FsHandlers Locking Requests Control Server.
Local Open Scope string_scope.
Local Open Scope list_scope.
Local Open Scope Z_scope.
Local Set Warnings "-clear-no-such-hyp".

(** ** State *)

(** The [n]-th control request, job or notification. *)
Inductive Source := FromMain (n : nat) | FromWorker (n : nat) | FromWatcher (n : nat).
#[export] Instance Source_eq_dec : EqDecision Source.
Proof. solve_decision. Defined.
#[export] Instance Source_countable : Countable Source.
Proof.
  refine (inj_countable'
    (λ s, match s with FromMain n => inl n | FromWorker n => inr (inl n) | FromWatcher n => inr (inr n) end)
    (λ x, match x with inl n => FromMain n | inr (inl n) => FromWorker n | inr (inr n) => FromWatcher n end) _).
  by intros [].
Defined.

Abbreviation message := (Source * list byte)%type.

(** What one source said, among all that was said. *)
Definition said (src : Source) (l : list message) : list (list byte) :=
  omap (λ m, if decide (m.1 = src) then Some m.2 else None) l.

(** [unsent]: what each source has still to send. *)
Abbreviation Outbox := (gmap Source (list (list byte))).
Definition left_of (src : Source) (u : Outbox) : list (list byte) := default [] (u !! src).

Section server.
Context `{Directories, Json, Base64, Environment, Receiver, Notify, HashOrder, Build}.

(** The requests still to be read; the shared watches; the control requests begun; the
    queue to the workers; the jobs begun; each worker's job, with its number; the jobs
    done; the notifications that arrived; the messages not yet sent, in the writer's
    queue, and written. *)
Record Server := mkServer {
  input : list (list byte);
  alias_map : Watches;
  controlled : list Value;
  job_queue : list Value;
  begun : list Value;
  workers : list (option (nat * Value));
  completed : list (nat * Value);
  notices : list Notification;
  unsent : Outbox;
  writer_queue : list message;
  written : list message;
}.

(** One run of [handle_fs] returns; on the way it does [events] and sends [msgs]. *)
Definition runs (req : Value) (events : list Event) (msgs : list (list byte)) : Prop :=
  ∃ (K : Kernel) (P : Processes) s, sent (channel s) = [] ∧ (handle_fs req s).1 = Ok tt ∧
    events = drop (length (trace s)) (trace (handle_fs req s).2) ∧
    msgs = sent (channel (handle_fs req s).2).
Definition handles (req : Value) (msgs : list (list byte)) : Prop := ∃ events, runs req events msgs.
(** .. and one of [handle_ctl], which takes the watches from [ws] to [ws']. *)
Definition controls (req : Value) (ws ws' : Watches) (msgs : list (list byte)) : Prop :=
  ∃ (K : Kernel) (w : World),
    let s' := (handle_ctl (E := Empty_set) req (mkMain w (mkChannel [] 0) ws)).2 in
    ws' = watches s' ∧ msgs = sent (main_channel s').

(** The main loop goes on when it has sent its last reply; so does the watcher. *)
Definition main_ready (s : Server) : Prop :=
  ∀ k, left_of (FromMain k) (unsent s) = [].
Definition watcher_ready (s : Server) : Prop :=
  ∀ k, left_of (FromWatcher k) (unsent s) = [].

Inductive server_step : Server → Server → Prop :=
| server_skips p ps ws c q b w d n u o f :
    main_ready (mkServer (p :: ps) ws c q b w d n u o f) → route p = Skip →
    server_step (mkServer (p :: ps) ws c q b w d n u o f) (mkServer ps ws c q b w d n u o f)
| server_controls p ps ws ws' c q b w d n u o f req msgs :
    main_ready (mkServer (p :: ps) ws c q b w d n u o f) → route p = Inline req →
    controls req ws ws' msgs →
    server_step (mkServer (p :: ps) ws c q b w d n u o f)
      (mkServer ps ws' (c ++ [req]) q b w d n (<[FromMain (length c) := msgs]> u) o f)
| server_submits p ps ws c q b w d n u o f req :
    main_ready (mkServer (p :: ps) ws c q b w d n u o f) → route p = Job req →
    (length q < FS_JOB_QUEUE_CAPACITY)%nat →
    server_step (mkServer (p :: ps) ws c q b w d n u o f) (mkServer ps ws c (q ++ [req]) b w d n u o f)
| server_takes ps ws c req q b w d n u o f i msgs :
    w !! i = Some None → handles req msgs →
    server_step (mkServer ps ws c (req :: q) b w d n u o f)
      (mkServer ps ws c q (b ++ [req]) (<[i := Some (length b, req)]> w) d n
         (<[FromWorker (length b) := msgs]> u) o f)
| server_finishes ps ws c q b w d n u o f i k req :
    w !! i = Some (Some (k, req)) → left_of (FromWorker k) u = [] →
    server_step (mkServer ps ws c q b w d n u o f)
      (mkServer ps ws c q b (<[i := None]> w) (d ++ [(k, req)]) n u o f)
| server_sends ps ws c q b w d n u o f src m ms :
    left_of src u = m :: ms → (length o < WRITER_QUEUE_CAPACITY)%nat →
    server_step (mkServer ps ws c q b w d n u o f)
      (mkServer ps ws c q b w d n (<[src := ms]> u) (o ++ [(src, m)]) f)
| server_writes ps ws c q b w d n u e o f :
    server_step (mkServer ps ws c q b w d n u (e :: o) f) (mkServer ps ws c q b w d n u o (f ++ [e])).

(** The watcher's callback, called by the watcher's own thread. It looks at the aliases
    anew for each path of a notification, so each path is a notice of its own. *)
Definition one_path (notice : Notification) : Prop :=
  match notice with Happened _ paths => length paths = 1%nat | WatchError => True end.
Inductive notice_step : Server → Server → Prop :=
| server_notices ps ws c q b w d n u o f notice :
    watcher_ready (mkServer ps ws c q b w d n u o f) → one_path notice →
    notice_step (mkServer ps ws c q b w d n u o f)
      (mkServer ps ws c q b w d (n ++ [notice])
         (<[FromWatcher (length n) := payload_of <$> events (watched ws) notice]> u) o f).

Definition any_step (s s' : Server) : Prop := server_step s s' ∨ notice_step s s'.

Definition boot (payloads : list (list byte)) : Server :=
  mkServer payloads (mkWatches ∅ ∅ 0) [] [] [] (replicate FS_WORKER_COUNT None) [] [] ∅ [] [].

(** The bytes on standard output. *)
Definition standard_output (s : Server) : list byte := concat (frame ∘ snd <$> written s).

(** ** The pool inside

    Forgetting the messages, every step is one of the pool's or none. *)
Definition pool_of (s : Server) : Pool :=
  mkPool (input s) (controlled s) (job_queue s) (begun s) ((λ o : option (nat * Value), snd <$> o) <$> workers s) (snd <$> completed s).

Lemma step_simulates_pool s s' :
  any_step s s' → pool_step (pool_of s) (pool_of s') ∨ pool_of s = pool_of s'.
Proof.
  intros [Hstep|Hstep]; [|by destruct Hstep; right].
  destruct Hstep as [| | |ps ws c req q b w d n u o f i msgs Hi|ps ws c q b w d n u o f i k req Hi| |];
    try (by right); left; unfold pool_of; cbn [input controlled job_queue begun workers completed].
  - by apply main_skips.
  - by apply main_handles.
  - by apply main_submits.
  - rewrite list_fmap_insert. apply worker_takes. by rewrite list_lookup_fmap, Hi.
  - rewrite list_fmap_insert, fmap_app. simpl. apply worker_finishes. by rewrite list_lookup_fmap, Hi.
Qed.

Lemma simulates_pool payloads s : rtc any_step (boot payloads) s → rtc pool_step (start payloads) (pool_of s).
Proof.
  change (start payloads) with (pool_of (boot payloads)). intros Hs.
  induction Hs as [|s1 s2 s3 Hstep _ IH]; [done|].
  apply step_simulates_pool in Hstep as [Hstep|Heq]; [by eapply rtc_l|by rewrite Heq].
Qed.

(** ** What every source owes *)

(** What source [src] has to send, all in all. *)
Definition duty (s : Server) (src : Source) (msgs : list (list byte)) : Prop :=
  match src with
  | FromMain k =>
      match controlled s !! k with
      | Some req => ∃ ws ws', controls req ws ws' msgs
      | None => msgs = []
      end
  | FromWorker n =>
      match begun s !! n with
      | Some req => handles req msgs
      | None => msgs = []
      end
  | FromWatcher n =>
      match notices s !! n with
      | Some notice => ∃ map, msgs = payload_of <$> events map notice
      | None => msgs = []
      end
  end.

(** All that was said so far, in the order of the output. *)
Definition spoken (s : Server) : list message := written s ++ writer_queue s.

Record server_ok (s : Server) : Prop := {
  ok_queue : (length (writer_queue s) ≤ WRITER_QUEUE_CAPACITY)%nat;
  ok_duty src : duty s src (said src (spoken s) ++ left_of src (unsent s));
}.

Lemma said_app src l l' : said src (l ++ l') = said src l ++ said src l'.
Proof. unfold said. by rewrite omap_app. Qed.
Lemma said_one src m src' : said src [(src', m)] = if decide (src' = src) then [m] else [].
Proof. unfold said. simpl. by destruct (decide _). Qed.

Lemma left_of_insert src src' msgs u :
  left_of src (<[src' := msgs]> u) = if decide (src' = src) then msgs else left_of src u.
Proof.
  unfold left_of. case_decide as Hs; [subst; by rewrite lookup_insert_eq|by rewrite lookup_insert_ne].
Qed.

Lemma lookup_snoc {A} (l : list A) x n :
  (l ++ [x]) !! n = if decide (n = length l) then Some x else l !! n.
Proof.
  case_decide as Hn; [subst; by apply list_lookup_middle|].
  destruct (decide (n < length l)%nat); [by apply lookup_app_l|].
  rewrite !lookup_ge_None_2; [done|lia|]. rewrite length_app. simpl. lia.
Qed.

(** A source that had nothing to say starts to speak. *)
Lemma source_starts s s' src msgs :
  server_ok s → writer_queue s' = writer_queue s → written s' = written s →
  unsent s' = <[src := msgs]> (unsent s) →
  (∀ l, duty s src l → l = []) → duty s' src msgs →
  (∀ src' l, src' ≠ src → duty s src' l → duty s' src' l) → server_ok s'.
Proof.
  intros [Hq Hduty] Hq' Hw' Hu Hsilent Hnew Hothers. unfold spoken in *.
  split; [by rewrite Hq'|]. intros src'. unfold spoken. rewrite Hq', Hw', Hu, left_of_insert.
  case_decide as Hs; [subst src'|by apply Hothers].
  specialize (Hsilent _ (Hduty src)). apply app_nil in Hsilent as [-> _]. exact Hnew.
Qed.

Lemma boot_ok payloads : server_ok (boot payloads).
Proof.
  split; [unfold boot, WRITER_QUEUE_CAPACITY; simpl; lia|].
  intros [k|k|k]; unfold left_of; cbn; by rewrite lookup_empty.
Qed.

Lemma any_step_ok s s' : server_ok s → any_step s s' → server_ok s'.
Proof.
  intros Hok [Hstep|Hstep].
  - destruct Hstep as [|p ps ws ws' c q b w d n u o f req msgs _ _ Hc|
      |ps ws c req q b w d n u o f i msgs _ Hh| |ps ws c q b w d n u o f src m ms Hm Ho
      |ps ws c q b w d n u e o f];
      try (destruct Hok; by split).
    + apply (source_starts _ _ (FromMain (length c)) msgs Hok); try done; unfold duty; cbn.
      * by rewrite lookup_ge_None_2.
      * rewrite lookup_snoc, decide_True by done. by exists ws, ws'.
      * intros [k| |] l Hne Hl; [|done..]. rewrite lookup_snoc, decide_False by congruence. done.
    + apply (source_starts _ _ (FromWorker (length b)) msgs Hok); try done; unfold duty; cbn.
      * by rewrite lookup_ge_None_2.
      * by rewrite lookup_snoc, decide_True.
      * intros [|k|] l Hne Hl; [done| |done]. rewrite lookup_snoc, decide_False by congruence. done.
    + destruct Hok as [Hq Hduty]. split; unfold spoken in *; cbn [writer_queue written unsent] in *;
        [rewrite length_app; simpl; lia|].
      intros src'. specialize (Hduty src'). rewrite app_assoc, said_app, said_one, left_of_insert.
      case_decide as Hs; [subst src'|by rewrite app_nil_r].
      rewrite Hm in Hduty. by rewrite <-app_assoc.
    + destruct Hok as [Hq Hduty]. split; unfold spoken in *; cbn [writer_queue written unsent] in *;
        [simpl in Hq; lia|].
      intros src. rewrite <-app_assoc. exact (Hduty src).
  - destruct Hstep as [ps ws c q b w d n u o f notice _ _].
    apply (source_starts _ _ (FromWatcher (length n)) (payload_of <$> events (watched ws) notice) Hok);
      try done; unfold duty; cbn.
    + by rewrite lookup_ge_None_2.
    + rewrite lookup_snoc, decide_True by done. by eexists.
    + intros [| |k] l Hne Hl; [done..|]. rewrite lookup_snoc, decide_False by congruence. done.
Qed.

Lemma server_reachable payloads s : rtc any_step (boot payloads) s → server_ok s.
Proof.
  intros Hs. pose proof (boot_ok payloads) as Hboot. revert Hboot.
  induction Hs as [|s1 s2 s3 Hstep _ IH]; [done|]. intros Hok. by eapply IH, any_step_ok.
Qed.

(** ** Coming to rest *)

(** How many items a map of lists holds. *)
Definition mass `{Countable K} {A} (u : gmap K (list A)) : nat :=
  sum_list_with (λ kv : K * list A, length kv.2) (map_to_list u).

Lemma mass_insert `{Countable K} {A} (k : K) (msgs : list A) u :
  (mass (<[k := msgs]> u) + length (default ([] : list A) (u !! k)) = mass u + length msgs)%nat.
Proof.
  assert (∀ (v : gmap K (list A)), v !! k = None → ∀ l : list A, mass (<[k := l]> v) = (length l + mass v)%nat) as Hins.
  { intros v Hv l. unfold mass. by rewrite map_to_list_insert. }
  destruct (u !! k) as [old|] eqn:Hu.
  - rewrite <-(insert_delete_id u k old Hu) at 2. rewrite <-insert_delete_eq.
    rewrite !Hins by apply lookup_delete_eq. simpl. lia.
  - rewrite Hins by done. simpl. lia.
Qed.

(** A step that is none of the pool's brings a message nearer to the output. *)
Definition weight (s : Server) : nat := 2 * mass (unsent s) + length (writer_queue s).

Lemma step_progresses s s' :
  server_step s s' →
  pool_step (pool_of s) (pool_of s') ∨ pool_of s = pool_of s' ∧ (weight s' < weight s)%nat.
Proof.
  intros Hstep. destruct (step_simulates_pool s s' (or_introl Hstep)) as [Hpool|Hpool]; [by left|].
  destruct Hstep as [| | | | |ps ws c q b w d n u o f src m ms Hm Ho|];
    try (apply (f_equal (length ∘ pending)) in Hpool; simpl in Hpool; lia).
  - apply (f_equal (length ∘ taken)) in Hpool. simpl in Hpool. rewrite length_app in Hpool.
    simpl in Hpool. lia.
  - apply (f_equal (length ∘ finished)) in Hpool. simpl in Hpool. rewrite !length_fmap, length_app in Hpool.
    simpl in Hpool. lia.
  - right. split; [done|]. unfold weight. cbn [unsent writer_queue].
    pose proof (mass_insert src ms u) as Hmass. unfold left_of in Hm. rewrite Hm in Hmass. rewrite length_app. simpl in *. lia.
  - right. split; [done|]. unfold weight. simpl. lia.
Qed.

(** Without new notifications the server comes to rest. *)
Lemma server_rests s : sn server_step s.
Proof.
  remember (work (pool_of s)) as a eqn:Ha. revert s Ha. induction (lt_wf a) as [a _ IHa]. intros s.
  remember (weight s) as b eqn:Hb. revert s Hb. induction (lt_wf b) as [b _ IHb].
  intros s -> ->. constructor. intros s' Hstep.
  apply step_progresses in Hstep as [Hpool|[Hpool Hweight]].
  - by eapply IHa; [by apply pool_step_work in Hpool|].
  - by eapply IHb; [exact Hweight| |by rewrite Hpool].
Qed.

(** Some run of each handler returns, if only because no child can be started. *)
Lemma runs_total req : ∃ events msgs, runs req events msgs.
Proof.
  do 2 eexists. exists quiet_kernel, steady_clock, sample_session. split; [done|].
  split; [by apply handle_fs_returns|done].
Qed.
Lemma handles_total req : ∃ msgs, handles req msgs.
Proof. destruct (runs_total req) as (events & msgs & Hruns). by exists msgs, events. Qed.
Lemma controls_total req ws : ∃ ws' msgs, controls req ws ws' msgs.
Proof. do 2 eexists. exists quiet_kernel, sample. by split. Qed.

(** At rest nothing is left to be done or said. *)
Lemma server_progress payloads s :
  rtc any_step (boot payloads) s → (∀ s', ¬ server_step s s') →
  writer_queue s = [] ∧ (∀ src, left_of src (unsent s) = []) ∧ ∀ p', ¬ pool_step (pool_of s) p'.
Proof.
  intros Hs Hstuck. destruct s as [ps ws c q b w d n u o f].
  assert (o = []) as ->. { destruct o; [done|]. exfalso. by eapply Hstuck, server_writes. }
  assert (∀ src, left_of src u = []) as Hleft.
  { intros src. destruct (left_of src u) eqn:Hu; [done|]. exfalso. eapply Hstuck, server_sends; [done|].
    unfold WRITER_QUEUE_CAPACITY. simpl. lia. }
  split_and!; [done|done|]. intros p' Hpool. unfold pool_of in Hpool.
  cbn [input controlled job_queue begun workers completed] in Hpool.
  inversion Hpool as [p ps' h q' t r fi Hr E1 E2|p ps' h q' t r fi req Hr|p ps' h q' t r fi req Hr Hq
    |ps' h req q' t r fi i Hr|ps' h q' t r fi i req Hr]; subst.
  - by eapply Hstuck, server_skips; [intros k; apply Hleft|].
  - destruct (controls_total req ws) as (ws' & msgs & Hc).
    by eapply Hstuck, server_controls; [intros k; apply Hleft| |].
  - by eapply Hstuck, server_submits; [intros k; apply Hleft| |].
  - destruct (handles_total req) as (msgs & Hh).
    rewrite list_lookup_fmap in Hr. destruct (w !! i) as [[x|]|] eqn:Hi; try done.
    by eapply Hstuck, server_takes.
  - rewrite list_lookup_fmap in Hr. destruct (w !! i) as [[[k x]|]|] eqn:Hi; try done.
    by eapply Hstuck, server_finishes; [|apply Hleft].
Qed.
End server.

(** ** Replies *)
Section replying.
Context `{Directories, JsonLaws, Base64, Environment, !Receiver, !Alive, Notify, HashOrder, Build}.

Lemma control_plain `{Kernel} op path : returns plain (control op path).
Proof.
  unfold control, hello. destruct (decide _); [returns_tac|]. destruct (decide _).
  { apply returns_bind. intros canon s v. unfold on_watches, add_watch.
    intros Hv. repeat case_match; simplify_eq/=; by apply plain_obj. }
  destruct (decide _); [|returns_tac]. intros s v. unfold on_watches, remove_watch.
  intros Hv. repeat case_match; simplify_eq/=; by apply plain_obj.
Qed.

Lemma main_channel_control `{Kernel} op path s : main_channel (control op path s).2 = main_channel s.
Proof.
  unfold control. destruct (decide _); [done|]. destruct (decide _).
  { unfold main_io, on_watches, mbind, stm_bind. destruct (canonical path _) as [[canon|error] w']; [|done].
    cbn [watches]. by destruct (add_watch path canon _). }
  destruct (decide _); [|done]. unfold on_watches. by destruct (remove_watch path _).
Qed.

Lemma controls_final req ws ws' msgs :
  controls req ws ws' msgs → ∃ final, final_reply (request_id req) final ∧ msgs = delivered final.
Proof.
  intros (K & w & _ & ->). set (s := mkMain _ _ _).
  set (op := default "" (get_str req "op")). set (path := default "" (get_str req "path")).
  exists (finish_value (request_id req) (control op path s).1). split.
  - apply finish_final; [apply request_id_range|]. intros v. apply control_plain.
  - pose proof (main_channel_control op path s) as Hc. unfold handle_ctl, attempt, main_tell, mbind, stm_bind.
    fold op path. destruct (control op path s) as [r s1]. cbn [fst snd main_channel] in *.
    unfold finish. by rewrite sent_send, Hc.
Qed.

Lemma handles_answer req msgs :
  handles req msgs → ∃ chunks final, Forall (chunk_reply (request_id req)) chunks ∧
    final_reply (request_id req) final ∧ msgs = (payload_of <$> chunks) ++ delivered final.
Proof.
  intros (events & K & P & s & Hs & Hret & _ & ->).
  destruct (wp_handle_fs req s) as [(_ & chunks & final & Hc & Hf & Hsent)|(Hhangs & _)]; [|congruence].
  exists chunks, final. by rewrite Hsent, Hs.
Qed.

(** What is sent past the check of its length: batches of a listing, notifications. *)
Definition unchecked (m : message) : Prop :=
  match m.1 with
  | FromMain _ => False
  | FromWorker _ => ∃ id v, chunk_reply id v ∧ m.2 = payload_of v
  | FromWatcher _ => True
  end.

Lemma delivered_checked m v : m ∈ delivered v → fits m.
Proof.
  unfold delivered. destruct (Z.leb_spec (Z.of_nat (length (payload_of v))) MAX_FRAME_BYTES) as [Hle|]; [|by intros ?%elem_of_nil].
  by intros ->%list_elem_of_singleton.
Qed.

Lemma spoken_said src m l : (src, m) ∈ l → m ∈ said src l.
Proof. intros Hin. apply list_elem_of_omap. exists (src, m). split; [done|]. simpl. by rewrite decide_True. Qed.

(** All other messages are within the limit. *)
Lemma spoken_checked s m : server_ok s → m ∈ spoken s → fits m.2 ∨ unchecked m.
Proof.
  intros [_ Hduty] Hin. destruct m as [src m]. specialize (Hduty src). apply spoken_said in Hin. cbn [fst snd].
  assert (m ∈ said src (spoken s) ++ left_of src (unsent s)) as Hsaid by (apply elem_of_app; by left).
  unfold unchecked, duty in *. cbn [fst snd]. destruct src as [k|n|n]; [| |by right].
  - destruct (controlled s !! k) as [req|]; [|rewrite Hduty in Hsaid; by apply elem_of_nil in Hsaid].
    destruct Hduty as (ws & ws' & Hc). apply controls_final in Hc as (final & _ & Hmsgs). rewrite Hmsgs in Hsaid.
    left. by eapply delivered_checked.
  - destruct (begun s !! n) as [req|]; [|rewrite Hduty in Hsaid; by apply elem_of_nil in Hsaid].
    apply handles_answer in Hduty as (chunks & final & Hchunks & _ & Hmsgs). rewrite Hmsgs in Hsaid.
    apply elem_of_app in Hsaid as [Hsaid|Hsaid]; [|left; by eapply delivered_checked].
    right. apply list_elem_of_fmap in Hsaid as (v & -> & Hv). rewrite Forall_forall in Hchunks. eauto.
Qed.

(** What a complete answer is made of. *)
Lemma answer_cases l chunks final :
  l = (payload_of <$> chunks) ++ delivered final →
  (fits (payload_of final) → l = (payload_of <$> chunks) ++ [payload_of final]) ∧
  (¬ fits (payload_of final) → l = payload_of <$> chunks).
Proof. intros ->. split; intros Hfits; [by rewrite delivered_fits|by rewrite delivered_not, app_nil_r]. Qed.
End replying.

(** ** Properties *)

(** C11: the replies reach the client. However the main loop, the watcher, the workers
    and the writer interleave on a standing connection, the writer's queue holds at
    most 64 messages. What standard output holds decodes to the messages written, each
    whole, provided that the batches of listings and the notifications, which are sent
    past the check of their length, are within the frame limit (all others are). And for
    every job, and every control request, what was written, queued and is left of its own
    messages is, in order, one answer: messages marked [more], then one final message; but
    without the final message where that is beyond the limit (it is dropped, and the
    request has no answer). *)
Theorem replies_reach_client `{Directories, JsonLaws, Base64, Environment, !Receiver, !Alive,
    Notify, HashOrder, Build} payloads s :
  rtc any_step (boot payloads) s →
  (length (writer_queue s) ≤ WRITER_QUEUE_CAPACITY)%nat ∧
  (Forall (λ m, unchecked m → fits m.2) (written s) → frames (standard_output s) = snd <$> written s) ∧
  (∀ n req, begun s !! n = Some req →
     let all := said (FromWorker n) (written s ++ writer_queue s) ++ left_of (FromWorker n) (unsent s) in
     ∃ chunks final,
     Forall (chunk_reply (request_id req)) chunks ∧ final_reply (request_id req) final ∧
     (fits (payload_of final) → all = (payload_of <$> chunks) ++ [payload_of final]) ∧
     (¬ fits (payload_of final) → all = payload_of <$> chunks)) ∧
  (∀ k req, controlled s !! k = Some req →
     let all := said (FromMain k) (written s ++ writer_queue s) ++ left_of (FromMain k) (unsent s) in
     ∃ final, final_reply (request_id req) final ∧
     (fits (payload_of final) → all = [payload_of final]) ∧ (¬ fits (payload_of final) → all = [])).
Proof.
  intros Hs. pose proof (server_reachable payloads s Hs) as Hok. pose proof Hok as [Hq Hduty]. split_and!; [done| | |].
  - intros Hunchecked.
    assert (Forall fits (snd <$> written s)) as Hfits.
    { apply Forall_fmap, Forall_forall. intros m Hm. rewrite Forall_forall in Hunchecked.
      destruct (spoken_checked s m Hok) as [|Hu]; [by apply elem_of_app; left|done|by apply Hunchecked]. }
    unfold standard_output. rewrite list_fmap_compose.
    rewrite <-(app_nil_r (concat _)), frames_concat by done. by rewrite frames_none, app_nil_r.
  - intros n req Hn. specialize (Hduty (FromWorker n)). unfold duty in Hduty. rewrite Hn in Hduty.
    apply handles_answer in Hduty as (chunks & final & Hc & Hf & Hall). exists chunks, final.
    split; [done|]. split; [done|]. by apply answer_cases.
  - intros k req Hk. specialize (Hduty (FromMain k)). unfold duty in Hduty. rewrite Hk in Hduty.
    destruct Hduty as (ws & ws' & Hc). apply controls_final in Hc as (final & Hf & Hall). exists final.
    split; [done|]. by apply (answer_cases _ []).
Qed.

(** ** Witnesses *)
Section witnesses.
#[local] Existing Instances quiet_kernel plain_directories no_home connected steady_clock willing
  map_order a_build.

(** Nothing left to read, to do or to say. *)
Lemma done_rests ws c b d n u f s' :
  (∀ src, left_of src u = []) → ¬ server_step (mkServer [] ws c [] b (replicate FS_WORKER_COUNT None) d n u [] f) s'.
Proof.
  intros Hleft Hstep. inversion Hstep as [| | | |? ? ? ? ? ? ? ? ? ? ? i k req Hi|? ? ? ? ? ? ? ? ? ? ? src m ms Hm|]; subst.
  - change (replicate FS_WORKER_COUNT (None : option (nat * Value)) !! i = Some (Some (k, req))) in Hi.
    by apply lookup_replicate in Hi as [Hi _].
  - by rewrite Hleft in Hm.
Qed.

(** A request without an operation is run by the fourth worker, and answered. *)
Definition one_request : list (list byte) := [ascii_bytes "null"].
Definition its_answer : list byte := payload_of (finish_value 0 (Err "unknown fs op: ")).
Definition all_done : Server := mkServer [] (mkWatches ∅ ∅ 0) [] [] [null]
  (replicate FS_WORKER_COUNT None) [(0%nat, null)] []
  (<[FromWorker 0 := []]> (<[FromWorker 0 := [its_answer]]> ∅)) [] [(FromWorker 0, its_answer)].

Lemma all_done_reached : rtc any_step (boot one_request) all_done.
Proof.
  assert (handles null [its_answer]) as Hh.
  { eexists _, quiet_kernel, steady_clock, sample_session. split; [done|]. split; [by apply handle_fs_returns|].
    split; [reflexivity|vm_compute; reflexivity]. }
  eapply rtc_l; [left; apply server_submits; [intros k; reflexivity|reflexivity|]|].
  { unfold FS_JOB_QUEUE_CAPACITY. simpl. lia. }
  eapply rtc_l; [left; by apply (server_takes _ _ _ _ _ _ _ _ _ _ _ _ 3 [its_answer])|].
  eapply rtc_l; [left; apply (server_sends _ _ _ _ _ _ _ _ _ _ _ (FromWorker 0) its_answer [])|].
  { unfold left_of. by rewrite lookup_insert_eq. }
  { unfold WRITER_QUEUE_CAPACITY. simpl. lia. }
  eapply rtc_l; [left; apply server_writes|].
  eapply rtc_l; [left; apply (server_finishes _ _ _ _ _ _ _ _ _ _ _ 3 0 null)|apply rtc_refl].
  - reflexivity.
  - unfold left_of. by rewrite lookup_insert_eq.
Qed.

Lemma replies_reach_client_witness :
  rtc any_step (boot one_request) all_done ∧
  frames (standard_output all_done) = [its_answer] ∧
  ∃ chunks final, Forall (chunk_reply 0) chunks ∧ final_reply 0 final ∧
    (fits (payload_of final) → [its_answer] = (payload_of <$> chunks) ++ [payload_of final]) ∧
    (¬ fits (payload_of final) → [its_answer] = payload_of <$> chunks).
Proof.
  split; [exact all_done_reached|].
  destruct (replies_reach_client one_request all_done all_done_reached) as (_ & Hframes & Hjobs & _).
  split.
  - apply Hframes. repeat constructor. intros _. unfold fits, MAX_FRAME_BYTES. vm_compute. discriminate.
  - exact (Hjobs 0%nat null eq_refl).
Defined.
End witnesses.
