(* ===== verification/Rest.v ===== *)
(** * The server comes to rest

    The threads of [Delivery.v] with what can hold a worker up: the mutation lock, and
    calls that do not return. What a worker does for a job is, in order, what one run of
    [handle_fs] does: taking the lock, giving it back, sending its messages ([script]); its
    file-system calls come between these. At any of them it may be blocked for ever, by a
    FIFO, an unavailable mount or a child that no kill ends ([live_hangs]); it then keeps
    the lock, if it has it.

    The input stays open: a state whose [input] is empty waits for more. When the input
    ends, the process exits at once, whatever is still queued. The main loop's and the
    writer's own calls return. *)
From S2P Require Import Prelude MachineInt Text Json Kernel Files Reference RevisionTypes Framing Exec FsHandlers Locking Requests Control Server Delivery.
Local Open Scope string_scope.
Local Open Scope list_scope.
Local Open Scope Z_scope.
Local Set Warnings "-clear-no-such-hyp".

(** ** What a job does *)

Inductive Action := Locks | Unlocks | Says (m : list byte) | Waits.

Definition lock_action (e : Event) : option Action :=
  match e with Acquired => Some Locks | Released => Some Unlocks | Called _ _ => None end.
Definition word (a : Action) : option (list byte) := match a with Says m => Some m | _ => None end.

(** The lock is taken at most while it is not held, and given back. *)
Fixpoint balanced (held : bool) (l : list Action) : Prop :=
  match l with
  | [] => held = false
  | Locks :: l => held = false ∧ balanced true l
  | Unlocks :: l => held = true ∧ balanced false l
  | (Says _ | Waits) :: l => balanced held l
  end.

Lemma disciplined_balanced held l : disciplined held l → balanced held (omap lock_action l).
Proof. revert held. induction l as [|[| |b a] l IH]; intros held; simpl; naive_solver. Qed.

Lemma balanced_says held msgs l : balanced held ((Says <$> msgs) ++ l) ↔ balanced held l.
Proof. by induction msgs. Qed.
Lemma balanced_insert held n msgs l :
  balanced held l → balanced held (take n l ++ (Says <$> msgs) ++ drop n l).
Proof.
  revert held n. induction l as [|a l IH]; intros held [|n] Hl; simpl; try by apply balanced_says.
  destruct a; simpl in *; naive_solver.
Qed.

Lemma words_insert n msgs l :
  omap word l = [] → omap word (take n l ++ (Says <$> msgs) ++ drop n l) = msgs.
Proof.
  intros Hl. rewrite <-(take_drop n l), omap_app in Hl. apply app_nil in Hl as [Ht Hd].
  rewrite !omap_app, Ht, Hd, app_nil_r. simpl. induction msgs as [|m msgs IH]; simpl; [done|by f_equal].
Qed.
Lemma no_words l : omap word (omap lock_action l) = [].
Proof. by induction l as [|[| |]]. Qed.

Section live.
Context `{Directories, Json, Base64, Environment, Receiver, Notify, HashOrder, Build}.

(** One run, in order: where the reply is queued under the lock, the release is last. *)
Definition script (req : Value) (events : list Event) (msgs : list (list byte)) : list Action :=
  let ops := omap lock_action events in
  let n := if replies_locked req then pred (length ops) else length ops in
  take n ops ++ (Says <$> msgs) ++ drop n ops.

Lemma script_balanced req events msgs : runs req events msgs → balanced false (script req events msgs).
Proof.
  intros (K & P & s & _ & _ & -> & _). apply balanced_insert, disciplined_balanced.
  destruct (free_handle_fs req s) as (l & -> & Hl). by rewrite drop_app_length.
Qed.
Lemma script_words req events msgs : omap word (script req events msgs) = msgs.
Proof. apply words_insert, no_words. Qed.

(** ** Steps *)

(** The threads; what each job begun has still to do; the job that holds the lock. *)
Record Live := mkLive { parts : Server; plans : gmap nat (list Action); owner : option nat }.

Definition plan_of (pl : gmap nat (list Action)) (k : nat) : list Action := default [] (pl !! k).

Inductive live_step : Live → Live → Prop :=
| live_moves s s' pl o :
    server_step s s' → begun s' = begun s → workers s' = workers s →
    (∀ k, left_of (FromWorker k) (unsent s') = left_of (FromWorker k) (unsent s)) →
    live_step (mkLive s pl o) (mkLive s' pl o)
| live_takes s s' pl o i req events msgs :
    server_step s s' → workers s !! i = Some None → begun s' = begun s ++ [req] →
    workers s' = <[i := Some (length (begun s), req)]> (workers s) →
    unsent s' = <[FromWorker (length (begun s)) := msgs]> (unsent s) → runs req events msgs →
    live_step (mkLive s pl o) (mkLive s' (<[length (begun s) := script req events msgs]> pl) o)
| live_says s s' pl o k m acts :
    plan_of pl k = Says m :: acts → server_step s s' → begun s' = begun s → workers s' = workers s →
    (∀ j, left_of (FromWorker j) (unsent s) = (if decide (j = k) then [m] else []) ++ left_of (FromWorker j) (unsent s')) →
    live_step (mkLive s pl o) (mkLive s' (<[k := acts]> pl) o)
| live_locks s pl k acts :
    plan_of pl k = Locks :: acts → live_step (mkLive s pl None) (mkLive s (<[k := acts]> pl) (Some k))
| live_unlocks s pl o k acts :
    plan_of pl k = Unlocks :: acts → live_step (mkLive s pl o) (mkLive s (<[k := acts]> pl) None)
| live_finishes s s' pl o i k req :
    plan_of pl k = [] → workers s !! i = Some (Some (k, req)) →
    server_step s s' → begun s' = begun s → workers s' = <[i := None]> (workers s) → unsent s' = unsent s →
    live_step (mkLive s pl o) (mkLive s' pl o).

Definition underway (s : Server) (k : nat) : Prop := ∃ i req, workers s !! i = Some (Some (k, req)).

(** What comes from outside: a notification, a call that blocks for ever. *)
Inductive live_mishap : Live → Live → Prop :=
| live_hears s s' pl o : notice_step s s' → live_mishap (mkLive s pl o) (mkLive s' pl o)
| live_hangs s pl o k : underway s k → live_mishap (mkLive s pl o) (mkLive s (<[k := Waits :: plan_of pl k]> pl) o).

Definition lit (payloads : list (list byte)) : Live := mkLive (boot payloads) ∅ None.

(** ** Invariant *)
Record live_ok (payloads : list (list byte)) (l : Live) : Prop := {
  live_reach : rtc any_step (boot payloads) (parts l);
  live_words k : left_of (FromWorker k) (unsent (parts l)) = omap word (plan_of (plans l) k);
  live_plan k : balanced (bool_decide (owner l = Some k)) (plan_of (plans l) k);
  live_busy k : plan_of (plans l) k ≠ [] → underway (parts l) k;
  live_fresh k : (length (begun (parts l)) ≤ k)%nat → plan_of (plans l) k = [];
  live_known k : underway (parts l) k → (k < length (begun (parts l)))%nat;
}.

Lemma plan_insert pl j acts k : plan_of (<[j := acts]> pl) k = if decide (j = k) then acts else plan_of pl k.
Proof. unfold plan_of. case_decide as Hj; [subst; by rewrite lookup_insert_eq|by rewrite lookup_insert_ne]. Qed.

Lemma underway_same s s' k : workers s' = workers s → underway s' k ↔ underway s k.
Proof. unfold underway. by intros ->. Qed.

(** Job [k] has done the first action of its plan. *)
Lemma live_acts payloads s s' pl o o' k a acts :
  live_ok payloads (mkLive s pl o) → plan_of pl k = a :: acts →
  rtc any_step (boot payloads) s' → begun s' = begun s → workers s' = workers s →
  (∀ j, left_of (FromWorker j) (unsent s') = omap word (plan_of (<[k := acts]> pl) j)) →
  balanced (bool_decide (o' = Some k)) acts →
  (∀ j, j ≠ k → o' = Some j ↔ o = Some j) →
  live_ok payloads (mkLive s' (<[k := acts]> pl) o').
Proof.
  intros [Hreach Hwords Hplan Hbusy Hfresh Hknown] Hk Hs' Hb Hw Hleft Hbal Ho. cbn [parts plans owner] in *.
  split; cbn [parts plans owner]; [done|done|..].
  - intros j. rewrite plan_insert. destruct (decide (k = j)) as [<-|Hj]; [done|].
    rewrite (bool_decide_ext _ _ (Ho j (not_eq_sym Hj))). apply Hplan.
  - intros j Hj. rewrite plan_insert in Hj. apply (underway_same s s' j Hw), Hbusy.
    destruct (decide (k = j)) as [<-|]; [by rewrite Hk|done].
  - intros j Hj. rewrite plan_insert. rewrite Hb in Hj. destruct (decide (k = j)) as [<-|]; [|by apply Hfresh].
    by rewrite Hfresh in Hk.
  - intros j Hj%(underway_same s s' j Hw). rewrite Hb. by apply Hknown.
Qed.

Lemma lit_ok payloads : live_ok payloads (lit payloads).
Proof.
  split; cbn; try done. intros k (i & req & Hi). cbn in Hi.
  change (replicate FS_WORKER_COUNT (None : option (nat * Value)) !! i = Some (Some (k, req))) in Hi.
  by apply lookup_replicate in Hi as [Hi _].
Qed.

Lemma live_step_ok payloads l l' : live_ok payloads l → live_step l l' → live_ok payloads l'.
Proof.
  intros Hok Hstep. pose proof Hok as [Hreach Hwords Hplan Hbusy Hfresh Hknown].
  destruct Hstep as [s s' pl o Hs Hb Hw Hleft|s s' pl o i req events msgs Hs Hi Hb Hw Hu Hruns
    |s s' pl o k m acts Hk Hs Hb Hw Hleft|s pl k acts Hk|s pl o k acts Hk|s s' pl o i k req Hk Hi Hs Hb Hw Hu];
    cbn [parts plans owner] in *; try assert (rtc any_step (boot payloads) s') as Hreach' by (eapply rtc_r; [done|by left]).
  - split; cbn [parts plans owner]; [done|..|done| | |].
    + intros k. by rewrite Hleft.
    + intros k Hk. by apply (underway_same s s' k Hw), Hbusy.
    + intros k. rewrite Hb. apply Hfresh.
    + intros k Hk%(underway_same s s' k Hw). rewrite Hb. by apply Hknown.
  - assert (o ≠ Some (length (begun s))) as Hfree.
    { intros ->. specialize (Hplan (length (begun s))). rewrite bool_decide_eq_true_2, Hfresh in Hplan by done. done. }
    split; cbn [parts plans owner]; [done|..].
    + intros k. rewrite Hu, left_of_insert, plan_insert.
      destruct (decide (length (begun s) = k)) as [->|Hk]; [by rewrite decide_True, script_words|].
      rewrite decide_False by congruence. apply Hwords.
    + intros k. rewrite plan_insert. destruct (decide (length (begun s) = k)) as [<-|Hk]; [|apply Hplan].
      rewrite bool_decide_eq_false_2 by done. by apply script_balanced.
    + intros k. rewrite plan_insert. unfold underway. rewrite Hw. apply lookup_lt_Some in Hi as Hlt.
      destruct (decide (length (begun s) = k)) as [<-|Hk].
      * intros _. exists i, req. by apply list_lookup_insert_eq.
      * intros (j & req' & Hj)%Hbusy. exists j, req'. rewrite list_lookup_insert_ne; [done|]. intros ->. congruence.
    + intros k Hk. rewrite Hb, length_app in Hk. simpl in Hk. rewrite plan_insert, decide_False by lia. apply Hfresh. lia.
    + intros k (j & req' & Hj). rewrite Hb, length_app. rewrite Hw in Hj. simpl.
      apply list_lookup_insert_Some in Hj as [(_ & [= <- _] & _)|[_ Hj]]; [lia|].
      assert (underway s k) as Hk%Hknown by (by exists j, req'). lia.
  - eapply (live_acts _ s s' pl o o k); [done..| | |done].
    + intros j. specialize (Hleft j). rewrite Hwords in Hleft. rewrite plan_insert. rewrite (decide_ext (j = k) (k = j)) in Hleft by (split; congruence).
      destruct (decide (k = j)) as [<-|]; [|done]. rewrite Hk in Hleft. simpl in Hleft. by injection Hleft.
    + specialize (Hplan k). by rewrite Hk in Hplan.
  - pose proof (Hplan k) as Hbal. rewrite Hk in Hbal. destruct Hbal as [_ Hbal].
    eapply (live_acts _ s s pl None (Some k) k); [done..| | |].
    + intros j. rewrite Hwords, plan_insert. by destruct (decide (k = j)) as [<-|]; [rewrite Hk|].
    + by rewrite bool_decide_eq_true_2.
    + intros j Hj. split; congruence.
  - pose proof (Hplan k) as Hbal. rewrite Hk in Hbal. destruct Hbal as [Ho%bool_decide_eq_true Hbal]. subst o.
    eapply (live_acts _ s s pl (Some k) None k); [done..| | |].
    + intros j. rewrite Hwords, plan_insert. by destruct (decide (k = j)) as [<-|]; [rewrite Hk|].
    + by rewrite bool_decide_eq_false_2.
    + intros j Hj. split; congruence.
  - split; cbn [parts plans owner]; [done|..|done| | |].
    + intros j. by rewrite Hu.
    + intros j Hj. destruct (Hbusy j Hj) as (i' & req' & Hi'). exists i', req'. rewrite Hw.
      rewrite list_lookup_insert_ne; [done|]. intros ->. congruence.
    + intros j. rewrite Hb. apply Hfresh.
    + intros j (i' & req' & Hi'). rewrite Hb. rewrite Hw in Hi'.
      apply list_lookup_insert_Some in Hi' as [(_ & ? & _)|[_ Hi']]; [done|]. apply Hknown. by exists i', req'.
Qed.

Lemma notice_same s s' :
  notice_step s s' → begun s' = begun s ∧ workers s' = workers s ∧
  ∀ k, left_of (FromWorker k) (unsent s') = left_of (FromWorker k) (unsent s).
Proof. destruct 1. split_and!; [done..|]. intros k. cbn [unsent]. by rewrite left_of_insert. Qed.

Lemma live_mishap_ok payloads l l' : live_ok payloads l → live_mishap l l' → live_ok payloads l'.
Proof.
  intros Hok Hstep. pose proof Hok as [Hreach Hwords Hplan Hbusy Hfresh Hknown].
  destruct Hstep as [s s' pl o Hs|s pl o k Hrun]; cbn [parts plans owner] in *.
  - destruct (notice_same s s' Hs) as (Hb & Hw & Hleft). split; cbn [parts plans owner]; [|..|done| | |].
    + eapply rtc_r; [done|by right].
    + intros k. by rewrite Hleft.
    + intros k Hk. by apply (underway_same s s' k Hw), Hbusy.
    + intros k. rewrite Hb. apply Hfresh.
    + intros k Hk%(underway_same s s' k Hw). rewrite Hb. by apply Hknown.
  - split; cbn [parts plans owner]; [done|..|done].
    + intros j. rewrite Hwords, plan_insert. by destruct (decide (k = j)) as [<-|].
    + intros j. rewrite plan_insert. destruct (decide (k = j)) as [<-|]; apply Hplan.
    + intros j Hj. rewrite plan_insert in Hj. destruct (decide (k = j)) as [<-|]; [done|by apply Hbusy].
    + intros j Hj. rewrite plan_insert. destruct (decide (k = j)) as [<-|]; [|by apply Hfresh].
      apply Hknown in Hrun. lia.
Qed.

Definition live_any (l l' : Live) : Prop := live_step l l' ∨ live_mishap l l'.
Lemma live_reachable payloads l : rtc live_any (lit payloads) l → live_ok payloads l.
Proof.
  intros Hl. pose proof (lit_ok payloads) as Hok. revert Hok.
  induction Hl as [|l1 l2 l3 [Hstep|Hstep] _ IH]; [done|..]; intros Hok; apply IH.
  - by eapply live_step_ok.
  - by eapply live_mishap_ok.
Qed.

(** ** Termination *)

Lemma live_rests l : sn live_step l.
Proof.
  destruct l as [s pl o]. revert pl o. induction (server_rests s) as [s _ IH]. intros pl.
  remember (mass pl) as n eqn:Hn. revert pl Hn. induction (lt_wf n) as [n _ IHn]. intros pl -> o.
  assert (∀ k a acts o', plan_of pl k = a :: acts → sn live_step (mkLive s (<[k := acts]> pl) o')) as Hacts.
  { intros k a acts o' Hk. eapply IHn; [|done]. pose proof (mass_insert k acts pl) as Hm.
    unfold plan_of in Hk. rewrite Hk in Hm. simpl in Hm. lia. }
  constructor. intros l' Hstep. inversion Hstep; subst; by eauto.
Qed.

(** ** At rest *)

(** Job [k] is in a call that does not return; it waits for the lock. *)
Definition hung (l : Live) (k : nat) : Prop := ∃ acts, plan_of (plans l) k = Waits :: acts.
Definition wants_lock (l : Live) (k : nat) : Prop := ∃ acts, plan_of (plans l) k = Locks :: acts.

(** A move of the other threads, or of the writer. *)
Lemma resting_others s pl o s' :
  (∀ l', ¬ live_step (mkLive s pl o) l') → server_step s s' → begun s' = begun s → workers s' = workers s →
  ¬ ∀ k, left_of (FromWorker k) (unsent s') = left_of (FromWorker k) (unsent s).
Proof. intros Hrest Hs Hb Hw Hleft. by eapply Hrest, live_moves. Qed.

(** The main loop, the watcher and the writer have said what they had to say. *)
Lemma resting_said s pl o :
  (∀ l', ¬ live_step (mkLive s pl o) l') →
  writer_queue s = [] ∧ ∀ src, (∀ k, src ≠ FromWorker k) → left_of src (unsent s) = [].
Proof.
  intros Hrest. destruct s as [ps ws c q b w d n u out f]. cbn [writer_queue unsent].
  assert (out = []) as ->.
  { destruct out; [done|]. exfalso. by eapply (resting_others _ pl o _ Hrest); [apply server_writes|..]. }
  split; [done|]. intros src Hsrc. destruct (left_of src u) as [|m ms] eqn:Hu; [done|]. exfalso.
  eapply (resting_others _ pl o _ Hrest); [eapply server_sends; [exact Hu|]|done|done|].
  { unfold WRITER_QUEUE_CAPACITY. simpl. lia. }
  intros k. cbn [unsent]. by rewrite left_of_insert, decide_False by apply Hsrc.
Qed.

(** A job at rest is in a call that does not return, or waits for the lock that
    such a job holds. *)
Lemma resting_jobs payloads l k :
  live_ok payloads l → (∀ l', ¬ live_step l l') → underway (parts l) k →
  hung l k ∨ wants_lock l k ∧ ∃ j, owner l = Some j ∧ hung l j.
Proof.
  intros Hok Hrest Hk. destruct l as [s pl o]. destruct (resting_said s pl o Hrest) as [Hqueue _].
  pose proof Hok as [_ Hwords Hplan Hbusy _ _]. cbn [parts plans owner] in *.
  assert (∀ j m acts, plan_of pl j ≠ Says m :: acts) as Hsays.
  { intros j m acts Hj. pose proof (Hwords j) as Hw. rewrite Hj in Hw. simpl in Hw.
    destruct s as [ps ws c q b w d n u out f]. cbn [writer_queue unsent] in *. subst out.
    eapply Hrest, (live_says _ _ _ _ j m acts Hj); [apply (server_sends _ _ _ _ _ _ _ _ _ _ _ _ _ _ Hw)|done|done|].
    { unfold WRITER_QUEUE_CAPACITY. simpl. lia. }
    intros j'. cbn [unsent]. rewrite left_of_insert. destruct (decide (j' = j)) as [->|Hne].
    - by rewrite decide_True.
    - by rewrite decide_False by congruence. }
  assert (∀ j acts, plan_of pl j ≠ Unlocks :: acts) as Hunlocks by (intros j acts Hj; by eapply Hrest, live_unlocks).
  unfold hung, wants_lock. cbn [plans owner].
  destruct (plan_of pl k) as [|[| |m|] acts] eqn:Hpk; [| |by destruct (Hunlocks k acts)|by destruct (Hsays k m acts)|eauto].
  - exfalso. destruct Hk as (i & req & Hi). pose proof (Hwords k) as Hleft. rewrite Hpk in Hleft. simpl in Hleft.
    destruct s as [ps ws c q b w d n u out f]. cbn [workers unsent] in *.
    by eapply Hrest, (live_finishes _ _ _ _ i k req Hpk); [|by apply server_finishes|..].
  - right. split; [eauto|]. destruct o as [j|]; [|by destruct (Hrest (mkLive s (<[k := acts]> pl) (Some k))); apply live_locks].
    exists j. split; [done|]. specialize (Hplan j). rewrite bool_decide_eq_true_2 in Hplan by done.
    destruct (plan_of pl j) as [|[| |m|] acts'] eqn:Hpj; [done|by destruct Hplan|by destruct (Hunlocks j acts')
      |by destruct (Hsays j m acts')|eauto].
Qed.

(** With a worker left, no request is left. *)
Lemma resting_requests payloads l i :
  live_ok payloads l → (∀ l', ¬ live_step l l') → workers (parts l) !! i = Some None →
  input (parts l) = [] ∧ job_queue (parts l) = [].
Proof.
  intros Hok Hrest Hi. destruct l as [s pl o]. destruct (resting_said s pl o Hrest) as [_ Hsaid]. cbn [parts] in *.
  destruct s as [ps ws c q b w d n u out f]. cbn [workers unsent input job_queue] in *.
  assert (q = []) as ->.
  { destruct q as [|req q]; [done|]. exfalso. destruct (runs_total req) as (events & msgs & Hruns).
    eapply Hrest, (live_takes _ _ _ _ i req events msgs); [apply server_takes; [exact Hi|by exists events]|done..]. }
  split; [|done]. destruct ps as [|p ps]; [done|]. exfalso.
  assert (main_ready (mkServer (p :: ps) ws c [] b w d n u out f)) as Hready by (intros k; by apply Hsaid).
  destruct (route p) as [|req|req] eqn:Hr.
  - by eapply (resting_others _ pl o _ Hrest); [apply server_skips|..].
  - destruct (controls_total req ws) as (ws' & msgs & Hc).
    eapply (resting_others _ pl o _ Hrest); [by eapply server_controls|done|done|].
    intros k. cbn [unsent]. by rewrite left_of_insert.
  - eapply (resting_others _ pl o _ Hrest); [apply server_submits; [exact Hready|exact Hr|]|done..].
    unfold FS_JOB_QUEUE_CAPACITY. simpl. lia.
Qed.
End live.

(** ** Property *)

(** C12: the server neither forgets nor comes to a stop. While the input stays open: at every
    moment at most 64 jobs wait for a worker and there are eight workers; jobs have been
    begun, and control requests handled, in the order in which they were sent, and none is
    lost or repeated. If no new notifications arrive, and the main loop's own calls and the
    writer's return, every run comes to rest, whatever the schedule. When it rests, every
    job that is not done is held up by a call that never returns: its own, or that of the
    one job that holds the mutation lock for which it waits; all that others had to say has
    been written; and as long as one worker is left, every request has been begun. So if
    all calls return there is no deadlock: all requests have been run and answered. *)
Theorem server_comes_to_rest `{Directories, Json, Base64, Environment, Receiver, Notify,
    HashOrder, Build} payloads l :
  rtc live_any (lit payloads) l →
  let s := parts l in
  (length (job_queue s) ≤ FS_JOB_QUEUE_CAPACITY)%nat ∧ length (workers s) = FS_WORKER_COUNT ∧
  begun s ++ job_queue s ++ jobs (input s) = jobs payloads ∧
  controlled s ++ inline (input s) = inline payloads ∧
  sn live_step l ∧
  ((∀ l', ¬ live_step l l') →
     (∀ k, underway s k → hung l k ∨ wants_lock l k ∧ ∃ j, owner l = Some j ∧ hung l j) ∧
     writer_queue s = [] ∧
     (∀ src, (∀ k, src = FromWorker k → ¬ underway s k) → left_of src (unsent s) = []) ∧
     ((∃ i, workers s !! i = Some None) → begun s = jobs payloads ∧ controlled s = inline payloads) ∧
     ((∀ k, ¬ hung l k) →
        begun s = jobs payloads ∧ controlled s = inline payloads ∧ snd <$> completed s ≡ₚ jobs payloads)).
Proof.
  intros Hl. cbn zeta. pose proof (live_reachable payloads l Hl) as Hok.
  pose proof (pool_reachable payloads _ (simulates_pool payloads _ (live_reach _ _ Hok))) as Hpool.
  pose proof Hpool as [Hbound Hworkers Horder Hinline Honce]. simpl in Hworkers. rewrite length_fmap in Hworkers.
  split_and!; [exact Hbound|exact Hworkers|exact Horder|exact Hinline|apply live_rests|]. intros Hrest.
  assert (∀ i, workers (parts l) !! i = Some None → begun (parts l) = jobs payloads ∧ controlled (parts l) = inline payloads)
    as Hall.
  { intros i Hi. destruct (resting_requests payloads l i Hok Hrest Hi) as [Hin Hjobs].
    cbn in Horder, Hinline. rewrite Hin, Hjobs in *. simpl in *. by rewrite !app_nil_r in *. }
  assert (writer_queue (parts l) = [] ∧ ∀ src, (∀ k, src ≠ FromWorker k) → left_of src (unsent (parts l)) = [])
    as [Hqueue Hsaid] by (destruct l; by eapply resting_said).
  split_and!; [intros k; by eapply resting_jobs|done| |by intros [i Hi]; eapply Hall|].
  - intros src Hsrc. destruct src as [k|k|k]; try by apply Hsaid.
    rewrite (live_words _ _ Hok). destruct (plan_of (plans l) k) as [|a acts] eqn:Hk; [done|]. exfalso.
    apply (Hsrc k eq_refl), (live_busy _ _ Hok). by rewrite Hk.
  - intros Hnone.
    assert (∀ i x, workers (parts l) !! i = Some x → x = None) as Hidle.
    { intros i [[k req]|] Hi; [|done]. exfalso.
      destruct (resting_jobs payloads l k Hok Hrest) as [Hk|(_ & j & _ & Hj)]; [by exists i, req|by eapply Hnone..]. }
    destruct (workers (parts l) !! 0%nat) as [x|] eqn:Hfirst; [|apply lookup_ge_None in Hfirst; unfold FS_WORKER_COUNT in *; lia].
    pose proof (Hidle _ _ Hfirst) as ->. destruct (Hall 0%nat Hfirst) as [Hb Hc]. split_and!; [done..|].
    assert (at_work (pool_of (parts l)) = []) as Hwork.
    { apply elem_of_nil_inv. intros req Hreq. unfold at_work, pool_of in Hreq. cbn [running] in Hreq.
      apply list_elem_of_omap in Hreq as (o & Ho & Hreq). apply list_elem_of_fmap in Ho as (x & -> & Hx).
      apply list_elem_of_lookup in Hx as [i Hi]. by rewrite (Hidle i x Hi) in Hreq. }
    rewrite Hwork, app_nil_r in Honce. cbn in Honce. by rewrite <-Honce, Hb.
Qed.

(** ** Witness *)
Section witness.
#[local] Existing Instances quiet_kernel plain_directories no_home connected steady_clock willing
  map_order a_build.

(** Two requests without an operation. The fourth worker hangs with the first one; the
    sixth one answers the second. *)
Definition two_requests : list (list byte) := [ascii_bytes "null"; ascii_bytes "null"].
Definition answering : list Action := [Says its_answer].

Definition hanging_workers : list (option (nat * Value)) := <[3%nat := Some (0%nat, null)]> (replicate FS_WORKER_COUNT None).
Definition first_unsent : Outbox := <[FromWorker 0 := [its_answer]]> ∅.
Definition both_unsent : Outbox := <[FromWorker 1 := [its_answer]]> first_unsent.
Definition some_done : Server := mkServer [] (mkWatches ∅ ∅ 0) [] [] [null; null]
  (<[5%nat := None]> (<[5%nat := Some (1%nat, null)]> hanging_workers)) [(1%nat, null)] []
  (<[FromWorker 1 := []]> both_unsent) [] [(FromWorker 1, its_answer)].
Definition hung_plans : gmap nat (list Action) := <[0%nat := Waits :: answering]> (<[0%nat := answering]> ∅).
Definition one_hangs : Live := mkLive some_done (<[1%nat := []]> (<[1%nat := answering]> hung_plans)) None.

Lemma null_runs : runs null [] [its_answer].
Proof.
  exists quiet_kernel, steady_clock, sample_session. split; [done|]. split; [by apply handle_fs_returns|].
  split; [reflexivity|vm_compute; reflexivity].
Qed.

Lemma one_hangs_reached : rtc live_any (lit two_requests) one_hangs.
Proof.
  pose proof null_runs as Hruns. assert (handles null [its_answer]) as Hh by (by exists []).
  assert (script null [] [its_answer] = answering) as Hscript by reflexivity.
  assert (forall n, (n < 64)%nat → (n < FS_JOB_QUEUE_CAPACITY)%nat) as Hroom by done.
  eapply rtc_l; [left; eapply live_moves; [apply server_submits; [intros k; reflexivity|reflexivity|apply Hroom; simpl; lia]|done..]|].
  eapply rtc_l; [left; eapply live_moves; [apply server_submits; [intros k; reflexivity|reflexivity|apply Hroom; simpl; lia]|done..]|].
  eapply rtc_l; [left; eapply (live_takes _ _ _ _ 3 null [] [its_answer]); [by apply (server_takes _ _ _ _ _ _ _ _ _ _ _ _ 3 [its_answer])|done..]|].
  rewrite Hscript.
  eapply rtc_l; [right; apply (live_hangs _ _ _ 0%nat); by exists 3%nat, null|].
  eapply rtc_l; [left; eapply (live_takes _ _ _ _ 5 null [] [its_answer]); [by apply (server_takes _ _ _ _ _ _ _ _ _ _ _ _ 5 [its_answer])|done..]|].
  rewrite Hscript.
  eapply rtc_l; [left; eapply (live_says _ _ _ _ 1 its_answer []); [reflexivity|
    apply (server_sends _ _ _ _ _ _ _ _ _ _ _ (FromWorker 1) its_answer []); [reflexivity|unfold WRITER_QUEUE_CAPACITY; simpl; lia]|done|done|]|].
  { intros j. cbn [unsent]. rewrite !left_of_insert. destruct (decide (j = 1%nat)) as [->|Hj]; [reflexivity|].
    by rewrite !(decide_False (P := FromWorker 1 = FromWorker j)) by congruence. }
  eapply rtc_l; [left; eapply live_moves; [apply server_writes|done..]|].
  eapply rtc_l; [left; eapply (live_finishes _ _ _ _ 5 1 null); [reflexivity|reflexivity|apply (server_finishes _ _ _ _ _ _ _ _ _ _ _ 5 1 null); reflexivity|done..]|].
  apply rtc_refl.
Qed.

Lemma some_unsent src : left_of src (unsent some_done) = if decide (src = FromWorker 0) then [its_answer] else [].
Proof.
  unfold some_done, both_unsent, first_unsent. cbn [unsent]. rewrite !left_of_insert. unfold left_of.
  rewrite lookup_empty. repeat case_decide; subst; done.
Qed.

Lemma some_workers i k req : workers some_done !! i = Some (Some (k, req)) → k = 0%nat ∧ i = 3%nat.
Proof.
  cbn [some_done workers hanging_workers]. rewrite list_insert_insert_eq.
  intros [(_ & ? & _)|[_ [(<- & [= <- _] & _)|[_ Hi]]%list_lookup_insert_Some]]%list_lookup_insert_Some; [done|done|].
  by apply lookup_replicate in Hi as [Hi _].
Qed.

(** The threads could only send the answer of the request that hangs. *)
Lemma some_steps s' :
  server_step some_done s' →
  left_of (FromWorker 0) (unsent s') = [] ∧ begun s' = begun some_done ∧ workers s' = workers some_done.
Proof.
  intros Hstep. pose proof some_unsent as Hun. pose proof some_workers as Hwk. unfold some_done in *. cbn [unsent workers] in *.
  inversion Hstep as [| | | |? ? ? ? ? ? ? ? ? ? ? i k req Hi Hleft|? ? ? ? ? ? ? ? ? ? ? src m ms Hm|]; subst.
  - apply Hwk in Hi as [-> _]. rewrite Hun in Hleft. by rewrite decide_True in Hleft.
  - rewrite Hun in Hm. case_decide as Hsrc; [|done]. injection Hm as -> ->. subst src. split; [|done].
    cbn [unsent]. by rewrite left_of_insert, decide_True.
Qed.

Lemma hung_plan k : plan_of (plans one_hangs) k = if decide (k = 0%nat) then Waits :: answering else [].
Proof.
  unfold one_hangs, hung_plans. cbn [plans]. rewrite !plan_insert. unfold plan_of. rewrite lookup_empty.
  repeat case_decide; subst; done.
Qed.

Lemma one_hangs_rests l' : ¬ live_step one_hangs l'.
Proof.
  intros Hstep. pose proof hung_plan as Hplan. unfold one_hangs in *. cbn [plans] in Hplan.
  inversion Hstep as [? s' ? ? Hs _ _ Hleft|? s' ? ? i req ? ? Hs _ Hb|? ? ? ? k m acts Hk|? ? k acts Hk|? ? ? k acts Hk
    |? s' ? ? i k req _ Hi Hs _ Hw]; subst.
  - apply some_steps in Hs as (H0 & _). specialize (Hleft 0%nat). by rewrite H0, some_unsent in Hleft.
  - apply some_steps in Hs as (_ & Hbegun & _). rewrite Hbegun in Hb. apply (f_equal length) in Hb.
    rewrite length_app in Hb. simpl in Hb. lia.
  - rewrite Hplan in Hk. by case_decide.
  - rewrite Hplan in Hk. by case_decide.
  - rewrite Hplan in Hk. by case_decide.
  - apply some_steps in Hs as (_ & _ & Hworkers). rewrite Hworkers in Hw. apply (f_equal (lookup i)) in Hw.
    rewrite Hi, list_lookup_insert_eq in Hw; [done|]. by eapply lookup_lt_Some.
Qed.

Lemma server_comes_to_rest_witness :
  rtc live_any (lit two_requests) one_hangs ∧ sn live_step (lit two_requests) ∧
  hung one_hangs 0 ∧ begun some_done = jobs two_requests ∧ written some_done = [(FromWorker 1, its_answer)] ∧
  left_of (FromWorker 1) (unsent some_done) = [].
Proof.
  split; [exact one_hangs_reached|].
  destruct (server_comes_to_rest two_requests (lit two_requests) (rtc_refl _ _)) as (_ & _ & _ & _ & Hsn & _).
  split; [exact Hsn|].
  destruct (server_comes_to_rest two_requests one_hangs one_hangs_reached) as (_ & _ & _ & _ & _ & Hrest).
  destruct (Hrest one_hangs_rests) as (Hheld & _ & Hsaid & Hbegun & _).
  split; [destruct (Hheld 0%nat) as [Hh|(_ & j & Hj & _)]; [by exists 3%nat, null|exact Hh|done]|].
  split; [apply Hbegun; by exists 0%nat|]. split; [reflexivity|].
  apply Hsaid. intros k [= <-] (i & req & [Hk _]%some_workers). done.
Defined.
End witness.
