(* ===== verification/Whole.v ===== *)
(** * From the requests of the clients to their answers

    All parts at once: the threads of [Delivery.v], whose workers make their calls on one
    file system. What a worker does for a job is one run of [handle_fs] ([Handling]); its
    calls are made one at a time, in any order with those of the others that the mutex
    allows, and its last message goes out when only the release of the lock can be left.
    A run of the handler is chosen when its job is taken, the file systems that its calls
    will meet with it: a wrong choice gets stuck, and says nothing. *)
From S2P Require Import Prelude MachineInt Text Json Kernel Files Reference RevisionTypes ReadPath WritePath Framing Exec FsHandlers Locking Requests Saving Isolation Store Control Server Concurrent Linear Linearizable Delivery.
Local Open Scope string_scope.
Local Open Scope list_scope.
Local Open Scope Z_scope.
Local Set Warnings "-clear-no-such-hyp".

Section whole.
Context `{Directories, Json, Base64, Environment, Receiver, Processes, Notify, HashOrder, Build}.

(** The threads; the file system; the events of the workers so far; what each worker has
    still to do for its job; the jobs begun, each with its worker. *)
Record Whole := mkWhole {
  threads : Server;
  files : FS;
  past : history;
  agenda : gmap nat (list Event);
  taken_by : list (nat * Handling);
}.

Definition doing (a : gmap nat (list Event)) (i : nat) : list Event := default [] (a !! i).

Definition happens (e : Event) (f g : FS) : Prop :=
  match e with Called before after => before ≡ f ∧ g = after | _ => g = f end.

(** The last message of a job is sent when its calls have been made. *)
Definition may_say (s s' : Server) (a : gmap nat (list Event)) (jobs : list (nat * Handling)) : Prop :=
  ∀ n i h, jobs !! n = Some (i, h) →
    left_of (FromWorker n) (unsent s) ≠ [] → left_of (FromWorker n) (unsent s') = [] →
    doing a i = if replies_locked (request_of h) then [Released] else [].

Inductive whole_step : Whole → Whole → Prop :=
| whole_moves s s' f l a jobs :
    any_step s s' → begun s' = begun s → workers s' = workers s → may_say s s' a jobs →
    whole_step (mkWhole s f l a jobs) (mkWhole s' f l a jobs)
| whole_takes s s' f l a jobs i h :
    server_step s s' → workers s !! i = Some None → sent (channel (session_of h)) = [] →
    begun s' = begun s ++ [request_of h] →
    workers s' = <[i := Some (length (begun s), request_of h)]> (workers s) →
    unsent s' = <[FromWorker (length (begun s)) := sent (channel (session_after h))]> (unsent s) →
    whole_step (mkWhole s f l a jobs) (mkWhole s' f l (<[i := done_for h]> a) (jobs ++ [(i, h)]))
| whole_acts s f f' l a jobs i e es :
    doing a i = e :: es → (e = Acquired → holder l = None) → happens e f f' →
    whole_step (mkWhole s f l a jobs) (mkWhole s f' (l ++ [(i, e)]) (<[i := es]> a) jobs)
| whole_finishes s s' f l a jobs i job :
    server_step s s' → begun s' = begun s → workers s !! i = Some (Some job) →
    workers s' = <[i := None]> (workers s) → doing a i = [] →
    whole_step (mkWhole s f l a jobs) (mkWhole s' f l a jobs).

Definition switched_on (payloads : list (list byte)) (f : FS) : Whole := mkWhole (boot payloads) f [] ∅ [].

(** The handlings of worker [i]. *)
Definition handlings_of (i : nat) (jobs : list (nat * Handling)) : list Handling :=
  omap (λ x : nat * Handling, if decide (x.1 = i) then Some x.2 else None) jobs.

(** ** Invariant *)
Record whole_ok (payloads : list (list byte)) (f0 : FS) (w : Whole) : Prop := {
  ok_threads : rtc any_step (boot payloads) (threads w);
  ok_mutual : mutual None (past w);
  ok_chained : chained f0 (past w) (files w);
  ok_begun : begun (threads w) = (λ x, request_of x.2) <$> taken_by w;
  ok_events i : events_of i (past w) ++ doing (agenda w) i = concat (done_for <$> handlings_of i (taken_by w));
  ok_busy i : doing (agenda w) i ≠ [] → ∃ job, workers (threads w) !! i = Some (Some job);
  ok_said n i h : taken_by w !! n = Some (i, h) →
    said (FromWorker n) (spoken (threads w)) ++ left_of (FromWorker n) (unsent (threads w))
      = sent (channel (session_after h));
  ok_fresh : Forall (λ x, sent (channel (session_of x.2)) = []) (taken_by w);
  ok_answered n i h : taken_by w !! n = Some (i, h) → replies_locked (request_of h) = false →
    left_of (FromWorker n) (unsent (threads w)) = [] → sent (channel (session_after h)) ≠ [] →
    concat (done_for <$> handlings_of i (take (S n) (taken_by w))) `prefix_of` events_of i (past w);
}.

Lemma doing_insert a i j es : doing (<[i := es]> a) j = if decide (i = j) then es else doing a j.
Proof. unfold doing. case_decide as Hij; [subst; by rewrite lookup_insert_eq|by rewrite lookup_insert_ne]. Qed.

Lemma handlings_snoc i j h jobs :
  handlings_of i (jobs ++ [(j, h)]) = handlings_of i jobs ++ (if decide (j = i) then [h] else []).
Proof. unfold handlings_of. rewrite omap_app. simpl. by destruct (decide (j = i)). Qed.

Lemma mutual_snoc owner l e :
  mutual owner l → (e.2 = Acquired → foldl next_holder owner l = None) → mutual owner (l ++ [e]).
Proof.
  revert owner. induction l as [|x l IH]; intros owner; simpl; [done|]. intros [Hx Hl] He. split; [done|by apply IH].
Qed.

Lemma chained_snoc f0 l f i e g : chained f0 l f → happens e f g → chained f0 (l ++ [(i, e)]) g.
Proof.
  intros Hl He. apply chained_app. exists f. split; [done|]. destruct e as [| |b a]; simpl in *; [done..|].
  by destruct He as [Hb ->].
Qed.

(** Apart from jobs that are taken, what a job has said and is to say is the same. *)
Lemma same_words s s' n :
  any_step s s' → begun s' = begun s →
  said (FromWorker n) (spoken s') ++ left_of (FromWorker n) (unsent s')
    = said (FromWorker n) (spoken s) ++ left_of (FromWorker n) (unsent s).
Proof.
  unfold spoken. intros [Hstep|Hstep] Hbegun.
  - destruct Hstep as [| | |ps ws c req q b w d n0 u o f i msgs| |ps ws c q b w d n0 u o f src m ms Hm Ho
      |ps ws c q b w d n0 u e o f]; cbn [written writer_queue unsent begun] in *; try done.
    + by rewrite left_of_insert.
    + apply (f_equal length) in Hbegun. rewrite length_app in Hbegun. simpl in Hbegun. lia.
    + rewrite app_assoc, said_app, said_one, left_of_insert.
      case_decide as Hs; [subst src|by rewrite app_nil_r]. by rewrite Hm, <-app_assoc.
    + by rewrite <-app_assoc.
  - destruct Hstep. cbn [written writer_queue unsent]. by rewrite left_of_insert.
Qed.

Lemma finished_words s s' i job :
  server_step s s' → begun s' = begun s → workers s !! i = Some (Some job) → workers s' = <[i := None]> (workers s) →
  unsent s' = unsent s.
Proof.
  intros Hstep Hbegun Hi Hw.
  assert (workers s' ≠ workers s) as Hne.
  { rewrite Hw. intros Heq. apply (f_equal (lookup i)) in Heq. rewrite list_lookup_insert_eq, Hi in Heq; [done|].
    by eapply lookup_lt_Some. }
  destruct Hstep; cbn [workers begun unsent] in *; try done.
  apply (f_equal length) in Hbegun. rewrite length_app in Hbegun. simpl in Hbegun. lia.
Qed.

(** When a job is taken nothing has been said for it. *)
Lemma taken_words s s' req msgs :
  server_ok s → server_step s s' → begun s' = begun s ++ [req] →
  unsent s' = <[FromWorker (length (begun s)) := msgs]> (unsent s) →
  ∀ n, said (FromWorker n) (spoken s') ++ left_of (FromWorker n) (unsent s')
    = if decide (n = length (begun s)) then msgs
      else said (FromWorker n) (spoken s) ++ left_of (FromWorker n) (unsent s).
Proof.
  intros Hok Hstep Hbegun Hunsent n.
  assert (spoken s' = spoken s) as ->.
  { destruct Hstep; cbn [begun] in Hbegun; try done;
      apply (f_equal length) in Hbegun; rewrite length_app in Hbegun; simpl in Hbegun; lia. }
  rewrite Hunsent, left_of_insert. destruct (decide (n = length (begun s))) as [->|Hn].
  - rewrite decide_True by done. pose proof (ok_duty _ Hok (FromWorker (length (begun s)))) as Hduty.
    unfold duty in Hduty. rewrite lookup_ge_None_2 in Hduty by done. apply app_nil in Hduty as [-> _]. done.
  - by rewrite decide_False by congruence.
Qed.

Lemma handlings_prefix i jobs jobs' :
  jobs `prefix_of` jobs' → concat (done_for <$> handlings_of i jobs) `prefix_of` concat (done_for <$> handlings_of i jobs').
Proof. intros [more ->]. unfold handlings_of. rewrite omap_app, fmap_app, concat_app. by apply prefix_app_r. Qed.

Lemma switched_on_ok payloads f0 : whole_ok payloads f0 (switched_on payloads f0).
Proof.
  split; try done; intros i; unfold doing; simpl; by rewrite lookup_empty.
Qed.

Lemma idle_rests payloads f0 w i :
  whole_ok payloads f0 w → (∀ job, workers (threads w) !! i ≠ Some (Some job)) → doing (agenda w) i = [].
Proof.
  intros Hok Hidle. destruct (doing (agenda w) i) as [|e es] eqn:Hd; [done|].
  destruct (ok_busy _ _ _ Hok i) as [job Hjob]; [by rewrite Hd|]. by destruct (Hidle job).
Qed.

Lemma whole_step_ok payloads f0 w w' : whole_ok payloads f0 w → whole_step w w' → whole_ok payloads f0 w'.
Proof.
  intros Hok Hstep. pose proof Hok as [Hreach Hmut Hch Hbegun Hev Hbusy Hsaid Hsent Hans].
  destruct Hstep as [s s' f l a jobs Hmove Hb Hw Hsay|s s' f l a jobs i h Hmove Hi Hfresh Hb Hw Hu
    |s f f' l a jobs i e es Hi Hlock He|s s' f l a jobs i job Hmove Hb Hi Hw Hd];
    cbn [threads files past agenda taken_by] in *.
  - split; cbn [threads files past agenda taken_by]; try done.
    + by eapply rtc_r.
    + by rewrite Hb.
    + intros i Hd. rewrite Hw. by apply Hbusy.
    + intros n i h Hn. rewrite (same_words s s' n Hmove Hb). by apply (Hsaid n i).
    + intros n i h Hn Hunlocked Hleft Hwords. destruct (decide (left_of (FromWorker n) (unsent s) = [])) as [Hl|Hl].
      { by apply (Hans n i h). }
      pose proof (Hsay n i h Hn Hl Hleft) as Hd. rewrite Hunlocked in Hd. specialize (Hev i). rewrite Hd, app_nil_r in Hev.
      rewrite Hev. apply handlings_prefix. exists (drop (S n) jobs). by rewrite take_drop.
  - assert (doing a i = []) as Hidle.
    { apply (idle_rests payloads f0 (mkWhole s f l a jobs) i Hok). cbn [threads]. intros job. by rewrite Hi. }
    split; cbn [threads files past agenda taken_by]; try done.
    + eapply rtc_r; [done|by left].
    + by rewrite Hb, fmap_app, Hbegun.
    + intros j. rewrite doing_insert, handlings_snoc, fmap_app, concat_app, <-Hev. case_decide as Hj; [subst j|].
      * rewrite Hidle. simpl. by rewrite !app_nil_r.
      * by rewrite app_nil_r.
    + intros j Hj. rewrite doing_insert in Hj. rewrite Hw. case_decide as Hij; [subst j|].
      * eexists. apply list_lookup_insert_eq. by eapply lookup_lt_Some.
      * rewrite list_lookup_insert_ne by done. by apply Hbusy.
    + intros n j h' Hn. rewrite (taken_words s s' _ _ (server_reachable payloads s Hreach) Hmove Hb Hu).
      assert (length jobs = length (begun s)) as Hlen by (by rewrite Hbegun, length_fmap).
      rewrite lookup_snoc in Hn. rewrite Hlen in Hn. case_decide; [by injection Hn as -> ->|by apply (Hsaid n j)].
    + apply Forall_app. split; [done|]. by constructor.
    + intros n j h' Hn Hunlocked Hleft Hwords. rewrite Hu, left_of_insert in Hleft.
      assert (length jobs = length (begun s)) as Hlen by (by rewrite Hbegun, length_fmap).
      rewrite lookup_snoc, Hlen in Hn. destruct (decide (n = length (begun s))) as [->|Hnew].
      { injection Hn as -> ->. by rewrite decide_True in Hleft. }
      rewrite decide_False in Hleft by congruence.
      apply lookup_lt_Some in Hn as Hlt. rewrite take_app_le by lia. by apply (Hans n j h').
  - split; cbn [threads files past agenda taken_by]; try done.
    + apply mutual_snoc; [done|]. simpl. exact Hlock.
    + by eapply chained_snoc.
    + intros j. rewrite doing_insert, events_of_app, events_of_cons, <-Hev. case_decide as Hj; [subst j|].
      * by rewrite Hi, <-app_assoc.
      * by rewrite app_nil_r.
    + intros j Hj. rewrite doing_insert in Hj. apply Hbusy. case_decide as Hij; [subst j; by rewrite Hi|done].
    + intros n j h Hn Hunlocked Hleft Hwords. rewrite events_of_app. apply prefix_app_r. by apply (Hans n j h).
  - split; cbn [threads files past agenda taken_by]; try done.
    + eapply rtc_r; [done|by left].
    + by rewrite Hb.
    + intros j Hj. rewrite Hw. destruct (decide (i = j)) as [<-|Hij]; [done|].
      rewrite list_lookup_insert_ne by done. by apply Hbusy.
    + intros n j h Hn. rewrite (same_words s s' n (or_introl Hmove) Hb). by apply (Hsaid n j).
    + by rewrite (finished_words s s' i job).
Qed.

Lemma whole_reachable payloads f0 w : rtc whole_step (switched_on payloads f0) w → whole_ok payloads f0 w.
Proof.
  intros Hw. pose proof (switched_on_ok payloads f0) as Hok. revert Hok.
  induction Hw as [|w1 w2 w3 Hstep _ IH]; [done|]. intros Hok. by eapply IH, whole_step_ok.
Qed.

(** The [n]-th job is the next one of its worker. *)
Lemma handlings_split n i h jobs :
  jobs !! n = Some (i, h) → ∃ later, handlings_of i jobs = handlings_of i (take n jobs) ++ h :: later.
Proof.
  intros Hn. exists (handlings_of i (drop (S n) jobs)).
  rewrite <-(take_drop_middle jobs n (i, h) Hn) at 1. unfold handlings_of. rewrite omap_app. simpl.
  by rewrite decide_True.
Qed.

Lemma handlings_among i h jobs : h ∈ handlings_of i jobs → (i, h) ∈ jobs.
Proof.
  intros ([j h'] & Hin & Hs)%list_elem_of_omap. cbn [fst snd] in Hs. case_decide; [|done]. injection Hs as ->. by subst.
Qed.

Lemma whole_grows w w' : rtc whole_step w w' → past w `prefix_of` past w' ∧ taken_by w `prefix_of` taken_by w'.
Proof.
  induction 1 as [w|w1 w2 w3 Hstep _ [IHp IHt]]; [done|].
  split; [etransitivity; [|exact IHp]|etransitivity; [|exact IHt]];
    destruct Hstep; cbn [past taken_by]; (done || by apply prefix_app_r).
Qed.

(** Where the threads rest, everything has been done and said. *)
Lemma whole_rests payloads f0 w :
  whole_ok payloads f0 w → (∀ s', ¬ server_step (threads w) s') →
  begun (threads w) = jobs payloads ∧ writer_queue (threads w) = [] ∧
  (∀ src, left_of src (unsent (threads w)) = []) ∧ ∀ i, doing (agenda w) i = [].
Proof.
  intros Hok Hrest. pose proof (ok_threads _ _ _ Hok) as Hreach.
  destruct (server_progress payloads _ Hreach Hrest) as (Hqueue & Hleft & Hstuck).
  pose proof (pool_reachable payloads _ (simulates_pool payloads _ Hreach)) as Hpool.
  destruct (pool_progress payloads _ Hpool Hstuck) as (Hin & Hjobs & Hwork).
  pose proof Hpool as [_ _ Horder _ _]. rewrite Hin, Hjobs in Horder. cbn in Horder. rewrite app_nil_r in Horder.
  split; [exact Horder|]. split; [done|]. split; [done|]. intros i. apply (idle_rests payloads f0 w i Hok). intros job Hjob.
  apply (elem_of_nil (snd job)). rewrite <-Hwork. unfold at_work. apply list_elem_of_omap. exists (Some (snd job)).
  split; [|done]. apply list_elem_of_fmap. exists (Some job). split; [done|by eapply list_elem_of_lookup_2].
Qed.
End whole.

(** ** Spans in time *)

Section moments.
Context `{Directories, Json, Base64, Environment, Receiver, Processes, Notify, HashOrder, Build}.
Context (payloads : list (list byte)) (f0 : FS) (w w1 : Whole).
Context (Hok1 : whole_ok payloads f0 w1) (Htaken : taken_by w1 `prefix_of` taken_by w).

(** The final message of job [n] is on its way. *)
Definition concluded (n : nat) (s : Server) : Prop :=
  left_of (FromWorker n) (unsent s) = [] ∧ said (FromWorker n) (spoken s) ≠ [].

Lemma taken_early n : (length (begun (threads w1)) ≤ n)%nat → taken_by w1 `prefix_of` take n (taken_by w).
Proof.
  rewrite (ok_begun _ _ _ Hok1), length_fmap. intros Hn. destruct Htaken as [more ->].
  rewrite take_app_ge by done. by apply prefix_app_r.
Qed.

Lemma over_by_then n i h :
  taken_by w !! n = Some (i, h) → replies_locked (request_of h) = false → concluded n (threads w1) →
  concat (done_for <$> handlings_of i (take n (taken_by w))) ++ done_for h `prefix_of` events_of i (past w1).
Proof.
  intros Hn Hunlocked [Hleft Hsaid].
  assert (is_Some (begun (threads w1) !! n)) as [req Hreq].
  { destruct (begun (threads w1) !! n) eqn:Hb; [done|]. exfalso. apply Hsaid.
    pose proof (ok_duty _ (server_reachable payloads _ (ok_threads _ _ _ Hok1)) (FromWorker n)) as Hduty.
    unfold duty in Hduty. rewrite Hb in Hduty. by apply app_nil in Hduty as [-> _]. }
  rewrite (ok_begun _ _ _ Hok1) in Hreq. apply list_lookup_fmap_Some in Hreq as (x & _ & Hx).
  destruct Htaken as [more Hmore]. rewrite Hmore, (lookup_app_l_Some _ _ _ _ Hx) in Hn. injection Hn as ->.
  pose proof (ok_answered _ _ _ Hok1 n i h Hx Hunlocked Hleft) as Hover.
  rewrite <-(ok_said _ _ _ Hok1 n i h Hx), Hleft, app_nil_r in Hover. specialize (Hover Hsaid).
  apply lookup_lt_Some in Hx as Hlt. rewrite Hmore, take_app_le by lia.
  rewrite (take_S_r _ _ _ Hx), handlings_snoc, decide_True, fmap_app, concat_app in Hover by done.
  simpl in Hover. by rewrite app_nil_r in Hover.
Qed.
End moments.

Lemma events_prefix i l l' : l `prefix_of` l' → events_of i l `prefix_of` events_of i l'.
Proof. intros [more ->]. rewrite events_of_app. by apply prefix_app_r. Qed.

Lemma events_longer i l e l' : ¬ events_of i (l ++ (i, e) :: l') `prefix_of` events_of i l.
Proof.
  intros Hle%prefix_length. rewrite events_of_app, events_of_cons, decide_True, length_app in Hle by done. simpl in Hle. lia.
Qed.

Section spans.
Context (i : nat) (before span after : marked) (l : history).
Context (Hl : l `prefix_of` (before ++ span ++ after).*1) (Htight : tight i span) (Hown : (own i span).*1 ≠ []).

(** What had not begun then begins later. *)
Lemma span_begins_later : events_of i l `prefix_of` (own i before).*1 → l `prefix_of` before.*1.
Proof.
  rewrite own_events. intros Hevents. rewrite fmap_app in Hl.
  destruct (prefix_weak_total l before.*1 _ Hl (prefix_app_r _ _ _ (reflexivity _))) as [|[k ->]]; [done|].
  apply prefix_app_inv in Hl. destruct k as [|[j e] k]; [by rewrite app_nil_r|]. exfalso.
  destruct span as [|[[j' e'] m] span']; [done|]. apply prefix_cons_inv_1 in Hl as Hx. injection Hx as -> ->.
  assert (j' = i) as -> by (apply (Htight j'); by left). by apply (events_longer i before.*1 e' k).
Qed.

(** What was over then is over before. *)
Lemma span_ends_before : (own i (before ++ span)).*1 `prefix_of` events_of i l → (before ++ span).*1 `prefix_of` l.
Proof.
  rewrite own_events. intros Hevents. rewrite app_assoc, fmap_app in Hl.
  destruct (prefix_weak_total l (before ++ span).*1 _ Hl (prefix_app_r _ _ _ (reflexivity _))) as [[k Hk]|]; [|done].
  destruct span as [|[[j e] m] span' _] using rev_ind; [done|].
  assert (j = i) as ->. { apply (Htight j). right. rewrite !fmap_app. apply last_snoc. }
  destruct k as [|x k _] using rev_ind; [by rewrite app_nil_r in Hk; rewrite Hk|]. exfalso.
  rewrite app_assoc, fmap_app in Hk. cbn [fmap list_fmap fst] in Hk. rewrite app_assoc in Hk.
  apply app_inj_tail in Hk as [Hk <-].
  rewrite app_assoc, fmap_app in Hevents. cbn [fmap list_fmap fst] in Hevents.
  apply (events_longer i (before ++ span').*1 e []). etransitivity; [exact Hevents|].
  apply events_prefix. rewrite Hk. by apply prefix_app_r.
Qed.
End spans.

(** ** What the clients get *)
Section client.
Context `{Directories, JsonLaws, Base64Laws, Environment, !Receiver, !Alive, Processes, Notify, HashOrder, Build}.

Lemma asked_unlocked cmd req : asks cmd req → replies_locked req = false.
Proof.
  unfold replies_locked, expected_revision_from_request.
  intros [text req' [Hop _]|text v rev bytes req' [Hop Hpath Hst Hrev Hb Ha Hn] Hv|text bytes req' Hop Hpath Hst Hb Ha Hn];
    unfold str_or; rewrite Hop; [done|..]; rewrite Hst, ?Hrev, ?Hv, Ha, Hn; done.
Qed.

Lemma task_starts host t : task_ok host t → done_for t.2 ≠ [].
Proof.
  intros Htask. pose proof (task_asks _ _ Htask) as Hask. destruct t as [[path|path bytes expected] h]; cbn [snd].
  - destruct (done_for_fetch path h Hask) as (cs & -> & Hout & _). destruct (read_last _ _ _ _ Hout) as [e He]. by destruct cs.
  - by destruct (done_for_save path bytes expected h Hask) as (cs & -> & _).
Qed.

Lemma replied_sent h answer :
  replied h answer → sent (channel (session_of h)) = [] →
  ∃ reply, sent (channel (session_after h)) = delivered reply ∧ answer_of reply = Some answer.
Proof. intros (reply & Hc & Ha) Hs. exists reply. by rewrite Hc, sent_send, Hs. Qed.
End client.

(** ** Property *)

(** C6: the clients see a store. The server is switched on with some requests on its
    standard input, reads and conditional saves and others that change nothing; its
    threads run in any order until they rest. Then the workers' calls have a marking with
    effects that is a run of the compare-and-swap store, from what the file system showed
    at the start to what it shows now; and for every request to read or save, what was
    written to standard output is the one reply, which tells of the effect that the
    request has at one of its own calls (or that a read was refused while its file was
    replaced). The order of time is kept: at any moment of the run, the calls of a request
    not begun come later, and those of a request whose reply is on its way are over. *)
Theorem clients_see_a_store `{Directories, JsonLaws, Base64Laws, Environment, !Receiver, !Alive, Processes,
    Notify, HashOrder, Build} (host : Kernel) (commands : Value → option Command) payloads start w :
  host_ok start → rtc whole_step (switched_on payloads start) w → (∀ s', ¬ server_step (threads w) s') →
  (∀ i h, (i, h) ∈ taken_by w → given host (commands (request_of h), h)) →
  (∀ i h, (i, h) ∈ taken_by w → is_Some (commands (request_of h)) → roomy start (past w) h) →
  ∃ M : marked,
    M.*1 = past w ∧ store_trace (entry start) ((λ x, Asked x.1 x.2) <$> marks M) (entry (files w)) ∧
    ∀ n req cmd, jobs payloads !! n = Some req → commands req = Some cmd →
      ∃ reply answer i h before span after,
        said (FromWorker n) (written (threads w)) = delivered reply ∧ answer_of reply = Some answer ∧
        taken_by w !! n = Some (i, h) ∧ request_of h = req ∧ M = before ++ span ++ after ∧
        (own i before).*1 = concat (done_for <$> handlings_of i (take n (taken_by w))) ∧
        (own i span).*1 = done_for h ∧ tight i span ∧ effective cmd answer span (marks (own i span)) ∧
        ∀ w1, rtc whole_step (switched_on payloads start) w1 → rtc whole_step w1 w →
          ((length (begun (threads w1)) ≤ n)%nat → past w1 `prefix_of` before.*1) ∧
          (concluded n (threads w1) → (before ++ span).*1 `prefix_of` past w1).
Proof.
  intros Hhost Hrun Hrest Hgiven Hroom. pose proof (whole_reachable _ _ _ Hrun) as Hok.
  destruct (whole_rests _ _ _ Hok Hrest) as (Hbegun & Hqueue & Hleft & Hdone).
  set (task h := (commands (request_of h), h)). set (tasks i := task <$> handlings_of i (taken_by w)).
  assert (∀ i t, t ∈ tasks i → (i, t.2) ∈ taken_by w ∧ t.1 = commands (request_of t.2)) as Htasks.
  { intros i t (h & -> & Hh)%list_elem_of_fmap. by apply handlings_among in Hh. }
  assert (∀ hs : list Handling, (task <$> hs).*2 = hs) as Hsnd.
  { intros hs. rewrite <-list_fmap_compose. apply list_fmap_id. }
  destruct (linearization host (past w) tasks start (files w)) as (M & HMl & HM & Hserved).
  { apply (ok_mutual _ _ _ Hok). }
  { apply (ok_chained _ _ _ Hok). }
  { done. }
  { intros i. unfold tasks. by rewrite Hsnd, <-(ok_events _ _ _ Hok), Hdone, app_nil_r. }
  { intros i [o h] [Hin Ho]%Htasks. cbn [fst snd] in *. subst o. by apply (Hgiven i). }
  { intros i cmd h [Hin Ho]%Htasks. cbn [fst snd] in *. apply (Hroom i); [done|]. by rewrite <-Ho. }
  exists M. split; [exact HMl|]. split; [by eapply explains_run|]. intros n req cmd Hn Hcmd.
  rewrite <-Hbegun, (ok_begun _ _ _ Hok) in Hn. apply list_lookup_fmap_Some in Hn as ([i h] & -> & Hn). cbn [snd] in *.
  destruct (handlings_split n i h (taken_by w) Hn) as (later & Hsplit).
  destruct (Hserved i (task <$> handlings_of i (take n (taken_by w))) (Some cmd, h) (task <$> later)) as
    (before & span & after & HMs & (Hb & Hs & Htight) & answer & Hrep & Heff).
  { unfold tasks. rewrite Hsplit, fmap_app, fmap_cons. unfold task at 2. by rewrite Hcmd. }
  cbn [snd] in *. rewrite Hsnd in Hb.
  assert (task_ok host (cmd, h)) as Htask.
  { pose proof (Hgiven i h (list_elem_of_lookup_2 _ _ _ Hn)) as Hg. unfold given in Hg. cbn [fst snd] in Hg. by rewrite Hcmd in Hg. }
  pose proof (task_starts host (cmd, h) Htask) as Hstarts. cbn [snd] in Hstarts.
  pose proof (ok_fresh _ _ _ Hok) as Hfresh. rewrite Forall_forall in Hfresh.
  specialize (Hfresh _ (list_elem_of_lookup_2 _ _ _ Hn)). cbn [snd] in Hfresh.
  destruct (replied_sent h answer Hrep Hfresh) as (reply & Hsent & Hans).
  pose proof (ok_said _ _ _ Hok n i h Hn) as Hsaid. unfold spoken in Hsaid.
  rewrite Hqueue, Hleft, !app_nil_r, Hsent in Hsaid.
  exists reply, answer, i, h, before, span, after. do 9 (split; [done|]).
  intros w1 Hw1 Hrest1. pose proof (whole_reachable _ _ _ Hw1) as Hok1.
  destruct (whole_grows _ _ Hrest1) as [Hpast Htaken]. rewrite <-HMl, HMs in Hpast. rewrite <-Hs in Hstarts.
  split.
  - intros Hlate. eapply span_begins_later; [exact Hpast|done..|]. rewrite Hb.
    assert (taken_by w1 `prefix_of` take n (taken_by w)) as Hfew.
    { by apply (taken_early payloads start). }
    etransitivity; [|by apply handlings_prefix]. rewrite <-(ok_events _ _ _ Hok1). by apply prefix_app_r.
  - intros [Hleft1 Hsaid1]. eapply span_ends_before; [exact Hpast|done..|].
    rewrite own_app, fmap_app, Hb, Hs.
    apply (over_by_then payloads start w w1 Hok1 Htaken); [done| |done].
    exact (asked_unlocked _ _ (task_asks _ _ Htask)).
Qed.

(** ** Witness *)
Section witness.
#[local] Existing Instances plain_directories no_home connected steady_clock willing map_order a_build.

(** What a worker has to do, without the lock, it does. *)
Lemma acts_all s f l a jobs i es g :
  doing a i = es → Forall (λ e, e ≠ Acquired) es → chained f (pair i <$> es) g →
  ∃ a', doing a' i = [] ∧ rtc whole_step (mkWhole s f l a jobs) (mkWhole s g (l ++ (pair i <$> es)) a' jobs).
Proof.
  intros Ha Hes. revert f l a Ha. induction Hes as [|e es He _ IH]; intros f l a Ha Hch.
  { simpl in Hch. subst g. exists a. split; [done|]. rewrite app_nil_r. apply rtc_refl. }
  assert (∃ f1, happens e f f1 ∧ chained f1 (pair i <$> es) g) as (f1 & Hf1 & Hch1).
  { destruct e as [| |b c]; [by exists f..|]. destruct Hch as [Hb Hch]. by exists c. }
  destruct (IH f1 (l ++ [(i, e)]) (<[i := es]> a)) as (a' & Ha' & Hrtc); [by rewrite doing_insert, decide_True|done|].
  exists a'. split; [done|]. eapply rtc_l; [by apply (whole_acts s f f1 l a jobs i e es)|].
  by rewrite <-app_assoc in Hrtc.
Qed.

(** The note is read by the fourth worker. *)
Definition asking : Value := read_the_note.
Definition fourth : Handling := mkHandling quiet_kernel sample_session asking.
Definition its_reply : list byte := payload_of (finish_revision_value 0
  (result_map read_value (read_with_revision (H := quiet_kernel) note (world sample_session)).1)).
Definition ask_for_note (req : Value) : option Command := Some (Fetch note).
Definition after_reading : Server := mkServer [] (mkWatches ∅ ∅ 0) [] [] [asking]
  (replicate FS_WORKER_COUNT None) [(0%nat, asking)] []
  (<[FromWorker 0 := []]> (<[FromWorker 0 := [its_reply]]> ∅)) [] [(FromWorker 0, its_reply)].
Definition after_calls : FS := w_fs (world (session_after fourth)).
Definition after_all (a : gmap nat (list Event)) : Whole :=
  mkWhole after_reading after_calls (pair 3%nat <$> done_for fourth) a [(3%nat, fourth)].

Lemma fourth_says : sent (channel (session_after fourth)) = [its_reply].
Proof. vm_compute. reflexivity. Qed.
Lemma fourth_acts : Forall (λ e, e ≠ Acquired) (done_for fourth).
Proof. apply (bool_decide_unpack (Forall (λ e, e ≠ Acquired) (done_for fourth))). vm_compute. exact I. Qed.
Lemma fourth_chained : chained sample_fs (pair 3%nat <$> done_for fourth) after_calls.
Proof. apply (@bool_decide_unpack _ (chained_dec _ _ _)). vm_compute. exact I. Qed.


(** The threads on the way. *)
Definition busy_workers : list (option (nat * Value)) := <[3%nat := Some (0%nat, asking)]> (replicate FS_WORKER_COUNT None).
Definition waiting : Server := mkServer [] (mkWatches ∅ ∅ 0) [] [asking] [] (replicate FS_WORKER_COUNT None) [] [] ∅ [] [].
Definition working : Server :=
  mkServer [] (mkWatches ∅ ∅ 0) [] [] [asking] busy_workers [] [] (<[FromWorker 0 := [its_reply]]> ∅) [] [].
Definition replying o f : Server :=
  mkServer [] (mkWatches ∅ ∅ 0) [] [] [asking] busy_workers [] []
    (<[FromWorker 0 := []]> (<[FromWorker 0 := [its_reply]]> ∅)) o f.

Lemma submitted : server_step (boot [payload_of asking]) waiting.
Proof.
  apply (server_submits _ [] _ [] [] [] _ [] [] _ [] [] asking); [by intros k|vm_compute; reflexivity|].
  unfold FS_JOB_QUEUE_CAPACITY. simpl. lia.
Qed.
Lemma taken : server_step waiting working.
Proof.
  apply (server_takes [] _ [] asking [] [] _ [] [] ∅ [] [] 3 [its_reply]); [done|].
  eexists _, quiet_kernel, steady_clock, sample_session. split; [done|]. split; [vm_compute; reflexivity|].
  split; [|symmetry; exact fourth_says]. reflexivity.
Qed.
Lemma replied_to : server_step working (replying [(FromWorker 0, its_reply)] []).
Proof.
  apply (server_sends [] _ [] [] [asking] _ [] [] _ [] [] (FromWorker 0) its_reply []).
  - by rewrite left_of_insert, decide_True.
  - unfold WRITER_QUEUE_CAPACITY. simpl. lia.
Qed.
Lemma wrote : server_step (replying [(FromWorker 0, its_reply)] []) (replying [] [(FromWorker 0, its_reply)]).
Proof. apply (server_writes [] _ [] [] [asking] _ [] [] _ (FromWorker 0, its_reply) [] []). Qed.
Lemma finished_it : server_step (replying [] [(FromWorker 0, its_reply)]) after_reading.
Proof.
  apply (server_finishes [] _ [] [] [asking] busy_workers [] [] _ [] _ 3 0 asking); [done|].
  by rewrite left_of_insert, decide_True.
Qed.

Lemma after_all_reached : ∃ a, rtc whole_step (switched_on [payload_of asking] sample_fs) (after_all a).
Proof.
  destruct (acts_all working sample_fs [] (<[3%nat := done_for fourth]> ∅) [(3%nat, fourth)] 3 (done_for fourth) after_calls)
    as (a & Ha & Hacts); [by rewrite doing_insert, decide_True|exact fourth_acts|exact fourth_chained|].
  exists a. eapply rtc_l; [apply (whole_moves _ waiting); [left; exact submitted|done|done|by intros n i h]|].
  eapply rtc_l; [apply (whole_takes waiting working _ _ _ _ 3 fourth);
    [exact taken|done|done|done|done|by rewrite fourth_says]|].
  etransitivity; [exact Hacts|].
  eapply rtc_l; [apply (whole_moves working (replying [(FromWorker 0, its_reply)] [])); [left; exact replied_to|done|done|]|].
  { intros n i h Hn _ _. apply list_lookup_singleton_Some in Hn as [_ Hn]. injection Hn as <- <-. by rewrite Ha. }
  eapply rtc_l; [apply (whole_moves (replying [(FromWorker 0, its_reply)] []) (replying [] [(FromWorker 0, its_reply)]));
    [left; exact wrote|done|done|by intros n i h _ Hne He]|].
  eapply rtc_l; [apply (whole_finishes (replying [] [(FromWorker 0, its_reply)]) after_reading _ _ _ _ 3 (0%nat, asking));
    [exact finished_it|done|done|done|exact Ha]|apply rtc_refl].
Qed.

Lemma after_reading_rests s' : ¬ server_step after_reading s'.
Proof.
  apply done_rests. intros src. rewrite left_of_insert. case_decide; [done|].
  rewrite left_of_insert, decide_False by done. unfold left_of. by rewrite lookup_empty.
Qed.

Lemma fourth_task : task_ok quiet_kernel (Fetch note, fourth).
Proof.
  split; [done|exact _..| |done|exact note_is_ordinary].
  apply (asks_fetch "/d/note"). split; vm_compute; reflexivity.
Qed.
Lemma fourth_room : roomy sample_fs (pair 3%nat <$> done_for fourth) fourth.
Proof.
  apply (roomy_check (λ fs, (0 <=? next_ino fs) && (next_ino fs <? 2 ^ 64))); [apply scripted_addressable|].
  vm_compute. reflexivity.
Qed.
Lemma one_job : jobs [payload_of asking] = [asking].
Proof. vm_compute. reflexivity. Qed.
Lemma only_fourth i h : (i, h) ∈ [(3%nat, fourth)] → h = fourth.
Proof. generalize fourth. by intros h' [= _ ->]%list_elem_of_singleton. Qed.

#[local] Opaque fourth after_reading.
Lemma clients_see_a_store_witness :
  ∃ a reply answer, rtc whole_step (switched_on [payload_of asking] sample_fs) (after_all a) ∧
    said (FromWorker 0) (written after_reading) = delivered reply ∧ answer_of reply = Some answer ∧
    ∃ M : marked, M.*1 = past (after_all a) ∧
      store_trace (entry sample_fs) ((λ x, Asked x.1 x.2) <$> marks M) (entry after_calls).
Proof.
  destruct after_all_reached as [a Ha].
  destruct (clients_see_a_store quiet_kernel ask_for_note [payload_of asking] sample_fs (after_all a)) as (M & HM & Htrace & Hserved).
  - apply (sample_at_ok (30, 7)).
  - exact Ha.
  - exact after_reading_rests.
  - intros i h ->%only_fourth. exact fourth_task.
  - intros i h ->%only_fourth _. exact fourth_room.
  - destruct (Hserved 0%nat asking (Fetch note)) as (reply & answer & _ & _ & _ & _ & _ & Hsaid & Hans & _); [by rewrite one_job|done|].
    exists a, reply, answer. split; [exact Ha|]. split; [exact Hsaid|]. split; [exact Hans|].
    exists M. split; [exact HM|exact Htrace].
Defined.
End witness.
